(* ===== verification/_CoqProject ===== *)
-Q . S2P
Prelude.v
Text.v
Frame.v
Accounting.v
Admin.v
Sniff.v
Service.v
Net.v
Config.v
Storage.v
Backup.v
Rules.v
Flow.v
State.v
Traffic.v
Session.v
Control.v
Policy.v
Scenario.v
Shutdown.v
ControlFacts.v
RestartFacts.v
SessionFacts.v
CacheFacts.v
LimitFacts.v
OrderingFacts.v
AccountFacts.v
FairFacts.v
Abi.v
Noise.v
NoiseFacts.v
NoiseNet.v
NoiseHandshakes.v
Bridge.v
Socket.v
HttpConnect.v
Socks.v
SocksFacts.v
SocksLife.v
Wake.v
WakeTable.v
Tcp.v
TcpFacts.v
Ssh.v
SshFacts.v
SshWakes.v
SshWorker.v
Direct.v
DirectFacts.v
DirectIo.v
ClientStreams.v
Tun.v
ProtectionDummy.v
PolicyDummy.v
Stack.v
TcpStack.v
