(* ===== verification/Prelude.v ===== *)
(** * Verification of snolc-modules

    The repository holds the loadable modules of a proxy: adapters that accept
    or originate connections (modules/adapter-direct, -socks5, -http-connect,
    -tun), carriers that transport bytes (carrier-tcp, carrier-ssh), protections
    that secure them (protection-noise, protection-dummy) and policies
    (policy-local, policy-dummy) that decide who may use the service.  This
    development models all of them and proves what makes each correct.

    ** How the program works

    The host connects the modules.  An adapter announces a flow, which the
    policy admits; a carrier gives a byte stream, which a protection wraps; the
    host's stack and multiplexer run over it.  Every module has the same shape:
    the host calls functions of a table ([create] or [initialize], [poll],
    [control], [shutdown], [destroy] and those of its kind), an instance is an
    entry of a map of the process, nothing blocks, and what cannot be done yet is
    answered PENDING and done in a later poll.

    policy-local is the largest module: a server-side policy with users,
    credentials, quotas, rates, rules on destinations and protocols, an
    administrative interface and a durable store.  Its instance keeps the state
    of lib.rs ([State]) and talks to a storage thread (storage.rs) over a bounded
    queue; answers come back over one-shot channels that are polled.  A session
    authenticates with a credential: the storage is asked for the credential
    record, then for the user record, and the clock of the user is written back.
    A flow of an authenticated session is admitted by the rules, possibly watched
    until its protocol is known (sniff.rs), and scheduled by weighted deficit
    round robin within the token buckets and the quota credit of its user
    (accounting.rs).  An administrative mutation is prepared in memory, written
    together with its receipt in one transaction, and takes effect when the write
    is durable.

    protection-noise secures a stream: a handshake of two framed messages, then
    framed records, each driven from the host's polls over a stream that may take
    or give any part of what it is asked for.  carrier-tcp and carrier-ssh own the
    sockets; carrier-ssh runs a worker thread and hands its streams over through a
    pipe (bridge.rs) of two threads.  adapter-socks5 and adapter-http-connect parse
    the request of a client and keep its flow; adapter-direct resolves and connects
    in a worker thread; adapter-tun moves packets of a network device.

    ** Files

    - Prelude.v, Text.v: results, machine integers, polls, automation; bytes,
      UTF-8, ASCII, decimal text and paths as the Rust library has them.

    policy-local (modules/policy-local/src):
    - Frame.v (frame.rs): the length-prefixed control frames and their decoder.
    - Accounting.v (accounting.rs): [QuotaAccount] and [TokenBucket].
    - Admin.v (admin.rs): identifiers, user specifications, weekly schedules,
      stored records, control requests and the receipt sequencer.
    - Sniff.v (sniff.rs): the protocol classifiers.
    - Service.v (service.rs): client requests and the [SessionChannel].
    - Net.v: the textual addresses of the standard library.
    - Config.v (config.rs): options, rules and their validation.
    - Storage.v (storage.rs): the tables, the worker and its queue, the file
      backend given to redb; Backup.v (storage.rs): opening, backup and restoration
      on a file system whose calls may fail and which may crash between any two of
      them.
    - Rules.v (lib.rs): from a destination to a verdict or a sniffing policy.
    - Flow.v (lib.rs): the TCP and UDP flows and their sniffing phase.
    - State.v (lib.rs): the records of the instance.
    - Traffic.v (lib.rs): availability, limits, grants, charges and
      [advance_quota].
    - Session.v (lib.rs): sessions, authentication and the host's calls on
      sessions and flows.
    - Control.v (lib.rs): [control_instance] and everything below it.
    - Policy.v (lib.rs): [validate_module], [initialize], [poll_instance],
      [shutdown_instance]; Shutdown.v (storage.rs, lib.rs): the [Drop] of the
      storage worker and [destroy_instance].
    - Scenario.v: a concrete world (database, codecs, documents, states) in which
      the theorems on the whole instance are exercised.
    - ControlFacts.v, RestartFacts.v, SessionFacts.v, CacheFacts.v, LimitFacts.v,
      OrderingFacts.v, AccountFacts.v, FairFacts.v: theorems on the whole instance.

    The other modules (modules/<name>/src/lib.rs):
    - Abi.v: the status codes, I/O results and stream tables that modules and host
      exchange.
    - Noise.v (protection-noise): framing, handshake, records, keys, and the
      functions of the module; NoiseFacts.v: its loops, keys and maps;
      NoiseNet.v: two secured streams over a network; NoiseHandshakes.v: client and
      server over a network, and a toy cipher in which the theorems are exercised.
    - Bridge.v (carrier-ssh, bridge.rs): one direction of the pipe as a step
      relation of two threads, one atomic operation a step.
    - Socket.v: socket addresses and the answers of non-blocking sockets.
    - HttpConnect.v (adapter-http-connect).
    - Socks.v (adapter-socks5); SocksFacts.v: its protocol; SocksLife.v: its
      instances and shared listeners.
    - Wake.v: wake slots, the same code in both carriers, and their bookkeeping;
      WakeTable.v: the bookkeeping over maps of holders of slots.
    - Tcp.v, TcpFacts.v (carrier-tcp).
    - Ssh.v, SshFacts.v (carrier-ssh): instances, the client's worker, and the
      handler of a server's sessions; SshWakes.v: its wake handles; SshWorker.v: the
      worker thread, a server with the tasks of its sessions as a step relation, and
      the two ends of a stream.
    - Direct.v, DirectFacts.v (adapter-direct): the instance and its worker;
      DirectIo.v: the raw connect, sockets, flows and the resolver thread.
    - ClientStreams.v (adapter-socks5, adapter-http-connect): the client's end of a
      flow as a stream, through the class [EarlyData] of streams that hand out the
      bytes that came with the request before those of the socket.
    - Tun.v (adapter-tun), ProtectionDummy.v (protection-dummy), PolicyDummy.v
      (policy-dummy).
    - Stack.v: a protection over a protection, through the tables they publish, and
      the class [SameStream] of tables that behave alike; TcpStack.v: two hosts with a
      protection over a carrier, joined by a connection.

    ** Conventions

    A Rust struct or enum is a module of the same name with its type [t]; its
    methods are definitions of that module, free functions keep their names.  The
    statics and thread-local maps of a module are one record.  Integers are [Z]
    with their width written out where the code checks or wraps it (checked_add,
    saturating_sub, fetch_add, ...); [usize] is that of the 64-bit targets, not of
    32-bit Android.  A fallible function returns [result]; a
    polled one returns [poll].  [&mut self] is state passing: the new state comes
    first in the result, on error paths too, so partial effects are kept.  A long
    function is split along its blocks, one definition for each loop or match arm,
    composed in the order of the source.  Maps are finite maps of std++; the order
    in which a [HashMap] is iterated is a parameter (class [HashOrder]).  Time is
    an argument.  A pointer is a number, 0 when it is null; an output pointer is a
    flag that says whether it is null, and what is stored through it is a result.

    Code outside the repository is a parameter: redb (class [Redb], with the
    documented atomicity of its transactions), postcard ([Postcard], with its
    round trip), toml ([Toml], [TomlPrint]), SHA-256 ([Sha256], of which only the
    length is assumed), snow ([Snow]; that the two ends of a session decrypt what
    the other encrypted, in order, and that the NK pattern takes two messages, are
    the classes [SnowLaws] and [NoiseNK]), the keys and the connection of russh
    ([SshKeys]; that the library asks the handler about the server's key is
    [asks_handler], and that it runs the handlers of a channel only after an
    authentication that the handler accepted is part of the steps of SshWorker.v; of
    its [authenticate] calls only the answer is modelled, not the credentials given),
    the files of redb (class [RedbFile]), the random source, the environment, and
    the byte and datagram streams and sockets, whose answers are an argument of
    every definition that polls them.  The file system of Backup.v keeps what the
    process sees apart from what a crash leaves: data of a file is safe once it is
    synchronised, and changes of a directory reach the disk in their order.  The
    pumps of the SDK are answers as well; what is assumed of them is named
    ([within_budget], class [Pumps]).  Every such assumption is
    instantiated in the witnesses of the theorems that use it.

    Three loops of the source are not structural, and run on fuel that is proved
    to be enough for every input: the sniffing loop of [PolicyFlow::poll_sniff]
    ([sniff_fuel]: the bytes the prefix may still grow, and one), [flush_bytes]
    ([flush_fuel]: the bytes left, and one) and [read_frame] ([read_fuel]: the
    bytes a frame may still take, and one) of protection-noise.  Where the [Drop] of
    the storage worker waits for its thread, the thread serves at most the commands
    that are queued ([thread_runs]); [drop_ends] shows that they suffice.  Loops over
    the answers of a socket end with the answers.

    ** What is proved

    - Accounting: the quota is never exceeded whatever fails, the books balance
      when nothing fails, and the rate is bounded by burst plus rate times time.
    - Frames and channels: the decoder is exact under any fragmentation, the
      channel delivers what it accepted in order and whole.
    - Administration: identifiers are canonical, schedules are checked and
      evaluated as intended, records round-trip, requests execute exactly once in
      order, also across restarts; nothing takes effect before it is durable; and
      cutting off a user or a credential is immediate and complete.
    - Classification and rules: a verdict does not depend on how the bytes
      arrive, the two-phase evaluation is first match, CIDR and domain rules match
      what they should, and nothing passes the sniffer before its verdict.
    - Storage: the worker refines a sequential table, scans are exact, the
      database file never outgrows its bound, and its files are private.  Whichever
      calls fail and wherever the system crashes, a backup and a restoration are
      all or nothing, and together they give the content back; destroying an
      instance serves every command that was accepted, unless the database could not
      be opened again after a backup.
    - The instance of policy-local, by induction over its runs: no authenticated
      session without the secret on its own stream and evidence from the storage, no
      user above its flow limit, and no durable debit or refund that its account turns
      down; and in as many polls as a user has flows, each of them has its turn, which
      gives it bytes when the account can be granted any.
    - Secured streams: over every schedule of reads, writes, flushes, shutdowns and
      of the network, each side reads a prefix of what the other wrote, all of it
      before it sees the end of a stream that ended in order; and the handshake
      leaves both sides with the two ends of one session, fails only if the network
      does, and completes when the network moves.
    - The pipe of carrier-ssh, under every interleaving of its two threads: a
      bounded FIFO that loses no wake-up of a sleeping reader or writer.  Its
      server, under every interleaving of its tasks: streams only for peers that
      gave the configured name and secret, and a bounded number of sessions.
    - Stacking: a secured stream over the pass-through protection is the secured
      stream over the carrier; and protection-noise over the streams of carrier-tcp
      on two hosts carries what is written to the other end, whatever the connection
      between them delays or cuts and wherever it breaks; an end of stream says that
      nothing is missing only where the direction was shut down in order.
    - Parsers: the verdicts of the CONNECT and SOCKS5 parsers do not depend on how
      the bytes arrive (their limits on the input do), they accept what is well formed and nothing else, and read back what is
      printed; what a client sends behind its request is the first its flow reads.
    - Instances of the adapters and carriers, over every sequence of calls: their
      limits, the ownership of streams, wake handles that are retained and released
      in balance, sockets that are protected before they are connected, flows that
      lead only where their operation was resolved to (and the host was told, if it
      opens only what was reported), datagrams and packets in order and none
      lost.
    - The dummies: the pass-through protection is the stream below, and what a poll
      of the pass-through policy does on every branch.
    - Behaviour that differs from what the code means to do, each proved on the
      model: of policy-local, a token bucket that stays stuck after an overflow, a
      poll that moves twice its grant, an option and a rule that have no effect, a
      quota grant that is lost, a verdict that is dropped, and rules that a restart
      forgets; of the others, an end of stream that overtakes the last bytes, a
      writer that sleeps on a closed pipe, a truncation that looks like an end, a
      handshake that a foreign call discards, a key text that is read too
      leniently, limits on a header and on a handshake that count payload, a dead client that stays,
      a UDP association that is captured, a connection that is handed to a request
      for another endpoint, a server's limit that is exceeded, a server that ends
      with the first connection it fails to accept, a backup that is in place and
      answered with an error, a failed reopening that drops accepted commands, a
      datagram flow that can be opened twice, an operation that can be opened although
      its addresses were not reported, and a failed flow that stops all others.

    ** What is not modelled

    Of policy-local: the zeroing of secrets in memory and the positional file
    access of Windows, whose loops are those of Unix over another call.  Of all
    modules: the descriptor tables, [describe] and the C entry points around the
    handlers, which are constants and pointers; the making of listening sockets and
    the switch to non-blocking mode, which are sequences of system calls; the
    [open] of the adapters that only accept, which refuses; the pumps, which belong
    to the SDK; and the variants of the connecting code for systems other than Linux
    and Android.  Of carrier-ssh: the copying between an SSH channel and the pipe,
    which is the runtime's, so that the stack is proved for carrier-tcp and not for
    it.  The testsuite, the fuzz targets and the packaging scripts are no part of
    the modules. *)
From Stdlib Require Export ZArith Lia Bool.
From stdpp Require Export base gmap list strings.
#[local] Open Scope Z_scope.

(** * Results, polls and machine integers *)

(** Rust's [Result<A, E>]; the error comes first so that [result E] is a
    functor and stdpp's monad notation applies. *)
Inductive result (E A : Type) : Type :=
| Ok (a : A)
| Err (e : E).
Arguments Ok {E A} _.
Arguments Err {E A} _.

#[export] Instance result_ret E : MRet (result E) := fun _ a => Ok a.
#[export] Instance result_bind E : MBind (result E) := fun _ _ f m =>
  match m with Ok a => f a | Err e => Err e end.
#[export] Instance result_fmap E : FMap (result E) := fun _ _ f m =>
  match m with Ok a => Ok (f a) | Err e => Err e end.

#[export] Instance result_eq_dec `{EqDecision E, EqDecision A} :
  EqDecision (result E A).
Proof. solve_decision. Defined.

Definition ok_or {E A} (o : option A) (e : E) : result E A :=
  match o with Some a => Ok a | None => Err e end.

Definition map_err {E F A} (f : E -> F) (r : result E A) : result F A :=
  match r with Ok a => Ok a | Err e => Err (f e) end.

Definition is_ok {E A} (r : result E A) : bool :=
  match r with Ok _ => true | Err _ => false end.

Definition is_err {E A} (r : result E A) : bool := negb (is_ok r).

Definition is_some {A} (o : option A) : bool :=
  match o with Some _ => true | None => false end.

Definition is_none {A} (o : option A) : bool := negb (is_some o).

(** [Option::is_some_and] and [Option::is_none_or]. *)
Definition is_some_and {A} (o : option A) (p : A -> bool) : bool :=
  match o with Some a => p a | None => false end.

Definition is_none_or {A} (o : option A) (p : A -> bool) : bool :=
  match o with Some a => p a | None => true end.

Definition unwrap_or {A} (o : option A) (d : A) : A :=
  match o with Some a => a | None => d end.

(** Rust's [Poll<A>]. *)
Inductive poll (A : Type) : Type :=
| Ready (a : A)
| Pending.
Arguments Ready {A} _.
Arguments Pending {A}.

(** The order in which a Rust [HashMap] is iterated. *)
Class HashOrder := {
  hash_order : forall {A : Type}, list A -> list A;
  hash_order_perm {A} (l : list A) : hash_order l ≡ₚ l;
}.

(** ** Unsigned integers as [Z] with their range written out *)

Definition u8_max : Z := 255.
Definition u16_max : Z := 65535.
Definition u32_max : Z := 4294967295.
Definition u64_max : Z := 18446744073709551615.
Definition u128_max : Z := 340282366920938463463374607431768211455.
(** The target is a 64-bit one. *)
Definition usize_max : Z := u64_max.

Definition is_u16 (z : Z) : Prop := 0 <= z <= u16_max.
Definition is_u32 (z : Z) : Prop := 0 <= z <= u32_max.
Definition is_u64 (z : Z) : Prop := 0 <= z <= u64_max.

Definition checked_add (max a b : Z) : option Z :=
  if a + b <=? max then Some (a + b) else None.
Definition checked_sub (a b : Z) : option Z :=
  if b <=? a then Some (a - b) else None.
Definition checked_mul (max a b : Z) : option Z :=
  if a * b <=? max then Some (a * b) else None.
Definition saturating_add (max a b : Z) : Z := Z.min max (a + b).
Definition saturating_sub (a b : Z) : Z := Z.max 0 (a - b).
Definition saturating_mul (max a b : Z) : Z := Z.min max (a * b).
Definition wrapping_add (max a b : Z) : Z := (a + b) mod (max + 1).

(** [Vec::len] and [str::len]: the length as a [usize]. *)
Definition len {A} (l : list A) : Z := Z.of_nat (length l).

(** ** Tactics *)

(** Turn boolean comparisons in the context and the goal into
    propositions. *)
Ltac bools :=
  repeat match goal with
  | H : _ && _ = true |- _ => apply andb_prop in H as [? ?]
  | H : _ || _ = false |- _ => apply orb_false_elim in H as [? ?]
  | H : negb _ = true |- _ => apply negb_true_iff in H
  | H : negb _ = false |- _ => apply negb_false_iff in H
  | H : (_ =? _) = true |- _ => apply Z.eqb_eq in H
  | H : (_ =? _) = false |- _ => apply Z.eqb_neq in H
  | H : (_ <=? _) = true |- _ => apply Z.leb_le in H
  | H : (_ <=? _) = false |- _ => apply Z.leb_gt in H
  | H : (_ <? _) = true |- _ => apply Z.ltb_lt in H
  | H : (_ <? _) = false |- _ => apply Z.ltb_ge in H
  | H : bool_decide _ = true |- _ => apply bool_decide_eq_true in H
  | H : bool_decide _ = false |- _ => apply bool_decide_eq_false in H
  end.

(** Case on the scrutinee of the first [if] or [match] found in the goal. *)
Ltac case_if :=
  match goal with
  | |- context [if ?b then _ else _] => destruct b eqn:?
  end; bools.

Ltac case_if_in H :=
  match type of H with
  | context [if ?b then _ else _] => destruct b eqn:?
  end; bools.

(** Unfold the integer layer and call [lia]. *)
Ltac ints :=
  unfold is_u16, is_u32, is_u64, checked_add, checked_sub, checked_mul,
    saturating_add, saturating_sub, saturating_mul, len,
    usize_max, u8_max, u16_max, u32_max, u64_max, u128_max in *; lia.

(** ** Lemmas on results and integers *)

Lemma bind_Ok {E A B} (m : result E A) (f : A -> result E B) b :
  (m ≫= f) = Ok b <-> exists a, m = Ok a /\ f a = Ok b.
Proof.
  destruct m as [a|e]; simpl; split; intros H.
  - eauto.
  - destruct H as (a' & [= ->] & ?); done.
  - done.
  - destruct H as (a' & ? & ?); done.
Qed.

Lemma map_err_Ok {E F A} (f : E -> F) (r : result E A) a :
  map_err f r = Ok a <-> r = Ok a.
Proof. destruct r; simpl; split; congruence. Qed.

Lemma ok_or_Ok {E A} (o : option A) (e : E) a :
  ok_or o e = Ok a <-> o = Some a.
Proof. destruct o; simpl; split; congruence. Qed.

Lemma checked_add_Some max a b c :
  checked_add max a b = Some c <-> c = a + b /\ a + b <= max.
Proof. unfold checked_add. case_if; split; intros; simplify_eq; lia || (f_equal; lia) || done. Qed.

Lemma checked_sub_Some a b c :
  checked_sub a b = Some c <-> c = a - b /\ b <= a.
Proof. unfold checked_sub. case_if; split; intros; simplify_eq; lia || (f_equal; lia) || done. Qed.

Lemma checked_mul_Some max a b c :
  checked_mul max a b = Some c <-> c = a * b /\ a * b <= max.
Proof. unfold checked_mul. case_if; split; intros; simplify_eq; lia || (f_equal; lia) || done. Qed.

Lemma len_nonneg {A} (l : list A) : 0 <= len l.
Proof. unfold len; lia. Qed.

Lemma len_nil {A} : len (@nil A) = 0.
Proof. done. Qed.

Lemma len_cons {A} (x : A) l : len (x :: l) = 1 + len l.
Proof. unfold len; simpl; lia. Qed.

Lemma len_app {A} (l k : list A) : len (l ++ k) = len l + len k.
Proof. unfold len; rewrite length_app; lia. Qed.

Lemma len_snoc {A} (l : list A) x : len (l ++ [x]) = len l + 1.
Proof. unfold len; rewrite length_app; simpl; lia. Qed.

(** Rewriting database for lengths of lists. *)
Create Rewrite HintDb lens.
#[export] Hint Rewrite @len_nil @len_cons @len_app : lens.
Ltac lens := autorewrite with lens in *.
