(* ===== verification/Text.v ===== *)
(** Bytes, UTF-8 strings and the parts of Rust's [str], slice and integer
    parsing API that the modules use.

    [Vec<u8>], [&[u8]], [String] and [&str] are all byte lists; a Rust string
    is a byte list for which [utf8_valid] holds. *)
From Stdlib Require Import Strings.Byte.
From stdpp Require Import countable.
From S2P Require Import Prelude.
#[local] Open Scope Z_scope.

Abbreviation bytes := (list byte).
Abbreviation str := (list byte).

(** String literals denote their bytes. *)
Declare Scope text_scope.
Delimit Scope text_scope with text.
Notation "# s" := (String.list_byte_of_string s%string)
  (at level 1, format "# s") : text_scope.
#[global] Open Scope text_scope.

#[export] Instance byte_eq_dec : EqDecision byte := byte_eq_dec.
#[export] Instance byte_countable : Countable byte :=
  inj_countable Byte.to_N Byte.of_N Byte.of_to_N.
#[export] Instance byte_inhabited : Inhabited byte := populate x00.

(** * Bytes as numbers *)

Definition u8 (b : byte) : Z := Z.of_N (Byte.to_N b).

(** [z as u8]. *)
Definition to_u8 (z : Z) : byte :=
  match Byte.of_N (Z.to_N (z mod 256)) with Some b => b | None => x00 end.

Lemma u8_range b : 0 <= u8 b <= 255.
Proof. unfold u8. pose proof (Byte.to_N_bounded b). lia. Qed.

Lemma u8_to_u8 z : u8 (to_u8 z) = z mod 256.
Proof.
  unfold u8, to_u8. pose proof (Z.mod_pos_bound z 256 ltac:(lia)).
  destruct (Byte.of_N _) as [b|] eqn:E.
  - apply Byte.to_of_N in E. rewrite E. lia.
  - apply Byte.of_N_None_iff in E. lia.
Qed.

Lemma to_u8_u8 b : to_u8 (u8 b) = b.
Proof.
  unfold to_u8. rewrite Z.mod_small by (pose proof (u8_range b); lia).
  unfold u8. rewrite N2Z.id, Byte.of_to_N. done.
Qed.

#[export] Instance u8_inj : Inj (=) (=) u8.
Proof. intros a b H. by rewrite <- (to_u8_u8 a), <- (to_u8_u8 b), H. Qed.

Lemma u8_eqb a b : (u8 a =? u8 b) = bool_decide (a = b).
Proof.
  case_bool_decide as H.
  - subst. apply Z.eqb_refl.
  - apply Z.eqb_neq. by intros ?%(inj u8).
Qed.

(** A byte is decided by its number: used to enumerate the 256 cases. *)
Lemma byte_forallb (p : byte -> bool) :
  forallb (fun n => p (to_u8 (Z.of_nat n))) (seq 0 256) = true -> forall b, p b = true.
Proof.
  intros H b. rewrite forallb_forall in H.
  pose proof (u8_range b).
  specialize (H (Z.to_nat (u8 b))). rewrite Z2Nat.id, to_u8_u8 in H by lia.
  apply H, in_seq. lia.
Qed.

Lemma byte_all (P : byte -> Prop) `{forall b, Decision (P b)} :
  forallb (fun n => bool_decide (P (to_u8 (Z.of_nat n)))) (seq 0 256) = true -> forall b, P b.
Proof.
  intros Hf b. apply (bool_decide_eq_true_1 (P b)).
  exact (byte_forallb (fun b => bool_decide (P b)) Hf b).
Qed.

(** * Big-endian integers *)

(** [uN::from_be_bytes]. *)
Fixpoint of_be_acc (acc : Z) (l : bytes) : Z :=
  match l with
  | [] => acc
  | b :: l => of_be_acc (acc * 256 + u8 b) l
  end.
Definition of_be (l : bytes) : Z := of_be_acc 0 l.

(** [uN::to_be_bytes] for [n] bytes. *)
Fixpoint be_bytes (n : nat) (z : Z) : bytes :=
  match n with
  | O => []
  | S n => be_bytes n (z / 256) ++ [to_u8 z]
  end.

Lemma length_be_bytes n z : length (be_bytes n z) = n.
Proof. revert z; induction n; intros; simpl; [done|]. rewrite length_app, IHn. simpl; lia. Qed.

Lemma len_be_bytes n z : len (be_bytes n z) = Z.of_nat n.
Proof. unfold len. by rewrite length_be_bytes. Qed.
#[export] Hint Rewrite len_be_bytes : lens.

Lemma of_be_acc_app acc l k : of_be_acc acc (l ++ k) = of_be_acc (of_be_acc acc l) k.
Proof. revert acc; induction l; simpl; auto. Qed.

Lemma of_be_be_bytes n z : of_be (be_bytes n z) = z mod 256 ^ Z.of_nat n.
Proof.
  revert z. induction n as [|n IH]; intros z.
  - by rewrite Z.mod_1_r.
  - unfold of_be in *. simpl be_bytes. rewrite of_be_acc_app, IH. simpl of_be_acc.
    rewrite u8_to_u8, Nat2Z.inj_succ, Z.pow_succ_r by lia.
    assert (0 < 256 ^ Z.of_nat n) by (apply Z.pow_pos_nonneg; lia).
    rewrite Z.rem_mul_r by lia. lia.
Qed.

Lemma of_be_be_bytes_small n z :
  0 <= z < 256 ^ Z.of_nat n -> of_be (be_bytes n z) = z.
Proof. intros. rewrite of_be_be_bytes. by apply Z.mod_small. Qed.

Lemma of_be_acc_range acc l :
  0 <= acc -> 0 <= of_be_acc acc l < (acc + 1) * 256 ^ len l.
Proof.
  revert acc. induction l as [|b l IH]; intros acc ?.
  - change (len (@nil byte)) with 0. simpl. lia.
  - simpl of_be_acc. pose proof (u8_range b).
    specialize (IH (acc * 256 + u8 b) ltac:(lia)).
    rewrite len_cons, Z.pow_add_r by (pose proof (len_nonneg l); lia).
    rewrite Z.pow_1_r.
    assert (0 < 256 ^ len l) by (apply Z.pow_pos_nonneg; pose proof (len_nonneg l); lia).
    nia.
Qed.

Lemma of_be_range l : 0 <= of_be l < 256 ^ len l.
Proof. unfold of_be. pose proof (of_be_acc_range 0 l). lia. Qed.

(** * UTF-8 *)

Definition between (lo hi z : Z) : bool := (lo <=? z) && (z <=? hi).

Definition utf8_cont (b : byte) : bool := between 0x80 0xBF (u8 b).

(** Admissible second bytes of three- and four-byte sequences (no overlong
    forms, no surrogates, nothing above U+10FFFF). *)
Definition utf8_second3 (b0 b1 : byte) : bool :=
  if u8 b0 =? 0xE0 then between 0xA0 0xBF (u8 b1)
  else if u8 b0 =? 0xED then between 0x80 0x9F (u8 b1)
  else utf8_cont b1.

Definition utf8_second4 (b0 b1 : byte) : bool :=
  if u8 b0 =? 0xF0 then between 0x90 0xBF (u8 b1)
  else if u8 b0 =? 0xF4 then between 0x80 0x8F (u8 b1)
  else utf8_cont b1.

(** [str::from_utf8(..).is_ok()]. *)
Fixpoint utf8_valid (l : bytes) : bool :=
  match l with
  | [] => true
  | b0 :: l1 =>
      if u8 b0 <? 0x80 then utf8_valid l1
      else match l1 with
      | [] => false
      | b1 :: l2 =>
          if between 0xC2 0xDF (u8 b0) then utf8_cont b1 && utf8_valid l2
          else match l2 with
          | [] => false
          | b2 :: l3 =>
              if between 0xE0 0xEF (u8 b0)
              then utf8_second3 b0 b1 && utf8_cont b2 && utf8_valid l3
              else match l3 with
              | [] => false
              | b3 :: l4 =>
                  if between 0xF0 0xF4 (u8 b0)
                  then utf8_second4 b0 b1 && utf8_cont b2 && utf8_cont b3
                       && utf8_valid l4
                  else false
              end
          end
      end
  end.

(** [str::from_utf8] and [String::from_utf8]. *)
Definition from_utf8 (l : bytes) : option str :=
  if utf8_valid l then Some l else None.

(** * Character classes *)

Definition is_ascii_digit (b : byte) : bool := between 48 57 (u8 b).
Definition is_ascii_lower (b : byte) : bool := between 97 122 (u8 b).
Definition is_ascii_upper (b : byte) : bool := between 65 90 (u8 b).
Definition is_ascii_alphanumeric (b : byte) : bool :=
  is_ascii_digit b || is_ascii_lower b || is_ascii_upper b.
Definition is_ascii (l : str) : bool := forallb (fun b => u8 b <? 128) l.

(** [u8::to_ascii_lowercase]: sets bit 5 of the capital letters. *)
Definition ascii_lower (b : byte) : byte :=
  if is_ascii_upper b then to_u8 (Z.lor (u8 b) 0x20) else b.
Definition to_ascii_lowercase (l : str) : str := map ascii_lower l.
Definition eq_ignore_ascii_case (a b : str) : bool :=
  bool_decide (to_ascii_lowercase a = to_ascii_lowercase b).

(** * Slices and strings *)

(** [slice::starts_with] and [slice::ends_with]. *)
Fixpoint starts_with (l p : bytes) : bool :=
  match p, l with
  | [], _ => true
  | _ :: _, [] => false
  | x :: p, y :: l => bool_decide (x = y) && starts_with l p
  end.

Definition ends_with (l p : bytes) : bool := starts_with (rev l) (rev p).

(** [slice.get(offset..offset + n)]. *)
Definition get_range (l : bytes) (offset n : nat) : option bytes :=
  if (offset + n <=? length l)%nat then Some (take n (drop offset l)) else None.

(** [slice.windows(n).position(|w| w == p)] for a nonempty [p] of length [n]. *)
Fixpoint position (l p : bytes) : option nat :=
  if starts_with l p then Some O
  else match l with
  | [] => None
  | _ :: l => S <$> position l p
  end.

Definition contains (l p : bytes) : bool := is_some (position l p).

(** [str::split] on a one-byte character: never empty. *)
Fixpoint split_byte (c : byte) (l : str) : list str :=
  match l with
  | [] => [[]]
  | b :: l =>
      if bool_decide (b = c) then [] :: split_byte c l
      else match split_byte c l with
           | [] => [[b]]
           | w :: ws => (b :: w) :: ws
           end
  end.

(** [str::split_once] and [str::rsplit_once] on a one-byte character. *)
Fixpoint split_once (c : byte) (l : str) : option (str * str) :=
  match l with
  | [] => None
  | b :: l =>
      if bool_decide (b = c) then Some ([], l)
      else match split_once c l with
           | None => None
           | Some (u, v) => Some (b :: u, v)
           end
  end.

Definition rsplit_once (c : byte) (l : str) : option (str * str) :=
  match split_once c (rev l) with
  | None => None
  | Some (u, v) => Some (rev v, rev u)
  end.

(** [str::split(p)] for a nonempty pattern: every match is consumed left to
    right.  [skip] counts the bytes of the current match still to drop. *)
Fixpoint split_str_go (p : str) (skip : nat) (l : str) : list str :=
  match l with
  | [] => [[]]
  | b :: t =>
      match skip with
      | S skip => split_str_go p skip t
      | O =>
          if starts_with l p then [] :: split_str_go p (Nat.pred (length p)) t
          else match split_str_go p O t with
               | [] => [[b]]
               | w :: ws => (b :: w) :: ws
               end
      end
  end.
Definition split_str (p l : str) : list str := split_str_go p O l.

Definition strip_prefix (l p : str) : option str :=
  if starts_with l p then Some (drop (length p) l) else None.

Definition strip_suffix (l p : str) : option str :=
  if ends_with l p then Some (take (length l - length p) l) else None.

(** [str::trim_start_matches(c)]. *)
Fixpoint trim_start_matches (c : byte) (l : str) : str :=
  match l with
  | b :: t => if bool_decide (b = c) then trim_start_matches c t else l
  | [] => []
  end.

(** The number of bytes of the Unicode [White_Space] character a string
    starts with, 0 when it starts with none. *)
Definition white_space_width (l : str) : nat :=
  match l with
  | [] => O
  | b0 :: t =>
      if between 9 13 (u8 b0) || (u8 b0 =? 32) then 1%nat
      else match t with
      | [] => O
      | b1 :: t =>
          if (u8 b0 =? 0xC2) && ((u8 b1 =? 0x85) || (u8 b1 =? 0xA0)) then 2%nat
          else match t with
          | [] => O
          | b2 :: _ =>
              let c := (u8 b0 * 256 + u8 b1) * 256 + u8 b2 in
              if (c =? 0xE19A80) || between 0xE28080 0xE2808A c
                 || (c =? 0xE280A8) || (c =? 0xE280A9) || (c =? 0xE280AF)
                 || (c =? 0xE2819F) || (c =? 0xE38080)
              then 3%nat else O
          end
      end
  end.

(** The same at the end of a string, given reversed. *)
Definition white_space_width_rev (l : str) : nat :=
  let w (k : nat) := if (white_space_width (rev (take k l)) =? k)%nat then k else O in
  if (0 <? w 1)%nat then 1%nat
  else if (0 <? w 2)%nat then 2%nat
  else w 3%nat.

Fixpoint trim_start_go (fuel : nat) (width : str -> nat) (l : str) : str :=
  match fuel with
  | O => l
  | S fuel =>
      match width l with
      | O => l
      | n => trim_start_go fuel width (drop n l)
      end
  end.

(** [str::trim]. *)
Definition trim_start (l : str) : str := trim_start_go (length l) white_space_width l.
Definition trim_end (l : str) : str :=
  rev (trim_start_go (length l) white_space_width_rev (rev l)).
Definition trim (l : str) : str := trim_end (trim_start l).

(** * Integer parsing *)

Definition digit_value (radix : Z) (b : byte) : option Z :=
  let v :=
    if is_ascii_digit b then u8 b - 48
    else if is_ascii_lower b then u8 b - 87
    else if is_ascii_upper b then u8 b - 55
    else radix in
  if v <? radix then Some v else None.

Fixpoint parse_digits (radix max acc : Z) (l : str) : option Z :=
  match l with
  | [] => Some acc
  | b :: l =>
      match digit_value radix b with
      | None => None
      | Some v =>
          if acc * radix + v <=? max then parse_digits radix max (acc * radix + v) l
          else None
      end
  end.

(** [uN::from_str_radix]: an optional [+], then at least one digit. *)
Definition from_str_radix (radix max : Z) (l : str) : option Z :=
  match l with
  | [] => None
  | b :: t =>
      if bool_decide (b = "+"%byte)
      then match t with [] => None | _ => parse_digits radix max 0 t end
      else parse_digits radix max 0 l
  end.

(** [str::parse::<uN>()]. *)
Definition parse_uint (max : Z) (l : str) : option Z := from_str_radix 10 max l.

(** * Domain names *)

(** The domain check the modules share: [!domain.is_empty() && len <= 253 &&
    is_ascii && every label well formed]. *)
Definition valid_label (label : str) : bool :=
  negb (bool_decide (label = [])) && (len label <=? 63)
  && negb (starts_with label #"-") && negb (ends_with label #"-")
  && forallb (fun b => is_ascii_alphanumeric b || bool_decide (b = "-"%byte)) label.

(** ** More on big-endian integers *)

Lemma of_be_snoc l b : of_be (l ++ [b]) = of_be l * 256 + u8 b.
Proof. unfold of_be. by rewrite of_be_acc_app. Qed.

Lemma be_bytes_of_be n l : length l = n -> be_bytes n (of_be l) = l.
Proof.
  revert l. induction n as [|n IH]; intros l Hl.
  - by destruct l.
  - destruct l as [|b l _] using rev_ind; [done|].
    rewrite length_app in Hl; simpl in Hl.
    rewrite of_be_snoc. simpl. pose proof (u8_range b).
    rewrite Z.div_add_l by lia. rewrite (Z.div_small (u8 b)), Z.add_0_r by lia.
    rewrite IH by lia. f_equal. f_equal.
    apply (inj u8). rewrite u8_to_u8, Z.add_comm, Z.mod_add by lia. apply Z.mod_small. lia.
Qed.

Lemma of_be4_range l : (length l <= 4)%nat -> 0 <= of_be l <= u32_max.
Proof.
  intros. pose proof (of_be_range l).
  assert (256 ^ len l <= 256 ^ 4) by (apply Z.pow_le_mono_r; unfold len; lia).
  unfold u32_max. lia.
Qed.
#[global] Arguments be_bytes : simpl never.
#[global] Arguments of_be : simpl never.

(** ** Searching and comparing *)

Lemma starts_with_nil l : starts_with l [] = true.
Proof. by destruct l. Qed.

Lemma starts_with_app l k p : starts_with l p = true -> starts_with (l ++ k) p = true.
Proof.
  revert l. induction p as [|x p IH]; intros [|y l]; simpl; rewrite ?starts_with_nil; try done.
  rewrite !andb_true_iff. intros [? ?]; auto.
Qed.

Lemma starts_with_app_inv l k p :
  starts_with (l ++ k) p = true -> (length p <= length l)%nat -> starts_with l p = true.
Proof.
  revert l. induction p as [|x p IH]; intros [|y l]; simpl; rewrite ?starts_with_nil; try done; [lia|].
  rewrite !andb_true_iff. intros [? ?] ?. split; [done|]. apply IH; [done|lia].
Qed.

Lemma starts_with_app_le l k p :
  (length p <= length l)%nat -> starts_with (l ++ k) p = starts_with l p.
Proof.
  intros. apply eq_bool_prop_intro. split; intros Hs%Is_true_eq_true; apply Is_true_eq_left.
  - eapply starts_with_app_inv; eauto.
  - by apply starts_with_app.
Qed.

Lemma starts_with_prefix m p k : starts_with m (p ++ k) = true -> starts_with m p = true.
Proof.
  revert m. induction p as [|x p IH]; intros [|y m]; simpl; try done.
  rewrite !andb_true_iff. intros [? ?]; eauto.
Qed.

Lemma position_length l p n : position l p = Some n -> (n + length p <= length l)%nat.
Proof.
  assert (Hs : forall l, starts_with l p = true -> (length p <= length l)%nat).
  { induction p as [|x p IH]; intros [|y l']; simpl; try done; [lia|].
    rewrite andb_true_iff. intros [_ H]. apply IH in H. lia. }
  revert n. induction l as [|y l IH]; intros n; cbn [position].
  - case_if; [|done]. intros [= <-]. by apply Hs.
  - case_if; [intros [= <-]; by apply Hs|].
    destruct (position l p) as [m|]; simpl; [|done]. intros [= <-].
    specialize (IH m eq_refl). simpl. lia.
Qed.

Lemma position_app l k p n : position l p = Some n -> position (l ++ k) p = Some n.
Proof.
  revert n. induction l as [|y l IH]; intros n.
  - cbn [position]. case_if; [|done]. intros [= <-]. destruct p; [|done]. by destruct k.
  - intros Hp. pose proof (position_length _ _ _ Hp). cbn [position app] in *.
    change (y :: l ++ k) with ((y :: l) ++ k).
    rewrite starts_with_app_le by lia. case_if; [done|].
    destruct (position l p) as [m|]; [|done]. by rewrite (IH m).
Qed.

(** A match that was not there before ends in what was added. *)
Lemma position_new l k p n :
  position l p = None -> position (l ++ k) p = Some n -> (length l < n + length p)%nat.
Proof.
  revert n. induction l as [|y l IH]; intros n; cbn [position app].
  - destruct p as [|x p]; [done|]. simpl. lia.
  - change (y :: l ++ k) with ((y :: l) ++ k).
    destruct (starts_with (y :: l) p) eqn:E; [done|].
    destruct (position l p) eqn:Ep; [done|]. intros _.
    destruct (starts_with ((y :: l) ++ k) p) eqn:Es.
    + intros [= <-]. destruct (decide (length p <= length (y :: l))%nat) as [Hle|Hgt]; [|simpl in *; lia].
      by rewrite starts_with_app_le, E in Es.
    + destruct (position (l ++ k) p) as [m|] eqn:Em; [|done]. intros [= <-].
      specialize (IH m eq_refl eq_refl). simpl. lia.
Qed.

Lemma starts_with_elem m p x : starts_with m p = true -> x ∈ p -> x ∈ m.
Proof.
  revert m. induction p as [|y p IH]; intros [|z m]; simpl; try done; [by intros _ ?%elem_of_nil|].
  rewrite andb_true_iff. intros [->%bool_decide_eq_true Hs] [->|Hx]%elem_of_cons; [left|right; eauto].
Qed.

Lemma starts_with_take l p : starts_with l p = true -> take (length p) l = p.
Proof.
  revert l. induction p as [|x p IH]; intros [|y l]; simpl; rewrite ?starts_with_nil; try done.
  rewrite andb_true_iff. intros [->%bool_decide_eq_true Hs]. by rewrite IH.
Qed.

Lemma position_elem l p n x : position l p = Some n -> x ∈ p -> x ∈ l.
Proof.
  revert n. induction l as [|y l IH]; intros n; cbn [position].
  - case_if; [|done]. intros _. by apply starts_with_elem.
  - case_if; [intros _; by apply starts_with_elem|].
    destruct (position l p); [|done]. intros _ ?. right. eapply IH; eauto.
Qed.

Lemma starts_with_iff l p : starts_with l p = true <-> exists x, l = p ++ x.
Proof.
  revert l. induction p as [|c p IH]; intros l.
  - split; [intros _; by exists l|]. by destruct l.
  - destruct l as [|d l]; simpl; [split; [done|by intros []]|].
    rewrite andb_true_iff, bool_decide_eq_true, IH. naive_solver.
Qed.

Lemma ends_with_iff l p : ends_with l p = true <-> exists x, l = x ++ p.
Proof.
  unfold ends_with. rewrite starts_with_iff. split; intros [x Hx].
  - exists (rev x). apply (f_equal (@rev byte)) in Hx.
    by rewrite rev_app_distr, !rev_involutive in Hx.
  - exists (rev x). by rewrite Hx, rev_app_distr.
Qed.

Lemma strip_suffix_Some l p x : strip_suffix l p = Some x <-> l = x ++ p.
Proof.
  unfold strip_suffix. destruct (ends_with l p) eqn:E.
  - apply ends_with_iff in E as [y ->]. rewrite length_app, Nat.add_sub, take_app_length.
    split; [naive_solver|]. intros H%app_inv_tail. by subst.
  - split; [done|]. intros ->. rewrite (proj2 (ends_with_iff _ _)) in E; [done|eauto].
Qed.

(** ** Parsed integers *)

Lemma digit_value_range radix b d : 0 < radix -> digit_value radix b = Some d -> 0 <= d.
Proof.
  unfold digit_value, is_ascii_digit, is_ascii_lower, is_ascii_upper, between.
  intros Hr. pose proof (u8_range b). case_if; [|done]. intros [= <-]. repeat case_if; lia.
Qed.

Lemma parse_digits_nonneg radix max acc s v :
  0 < radix -> 0 <= acc -> parse_digits radix max acc s = Some v -> 0 <= v.
Proof.
  intros Hr. revert acc. induction s as [|b s IH]; intros acc Ha; simpl; [intros [= <-]; done|].
  destruct (digit_value radix b) as [d|] eqn:E; [|done]. apply digit_value_range in E; [|done].
  case_if; [|done]. apply IH. nia.
Qed.

Lemma parse_uint_nonneg max s v : parse_uint max s = Some v -> 0 <= v.
Proof.
  unfold parse_uint, from_str_radix. destruct s as [|b s]; [done|].
  case_if; [destruct s; [done|]|]; by apply parse_digits_nonneg.
Qed.

(** ** Splitting and joining *)

Lemma position_skip x p pre k :
  x ∉ pre -> position (pre ++ k) (x :: p) = (fun n => n + length pre)%nat <$> position k (x :: p).
Proof.
  induction pre as [|y pre IH]; intros Hx; cbn [app length].
  - destruct (position k (x :: p)); simpl; [by rewrite Nat.add_0_r|done].
  - apply not_elem_of_cons in Hx as [Hy Hx]. cbn [position starts_with].
    rewrite bool_decide_false by done. cbn [andb]. rewrite IH by done.
    destruct (position k (x :: p)); simpl; [f_equal; lia|done].
Qed.

Lemma split_byte_none c a : c ∉ a -> split_byte c a = [a].
Proof.
  induction a as [|b a IH]; [done|]. intros [Hb Ha]%not_elem_of_cons. simpl.
  by rewrite bool_decide_false, IH by done.
Qed.

Lemma split_byte_app c a l : c ∉ a -> split_byte c (a ++ c :: l) = a :: split_byte c l.
Proof.
  induction a as [|b a IH]; intros Hc; simpl.
  - by rewrite bool_decide_true.
  - apply not_elem_of_cons in Hc as [Hb Ha]. by rewrite bool_decide_false, IH by done.
Qed.

Lemma split_once_app c a l : c ∉ a -> split_once c (a ++ c :: l) = Some (a, l).
Proof.
  induction a as [|b a IH]; intros Hc; simpl.
  - by rewrite bool_decide_true.
  - apply not_elem_of_cons in Hc as [Hb Ha]. by rewrite bool_decide_false, IH by done.
Qed.

Lemma rsplit_once_app c a l : c ∉ l -> rsplit_once c (a ++ c :: l) = Some (a, l).
Proof.
  intros Hc. unfold rsplit_once. rewrite rev_app_distr. simpl rev. rewrite <- app_assoc. simpl.
  rewrite split_once_app by (by rewrite list_elem_of_In, <- in_rev, <- list_elem_of_In).
  by rewrite !rev_involutive.
Qed.

Lemma split_str_head x p pre k :
  x ∉ pre -> head (split_str (x :: p) (pre ++ x :: p ++ k)) = Some pre.
Proof.
  unfold split_str. induction pre as [|y pre IH]; intros Hx.
  - cbn [app split_str_go]. rewrite (proj2 (starts_with_iff _ _)); [done|]. by exists k.
  - apply not_elem_of_cons in Hx as [Hy Hx]. cbn [app split_str_go starts_with].
    rewrite bool_decide_false by done. cbn [andb]. specialize (IH Hx).
    destruct (split_str_go _ _ _); simpl in *; congruence.
Qed.

Lemma utf8_ascii l : is_ascii l = true -> from_utf8 l = Some l.
Proof.
  intros Ha. unfold from_utf8. assert (utf8_valid l = true) as ->; [|done].
  unfold is_ascii in Ha. induction l as [|b l IH]; [done|]. simpl in Ha.
  apply andb_prop in Ha as [Hb Hl]. cbn [utf8_valid]. by rewrite Hb, IH.
Qed.

Lemma parse_digits_le radix max acc s v : acc <= max -> parse_digits radix max acc s = Some v -> v <= max.
Proof.
  revert acc. induction s as [|b s IH]; intros acc Ha; simpl; [by intros [= <-]|].
  destruct (digit_value radix b); [|done]. case_if; [|done]. by apply IH.
Qed.

Lemma parse_uint_range max s v : 0 <= max -> parse_uint max s = Some v -> 0 <= v <= max.
Proof.
  intros Hm Hp. split; [by eapply parse_uint_nonneg|].
  unfold parse_uint, from_str_radix in Hp. destruct s as [|b s]; [done|].
  case_if_in Hp; [destruct s; [done|]|]; by apply parse_digits_le in Hp.
Qed.

(** * Numbers *)

(** The decimal digits of a number, of at most [fuel] of them. *)
Fixpoint decimal_go (fuel : nat) (n : Z) (acc : str) : str :=
  match fuel with
  | O => acc
  | S fuel =>
      let acc := to_u8 (48 + n mod 10) :: acc in
      if n <? 10 then acc else decimal_go fuel (n / 10) acc
  end.

(** [Display] of an unsigned integer of up to 128 bits. *)
Definition display (n : Z) : str := decimal_go 39 n [].

(** * Paths *)

(** [Path::is_absolute] and [Path::join] on Unix. *)
Definition is_absolute (path : str) : bool := starts_with path #"/".
Definition path_join (base path : str) : str :=
  if is_absolute path then path
  else if bool_decide (base = []) || ends_with base #"/" then base ++ path
  else base ++ #"/" ++ path.
