(* ===== verification/Frame.v ===== *)
(** The control-stream framing of policy-local
    (modules/policy-local/src/frame.rs): four-byte big-endian length, then
    that many bytes of UTF-8. *)
From Stdlib Require Import Strings.Byte.
From S2P Require Import Prelude Text.
#[local] Open Scope Z_scope.

Inductive FrameError := Length | Utf8.

#[export] Instance FrameError_eq_dec : EqDecision FrameError.
Proof. solve_decision. Defined.

Record FrameDecoder := mkDecoder {
  buffer : bytes;
  expected : option Z;
  limit : Z;
}.

Definition new (limit : Z) : result FrameError FrameDecoder :=
  if limit =? 0 then Err Length else Ok (mkDecoder [] None limit).

(** The end of the loop body, with the announced length known: wait for the
    rest of the frame, or cut it out of the buffer and decode it. *)
Definition take_frame (lim : Z) (buf : bytes) (length : Z)
  : FrameDecoder * result FrameError (option str) :=
  if len buf <? length + 4 then (mkDecoder buf (Some length) lim, Ok None)
  else
    let payload := take (Z.to_nat length) (drop 4 buf) in
    let d' := mkDecoder (drop (Z.to_nat (4 + length)) buf) None lim in
    match from_utf8 payload with
    | Some frame => (d', Ok (Some frame))
    | None => (d', Err Utf8)
    end.

(** The body of the [for byte in input] loop: the decoder after the byte and
    either the error it returns or the frame it completes. *)
Definition push_byte (d : FrameDecoder) (byte : byte)
  : FrameDecoder * result FrameError (option str) :=
  if saturating_add usize_max (limit d) 4 <=? len (buffer d) then (d, Err Length)
  else
    let buf := buffer d ++ [byte] in
    let header :=
      if is_none (expected d) && (4 <=? len buf) then
        let length := of_be (take 4 buf) in
        if (length =? 0) || (limit d <? length) then Err Length
        else Ok (Some length)
      else Ok (expected d) in
    match header with
    | Err e => (mkDecoder buf (expected d) (limit d), Err e)
    | Ok None => (mkDecoder buf None (limit d), Ok None)
    | Ok (Some length) => take_frame (limit d) buf length
    end.

(** [FrameDecoder::push]; the decoder keeps its mutations when it fails. *)
Fixpoint push (d : FrameDecoder) (input : bytes)
  : FrameDecoder * result FrameError (list str) :=
  match input with
  | [] => (d, Ok [])
  | byte :: input =>
      match push_byte d byte with
      | (d, Err e) => (d, Err e)
      | (d, Ok frame) =>
          let (d, frames) := push d input in
          (d, (fun fs => option_list frame ++ fs) <$> frames)
      end
  end.

Definition encode_frame (input : str) (limit : Z) : result FrameError bytes :=
  if bool_decide (input = []) || (limit <? len input) || (u32_max <? len input)
  then Err Length
  else Ok (be_bytes 4 (len input) ++ input).

(** ** Well-formed decoders *)

(** Between two calls the buffer holds less than one frame, and [expected]
    is the checked length its first four bytes announce. *)
Definition wf (d : FrameDecoder) : Prop :=
  0 < limit d /\
  match expected d with
  | None => len (buffer d) < 4
  | Some n =>
      0 < n <= limit d /\ 4 <= len (buffer d) < n + 4 /\ of_be (take 4 (buffer d)) = n
  end.

(** Feeding a list of chunks, stopping at the first error. *)
Fixpoint push_chunks (d : FrameDecoder) (chunks : list bytes)
  : FrameDecoder * result FrameError (list str) :=
  match chunks with
  | [] => (d, Ok [])
  | c :: chunks =>
      match push d c with
      | (d, Err e) => (d, Err e)
      | (d, Ok fs) =>
          let (d, r) := push_chunks d chunks in (d, (fun gs => fs ++ gs) <$> r)
      end
  end.

(** What the peer sends for a list of messages. *)
Definition encoding (s : str) : bytes := be_bytes 4 (len s) ++ s.


Fixpoint encodings (l : list str) : bytes :=
  match l with
  | [] => []
  | s :: l => encoding s ++ encodings l
  end.

Lemma encodings_app l k : encodings (l ++ k) = encodings l ++ encodings k.
Proof. induction l as [|s l IH]; simpl; [done|]. by rewrite IH, app_assoc. Qed.

#[local] Opaque encoding.

Definition sendable (limit : Z) (s : str) : Prop :=
  s <> [] /\ len s <= limit /\ len s <= u32_max /\ utf8_valid s = true.

(** ** One byte *)

Lemma take_4_app (l k : bytes) : 4 <= len l -> take 4 (l ++ k) = take 4 l.
Proof. intros. apply take_app_le. unfold len in *. lia. Qed.

(** The length guard at the top of the loop never fires on a well-formed
    decoder: the header check already bounds the buffer. *)
Lemma wf_guard d :
  wf d -> (saturating_add usize_max (limit d) 4 <=? len (buffer d)) = false.
Proof.
  intros [Hl H]. apply Z.leb_gt. destruct (expected d) as [n|].
  - destruct H as (? & ? & Hn).
    pose proof (of_be4_range (take 4 (buffer d))). rewrite length_take in *. ints.
  - ints.
Qed.

(** The frame a completed buffer holds, re-encoded, is the buffer. *)
Lemma payload_encoding (buf : bytes) n :
  of_be (take 4 buf) = n -> len buf = n + 4 -> 0 <= n ->
  encoding (take (Z.to_nat n) (drop 4 buf)) = buf /\
  len (take (Z.to_nat n) (drop 4 buf)) = n.
Proof.
  intros Hn Hl Hn0. Transparent encoding. unfold encoding. Opaque encoding.
  assert (Hd : length (drop 4 buf) = Z.to_nat n) by (rewrite length_drop; unfold len in *; lia).
  rewrite take_ge by lia.
  assert (Hlen : len (drop 4 buf) = n) by (unfold len in *; lia).
  rewrite Hlen. split; [|done]. rewrite <- Hn.
  rewrite be_bytes_of_be by (rewrite length_take; unfold len in *; lia).
  apply take_drop.
Qed.

Lemma take_frame_Ok lim buf n d' o :
  0 < n <= lim -> of_be (take 4 buf) = n -> 4 <= len buf <= n + 4 ->
  take_frame lim buf n = (d', Ok o) ->
  wf d' /\ limit d' = lim /\
  buf = encodings (option_list o) ++ buffer d' /\
  Forall (sendable lim) (option_list o).
Proof.
  intros Hn Hof H4. unfold take_frame. case_if.
  - intros [= <- <-]. unfold wf; simpl. split_and!; auto; lia.
  - destruct (payload_encoding buf n Hof ltac:(lia) ltac:(lia)) as [Henc Hpl].
    assert (Hnil : drop (Z.to_nat (4 + n)) buf = []) by (apply drop_ge; unfold len in *; lia).
    rewrite Hnil. generalize dependent (take (Z.to_nat n) (drop 4 buf)). intros p Henc Hpl.
    unfold from_utf8. case_if; [|done]. intros [= <- <-]. simpl.
    rewrite !app_nil_r, Henc. split_and!; [|done|done|].
    + unfold wf, len; simpl; lia.
    + constructor; [|done]. unfold sendable. rewrite Hpl. split_and!; [|lia| |done].
      * intros E. rewrite E in Hpl. unfold len in Hpl; simpl in Hpl; lia.
      * pose proof (of_be4_range (take 4 buf)). rewrite length_take in *. lia.
Qed.

(** A successful byte keeps the decoder well formed and accounts for every
    byte of the buffer. *)
Lemma push_byte_Ok d b d' o :
  wf d -> push_byte d b = (d', Ok o) ->
  wf d' /\ limit d' = limit d /\
  buffer d ++ [b] = encodings (option_list o) ++ buffer d' /\
  Forall (sendable (limit d)) (option_list o).
Proof.
  intros Hwf. unfold push_byte. rewrite (wf_guard _ Hwf).
  destruct Hwf as [Hl He]. pose proof (len_snoc (buffer d) b) as Hlen.
  destruct (expected d) as [n|] eqn:E; simpl.
  - destruct He as (? & ? & Hof). apply take_frame_Ok; [done| |lia].
    by rewrite take_4_app by lia.
  - case_if; simpl.
    + case_if; [done|]. bools.
      pose proof (of_be4_range (take 4 (buffer d ++ [b]))) as Hr.
      rewrite length_take in Hr. specialize (Hr ltac:(lia)).
      apply take_frame_Ok; lia.
    + intros [= <- <-]. unfold wf; simpl. split_and!; auto; lia.
Qed.

(** ** Whole inputs *)

Lemma push_Ok d input d' fs :
  wf d -> push d input = (d', Ok fs) ->
  wf d' /\ limit d' = limit d /\
  buffer d ++ input = encodings fs ++ buffer d' /\ Forall (sendable (limit d)) fs.
Proof.
  revert d fs. induction input as [|b input IH]; intros d fs Hwf; simpl.
  - intros [= -> <-]. rewrite app_nil_r. auto.
  - destruct (push_byte d b) as [d1 [o|e]] eqn:E1; [|done].
    destruct (push d1 input) as [d2 [gs|e]] eqn:E2; [|done]. intros [= <- <-].
    destruct (push_byte_Ok _ _ _ _ Hwf E1) as (Hwf1 & Hl1 & Hb & Hs).
    destruct (IH _ _ Hwf1 E2) as (Hwf2 & Hl2 & Hb2 & Hs2).
    rewrite encodings_app, <- app_assoc, <- Hb2, app_assoc, <- Hb, <- app_assoc.
    rewrite Hl2, Hl1 in *. split_and!; auto. by apply Forall_app.
Qed.

Lemma push_app d a b :
  push d (a ++ b) =
  match push d a with
  | (d1, Err e) => (d1, Err e)
  | (d1, Ok fs) => let (d2, r) := push d1 b in (d2, (fun gs => fs ++ gs) <$> r)
  end.
Proof.
  revert d. induction a as [|x a IH]; intros d; simpl.
  - destruct (push d b) as [? [?|?]]; done.
  - destruct (push_byte d x) as [d1 [o|e]]; [|done]. rewrite IH.
    destruct (push d1 a) as [d2 [fs|e]]; [|done]. simpl.
    destruct (push d2 b) as [d3 [gs|e]]; simpl; [|done]. by rewrite app_assoc.
Qed.

(** A decoder that has seen the proper prefix [p] of the encoding of [s]. *)
Definition at_prefix (lim : Z) (s p : bytes) : FrameDecoder :=
  mkDecoder p (if 4 <=? len p then Some (len s) else None) lim.

Lemma take_4_encoding s p q :
  encoding s = p ++ q -> 4 <= len p -> take 4 p = be_bytes 4 (len s).
Proof.
  Transparent encoding. unfold encoding. Opaque encoding. intros H Hp.
  apply (f_equal (take 4)) in H. rewrite (take_4_app p q) in H by done. rewrite <- H.
  by rewrite take_app_length' by (by rewrite length_be_bytes).
Qed.

Lemma len_encoding s : len (encoding s) = 4 + len s.
Proof. Transparent encoding. unfold encoding. Opaque encoding. by lens. Qed.

Lemma header_value lim s :
  sendable lim s -> of_be (be_bytes 4 (len s)) = len s /\ 0 < len s.
Proof.
  intros (Hne & _ & Hmax & _). destruct s as [|b s]; [done|].
  pose proof (len_nonneg s). rewrite len_cons in *.
  split; [|lia]. apply of_be_be_bytes_small. unfold u32_max in *. simpl. lia.
Qed.

Lemma take_frame_at lim s buf q :
  sendable lim s -> encoding s = buf ++ q -> 4 <= len buf ->
  take_frame lim buf (len s) =
  if bool_decide (q = []) then (mkDecoder [] None lim, Ok (Some s))
  else (mkDecoder buf (Some (len s)) lim, Ok None).
Proof.
  intros (_ & _ & _ & Hutf) Henc H4. unfold take_frame.
  pose proof (len_encoding s) as Hlen. rewrite Henc, len_app in Hlen.
  case_bool_decide as Hq.
  - subst q. rewrite app_nil_r in *. rewrite (proj2 (Z.ltb_ge _ _)) by (unfold len in *; simpl in *; lia).
    rewrite <- Henc. Transparent encoding. unfold encoding. Opaque encoding.
    rewrite drop_app_length' by (by rewrite length_be_bytes).
    rewrite take_ge by (unfold len; lia). unfold from_utf8. rewrite Hutf.
    rewrite drop_ge; [done|]. rewrite length_app, length_be_bytes. unfold len. lia.
  - rewrite (proj2 (Z.ltb_lt _ _)); [done|]. destruct q; [done|].
    rewrite len_cons in Hlen. pose proof (len_nonneg q). lia.
Qed.

Lemma push_byte_at lim s p b q :
  sendable lim s -> encoding s = p ++ b :: q ->
  push_byte (at_prefix lim s p) b =
  if bool_decide (q = []) then (mkDecoder [] None lim, Ok (Some s))
  else (at_prefix lim s (p ++ [b]), Ok None).
Proof.
  intros Hs Henc. pose proof Hs as (_ & Hle & Hmax & _).
  destruct (header_value _ _ Hs) as [Hhdr Hpos].
  assert (Henc' : encoding s = (p ++ [b]) ++ q) by (by rewrite <- app_assoc).
  pose proof (len_encoding s) as Hlen. rewrite Henc', len_app in Hlen.
  pose proof (len_snoc p b) as Hsn. pose proof (len_nonneg q).
  unfold push_byte, at_prefix. cbn [buffer expected limit].
  rewrite (proj2 (Z.leb_gt _ _)) by ints.
  destruct (4 <=? len p) eqn:E; simpl; bools.
  - rewrite (proj2 (Z.leb_le 4 (len (p ++ [b])))) by lia. apply take_frame_at; auto; lia.
  - destruct (4 <=? len (p ++ [b])) eqn:E4; simpl; bools.
    + rewrite (take_4_encoding s _ q), Hhdr by done.
      rewrite (proj2 (Z.eqb_neq _ _)), (proj2 (Z.ltb_ge _ _)) by lia.
      simpl. by apply take_frame_at.
    + case_bool_decide as Hq; [|done]. subst. unfold len in *; simpl in *; lia.
Qed.

Lemma push_at lim s p q :
  sendable lim s -> q <> [] -> encoding s = p ++ q ->
  push (at_prefix lim s p) q = (mkDecoder [] None lim, Ok [s]).
Proof.
  intros Hs. revert p. induction q as [|b q IH]; intros p Hne Henc; [done|].
  cbn [push]. rewrite (push_byte_at _ _ _ _ q) by done.
  case_bool_decide as Hq; [by subst|].
  rewrite IH; [done|done|]. by rewrite <- app_assoc.
Qed.

Lemma push_encodings lim fs :
  Forall (sendable lim) fs ->
  push (mkDecoder [] None lim) (encodings fs) = (mkDecoder [] None lim, Ok fs).
Proof.
  induction 1 as [|s fs Hs _ IH]; [done|]. simpl. rewrite push_app.
  change (mkDecoder [] None lim) with (at_prefix lim s []) at 1.
  rewrite push_at; [|done| |done].
  - by rewrite IH.
  - intros E. pose proof (len_encoding s). pose proof (len_nonneg s). rewrite E in *.
    unfold len in *; simpl in *; lia.
Qed.

Lemma new_Ok lim d : is_u64 lim -> new lim = Ok d -> d = mkDecoder [] None lim /\ wf d.
Proof.
  unfold new. intros Hl. case_if; [done|]. intros [= <-]. split; [done|].
  unfold wf, len; simpl. ints.
Qed.

Lemma push_chunks_concat d chunks : push_chunks d chunks = push d (concat chunks).
Proof.
  revert d. induction chunks as [|c chunks IH]; intros d; [done|].
  simpl. rewrite push_app. destruct (push d c) as [d1 [fs|e]]; [|done].
  by rewrite IH.
Qed.

Lemma encode_frame_Ok s lim e :
  encode_frame s lim = Ok e <->
  e = encoding s /\ s <> [] /\ len s <= lim /\ len s <= u32_max.
Proof.
  Transparent encoding. unfold encode_frame, encoding. Opaque encoding.
  case_if; split.
  - done.
  - intros (_ & Hne & ? & ?). rewrite bool_decide_eq_false_2 in Heqb by done.
    apply orb_true_iff in Heqb as [?|?]; bools; lia.
  - intros [= <-]. bools. done.
  - intros (-> & _); done.
Qed.

Lemma encode_frames lim fs es :
  Forall2 (fun s e => encode_frame s lim = Ok e) fs es <->
  concat es = encodings fs /\ es = encoding <$> fs /\
  Forall (fun s => s <> [] /\ len s <= lim /\ len s <= u32_max) fs.
Proof.
  split.
  - induction 1 as [|s e fs es He _ IH]; [done|].
    apply encode_frame_Ok in He as (-> & ?). destruct IH as (Hc & -> & ?).
    simpl. rewrite Hc. auto.
  - intros (_ & -> & H). induction H as [|s fs ? _ IH]; [constructor|].
    constructor; [|done]. by apply encode_frame_Ok.
Qed.

(** C9: any fragmentation and coalescing of a sequence of encoded messages
    decodes to exactly those messages, and leaves the decoder empty, ready for
    the next one. *)
Theorem decode_fragmented lim d fs es chunks :
  new lim = Ok d ->
  Forall (fun s => utf8_valid s = true) fs ->
  Forall2 (fun s e => encode_frame s lim = Ok e) fs es ->
  concat chunks = concat es ->
  push_chunks d chunks = (d, Ok fs).
Proof.
  unfold new. case_if; [done|]. intros [= <-] Hutf (Hes & _ & Hs)%encode_frames Hc.
  rewrite push_chunks_concat, Hc, Hes. apply push_encodings.
  apply Forall_forall. intros s Hin. rewrite Forall_forall in Hs, Hutf.
  destruct (Hs s Hin) as (? & ? & ?). split_and!; auto.
Qed.

Lemma decode_fragmented_witness :
  push_chunks (mkDecoder [] None 16)
    [[x00; x00]; [x00; x03; "o"; "n"]; "e" :: be_bytes 4 3 ++ #"two"]%byte
  = (mkDecoder [] None 16, Ok [ #"one"; #"two"]).
Proof.
  apply (decode_fragmented 16 _ _ [be_bytes 4 3 ++ #"one"; be_bytes 4 3 ++ #"two"]).
  - reflexivity.
  - repeat constructor.
  - repeat constructor.
  - reflexivity.
Defined.

(** Whatever a decoder accepts is the concatenation of the encodings of the
    messages it returned and of less than one frame that it still buffers: no
    byte is lost, invented or reordered, every message is valid UTF-8, and the
    buffer stays below the frame limit plus the header. *)
Theorem decode_sound lim d input d' fs :
  is_u64 lim -> new lim = Ok d -> push d input = (d', Ok fs) ->
  (exists es, Forall2 (fun s e => encode_frame s lim = Ok e) fs es /\
     input = concat es ++ buffer d') /\
  Forall (fun s => utf8_valid s = true) fs /\ len (buffer d') < lim + 4.
Proof.
  intros Hl Hnew Hp. destruct (new_Ok _ _ Hl Hnew) as [-> Hwf].
  destruct (push_Ok _ _ _ _ Hwf Hp) as ([? Hwf'] & Hlim & Hb & Hs). simpl in *.
  split_and!.
  - exists (encoding <$> fs). rewrite Forall_forall in Hs.
    assert (Hf : Forall2 (fun s e => encode_frame s lim = Ok e) fs (encoding <$> fs)).
    { apply Forall2_fmap_r, Forall_Forall2_diag, Forall_forall. intros s Hin.
      apply encode_frame_Ok. destruct (Hs s Hin) as (? & ? & ? & ?). auto. }
    split; [done|]. apply encode_frames in Hf as (-> & _). done.
  - eapply Forall_impl; [done|]. by intros s (_ & _ & _ & ?).
  - destruct (expected d'); ints.
Qed.

Lemma decode_sound_witness :
  exists es, Forall2 (fun s e => encode_frame s 16 = Ok e) [ #"hi"] es /\
    be_bytes 4 2 ++ #"hi" ++ [x00; x00] = concat es ++ [x00; x00].
Proof.
  refine (proj1 (decode_sound 16 (mkDecoder [] None 16)
    (be_bytes 4 2 ++ #"hi" ++ [x00; x00]) (mkDecoder [x00; x00] None 16) [ #"hi"] _ _ _)).
  - unfold is_u64, u64_max; lia.
  - reflexivity.
  - reflexivity.
Defined.

(** ** After a length error *)

(** The state a rejected length leaves: the bad header stays buffered. *)
Definition poisoned (d : FrameDecoder) : Prop :=
  expected d = None /\ 4 <= len (buffer d) <= limit d + 4 /\
  (of_be (take 4 (buffer d)) = 0 \/ limit d < of_be (take 4 (buffer d))).

Lemma push_byte_poisoned d b :
  poisoned d -> exists d', push_byte d b = (d', Err Length) /\ poisoned d' /\ limit d' = limit d.
Proof.
  intros (He & H4 & Hbad). unfold push_byte. pose proof (len_snoc (buffer d) b).
  case_if; [exists d; unfold poisoned; auto|].
  rewrite He. simpl. rewrite (proj2 (Z.leb_le _ _)) by lia.
  rewrite take_4_app by lia.
  replace ((of_be (take 4 (buffer d)) =? 0) || (limit d <? of_be (take 4 (buffer d)))) with true.
  2: { symmetry. apply orb_true_iff. destruct Hbad; [left; by apply Z.eqb_eq|right; by apply Z.ltb_lt]. }
  eexists; split; [done|]. split; [|done]. unfold poisoned; simpl.
  rewrite take_4_app by lia. split_and!; auto; ints.
Qed.

Lemma push_byte_Length d b d' :
  wf d -> push_byte d b = (d', Err Length) -> poisoned d' /\ limit d' = limit d.
Proof.
  intros Hwf. unfold push_byte. rewrite (wf_guard _ Hwf). destruct Hwf as [Hl He].
  pose proof (len_snoc (buffer d) b).
  assert (Hno : forall buf n, take_frame (limit d) buf n <> (d', Err Length)).
  { intros buf n. unfold take_frame, from_utf8. repeat case_if; congruence. }
  destruct (expected d) as [n|] eqn:E; simpl; [by intros ?%Hno|].
  case_if; simpl; [|done]. case_if; [|by intros ?%Hno]. intros [= <-].
  split; [|done]. unfold poisoned; simpl. split_and!; [done|lia|lia|].
  apply orb_true_iff in Heqb1 as [?|?]; bools; auto.
Qed.

Lemma push_Length d input d' :
  wf d -> push d input = (d', Err Length) -> poisoned d' /\ limit d' = limit d.
Proof.
  revert d. induction input as [|b input IH]; intros d Hwf; simpl; [done|].
  destruct (push_byte d b) as [d1 [o|e]] eqn:E1.
  - destruct (push d1 input) as [d2 [gs|e]] eqn:E2; [done|]. intros [= <- ->].
    destruct (push_byte_Ok _ _ _ _ Hwf E1) as (Hwf1 & <- & _). eauto.
  - intros [= <- ->]. eauto using push_byte_Length.
Qed.

(** A length error is final.  Once a frame announces a zero or oversized
    length, every later non-empty push fails the same way, so the stream never
    resynchronises on attacker-chosen bytes, and the buffer stays bounded. *)
Theorem length_error_final lim d input d1 more :
  is_u64 lim -> new lim = Ok d -> push d input = (d1, Err Length) -> more <> [] ->
  exists d2, push d1 more = (d2, Err Length) /\ len (buffer d2) <= lim + 4.
Proof.
  intros Hl Hnew Hp Hne. destruct (new_Ok _ _ Hl Hnew) as [-> Hwf].
  destruct (push_Length _ _ _ Hwf Hp) as [Hpo Hlim]. simpl in Hlim.
  destruct more as [|b more]; [done|].
  destruct (push_byte_poisoned d1 b Hpo) as (d2 & E & (_ & Hb & _) & Hl2).
  exists d2. simpl. rewrite E. split; [done|]. lia.
Qed.

Lemma length_error_final_witness :
  exists d2, push (mkDecoder (be_bytes 4 17) None 16) #"x" = (d2, Err Length) /\
    len (buffer d2) <= 16 + 4.
Proof.
  apply (length_error_final 16 (mkDecoder [] None 16) (be_bytes 4 17)).
  - unfold is_u64, u64_max; lia.
  - reflexivity.
  - reflexivity.
  - discriminate.
Defined.
