(* ===== verification/Accounting.v ===== *)
(** Quota accounts and token buckets
    (modules/policy-local/src/accounting.rs).

    A method on [&mut self] returns the object after the call beside its
    result, so that error paths show what they leave behind. *)
From S2P Require Import Prelude.
#[local] Open Scope Z_scope.

Inductive QuotaError := Invalid | State | Exhausted | Overflow | Clock.

#[export] Instance QuotaError_eq_dec : EqDecision QuotaError.
Proof. solve_decision. Defined.

(** * Quota accounts *)
Module QuotaAccount.

Record t := mk {
  limit_bytes : option Z;
  durable_charged : Z;
  credit_remaining : Z;
  block_bytes : Z;
  debit_pending : bool;
  refund_pending : bool;
}.

Definition new (limit_bytes : option Z) (durable_charged block_bytes : Z)
  : result QuotaError t :=
  if (block_bytes =? 0) || is_some_and limit_bytes (fun limit => limit <? durable_charged)
  then Err Invalid
  else Ok (mk limit_bytes durable_charged 0 block_bytes false false).

Definition request_credit (a : t) : t * result QuotaError Z :=
  if negb (credit_remaining a =? 0) || debit_pending a || refund_pending a
  then (a, Err State)
  else
    let available :=
      unwrap_or ((fun limit => saturating_sub limit (durable_charged a)) <$> limit_bytes a)
        (block_bytes a) in
    let amount := Z.min available (block_bytes a) in
    if amount =? 0 then (a, Err Exhausted)
    else (mk (limit_bytes a) (durable_charged a) (credit_remaining a) (block_bytes a)
             true (refund_pending a), Ok amount).

Definition commit_credit (a : t) (amount : Z) : t * result QuotaError unit :=
  if negb (debit_pending a) || (amount =? 0) || (block_bytes a <? amount)
  then (a, Err State)
  else match checked_add u64_max (durable_charged a) amount with
  | None => (a, Err Overflow)
  | Some next =>
      if is_some_and (limit_bytes a) (fun limit => limit <? next) then (a, Err Exhausted)
      else (mk (limit_bytes a) next amount (block_bytes a) false (refund_pending a), Ok tt)
  end.

Definition fail_credit (a : t) : t :=
  mk (limit_bytes a) (durable_charged a) 0 (block_bytes a) false (refund_pending a).

Definition charge (a : t) (accepted_bytes : Z) : t * result QuotaError unit :=
  if credit_remaining a <? accepted_bytes then (a, Err Exhausted)
  else (mk (limit_bytes a) (durable_charged a) (credit_remaining a - accepted_bytes)
           (block_bytes a) (debit_pending a) (refund_pending a), Ok tt).

Definition request_refund (a : t) : t * result QuotaError Z :=
  if debit_pending a || refund_pending a then (a, Err State)
  else
    let refund := credit_remaining a in
    if refund =? 0 then (a, Err State)
    else (mk (limit_bytes a) (durable_charged a) (credit_remaining a) (block_bytes a)
             (debit_pending a) true, Ok refund).

Definition commit_refund (a : t) (refund : Z) : t * result QuotaError unit :=
  if negb (refund_pending a) || (refund =? 0) || negb (refund =? credit_remaining a)
  then (a, Err State)
  else match checked_sub (durable_charged a) refund with
  | None => (a, Err State)
  | Some charged =>
      (mk (limit_bytes a) charged 0 (block_bytes a) (debit_pending a) false, Ok tt)
  end.

Definition fail_refund (a : t) : t :=
  mk (limit_bytes a) (durable_charged a) 0 (block_bytes a) (debit_pending a) false.

Definition checkpoint_refund (a : t) : t * result QuotaError Z :=
  match request_refund a with
  | (a, Err e) => (a, Err e)
  | (a, Ok refund) =>
      match commit_refund a refund with
      | (a, Err e) => (a, Err e)
      | (a, Ok _) => (a, Ok refund)
      end
  end.

(** ** Runs of an account *)

Inductive op :=
| RequestCredit | CommitCredit (amount : Z) | FailCredit
| Charge (bytes : Z)
| RequestRefund | CommitRefund (refund : Z) | FailRefund | CheckpointRefund.

(** The account after an operation, and the bytes the operation charged. *)
Definition step (a : t) (o : op) : t * Z :=
  match o with
  | RequestCredit => (fst (request_credit a), 0)
  | CommitCredit amount => (fst (commit_credit a amount), 0)
  | FailCredit => (fail_credit a, 0)
  | Charge bytes =>
      (fst (charge a bytes), if is_ok (snd (charge a bytes)) then bytes else 0)
  | RequestRefund => (fst (request_refund a), 0)
  | CommitRefund refund => (fst (commit_refund a refund), 0)
  | FailRefund => (fail_refund a, 0)
  | CheckpointRefund => (fst (checkpoint_refund a), 0)
  end.

Fixpoint run (a : t) (ops : list op) : t * Z :=
  match ops with
  | [] => (a, 0)
  | o :: ops =>
      let (a, n) := step a o in
      let (a, m) := run a ops in (a, n + m)
  end.

(** Arguments are [u64] values. *)
Definition op_ok (o : op) : Prop :=
  match o with
  | CommitCredit n | Charge n | CommitRefund n => is_u64 n
  | _ => True
  end.

Definition is_failure (o : op) : bool :=
  match o with FailCredit | FailRefund => true | _ => false end.

(** The account invariant: [floor] is what was consumed before and since it
    was opened. *)
Definition inv (floor : Z) (a : t) : Prop :=
  0 <= credit_remaining a /\ 0 < block_bytes a /\
  0 <= floor /\ floor + credit_remaining a <= durable_charged a <= u64_max /\
  (forall l, limit_bytes a = Some l -> durable_charged a <= l) /\
  (debit_pending a = true -> credit_remaining a = 0 /\ refund_pending a = false).

Lemma new_inv limit d0 block a :
  is_u64 d0 -> is_u64 block -> new limit d0 block = Ok a ->
  inv d0 a /\ durable_charged a = d0 /\ credit_remaining a = 0 /\ limit_bytes a = limit.
Proof.
  unfold new, inv. intros ??. case_if; [done|]. intros [= <-]. bools. simpl.
  split_and!; try done; try ints.
  intros l ->. simpl in *. bools. lia.
Qed.

(** The outcome of one operation: the invariant survives, and without a
    failure notice the durable counter stays exact. *)
Definition step_ok (a : t) (o : op) : Prop :=
  forall floor, inv floor a ->
  let (a', n) := step a o in
  inv (floor + n) a' /\ limit_bytes a' = limit_bytes a /\ 0 <= n /\
  (is_failure o = false ->
   durable_charged a' - credit_remaining a' = durable_charged a - credit_remaining a + n).

Lemma request_credit_ok a : step_ok a RequestCredit.
Proof.
  intros floor Hinv. simpl. unfold request_credit.
  case_if; simpl; [rewrite Z.add_0_r; auto with lia|].
  case_if; simpl; [rewrite Z.add_0_r; auto with lia|].
  unfold inv in *; simpl. bools. destruct_and!. split_and!; auto; lia.
Qed.

Lemma commit_credit_ok a n : is_u64 n -> step_ok a (CommitCredit n).
Proof.
  intros Hn floor Hinv. simpl. unfold commit_credit.
  case_if; simpl; [rewrite Z.add_0_r; auto with lia|].
  destruct (checked_add _ _ _) as [next|] eqn:E; simpl; [|rewrite Z.add_0_r; auto with lia].
  apply checked_add_Some in E as [-> Hmax].
  case_if; simpl; [rewrite Z.add_0_r; auto with lia|].
  unfold inv in *; simpl. bools. destruct Hinv as (? & ? & ? & ? & Hlim & Hd).
  destruct Hd as [Hc Hr]; [done|]. unfold is_u64 in Hn. rewrite Hc in *.
  split_and!; try done; try lia.
  intros l Hl. rewrite Hl in *. simpl in *. bools. lia.
Qed.

Lemma charge_ok a n : is_u64 n -> step_ok a (Charge n).
Proof.
  intros Hn floor Hinv. simpl. unfold charge.
  destruct (credit_remaining a <? n) eqn:E; bools; simpl; [rewrite Z.add_0_r; auto with lia|].
  unfold inv, is_u64 in *; simpl. destruct Hinv as (? & ? & ? & ? & Hlim & Hd).
  split_and!; try done; try lia. intros Hp. destruct (Hd Hp). split; [lia|done].
Qed.

Lemma request_refund_ok a : step_ok a RequestRefund.
Proof.
  intros floor Hinv. simpl. unfold request_refund.
  case_if; simpl; [rewrite Z.add_0_r; auto with lia|].
  case_if; simpl; [rewrite Z.add_0_r; auto with lia|].
  unfold inv in *; simpl. bools. destruct_and!. split_and!; auto; try lia. congruence.
Qed.

Lemma commit_refund_ok a n : is_u64 n -> step_ok a (CommitRefund n).
Proof.
  intros Hn floor Hinv. simpl. unfold commit_refund.
  case_if; simpl; [rewrite Z.add_0_r; auto with lia|].
  destruct (checked_sub _ _) as [charged|] eqn:E; simpl; [|rewrite Z.add_0_r; auto with lia].
  apply checked_sub_Some in E as [-> ?].
  unfold inv, is_u64 in *; simpl. bools. destruct Hinv as (? & ? & ? & ? & Hlim & Hd).
  split_and!; try done; try lia.
  intros l Hl. specialize (Hlim l Hl). lia.
Qed.

Lemma fail_ok a o : o = FailCredit \/ o = FailRefund -> step_ok a o.
Proof.
  intros Ho floor Hinv. destruct Ho as [-> | ->]; simpl; rewrite Z.add_0_r;
    unfold inv, fail_credit, fail_refund in *; simpl;
    destruct Hinv as (? & ? & ? & ? & Hlim & Hd);
    split_and!; try done; try lia; intros Hp; destruct (Hd Hp); auto.
Qed.

Lemma checkpoint_refund_ok a : step_ok a CheckpointRefund.
Proof.
  intros floor Hinv. simpl. unfold checkpoint_refund.
  pose proof (request_refund_ok a floor Hinv) as H1. simpl in H1.
  destruct (request_refund a) as [a1 [refund|e]] eqn:E1; simpl in *; [|done].
  destruct H1 as (Hinv1 & Hl1 & _ & Hb1). rewrite Z.add_0_r in Hinv1.
  assert (Hr : is_u64 refund).
  { unfold request_refund in E1. do 2 (case_if_in E1; [done|]). simplify_eq.
    unfold inv in Hinv. unfold is_u64. lia. }
  pose proof (commit_refund_ok a1 refund Hr floor Hinv1) as H2. simpl in H2.
  destruct (commit_refund a1 refund) as [a2 [[]|e]] eqn:E2; simpl in *;
    destruct H2 as (? & Hl2 & _ & Hb2); rewrite Hl2; split_and!; auto; try lia;
    intros _; rewrite Hb2, Hb1 by done; lia.
Qed.

Lemma step_preserves a o : op_ok o -> step_ok a o.
Proof.
  destruct o; simpl; intros;
    auto using request_credit_ok, commit_credit_ok, charge_ok, request_refund_ok,
      commit_refund_ok, checkpoint_refund_ok, fail_ok.
Qed.

Lemma run_preserves floor a ops :
  Forall op_ok ops -> inv floor a ->
  let (a', n) := run a ops in
  inv (floor + n) a' /\ limit_bytes a' = limit_bytes a /\ 0 <= n /\
  (forallb (fun o => negb (is_failure o)) ops = true ->
   durable_charged a' - credit_remaining a' = durable_charged a - credit_remaining a + n).
Proof.
  intros Hops. revert floor a. induction Hops as [|o ops Ho _ IH]; intros floor a Hinv; simpl.
  - rewrite Z.add_0_r. split_and!; auto; lia.
  - pose proof (step_preserves a o Ho floor Hinv) as Hs.
    destruct (step a o) as [a1 n]. destruct Hs as (Hinv1 & Hl1 & Hn & He1).
    specialize (IH _ _ Hinv1). destruct (run a1 ops) as [a2 m].
    destruct IH as (Hinv2 & Hl2 & Hm & He2).
    replace (floor + (n + m)) with (floor + n + m) by lia.
    split_and!; auto; [congruence|lia|].
    intros Hf. bools. rewrite He2 by done. rewrite He1 by done. lia.
Qed.

(** C1: a user never consumes more than the quota.  However credit requests,
    commits, failures, charges and refunds interleave, the bytes charged since
    the account was opened plus the bytes consumed before never exceed the
    durable counter, and the durable counter never exceeds the limit: a crash
    at any point can lose credit but never grant bytes beyond the quota. *)
Theorem quota_never_exceeded limit d0 block a ops :
  is_u64 d0 -> is_u64 block -> new limit d0 block = Ok a -> Forall op_ok ops ->
  let (a', consumed) := run a ops in
  d0 + consumed + credit_remaining a' <= durable_charged a' <= u64_max /\
  (forall l, limit = Some l -> d0 + consumed <= durable_charged a' <= l).
Proof.
  intros Hd Hb Hnew Hops. destruct (new_inv _ _ _ _ Hd Hb Hnew) as (Hinv & _ & _ & Hl).
  pose proof (run_preserves _ _ _ Hops Hinv) as H. destruct (run a ops) as [a' n].
  destruct H as ((? & ? & ? & ? & Hlim & _) & Hl' & _ & _).
  split; [lia|]. intros l Hl0. specialize (Hlim l). rewrite Hl', Hl in Hlim.
  specialize (Hlim Hl0). lia.
Qed.

Lemma quota_never_exceeded_witness :
  let (a', consumed) :=
    run (mk (Some 2000000) 0 0 1048576 false false)
      [RequestCredit; CommitCredit 1048576; Charge 400000; RequestRefund; FailRefund;
       RequestCredit; CommitCredit 951424; Charge 951424; RequestCredit] in
  0 + consumed + credit_remaining a' <= durable_charged a' <= u64_max /\
  (forall l, Some 2000000 = Some l -> 0 + consumed <= durable_charged a' <= l).
Proof.
  apply (quota_never_exceeded (Some 2000000) 0 1048576); unfold is_u64, u64_max; try lia.
  - reflexivity.
  - repeat constructor; unfold is_u64, u64_max; lia.
Defined.

(** Without failed storage writes the books are exact: the durable counter
    is what had been consumed, plus what was charged since, plus the credit
    still in hand; a checkpoint refund therefore leaves exactly the consumed
    bytes charged. *)
Theorem quota_books_balance limit d0 block a ops :
  is_u64 d0 -> is_u64 block -> new limit d0 block = Ok a -> Forall op_ok ops ->
  forallb (fun o => negb (is_failure o)) ops = true ->
  let (a', consumed) := run a ops in
  durable_charged a' = d0 + consumed + credit_remaining a' /\
  (forall refund a'', checkpoint_refund a' = (a'', Ok refund) ->
     durable_charged a'' = d0 + consumed /\ credit_remaining a'' = 0).
Proof.
  intros Hd Hb Hnew Hops Hf. destruct (new_inv _ _ _ _ Hd Hb Hnew) as (Hinv & Hd0 & Hc0 & _).
  pose proof (run_preserves _ _ _ Hops Hinv) as H. destruct (run a ops) as [a' n].
  destruct H as (_ & _ & _ & He). specialize (He Hf). split; [lia|].
  intros refund a'' H. unfold checkpoint_refund, request_refund, commit_refund in H.
  destruct (debit_pending a' || refund_pending a'); [done|].
  destruct (credit_remaining a' =? 0) eqn:E; [done|]. simpl in H. rewrite E, Z.eqb_refl in H.
  simpl in H. destruct (checked_sub _ _) as [charged|] eqn:Es; [|done]. simplify_eq. simpl.
  apply checked_sub_Some in Es as [-> _]. lia.
Qed.

Lemma quota_books_balance_witness :
  let (a', consumed) :=
    run (mk (Some 5000000) 0 0 1048576 false false)
      [RequestCredit; CommitCredit 1048576; Charge 48576] in
  durable_charged a' = 0 + consumed + credit_remaining a' /\
  (forall refund a'', checkpoint_refund a' = (a'', Ok refund) ->
     durable_charged a'' = 0 + consumed /\ credit_remaining a'' = 0).
Proof.
  apply (quota_books_balance (Some 5000000) 0 1048576); unfold is_u64, u64_max; try lia.
  - reflexivity.
  - repeat constructor; unfold is_u64, u64_max; lia.
  - reflexivity.
Defined.

End QuotaAccount.

(** * Token buckets *)
Module TokenBucket.

Definition billion : Z := 1000000000.

Record t := mk {
  rate_bytes_per_second : Z;
  burst_bytes : Z;
  tokens : Z;
  last_nanos : Z;
  fractional : Z;
}.

Definition new (rate_bytes_per_second burst_bytes now_nanos : Z) : result QuotaError t :=
  if (rate_bytes_per_second =? 0) || (burst_bytes =? 0) then Err Invalid
  else Ok (mk rate_bytes_per_second burst_bytes burst_bytes now_nanos 0).

Definition refill (b : t) (now_nanos : Z) : t * result QuotaError unit :=
  if now_nanos <? last_nanos b then (b, Err Clock)
  else
    let elapsed := now_nanos - last_nanos b in
    match checked_mul u64_max elapsed (rate_bytes_per_second b) ≫=
          (fun value => checked_add u64_max value (fractional b)) with
    | None => (b, Err Overflow)
    | Some produced =>
        let added := produced / billion in
        (mk (rate_bytes_per_second b) (burst_bytes b)
            (Z.min (saturating_add u64_max (tokens b) added) (burst_bytes b))
            now_nanos (produced mod billion), Ok tt)
    end.

Definition take (b : t) (requested now_nanos : Z) : t * result QuotaError Z :=
  match refill b now_nanos with
  | (b, Err e) => (b, Err e)
  | (b, Ok _) =>
      let granted := Z.min requested (tokens b) in
      (mk (rate_bytes_per_second b) (burst_bytes b) (tokens b - granted)
          (last_nanos b) (fractional b), Ok granted)
  end.

Definition nanos_until (b : t) (bytes now_nanos : Z) : t * result QuotaError Z :=
  match refill b now_nanos with
  | (b, Err e) => (b, Err e)
  | (b, Ok _) =>
      if bytes <=? tokens b then (b, Ok 0)
      else
        let missing := bytes - tokens b in
        match checked_mul u64_max missing billion with
        | None => (b, Err Overflow)
        | Some numerator =>
            match checked_add u64_max numerator (rate_bytes_per_second b - 1) with
            | None => (b, Err Overflow)
            | Some n => (b, Ok (n / rate_bytes_per_second b))
            end
        end
  end.

Definition refund (b : t) (bytes : Z) : t :=
  mk (rate_bytes_per_second b) (burst_bytes b)
     (Z.min (saturating_add u64_max (tokens b) bytes) (burst_bytes b))
     (last_nanos b) (fractional b).

Definition available (b : t) (now_nanos : Z) : t * result QuotaError Z :=
  match refill b now_nanos with
  | (b, Err e) => (b, Err e)
  | (b, Ok _) => (b, Ok (tokens b))
  end.

(** ** Well-formed buckets *)

Definition wf (b : t) : Prop :=
  0 < rate_bytes_per_second b /\ 0 < burst_bytes b <= u64_max /\
  0 <= tokens b <= burst_bytes b /\ 0 <= fractional b < billion /\ 0 <= last_nanos b.

Lemma new_wf rate burst now b :
  is_u64 rate -> is_u64 burst -> 0 <= now -> new rate burst now = Ok b ->
  wf b /\ b = mk rate burst burst now 0.
Proof.
  unfold new, wf, is_u64, billion. intros ???. case_if; [done|]. intros [= <-].
  bools. simpl. split_and!; try done; lia.
Qed.

(** A refill that succeeds: the new time, and the tokens and the fraction the
    elapsed time produced, capped at the burst. *)
Lemma refill_Ok b now b' :
  refill b now = (b', Ok tt) <->
  last_nanos b <= now /\
  (now - last_nanos b) * rate_bytes_per_second b <= u64_max /\
  (now - last_nanos b) * rate_bytes_per_second b + fractional b <= u64_max /\
  let produced := (now - last_nanos b) * rate_bytes_per_second b + fractional b in
  b' = mk (rate_bytes_per_second b) (burst_bytes b)
         (Z.min (saturating_add u64_max (tokens b) (produced / billion)) (burst_bytes b))
         now (produced mod billion).
Proof.
  unfold refill, checked_mul, checked_add. case_if; [split; [done|lia]|].
  case_if; simpl; [|split; [done|lia]]. case_if; simpl; [|split; [done|lia]].
  split; [intros [= <-]; split_and!; auto|]. intros (_ & _ & _ & ->). done.
Qed.

Lemma refill_wf b now : wf b -> wf (fst (refill b now)).
Proof.
  intros Hwf. destruct (refill b now) as [b' [[]|e]] eqn:E; simpl.
  - apply refill_Ok in E as (? & ? & ? & ->). unfold wf in *; simpl.
    set (p := (now - last_nanos b) * rate_bytes_per_second b + fractional b).
    assert (0 <= p) by (unfold p; nia).
    pose proof (Z.div_pos p billion ltac:(lia) ltac:(unfold billion; lia)).
    pose proof (Z.mod_pos_bound p billion ltac:(unfold billion; lia)). ints.
  - unfold refill in E. case_if_in E; simplify_eq; [done|]. case_match; by simplify_eq.
Qed.

(** The bucket's holdings in billionths of a token. *)
Definition potential (b : t) : Z := tokens b * billion + fractional b.

Lemma refill_potential b now :
  wf b ->
  let b' := fst (refill b now) in
  rate_bytes_per_second b' = rate_bytes_per_second b /\ burst_bytes b' = burst_bytes b /\
  last_nanos b <= last_nanos b' <= Z.max (last_nanos b) now /\
  potential b' <= potential b + (last_nanos b' - last_nanos b) * rate_bytes_per_second b.
Proof.
  intros Hwf. destruct (refill b now) as [b' [[]|e]] eqn:E; simpl.
  - apply refill_Ok in E as (? & ? & ? & ->). unfold potential; simpl.
    set (p := (now - last_nanos b) * rate_bytes_per_second b + fractional b).
    pose proof (Z.div_mod p billion ltac:(unfold billion; lia)).
    split_and!; try done; try lia. unfold saturating_add, billion in *. lia.
  - unfold refill in E. case_if_in E; simplify_eq; [split_and!; lia|].
    case_match; simplify_eq; split_and!; lia.
Qed.

(** ** Runs of a bucket *)

Inductive op := Take (requested now : Z) | Refund (bytes : Z) | Available (now : Z)
  | NanosUntil (bytes now : Z).

(** The bucket after an operation and the net bytes it let through. *)
Definition step (b : t) (o : op) : t * Z :=
  match o with
  | Take requested now =>
      (fst (take b requested now), match snd (take b requested now) with Ok g => g | Err _ => 0 end)
  | Refund bytes => (refund b bytes, - bytes)
  | Available now => (fst (available b now), 0)
  | NanosUntil bytes now => (fst (nanos_until b bytes now), 0)
  end.

Fixpoint run (b : t) (ops : list op) : t * Z :=
  match ops with
  | [] => (b, 0)
  | o :: ops =>
      let (b, n) := step b o in
      let (b, m) := run b ops in (b, n + m)
  end.

Definition op_ok (o : op) : Prop :=
  match o with Take n _ | Refund n => 0 <= n | _ => True end.

Lemma available_fst b now : fst (available b now) = fst (refill b now).
Proof. unfold available. destruct (refill b now) as [? [?|?]]; done. Qed.

Lemma nanos_until_fst b bytes now : fst (nanos_until b bytes now) = fst (refill b now).
Proof. unfold nanos_until. destruct (refill b now) as [? [?|?]]; repeat case_match; done. Qed.

Lemma step_potential b o :
  wf b -> op_ok o ->
  let (b', n) := step b o in
  wf b' /\ rate_bytes_per_second b' = rate_bytes_per_second b /\
  burst_bytes b' = burst_bytes b /\ last_nanos b <= last_nanos b' /\
  n * billion + potential b' <=
    potential b + (last_nanos b' - last_nanos b) * rate_bytes_per_second b.
Proof.
  intros Hwf Ho. destruct o as [requested now|bytes|now|bytes now]; simpl in *.
  - pose proof (refill_wf b now Hwf) as Hwf'. pose proof (refill_potential b now Hwf) as Hp.
    unfold take. destruct (refill b now) as [b1 [[]|e]]; simpl in *;
      destruct Hp as (Hr & Hb & ? & Hp); [|split_and!; auto; lia].
    unfold wf, potential in *; simpl. rewrite Hr, Hb in *.
    split_and!; try done; try lia.
  - unfold refund, wf, potential in *; simpl. split_and!; try done; try lia; unfold billion in *; ints.
  - rewrite available_fst. pose proof (refill_wf b now Hwf).
    pose proof (refill_potential b now Hwf). simpl in *. split_and!; try tauto; lia.
  - rewrite nanos_until_fst. pose proof (refill_wf b now Hwf).
    pose proof (refill_potential b now Hwf). simpl in *. split_and!; try tauto; lia.
Qed.

Lemma run_potential b ops :
  wf b -> Forall op_ok ops ->
  let (b', n) := run b ops in
  wf b' /\ rate_bytes_per_second b' = rate_bytes_per_second b /\
  burst_bytes b' = burst_bytes b /\ last_nanos b <= last_nanos b' /\
  n * billion + potential b' <=
    potential b + (last_nanos b' - last_nanos b) * rate_bytes_per_second b.
Proof.
  intros Hwf Hops. revert b Hwf. induction Hops as [|o ops Ho _ IH]; intros b Hwf; simpl.
  - split_and!; auto; lia.
  - pose proof (step_potential b o Hwf Ho) as Hs. destruct (step b o) as [b1 n].
    destruct Hs as (Hwf1 & Hr1 & Hb1 & ? & ?). specialize (IH b1 Hwf1).
    destruct (run b1 ops) as [b2 m]. destruct IH as (Hwf2 & Hr2 & Hb2 & ? & ?).
    rewrite Hr1, Hb1 in *. split_and!; auto; nia.
Qed.

(** C8: the rate guarantee.  Whatever sequence of takes, refunds and queries a
    bucket sees, with clock readings in any order, the net bytes it lets
    through are at most the burst plus the configured rate times the time that
    passed on its clock, measured without rounding. *)
Theorem rate_bound rate burst t0 b ops :
  is_u64 rate -> is_u64 burst -> 0 <= t0 -> new rate burst t0 = Ok b -> Forall op_ok ops ->
  let (b', net) := run b ops in
  net * billion <= burst * billion + rate * (last_nanos b' - t0) /\
  0 <= tokens b' <= burst.
Proof.
  intros Hr Hb Ht Hnew Hops. destruct (new_wf _ _ _ _ Hr Hb Ht Hnew) as [Hwf ->].
  pose proof (run_potential _ _ Hwf Hops) as H.
  destruct (run _ ops) as [b' n]. unfold potential, wf in *; simpl in *.
  destruct H as ((? & ? & ? & ? & ?) & Hr' & Hb' & ? & ?).
  split; [|lia]. unfold billion in *. nia.
Qed.

Lemma rate_bound_witness :
  let (b', net) := run (mk 1000 2000 2000 0 0)
    [Take 2000 0; Take 1000 500000000; Refund 250; Available 600000000] in
  net * billion <= 2000 * billion + 1000 * (last_nanos b' - 0) /\ 0 <= tokens b' <= 2000.
Proof.
  apply (rate_bound 1000 2000 0); unfold is_u64, u64_max; try lia.
  - reflexivity.
  - repeat constructor; simpl; lia.
Defined.

(** Refilling is independent of how often the clock is read: two refills in
    a row leave exactly the bucket that one refill at the later time leaves,
    the sub-byte remainder included, even across the burst cap. *)
Theorem refill_compose b t1 t2 b1 b2 b2' :
  wf b -> refill b t1 = (b1, Ok tt) -> refill b1 t2 = (b2, Ok tt) ->
  refill b t2 = (b2', Ok tt) -> b2 = b2'.
Proof.
  intros Hwf (? & _ & ? & ->)%refill_Ok (? & _ & ? & ->)%refill_Ok (_ & _ & ? & ->)%refill_Ok.
  unfold wf in Hwf. simpl in *.
  set (r := rate_bytes_per_second b) in *. set (f := fractional b) in *.
  set (p1 := (t1 - last_nanos b) * r + f) in *.
  replace ((t2 - last_nanos b) * r + f) with ((t2 - t1) * r + p1) by (unfold p1; lia).
  pose proof (Z.div_mod p1 billion ltac:(unfold billion; lia)) as Hdm.
  assert (0 <= p1) by (unfold p1; nia).
  assert (0 <= (t2 - t1) * r) by nia.
  set (q := p1 / billion) in *. set (m := p1 mod billion) in *.
  replace ((t2 - t1) * r + p1) with ((t2 - t1) * r + m + q * billion) by lia.
  rewrite Z.div_add, Z.mod_add by (unfold billion; lia).
  pose proof (Z.div_pos p1 billion ltac:(lia) ltac:(unfold billion; lia)).
  assert (0 <= m) by (apply Z.mod_pos_bound; unfold billion; lia).
  pose proof (Z.div_pos ((t2 - t1) * r + m) billion ltac:(lia) ltac:(unfold billion; lia)).
  f_equal. unfold saturating_add. lia.
Qed.

Lemma refill_compose_witness :
  mk 1000 2000 500 500000000 0 = mk 1000 2000 500 500000000 0.
Proof.
  apply (refill_compose (mk 1000 2000 0 0 0) 300000001 500000000
           (mk 1000 2000 300 300000001 1000)).
  - unfold wf, billion, u64_max; simpl; lia.
  - reflexivity.
  - reflexivity.
  - reflexivity.
Defined.

(** Waiting as long as [nanos_until] says is enough: at that time the
    bucket holds the requested bytes, provided they fit in the burst and the
    refill does not overflow. *)
Theorem nanos_until_sufficient b bytes now b1 wait b2 n :
  wf b -> bytes <= burst_bytes b ->
  nanos_until b bytes now = (b1, Ok wait) ->
  available b1 (now + wait) = (b2, Ok n) -> bytes <= n.
Proof.
  intros Hwf Hle Hn Ha. pose proof (refill_wf b now Hwf) as Hwf1.
  unfold nanos_until in Hn. destruct (refill b now) as [b' [[]|e]] eqn:E; [|done].
  apply refill_Ok in E as (? & _ & _ & Hb'). cbv zeta in Hb'. simpl in Hwf1.
  assert (Hb1 : b1 = b') by (repeat case_match; by simplify_eq). subst b1.
  assert (Hlast : last_nanos b' = now) by (by subst b').
  assert (Hburst : burst_bytes b' = burst_bytes b) by (by subst b').
  clear Hb'. unfold available in Ha.
  destruct (refill b' (now + wait)) as [b3 [[]|e]] eqn:E2; [|done].
  apply refill_Ok in E2 as (? & _ & _ & ->). injection Ha as <- <-. simpl.
  rewrite Hlast, Hburst in *. replace (now + wait - now) with wait by lia.
  unfold wf in Hwf1. rewrite Hburst in Hwf1. destruct_and!.
  set (r := rate_bytes_per_second b') in *.
  case_if_in Hn.
  - simplify_eq. pose proof (Z.div_pos (0 * r + fractional b') billion ltac:(lia) ltac:(unfold billion; lia)). ints.
  - unfold checked_mul, checked_add in Hn. case_if_in Hn; [|done]. case_if_in Hn; [|done].
    simplify_eq. set (m := bytes - tokens b') in *. set (w := (m * billion + (r - 1)) / r).
    assert (m * billion <= w * r).
    { pose proof (Z.div_mod (m * billion + (r - 1)) r ltac:(lia)).
      pose proof (Z.mod_pos_bound (m * billion + (r - 1)) r ltac:(lia)). unfold w. lia. }
    assert (m <= (w * r + fractional b') / billion)
      by (apply Z.div_le_lower_bound; unfold billion in *; lia).
    ints.
Qed.

Lemma nanos_until_sufficient_witness : 500 <= 500.
Proof.
  apply (nanos_until_sufficient (mk 1000 2000 0 500000000 0) 500 500000000
           (mk 1000 2000 0 500000000 0) 500000000 (mk 1000 2000 500 1000000000 0)).
  - unfold wf, billion, u64_max; simpl; lia.
  - simpl; lia.
  - reflexivity.
  - reflexivity.
Defined.

(** Once a refill overflows, the bucket is stuck.  The overflow leaves the
    bucket and its clock unchanged, so every later refill sees an even longer
    interval and overflows again: no take at any later time grants a byte. *)
Theorem refill_overflow_permanent b t1 requested t2 :
  wf b -> snd (refill b t1) = Err Overflow -> t1 <= t2 ->
  take b requested t2 = (b, Err Overflow).
Proof.
  intros Hwf Ho Hle. unfold wf in Hwf.
  unfold refill in Ho. case_if_in Ho; [done|].
  unfold take, refill. rewrite (proj2 (Z.ltb_ge _ _)) by lia.
  assert (Hn : checked_mul u64_max (t2 - last_nanos b) (rate_bytes_per_second b)
            ≫= (fun v => checked_add u64_max v (fractional b)) = None).
  { unfold checked_mul, checked_add in *.
    destruct ((t2 - last_nanos b) * rate_bytes_per_second b <=? u64_max) eqn:E2; [|done].
    bools. rewrite (proj2 (Z.leb_le ((t1 - last_nanos b) * _) _)) in Ho by nia.
    simpl in *. case_if_in Ho; [done|].
    rewrite (proj2 (Z.leb_gt _ _)) by nia. done. }
  by rewrite Hn.
Qed.

(** One gigabyte per second, nineteen idle seconds. *)
Lemma refill_overflow_permanent_witness :
  take (mk 1000000000 65507 65507 0 0) 1 3600000000000 =
  (mk 1000000000 65507 65507 0 0, Err Overflow).
Proof.
  apply (refill_overflow_permanent _ 19000000000).
  - unfold wf, billion, u64_max; simpl; lia.
  - reflexivity.
  - lia.
Defined.

End TokenBucket.
