(* ===== verification/Admin.v ===== *)
(** The administrative data model of policy-local
    (modules/policy-local/src/admin.rs): identifiers, user records, weekly
    windows, the control requests and the receipt sequencer.

    Rust enums and structs are modules named after them, with the type [t]
    inside, so that [ByteLimit::Limited] reads [ByteLimit.Limited]. *)
From Stdlib Require Import Strings.Byte.
From stdpp Require Import sorting.
From S2P Require Import Prelude Text.
#[local] Open Scope Z_scope.

Module AdminError.
Inductive t := Invalid | ClientLimit | Sequence | State | Random | Encode.
#[global] Instance eq_dec : EqDecision t.
Proof. solve_decision. Defined.
End AdminError.

(** * Interfaces to the serialisation crates *)

(** [postcard]: a codec whose decoder inverts its encoder (the crate's
    documented round trip for serde types). *)
Class Postcard (A : Type) := {
  to_allocvec : A -> option bytes;
  from_bytes : bytes -> option A;
  from_bytes_to_allocvec a b : to_allocvec a = Some b -> from_bytes b = Some a;
}.

(** [toml]: parsing and printing of a serde type. *)
Class Toml (A : Type) := { toml_from_str : str -> option A }.

(** [sha2::Sha256::digest]: 32 bytes. *)
Class Sha256 := {
  sha256 : bytes -> bytes;
  length_sha256 b : length (sha256 b) = 32%nat;
}.

(** * Hexadecimal identifiers *)

Definition HEX : bytes := #"0123456789abcdef".

Definition hex_digit (n : Z) : byte := nth (Z.to_nat n) HEX x00.

Definition encode_hex (b : bytes) : str :=
  concat (map (fun byte => [hex_digit (Z.shiftr (u8 byte) 4);
                            hex_digit (Z.land (u8 byte) 0x0f)]) b).

Definition decode_nibble (byte : byte) : result AdminError.t Z :=
  let b := u8 byte in
  if between 48 57 b then Ok (b - 48)
  else if between 97 102 b then Ok (b - 97 + 10)
  else Err AdminError.Invalid.

(** The loop of [decode_hex] over the two-byte chunks. *)
Fixpoint decode_pairs (l : bytes) : result AdminError.t bytes :=
  match l with
  | [] => Ok []
  | [_] => Err AdminError.Invalid
  | h :: l :: rest =>
      high ← decode_nibble h;
      low ← decode_nibble l;
      match checked_mul u8_max high 16 ≫= (fun high => checked_add u8_max high low) with
      | None => Err AdminError.Invalid
      | Some v => bs ← decode_pairs rest; Ok (to_u8 v :: bs)
      end
  end.

Definition decode_hex (n : nat) (input : str) : result AdminError.t bytes :=
  if negb (len input =? Z.of_nat n * 2) || negb (is_ascii input)
  then Err AdminError.Invalid
  else decode_pairs input.

Module UserId.
Definition t := bytes.
(** The argument is what the system random source answers for 16 bytes. *)
Definition generate (fill : option bytes) : result AdminError.t t :=
  ok_or fill AdminError.Random.
Definition hex (i : t) : str := encode_hex i.
Definition parse (input : str) : result AdminError.t t := decode_hex 16 input.
End UserId.

Module CredentialDigest.
Definition t := bytes.
Definition parse (input : str) : result AdminError.t t := decode_hex 32 input.
Definition hex (d : t) : str := encode_hex d.
End CredentialDigest.

Module Credential.
Definition t := bytes.
Definition generate (fill : option bytes) : result AdminError.t t :=
  ok_or fill AdminError.Random.
Definition digest `{Sha256} (c : t) : bytes := sha256 c.
Definition digest_id `{Sha256} (c : t) : CredentialDigest.t := digest c.
Definition parse_hex (input : str) : result AdminError.t t := decode_hex 32 input.
Definition hex (c : t) : str := encode_hex c.
(** [expose_once]: the secret, and what is left in the consumed object. *)
Definition expose_once (c : t) : bytes * t := (c, replicate 32 x00).
(** [Drop]: the buffer is zeroed. *)
Definition drop (c : t) : t := replicate 32 x00.
End Credential.

(** * User specifications *)

Module UserStatus.
Inductive t := Enabled | Disabled.
#[global] Instance eq_dec : EqDecision t.
Proof. solve_decision. Defined.
End UserStatus.

Module Expiration.
Inductive t := Unlimited | AtUtc (unix_seconds : Z).
#[global] Instance eq_dec : EqDecision t.
Proof. solve_decision. Defined.
End Expiration.

Module ByteLimit.
Inductive t := Unlimited | Limited (bytes : Z).
#[global] Instance eq_dec : EqDecision t.
Proof. solve_decision. Defined.
End ByteLimit.

Module RateLimit.
Inductive t := Unlimited | Limited (bytes_per_second : Z).
#[global] Instance eq_dec : EqDecision t.
Proof. solve_decision. Defined.
End RateLimit.

Module CountLimit.
Inductive t := Unlimited | Limited (count : Z).
#[global] Instance eq_dec : EqDecision t.
Proof. solve_decision. Defined.
End CountLimit.

Module Weekday.
Inductive t := Monday | Tuesday | Wednesday | Thursday | Friday | Saturday | Sunday.
#[global] Instance eq_dec : EqDecision t.
Proof. solve_decision. Defined.

(** [weekday as u8], and the derived order. *)
Definition to_u8 (d : t) : Z :=
  match d with
  | Monday => 0 | Tuesday => 1 | Wednesday => 2 | Thursday => 3
  | Friday => 4 | Saturday => 5 | Sunday => 6
  end.

Definition from_unix_days (days : Z) : t :=
  let n := (days + 3) mod 7 in
  if n =? 0 then Monday else if n =? 1 then Tuesday else if n =? 2 then Wednesday
  else if n =? 3 then Thursday else if n =? 4 then Friday else if n =? 5 then Saturday
  else Sunday.

Definition from_u8 (value : Z) : result AdminError.t t :=
  if value =? 0 then Ok Monday else if value =? 1 then Ok Tuesday
  else if value =? 2 then Ok Wednesday else if value =? 3 then Ok Thursday
  else if value =? 4 then Ok Friday else if value =? 5 then Ok Saturday
  else if value =? 6 then Ok Sunday else Err AdminError.Encode.
End Weekday.

Module WeeklyWindow.
Record t := mk { weekday : Weekday.t; start_second : Z; end_second : Z }.
#[global] Instance eq_dec : EqDecision t.
Proof. solve_decision. Defined.

(** The derived lexicographic order of the tuples [valid] sorts. *)
Definition le (v w : t) : Prop :=
  Weekday.to_u8 (weekday v) < Weekday.to_u8 (weekday w) \/
  Weekday.to_u8 (weekday v) = Weekday.to_u8 (weekday w) /\
  (start_second v < start_second w \/
   start_second v = start_second w /\ end_second v <= end_second w).
#[global] Instance le_dec : RelDecision le.
Proof. intros v w. unfold le. apply _. Defined.
#[global] Instance le_trans : Transitive le.
Proof. intros u v w. unfold le. lia. Qed.
#[global] Instance le_total : Total le.
Proof. intros v w. unfold le. lia. Qed.
End WeeklyWindow.

Module WeeklyAccess.
Inductive t := Unlimited | Windows (entries : list WeeklyWindow.t).
#[global] Instance eq_dec : EqDecision t.
Proof. solve_decision. Defined.

Definition allows (a : t) (unix_seconds : Z) : bool :=
  match a with
  | Unlimited => true
  | Windows entries =>
      let day := Weekday.from_unix_days (unix_seconds / 86400) in
      let second := unix_seconds mod 86400 in
      existsb (fun w =>
        bool_decide (WeeklyWindow.weekday w = day)
        && (WeeklyWindow.start_second w <=? second)
        && (second <? WeeklyWindow.end_second w)) entries
  end.

(** The [enumerate().all(..)] pass over the sorted windows; [previous] is
    [windows[index - 1]]. *)
Fixpoint check_sorted (previous : option WeeklyWindow.t) (windows : list WeeklyWindow.t)
  : bool :=
  match windows with
  | [] => true
  | w :: windows =>
      (WeeklyWindow.start_second w <? WeeklyWindow.end_second w)
      && (WeeklyWindow.end_second w <=? 86400)
      && is_none_or previous (fun p =>
           negb (bool_decide (WeeklyWindow.weekday p = WeeklyWindow.weekday w))
           || (WeeklyWindow.end_second p <=? WeeklyWindow.start_second w))
      && check_sorted (Some w) windows
  end.

Definition valid (a : t) : bool :=
  match a with
  | Unlimited => true
  | Windows entries =>
      if bool_decide (entries = []) || (168 <? len entries) then false
      else check_sorted None (merge_sort WeeklyWindow.le entries)
  end.
End WeeklyAccess.

Module UserSpec.
Record t := mk {
  status : UserStatus.t;
  expiration : Expiration.t;
  quota : ByteLimit.t;
  upload_rate : RateLimit.t;
  download_rate : RateLimit.t;
  combined_rate : RateLimit.t;
  burst_bytes : Z;
  max_sessions : CountLimit.t;
  max_flows : CountLimit.t;
  weekly_access : WeeklyAccess.t;
  weight : Z;
  group : str;
  rule_profile : str;
}.
#[global] Instance eq_dec : EqDecision t.
Proof. solve_decision. Defined.

Definition validate (s : t) : result AdminError.t unit :=
  if (weight s =? 0)
     || (burst_bytes s <? 65507)
     || bool_decide (group s = [])
     || (64 <? len (group s))
     || bool_decide (rule_profile s = [])
     || (64 <? len (rule_profile s))
     || bool_decide (quota s = ByteLimit.Limited 0)
     || bool_decide (upload_rate s = RateLimit.Limited 0)
     || bool_decide (download_rate s = RateLimit.Limited 0)
     || bool_decide (combined_rate s = RateLimit.Limited 0)
     || bool_decide (max_sessions s = CountLimit.Limited 0)
     || bool_decide (max_flows s = CountLimit.Limited 0)
     || negb (WeeklyAccess.valid (weekly_access s))
  then Err AdminError.Invalid
  else Ok tt.
End UserSpec.

Module UserRecord.
Record t := mk {
  id : str;
  spec : UserSpec.t;
  revision : Z;
  durable_charged_bytes : Z;
  upload_bytes : Z;
  download_bytes : Z;
  max_observed_utc : Z;
}.
#[global] Instance eq_dec : EqDecision t.
Proof. solve_decision. Defined.
End UserRecord.

Module CredentialRecord.
Record t := mk { digest : str; user_id : str; revoked : bool; revision : Z }.
#[global] Instance eq_dec : EqDecision t.
Proof. solve_decision. Defined.
End CredentialRecord.

(** * Stored records *)

Module StoredExpiration.
Inductive t := Unlimited | AtUtc (unix_seconds : Z).
End StoredExpiration.

Module StoredByteLimit.
Inductive t := Unlimited | Limited (bytes : Z).
End StoredByteLimit.

Module StoredRateLimit.
Inductive t := Unlimited | Limited (bytes_per_second : Z).
End StoredRateLimit.

Module StoredCountLimit.
Inductive t := Unlimited | Limited (count : Z).
End StoredCountLimit.

Module StoredWeeklyWindow.
Record t := mk { weekday : Z; start_second : Z; end_second : Z }.
End StoredWeeklyWindow.

Module StoredWeeklyAccess.
Inductive t := Unlimited | Windows (entries : list StoredWeeklyWindow.t).
End StoredWeeklyAccess.

Module StoredUserRecord.
Record t := mk {
  id : str;
  status : UserStatus.t;
  expiration : StoredExpiration.t;
  quota : StoredByteLimit.t;
  upload_rate : StoredRateLimit.t;
  download_rate : StoredRateLimit.t;
  combined_rate : StoredRateLimit.t;
  burst_bytes : Z;
  max_sessions : StoredCountLimit.t;
  max_flows : StoredCountLimit.t;
  weekly_access : StoredWeeklyAccess.t;
  weight : Z;
  group : str;
  rule_profile : str;
  revision : Z;
  durable_charged_bytes : Z;
  upload_bytes : Z;
  download_bytes : Z;
  max_observed_utc : Z;
}.
End StoredUserRecord.

Definition stored_rate (rate : RateLimit.t) : StoredRateLimit.t :=
  match rate with
  | RateLimit.Unlimited => StoredRateLimit.Unlimited
  | RateLimit.Limited n => StoredRateLimit.Limited n
  end.

Definition runtime_rate (rate : StoredRateLimit.t) : RateLimit.t :=
  match rate with
  | StoredRateLimit.Unlimited => RateLimit.Unlimited
  | StoredRateLimit.Limited n => RateLimit.Limited n
  end.

Definition stored_count (limit : CountLimit.t) : StoredCountLimit.t :=
  match limit with
  | CountLimit.Unlimited => StoredCountLimit.Unlimited
  | CountLimit.Limited n => StoredCountLimit.Limited n
  end.

Definition runtime_count (limit : StoredCountLimit.t) : CountLimit.t :=
  match limit with
  | StoredCountLimit.Unlimited => CountLimit.Unlimited
  | StoredCountLimit.Limited n => CountLimit.Limited n
  end.

Definition stored_weekly (access : WeeklyAccess.t) : StoredWeeklyAccess.t :=
  match access with
  | WeeklyAccess.Unlimited => StoredWeeklyAccess.Unlimited
  | WeeklyAccess.Windows entries =>
      StoredWeeklyAccess.Windows
        (map (fun w => StoredWeeklyWindow.mk (Weekday.to_u8 (WeeklyWindow.weekday w))
                (WeeklyWindow.start_second w) (WeeklyWindow.end_second w)) entries)
  end.

(** [collect::<Result<Vec<_>, _>>()] over the stored windows. *)
Fixpoint runtime_windows (entries : list StoredWeeklyWindow.t)
  : result AdminError.t (list WeeklyWindow.t) :=
  match entries with
  | [] => Ok []
  | w :: entries =>
      day ← Weekday.from_u8 (StoredWeeklyWindow.weekday w);
      ws ← runtime_windows entries;
      Ok (WeeklyWindow.mk day (StoredWeeklyWindow.start_second w)
            (StoredWeeklyWindow.end_second w) :: ws)
  end.

Definition runtime_weekly (access : StoredWeeklyAccess.t)
  : result AdminError.t WeeklyAccess.t :=
  match access with
  | StoredWeeklyAccess.Unlimited => Ok WeeklyAccess.Unlimited
  | StoredWeeklyAccess.Windows entries =>
      entries ← runtime_windows entries;
      let access := WeeklyAccess.Windows entries in
      if WeeklyAccess.valid access then Ok access else Err AdminError.Encode
  end.

Definition to_stored (user : UserRecord.t) : StoredUserRecord.t :=
  let s := UserRecord.spec user in
  StoredUserRecord.mk (UserRecord.id user) (UserSpec.status s)
    (match UserSpec.expiration s with
     | Expiration.Unlimited => StoredExpiration.Unlimited
     | Expiration.AtUtc n => StoredExpiration.AtUtc n
     end)
    (match UserSpec.quota s with
     | ByteLimit.Unlimited => StoredByteLimit.Unlimited
     | ByteLimit.Limited n => StoredByteLimit.Limited n
     end)
    (stored_rate (UserSpec.upload_rate s)) (stored_rate (UserSpec.download_rate s))
    (stored_rate (UserSpec.combined_rate s)) (UserSpec.burst_bytes s)
    (stored_count (UserSpec.max_sessions s)) (stored_count (UserSpec.max_flows s))
    (stored_weekly (UserSpec.weekly_access s)) (UserSpec.weight s) (UserSpec.group s)
    (UserSpec.rule_profile s) (UserRecord.revision user)
    (UserRecord.durable_charged_bytes user) (UserRecord.upload_bytes user)
    (UserRecord.download_bytes user) (UserRecord.max_observed_utc user).

Definition of_stored (stored : StoredUserRecord.t) : result AdminError.t UserRecord.t :=
  weekly ← runtime_weekly (StoredUserRecord.weekly_access stored);
  Ok (UserRecord.mk (StoredUserRecord.id stored)
    (UserSpec.mk (StoredUserRecord.status stored)
      (match StoredUserRecord.expiration stored with
       | StoredExpiration.Unlimited => Expiration.Unlimited
       | StoredExpiration.AtUtc n => Expiration.AtUtc n
       end)
      (match StoredUserRecord.quota stored with
       | StoredByteLimit.Unlimited => ByteLimit.Unlimited
       | StoredByteLimit.Limited n => ByteLimit.Limited n
       end)
      (runtime_rate (StoredUserRecord.upload_rate stored))
      (runtime_rate (StoredUserRecord.download_rate stored))
      (runtime_rate (StoredUserRecord.combined_rate stored))
      (StoredUserRecord.burst_bytes stored)
      (runtime_count (StoredUserRecord.max_sessions stored))
      (runtime_count (StoredUserRecord.max_flows stored))
      weekly (StoredUserRecord.weight stored) (StoredUserRecord.group stored)
      (StoredUserRecord.rule_profile stored))
    (StoredUserRecord.revision stored) (StoredUserRecord.durable_charged_bytes stored)
    (StoredUserRecord.upload_bytes stored) (StoredUserRecord.download_bytes stored)
    (StoredUserRecord.max_observed_utc stored)).

Definition encode_user_record `{Postcard StoredUserRecord.t} (user : UserRecord.t)
  : result AdminError.t bytes :=
  ok_or (to_allocvec (to_stored user)) AdminError.Encode.

Definition decode_user_record `{Postcard StoredUserRecord.t} (input : bytes)
  : result AdminError.t UserRecord.t :=
  stored ← ok_or (from_bytes input) AdminError.Encode; of_stored stored.

(** * Control requests *)

Definition validate_client_id (client_id : str) : result AdminError.t unit :=
  if bool_decide (client_id = []) || (64 <? len client_id)
     || negb (forallb (fun b => is_ascii_alphanumeric b || bool_decide (b = "-"%byte)
                               || bool_decide (b = "_"%byte)) client_id)
  then Err AdminError.Invalid
  else Ok tt.

(** [Path::is_absolute] on Unix. *)
Definition path_is_absolute (path : str) : bool := starts_with path #"/".

Module RuleApply.
Inductive t := New | Active.
#[global] Instance eq_dec : EqDecision t.
Proof. solve_decision. Defined.
End RuleApply.

Module ControlRequest.
Inductive t :=
| UserCreate (client_id : str) (seq : Z) (user : UserSpec.t)
| UserUpdate (client_id : str) (seq : Z) (user_id : str) (expected_revision : Z)
    (user : UserSpec.t)
| UserDisable (client_id : str) (seq : Z) (user_id : str) (expected_revision : Z)
| UserDelete (client_id : str) (seq : Z) (user_id : str) (expected_revision : Z)
| CredentialAdd (client_id : str) (seq : Z) (user_id : str) (credential_sha256 : str)
| CredentialRevoke (client_id : str) (seq : Z) (credential_sha256 : str)
| QuotaAdd (client_id : str) (seq : Z) (user_id : str) (bytes : Z)
| QuotaNewPeriod (client_id : str) (seq : Z) (user_id : str) (quota : ByteLimit.t)
| UsageGet (user_id : str)
| SessionsList (user_id : option str)
| SessionsDisconnect (client_id : str) (seq : Z) (session_id : Z)
| RulesReplace (client_id : str) (seq : Z) (profile : str) (apply : RuleApply.t)
    (rules_toml : str)
| MaintenanceBackup (destination : str).

Definition sequence (r : t) : option (str * Z) :=
  match r with
  | UserCreate client_id seq _
  | UserUpdate client_id seq _ _ _
  | UserDisable client_id seq _ _
  | UserDelete client_id seq _ _
  | CredentialAdd client_id seq _ _
  | CredentialRevoke client_id seq _
  | QuotaAdd client_id seq _ _
  | QuotaNewPeriod client_id seq _ _
  | SessionsDisconnect client_id seq _
  | RulesReplace client_id seq _ _ _ => Some (client_id, seq)
  | UsageGet _ | SessionsList _ | MaintenanceBackup _ => None
  end.

Definition validate (r : t) : result AdminError.t unit :=
  _ ← match sequence r with
      | None => Ok tt
      | Some (client_id, seq) =>
          _ ← validate_client_id client_id;
          if seq =? 0 then Err AdminError.Sequence else Ok tt
      end;
  match r with
  | UserCreate _ _ user => UserSpec.validate user
  | UserUpdate _ _ user_id _ user =>
      _ ← UserSpec.validate user; _ ← UserId.parse user_id; Ok tt
  | UserDisable _ _ user_id _
  | UserDelete _ _ user_id _
  | QuotaNewPeriod _ _ user_id _
  | UsageGet user_id
  | SessionsList (Some user_id) => _ ← UserId.parse user_id; Ok tt
  | CredentialAdd _ _ user_id credential_sha256 =>
      _ ← UserId.parse user_id; _ ← CredentialDigest.parse credential_sha256; Ok tt
  | CredentialRevoke _ _ credential_sha256 =>
      _ ← CredentialDigest.parse credential_sha256; Ok tt
  | QuotaAdd _ _ user_id bytes =>
      _ ← UserId.parse user_id;
      if bytes =? 0 then Err AdminError.Invalid else Ok tt
  | RulesReplace _ _ profile _ rules_toml =>
      if bool_decide (profile = []) || (64 <? len profile)
         || bool_decide (rules_toml = []) || (65536 <? len rules_toml)
      then Err AdminError.Invalid else Ok tt
  | SessionsDisconnect _ _ session_id =>
      if session_id =? 0 then Err AdminError.Invalid else Ok tt
  | MaintenanceBackup destination =>
      if (4096 <? len destination) || negb (path_is_absolute destination)
      then Err AdminError.Invalid else Ok tt
  | SessionsList None => Ok tt
  end.

Definition parse `{Toml t} (input : bytes) : result AdminError.t t :=
  input ← ok_or (from_utf8 input) AdminError.Invalid;
  request ← ok_or (toml_from_str input) AdminError.Invalid;
  _ ← validate request;
  Ok request.
End ControlRequest.

(** * The receipt sequencer *)

Module Receipt.
Record t := mk { seq : Z; request_hash : bytes; response : bytes }.
#[global] Instance eq_dec : EqDecision t.
Proof. solve_decision. Defined.
End Receipt.

Module AdminDecision.
Inductive t := Execute (request_hash : bytes) | Replay (response : bytes).
#[global] Instance eq_dec : EqDecision t.
Proof. solve_decision. Defined.
End AdminDecision.

Module AdminSequencer.
Record t := mk { max_clients : Z; clients : gmap str Receipt.t }.

Definition new (max_clients : Z) : result AdminError.t t :=
  if max_clients =? 0 then Err AdminError.Invalid else Ok (mk max_clients ∅).

Definition client_count (s : t) : Z := Z.of_nat (size (clients s)).

(** [receipt.seq + 1] in a release build. *)
Definition next_seq (r : Receipt.t) : Z := wrapping_add u64_max (Receipt.seq r) 1.

Section with_crates.
Context `{HS : Sha256, HP : Postcard Receipt.t}.

Definition check (s : t) (client_id : str) (seq : Z) (request : bytes)
  : result AdminError.t AdminDecision.t :=
  _ ← validate_client_id client_id;
  let request_hash := sha256 request in
  match clients s !! client_id with
  | None =>
      if max_clients s <=? client_count s then Err AdminError.ClientLimit
      else if seq =? 1 then Ok (AdminDecision.Execute request_hash)
      else Err AdminError.Sequence
  | Some receipt =>
      if (seq =? Receipt.seq receipt) && bool_decide (request_hash = Receipt.request_hash receipt)
      then Ok (AdminDecision.Replay (Receipt.response receipt))
      else if seq =? next_seq receipt then Ok (AdminDecision.Execute request_hash)
      else Err AdminError.Sequence
  end.

Definition prepare_commit (s : t) (client_id : str) (seq : Z) (request_hash response : bytes)
  : result AdminError.t bytes :=
  _ ← validate_client_id client_id;
  _ ← match clients s !! client_id with
      | None =>
          if max_clients s <=? client_count s then Err AdminError.ClientLimit
          else if seq =? 1 then Ok tt else Err AdminError.State
      | Some receipt => if seq =? next_seq receipt then Ok tt else Err AdminError.State
      end;
  ok_or (to_allocvec (Receipt.mk seq request_hash response)) AdminError.Encode.

Definition apply_commit (s : t) (client_id : str) (encoded : bytes)
  : t * result AdminError.t unit :=
  match ok_or (from_bytes encoded) AdminError.Encode with
  | Err e => (s, Err e)
  | Ok receipt =>
      match prepare_commit s client_id (Receipt.seq receipt) (Receipt.request_hash receipt)
              (Receipt.response receipt) with
      | Err e => (s, Err e)
      | Ok _ => (mk (max_clients s) (<[client_id := receipt]> (clients s)), Ok tt)
      end
  end.

Definition commit (s : t) (client_id : str) (seq : Z) (request_hash response : bytes)
  : t * result AdminError.t bytes :=
  match prepare_commit s client_id seq request_hash response with
  | Err e => (s, Err e)
  | Ok encoded =>
      match apply_commit s client_id encoded with
      | (s, Err e) => (s, Err e)
      | (s, Ok _) => (s, Ok encoded)
      end
  end.

Definition restore (s : t) (client_id : str) (encoded : bytes)
  : t * result AdminError.t unit :=
  match validate_client_id client_id with
  | Err e => (s, Err e)
  | Ok _ =>
      if is_none (clients s !! client_id) && (max_clients s <=? client_count s)
      then (s, Err AdminError.ClientLimit)
      else match ok_or (from_bytes encoded) AdminError.Encode with
      | Err e => (s, Err e)
      | Ok receipt => (mk (max_clients s) (<[client_id := receipt]> (clients s)), Ok tt)
      end
  end.
End with_crates.
End AdminSequencer.

(** * Properties of the identifiers *)

Lemma decode_encode_byte b :
  decode_nibble (hex_digit (Z.shiftr (u8 b) 4)) = Ok (Z.shiftr (u8 b) 4) /\
  decode_nibble (hex_digit (Z.land (u8 b) 15)) = Ok (Z.land (u8 b) 15) /\
  to_u8 (Z.shiftr (u8 b) 4 * 16 + Z.land (u8 b) 15) = b /\
  Z.shiftr (u8 b) 4 * 16 + Z.land (u8 b) 15 <= 255 /\
  is_ascii [hex_digit (Z.shiftr (u8 b) 4); hex_digit (Z.land (u8 b) 15)] = true.
Proof.
  revert b. apply (byte_all (fun b => _ /\ _)). vm_compute. reflexivity.
Qed.

(** A nibble is decoded only from its canonical digit. *)
Lemma decode_nibble_canonical c v :
  decode_nibble c = Ok v -> hex_digit v = c /\ 0 <= v < 16.
Proof.
  intros E.
  assert (H : forall c, match decode_nibble c with
                        | Ok v => hex_digit v = c /\ 0 <= v < 16
                        | Err _ => True
                        end).
  { unshelve eapply (byte_all (fun c => match decode_nibble c with Ok _ => _ | Err _ => True end)).
    - intros b. cbv beta. destruct (decode_nibble b); apply _.
    - vm_compute. reflexivity. }
  specialize (H c). by rewrite E in H.
Qed.

Lemma byte_of_nibbles v1 v2 :
  0 <= v1 < 16 -> 0 <= v2 < 16 ->
  Z.shiftr (u8 (to_u8 (v1 * 16 + v2))) 4 = v1 /\ Z.land (u8 (to_u8 (v1 * 16 + v2))) 15 = v2.
Proof.
  intros. rewrite u8_to_u8, Z.mod_small by lia.
  change 15 with (Z.ones 4). rewrite Z.shiftr_div_pow2, Z.land_ones by lia.
  change (2 ^ 4) with 16. rewrite Z.div_add_l by lia.
  rewrite (Z.add_comm (v1 * 16)), Z.mod_add by lia.
  rewrite Z.div_small, Z.mod_small by lia. lia.
Qed.

Lemma encode_hex_cons b bs :
  encode_hex (b :: bs) =
  hex_digit (Z.shiftr (u8 b) 4) :: hex_digit (Z.land (u8 b) 15) :: encode_hex bs.
Proof. done. Qed.

Lemma len_encode_hex b : len (encode_hex b) = len b * 2.
Proof.
  induction b as [|b bs IH]; [done|]. rewrite encode_hex_cons, !len_cons, IH. lia.
Qed.

Lemma is_ascii_encode_hex b : is_ascii (encode_hex b) = true.
Proof.
  induction b as [|b bs IH]; [done|]. rewrite encode_hex_cons.
  destruct (decode_encode_byte b) as (_ & _ & _ & _ & Ha).
  unfold is_ascii in *. simpl in *. by rewrite IH.
Qed.

Lemma decode_pairs_encode b : decode_pairs (encode_hex b) = Ok b.
Proof.
  induction b as [|b bs IH]; [done|]. rewrite encode_hex_cons.
  destruct (decode_encode_byte b) as (Hh & Hl & Hb & Hle & _).
  simpl. rewrite Hh. simpl. rewrite Hl. simpl. unfold checked_mul, checked_add.
  assert (0 <= Z.land (u8 b) 15) by (apply Z.land_nonneg; lia).
  rewrite (proj2 (Z.leb_le _ _)) by ints. simpl.
  rewrite (proj2 (Z.leb_le _ _)) by ints. rewrite Hb, IH. done.
Qed.


(** Induction two elements at a time. *)
Lemma pairs_ind (P : bytes -> Prop) :
  P [] -> (forall x, P [x]) -> (forall x y l, P l -> P (x :: y :: l)) -> forall l, P l.
Proof.
  intros H0 H1 H2 l. enough (P l /\ forall x, P (x :: l)) by tauto.
  induction l as [|y l [IH IH']]; split; auto.
Qed.

Lemma decode_pairs_canonical l : forall b, decode_pairs l = Ok b -> encode_hex b = l.
Proof.
  induction l as [|x|x y l IH] using pairs_ind; intros b; simpl; [by intros [= <-]|done|].
  destruct (decode_nibble x) as [hi|] eqn:E1; simpl; [|done].
  destruct (decode_nibble y) as [lo|] eqn:E2; simpl; [|done].
  destruct (decode_nibble_canonical _ _ E1) as [Hx ?].
  destruct (decode_nibble_canonical _ _ E2) as [Hy ?].
  unfold checked_mul, checked_add. case_if; simpl; [|done]. case_if; [|done].
  destruct (decode_pairs l) as [bs|] eqn:E3; simpl; [|done]. intros [= <-].
  rewrite encode_hex_cons. destruct (byte_of_nibbles hi lo) as [-> ->]; [done..|].
  by rewrite Hx, Hy, (IH bs).
Qed.

(** Hexadecimal identifiers are canonical.  A string parses to an
    identifier exactly when it is the lowercase rendering of it, so comparing
    identifiers as strings, as the state maps and storage keys do, compares the
    identifiers themselves. *)
Theorem hex_canonical n b s :
  length b = n -> (decode_hex n s = Ok b <-> encode_hex b = s).
Proof.
  intros Hn. unfold decode_hex. split.
  - case_if; [done|]. apply decode_pairs_canonical.
  - intros <-. rewrite len_encode_hex, is_ascii_encode_hex.
    rewrite (proj2 (Z.eqb_eq _ _)) by (unfold len; lia). simpl. apply decode_pairs_encode.
Qed.

Lemma hex_canonical_witness :
  decode_hex 2 #"00ff" = Ok [x00; xff] <-> encode_hex [x00; xff] = #"00ff".
Proof. apply hex_canonical. reflexivity. Defined.

(** * Properties of the weekly windows *)
Module WeeklyFacts.
Import WeeklyWindow WeeklyAccess.

(** Two windows of the same day do not overlap. *)
Definition disjoint (v w : WeeklyWindow.t) : Prop :=
  weekday v = weekday w -> end_second v <= start_second w \/ end_second w <= start_second v.

Definition well_formed (w : WeeklyWindow.t) : Prop :=
  start_second w < end_second w <= 86400.

Lemma disjoint_sym v w : disjoint v w -> disjoint w v.
Proof. unfold disjoint. intros H E. destruct (H (eq_sym E)); auto. Qed.

Lemma to_u8_inj d e : Weekday.to_u8 d = Weekday.to_u8 e -> d = e.
Proof. by destruct d, e. Qed.

Lemma ForallOrdPairs_perm {A} (R : A -> A -> Prop) l k :
  (forall x y, R x y -> R y x) -> l ≡ₚ k -> ForallOrdPairs R l -> ForallOrdPairs R k.
Proof.
  intros Hsym. induction 1 as [|x l k Hp IH|x y l|l1 l2 l3 Hp1 IH1 Hp2 IH2]; intros H; auto.
  - inversion H; subst. constructor; [by rewrite <- Hp|auto].
  - inversion H as [|? ? Hy Hl]; subst. inversion Hl as [|? ? Hx Hr]; subst.
    inversion Hy; subst. repeat constructor; auto.
Qed.

#[export] Instance disjoint_pairs_proper :
  Proper ((≡ₚ) ==> iff) (ForallOrdPairs disjoint).
Proof.
  intros l k Hp. split; eapply ForallOrdPairs_perm; eauto using disjoint_sym. by symmetry.
Qed.

(** On a sorted list, comparing each window with its predecessor compares
    all pairs. *)
Lemma check_sorted_pairs p l :
  StronglySorted le (option_list p ++ l) ->
  Forall well_formed (option_list p) ->
  check_sorted p l = true <->
  Forall well_formed l /\ ForallOrdPairs disjoint (option_list p ++ l).
Proof.
  revert p. induction l as [|w l IH]; intros p Hs Hp; simpl.
  - split; [intros _|done]. split; [done|]. destruct p; repeat constructor.
  - rewrite !andb_true_iff, Z.ltb_lt, Z.leb_le.
    assert (Hs' : StronglySorted le (w :: l)) by (destruct p; simpl in Hs; [by inversion Hs|done]).
    split.
    + intros (((Hlt & Hle) & Hprev) & Hc).
      assert (Hw : well_formed w) by (split; lia).
      apply (IH (Some w)) in Hc as [Hwf Hd]; [|done|by apply Forall_singleton].
      split; [by constructor|]. destruct p as [p|]; simpl in *; [|done].
      constructor; [|done]. inversion Hs as [|? ? Hss Hpl]; subst.
      inversion Hs' as [|? ? _ Hwl]; subst.
      assert (Hpw : weekday p = weekday w -> end_second p <= start_second w).
      { intros E. rewrite bool_decide_eq_true_2 in Hprev by done. simpl in Hprev. by bools. }
      inversion Hpl as [|? ? Hpw' Hpl']; subst.
      constructor; [intros E; left; auto|].
      apply Forall_forall. intros v Hv E. left. rewrite Forall_forall in Hwl, Hpl'.
      specialize (Hwl v Hv). specialize (Hpl' v Hv). unfold le in *.
      assert (weekday p = weekday w) by (apply to_u8_inj; rewrite E in *; lia).
      specialize (Hpw H). rewrite <- E, H in Hwl. lia.
    + intros [Hwf Hd]. inversion Hwf as [|? ? Hw Hwf']; subst. unfold well_formed in Hw.
      split; [split; [lia|]|].
      * destruct p as [p|]; simpl in *; [|done]. case_bool_decide as E; simpl; [|done].
        inversion Hd as [|? ? Hpl _]; subst. inversion Hpl as [|? ? Hpw _]; subst.
        inversion Hs as [|? ? _ Hpl']; subst. inversion Hpl' as [|? ? Hle _]; subst.
        unfold le in Hle. rewrite E in Hle. apply Z.leb_le. destruct (Hpw E); lia.
      * apply (IH (Some w)); [done|by apply Forall_singleton|]. split; [done|].
        destruct p; simpl in *; [by inversion Hd|done].
Qed.

(** The sort-and-compare-neighbours check of weekly windows is the check one
    wants: it accepts a schedule exactly when it has between 1 and 168 windows,
    each is a non-empty interval of a day, and no two windows overlap. *)
Theorem weekly_valid_iff entries :
  valid (Windows entries) = true <->
  1 <= len entries <= 168 /\ Forall well_formed entries /\
  (forall i j v w, i <> j -> entries !! i = Some v -> entries !! j = Some w -> disjoint v w).
Proof.
  simpl. assert (Hp : merge_sort le entries ≡ₚ entries) by apply merge_sort_Permutation.
  pose proof (StronglySorted_merge_sort le entries) as Hs.
  assert (Hpairs : ForallOrdPairs disjoint entries <->
    (forall i j v w, i <> j -> entries !! i = Some v -> entries !! j = Some w -> disjoint v w)).
  { clear. split.
    - induction 1 as [|x l Hx Hl IH]; intros i j v w Hij Hi Hj; [done|].
      rewrite Forall_forall in Hx.
      destruct i as [|i], j as [|j]; simpl in *; simplify_eq.
      + apply Hx. by eapply list_elem_of_lookup_2.
      + apply disjoint_sym, Hx. by eapply list_elem_of_lookup_2.
      + eapply (IH i j); eauto.
    - induction entries as [|x l IH]; intros H; constructor.
      + apply Forall_forall. intros y [j Hj]%list_elem_of_lookup.
        apply (H 0%nat (S j) x y); done.
      + apply IH. intros i j v w ???. apply (H (S i) (S j)); auto. }
  rewrite <- Hpairs. case_if.
  - split; [done|]. intros (Hl & _). apply orb_true_iff in Heqb as [?|?]; bools; [|lia].
    subst. unfold len in Hl; simpl in Hl; lia.
  - bools. rewrite (check_sorted_pairs None) by (done || constructor). simpl.
    rewrite Hp.
    assert (1 <= len entries)
      by (destruct entries; [done|rewrite len_cons; pose proof (len_nonneg entries); lia]).
    intuition lia.
Qed.

(** Seconds since the last Monday 00:00 UTC; 1 January 1970 was a Thursday. *)
Definition week_second (t : Z) : Z := (t + 3 * 86400) mod 604800.

Lemma week_second_split t :
  week_second t = Weekday.to_u8 (Weekday.from_unix_days (t / 86400)) * 86400 + t mod 86400.
Proof.
  unfold week_second.
  assert (Hd : Weekday.to_u8 (Weekday.from_unix_days (t / 86400)) = (t / 86400 + 3) mod 7).
  { unfold Weekday.from_unix_days. pose proof (Z.mod_pos_bound (t / 86400 + 3) 7 ltac:(lia)).
    repeat case_if; simpl; lia. }
  rewrite Hd. change 604800 with (86400 * 7). rewrite Z.rem_mul_r by lia.
  rewrite Z.div_add, Z.mod_add by lia. lia.
Qed.

(** The schedule is evaluated in UTC against the right day: access is
    allowed exactly when the second of the week falls into one of the windows,
    laid out on a 604800-second week that starts on Monday. *)
Theorem weekly_allows_iff entries t :
  Forall (fun w => 0 <= start_second w) entries -> Forall well_formed entries ->
  allows (Windows entries) t = true <->
  exists w, w ∈ entries /\
    let base := Weekday.to_u8 (weekday w) * 86400 in
    base + start_second w <= week_second t < base + end_second w.
Proof.
  intros H0 Hwf. rewrite week_second_split. simpl. rewrite existsb_exists.
  pose proof (Z.mod_pos_bound t 86400 ltac:(lia)). rewrite Forall_forall in H0, Hwf.
  split; intros (w & Hin & Hw); exists w.
  - rewrite <- list_elem_of_In in Hin. bools. subst. split; [done|]. rewrite <- H1. lia.
  - rewrite <- list_elem_of_In. split; [done|]. specialize (H0 w Hin). specialize (Hwf w Hin).
    unfold well_formed in Hwf.
    assert (Hday : weekday w = Weekday.from_unix_days (t / 86400)) by (apply to_u8_inj; lia).
    rewrite bool_decide_eq_true_2 by done. rewrite <- Hday in Hw.
    rewrite (proj2 (Z.leb_le _ _)), (proj2 (Z.ltb_lt _ _)) by lia. done.
Qed.

(** Thursday from midnight to two, one hour into the epoch. *)
Lemma weekly_allows_iff_witness :
  allows (Windows [WeeklyWindow.mk Weekday.Thursday 0 7200]) 3600 = true <->
  exists w, w ∈ [WeeklyWindow.mk Weekday.Thursday 0 7200] /\
    let base := Weekday.to_u8 (weekday w) * 86400 in
    base + start_second w <= week_second 3600 < base + end_second w.
Proof.
  apply weekly_allows_iff; repeat constructor; simpl; lia.
Defined.

End WeeklyFacts.

(** * Properties of the stored records *)
Module RecordFacts.

Lemma runtime_windows_stored entries :
  runtime_windows
    (map (fun w => StoredWeeklyWindow.mk (Weekday.to_u8 (WeeklyWindow.weekday w))
            (WeeklyWindow.start_second w) (WeeklyWindow.end_second w)) entries) = Ok entries.
Proof.
  induction entries as [|[d a b] entries IH]; simpl; [done|].
  rewrite IH. by destruct d.
Qed.

Lemma runtime_weekly_stored a :
  runtime_weekly (stored_weekly a) =
  if WeeklyAccess.valid a then Ok a else Err AdminError.Encode.
Proof.
  destruct a as [|entries]; [done|].
  cbn [stored_weekly runtime_weekly]. by rewrite runtime_windows_stored.
Qed.

Lemma of_stored_to_stored user :
  WeeklyAccess.valid (UserSpec.weekly_access (UserRecord.spec user)) = true ->
  of_stored (to_stored user) = Ok user.
Proof.
  intros Hw. unfold of_stored, to_stored. cbn [StoredUserRecord.weekly_access].
  rewrite runtime_weekly_stored, Hw. destruct user as [id spec]. destruct spec as
    [st ex qu ur dr cr bu ms mf we wt gr rp]. simpl. by destruct ex, qu, ur, dr, cr, ms, mf.
Qed.

(** A codec for every countable type, to instantiate [Postcard]. *)
Fixpoint pos_bits (p : positive) : bytes :=
  match p with xH => [] | xO p => x00 :: pos_bits p | xI p => x01 :: pos_bits p end.
Fixpoint bits_pos (l : bytes) : positive :=
  match l with [] => xH | b :: l => if bool_decide (b = x00) then xO (bits_pos l) else xI (bits_pos l) end.
Lemma bits_pos_bits p : bits_pos (pos_bits p) = p.
Proof. induction p; simpl; congruence. Qed.
Definition countable_postcard `{Countable A} : Postcard A.
Proof.
  refine {| to_allocvec a := Some (pos_bits (encode a)); from_bytes b := decode (bits_pos b) |}.
  intros a b [= <-]. by rewrite bits_pos_bits, decode_encode.
Defined.

(** Stored records as nested tuples, to make them countable. *)
Definition tuple_of (r : StoredUserRecord.t) :=
  (StoredUserRecord.id r,
   match StoredUserRecord.status r with UserStatus.Enabled => true | _ => false end,
   match StoredUserRecord.expiration r with StoredExpiration.AtUtc n => Some n | _ => None end,
   match StoredUserRecord.quota r with StoredByteLimit.Limited n => Some n | _ => None end,
   (match StoredUserRecord.upload_rate r with StoredRateLimit.Limited n => Some n | _ => None end,
    match StoredUserRecord.download_rate r with StoredRateLimit.Limited n => Some n | _ => None end,
    match StoredUserRecord.combined_rate r with StoredRateLimit.Limited n => Some n | _ => None end,
    StoredUserRecord.burst_bytes r,
    match StoredUserRecord.max_sessions r with StoredCountLimit.Limited n => Some n | _ => None end,
    match StoredUserRecord.max_flows r with StoredCountLimit.Limited n => Some n | _ => None end),
   match StoredUserRecord.weekly_access r with
   | StoredWeeklyAccess.Windows l => Some (map (fun w => (StoredWeeklyWindow.weekday w,
        StoredWeeklyWindow.start_second w, StoredWeeklyWindow.end_second w)) l)
   | _ => None
   end,
   (StoredUserRecord.weight r, StoredUserRecord.group r, StoredUserRecord.rule_profile r,
    StoredUserRecord.revision r, StoredUserRecord.durable_charged_bytes r,
    StoredUserRecord.upload_bytes r, StoredUserRecord.download_bytes r,
    StoredUserRecord.max_observed_utc r)).

Definition of_tuple (x : str * bool * option Z * option Z *
    (option Z * option Z * option Z * Z * option Z * option Z) * option (list (Z * Z * Z)) *
    (Z * str * str * Z * Z * Z * Z * Z)) : StoredUserRecord.t :=
  let '(id, st, ex, qu, (ur, dr, cr, bu, ms, mf), we, (wt, gr, rp, rv, du, up, dn, mx)) := x in
  let rate o := match o with Some n => StoredRateLimit.Limited n | None => StoredRateLimit.Unlimited end in
  let count o := match o with Some n => StoredCountLimit.Limited n | None => StoredCountLimit.Unlimited end in
  StoredUserRecord.mk id (if st : bool then UserStatus.Enabled else UserStatus.Disabled)
    (match ex with Some n => StoredExpiration.AtUtc n | None => StoredExpiration.Unlimited end)
    (match qu with Some n => StoredByteLimit.Limited n | None => StoredByteLimit.Unlimited end)
    (rate ur) (rate dr) (rate cr) bu (count ms) (count mf)
    (match we with
     | Some l => StoredWeeklyAccess.Windows
         (map (fun '(d, a, b) => StoredWeeklyWindow.mk d a b) l)
     | None => StoredWeeklyAccess.Unlimited
     end) wt gr rp rv du up dn mx.

Lemma of_tuple_of r : of_tuple (tuple_of r) = r.
Proof.
  destruct r as [id st ex qu ur dr cr bu ms mf we wt gr rp rv du up dn mx]. unfold tuple_of. simpl.
  assert (Hw : forall l, map (fun '(d, a, b) => StoredWeeklyWindow.mk d a b)
    (map (fun w => (StoredWeeklyWindow.weekday w, StoredWeeklyWindow.start_second w,
      StoredWeeklyWindow.end_second w)) l) = l).
  { induction l as [|[] l IH]; simpl; congruence. }
  f_equal; try match goal with |- _ = ?x => by destruct x end. destruct we; [done|]. by rewrite Hw.
Qed.

#[export] Instance stored_user_record_eq_dec : EqDecision StoredUserRecord.t.
Proof.
  intros r s. destruct (decide (tuple_of r = tuple_of s)) as [E|N]; [left|right; congruence].
  by rewrite <- (of_tuple_of r), <- (of_tuple_of s), E.
Defined.

#[export] Instance stored_user_record_countable : Countable StoredUserRecord.t :=
  inj_countable' tuple_of of_tuple of_tuple_of.

(** A stored user record reads back as the record that was written when
    its weekly schedule is a valid one (which [UserSpec::validate] enforces on
    every record the administration writes); a record with an invalid schedule
    is refused on load with [Encode], never read back altered. *)
Theorem user_record_roundtrip `{Postcard StoredUserRecord.t} user b :
  encode_user_record user = Ok b ->
  decode_user_record b =
    (if WeeklyAccess.valid (UserSpec.weekly_access (UserRecord.spec user))
     then Ok user else Err AdminError.Encode) /\
  (UserSpec.validate (UserRecord.spec user) = Ok tt -> decode_user_record b = Ok user).
Proof.
  unfold encode_user_record, decode_user_record. rewrite ok_or_Ok. intros E.
  apply from_bytes_to_allocvec in E. rewrite E. cbn [ok_or mbind result_bind].
  assert (Hd : of_stored (to_stored user) =
    if WeeklyAccess.valid (UserSpec.weekly_access (UserRecord.spec user))
    then Ok user else Err AdminError.Encode).
  { case_if; [by apply of_stored_to_stored|].
    unfold of_stored, to_stored. cbn [StoredUserRecord.weekly_access].
    by rewrite runtime_weekly_stored, Heqb0. }
  split; [done|]. unfold UserSpec.validate. case_if; [done|]. intros _.
  rewrite Hd. by match goal with H : WeeklyAccess.valid _ = true |- _ => rewrite H end.
Qed.

(** A user with a quota, a rate and one weekly window. *)
Definition example_user : UserRecord.t :=
  UserRecord.mk #"00112233445566778899aabbccddeeff"
    (UserSpec.mk UserStatus.Enabled (Expiration.AtUtc 1900000000) (ByteLimit.Limited 1000)
      RateLimit.Unlimited (RateLimit.Limited 1) RateLimit.Unlimited 65507
      (CountLimit.Limited 2) CountLimit.Unlimited
      (WeeklyAccess.Windows [WeeklyWindow.mk Weekday.Friday 0 86400])
      1 #"default" #"default") 3 10 4 6 99.

#[local] Instance stored_user_postcard : Postcard StoredUserRecord.t := countable_postcard.

Lemma user_record_roundtrip_witness :
  decode_user_record (pos_bits (encode (to_stored example_user))) = Ok example_user.
Proof.
  pose proof (user_record_roundtrip example_user _ eq_refl) as [_ H]. apply H.
  vm_compute. reflexivity.
Defined.
End RecordFacts.

(** * Properties of the sequencer *)
Module SequencerFacts.
Import AdminSequencer.

Section facts.
Context `{HS : Sha256, HP : Postcard Receipt.t}.

(** What a commit needs and does: the client may commit the number, and its
    receipt becomes the only change. *)
Definition expected (s : t) (client_id : str) (seq : Z) : Prop :=
  match clients s !! client_id with
  | None => client_count s < max_clients s /\ seq = 1
  | Some receipt => seq = next_seq receipt
  end.

Lemma prepare_commit_Ok s c n h r e :
  prepare_commit s c n h r = Ok e <->
  validate_client_id c = Ok tt /\ expected s c n /\ to_allocvec (Receipt.mk n h r) = Some e.
Proof.
  unfold prepare_commit, expected. destruct (validate_client_id c) as [[]|]; simpl; [|naive_solver].
  destruct (clients s !! c) as [receipt|]; simpl.
  - case_if; simpl; [rewrite ok_or_Ok; naive_solver|naive_solver].
  - case_if; simpl; [split; [done|]; intros (_ & [? ?] & _); lia|].
    case_if; simpl; [rewrite ok_or_Ok; naive_solver lia|naive_solver].
Qed.

Lemma commit_Ok s s' c n h r e :
  commit s c n h r = (s', Ok e) <->
  validate_client_id c = Ok tt /\ expected s c n /\ to_allocvec (Receipt.mk n h r) = Some e /\
  s' = mk (max_clients s) (<[c := Receipt.mk n h r]> (clients s)).
Proof.
  unfold commit. destruct (prepare_commit s c n h r) as [e'|] eqn:E.
  - pose proof E as (Hv & He & Hc)%prepare_commit_Ok. unfold apply_commit.
    rewrite (from_bytes_to_allocvec _ _ Hc). simpl. rewrite E. split; naive_solver.
  - split; [done|]. intros (Hv & He & Hc & _).
    rewrite (proj2 (prepare_commit_Ok s c n h r e)) in E; done.
Qed.

Lemma commit_Err s s' c n h r e : commit s c n h r = (s', Err e) -> s' = s.
Proof.
  unfold commit. destruct (prepare_commit s c n h r) as [e'|] eqn:E; [|naive_solver].
  pose proof E as (Hv & He & Hc)%prepare_commit_Ok. unfold apply_commit.
  rewrite (from_bytes_to_allocvec _ _ Hc). simpl. by rewrite E.
Qed.

Lemma check_Execute s c n q h :
  check s c n q = Ok (AdminDecision.Execute h) ->
  validate_client_id c = Ok tt /\ expected s c n /\ h = sha256 q.
Proof.
  unfold check, expected. destruct (validate_client_id c) as [[]|]; simpl; [|done].
  destruct (clients s !! c); repeat case_if; naive_solver.
Qed.

(** A control request as the sequencer sees it, with the response its
    execution would produce; [serve] is the check followed, on [Execute], by
    the commit. *)
Record request := Request { client : str; number : Z; body : bytes; answer : bytes }.

Definition serve (s : t) (q : request) : t * result AdminError.t AdminDecision.t :=
  match check s (client q) (number q) (body q) with
  | Ok (AdminDecision.Execute h) =>
      match commit s (client q) (number q) h (answer q) with
      | (s, Ok _) => (s, Ok (AdminDecision.Execute h))
      | (s, Err e) => (s, Err e)
      end
  | r => (s, r)
  end.

Fixpoint serve_all (s : t) (qs : list request) : t * list (request * result AdminError.t AdminDecision.t) :=
  match qs with
  | [] => (s, [])
  | q :: qs =>
      let '(s, r) := serve s q in
      let '(s, l) := serve_all s qs in (s, (q, r) :: l)
  end.

(** The requests of a client that were executed, oldest first. *)
Definition executed (c : str) (log : list (request * result AdminError.t AdminDecision.t))
  : list request :=
  omap (fun '(q, r) => match r with
                       | Ok (AdminDecision.Execute _) =>
                           if bool_decide (client q = c) then Some q else None
                       | _ => None
                       end) log.

(** The receipt table summarises a log: the last executed request of each
    client, whose number is the count of its executed requests. *)
Definition summarises (max : Z) (s : t)
    (log : list (request * result AdminError.t AdminDecision.t)) : Prop :=
  max_clients s = max /\ client_count s <= max /\
  forall c,
    match last (executed c log), clients s !! c with
    | None, None => True
    | Some q, Some receipt =>
        validate_client_id c = Ok tt /\
        receipt = Receipt.mk (number q) (sha256 (body q)) (answer q)
    | _, _ => False
    end /\
    forall i q, executed c log !! i = Some q -> number q = (Z.of_nat i + 1) mod (u64_max + 1).

Lemma executed_snoc c log q r :
  executed c (log ++ [(q, r)]) = executed c log ++
    match r with
    | Ok (AdminDecision.Execute _) => if bool_decide (client q = c) then [q] else []
    | _ => []
    end.
Proof.
  unfold executed. rewrite omap_app. f_equal. simpl.
  destruct r as [[]|]; try done. by case_bool_decide.
Qed.

Lemma serve_cases s q s' r :
  serve s q = (s', r) ->
  (s' = s /\ (forall h, r <> Ok (AdminDecision.Execute h))) \/
  (r = Ok (AdminDecision.Execute (sha256 (body q))) /\
   validate_client_id (client q) = Ok tt /\ expected s (client q) (number q) /\
   s' = mk (max_clients s)
     (<[client q := Receipt.mk (number q) (sha256 (body q)) (answer q)]> (clients s))).
Proof.
  unfold serve. destruct (check _ _ _ _) as [[h|p]|] eqn:Ec; [|left; naive_solver..].
  apply check_Execute in Ec as (Hv & He & ->).
  destruct (commit _ _ _ _ _) as [s'' [e|e]] eqn:Ecm; intros [= <- <-].
  - apply commit_Ok in Ecm as (_ & _ & _ & ->). right. done.
  - apply commit_Err in Ecm as ->. left. naive_solver.
Qed.

Lemma client_count_insert s c rc :
  expected s c (Receipt.seq rc) -> client_count s <= max_clients s ->
  Z.of_nat (size (<[c := rc]> (clients s))) <= max_clients s.
Proof.
  unfold expected, client_count. intros He Hle. rewrite map_size_insert.
  destruct (clients s !! c); simpl; lia.
Qed.

Lemma serve_summarises max s log q s' r :
  summarises max s log -> serve s q = (s', r) -> summarises max s' (log ++ [(q, r)]).
Proof.
  intros (Hm & Hsz & Hs) Hq. destruct (serve_cases _ _ _ _ Hq) as [[-> Hr]|(-> & Hv & He & ->)].
  - split; [done|split; [done|]]. intros c. rewrite executed_snoc.
    destruct r as [[h|]|]; [by destruct (Hr h)|rewrite app_nil_r; apply Hs..].
  - split; [done|split; [unfold client_count; simpl; rewrite <- Hm;
      apply client_count_insert; [done|by rewrite Hm]|]].
    intros c. rewrite executed_snoc. specialize (Hs c) as [Hlast Hnum]. simpl.
    case_bool_decide as Hc; [|rewrite app_nil_r, lookup_insert_ne by done; done].
    subst c. rewrite last_snoc, lookup_insert_eq. split; [done|].
    intros i q' Hi. rewrite lookup_app in Hi.
    destruct (executed (client q) log !! i) as [?|] eqn:El; [simplify_eq; auto|].
    apply lookup_ge_None in El. apply list_lookup_singleton_Some in Hi as [Hi <-].
    assert (i = length (executed (client q) log)) as -> by lia. clear Hi El.
    unfold expected in He.
    destruct (last (executed (client q) log)) as [p|] eqn:Ep, (clients s !! client q) as [rc|];
      try done.
    + destruct Hlast as [_ ->]. rewrite He. unfold next_seq, wrapping_add. simpl.
      rewrite last_lookup in Ep. rewrite (Hnum _ _ Ep).
      destruct (executed (client q) log) as [|p' l]; [done|]. simpl length. simpl Nat.pred.
      rewrite Zplus_mod_idemp_l. f_equal. lia.
    + destruct He as [_ ->]. apply last_None in Ep as ->. done.
Qed.

Lemma serve_all_summarises max s log qs s' l :
  summarises max s log -> serve_all s qs = (s', l) -> summarises max s' (log ++ l).
Proof.
  revert s log s' l. induction qs as [|q qs IH]; intros s log s' l Hs; simpl.
  - intros [= <- <-]. by rewrite app_nil_r.
  - destruct (serve s q) as [s1 r] eqn:E1. destruct (serve_all s1 qs) as [s2 l2] eqn:E2.
    intros [= <- <-]. rewrite cons_middle, app_assoc. eapply IH; [|done].
    by eapply serve_summarises.
Qed.

Lemma summarises_new max s : 0 <= max -> new max = Ok s -> summarises max s [].
Proof.
  unfold new. case_if; [done|]. intros ? [= <-]. split; [done|split; [done|]].
  intros c. simpl. rewrite lookup_empty. done.
Qed.

(** C6: mutations of one client are executed exactly once and in order.  Over
    any sequence of control requests from any number of clients, interleaved
    in any way and with arbitrary retries and wrong numbers, the executed
    requests of each client carry the numbers 1, 2, 3, ... (modulo 2^64)
    without a gap or a repetition, and the table never holds more clients
    than its limit. *)
Theorem admin_exactly_once max qs s s' log :
  0 <= max -> new max = Ok s -> serve_all s qs = (s', log) ->
  client_count s' <= max /\
  forall c i q, executed c log !! i = Some q -> number q = (Z.of_nat i + 1) mod (u64_max + 1).
Proof.
  intros Hm Hn Hq. eapply (serve_all_summarises _ _ []) in Hq as (_ & ? & Hs);
    [|by eapply summarises_new].
  split; [done|]. intros c. apply Hs.
Qed.

(** Retrying is safe.  After any sequence of requests, the last executed
    request of a client is answered again with the recorded response and
    changes nothing, while the same number with a request of another digest is
    refused with [Sequence]. *)
Theorem admin_retry_replays max qs s s' log c q :
  0 <= max -> new max = Ok s -> serve_all s qs = (s', log) ->
  last (executed c log) = Some q ->
  (forall body', sha256 body' = sha256 (body q) ->
     serve s' (Request c (number q) body' (answer q)) = (s', Ok (AdminDecision.Replay (answer q)))) /\
  (forall body', sha256 body' <> sha256 (body q) ->
     serve s' (Request c (number q) body' (answer q)) = (s', Err AdminError.Sequence)).
Proof.
  intros Hm Hn Hq Hl. eapply (serve_all_summarises _ _ []) in Hq as (_ & _ & Hs);
    [|by eapply summarises_new].
  specialize (Hs c) as [Hlast Hnum]. change ([] ++ log) with log in *. rewrite Hl in Hlast.
  destruct (clients s' !! c) as [rc|] eqn:Erc; [|done]. destruct Hlast as [Hv ->].
  rewrite last_lookup in Hl. apply Hnum in Hl.
  unfold serve, check; simpl. rewrite Hv, Erc. simpl. rewrite Z.eqb_refl.
  split; intros body' Hb.
  - by rewrite bool_decide_eq_true_2.
  - rewrite bool_decide_eq_false_2 by done. simpl.
    rewrite (proj2 (Z.eqb_neq _ _)); [done|]. unfold next_seq, wrapping_add. simpl.
    assert (0 <= number q < u64_max + 1) by (rewrite Hl; apply Z.mod_pos_bound; done).
    destruct (decide (number q = u64_max)) as [->|]; [done|].
    rewrite Z.mod_small by lia. lia.
Qed.
End facts.

Definition prefix_sha : Sha256.
Proof.
  refine {| sha256 b := take 32 (b ++ replicate 32 x00) |}.
  intros b. rewrite length_take, length_app, length_replicate. lia.
Defined.

#[local] Instance receipt_countable : Countable Receipt.t :=
  inj_countable' (fun r => (Receipt.seq r, Receipt.request_hash r, Receipt.response r))
    (fun '(n, h, r) => Receipt.mk n h r) ltac:(by intros []).

#[local] Instance example_sha : Sha256 := prefix_sha.
#[local] Instance example_postcard : Postcard Receipt.t := RecordFacts.countable_postcard.

(** Two clients with a table of two: a first request, its retry, another
    client, a gap, the next request and a third client. *)
Definition example_requests : list request :=
  [Request #"cli" 1 #"create" #"ok1"; Request #"cli" 1 #"create" #"lost";
   Request #"web" 1 #"create" #"ok2"; Request #"cli" 3 #"gap" #"no";
   Request #"cli" 2 #"update" #"ok3"; Request #"third" 1 #"create" #"no"].
Definition example_run := serve_all (mk 2 ∅) example_requests.

Lemma admin_exactly_once_witness :
  number <$> executed #"cli" (snd example_run) = [1; 2] /\
  client_count (fst example_run) <= 2.
Proof.
  split; [vm_compute; reflexivity|].
  apply (admin_exactly_once 2 example_requests (mk 2 ∅) _ (snd example_run)); [lia|reflexivity|].
  unfold example_run. by destruct (serve_all _ _).
Defined.

Lemma admin_retry_replays_witness :
  serve (fst example_run) (Request #"cli" 2 #"update" #"ok3") =
    (fst example_run, Ok (AdminDecision.Replay #"ok3")).
Proof.
  apply (admin_retry_replays 2 example_requests (mk 2 ∅) _ (snd example_run) #"cli"
    (Request #"cli" 2 #"update" #"ok3")); [lia|reflexivity| |vm_compute; reflexivity|reflexivity].
  unfold example_run. by destruct (serve_all _ _).
Defined.
End SequencerFacts.
