(* ===== verification/Sniff.v ===== *)
(** Protocol sniffing of policy-local (modules/policy-local/src/sniff.rs):
    the classifier that decides from a prefix of a flow whether it carries TLS,
    HTTP, SSH or QUIC, and extracts the host name.

    Offsets are [nat]: every sum the source guards with [checked_add] or
    [saturating_add] is at most a few hundred thousand, far below the 64-bit
    limit, so the guards never fire and the sums are exact. *)
From Stdlib Require Import Strings.Byte.
From S2P Require Import Prelude Text.
#[local] Open Scope Z_scope.

Module Observed.
Inductive t :=
| Tls (sni : option str)
| Http (host : option str)
| Ssh
| Quic
| Unknown.
#[global] Instance eq_dec : EqDecision t.
Proof. solve_decision. Defined.
End Observed.

Module Classification.
Inductive t := NeedMore | Complete (o : Observed.t).
#[global] Instance eq_dec : EqDecision t.
Proof. solve_decision. Defined.
End Classification.

Definition incomplete (complete : bool) : Classification.t :=
  if complete then Classification.Complete Observed.Unknown else Classification.NeedMore.

Definition be_u16 (input : bytes) (offset : nat) : option nat :=
  b ← get_range input offset 2; Some (Z.to_nat (of_be b)).

Definition be_u24 (input : bytes) (offset : nat) : option nat :=
  b ← get_range input offset 3;
  match b with
  | [b0; b1; b2] =>
      Some (Z.to_nat (Z.lor (Z.lor (Z.shiftl (u8 b0) 16) (Z.shiftl (u8 b1) 8)) (u8 b2)))
  | _ => None
  end.

Definition valid_domain (domain : str) : bool :=
  negb (bool_decide (domain = [])) && (len domain <=? 253) && is_ascii domain
  && forallb valid_label (split_byte "."%byte domain).

(** ** TLS *)

(** The [while offset + 3 <= extension.len()] loop of [parse_sni]. *)
Fixpoint parse_sni_loop (fuel : nat) (extension : bytes) (offset : nat) : option str :=
  match fuel with
  | O => None
  | S fuel =>
      if (offset + 3 <=? length extension)%nat then
        kind ← extension !! offset;
        length ← be_u16 extension (offset + 1);
        let offset := (offset + 3)%nat in
        name ← get_range extension offset length;
        if u8 kind =? 0 then
          name ← from_utf8 name;
          let name := to_ascii_lowercase name in
          if valid_domain name then Some name else None
        else parse_sni_loop fuel extension (offset + length)
      else None
  end.

Definition parse_sni (extension : bytes) : option str :=
  list_length ← be_u16 extension 0;
  if negb (list_length + 2 =? length extension)%nat then None
  else parse_sni_loop (S (length extension)) extension 2.

(** The [while offset + 4 <= extensions_end] loop of [classify_tls]; the result
    is the [sni] of the [Observed::Tls] it returns. *)
Fixpoint tls_extensions (fuel : nat) (hello : bytes) (offset extensions_end : nat)
  : option str :=
  match fuel with
  | O => None
  | S fuel =>
      if (offset + 4 <=? extensions_end)%nat then
        let kind := unwrap_or (be_u16 hello offset) (Z.to_nat u16_max) in
        let length := unwrap_or (be_u16 hello (offset + 2)) 0%nat in
        let offset := (offset + 4)%nat in
        extension ← get_range hello offset length;
        if (kind =? 0)%nat then parse_sni extension
        else tls_extensions fuel hello (offset + length) extensions_end
      else None
  end.

(** The fields of the hello up to the extensions: [None] is the early return
    with [sni: None]. *)
Definition tls_hello_sni (hello : bytes) : option str :=
  let offset := 35%nat in
  session_length ← hello !! 34%nat;
  let offset := (offset + Z.to_nat (u8 session_length))%nat in
  cipher_length ← be_u16 hello offset;
  let offset := (offset + (2 + cipher_length))%nat in
  compression_length ← hello !! offset;
  let offset := (offset + (1 + Z.to_nat (u8 compression_length)))%nat in
  extensions_length ← be_u16 hello offset;
  let offset := (offset + 2)%nat in
  let extensions_end := (offset + extensions_length)%nat in
  if (extensions_end <=? length hello)%nat
  then tls_extensions (S (length hello)) hello offset extensions_end
  else None.

(** The handshake message inside the record. *)
Definition tls_record_sni (record : bytes) : option str :=
  if negb (bool_decide (head record = Some x01)) then None
  else
    handshake_length ← be_u24 record 1;
    if (length record <? handshake_length + 4)%nat then None
    else tls_hello_sni (take handshake_length (drop 4 record)).

Definition classify_tls (prefix : bytes) (complete : bool) : Classification.t :=
  match be_u16 prefix 3 with
  | None => incomplete complete
  | Some record_length =>
      let record_end := (5 + record_length)%nat in
      if (length prefix <? record_end)%nat then incomplete complete
      else Classification.Complete
        (Observed.Tls (tls_record_sni (take record_length (drop 5 prefix))))
  end.

(** ** HTTP *)

Definition CRLF : bytes := [x0d; x0a].

Definition normalize_host (value : str) : option str :=
  host ← (if starts_with value #"["
          then fmap (fun p => trim_start_matches "["%byte (fst p)) (split_once "]"%byte value)
          else head (split_byte ":"%byte value));
  let host := to_ascii_lowercase host in
  if valid_domain host then Some host else None.

(** The closure given to [find_map]. *)
Definition host_line (line : str) : option str :=
  '(name, value) ← split_once ":"%byte line;
  if eq_ignore_ascii_case name #"host" then normalize_host (trim value) else None.

Fixpoint find_map {A B} (f : A -> option B) (l : list A) : option B :=
  match l with
  | [] => None
  | a :: l => match f a with Some b => Some b | None => find_map f l end
  end.

(** What [classify_http] makes of the complete header block. *)
Definition http_header (header : bytes) : Observed.t :=
  match from_utf8 header with
  | None => Observed.Unknown
  | Some header =>
      match split_str CRLF header with
      | [] => Observed.Unknown
      | request :: lines =>
          if negb (ends_with request #" HTTP/1.0") && negb (ends_with request #" HTTP/1.1")
          then Observed.Unknown
          else Observed.Http (find_map host_line lines)
      end
  end.

Definition classify_http (prefix : bytes) (complete : bool) : Classification.t :=
  match position prefix (CRLF ++ CRLF) with
  | None => incomplete complete
  | Some end_ => Classification.Complete (http_header (take (end_ + 4) prefix))
  end.

Definition METHODS : list bytes :=
  [ #"GET "; #"POST "; #"PUT "; #"HEAD "; #"DELETE "; #"OPTIONS "; #"PATCH "; #"TRACE ";
    #"CONNECT "].

Definition looks_like_http (prefix : bytes) : bool :=
  existsb (fun method => starts_with method prefix || starts_with prefix method) METHODS.

(** ** The classifiers *)

Definition classify_tcp (prefix : bytes) (complete : bool) : Classification.t :=
  if starts_with prefix #"SSH-" then
    if contains prefix CRLF then Classification.Complete Observed.Ssh
    else if complete then Classification.Complete Observed.Unknown
    else Classification.NeedMore
  else if bool_decide (head prefix = Some x16) then classify_tls prefix complete
  else if looks_like_http prefix then classify_http prefix complete
  else if complete || (8 <=? len prefix) then Classification.Complete Observed.Unknown
  else Classification.NeedMore.

Definition classify_udp (prefix : bytes) : Observed.t :=
  match prefix with
  | byte :: _ => if Z.land (u8 byte) 0xc0 =? 0xc0 then Observed.Quic else Observed.Unknown
  | [] => Observed.Unknown
  end.

(** * The loops run to their end *)

(** With the fuel the callers give, each loop satisfies the equation of the
    source's [while]: the fuel is never what stops it. *)
Lemma parse_sni_loop_fuel e : forall f g o,
  (length e < f + o)%nat -> (length e < g + o)%nat ->
  parse_sni_loop f e o = parse_sni_loop g e o.
Proof.
  induction f as [|f IH]; intros [|g] o Hf Hg; [done| | |].
  1,2: simpl; rewrite (proj2 (Nat.leb_gt _ _)) by lia; done.
  simpl. case_if; [|done]. destruct (e !! o); simpl; [|done].
  destruct (be_u16 e (o + 1)) as [n|]; simpl; [|done].
  destruct (get_range e (o + 3) n); simpl; [|done]. case_if; [done|]. apply IH; lia.
Qed.

Lemma tls_extensions_fuel h e : forall f g o,
  (e < f + o)%nat -> (e < g + o)%nat -> tls_extensions f h o e = tls_extensions g h o e.
Proof.
  induction f as [|f IH]; intros [|g] o Hf Hg; [done| | |].
  1,2: simpl; rewrite (proj2 (Nat.leb_gt _ _)) by lia; done.
  simpl. case_if; [|done].
  destruct (get_range h (o + 4) _); simpl; [|done]. case_if; [done|]. apply IH; lia.
Qed.

(** * Decisions do not depend on fragmentation *)

Lemma get_range_app l k o n b : get_range l o n = Some b -> get_range (l ++ k) o n = Some b.
Proof.
  unfold get_range. case_if; [|done]. intros [= <-]. apply Nat.leb_le in Heqb0.
  rewrite (proj2 (Nat.leb_le _ _)) by (rewrite length_app; lia).
  rewrite drop_app_le, take_app_le by (try rewrite length_drop; lia). done.
Qed.

Lemma be_u16_app l k o n : be_u16 l o = Some n -> be_u16 (l ++ k) o = Some n.
Proof.
  unfold be_u16. destruct (get_range l o 2) as [b|] eqn:E; simpl; [|done].
  by rewrite (get_range_app _ k _ _ _ E).
Qed.

(** A prefix with a complete header is past every method name. *)
Lemma method_no_CRLF m : m ∈ METHODS -> (length m <= 8)%nat /\ x0d ∉ m.
Proof.
  intros Hm. revert m Hm. apply Forall_forall.
  apply (bool_decide_eq_true_1 (Forall (fun m => (length m <= 8)%nat /\ x0d ∉ m) METHODS)).
  vm_compute. reflexivity.
Qed.

Lemma incomplete_Complete c o : incomplete c = Classification.Complete o -> c = true.
Proof. by destruct c. Qed.

Lemma classify_tls_app p q c o :
  classify_tls p false = Classification.Complete o ->
  classify_tls (p ++ q) c = Classification.Complete o.
Proof.
  unfold classify_tls. destruct (be_u16 p 3) as [n|] eqn:E; [|done].
  rewrite (be_u16_app _ q _ _ E). case_if; [done|]. apply Nat.ltb_ge in Heqb.
  rewrite (proj2 (Nat.ltb_ge _ _)) by (rewrite length_app; lia).
  rewrite drop_app_le, take_app_le by (try rewrite length_drop; lia). done.
Qed.

Lemma classify_http_app p q c o :
  classify_http p false = Classification.Complete o ->
  classify_http (p ++ q) c = Classification.Complete o.
Proof.
  unfold classify_http. destruct (position p _) as [n|] eqn:E; [|done].
  rewrite (position_app _ q _ _ E). apply position_length in E. simpl in E.
  rewrite take_app_le by lia. done.
Qed.

Lemma classify_http_starts p o :
  looks_like_http p = true -> classify_http p false = Classification.Complete o ->
  exists m, m ∈ METHODS /\ starts_with p m = true.
Proof.
  unfold looks_like_http, classify_http. rewrite existsb_exists.
  intros (m & Hm%list_elem_of_In & [Hs|Hs]%orb_prop); [|eauto].
  destruct (position p _) as [n|] eqn:E; [|done]. intros _.
  apply method_no_CRLF in Hm as [_ []].
  eapply starts_with_elem; [done|]. eapply position_elem; [done|]. left.
Qed.

Lemma looks_like_http_app p q :
  8 <= len p -> looks_like_http (p ++ q) = true -> looks_like_http p = true.
Proof.
  unfold looks_like_http. rewrite !existsb_exists. intros Hl (m & Hm & Hs).
  exists m. split; [done|]. apply list_elem_of_In, method_no_CRLF in Hm as [Hlen _].
  apply orb_true_iff. apply orb_prop in Hs as [Hs|Hs]; [left|right].
  - eapply starts_with_prefix; eauto.
  - eapply starts_with_app_inv; [done|]. unfold len in Hl. lia.
Qed.

Lemma head_app_ne (p q : bytes) : p <> [] -> head (p ++ q) = head p.
Proof. by destruct p. Qed.

Lemma METHODS_head m p :
  m ∈ METHODS -> starts_with p m = true ->
  starts_with p #"SSH-" = false /\ head p <> Some x16 /\ p <> [].
Proof.
  intros Hm Hs. destruct p as [|b p]; [|split; [|split; [|done]]].
  - repeat (apply elem_of_cons in Hm as [->|Hm]; [done|]). by apply elem_of_nil in Hm.
  - apply not_true_iff_false. intros Hss.
    repeat (apply elem_of_cons in Hm as [->|Hm];
      [cbn in Hs, Hss; bools; congruence|]). by apply elem_of_nil in Hm.
  - intros [= ->].
    repeat (apply elem_of_cons in Hm as [->|Hm]; [done|]). by apply elem_of_nil in Hm.
Qed.

(** The verdict on a flow does not depend on how its bytes are split into
    reads.  Once the classifier decides on a prefix, it decides the same on
    every longer prefix, whether or not the stream has ended by then; so the
    observed protocol and host name are a function of the byte stream. *)
Theorem classify_tcp_stable p q c o :
  classify_tcp p false = Classification.Complete o ->
  classify_tcp (p ++ q) c = Classification.Complete o.
Proof.
  unfold classify_tcp. destruct (starts_with p _) eqn:Hssh.
  - rewrite (starts_with_app _ _ _ Hssh). unfold contains.
    destruct (position p CRLF) as [n|] eqn:E; simpl; [|done].
    by rewrite (position_app _ q _ _ E).
  - case_bool_decide as Htls.
    + intros Hc. rewrite (head_app_ne p q) by (by intros ->).
      rewrite bool_decide_eq_true_2 by done. rewrite (classify_tls_app _ _ _ _ Hc).
      destruct p as [|b p]; [done|]. injection Htls as ->. done.
    + destruct (looks_like_http p) eqn:Hh.
      * intros Hc. destruct (classify_http_starts _ _ Hh Hc) as (m & Hm & Hs).
        destruct (METHODS_head m (p ++ q) Hm) as (-> & Hne & _); [by apply starts_with_app|].
        rewrite bool_decide_eq_false_2 by done. rewrite (classify_http_app _ _ _ _ Hc).
        replace (looks_like_http (p ++ q)) with true; [done|]. symmetry.
        apply existsb_exists. exists m. split; [by apply list_elem_of_In|].
        apply orb_true_iff. right. by apply starts_with_app.
      * cbn [orb]. case_if; [|done]. intros [= <-].
        rewrite starts_with_app_le, Hssh by (unfold len in *; simpl; lia).
        rewrite head_app_ne by (by intros ->). rewrite bool_decide_eq_false_2 by done.
        destruct (looks_like_http (p ++ q)) eqn:Hx.
        { apply looks_like_http_app in Hx; [congruence|done]. }
        rewrite (proj2 (Z.leb_le _ _)), orb_true_r; [done|].
        rewrite len_app. pose proof (len_nonneg q). lia.
Qed.

Definition example_http : bytes := #"GET / HTTP/1.1" ++ CRLF ++ #"Host: Example.COM:443" ++ CRLF ++ CRLF.

Lemma classify_tcp_stable_witness :
  classify_tcp (example_http ++ #"SSH-") true =
    Classification.Complete (Observed.Http (Some #"example.com")).
Proof. apply classify_tcp_stable. vm_compute. reflexivity. Defined.

(** Sniffing ends.  When the stream is complete (ended, full or timed
    out) the classifier always decides; and while the stream is open it asks
    for more only in three situations: an SSH banner without its end, a TLS
    record that is not yet whole, and an HTTP head or a prefix too short to
    tell. *)
Theorem classify_tcp_need_more p c :
  classify_tcp p c = Classification.NeedMore <->
  c = false /\
  (starts_with p #"SSH-" = true /\ contains p CRLF = false \/
   starts_with p #"SSH-" = false /\ head p = Some x16 /\
     (forall n, be_u16 p 3 = Some n -> (length p < 5 + n)%nat) \/
   starts_with p #"SSH-" = false /\ head p <> Some x16 /\ looks_like_http p = true /\
     contains p (CRLF ++ CRLF) = false \/
   starts_with p #"SSH-" = false /\ head p <> Some x16 /\ looks_like_http p = false /\
     len p < 8).
Proof.
  unfold classify_tcp, classify_tls, classify_http, incomplete, contains.
  destruct (starts_with p _) eqn:Hssh.
  { destruct (position p CRLF), c; simpl; naive_solver. }
  case_bool_decide as Htls.
  { destruct (be_u16 p 3) as [n|].
    - case_if; [apply Nat.ltb_lt in Heqb|apply Nat.ltb_ge in Heqb]; destruct c; naive_solver lia.
    - destruct c; naive_solver. }
  destruct (looks_like_http p) eqn:Hh.
  { destruct (position p _), c; simpl; naive_solver. }
  destruct c; simpl; [naive_solver|]. case_if; naive_solver lia.
Qed.

(** * TLS client hellos are read correctly *)

Lemma get_range_at (a b c : bytes) o n :
  o = length a -> n = length b -> get_range (a ++ b ++ c) o n = Some b.
Proof.
  intros -> ->. unfold get_range. rewrite !length_app, (proj2 (Nat.leb_le _ _)) by lia.
  by rewrite drop_app_length, take_app_length.
Qed.

Lemma be_u16_at (a c : bytes) z o :
  o = length a -> 0 <= z <= u16_max -> be_u16 (a ++ be_bytes 2 z ++ c) o = Some (Z.to_nat z).
Proof.
  intros -> Hz. unfold be_u16. rewrite (get_range_at a (be_bytes 2 z) c); [|done|].
  - simpl. rewrite of_be_be_bytes_small by (change (256 ^ Z.of_nat 2) with 65536; ints). done.
  - by rewrite length_be_bytes.
Qed.

Lemma be_u24_at (a c : bytes) z o :
  o = length a -> 0 <= z < 16777216 -> be_u24 (a ++ be_bytes 3 z ++ c) o = Some (Z.to_nat z).
Proof.
  intros -> Hz. unfold be_u24. rewrite (get_range_at a (be_bytes 3 z) c); [|done|].
  2: by rewrite length_be_bytes.
  cbn [mbind option_bind]. unfold be_bytes. cbn [app].
  rewrite !u8_to_u8. f_equal. f_equal.
  rewrite !Z.shiftl_mul_pow2 by lia.
  assert (Hlor : forall x y k, 0 <= k -> 0 <= y < 2 ^ k -> Z.lor (x * 2 ^ k) y = x * 2 ^ k + y).
  { intros x y k Hk Hy. symmetry. rewrite <- Z.shiftl_mul_pow2 by done.
    rewrite Z.add_nocarry_lxor, Z.lxor_lor; [done| |].
    all: apply Z.bits_inj'; intros i Hi; rewrite Z.land_spec, Z.bits_0.
    all: destruct (decide (i < k));
      [rewrite Z.shiftl_spec_low by lia; done
      |rewrite <- (Z.mod_small y (2 ^ k)), Z.mod_pow2_bits_high by lia; apply andb_false_r]. }
  pose proof (Z.mod_pos_bound z 256 ltac:(lia)).
  pose proof (Z.mod_pos_bound (z / 256) 256 ltac:(lia)).
  rewrite <- Z.lor_assoc.
  rewrite (Hlor (z / 256 mod 256) (z mod 256) 8) by lia.
  rewrite (Hlor (z / 256 / 256 mod 256) _ 16) by lia.
  change (2 ^ 8) with 256. change (2 ^ 16) with 65536.
  clear Hlor. Z.to_euclidean_division_equations; lia.
Qed.

(** The layout of a client hello (RFC 8446, RFC 6066), as an encoder. *)
Definition vec8 (b : bytes) : bytes := to_u8 (len b) :: b.
Definition vec16 (b : bytes) : bytes := be_bytes 2 (len b) ++ b.
Definition extension (e : Z * bytes) : bytes := be_bytes 2 (fst e) ++ vec16 (snd e).
Definition extensions (es : list (Z * bytes)) : bytes := concat (map extension es).
Definition server_name (name : str) : bytes := vec16 (x00 :: vec16 name).

Record ClientHello := {
  random : bytes;
  session_id : bytes;
  cipher_suites : bytes;
  compression : bytes;
  before : list (Z * bytes);
  after : list (Z * bytes);
}.

Definition all_extensions (h : ClientHello) (name : str) : bytes :=
  extensions (before h) ++ extension (0, server_name name) ++ extensions (after h).

Definition hello_bytes (h : ClientHello) (name : str) : bytes :=
  ([x03; x03] ++ random h) ++ vec8 (session_id h) ++ vec16 (cipher_suites h)
  ++ vec8 (compression h) ++ vec16 (all_extensions h name).

Definition record_bytes (h : ClientHello) (name : str) : bytes :=
  let body := x01 :: be_bytes 3 (len (hello_bytes h name)) ++ hello_bytes h name in
  [x16; x03; x01] ++ vec16 body.

(** The lengths fit their fields, and no extension before the server name is
    itself one. *)
Definition well_formed (h : ClientHello) (name : str) : Prop :=
  length (random h) = 32%nat /\ len (session_id h) <= 255 /\
  len (cipher_suites h) <= u16_max /\ len (compression h) <= 255 /\
  Forall (fun e => 0 < fst e <= u16_max /\ len (snd e) <= u16_max) (before h) /\
  len (hello_bytes h name) + 4 <= u16_max.

Lemma length_vec16 b : length (vec16 b) = (2 + length b)%nat.
Proof. unfold vec16. rewrite length_app, length_be_bytes. lia. Qed.

Lemma length_extension e : length (extension e) = (4 + length (snd e))%nat.
Proof. unfold extension. rewrite length_app, length_be_bytes, length_vec16. lia. Qed.

Lemma parse_sni_server_name name :
  len name + 3 <= u16_max ->
  parse_sni (server_name name) =
    if utf8_valid name && valid_domain (to_ascii_lowercase name)
    then Some (to_ascii_lowercase name) else None.
Proof.
  intros Hl. unfold parse_sni, server_name.
  assert (Hlen : len (x00 :: vec16 name) = len name + 3).
  { rewrite len_cons. unfold vec16. lens. lia. }
  pose proof (len_nonneg name).
  assert (Hb : be_u16 (vec16 (x00 :: vec16 name)) 0 = Some (length (x00 :: vec16 name))).
  { etransitivity; [apply (be_u16_at []); [done|lia]|].
    unfold len. by rewrite Nat2Z.id. }
  rewrite Hb. cbn [mbind option_bind]. rewrite length_vec16, Nat.add_comm, Nat.eqb_refl. cbn [negb].
  set (e := vec16 (x00 :: vec16 name)).
  assert (He : e = (be_bytes 2 (len (x00 :: vec16 name)) ++ [x00]) ++
                   be_bytes 2 (len name) ++ name ++ []).
  { unfold e, vec16. rewrite app_nil_r, <- app_assoc. done. }
  assert (Hle : length e = (5 + length name)%nat).
  { unfold e. rewrite length_vec16. cbn [length]. rewrite length_vec16. lia. }
  cbn [parse_sni_loop]. rewrite (proj2 (Nat.leb_le _ _)) by lia.
  assert (Hk : e !! 2%nat = Some x00).
  { rewrite He, <- app_assoc, lookup_app_r by (rewrite length_be_bytes; lia).
    by rewrite length_be_bytes. }
  rewrite Hk. cbn [mbind option_bind].
  assert (Hn : be_u16 e (2 + 1) = Some (length name)).
  { rewrite He. rewrite (be_u16_at _ (name ++ []) (len name)); [|by rewrite length_app, length_be_bytes|lia].
    unfold len. by rewrite Nat2Z.id. }
  rewrite Hn. cbn [mbind option_bind].
  assert (Hg : get_range e (2 + 3) (length name) = Some name).
  { rewrite He, app_assoc. apply get_range_at; [|done].
    by rewrite !length_app, !length_be_bytes. }
  rewrite Hg. cbn [mbind option_bind]. change (u8 x00 =? 0) with true. cbv iota.
  unfold from_utf8. by destruct (utf8_valid name).
Qed.

Lemma tls_extensions_found pre es body post e_end fuel :
  Forall (fun e => 0 < fst e <= u16_max /\ len (snd e) <= u16_max) es ->
  len body <= u16_max ->
  (length pre + length (extensions es) + 4 + length body <= e_end)%nat ->
  (e_end < fuel + length pre)%nat ->
  tls_extensions fuel (pre ++ extensions es ++ extension (0, body) ++ post) (length pre) e_end =
  parse_sni body.
Proof.
  intros Hes Hb. revert pre fuel. induction Hes as [|[k b] es [Hk Hbl] Hes IH]; intros pre fuel He Hf;
    (destruct fuel as [|fuel]; [lia|]); cbn [tls_extensions].
  - change (extensions []) with (@nil byte) in *. cbn [app length] in *.
    rewrite (proj2 (Nat.leb_le _ _)) by lia.
    unfold extension, vec16. cbn [fst snd]. rewrite <- !app_assoc.
    rewrite be_u16_at by (done || ints).
    rewrite (app_assoc pre), be_u16_at by
      (rewrite ?length_app, ?length_be_bytes; done || (pose proof (len_nonneg body); lia)).
    cbn [unwrap_or]. rewrite (app_assoc (pre ++ _)), get_range_at; [done| |unfold len; lia].
    rewrite !length_app, !length_be_bytes. lia.
  - cbn [extensions map concat] in *. fold (extensions es) in *.
    rewrite length_app, length_extension in He. cbn [snd fst] in *.
    rewrite (proj2 (Nat.leb_le _ _)) by lia.
    set (tail := extensions es ++ extension (0, body) ++ post) in *.
    assert (E : pre ++ (extension (k, b) ++ extensions es) ++ extension (0, body) ++ post =
                pre ++ extension (k, b) ++ tail) by (unfold tail; by rewrite <- !app_assoc).
    rewrite E. clear E.
    assert (E1 : be_u16 (pre ++ extension (k, b) ++ tail) (length pre) = Some (Z.to_nat k)).
    { unfold extension. cbn [fst snd]. rewrite <- app_assoc. apply be_u16_at; [done|lia]. }
    assert (E2 : be_u16 (pre ++ extension (k, b) ++ tail) (length pre + 2) = Some (length b)).
    { unfold extension, vec16. cbn [fst snd]. rewrite <- !app_assoc, (app_assoc pre), be_u16_at.
      - unfold len. by rewrite Nat2Z.id.
      - by rewrite length_app, length_be_bytes.
      - pose proof (len_nonneg b); lia. }
    assert (E3 : get_range (pre ++ extension (k, b) ++ tail) (length pre + 4) (length b) = Some b).
    { unfold extension, vec16. cbn [fst snd]. rewrite <- !app_assoc, (app_assoc pre), (app_assoc (pre ++ _)).
      apply get_range_at; [|done]. rewrite !length_app, !length_be_bytes. lia. }
    rewrite E1, E2. cbn [unwrap_or]. rewrite E3. cbn [mbind option_bind].
    rewrite (proj2 (Nat.eqb_neq _ _)) by lia.
    specialize (IH (pre ++ extension (k, b)) fuel). rewrite <- app_assoc in IH.
    rewrite length_app, length_extension in IH. cbn [snd] in IH.
    replace (length pre + 4 + length b)%nat with (length pre + (4 + length b))%nat by lia.
    apply IH; lia.
Qed.

Lemma lookup_at (a c : bytes) x o : o = length a -> (a ++ x :: c) !! o = Some x.
Proof. intros ->. by apply list_lookup_middle. Qed.

Lemma u8_len (b : bytes) : len b <= 255 -> Z.to_nat (u8 (to_u8 (len b))) = length b.
Proof. intros. rewrite u8_to_u8, Z.mod_small by ints. unfold len. lia. Qed.

Lemma len_server_name name : len (server_name name) = len name + 5.
Proof.
  unfold server_name, len. rewrite length_vec16. cbn [length]. rewrite length_vec16. lia.
Qed.

Lemma len_hello_bytes h name :
  len (hello_bytes h name) = 2 + len (random h) + 1 + len (session_id h) + 2
    + len (cipher_suites h) + 1 + len (compression h) + 2 + len (all_extensions h name).
Proof. unfold hello_bytes, vec8, vec16. lens. change (len [x03; x03]) with 2. lia. Qed.

Lemma len_all_extensions h name :
  len (all_extensions h name) =
    len (extensions (before h)) + 4 + (len name + 5) + len (extensions (after h)).
Proof.
  unfold all_extensions. rewrite !len_app.
  assert (len (extension (0, server_name name)) = 4 + (len name + 5)).
  { unfold len. rewrite length_extension. cbn [snd]. pose proof (len_server_name name). ints. }
  lia.
Qed.

Lemma be_u16_vec16 (a b c : bytes) o :
  o = length a -> len b <= u16_max -> be_u16 (a ++ vec16 b ++ c) o = Some (length b).
Proof.
  intros -> Hb. unfold vec16. rewrite <- app_assoc, be_u16_at by (done || ints).
  unfold len. by rewrite Nat2Z.id.
Qed.

(** Each field of the hello is read at the length of what precedes it. *)
Lemma hello_reads p sid ciph comp exts o1 o2 o3 :
  let hello := p ++ vec8 sid ++ vec16 ciph ++ vec8 comp ++ vec16 exts in
  len ciph <= u16_max -> len exts <= u16_max ->
  o1 = (length p + 1 + length sid)%nat -> o2 = (o1 + (2 + length ciph))%nat ->
  o3 = (o2 + (1 + length comp))%nat ->
  hello !! length p = Some (to_u8 (len sid)) /\ be_u16 hello o1 = Some (length ciph) /\
  hello !! o2 = Some (to_u8 (len comp)) /\ be_u16 hello o3 = Some (length exts) /\
  exists pre, hello = pre ++ exts /\ length pre = (o3 + 2)%nat.
Proof.
  intros hello Hc He -> -> ->. unfold hello, vec8. split_and!.
  - by apply lookup_at.
  - rewrite app_assoc. apply be_u16_vec16; [|done]. rewrite length_app. cbn [length]. lia.
  - rewrite 2!app_assoc. apply lookup_at. rewrite !length_app, length_vec16. cbn [length]. lia.
  - rewrite 3!app_assoc, <- (app_nil_r (vec16 exts)). apply be_u16_vec16; [|done].
    rewrite !length_app, length_vec16. cbn [length]. lia.
  - eexists (p ++ (_ :: sid) ++ vec16 ciph ++ (_ :: comp) ++ be_bytes 2 (len exts)). split.
    + unfold vec16. rewrite <- !app_assoc. reflexivity.
    + rewrite !length_app, length_vec16, length_be_bytes. cbn [length]. lia.
Qed.

Lemma tls_hello_sni_hello h name :
  well_formed h name -> tls_hello_sni (hello_bytes h name) = parse_sni (server_name name).
Proof.
  intros (Hr & Hs & Hc & Hm & Hb & Hl).
  pose proof (len_hello_bytes h name). pose proof (len_all_extensions h name).
  pose proof (len_nonneg (extensions (before h))). pose proof (len_nonneg (extensions (after h))).
  pose proof (len_nonneg name). pose proof (len_server_name name).
  pose proof (hello_reads ([x03; x03] ++ random h) (session_id h) (cipher_suites h)
    (compression h) (all_extensions h name) (35 + length (session_id h))) as Hrd.
  rewrite length_app, Hr in Hrd.
  edestruct Hrd as (E1 & E2 & E3 & E4 & pre & E5 & Hpre);
    [done|ints|cbn [length]; lia|reflexivity..|]. clear Hrd.
  unfold tls_hello_sni. fold (hello_bytes h name) in *. cbn [length Nat.add] in E1.
  rewrite E1. cbn [mbind option_bind]. rewrite u8_len by done. rewrite E2.
  cbn [mbind option_bind]. rewrite E3. cbn [mbind option_bind]. rewrite u8_len by done. rewrite E4.
  cbn [mbind option_bind]. rewrite <- Hpre.
  assert (Hlen : length (hello_bytes h name) = (length pre + length (all_extensions h name))%nat)
    by (rewrite E5; apply length_app).
  rewrite (proj2 (Nat.leb_le _ _)) by lia.
  rewrite Hlen, E5. apply tls_extensions_found; [done|ints|ints|lia].
Qed.

(** The server name of every well-formed TLS client hello is found,
    whatever the session id, cipher suites, compression methods and the other
    extensions around it, whatever follows the record, and whether or not the
    stream is complete: the classifier answers [Tls] with the lowercased name
    when it is a valid domain name, and with no name otherwise. *)
Theorem classify_tcp_sni h name rest c :
  well_formed h name ->
  classify_tcp (record_bytes h name ++ rest) c =
    Classification.Complete (Observed.Tls
      (if utf8_valid name && valid_domain (to_ascii_lowercase name)
       then Some (to_ascii_lowercase name) else None)).
Proof.
  intros Hw. pose proof Hw as (_ & _ & _ & _ & _ & Hl).
  pose proof (len_nonneg (hello_bytes h name)).
  set (body := x01 :: be_bytes 3 (len (hello_bytes h name)) ++ hello_bytes h name).
  assert (Hbl : len body = len (hello_bytes h name) + 4).
  { unfold body. rewrite len_cons, len_app, len_be_bytes. lia. }
  assert (Hr : record_bytes h name ++ rest = [x16; x03; x01] ++ vec16 body ++ rest)
    by (unfold record_bytes; by rewrite <- app_assoc).
  rewrite Hr. unfold classify_tcp, classify_tls. cbn [app starts_with head].
  rewrite (bool_decide_eq_true_2 (Some x16 = Some x16)) by done.
  change (x16 :: x03 :: x01 :: vec16 body ++ rest) with ([x16; x03; x01] ++ vec16 body ++ rest).
  rewrite be_u16_vec16 by (done || lia).
  rewrite (proj2 (Nat.ltb_ge _ _)) by (rewrite !length_app, length_vec16; cbn [length]; lia).
  assert (Hrec : take (length body) (drop 5 ([x16; x03; x01] ++ vec16 body ++ rest)) = body).
  { unfold vec16. rewrite <- app_assoc, app_assoc.
    rewrite drop_app_length' by (rewrite length_app, length_be_bytes; done).
    by rewrite take_app_length. }
  rewrite Hrec. unfold tls_record_sni, body.
  rewrite (bool_decide_eq_true_2 (head _ = _)) by done. cbn [negb].
  set (b := x01 :: be_bytes 3 (len (hello_bytes h name)) ++ hello_bytes h name).
  assert (E : be_u24 b 1 = Some (length (hello_bytes h name))).
  { pose proof (be_u24_at [x01] (hello_bytes h name) (len (hello_bytes h name)) 1) as Hx.
    unfold b. cbn [app] in Hx. rewrite Hx by (done || ints). unfold len. by rewrite Nat2Z.id. }
  rewrite E. cbn [mbind option_bind].
  rewrite (proj2 (Nat.ltb_ge _ _)) by (unfold len in Hbl; unfold b; fold body; lia).
  assert (Hd : drop 4 b = hello_bytes h name).
  { unfold b. rewrite app_comm_cons. apply drop_app_length'. by rewrite length_cons, length_be_bytes. }
  rewrite Hd, firstn_all, tls_hello_sni_hello by done.
  rewrite parse_sni_server_name; [done|].
  pose proof (len_hello_bytes h name). pose proof (len_all_extensions h name).
  pose proof (len_nonneg (extensions (before h))). pose proof (len_nonneg (extensions (after h))). ints.
Qed.

Definition example_hello : ClientHello :=
  {| random := replicate 32 x00; session_id := [x01; x02]; cipher_suites := [x13; x01];
     compression := [x00]; before := [(10, [x00; x02; x00; x1d])]; after := [(43, [x03; x04])] |}.

Lemma classify_tcp_sni_witness :
  classify_tcp (record_bytes example_hello #"Example.COM" ++ #"rest") false =
    Classification.Complete (Observed.Tls (Some #"example.com")).
Proof.
  rewrite classify_tcp_sni; [reflexivity|].
  unfold well_formed. split_and!; try (vm_compute; congruence).
  repeat constructor; vm_compute; congruence.
Defined.
