(* ===== verification/Service.v ===== *)
(** The session service of policy-local
    (modules/policy-local/src/service.rs): the client requests and the
    [SessionChannel] that frames them over a byte stream.

    The stream is a [ByteIo] of the SDK: what it answers to one [poll_read] and
    one [poll_write] is an argument of [poll], and the bytes it accepts are part
    of the result. *)
From Stdlib Require Import Strings.Byte.
From S2P Require Import Prelude Text Frame Admin.
#[local] Open Scope Z_scope.

Definition RESPONSE_QUEUE_LIMIT : Z := 8.

Module ServiceError.
(** [E] is [io::Error]. *)
Inductive t (E : Type) :=
| Frame (error : FrameError)
| Protocol
| Resource
| Closed
| WriteZero
| Io (error : E).
Arguments Frame {E} _.
Arguments Protocol {E}.
Arguments Resource {E}.
Arguments Closed {E}.
Arguments WriteZero {E}.
Arguments Io {E} _.
End ServiceError.

Module ClientRequest.
Inductive t := Auth (credential : str) | Status | Subscribe | DisconnectSelf.

Definition lower_hex (byte : byte) : bool := is_ascii_digit byte || between 97 102 (u8 byte).

Definition parse {E} `{Toml t} (input : str) : result (ServiceError.t E) t :=
  request ← ok_or (toml_from_str input) ServiceError.Protocol;
  match request with
  | Auth credential =>
      if negb (len credential =? 64) || negb (forallb lower_hex credential)
      then Err ServiceError.Protocol
      else Ok request
  | _ => Ok request
  end.
End ClientRequest.

Module QueuedFrame.
Record t := mk { content : bytes; sensitive : bool }.
End QueuedFrame.

Module SessionChannel.
(** The stream itself is the environment; the rest of the struct is the
    state. *)
Record t := mk {
  decoder : FrameDecoder;
  read_buffer_len : Z;
  responses : list QueuedFrame.t;
  snapshot : option bytes;
  writing : option QueuedFrame.t;
  write_offset : Z;
  frame_limit : Z;
  eof : bool;
}.

Definition set_decoder (c : t) d := mk d (read_buffer_len c) (responses c) (snapshot c)
  (writing c) (write_offset c) (frame_limit c) (eof c).
Definition set_responses (c : t) q := mk (decoder c) (read_buffer_len c) q (snapshot c)
  (writing c) (write_offset c) (frame_limit c) (eof c).
Definition set_snapshot (c : t) s := mk (decoder c) (read_buffer_len c) (responses c) s
  (writing c) (write_offset c) (frame_limit c) (eof c).
Definition set_writing (c : t) w o := mk (decoder c) (read_buffer_len c) (responses c)
  (snapshot c) w o (frame_limit c) (eof c).
Definition set_eof (c : t) := mk (decoder c) (read_buffer_len c) (responses c) (snapshot c)
  (writing c) (write_offset c) (frame_limit c) true.

Section with_io.
Context {E : Type}.
Abbreviation error := (ServiceError.t E).

Definition new (frame_limit : Z) : result error t :=
  d ← map_err ServiceError.Frame (Frame.new frame_limit);
  Ok (mk d (Z.min frame_limit 4096) [] None None 0 frame_limit false).

Definition queue_frame (c : t) (response : str) (sensitive : bool) : t * result error unit :=
  if RESPONSE_QUEUE_LIMIT <=? len (responses c) then (c, Err ServiceError.Resource)
  else match encode_frame response (frame_limit c) with
  | Err e => (c, Err (ServiceError.Frame e))
  | Ok b => (set_responses c (responses c ++ [QueuedFrame.mk b sensitive]), Ok tt)
  end.

Definition queue_response (c : t) (response : str) := queue_frame c response false.
Definition queue_secret (c : t) (response : str) := queue_frame c response true.

Definition replace_snapshot (c : t) (s : str) : t * result error unit :=
  match encode_frame s (frame_limit c) with
  | Err e => (c, Err (ServiceError.Frame e))
  | Ok b => (set_snapshot c (Some b), Ok tt)
  end.

(** The answers of the stream to one poll: the bytes [poll_read] puts into the
    buffer, the number of bytes [poll_write] accepts. *)
Record answers := Answers {
  read_answer : poll (result E bytes);
  write_answer : poll (result E Z);
}.

(** The reading half of [poll]: the messages, or the error it returns. *)
Definition poll_read_half (c : t) (a : answers) : t * result error (list str) :=
  if eof c then (c, Ok [])
  else match read_answer a with
  | Ready (Ok []) => (set_eof c, Ok [])
  | Ready (Ok input) =>
      match push (decoder c) input with
      | (d, Ok frames) => (set_decoder c d, Ok frames)
      | (d, Err e) => (set_decoder c d, Err (ServiceError.Frame e))
      end
  | Ready (Err e) => (c, Err (ServiceError.Io e))
  | Pending => (c, Ok [])
  end.

(** [if self.writing.is_none() { .. }]. *)
Definition next_frame (c : t) : t :=
  if is_none (writing c) then
    match responses c with
    | frame :: rest => set_writing (set_responses c rest) (Some frame) 0
    | [] =>
        match snapshot c with
        | Some b => set_writing (set_snapshot c None) (Some (QueuedFrame.mk b false)) 0
        | None => set_writing c None 0
        end
    end
  else c.

(** The writing half: the bytes that go out on the stream. *)
Definition poll_write_half (c : t) (a : answers) : t * bytes * result error unit :=
  let c := next_frame c in
  match writing c with
  | None => (c, [], Ok tt)
  | Some frame =>
      let rest := drop (Z.to_nat (write_offset c)) (QueuedFrame.content frame) in
      match write_answer a with
      | Ready (Ok written) =>
          if written =? 0 then (c, [], Err ServiceError.WriteZero)
          else
            let out := take (Z.to_nat written) rest in
            let offset := write_offset c + written in
            if offset =? len (QueuedFrame.content frame)
            then (set_writing c None 0, out, Ok tt)
            else (set_writing c (Some frame) offset, out, Ok tt)
      | Ready (Err e) => (c, [], Err (ServiceError.Io e))
      | Pending => (c, [], Ok tt)
      end
  end.

(** [SessionChannel::poll]: the channel, the bytes written, and the result. *)
Definition poll_channel (c : t) (a : answers) : t * bytes * poll (result error (list str)) :=
  match poll_read_half c a with
  | (c, Err e) => (c, [], Ready (Err e))
  | (c, Ok messages) =>
      match poll_write_half c a with
      | (c, out, Err e) => (c, out, Ready (Err e))
      | (c, out, Ok _) =>
          if eof c && is_none (writing c) && bool_decide (length (responses c) = 0%nat)
             && is_none (snapshot c)
          then (c, out, Ready (Err ServiceError.Closed))
          else if bool_decide (messages = []) then (c, out, Pending)
          else (c, out, Ready (Ok messages))
      end
  end.

(** The contract of [ByteIo]: a read fits the buffer, a write takes no more
    than it is offered. *)
Definition offered (c : t) : Z :=
  match writing (next_frame c) with
  | Some frame => len (QueuedFrame.content frame) - write_offset (next_frame c)
  | None => 0
  end.

Definition answers_ok (c : t) (a : answers) : Prop :=
  match read_answer a with Ready (Ok b) => len b <= read_buffer_len c | _ => True end /\
  match write_answer a with Ready (Ok n) => 0 <= n <= offered c | _ => True end.
End with_io.
End SessionChannel.

(** * Properties of the channel *)
Module ChannelFacts.
Import SessionChannel.

Section facts.
Context {E : Type}.

(** What a user of the channel does, and what can be observed of it: the bytes
    on the wire, the responses and snapshots it accepted, and the messages it
    delivered. *)
Inductive op :=
| QueueResponse (r : str)
| QueueSecret (r : str)
| ReplaceSnapshot (s : str)
| Poll (a : @answers E).

Record trace := Trace {
  channel : t;
  wire : bytes;
  accepted : list str;
  snapshots : list str;
}.

Definition step (tr : trace) (o : op) : trace :=
  match o with
  | QueueResponse r =>
      match @queue_response E (channel tr) r with
      | (c, Ok _) => Trace c (wire tr) (accepted tr ++ [r]) (snapshots tr)
      | (c, Err _) => Trace c (wire tr) (accepted tr) (snapshots tr)
      end
  | QueueSecret r =>
      match @queue_secret E (channel tr) r with
      | (c, Ok _) => Trace c (wire tr) (accepted tr ++ [r]) (snapshots tr)
      | (c, Err _) => Trace c (wire tr) (accepted tr) (snapshots tr)
      end
  | ReplaceSnapshot s =>
      match @replace_snapshot E (channel tr) s with
      | (c, Ok _) => Trace c (wire tr) (accepted tr) (snapshots tr ++ [s])
      | (c, Err _) => Trace c (wire tr) (accepted tr) (snapshots tr)
      end
  | Poll a =>
      match poll_channel (channel tr) a with
      | (c, out, _) => Trace c (wire tr ++ out) (accepted tr) (snapshots tr)
      end
  end.

(** Strings are UTF-8 and the stream keeps its contract. *)
Definition allowed (tr : trace) (o : op) : Prop :=
  match o with
  | QueueResponse r | QueueSecret r | ReplaceSnapshot r => utf8_valid r = true
  | Poll a => answers_ok (channel tr) a
  end.

Inductive reachable (limit : Z) : trace -> Prop :=
| reach_new c : @new E limit = Ok c -> reachable limit (Trace c [] [] [])
| reach_step tr o : reachable limit tr -> allowed tr o -> reachable limit (step tr o).

(** The rest of the frame being written. *)
Definition unwritten (c : t) : bytes :=
  match writing c with
  | Some f => drop (Z.to_nat (write_offset c)) (QueuedFrame.content f)
  | None => []
  end.

(** [frames] is what was taken from the queues so far, each marked as a
    response or a snapshot, [pend] the responses still queued. *)
Definition inv (limit : Z) (tr : trace) (frames : list (bool * str)) (pend : list str) : Prop :=
  let c := channel tr in
  frame_limit c = limit /\
  wire tr ++ unwritten c = encodings (map snd frames) /\
  map snd (filter (fun f => fst f = true) frames) ++ pend = accepted tr /\
  map QueuedFrame.content (responses c) = map encoding pend /\
  len (responses c) <= RESPONSE_QUEUE_LIMIT /\
  Forall (fun f => sendable limit (snd f) /\ (fst f = false -> snd f ∈ snapshots tr)) frames /\
  Forall (sendable limit) pend /\
  (forall b, snapshot c = Some b -> exists s, b = encoding s /\ s ∈ snapshots tr /\
     sendable limit s) /\
  (forall f, writing c = Some f -> 0 <= write_offset c < len (QueuedFrame.content f)).

Lemma encode_sendable limit r b :
  utf8_valid r = true -> encode_frame r limit = Ok b -> b = encoding r /\ sendable limit r.
Proof. intros Hu (-> & Hne & ? & ?)%encode_frame_Ok. repeat split; done. Qed.

Lemma queue_frame_inv limit tr r sens frames pend c res :
  inv limit tr frames pend -> utf8_valid r = true ->
  @queue_frame E (channel tr) r sens = (c, res) ->
  exists pend', inv limit
    (Trace c (wire tr) (if is_ok res then accepted tr ++ [r] else accepted tr) (snapshots tr))
    frames pend'.
Proof.
  intros (Hl & Hw & Ha & Hr & Hq & Hf & Hp & Hs & Ho) Hu. unfold queue_frame.
  case_if; [intros [= <- <-]; by exists pend|].
  destruct (encode_frame r _) as [b|e] eqn:Eb; intros [= <- <-]; [|by exists pend].
  rewrite Hl in Eb. apply encode_sendable in Eb as [-> Hsend]; [|done].
  exists (pend ++ [r]). split_and!; simpl; try done.
  - by rewrite app_assoc, Ha.
  - rewrite !map_app, Hr. done.
  - rewrite len_snoc. lia.
  - apply Forall_app. auto.
Qed.

Lemma replace_snapshot_inv limit tr s frames pend c res :
  inv limit tr frames pend -> utf8_valid s = true ->
  @replace_snapshot E (channel tr) s = (c, res) ->
  inv limit (Trace c (wire tr) (accepted tr) (if is_ok res then snapshots tr ++ [s] else snapshots tr))
    frames pend.
Proof.
  intros (Hl & Hw & Ha & Hr & Hq & Hf & Hp & Hs & Ho) Hu. unfold replace_snapshot.
  destruct (encode_frame s _) as [b|e] eqn:Eb; intros [= <- <-]; [|done].
  rewrite Hl in Eb. apply encode_sendable in Eb as [-> Hsend]; [|done].
  split_and!; simpl; try done.
  - eapply Forall_impl; [done|]. intros [x y] [? Hin]. split; [done|]. simpl in *.
    intros Hx. apply elem_of_app. auto.
  - intros b [= <-]. exists s. split_and!; [done| |done]. apply elem_of_app. right. by left.
Qed.

Lemma read_half_inv limit tr frames pend (a : @answers E) c res :
  inv limit tr frames pend -> poll_read_half (channel tr) a = (c, res) ->
  inv limit (Trace c (wire tr) (accepted tr) (snapshots tr)) frames pend /\
  offered c = offered (channel tr).
Proof.
  intros Hinv. unfold poll_read_half, offered, next_frame.
  destruct (eof (channel tr)) eqn:Eeof; [|destruct (read_answer a) as [[[|x b]|e]|]].
  3: destruct (push _ _) as [d [fs|e]].
  all: intros [= <- <-]; split; [exact Hinv|].
  all: by destruct (channel tr) as [? ? [|? ?] [|] [|] ? ? ?].
Qed.

Lemma len_encoding_pos s : 0 < len (encoding s).
Proof. rewrite len_encoding. pose proof (len_nonneg s). lia. Qed.

Lemma next_frame_inv limit tr frames pend :
  inv limit tr frames pend ->
  exists frames' pend',
    inv limit (Trace (next_frame (channel tr)) (wire tr) (accepted tr) (snapshots tr)) frames' pend'.
Proof.
  intros Hinv. pose proof Hinv as (Hl & Hw & Ha & Hr & Hq & Hf & Hp & Hs & Ho).
  unfold next_frame. unfold unwritten in Hw.
  destruct (writing (channel tr)) as [f|] eqn:Ew; simpl; [by exists frames, pend|].
  rewrite app_nil_r in Hw.
  destruct (responses (channel tr)) as [|f rest] eqn:Er.
  - destruct (snapshot (channel tr)) as [b|] eqn:Es.
    + destruct (Hs b eq_refl) as (s & -> & Hin & Hsend).
      exists (frames ++ [(false, s)]), pend. split_and!; simpl; try done.
      * rewrite Hw, map_app, encodings_app. cbn [map snd encodings]. by rewrite app_nil_r.
      * by rewrite filter_app, app_nil_r.
      * by rewrite Er.
      * by rewrite Er.
      * apply Forall_app. split; [done|]. by apply Forall_singleton.
      * intros f [= <-]. simpl. pose proof (len_encoding_pos s). lia.
    + exists frames, pend. split_and!; simpl; try done; [by rewrite app_nil_r|by rewrite Er..|by rewrite Es].
  - destruct pend as [|s pend]; [done|]. injection Hr as Hfs Hr.
    exists (frames ++ [(true, s)]), pend. inversion Hp; subst. rewrite len_cons in Hq.
    split_and!; simpl; try done.
    + rewrite Hw, map_app, encodings_app. cbn [map snd encodings unwritten writing]. by rewrite app_nil_r, <- Hfs.
    + rewrite filter_app, map_app, <- app_assoc. done.
    + lia.
    + apply Forall_app. split; [done|]. by apply Forall_singleton.
    + intros f' [= <-]. rewrite Hfs. pose proof (len_encoding_pos s). lia.
Qed.

Lemma write_half_inv limit tr frames pend (a : @answers E) c out res :
  inv limit tr frames pend ->
  match write_answer a with Ready (Ok n) => 0 <= n <= offered (channel tr) | _ => True end ->
  poll_write_half (channel tr) a = (c, out, res) ->
  exists frames' pend',
    inv limit (Trace c (wire tr ++ out) (accepted tr) (snapshots tr)) frames' pend'.
Proof.
  intros Hinv Hn. apply next_frame_inv in Hinv as (frames' & pend' & Hinv).
  unfold poll_write_half. unfold offered in Hn. set (c1 := next_frame (channel tr)) in *.
  assert (Hsame : inv limit (Trace c1 (wire tr ++ []) (accepted tr) (snapshots tr)) frames' pend')
    by (by rewrite app_nil_r).
  destruct (writing c1) as [f|] eqn:Ew; [|intros [= <- <- <-]; eauto].
  destruct (write_answer a) as [[n|e]|]; [|intros [= <- <- <-]; eauto..].
  case_if; [intros [= <- <- <-]; eauto|].
  destruct Hinv as (Hl & Hw & Ha & Hr & Hq & Hf & Hp & Hs & Ho). simpl in *.
  specialize (Ho f Ew). unfold unwritten in Hw. rewrite Ew in Hw.
  set (rest := drop (Z.to_nat (write_offset c1)) (QueuedFrame.content f)) in *.
  assert (Hrest : len rest = len (QueuedFrame.content f) - write_offset c1)
    by (unfold rest, len; rewrite length_drop; ints).
  case_if; intros [= <- <- <-]; exists frames', pend'; split_and!; simpl; try done.
  - rewrite app_nil_r, take_ge by (unfold len in *; lia). done.
  - unfold unwritten. simpl. rewrite Z2Nat.inj_add, <- drop_drop, <- app_assoc by lia.
    fold rest. by rewrite take_drop.
  - intros f' [= <-]. lia.
Qed.

Lemma channel_new_inv limit c : @new E limit = Ok c -> inv limit (Trace c [] [] []) [] [].
Proof.
  unfold new. destruct (Frame.new limit); simpl; [|done]. intros [= <-].
  split_and!; simpl; try done; constructor.
Qed.

Lemma reachable_inv limit tr : reachable limit tr -> exists frames pend, inv limit tr frames pend.
Proof.
  induction 1 as [c Hc|tr o Hr (frames & pend & Hinv) Hok].
  - exists [], []. by apply channel_new_inv.
  - destruct o as [r|r|s|a]; simpl in *.
    + destruct (queue_response _ _) as [c [u|e]] eqn:Eq;
        destruct (queue_frame_inv _ _ _ _ _ _ _ _ Hinv Hok Eq) as [pend' ?]; eauto.
    + destruct (queue_secret _ _) as [c [u|e]] eqn:Eq;
        destruct (queue_frame_inv _ _ _ _ _ _ _ _ Hinv Hok Eq) as [pend' ?]; eauto.
    + destruct (replace_snapshot _ _) as [c [u|e]] eqn:Eq;
        pose proof (replace_snapshot_inv _ _ _ _ _ _ _ Hinv Hok Eq); eauto.
    + destruct Hok as [_ Hn]. unfold poll_channel.
      destruct (poll_read_half _ _) as [c [ms|e]] eqn:Er;
        destruct (read_half_inv _ _ _ _ _ _ _ Hinv Er) as [Hinv1 Hoff].
      2: { rewrite app_nil_r. eauto. }
      destruct (poll_write_half c a) as [[c2 out] [u|e]] eqn:Ew;
        (eapply (write_half_inv _ (Trace c _ _ _)) in Ew as (? & ? & ?);
          [|done|simpl; by rewrite Hoff]); repeat case_if; eauto.
Qed.

(** C28: whatever the interleaving of queued responses, replaced snapshots and
    polls, and however the stream fragments its writes, the wire carries whole
    frames one after the other, and what is missing of the last one is exactly what
    the channel has still to write of it; the accepted responses are, in the order
    they were accepted, those in the frames and then those in the channel's queue,
    which never holds more than 8; and every other frame is one of the
    snapshots. *)
Theorem channel_fifo limit tr :
  reachable limit tr ->
  exists (frames : list (bool * str)) (queued : list str),
    wire tr ++ unwritten (channel tr) = encodings (map snd frames) /\
    map snd (filter (fun f => fst f = true) frames) ++ queued = accepted tr /\
    map QueuedFrame.content (responses (channel tr)) = map encoding queued /\
    len (responses (channel tr)) <= 8 /\
    Forall (fun f => fst f = false -> snd f ∈ snapshots tr) frames.
Proof.
  intros (frames & pend & _ & Hw & Ha & Hr & Hq & Hf & _)%reachable_inv.
  exists frames, pend. split_and!; [done..|]. eapply Forall_impl; [done|]. naive_solver.
Qed.

(** Nothing accepted is lost when the peer closes.  The channel reports
    [Closed] only once everything it accepted has been written: a peer that
    decodes the whole wire with the same frame limit gets no error, is left
    with no partial frame, and gets every accepted response in order. *)
Theorem channel_closed_drained limit tr (a : @answers E) c out :
  reachable limit tr -> answers_ok (channel tr) a ->
  poll_channel (channel tr) a = (c, out, Ready (Err ServiceError.Closed)) ->
  exists frames : list (bool * str),
    push (mkDecoder [] None limit) (wire tr ++ out) =
      (mkDecoder [] None limit, Ok (map snd frames)) /\
    map snd (filter (fun f => fst f = true) frames) = accepted tr.
Proof.
  intros (frames & pend & Hinv)%reachable_inv [_ Hn]. unfold poll_channel.
  destruct (poll_read_half _ _) as [c1 [ms|e]] eqn:Er;
    destruct (read_half_inv _ _ _ _ _ _ _ Hinv Er) as [Hinv1 Hoff].
  2: { intros [= -> -> ->]. exfalso. revert Er. unfold poll_read_half.
       repeat case_match; congruence. }
  destruct (poll_write_half c1 a) as [[c2 out2] [u|e]] eqn:Ew.
  2: { intros [= -> -> ->]. exfalso. revert Ew. unfold poll_write_half.
       repeat case_match; congruence. }
  eapply (write_half_inv _ (Trace c1 _ _ _)) in Ew as (frames' & pend' & Hinv2);
    [|done|simpl; by rewrite Hoff].
  case_if; [|case_if; congruence]. intros [= -> ->]. clear Hinv Hinv1.
  destruct Hinv2 as (_ & Hw & Ha & Hr & _ & Hf & _). simpl in *.
  unfold unwritten in Hw. unfold is_none, is_some in *.
  destruct (writing c); [done|]. rewrite app_nil_r in Hw.
  destruct (responses c); [|done]. destruct pend'; [|done]. rewrite app_nil_r in Ha.
  exists frames'. split; [|done]. rewrite Hw. apply push_encodings.
  apply Forall_map. eapply Forall_impl; [done|]. naive_solver.
Qed.
End facts.

(** A response and a snapshot queued together, a stream that takes three bytes
    at a time, and a peer that then closes. *)
Definition writes (n : Z) : op := @Poll unit (Answers Pending (Ready (Ok n))).
Definition example_ops : list op :=
  [ReplaceSnapshot #"s"; QueueResponse #"ok"; writes 3; writes 3; writes 3].
Definition example_end : @answers unit := Answers (Ready (Ok [])) (Ready (Ok 2)).
Definition example_start : t := mk (mkDecoder [] None 16) 16 [] None None 0 16 false.
Definition example_trace : trace := fold_left step example_ops (Trace example_start [] [] []).

Lemma example_reachable : @reachable unit 16 example_trace.
Proof.
  unfold example_trace, example_ops. cbn [fold_left].
  do 5 (apply reach_step; [|vm_compute; repeat split; congruence]). by apply reach_new.
Qed.

Lemma channel_fifo_witness :
  exists (frames : list (bool * str)) (queued : list str),
    wire example_trace ++ unwritten (channel example_trace) = encodings (map snd frames) /\
    map snd (filter (fun f => fst f = true) frames) ++ queued = accepted example_trace /\
    map QueuedFrame.content (responses (channel example_trace)) = map encoding queued /\
    len (responses (channel example_trace)) <= 8 /\
    Forall (fun f => fst f = false -> snd f ∈ snapshots example_trace) frames.
Proof. apply (@channel_fifo unit 16), example_reachable. Defined.

Lemma channel_closed_drained_witness :
  exists frames : list (bool * str),
    push (mkDecoder [] None 16) (wire example_trace ++ snd (fst (poll_channel (channel example_trace) example_end))) =
      (mkDecoder [] None 16, Ok (map snd frames)) /\
    map snd (filter (fun f => fst f = true) frames) = accepted example_trace.
Proof.
  eapply (channel_closed_drained 16 example_trace example_end); [apply example_reachable| |vm_compute; reflexivity].
  vm_compute. repeat split; congruence.
Defined.
End ChannelFacts.
