(* ===== verification/Net.v ===== *)
(** IP addresses as the standard library of Rust parses them
    (core::net::parser, used by [str::parse::<IpAddr>()]), and CIDR prefixes.

    An address is its value: 32 bits for IPv4, 128 bits for IPv6. *)
From Stdlib Require Import Strings.Byte.
From S2P Require Import Prelude Text.
#[local] Open Scope Z_scope.

Module IpAddr.
Inductive t := V4 (address : Z) | V6 (address : Z).
#[global] Instance eq_dec : EqDecision t.
Proof. solve_decision. Defined.

Definition is_ipv4 (a : t) : bool := match a with V4 _ => true | V6 _ => false end.

Definition wf (a : t) : Prop :=
  match a with V4 n => 0 <= n <= u32_max | V6 n => 0 <= n <= u128_max end.
End IpAddr.

(** * The parser: each reader takes the rest of the input and gives back what
    it leaves, or fails without consuming anything. *)

(** The digits a number starts with, their value and their count. *)
Fixpoint read_digits (radix : Z) (acc : Z) (count : nat) (p : str) : Z * nat * str :=
  match p with
  | [] => (acc, count, [])
  | b :: rest =>
      match digit_value radix b with
      | Some d => read_digits radix (acc * radix + d) (S count) rest
      | None => (acc, count, p)
      end
  end.

Definition read_number (radix max : Z) (max_digits : nat) (allow_zero_prefix : bool) (p : str)
  : option (Z * str) :=
  let has_leading_zero := bool_decide (head p = Some "0"%byte) in
  let '(value, digit_count, rest) := read_digits radix 0 0 p in
  if (max_digits <? digit_count)%nat then None
  else if (digit_count =? 0)%nat then None
  else if negb allow_zero_prefix && has_leading_zero && (1 <? digit_count)%nat then None
  else if value <=? max then Some (value, rest) else None.

Definition read_given_char (c : byte) (p : str) : option str :=
  match p with
  | b :: rest => if bool_decide (b = c) then Some rest else None
  | [] => None
  end.

Definition read_separator {A} (sep : byte) (index : nat) (inner : str -> option (A * str))
  (p : str) : option (A * str) :=
  match index with
  | O => inner p
  | S _ => rest ← read_given_char sep p; inner rest
  end.

(** [n] dotted decimal groups from group [index] on. *)
Fixpoint read_octets (n index : nat) (acc : Z) (p : str) : option (Z * str) :=
  match n with
  | O => Some (acc, p)
  | S n =>
      '(v, rest) ← read_separator "."%byte index (read_number 10 u8_max 3 false) p;
      read_octets n (S index) (acc * 256 + v) rest
  end.

Definition read_ipv4_addr (p : str) : option (Z * str) := read_octets 4 0 0 p.

(** [read_groups] with [n] groups left from group [index] on: the groups read,
    whether the last two came from an embedded IPv4 address, and the rest. *)
Fixpoint read_groups (n index : nat) (p : str) : list Z * bool * str :=
  match n with
  | O => ([], false, p)
  | S n =>
      match (if (1 <=? n)%nat then read_separator ":"%byte index read_ipv4_addr p else None) with
      | Some (v4, rest) => ([v4 / 65536; v4 mod 65536], true, rest)
      | None =>
          match read_separator ":"%byte index (read_number 16 u16_max 4 true) p with
          | None => ([], false, p)
          | Some (g, rest) =>
              let '(gs, v4, rest) := read_groups n (S index) rest in (g :: gs, v4, rest)
          end
      end
  end.

Fixpoint of_groups (acc : Z) (l : list Z) : Z :=
  match l with [] => acc | g :: l => of_groups (acc * 65536 + g) l end.

Definition read_ipv6_addr (p : str) : option (Z * str) :=
  let '(head, head_ipv4, rest) := read_groups 8 0 p in
  if (length head =? 8)%nat then Some (of_groups 0 head, rest)
  else if head_ipv4 then None
  else
    rest ← read_given_char ":"%byte rest;
    rest ← read_given_char ":"%byte rest;
    let '(tail, _, rest) := read_groups (8 - (length head + 1)) 0 rest in
    Some (of_groups 0 (head ++ replicate (8 - length head - length tail) 0 ++ tail), rest).

(** [str::parse::<IpAddr>()]: the whole input must be consumed. *)
Definition parse_ip (p : str) : option IpAddr.t :=
  match read_ipv4_addr p with
  | Some (v, []) => Some (IpAddr.V4 v)
  | Some _ => None
  | None =>
      match read_ipv6_addr p with
      | Some (v, []) => Some (IpAddr.V6 v)
      | _ => None
      end
  end.

Example parse_v4 : parse_ip #"10.42.0.1" = Some (IpAddr.V4 0x0a2a0001).
Proof. reflexivity. Qed.
Example parse_v4_leading_zero : parse_ip #"10.042.0.1" = None.
Proof. reflexivity. Qed.
Example parse_v6_loopback : parse_ip #"::1" = Some (IpAddr.V6 1).
Proof. reflexivity. Qed.
Example parse_v6_any : parse_ip #"::" = Some (IpAddr.V6 0).
Proof. reflexivity. Qed.
Example parse_v6_mapped : parse_ip #"::ffff:10.0.0.1" = Some (IpAddr.V6 0xffff0a000001).
Proof. reflexivity. Qed.
Example parse_v6_full :
  parse_ip #"2001:db8:0:0:1:0:0:1" = Some (IpAddr.V6 0x20010db8000000000001000000000001).
Proof. reflexivity. Qed.
Example parse_v6_compressed_full : parse_ip #"1:2:3:4:5:6:7::" =
  Some (IpAddr.V6 0x00010002000300040005000600070000).
Proof. reflexivity. Qed.
Example parse_v6_too_long : parse_ip #"1:2:3:4:5:6:7:8::" = None.
Proof. reflexivity. Qed.

(** ** Parsed addresses are in range *)

Lemma read_digits_nonneg radix acc n p : 0 < radix -> 0 <= acc -> 0 <= fst (fst (read_digits radix acc n p)).
Proof.
  intros Hr. revert acc n. induction p as [|b p IH]; intros acc n Ha; simpl; [done|].
  destruct (digit_value radix b) as [d|] eqn:E; [|done].
  apply digit_value_range in E; [|done]. apply IH. nia.
Qed.

Lemma read_number_range radix max n z p v rest :
  0 < radix -> read_number radix max n z p = Some (v, rest) -> 0 <= v <= max.
Proof.
  unfold read_number. intros Hr. pose proof (read_digits_nonneg radix 0 0 p Hr).
  destruct (read_digits radix 0 0 p) as [[w c] r]. simpl in *. repeat case_if; naive_solver lia.
Qed.

Lemma read_separator_inv {A} sep i (f : str -> option (A * str)) p x :
  read_separator sep i f p = Some x -> exists q, f q = Some x.
Proof.
  destruct i; simpl; [eauto|]. destruct (read_given_char sep p); simpl; [eauto|done].
Qed.

Lemma read_octets_range n : forall i acc p v rest,
  0 <= acc -> read_octets n i acc p = Some (v, rest) ->
  0 <= v <= (acc + 1) * 256 ^ Z.of_nat n - 1.
Proof.
  induction n as [|n IH]; intros i acc p v rest Ha.
  - simpl. intros [= <- <-]. lia.
  - cbn [read_octets]. destruct (read_separator _ _ _ _) as [[w r]|] eqn:E; simpl; [|done].
    apply read_separator_inv in E as [q E]. apply read_number_range in E; [|done].
    intros Hv. apply IH in Hv; [|lia]. rewrite Nat2Z.inj_succ, Z.pow_succ_r by lia.
    assert (0 < 256 ^ Z.of_nat n) by (apply Z.pow_pos_nonneg; lia). unfold u8_max in *. nia.
Qed.

Lemma read_ipv4_range p v rest : read_ipv4_addr p = Some (v, rest) -> 0 <= v <= u32_max.
Proof. unfold read_ipv4_addr. intros H%read_octets_range; [|done]. unfold u32_max. lia. Qed.

Lemma read_groups_range n : forall i p gs v4 rest,
  read_groups n i p = (gs, v4, rest) ->
  (length gs <= n)%nat /\ Forall (fun g => 0 <= g <= u16_max) gs.
Proof.
  induction n as [|n IH]; intros i p gs v4 rest; cbn [read_groups].
  - intros [= <- <- <-]. split; [done|constructor].
  - destruct (if (1 <=? n)%nat then _ else None) as [[v r]|] eqn:E4.
    + case_if_in E4; [|done]. apply Nat.leb_le in Heqb.
      apply read_separator_inv in E4 as [q E4]. apply read_ipv4_range in E4.
      intros [= <- <- <-]. split; [simpl; lia|]. unfold u32_max, u16_max in *.
      repeat constructor; try (apply Z.div_pos; lia); try (apply Z.mod_pos_bound; lia);
        Z.to_euclidean_division_equations; lia.
    + clear E4. destruct (read_separator _ _ _ _) as [[g r]|] eqn:Eg;
        [|intros [= <- <- <-]; split; [simpl; lia|constructor]].
      apply read_separator_inv in Eg as [q Eg]. apply read_number_range in Eg; [|done].
      destruct (read_groups n (S i) r) as [[gs' v'] r'] eqn:Er.
      apply IH in Er as [Hl Hf]. intros [= <- <- <-]. simpl. split; [lia|]. by constructor.
Qed.

Lemma of_groups_range l : forall acc,
  0 <= acc -> Forall (fun g => 0 <= g <= u16_max) l ->
  0 <= of_groups acc l <= (acc + 1) * 65536 ^ len l - 1.
Proof.
  induction l as [|g l IH]; intros acc Ha Hf; inversion Hf; subst.
  - change (len (@nil Z)) with 0. simpl. lia.
  - simpl. rewrite len_cons, Z.pow_add_r, Z.pow_1_r by (pose proof (len_nonneg l); lia).
    specialize (IH (acc * 65536 + g)). unfold u16_max in *.
    assert (0 < 65536 ^ len l) by (apply Z.pow_pos_nonneg; pose proof (len_nonneg l); lia).
    specialize (IH ltac:(lia) ltac:(done)). nia.
Qed.

Lemma read_ipv6_range p v rest : read_ipv6_addr p = Some (v, rest) -> 0 <= v <= u128_max.
Proof.
  unfold read_ipv6_addr. destruct (read_groups 8 0 p) as [[hd v4] r] eqn:E.
  apply read_groups_range in E as [Hl Hf].
  assert (Hall : forall l, length l = 8%nat -> Forall (fun g => 0 <= g <= u16_max) l ->
    0 <= of_groups 0 l <= u128_max).
  { intros l Hlen Hall. apply (of_groups_range l 0) in Hall; [|done]. unfold len in Hall.
    rewrite Hlen in Hall. unfold u128_max. simpl in Hall. lia. }
  case_if; [apply Nat.eqb_eq in Heqb; intros [= <- <-]; auto|].
  apply Nat.eqb_neq in Heqb. destruct v4; [done|].
  destruct (read_given_char _ r) as [r1|]; simpl; [|done].
  destruct (read_given_char _ r1) as [r2|]; simpl; [|done].
  destruct (read_groups (8 - (length hd + 1)) 0 r2) as [[tl v5] r3] eqn:E.
  apply read_groups_range in E as [Hl2 Hf2].
  intros [= <- <-]. apply Hall.
  - rewrite !length_app, length_replicate. lia.
  - apply Forall_app; split; [done|]. apply Forall_app; split; [|done].
    apply Forall_replicate. unfold u16_max. lia.
Qed.

Lemma parse_ip_wf p a : parse_ip p = Some a -> IpAddr.wf a.
Proof.
  unfold parse_ip. destruct (read_ipv4_addr p) as [[v [|? ?]]|] eqn:E.
  - intros [= <-]. by eapply read_ipv4_range.
  - done.
  - destruct (read_ipv6_addr p) as [[w [|? ?]]|] eqn:E6; [|done..].
    intros [= <-]. by eapply read_ipv6_range.
Qed.
