(* ===== verification/Config.v ===== *)
(** The configuration of policy-local (modules/policy-local/src/config.rs):
    the options, the rules, and what [validate] accepts.

    TOML parsing is a parameter ([Toml]); the process environment is the
    argument [env] of the functions that read it ([None]: unset or not
    Unicode). *)
From Stdlib Require Import Strings.Byte.
From S2P Require Import Prelude Text Net Frame Accounting Admin.
#[local] Open Scope Z_scope.

Module ConfigError.
Inductive t := Utf8 | Toml | Invalid (reason : str) | Secret.
#[global] Instance eq_dec : EqDecision t.
Proof. solve_decision. Defined.
End ConfigError.

Definition valid_domain (domain : str) : bool :=
  negb (bool_decide (domain = [])) && (len domain <=? 253) && is_ascii domain
  && forallb valid_label (split_byte "."%byte domain).

Definition valid_cidr (cidr : str) : bool :=
  match split_once "/"%byte cidr with
  | None => false
  | Some (address, prefix) =>
      match parse_ip address, parse_uint u8_max prefix with
      | Some (IpAddr.V4 _), Some prefix => prefix <=? 32
      | Some (IpAddr.V6 _), Some prefix => prefix <=? 128
      | _, _ => false
      end
  end.

Definition valid_name (name : str) : bool :=
  negb (bool_decide (name = [])) && (len name <=? 128)
  && forallb (fun b => is_ascii_alphanumeric b || bool_decide (b = "_"%byte)) name.

Module SecretSource.
Inductive t := Toml (value : str) | Env (name : str).

Definition resolve (env : str -> option str) (s : t) : result ConfigError.t str :=
  match s with
  | Toml value => Ok value
  | Env name => if valid_name name then ok_or (env name) ConfigError.Secret
                else Err ConfigError.Secret
  end.
End SecretSource.

Module ClientOptions.
Record t := mk { credential : SecretSource.t }.
End ClientOptions.

Module CredentialTransport.
Inductive t := Protected.
End CredentialTransport.

Module UnknownAction.
Inductive t := Allow | Deny.
#[global] Instance eq_dec : EqDecision t.
Proof. solve_decision. Defined.
End UnknownAction.

Module StorageOptions.
Record t := mk {
  path : str;
  cache_bytes : Z;
  max_database_bytes : Z;
  queue_capacity : Z;
  accounting_block_bytes : Z;
  batch_max_delay_ms : Z;
}.
End StorageOptions.

Module GlobalRate.
Inductive t := Unlimited | Limited (bytes_per_second burst_bytes : Z).
End GlobalRate.

Module Action.
Inductive t := Allow | Deny.
#[global] Instance eq_dec : EqDecision t.
Proof. solve_decision. Defined.
End Action.

Module Direction.
Inductive t := Upload | Download | Both.
#[global] Instance eq_dec : EqDecision t.
Proof. solve_decision. Defined.
End Direction.

Module ObservedProtocol.
Inductive t := Tls | Http | Ssh | Quic | Unknown | Any.
#[global] Instance eq_dec : EqDecision t.
Proof. solve_decision. Defined.
End ObservedProtocol.

Module RuleEntry.
Record t := mk {
  action : Action.t;
  direction : Direction.t;
  protocol : ObservedProtocol.t;
  unavailable : Action.t;
  cidr : option str;
  port : option Z;
  domain_exact : option str;
  domain_suffix : option str;
  tls_sni : option str;
  http_host : option str;
  user_group : option str;
}.
#[global] Instance eq_dec : EqDecision t.
Proof. solve_decision. Defined.
End RuleEntry.

Module Rules.
Record t := mk { terminal : Action.t; entries : list RuleEntry.t }.

(** The condition of the [if] in [Rules::validate]. *)
Definition invalid_entry (entry : RuleEntry.t) : bool :=
  bool_decide (RuleEntry.port entry = Some 0)
  || is_some_and (RuleEntry.cidr entry) (fun cidr => negb (valid_cidr cidr))
  || is_some_and (RuleEntry.domain_exact entry) (fun domain => negb (valid_domain domain))
  || is_some_and (RuleEntry.domain_suffix entry) (fun domain => negb (valid_domain domain))
  || is_some_and (RuleEntry.tls_sni entry) (fun domain => negb (valid_domain domain))
  || is_some_and (RuleEntry.http_host entry) (fun domain => negb (valid_domain domain))
  || is_some_and (RuleEntry.user_group entry)
       (fun group => bool_decide (group = []) || (64 <? len group))
  || (is_some (RuleEntry.tls_sni entry)
      && negb (bool_decide (RuleEntry.protocol entry = ObservedProtocol.Tls)
               || bool_decide (RuleEntry.protocol entry = ObservedProtocol.Any)))
  || (is_some (RuleEntry.http_host entry)
      && negb (bool_decide (RuleEntry.protocol entry = ObservedProtocol.Http)
               || bool_decide (RuleEntry.protocol entry = ObservedProtocol.Any)))
  || (is_some (RuleEntry.tls_sni entry) && is_some (RuleEntry.http_host entry)).

Definition validate (r : t) : result ConfigError.t unit :=
  if existsb invalid_entry (entries r) then Err (ConfigError.Invalid #"rule is invalid")
  else Ok tt.
End Rules.

Module Options.
Record t := mk {
  server_id : str;
  credential_transport : CredentialTransport.t;
  max_cached_users : Z;
  max_admin_clients : Z;
  max_control_frame_bytes : Z;
  status_interval_ms : Z;
  control_grace_ms : Z;
  sniff_bytes : Z;
  sniff_timeout_ms : Z;
  on_unknown_protocol : UnknownAction.t;
  checkpoint_interval_ms : Z;
  storage : StorageOptions.t;
  global_rate : GlobalRate.t;
  rules : Rules.t;
  client : option ClientOptions.t;
}.

Definition lower_hex (byte : byte) : bool := is_ascii_digit byte || between 97 102 (u8 byte).

(** The last check of [validate]. *)
Definition validate_client (env : str -> option str) (client : option ClientOptions.t)
  : result ConfigError.t unit :=
  match client with
  | None => Ok tt
  | Some client =>
      credential ← SecretSource.resolve env (ClientOptions.credential client);
      if negb (len credential =? 64) || negb (forallb lower_hex credential)
      then Err ConfigError.Secret else Ok tt
  end.

Definition validate (env : str -> option str) (o : t) : result ConfigError.t unit :=
  if bool_decide (server_id o = []) || (128 <? len (server_id o))
  then Err (ConfigError.Invalid #"server_id is invalid")
  else if (max_cached_users o =? 0) || (max_admin_clients o =? 0)
     || (max_control_frame_bytes o =? 0) || (65536 <? max_control_frame_bytes o)
     || (status_interval_ms o =? 0) || (control_grace_ms o =? 0)
     || (sniff_bytes o =? 0) || (16384 <? sniff_bytes o) || (sniff_timeout_ms o =? 0)
     || (checkpoint_interval_ms o =? 0) || (86400000 <? checkpoint_interval_ms o)
  then Err (ConfigError.Invalid #"policy limits are inconsistent")
  else if (StorageOptions.cache_bytes (storage o) =? 0)
     || (StorageOptions.max_database_bytes (storage o) =? 0)
     || (StorageOptions.queue_capacity (storage o) =? 0)
     || (StorageOptions.accounting_block_bytes (storage o) =? 0)
     || (StorageOptions.batch_max_delay_ms (storage o) =? 0)
  then Err (ConfigError.Invalid #"storage limits are inconsistent")
  else if (match global_rate o with
           | GlobalRate.Limited bytes_per_second burst_bytes =>
               (bytes_per_second =? 0) || (burst_bytes <? 65507)
           | GlobalRate.Unlimited => false
           end)
  then Err (ConfigError.Invalid #"global rate is inconsistent")
  else
    _ ← Rules.validate (rules o);
    validate_client env (client o).

(** [Path::join] on Unix. *)
Definition path_join (base path : str) : str :=
  if path_is_absolute path then path
  else if bool_decide (base = []) || ends_with base #"/" then base ++ path
  else base ++ #"/" ++ path.

Definition with_path (o : t) (path : str) : t :=
  let s := storage o in
  mk (server_id o) (credential_transport o) (max_cached_users o) (max_admin_clients o)
    (max_control_frame_bytes o) (status_interval_ms o) (control_grace_ms o) (sniff_bytes o)
    (sniff_timeout_ms o) (on_unknown_protocol o) (checkpoint_interval_ms o)
    (StorageOptions.mk path (StorageOptions.cache_bytes s) (StorageOptions.max_database_bytes s)
      (StorageOptions.queue_capacity s) (StorageOptions.accounting_block_bytes s)
      (StorageOptions.batch_max_delay_ms s))
    (global_rate o) (rules o) (client o).

Definition parse `{Toml t} (env : str -> option str) (input : bytes) (base : str)
  : result ConfigError.t t :=
  input ← ok_or (from_utf8 input) ConfigError.Utf8;
  options ← ok_or (toml_from_str input) ConfigError.Toml;
  let path := StorageOptions.path (storage options) in
  let options := if negb (path_is_absolute path)
                 then with_path options (path_join base path) else options in
  _ ← validate env options;
  Ok options.
End Options.

(** * Validated options are usable *)

Lemma lower_hex_nibble b :
  Options.lower_hex b = true -> (u8 b <? 128) = true /\ exists v, decode_nibble b = Ok v /\ 0 <= v < 16.
Proof.
  unfold Options.lower_hex, decode_nibble, is_ascii_digit, between. intros H.
  destruct ((48 <=? u8 b) && (u8 b <=? 57)) eqn:E1; bools.
  - split; [apply Z.ltb_lt; lia|]. eexists; split; [done|lia].
  - simpl in H. rewrite H. bools. split; [apply Z.ltb_lt; lia|]. eexists; split; [done|lia].
Qed.

Lemma lower_hex_decodes n s :
  len s = Z.of_nat n * 2 -> forallb Options.lower_hex s = true -> is_ok (decode_hex n s) = true.
Proof.
  intros Hl Hh. unfold decode_hex. rewrite Hl, Z.eqb_refl. simpl.
  assert (is_ascii s = true) as ->.
  { unfold is_ascii. rewrite forallb_forall in *. intros b Hb. by apply lower_hex_nibble, Hh. }
  simpl. revert n Hl Hh. induction s as [|x|x y s IH] using pairs_ind; intros n Hl Hh; [done| |].
  - unfold len in Hl; simpl in Hl; lia.
  - simpl in Hh. bools. destruct (lower_hex_nibble x) as (_ & v & Ex & ?); [done|].
    destruct (lower_hex_nibble y) as (_ & w & Ey & ?); [done|].
    simpl. rewrite Ex. simpl. rewrite Ey. simpl. unfold checked_mul, checked_add.
    rewrite (proj2 (Z.leb_le _ _)) by ints. simpl. rewrite (proj2 (Z.leb_le _ _)) by ints.
    assert (is_ok (decode_pairs s) = true).
    { apply (IH (Nat.pred n)); [|done]. rewrite !len_cons in Hl. pose proof (len_nonneg s).
      destruct n; lia. }
    by destruct (decode_pairs s).
Qed.

(** A configuration that validates cannot make the start of the module
    fail later on for its values: the receipt sequencer, the frame decoder of
    a session, the global token bucket and a fresh unlimited quota account can
    all be built from it, every CIDR of its rules is well formed, and the
    client credential it names decodes to 32 bytes. *)
Theorem validated_options_usable env o :
  Options.validate env o = Ok tt ->
  is_ok (AdminSequencer.new (Options.max_admin_clients o)) = true /\
  is_ok (Frame.new (Options.max_control_frame_bytes o)) = true /\
  is_ok (QuotaAccount.new None 0
    (StorageOptions.accounting_block_bytes (Options.storage o))) = true /\
  (forall rate burst, Options.global_rate o = GlobalRate.Limited rate burst ->
     is_ok (TokenBucket.new rate burst 0) = true) /\
  (forall e c, e ∈ Rules.entries (Options.rules o) -> RuleEntry.cidr e = Some c ->
     valid_cidr c = true) /\
  (forall c, Options.client o = Some c ->
     exists secret, SecretSource.resolve env (ClientOptions.credential c) = Ok secret /\
       is_ok (Credential.parse_hex secret) = true).
Proof.
  unfold Options.validate.
  case_if; [done|]. case_if; [done|]. case_if; [done|]. case_if; [done|].
  intros ([] & Hr & Hc)%bind_Ok. bools.
  unfold AdminSequencer.new, Frame.new, QuotaAccount.new, TokenBucket.new.
  split_and!.
  - by rewrite (proj2 (Z.eqb_neq _ _)).
  - by rewrite (proj2 (Z.eqb_neq _ _)).
  - by rewrite (proj2 (Z.eqb_neq _ _)).
  - intros rate burst E. rewrite E in *. bools. by rewrite !(proj2 (Z.eqb_neq _ _)) by lia.
  - intros e c He Hcidr. unfold Rules.validate in Hr. case_if_in Hr; [done|].
    destruct (valid_cidr c) eqn:Ev; [done|]. exfalso.
    match goal with H : existsb _ _ = false |- _ => apply not_true_iff_false in H; apply H end.
    apply existsb_exists. exists e. split; [by apply list_elem_of_In|].
    unfold Rules.invalid_entry. rewrite Hcidr. simpl. rewrite Ev. simpl.
    by rewrite orb_true_r.
  - intros c E. rewrite E in Hc. simpl in Hc. apply bind_Ok in Hc as (secret & Hs & Hc).
    case_if_in Hc; [done|]. bools. exists secret. split; [done|]. by apply lower_hex_decodes.
Qed.

Definition example_options : Options.t :=
  Options.mk #"server" CredentialTransport.Protected 16 4 4096 1000 1000 4096 1000
    UnknownAction.Allow 60000 (StorageOptions.mk #"/var/policy.redb" 65536 1048576 16 4096 10)
    (GlobalRate.Limited 1000 65507)
    (Rules.mk Action.Allow
      [RuleEntry.mk Action.Deny Direction.Upload ObservedProtocol.Any Action.Deny
         (Some #"10.0.0.0/8") None None None None None None])
    (Some (ClientOptions.mk (SecretSource.Env #"SNOLC_CREDENTIAL"))).

Definition example_env (name : str) : option str :=
  if bool_decide (name = #"SNOLC_CREDENTIAL")
  then Some (concat (replicate 32 #"0a")) else None.

Lemma validated_options_usable_witness :
  exists secret, SecretSource.resolve example_env (SecretSource.Env #"SNOLC_CREDENTIAL") = Ok secret /\
    is_ok (Credential.parse_hex secret) = true.
Proof.
  apply (validated_options_usable example_env example_options
    ltac:(vm_compute; reflexivity)) with (c := ClientOptions.mk (SecretSource.Env #"SNOLC_CREDENTIAL")).
  reflexivity.
Defined.
