(* ===== verification/Storage.v ===== *)
(** The storage worker of policy-local (modules/policy-local/src/storage.rs):
    a thread that owns the database and serves a bounded queue of commands.

    The redb crate is a parameter: the class [Redb] has the calls the source
    makes (a read or write transaction with its table open, the table
    operations, the commit) and what its documentation promises of them.  Every
    call may fail.  The worker thread and its client interleave freely: a
    command carries the number of its one-shot reply channel. *)
From Stdlib Require Import Strings.Byte Sorting.Sorted.
From S2P Require Import Prelude Text Admin.
#[local] Open Scope Z_scope.

Module StorageError.
Inductive t := Invalid | QueueFull | Stopped | Limit | Permissions | Io (error : str)
| Database (error : str).
#[global] Instance eq_dec : EqDecision t.
Proof. solve_decision. Defined.
End StorageError.

(** The order of Rust strings: bytewise lexicographic. *)
Fixpoint lex_lt (a b : bytes) : Prop :=
  match a, b with
  | _, [] => False
  | [], _ :: _ => True
  | x :: a, y :: b => u8 x < u8 y \/ x = y /\ lex_lt a b
  end.
Definition lex_le (a b : bytes) : Prop := lex_lt a b \/ a = b.

#[export] Instance lex_lt_dec : RelDecision lex_lt.
Proof.
  unfold RelDecision, Decision. refine (fix go a b := _). destruct a as [|x a], b as [|y b]; simpl.
  - right. tauto.
  - left. done.
  - right. tauto.
  - destruct (decide (u8 x < u8 y)); [left; tauto|].
    destruct (decide (x = y)); [|right; tauto]. destruct (go a b); [left; tauto|right; tauto].
Defined.
#[export] Instance lex_le_dec : RelDecision lex_le.
Proof. intros a b. unfold lex_le. apply _. Defined.

Lemma lex_lt_trans a b c : lex_lt a b -> lex_lt b c -> lex_lt a c.
Proof.
  revert b c. induction a as [|x a IH]; intros [|y b] [|z c]; simpl; try tauto.
  intros [?|[-> ?]] [?|[-> ?]]; [left; lia|tauto..|]. right. eauto.
Qed.

Lemma lex_lt_irrefl a : ~ lex_lt a a.
Proof. induction a as [|x a IH]; simpl; [tauto|]. intros [?|[_ ?]]; [lia|tauto]. Qed.

Lemma lex_total a b : lex_lt a b \/ a = b \/ lex_lt b a.
Proof.
  revert b. induction a as [|x a IH]; intros [|y b]; simpl; auto.
  destruct (Z.lt_trichotomy (u8 x) (u8 y)) as [?|[?%(inj u8)|?]]; auto.
  subst. destruct (IH b) as [?|[->|?]]; auto.
Qed.

(** * The interface of redb *)
Class Redb := {
  database : Type;
  read_table : Type;
  write_table : Type;
  begin_read : database -> result str read_table;
  table_get : read_table -> str -> result str (option bytes);
  table_range : read_table -> str -> str -> result str (list (result str (str * bytes)));
  begin_write : database -> result str write_table;
  table_insert : write_table -> str -> bytes -> result str write_table;
  table_remove : write_table -> str -> result str write_table;
  commit : database -> write_table -> database * result str unit;
  (** The committed table, and the tables the transactions see. *)
  committed : database -> gmap str bytes;
  snapshot : read_table -> gmap str bytes;
  pending : write_table -> gmap str bytes;
  begin_read_ok d t : begin_read d = Ok t -> snapshot t = committed d;
  table_get_ok t k v : table_get t k = Ok v -> v = snapshot t !! k;
  (** A range iterates over the entries in key order; an item may fail. *)
  table_range_ok t lo hi items : table_range t lo hi = Ok items ->
    exists l, Forall2 (fun item e => item = Ok e \/ exists err, item = Err err) items l /\
      StronglySorted (fun a b => lex_lt (fst a) (fst b)) l /\
      forall k v, (k, v) ∈ l <-> snapshot t !! k = Some v /\ lex_le lo k /\ lex_lt k hi;
  begin_write_ok d t : begin_write d = Ok t -> pending t = committed d;
  table_insert_ok t k v t' : table_insert t k v = Ok t' -> pending t' = <[k := v]> (pending t);
  table_remove_ok t k t' : table_remove t k = Ok t' -> pending t' = base.delete k (pending t);
  (** A transaction is all or nothing, and a successful commit is visible. *)
  commit_ok d t d' : commit d t = (d', Ok tt) -> committed d' = pending t;
  commit_err d t d' e : commit d t = (d', Err e) ->
    committed d' = committed d \/ committed d' = pending t;
}.

(** * Keys *)

Definition PREFIXES : list str := [ #"meta/"; #"user/"; #"credential/"; #"client/"].

Definition validate_key (key : str) : result StorageError.t unit :=
  if bool_decide (key = []) || (512 <? len key)
     || negb (existsb (fun prefix => starts_with key prefix) PREFIXES)
  then Err StorageError.Invalid else Ok tt.

Definition validate_prefix (prefix : str) : result StorageError.t unit :=
  if bool_decide (prefix ∈ PREFIXES) then Ok tt else Err StorageError.Invalid.

(** [checked_add(1)] on the last byte. *)
Definition bump_last (b : bytes) : option bytes :=
  match rev b with
  | [] => None
  | last :: init =>
      v ← checked_add u8_max (u8 last) 1; Some (rev (to_u8 v :: init))
  end.

Definition prefix_end (prefix : str) : result StorageError.t str :=
  _ ← validate_prefix prefix;
  b ← ok_or (bump_last prefix) StorageError.Invalid;
  ok_or (from_utf8 b) StorageError.Invalid.

(** * One command on the database *)
Section values.
Context `{Redb}.

Definition db_error {A} (r : result str A) : result StorageError.t A :=
  map_err StorageError.Database r.

Definition get_value (d : database) (key : str) : result StorageError.t (option bytes) :=
  table ← db_error (begin_read d);
  db_error (table_get table key).

Definition put_value (d : database) (key : str) (value : bytes)
  : database * result StorageError.t unit :=
  match db_error (begin_write d) with
  | Err e => (d, Err e)
  | Ok table =>
      match db_error (table_insert table key value) with
      | Err e => (d, Err e)
      | Ok table => let '(d, r) := commit d table in (d, db_error r)
      end
  end.

Definition delete_value (d : database) (key : str) : database * result StorageError.t unit :=
  match db_error (begin_write d) with
  | Err e => (d, Err e)
  | Ok table =>
      match db_error (table_remove table key) with
      | Err e => (d, Err e)
      | Ok table => let '(d, r) := commit d table in (d, db_error r)
      end
  end.

(** The loop of [apply_values]. *)
Fixpoint apply_changes (table : write_table) (changes : list (str * option bytes))
  : result StorageError.t write_table :=
  match changes with
  | [] => Ok table
  | (key, Some value) :: changes =>
      table ← db_error (table_insert table key value); apply_changes table changes
  | (key, None) :: changes =>
      table ← db_error (table_remove table key); apply_changes table changes
  end.

Definition apply_values (d : database) (changes : list (str * option bytes))
  : database * result StorageError.t unit :=
  match db_error (begin_write d) with
  | Err e => (d, Err e)
  | Ok table =>
      match apply_changes table changes with
      | Err e => (d, Err e)
      | Ok table => let '(d, r) := commit d table in (d, db_error r)
      end
  end.

(** The loop of [scan_values]. *)
Fixpoint scan_entries (limit : Z) (output : list (str * bytes))
  (entries : list (result str (str * bytes))) : result StorageError.t (list (str * bytes)) :=
  match entries with
  | [] => Ok output
  | entry :: entries =>
      if len output =? limit then Err StorageError.Limit
      else e ← db_error entry; scan_entries limit (output ++ [e]) entries
  end.

Definition scan_values (d : database) (prefix : str) (limit : Z)
  : result StorageError.t (list (str * bytes)) :=
  table ← db_error (begin_read d);
  end_ ← prefix_end prefix;
  entries ← db_error (table_range table prefix end_);
  scan_entries limit [] entries.
End values.

(** * The worker and its queue *)

(** [response] is the number of the one-shot channel the answer goes to. *)
Module Command.
Inductive t :=
| Get (key : str) (response : nat)
| Put (key : str) (value : bytes) (response : nat)
| Delete (key : str) (response : nat)
| Apply (changes : list (str * option bytes)) (response : nat)
| Scan (prefix : str) (limit : Z) (response : nat)
| Backup (destination : str) (response : nat)
| Stop (response : nat).

Definition response (c : t) : nat :=
  match c with
  | Get _ r | Put _ _ r | Delete _ r | Apply _ r | Scan _ _ r | Backup _ r | Stop r => r
  end.
End Command.

Module Reply.
Inductive t :=
| Read (value : result StorageError.t (option bytes))
| Write (value : result StorageError.t unit)
| Scanned (value : result StorageError.t (list (str * bytes)))
| Stopped.
End Reply.

Module StorageWorker.
Section worker.
Context `{Redb}.

(** The client's handle ([stopping], [joined] for a [worker] that was taken),
    the channel of commands ([queue], [capacity], [running] while the receiver
    is alive), the reply channels, and the thread's database. *)
Record t := mk {
  stopping : option nat;
  joined : bool;
  queue : list Command.t;
  capacity : Z;
  running : bool;
  next_response : nat;
  replies : gmap nat Reply.t;
  db : option database;
}.

(** [open] once the path is prepared and the database opened. *)
Definition open (d : database) (cache_bytes max_database_bytes queue_capacity : Z)
  : result StorageError.t t :=
  if (cache_bytes =? 0) || (max_database_bytes =? 0) || (queue_capacity =? 0)
  then Err StorageError.Invalid
  else Ok (mk None false [] queue_capacity true 0 ∅ (Some d)).

Definition set_queue (w : t) q := mk (stopping w) (joined w) q (capacity w) (running w)
  (next_response w) (replies w) (db w).
Definition set_stopping (w : t) s := mk s (joined w) (queue w) (capacity w) (running w)
  (next_response w) (replies w) (db w).
Definition set_joined (w : t) := mk (stopping w) true (queue w) (capacity w) (running w)
  (next_response w) (replies w) (db w).
Definition set_db (w : t) d := mk (stopping w) (joined w) (queue w) (capacity w) (running w)
  (next_response w) (replies w) d.

(** [sync_channel(1)]: a fresh reply channel. *)
Definition fresh (w : t) : t * nat :=
  (mk (stopping w) (joined w) (queue w) (capacity w) (running w) (S (next_response w))
     (replies w) (db w), next_response w).

Definition send (w : t) (command : Command.t) : t * result StorageError.t unit :=
  if is_some (stopping w) then (w, Err StorageError.Stopped)
  else if negb (running w) then (w, Err StorageError.Stopped)
  else if capacity w <=? len (queue w) then (w, Err StorageError.QueueFull)
  else (set_queue w (queue w ++ [command]), Ok tt).

(** [let (sender, receiver) = sync_channel(1); self.send(..)?; Ok(receiver)]. *)
Definition request (w : t) (command : nat -> Command.t) : t * result StorageError.t nat :=
  let '(w, response) := fresh w in
  match send w (command response) with
  | (w, Err e) => (w, Err e)
  | (w, Ok _) => (w, Ok response)
  end.

Definition get (w : t) (key : str) : t * result StorageError.t nat :=
  match validate_key key with
  | Err e => (w, Err e)
  | Ok _ => request w (Command.Get key)
  end.

Definition put (w : t) (key : str) (value : bytes) : t * result StorageError.t nat :=
  match validate_key key with
  | Err e => (w, Err e)
  | Ok _ => request w (Command.Put key value)
  end.

Definition delete (w : t) (key : str) : t * result StorageError.t nat :=
  match validate_key key with
  | Err e => (w, Err e)
  | Ok _ => request w (Command.Delete key)
  end.

Definition apply (w : t) (changes : list (str * option bytes)) : t * result StorageError.t nat :=
  if bool_decide (changes = []) then (w, Err StorageError.Invalid)
  else if negb (forallb (fun c => is_ok (validate_key (fst c))) changes)
  then (w, Err StorageError.Invalid)
  else request w (Command.Apply changes).

Definition scan (w : t) (prefix : str) (limit : Z) : t * result StorageError.t nat :=
  match validate_prefix prefix with
  | Err e => (w, Err e)
  | Ok _ => if limit =? 0 then (w, Err StorageError.Invalid)
            else request w (Command.Scan prefix limit)
  end.

Definition backup (w : t) (destination : str) : t * result StorageError.t nat :=
  if negb (path_is_absolute destination) then (w, Err StorageError.Invalid)
  else request w (Command.Backup destination).

Definition start_shutdown (w : t) : t * result StorageError.t unit :=
  if is_some (stopping w) then (w, Ok tt)
  else match request w Command.Stop with
  | (w, Err e) => (w, Err e)
  | (w, Ok reply) => (set_stopping w (Some reply), Ok tt)
  end.

(** [Receiver::try_recv]: [Pending] is [Empty], [Ready None] is
    [Disconnected] (the sending half is gone without an answer). *)
Definition try_recv (w : t) (response : nat) : t * poll (option Reply.t) :=
  match replies w !! response with
  | Some r => (mk (stopping w) (joined w) (queue w) (capacity w) (running w)
                 (next_response w) (base.delete response (replies w)) (db w), Ready (Some r))
  | None =>
      if existsb (fun c => Nat.eqb (Command.response c) response) (queue w) then (w, Pending)
      else (w, Ready None)
  end.

Definition poll_shutdown (w : t) : t * result StorageError.t bool :=
  match start_shutdown w with
  | (w, Err e) => (w, Err e)
  | (w, Ok _) =>
      match stopping w with
      | None => (w, Err StorageError.Stopped)
      | Some stop =>
          match try_recv w stop with
          | (w, Ready (Some _)) => (set_joined (set_stopping w None), Ok true)
          | (w, Pending) => (w, Ok false)
          | (w, Ready None) => (w, Err StorageError.Stopped)
          end
      end
  end.

(** ** The thread *)

Definition answer (w : t) (command : Command.t) (d : option database) (r : Reply.t) : t :=
  mk (stopping w) (joined w) (queue w) (capacity w) (running w) (next_response w)
    (<[Command.response command := r]> (replies w)) d.

(** Leaving the loop drops the database and the receiver with what is still
    queued. *)
Definition leave (w : t) : t :=
  mk (stopping w) (joined w) [] (capacity w) false (next_response w) (replies w) None.

(** One iteration of the [while] loop of [run], when a command is there.  What
    the copy of the closed file and the reopening of the database answer to a
    [Backup] is an argument. *)
Definition run_step (copied : result StorageError.t unit)
  (reopened : result StorageError.t database) (w : t) : t :=
  match running w, queue w, db w with
  | true, command :: rest, Some open =>
      let w := set_queue w rest in
      match command with
      | Command.Get key _ => answer w command (Some open) (Reply.Read (get_value open key))
      | Command.Put key value _ =>
          let '(d, r) := put_value open key value in answer w command (Some d) (Reply.Write r)
      | Command.Delete key _ =>
          let '(d, r) := delete_value open key in answer w command (Some d) (Reply.Write r)
      | Command.Apply changes _ =>
          let '(d, r) := apply_values open changes in answer w command (Some d) (Reply.Write r)
      | Command.Scan prefix limit _ =>
          answer w command (Some open) (Reply.Scanned (scan_values open prefix limit))
      | Command.Backup _ _ =>
          match reopened with
          | Ok d => answer w command (Some d) (Reply.Write copied)
          | Err e => leave (answer w command None (Reply.Write (Err e)))
          end
      | Command.Stop _ => leave (answer w command None Reply.Stopped)
      end
  | _, _, _ => w
  end.
End worker.
End StorageWorker.

(** * The file backend given to redb *)
Module LockedFileBackend.

Inductive IoError := FileTooLarge | UnexpectedEof | WriteZero | Os (error : str).
Inductive BackendError := Unsupported | BackendIo (error : IoError).
Inductive Bound := Included (n : Z) | Excluded (n : Z) | Unbounded.

#[global] Instance Bound_eq_dec : EqDecision Bound.
Proof. solve_decision. Defined.

(** The open file's content is part of the state. *)
Record t := mk { file : bytes; max_bytes : Z; locked : bool }.

(** What the operating system answers to one positional read or write. *)
Inductive transfer := Transferred (n : Z) | Interrupted | Failed (error : str).

(** Bytes [offset..offset + len chunk] of the file become [chunk]; a gap reads
    as zeros. *)
Definition splice (f : bytes) (offset : nat) (chunk : bytes) : bytes :=
  take offset f ++ replicate (offset - length f) x00 ++ chunk ++ drop (offset + length chunk) f.

(** [write_all_at]: [None] when the answers run out before it returns. *)
Fixpoint write_all_at (answers : list transfer) (f : bytes) (offset : Z) (data : bytes)
  : bytes * option (result IoError unit) :=
  match data with
  | [] => (f, Some (Ok tt))
  | _ =>
      match answers with
      | [] => (f, None)
      | Transferred n :: answers =>
          if n =? 0 then (f, Some (Err WriteZero))
          else write_all_at answers (splice f (Z.to_nat offset) (take (Z.to_nat n) data))
                 (offset + n) (drop (Z.to_nat n) data)
      | Interrupted :: answers => write_all_at answers f offset data
      | Failed e :: _ => (f, Some (Err (Os e)))
      end
  end.

(** [read_exact_at] for [n] bytes; [output] is what was read so far. *)
Fixpoint read_exact_at (answers : list transfer) (f : bytes) (offset n : Z) (output : bytes)
  : option (result IoError bytes) :=
  if n =? 0 then Some (Ok output)
  else match answers with
  | [] => None
  | Transferred k :: answers =>
      if k =? 0 then Some (Err UnexpectedEof)
      else read_exact_at answers f (offset + k) (n - k)
             (output ++ take (Z.to_nat k) (drop (Z.to_nat offset) f))
  | Interrupted :: answers => read_exact_at answers f offset n output
  | Failed e :: _ => Some (Err (Os e))
  end.

(** [open], once the file is opened with private permissions. *)
Definition open (private : bool) (content : bytes) (max_bytes : Z) : result StorageError.t t :=
  if negb private then Err StorageError.Permissions
  else if max_bytes <? len content then Err StorageError.Limit
  else Ok (mk content max_bytes false).

Definition whole_range (start end_ : Bound) : bool :=
  (bool_decide (start = Unbounded) || bool_decide (start = Included 0))
  && bool_decide (end_ = Unbounded).

Definition check_end (b : t) (offset length : Z) : result IoError unit :=
  match checked_add u64_max offset length with
  | None => Err FileTooLarge
  | Some end_ => if max_bytes b <? end_ then Err FileTooLarge else Ok tt
  end.

Definition file_len (b : t) : Z := len (file b).

Definition read (b : t) (answers : list transfer) (offset n : Z) : option (result IoError bytes) :=
  read_exact_at answers (file b) offset n [].

(** [File::set_len] truncates or extends with zeros; [os] is its answer. *)
Definition set_len (b : t) (os : result IoError unit) (length : Z) : t * result IoError unit :=
  match check_end b 0 length with
  | Err e => (b, Err e)
  | Ok _ =>
      match os with
      | Err e => (b, Err e)
      | Ok _ =>
          let n := Z.to_nat length in
          (mk (take n (file b) ++ replicate (n - List.length (file b)) x00) (max_bytes b) (locked b),
           Ok tt)
      end
  end.

Definition write (b : t) (answers : list transfer) (offset : Z) (data : bytes)
  : t * option (result IoError unit) :=
  match check_end b offset (len data) with
  | Err e => (b, Some (Err e))
  | Ok _ =>
      let '(f, r) := write_all_at answers (file b) offset data in
      (mk f (max_bytes b) (locked b), r)
  end.

(** [try_lock_range] and [try_lock_shared_range]; [os] is what the file lock
    answers ([false]: would block). *)
Definition try_lock_range (b : t) (os : result IoError bool) (start end_ : Bound)
  : t * result BackendError bool :=
  if negb (whole_range start end_) then (b, Err Unsupported)
  else match os with
  | Ok true => (mk (file b) (max_bytes b) true, Ok true)
  | Ok false => (b, Ok false)
  | Err e => (b, Err (BackendIo e))
  end.
Definition try_lock_shared_range := try_lock_range.

(** The result also says whether the file lock was released. *)
Definition unlock_range (b : t) (os : result IoError unit) (start end_ : Bound)
  : t * bool * result BackendError unit :=
  if negb (whole_range start end_) then (b, false, Err Unsupported)
  else
    let unlocked := mk (file b) (max_bytes b) false in
    if locked b then (unlocked, true, map_err BackendIo os) else (unlocked, false, Ok tt).

Definition close (b : t) (os : result IoError unit) : t * bool * result IoError unit :=
  let unlocked := mk (file b) (max_bytes b) false in
  if locked b then (unlocked, true, os) else (unlocked, false, Ok tt).

(** ** Properties *)

Lemma length_splice f o c :
  length (splice f o c) = Nat.max (length f) (o + length c).
Proof.
  unfold splice. rewrite !length_app, length_take, length_replicate, length_drop. lia.
Qed.

(** The operating system transfers no more than it is given. *)
Fixpoint transfers_ok (answers : list transfer) (n : Z) : Prop :=
  match answers with
  | [] => True
  | Transferred k :: answers => 0 <= k <= n /\ transfers_ok answers (n - k)
  | _ :: answers => transfers_ok answers n
  end.

Lemma lookup_splice f o c i :
  splice f o c !! i =
  if (i <? o)%nat then (if (i <? length f)%nat then f !! i else Some x00)
  else if (i <? o + length c)%nat then c !! (i - o)%nat else f !! i.
Proof.
  unfold splice. destruct (i <? o)%nat eqn:E1; [apply Nat.ltb_lt in E1|apply Nat.ltb_ge in E1].
  - destruct (i <? length f)%nat eqn:E2; [apply Nat.ltb_lt in E2|apply Nat.ltb_ge in E2].
    + rewrite lookup_app_l, lookup_take_lt by (rewrite ?length_take; lia). done.
    + rewrite lookup_app_r, length_take by (rewrite length_take; lia).
      rewrite lookup_app_l by (rewrite length_replicate; lia).
      apply lookup_replicate_2. lia.
  - rewrite app_assoc, lookup_app_r by (rewrite length_app, length_take, length_replicate; lia).
    rewrite length_app, length_take, length_replicate.
    replace (i - (o `min` length f + (o - length f)))%nat with (i - o)%nat by lia.
    destruct (i <? o + length c)%nat eqn:E2; [apply Nat.ltb_lt in E2|apply Nat.ltb_ge in E2].
    + by rewrite lookup_app_l by lia.
    + rewrite lookup_app_r, lookup_drop by lia. f_equal. lia.
Qed.

Lemma splice_splice f o a b :
  splice (splice f o a) (o + length a) b = splice f o (a ++ b).
Proof.
  apply list_eq. intros i. rewrite !lookup_splice, length_splice, length_app.
  repeat match goal with
  | |- context [(?x <? ?y)%nat] =>
      let E := fresh in destruct (x <? y)%nat eqn:E; [apply Nat.ltb_lt in E|apply Nat.ltb_ge in E]
  end; try lia; try done.
  - by rewrite lookup_app_l by lia.
  - rewrite lookup_app_r by lia. f_equal. lia.
Qed.

Lemma write_all_at_spec answers : forall f offset data f' r,
  0 <= offset -> transfers_ok answers (len data) ->
  write_all_at answers f offset data = (f', r) ->
  len f' <= Z.max (len f) (offset + len data) /\
  (r = Some (Ok tt) -> f' = if bool_decide (data = []) then f else splice f (Z.to_nat offset) data).
Proof.
  induction answers as [|a answers IH]; intros f offset data f' r Ho Ht;
    (destruct data as [|x data]; [intros [= <- <-]; split; [lia|done]|]);
    cbn [write_all_at]; set (dt := x :: data) in *.
  - intros [= <- <-]. split; [lia|done].
  - destruct a as [k| |e]; cbn [transfers_ok] in Ht.
    + destruct Ht as [Hk Ht]. case_if; [intros [= <- <-]; split; [lia|done]|].
      intros Hw. apply IH in Hw as [Hl Hr]; [|lia|].
      2: { replace (len (drop (Z.to_nat k) dt)) with (len dt - k); [done|].
           unfold len. rewrite length_drop. ints. }
      assert (Hld : len (drop (Z.to_nat k) dt) = len dt - k)
        by (unfold len; rewrite length_drop; ints).
      assert (Hlt : len (take (Z.to_nat k) dt) = k) by (unfold len; rewrite length_take; ints).
      split.
      { rewrite Hld in Hl. unfold len in *. rewrite length_splice in Hl. lia. }
      intros E. rewrite (Hr E), (bool_decide_eq_false_2 (dt = [])) by done.
      case_bool_decide as Hd.
      * rewrite <- (take_drop (Z.to_nat k) dt) at 2. by rewrite Hd, app_nil_r.
      * replace (Z.to_nat (offset + k)) with
          (Z.to_nat offset + length (take (Z.to_nat k) dt))%nat by (unfold len in *; lia).
        rewrite splice_splice, take_drop. done.
    + apply IH; done.
    + intros [= <- <-]. split; [lia|done].
Qed.

Inductive op :=
| SetLen (os : result IoError unit) (length : Z)
| Write (answers : list transfer) (offset : Z) (data : bytes)
| Lock (os : result IoError bool) (start end_ : Bound)
| Unlock (os : result IoError unit) (start end_ : Bound).

Definition step (b : t) (o : op) : t :=
  match o with
  | SetLen os n => fst (set_len b os n)
  | Write answers offset data => fst (write b answers offset data)
  | Lock os s e => fst (try_lock_range b os s e)
  | Unlock os s e => fst (fst (unlock_range b os s e))
  end.

Definition op_ok (o : op) : Prop :=
  match o with
  | SetLen _ n => 0 <= n
  | Write answers offset data => 0 <= offset /\ transfers_ok answers (len data)
  | _ => True
  end.

Lemma step_bounded b o :
  len (file b) <= max_bytes b -> op_ok o ->
  max_bytes (step b o) = max_bytes b /\ len (file (step b o)) <= max_bytes b.
Proof.
  intros Hb Ho. destruct o as [os n|answers offset data|os s e|os s e]; simpl in *.
  - unfold set_len, check_end. destruct (checked_add _ _ _) as [x|] eqn:E; [|done].
    apply checked_add_Some in E. case_if; [done|]. destruct os; [|done]. simpl.
    split; [done|]. unfold len. rewrite length_app, length_take, length_replicate. lia.
  - unfold write, check_end. destruct (checked_add _ _ _) as [x|] eqn:E; [|done].
    apply checked_add_Some in E. case_if; [done|].
    destruct (write_all_at _ _ _ _) as [f r] eqn:Ew. simpl. split; [done|].
    apply write_all_at_spec in Ew as [Hl _]; [lia|naive_solver..].
  - unfold try_lock_range. case_if; [done|]. by destruct os as [[]|].
  - unfold unlock_range. case_if; [done|]. by case_if.
Qed.



(** A positional write that reports success has written exactly its bytes
    at its offset and nothing else, however many short transfers and
    interruptions it took. *)
Theorem write_exact b answers offset data b' :
  0 <= offset -> transfers_ok answers (len data) -> data <> [] ->
  write b answers offset data = (b', Some (Ok tt)) ->
  file b' = splice (file b) (Z.to_nat offset) data /\
  offset + len data <= max_bytes b /\ max_bytes b' = max_bytes b /\ locked b' = locked b.
Proof.
  intros Ho Ht Hd. unfold write, check_end. destruct (checked_add _ _ _) as [x|] eqn:E; [|done].
  apply checked_add_Some in E. case_if; [done|].
  destruct (write_all_at _ _ _ _) as [f r] eqn:Ew. intros [= <- ->].
  apply write_all_at_spec in Ew as [_ Hr]; [|done..].
  rewrite Hr by done. rewrite bool_decide_eq_false_2 by done. simpl. split_and!; [done|lia|done..].
Qed.

Lemma write_exact_witness :
  file (fst (write (mk [x00] 6 true) [Transferred 1; Interrupted; Transferred 2] 2 [x01; x02; x03]))
  = splice [x00] 2 [x01; x02; x03].
Proof.
  eapply (write_exact (mk [x00] 6 true) [Transferred 1; Interrupted; Transferred 2] 2
    [x01; x02; x03]); [lia|vm_compute; repeat split; congruence|done|reflexivity].
Defined.
End LockedFileBackend.

(** * Properties of the commands *)
Section value_facts.
Context `{Redb}.

(** The keys between a prefix and its successor are those that start with
    it. *)
Lemma lex_prefix_range q c d k :
  u8 d = u8 c + 1 ->
  lex_le (q ++ [c]) k /\ lex_lt k (q ++ [d]) <-> starts_with k (q ++ [c]) = true.
Proof.
  intros Hd. revert k. induction q as [|x q IH]; intros [|y k]; simpl.
  - unfold lex_le; simpl. naive_solver.
  - unfold lex_le; simpl. rewrite andb_true_iff, bool_decide_eq_true. split.
    + intros [Hle Hlt].
      assert (Hy : u8 y < u8 d) by (destruct Hlt as [?|[_ Hf]]; [done|by destruct k]).
      split; [|by destruct k].
      destruct Hle as [[?|[? _]]|[= ? ?]]; [lia|done|done].
    + intros [-> _]. split; [|left; lia]. destruct k; [by right|]. left. right. done.
  - unfold lex_le; simpl. naive_solver.
  - rewrite andb_true_iff, bool_decide_eq_true, <- IH. unfold lex_le; simpl. split.
    + intros [[[?|[? ?]]|[= ? ?]] [?|[? ?]]]; subst; try lia; naive_solver.
    + intros (-> & [?|<-] & ?); naive_solver.
Qed.

Lemma prefix_end_spec prefix e :
  prefix_end prefix = Ok e ->
  forall k, lex_le prefix k /\ lex_lt k e <-> starts_with k prefix = true.
Proof.
  unfold prefix_end. intros ([] & Hv & (b & Hb & He)%bind_Ok)%bind_Ok k.
  apply ok_or_Ok in Hb, He. unfold from_utf8 in He. case_if_in He; [|done]. injection He as <-.
  unfold bump_last in Hb. destruct (rev prefix) as [|c q] eqn:Er; [done|].
  apply (f_equal (@rev byte)) in Er. rewrite rev_involutive in Er. simpl in Er. subst prefix.
  unfold checked_add in Hb. case_if_in Hb; [|done]. injection Hb as <-. simpl.
  apply lex_prefix_range. rewrite u8_to_u8, Z.mod_small; [done|].
  pose proof (u8_range c). unfold u8_max in *. lia.
Qed.

Lemma scan_entries_Ok limit items l : forall output out,
  Forall2 (fun item e => item = Ok e \/ exists err, item = Err err) items l ->
  scan_entries limit output items = Ok out ->
  out = output ++ l /\ (len output <= limit -> len out <= limit).
Proof.
  intros output out Hf. revert output. induction Hf as [|item e items l Hi _ IH]; intros output; simpl.
  - intros [= <-]. by rewrite app_nil_r.
  - case_if; [done|]. destruct Hi as [->|[err ->]]; simpl; [|done].
    intros [-> Hl]%IH. rewrite <- app_assoc. split; [done|]. intros Ho. rewrite app_assoc.
    apply Hl. rewrite len_snoc. lia.
Qed.

Lemma scan_entries_Limit limit items l : forall output,
  Forall2 (fun item e => item = Ok e \/ exists err, item = Err err) items l ->
  len output <= limit -> scan_entries limit output items = Err StorageError.Limit ->
  limit < len output + len l.
Proof.
  intros output Hf. revert output. induction Hf as [|item e items l Hi _ IH]; intros output Ho; simpl.
  - done.
  - rewrite len_cons. case_if; [pose proof (len_nonneg l); lia|].
    destruct Hi as [->|[err ->]]; simpl; [|done].
    intros Hs%IH; rewrite len_snoc in *; lia.
Qed.

(** The entries under a prefix, in key order. *)
Definition entries_under (m : gmap str bytes) (prefix : str) (l : list (str * bytes)) : Prop :=
  StronglySorted (fun a b => lex_lt (fst a) (fst b)) l /\
  forall k v, (k, v) ∈ l <-> m !! k = Some v /\ starts_with k prefix = true.

Lemma scan_values_range d prefix limit :
  (exists l items, entries_under (committed d) prefix l /\
     Forall2 (fun item e => item = Ok e \/ exists err, item = Err err) items l /\
     scan_values d prefix limit = scan_entries limit [] items) \/
  exists e, scan_values d prefix limit = Err e /\ e <> StorageError.Limit.
Proof.
  unfold scan_values, db_error.
  destruct (begin_read d) as [t|] eqn:Et; simpl; [|right; eauto].
  destruct (prefix_end prefix) as [e|err] eqn:Ee; simpl.
  2: { right. exists err. split; [done|]. intros ->. revert Ee. unfold prefix_end, validate_prefix.
       case_if; simpl; [|done]. destruct (bump_last prefix); simpl; [|done].
       by destruct (from_utf8 _). }
  destruct (table_range t prefix e) as [items|] eqn:Er; simpl; [|right; eauto].
  apply table_range_ok in Er as (l & Hf & Hs & Hin). apply begin_read_ok in Et. rewrite Et in Hin.
  left. exists l, items. split_and!; [|done..].
  split; [done|]. intros k v. by rewrite Hin, (prefix_end_spec _ _ Ee).
Qed.

Lemma scan_values_Ok d prefix limit l :
  0 <= limit -> scan_values d prefix limit = Ok l ->
  entries_under (committed d) prefix l /\ len l <= limit.
Proof.
  intros Hlim. destruct (scan_values_range d prefix limit) as [(l' & items & Hu & Hf & ->)|(e & -> & _)];
    [|done].
  intros Ho. eapply scan_entries_Ok in Ho as [-> Hl]; [|done]. simpl. auto.
Qed.

(** A scan returns exactly the committed entries whose key starts with the
    prefix, in key order, and never part of them: when there are more than the
    limit it reports [Limit] and only then. *)
Theorem scan_exact d prefix limit :
  0 <= limit ->
  (forall l, scan_values d prefix limit = Ok l ->
     entries_under (committed d) prefix l /\ len l <= limit) /\
  (scan_values d prefix limit = Err StorageError.Limit ->
     exists l, entries_under (committed d) prefix l /\ limit < len l).
Proof.
  intros Hlim. split; [eauto using scan_values_Ok|].
  destruct (scan_values_range d prefix limit) as [(l & items & Hu & Hf & ->)|(e & -> & He)];
    [|intros [= ->]; done].
  intros Ho. exists l. split; [done|]. eapply scan_entries_Limit in Ho; [|done..].
  change (len (@nil (str * bytes))) with 0 in Ho. lia.
Qed.

(** ** Writes *)

(** What a list of changes does to the table. *)
Definition apply_map (changes : list (str * option bytes)) (m : gmap str bytes) : gmap str bytes :=
  fold_left (fun m '(k, v) =>
    match v with Some v => <[k := v]> m | None => base.delete k m end) changes m.

Lemma apply_changes_Ok changes : forall t t',
  apply_changes t changes = Ok t' -> pending t' = apply_map changes (pending t).
Proof.
  induction changes as [|[k [v|]] changes IH]; intros t t'; simpl.
  - by intros [= <-].
  - intros (t1 & E & Ht)%bind_Ok. apply map_err_Ok, table_insert_ok in E. rewrite <- E. eauto.
  - intros (t1 & E & Ht)%bind_Ok. apply map_err_Ok, table_remove_ok in E. rewrite <- E. eauto.
Qed.

(** One write transaction: all of it or nothing, and all of it when it
    answers [Ok]. *)
Definition atomic (m target m' : gmap str bytes) (r : result StorageError.t unit) : Prop :=
  match r with
  | Ok _ => m' = target
  | Err e => (m' = m \/ m' = target) /\ exists err, e = StorageError.Database err
  end.

Lemma commit_atomic d table d' r target :
  pending table = target -> commit d table = (d', r) ->
  atomic (committed d) target (committed d') (db_error r).
Proof.
  intros Hp Hc. destruct r as [[]|e]; simpl.
  - apply commit_ok in Hc. congruence.
  - apply commit_err in Hc. rewrite Hp in Hc. eauto.
Qed.

Lemma apply_values_atomic d changes d' r :
  apply_values d changes = (d', r) ->
  atomic (committed d) (apply_map changes (committed d)) (committed d') r.
Proof.
  unfold apply_values, db_error. destruct (begin_write d) as [t|] eqn:Et; simpl;
    [|intros [= <- <-]; simpl; eauto].
  apply begin_write_ok in Et. destruct (apply_changes t changes) as [t'|e] eqn:Ea.
  - apply apply_changes_Ok in Ea. destruct (commit d t') as [d1 r1] eqn:Ec.
    intros [= <- <-]. eapply commit_atomic; [|done]. congruence.
  - intros [= <- <-]. simpl. split; [by left|]. clear Et. revert t Ea.
    induction changes as [|[k [v|]] changes IH]; intros t; simpl; [done|..].
    + unfold db_error. destruct (table_insert t k v); simpl; [apply IH|naive_solver].
    + unfold db_error. destruct (table_remove t k); simpl; [apply IH|naive_solver].
Qed.

Lemma put_value_atomic d k v d' r :
  put_value d k v = (d', r) -> atomic (committed d) (<[k := v]> (committed d)) (committed d') r.
Proof.
  unfold put_value, db_error. destruct (begin_write d) as [t|] eqn:Et; simpl;
    [|intros [= <- <-]; simpl; eauto].
  apply begin_write_ok in Et. destruct (table_insert t k v) as [t'|e] eqn:Ea; simpl;
    [|intros [= <- <-]; simpl; eauto].
  apply table_insert_ok in Ea. destruct (commit d t') as [d1 r1] eqn:Ec.
  intros [= <- <-]. eapply commit_atomic; [|done]. congruence.
Qed.

Lemma delete_value_atomic d k d' r :
  delete_value d k = (d', r) -> atomic (committed d) (base.delete k (committed d)) (committed d') r.
Proof.
  unfold delete_value, db_error. destruct (begin_write d) as [t|] eqn:Et; simpl;
    [|intros [= <- <-]; simpl; eauto].
  apply begin_write_ok in Et. destruct (table_remove t k) as [t'|e] eqn:Ea; simpl;
    [|intros [= <- <-]; simpl; eauto].
  apply table_remove_ok in Ea. destruct (commit d t') as [d1 r1] eqn:Ec.
  intros [= <- <-]. eapply commit_atomic; [|done]. congruence.
Qed.
End value_facts.

(** * A table in memory, as an instance of the interface *)
Module MemoryRedb.
Definition key_le (a b : str * bytes) : Prop := lex_le (fst a) (fst b).
#[local] Instance key_le_dec : RelDecision key_le.
Proof. intros a b. unfold key_le. apply _. Defined.
#[local] Instance key_le_trans : Transitive key_le.
Proof.
  intros a b c. unfold key_le, lex_le. intros [? | ->] [? | <-]; auto. left. by eapply lex_lt_trans.
Qed.
#[local] Instance key_le_total : Total key_le.
Proof. intros a b. unfold key_le, lex_le. destruct (lex_total (fst a) (fst b)) as [?|[?|?]]; auto. Qed.

Definition range (m : gmap str bytes) (lo hi : str) : list (str * bytes) :=
  sorting.merge_sort key_le (filter (fun e => lex_le lo (fst e) /\ lex_lt (fst e) hi) (map_to_list m)).

Lemma sorted_strict l :
  StronglySorted key_le l -> NoDup (fst <$> l) ->
  StronglySorted (fun a b => lex_lt (fst a) (fst b)) l.
Proof.
  induction 1 as [|x l Hs IH Hf]; intros Hn; simpl in *; constructor;
    inversion Hn as [|? ? Hx Hn']; subst; auto.
  rewrite Forall_forall in *. intros y Hy. destruct (Hf y Hy) as [?|E]; [done|].
  destruct Hx. rewrite E. by apply list_elem_of_fmap_2.
Qed.

Lemma range_spec m lo hi :
  StronglySorted (fun a b => lex_lt (fst a) (fst b)) (range m lo hi) /\
  forall k v, (k, v) ∈ range m lo hi <-> m !! k = Some v /\ lex_le lo k /\ lex_lt k hi.
Proof.
  unfold range. set (l := filter _ _).
  pose proof (sorting.merge_sort_Permutation key_le l) as Hp. split.
  - apply sorted_strict; [apply (sorting.StronglySorted_merge_sort key_le)|].
    rewrite Hp. unfold l. apply NoDup_fmap_fst.
    + intros k v1 v2 [_ H1]%list_elem_of_filter [_ H2]%list_elem_of_filter.
      apply elem_of_map_to_list in H1, H2. congruence.
    + apply NoDup_filter, NoDup_map_to_list.
  - intros k v. rewrite Hp. unfold l. rewrite list_elem_of_filter, elem_of_map_to_list. naive_solver.
Qed.

Definition memory : Redb.
Proof.
  refine {| database := gmap str bytes; read_table := gmap str bytes; write_table := gmap str bytes;
    begin_read d := Ok d; table_get t k := Ok (t !! k);
    table_range t lo hi := Ok (map Ok (range t lo hi));
    begin_write d := Ok d; table_insert t k v := Ok (<[k := v]> t);
    table_remove t k := Ok (base.delete k t); commit d t := (t, Ok tt);
    committed d := d; snapshot t := t; pending t := t |}.
  - naive_solver.
  - naive_solver.
  - intros t lo hi items [= <-]. exists (range t lo hi). split; [|apply range_spec].
    induction (range t lo hi); simpl; constructor; auto.
  - naive_solver.
  - naive_solver.
  - naive_solver.
  - naive_solver.
  - naive_solver.
Defined.
End MemoryRedb.

Definition example_table : gmap str bytes :=
  <[ #"client/a" := #"1"]> (<[ #"client/b" := #"2"]> {[ #"user/a" := #"3"]}).

Lemma scan_exact_witness :
  let _ := MemoryRedb.memory in
  entries_under example_table #"client/" [(#"client/a", #"1"); (#"client/b", #"2")].
Proof.
  intros memory. apply (scan_exact (H := memory) example_table #"client/" 2); [lia|].
  vm_compute. reflexivity.
Defined.

(** * The worker serves its clients in order *)
Module WorkerFacts.
Import StorageWorker.
Section facts.
Context `{HR : Redb}.

(** What one command may answer and do to the table. *)
Definition serves (m : gmap str bytes) (c : Command.t) (r : Reply.t) (m' : gmap str bytes) : Prop :=
  match c, r with
  | Command.Get k _, Reply.Read v => m' = m /\
      match v with Ok v => v = m !! k | Err e => exists err, e = StorageError.Database err end
  | Command.Put k v _, Reply.Write r => atomic m (<[k := v]> m) m' r
  | Command.Delete k _, Reply.Write r => atomic m (base.delete k m) m' r
  | Command.Apply changes _, Reply.Write r => atomic m (apply_map changes m) m' r
  | Command.Scan p _ _, Reply.Scanned v => m' = m /\ forall l, v = Ok l -> entries_under m p l
  | Command.Backup _ _, Reply.Write _ => m' = m
  | Command.Stop _, Reply.Stopped => m' = m
  | _, _ => False
  end.

(** A history: the commands served so far with their answers, one after the
    other. *)
Inductive history (m0 : gmap str bytes) : list (Command.t * Reply.t) -> gmap str bytes -> Prop :=
| history_nil : history m0 [] m0
| history_snoc l c r m m' : history m0 l m -> serves m c r m' -> history m0 (l ++ [(c, r)]) m'.

(** The events of a run: a client call that was accepted or refused, a step of
    the thread, and the receipt of a reply. *)
Inductive event :=
| Request (command : nat -> Command.t)
| Thread (copied : result StorageError.t unit) (reopened : result StorageError.t database)
| Receive (response : nat).

Definition fires (w : t) (e : event) : t :=
  match e with
  | Request command => fst (request w command)
  | Thread copied reopened => run_step copied reopened w
  | Receive response => fst (try_recv w response)
  end.

(** The command an event adds to the queue. *)
Definition accepted (w : t) (e : event) : list Command.t :=
  match e with
  | Request command =>
      match request w command with
      | (_, Ok response) => [command response]
      | _ => []
      end
  | _ => []
  end.

(** Reopening after a backup finds the same table, and each command is built
    with the reply channel it was given. *)
Definition event_ok (w : t) (e : event) : Prop :=
  match e with
  | Request command => forall n, Command.response (command n) = n
  | Thread _ (Ok d) => forall d0, db w = Some d0 -> committed d = committed d0
  | _ => True
  end.

Inductive run (d0 : database) : t -> list Command.t -> list (nat * Reply.t) -> Prop :=
| run_open cache max cap w :
    0 <= cap -> StorageWorker.open d0 cache max cap = Ok w -> run d0 w [] []
| run_event w log received e :
    run d0 w log received -> event_ok w e ->
    run d0 (fires w e) (log ++ accepted w e)
      (received ++ match e with
                   | Receive n => match try_recv w n with
                                  | (_, Ready (Some r)) => [(n, r)]
                                  | _ => []
                                  end
                   | _ => []
                   end).

(** Commands carry distinct reply channels below the counter; [served] pairs
    the commands taken off the queue with their answers. *)
Definition inv (d0 : database) (w : t) (log : list Command.t) (received : list (nat * Reply.t))
  (served : list (Command.t * Reply.t)) (dropped : list Command.t) : Prop :=
  (exists m, history (committed d0) served m /\ (forall d, db w = Some d -> committed d = m)) /\
  log = map fst served ++ dropped ++ queue w /\
  (running w = true -> dropped = [] /\ is_Some (db w)) /\ (running w = false -> queue w = []) /\
  (forall n r, replies w !! n = Some r -> exists c, (c, r) ∈ served /\ Command.response c = n) /\
  (forall n r, (n, r) ∈ received -> exists c, (c, r) ∈ served /\ Command.response c = n) /\
  NoDup (map Command.response log) /\ Forall (fun c => Command.response c < next_response w)%nat log /\
  len (queue w) <= capacity w.

(** What the commands do, as the specification says. *)
Lemma get_serves d k n : serves (committed d) (Command.Get k n) (Reply.Read (get_value d k)) (committed d).
Proof.
  unfold serves, get_value, db_error. split; [done|].
  destruct (begin_read d) as [t|] eqn:Et; simpl; [|eauto].
  destruct (table_get t k) as [v|] eqn:Ev; simpl; [|eauto].
  apply table_get_ok in Ev. apply begin_read_ok in Et. by rewrite <- Et.
Qed.

Lemma scan_serves d p lim n :
  serves (committed d) (Command.Scan p lim n) (Reply.Scanned (scan_values d p lim)) (committed d).
Proof.
  split; [done|]. intros l Hl. unfold scan_values, db_error in Hl.
  apply bind_Ok in Hl as (t & Et & (e & Ee & (items & Er & Hs)%bind_Ok)%bind_Ok).
  apply map_err_Ok, begin_read_ok in Et. apply map_err_Ok, table_range_ok in Er as (l' & Hf & Hso & Hin).
  eapply scan_entries_Ok in Hs as [-> _]; [|done]. split; [done|].
  intros k v. by rewrite Hin, (prefix_end_spec _ _ Ee), Et.
Qed.

Lemma request_inv d0 w log received served dropped command :
  inv d0 w log received served dropped -> (forall n, Command.response (command n) = n) ->
  inv d0 (fst (request w command)) (log ++ accepted w (Request command)) received served dropped.
Proof.
  intros (Hh & Hlog & Hrun & Hstop & Hrep & Hrec & Hnd & Hlt & Hcap) Hc.
  assert (Hrefused : inv d0 (fst (fresh w)) (log ++ []) received served dropped).
  { rewrite app_nil_r. split_and!; try done. eapply Forall_impl; [done|]. simpl. lia. }
  unfold accepted, request. simpl. unfold send. simpl.
  case_if; [done|]. case_if; [done|]. case_if; [done|]. simpl.
  split_and!; simpl; try done.
  - by rewrite Hlog, <- !app_assoc.
  - congruence.
  - rewrite map_app. apply NoDup_app. split_and!; [done| |apply NoDup_singleton].
    intros n Hn Hs. apply list_elem_of_singleton in Hs. rewrite Hc in Hs. subst n.
    apply list_elem_of_fmap in Hn as (c & E & Hin). rewrite Forall_forall in Hlt.
    specialize (Hlt c Hin). lia.
  - apply Forall_app. split; [eapply Forall_impl; [done|]; simpl; lia|].
    apply Forall_singleton. rewrite Hc. lia.
  - rewrite len_snoc. lia.
Qed.

Lemma receive_inv d0 w log received served dropped n :
  inv d0 w log received served dropped ->
  inv d0 (fst (try_recv w n)) log
    (received ++ match try_recv w n with (_, Ready (Some r)) => [(n, r)] | _ => [] end)
    served dropped.
Proof.
  intros (Hh & Hlog & Hrun & Hstop & Hrep & Hrec & Hnd & Hlt & Hcap). unfold try_recv.
  destruct (replies w !! n) as [r|] eqn:Er; [|case_if; rewrite app_nil_r; done].
  split_and!; simpl; try done.
  - intros k v [_ Hk]%lookup_delete_Some. auto.
  - intros k v [Hin|Hin]%elem_of_app; [auto|].
    apply list_elem_of_singleton in Hin. injection Hin as -> ->. auto.
Qed.

(** Serving the command at the head of the queue. *)
Lemma answer_inv d0 w log received served c rest r d m :
  inv d0 w log received served [] -> running w = true -> queue w = c :: rest ->
  db w = Some d -> serves (committed d) c r m ->
  (forall d', committed d' = m ->
     inv d0 (answer (set_queue w rest) c (Some d') r) log received (served ++ [(c, r)]) []) /\
  inv d0 (leave (answer (set_queue w rest) c None r)) log received (served ++ [(c, r)]) rest.
Proof.
  intros ((m0 & Hh & Hdb) & Hlog & Hrun & Hstop & Hrep & Hrec & Hnd & Hlt & Hcap) Hr Hq Hd Hs.
  rewrite Hq in Hlog, Hcap. rewrite len_cons in Hcap. rewrite (Hdb _ Hd) in Hs.
  assert (Hh' : history (committed d0) (served ++ [(c, r)]) m) by (by econstructor).
  assert (Hrep' : forall n r', <[Command.response c := r]> (replies w) !! n = Some r' ->
    exists c', (c', r') ∈ served ++ [(c, r)] /\ Command.response c' = n).
  { intros n r' [[<- <-]|[_ Hn]]%lookup_insert_Some.
    - exists c. split; [|done]. apply elem_of_app. right. by left.
    - destruct (Hrep _ _ Hn) as (c' & ? & ?). exists c'. split; [|done]. apply elem_of_app. by left. }
  assert (Hrec' : forall n r', (n, r') ∈ received ->
    exists c', (c', r') ∈ served ++ [(c, r)] /\ Command.response c' = n).
  { intros n r' Hn. destruct (Hrec _ _ Hn) as (c' & ? & ?). exists c'. split; [|done].
    apply elem_of_app. by left. }
  assert (Hl1 : log = map fst (served ++ [(c, r)]) ++ rest).
  { by rewrite Hlog, map_app, <- app_assoc. }
  split.
  - intros d' Hd'. split_and!; simpl; try done.
    + exists m. split; [done|]. by intros d1 [= <-].
    + by rewrite Hr.
    + lia.
  - split_and!; simpl; try done.
    + exists m. split; [done|]. done.
    + by rewrite app_nil_r.
    + pose proof (len_nonneg rest). change (len (@nil Command.t)) with 0. lia.
Qed.

Lemma thread_inv d0 w log received served dropped copied reopened :
  inv d0 w log received served dropped -> event_ok w (Thread copied reopened) ->
  exists served' dropped', inv d0 (run_step copied reopened w) log received served' dropped'.
Proof.
  intros Hinv Hok. simpl in Hok. unfold run_step.
  destruct (running w) eqn:Hr; [|eauto]. destruct (queue w) as [|c rest] eqn:Hq; [eauto|].
  destruct (db w) as [d|] eqn:Hd; [|eauto].
  assert (dropped = []) as -> by (destruct Hinv as (_ & _ & Hx & _); by apply Hx).
  pose proof (fun r m Hs => answer_inv d0 w log received served c rest r d m Hinv Hr Hq Hd Hs) as Ha.
  destruct c as [k n|k v n|k n|ch n|p l n|ds n|n].
  - eexists _, _. eapply Ha; [apply get_serves|done].
  - destruct (put_value d k v) as [d' r] eqn:E. eexists _, _.
    eapply Ha; [|done]. by apply put_value_atomic.
  - destruct (delete_value d k) as [d' r] eqn:E. eexists _, _.
    eapply Ha; [|done]. by apply delete_value_atomic.
  - destruct (apply_values d ch) as [d' r] eqn:E. eexists _, _.
    eapply Ha; [|done]. by apply apply_values_atomic.
  - eexists _, _. eapply Ha; [apply scan_serves|done].
  - destruct reopened as [d'|e]; eexists _, _.
    + eapply (Ha (Reply.Write copied) (committed d)); [done|]. by apply Hok.
    + by eapply (Ha (Reply.Write (Err e)) (committed d)).
  - eexists _, _. by eapply (Ha Reply.Stopped (committed d)).
Qed.

Lemma run_inv d0 w log received :
  run d0 w log received -> exists served dropped, inv d0 w log received served dropped.
Proof.
  induction 1 as [cache max cap w Hcap Ho|w log received e _ (served & dropped & Hinv) Hok].
  - exists [], []. revert Ho. unfold open. case_if; [done|]. intros [= <-].
    split_and!; simpl; try done.
    + exists (committed d0). split; [constructor|]. by intros d [= <-].
    + intros n r ?%elem_of_nil. done.
    + apply NoDup_nil_2.
  - destruct e as [command|copied reopened|n].
    + exists served, dropped. rewrite app_nil_r. by apply request_inv.
    + simpl. rewrite !app_nil_r. eapply thread_inv; eauto.
    + exists served, dropped. simpl. rewrite app_nil_r. by apply receive_inv.
Qed.

(** C27: the storage worker behaves like one table used by one client at a time,
    in the order the calls were accepted.  For every interleaving of calls,
    thread steps, receipts, database failures, backups and shutdown, the
    commands served so far are the first of the accepted ones, in order; their
    answers are those of a sequential table starting from the committed one (a
    read answers the value at that point, an [Ok] write is fully applied, a
    failed write is applied entirely or not at all); every reply a client
    receives is the answer to the command it sent; and no more than the
    configured number of commands wait. *)
Theorem worker_sequential d0 w log received :
  run d0 w log received ->
  exists served rest m,
    log = map fst served ++ rest /\ history (committed d0) served m /\
    (forall d, db w = Some d -> committed d = m) /\
    NoDup (map Command.response log) /\
    (forall n r, (n, r) ∈ received -> exists c, (c, r) ∈ served /\ Command.response c = n) /\
    len (queue w) <= capacity w.
Proof.
  intros (served & dropped & (m & Hh & Hdb) & Hlog & _ & _ & _ & Hrec & Hnd & _ & Hcap)%run_inv.
  exists served, (dropped ++ queue w), m. done.
Qed.
End facts.

#[local] Instance example_redb : Redb := MemoryRedb.memory.

(** A write and a read of the same key queued together, then served. *)
Definition serve_one : event := Thread (Ok tt) (Err StorageError.Stopped).
Definition example_events : list event :=
  [Request (Command.Put #"user/1" #"v"); Request (Command.Get #"user/1");
   serve_one; serve_one; Receive 1].
Definition example_worker : t := mk None false [] 4 true 0 ∅ (Some (∅ : gmap str bytes)).

Lemma run_fold d0 w log received es :
  run d0 w log received -> (forall w e, e ∈ es -> event_ok w e) ->
  exists log' received', run d0 (fold_left fires es w) log' received'.
Proof.
  revert w log received. induction es as [|e es IH]; intros w log received Hr Hok; simpl; [eauto|].
  eapply IH; [apply run_event; [exact Hr|apply Hok; left]|]. intros. apply Hok. by right.
Qed.

Lemma worker_sequential_witness :
  exists served m,
    history ∅ served m /\
    (forall d : gmap str bytes, db (fold_left fires example_events example_worker) = Some d -> d = m) /\
    len (queue (fold_left fires example_events example_worker)) <= 4.
Proof.
  destruct (run_fold (∅ : gmap str bytes) example_worker [] [] example_events) as (log & rec & Hr).
  - by apply (run_open _ 1 1 4).
  - intros w e He. unfold example_events in He.
    repeat (apply elem_of_cons in He as [->|He]; [done|]). by apply elem_of_nil in He.
  - destruct (worker_sequential _ _ _ _ Hr) as (served & rest & m & _ & Hh & Hd & _ & _ & Hq).
    exists served, m. split; [exact Hh|]. split; [exact Hd|exact Hq].
Defined.
End WorkerFacts.
