(* ===== verification/Backup.v ===== *)
(** Backups of the database of policy-local
    (modules/policy-local/src/storage.rs): the copying of the closed database
    file, its verification and its installation under the name of the backup, and
    the way back.

    The operations run on a model of the file system: a map from paths to files and
    directories, in which a file knows whether its content has been synced.  Every
    call of the operating system may fail.  A crash brings back one of the states
    that the directory on disk may have, with the content of files that were not
    synced arbitrary; the model keeps track of those states.  The changes of the
    names reach the disk in their order, and those of a directory have reached it
    when the directory has been synced.  Symbolic links and ".." components are left
    out.

    A backup and a restoration are atomic: after a crash at any point the
    destination is what it was before or the whole verified copy ([backup_atomic],
    [restore_atomic]); what was restored is what had been backed up
    ([backup_roundtrip]); without failures both give a result ([backup_completes]).
    A failure of the last call is an exception to the answer, not to the files
    ([backup_error_installed]). *)
From Stdlib Require Import Strings.Byte.
From S2P Require Import Prelude Text Admin Storage.
#[local] Open Scope Z_scope.

(** * Paths *)

(** [Path::components]: the root is the component "/"; empty components and "."
    are skipped, but for a "." in front. *)
Definition path := list str.
#[export] Instance path_countable : Countable path := list_countable.

Definition normal (c : str) : Prop := c <> [] /\ c <> #".".
#[export] Instance normal_dec c : Decision (normal c).
Proof. unfold normal. apply _. Defined.

Definition components (p : str) : path :=
  let parts := split_byte "/"%byte p in
  (if is_absolute p then [(#"/")]
   else if bool_decide (head parts = Some #".") then [(#".")] else [])
  ++ filter normal parts.

Definition parent (p : path) : option path :=
  match reverse p with
  | [] => None
  | c :: r => if bool_decide (c = #"/") then None else Some (reverse r)
  end.

Definition file_name (p : path) : option str :=
  match reverse p with
  | c :: _ => if bool_decide (c = #"/" \/ c = #"." \/ c = #"..") then None else Some c
  | [] => None
  end.

Definition file_stem (name : str) : str :=
  match rsplit_once "."%byte name with
  | Some (before, _) => if bool_decide (before = []) then name else before
  | None => name
  end.

(** [Path::with_extension], for an extension that is not empty. *)
Definition with_extension (p : path) (extension : str) : path :=
  match file_name p, parent p with
  | Some name, Some dir => dir ++ [file_stem name ++ #"." ++ extension]
  | _, _ => p
  end.

(** * The file system *)

Inductive node := File (content : bytes) (mode : Z) (synced : bool) | Dir (mode : Z).

#[export] Instance node_eq_dec : EqDecision node.
Proof. solve_decision. Defined.

Abbreviation fs := (gmap path node).

(** What a call of the operating system does: what it should, or it fails, after
    [progress] bytes or directories where that applies. *)
Inductive fault := Proceeds | Fails (error : str) (progress : nat).

(** [now] is the file system, [exposed] the states a crash at this point may bring
    back, [seen] those that a crash so far may have. *)
Record world := World { now : fs; exposed : list fs; seen : list fs; faults : list fault }.

Definition start (f : fs) (l : list fault) : world := World f [f] [f] l.

(** The calls, with their failures as errors of the storage. *)
Definition io (A : Type) : Type := world -> world * result StorageError.t A.
#[export] Instance io_ret : MRet io := fun _ a w => (w, Ok a).
#[export] Instance io_bind : MBind io := fun _ _ f m w =>
  match m w with (w, Ok a) => f a w | (w, Err e) => (w, Err e) end.
Definition fail {A} (e : StorageError.t) : io A := fun w => (w, Err e).

Definition change (f : fs) (w : world) : world := World f (f :: exposed w) (f :: seen w) (faults w).

Definition next_fault (w : world) : world * fault :=
  match faults w with
  | [] => (w, Proceeds)
  | x :: l => (World (now w) (exposed w) (seen w) l, x)
  end.

(** A call: [f] says what it does to the file system, [partial] what it leaves when
    it fails. *)
Definition sys {A} (f : fs -> result StorageError.t (option fs * A)) (partial : nat -> fs -> option fs) : io A :=
  fun w =>
    let '(w, x) := next_fault w in
    let after o w := match o with Some g => change g w | None => w end in
    match x with
    | Fails e n => (after (partial n (now w)) w, Err (StorageError.Io e))
    | Proceeds =>
        match f (now w) with
        | Ok (o, a) => (after o w, Ok a)
        | Err e => (w, Err e)
        end
    end.

(** A call that only looks. *)
Definition look {A} (f : fs -> result StorageError.t A) : io A :=
  sys (fun g => a ← f g; Ok (None, a)) (fun _ _ => None).

Definition os_error {A} (e : str) : result StorageError.t A := Err (StorageError.Io e).

(** [Path::exists] and [Path::is_file], which answer no when they cannot tell. *)
Definition ask (f : fs -> bool) : io bool := fun w =>
  let '(w, x) := next_fault w in
  (w, Ok match x with Fails _ _ => false | Proceeds => f (now w) end).
Definition path_exists (p : path) : io bool := ask (fun f => is_some (f !! p)).
Definition is_file (p : path) : io bool :=
  ask (fun f => match f !! p with Some (File _ _ _) => true | _ => false end).

Section calls.
(** The mask of the process, and the length the system gives for a directory.
    Modes are written in hexadecimal: 0777, 0600, 0077 and 0700 in octal are 0x1ff,
    0x180, 0x3f and 0x1c0. *)
Context (umask dir_len : Z).

(** [fs::metadata(p)?.len()] and [.permissions().mode()]. *)
Definition metadata_len (p : path) : io Z := look (fun f =>
  match f !! p with
  | Some (File c _ _) => Ok (len c)
  | Some (Dir _) => Ok dir_len
  | None => os_error #"not found"
  end).
Definition metadata_mode (p : path) : io Z := look (fun f =>
  match f !! p with
  | Some (File _ m _) | Some (Dir m) => Ok m
  | None => os_error #"not found"
  end).

(** [fs::create_dir_all]: the directories on the way that are missing, made in one
    step. *)
Definition make_dir (f : fs) (p : path) : option fs :=
  match f !! p with
  | None => Some (<[p := Dir (Z.ldiff 0x1ff umask)]> f)
  | Some (Dir _) => Some f
  | Some (File _ _ _) => None
  end.
Fixpoint make_dirs (f : fs) (l : list path) : option fs :=
  match l with
  | [] => Some f
  | p :: l => f ← make_dir f p; make_dirs f l
  end.
Definition prefixes (p : path) : list path := map (fun n => take n p) (seq 1 (length p)).
Definition create_dir_all (p : path) : io unit :=
  sys (fun f => match make_dirs f (prefixes p) with
                | Some g => Ok (Some g, tt)
                | None => os_error #"not a directory"
                end)
      (fun n f => make_dirs f (take n (prefixes p))).

Definition set_permissions (p : path) (mode : Z) : io unit :=
  sys (fun f => match f !! p with
                | Some (Dir _) => Ok (Some (<[p := Dir mode]> f), tt)
                | Some (File c _ s) => Ok (Some (<[p := File c mode s]> f), tt)
                | None => os_error #"not found"
                end) (fun _ _ => None).

(** [OpenOptions] with [create_new] and mode 0600. *)
Definition create_new (p : path) : io unit :=
  sys (fun f => match f !! p, parent p ≫= (f !!.) with
                | None, Some (Dir _) => Ok (Some (<[p := File [] (Z.ldiff 0x180 umask) false]> f), tt)
                | Some _, _ => os_error #"already exists"
                | None, _ => os_error #"not found"
                end) (fun _ _ => None).

(** [io::copy] into a file that is open: some of the bytes when it fails. *)
Definition put_content (f : fs) (p : path) (c : bytes) : option fs :=
  match f !! p with
  | Some (File _ m _) => Some (<[p := File c m false]> f)
  | _ => None
  end.
Definition copy (source destination : path) : io unit :=
  sys (fun f => match f !! source with
                | Some (File c _ _) => Ok (put_content f destination c, tt)
                | _ => os_error #"is a directory"
                end)
      (fun n f => match f !! source with
                  | Some (File c _ _) => put_content f destination (take n c)
                  | _ => None
                  end).

Definition sync_all (p : path) : io unit :=
  sys (fun f => match f !! p with
                | Some (File c m _) => Ok (Some (<[p := File c m true]> f), tt)
                | _ => Ok (None, tt)
                end) (fun _ _ => None).

Definition rename (a b : path) : io unit :=
  sys (fun f => match f !! a, f !! b with
                | None, _ => os_error #"not found"
                | Some _, Some (Dir _) => os_error #"is a directory"
                | Some x, _ => Ok (Some (<[b := x]> (delete a f)), tt)
                end) (fun _ _ => None).

Definition remove_file (p : path) : io unit :=
  sys (fun f => match f !! p with
                | Some (File _ _ _) => Ok (Some (delete p f), tt)
                | Some (Dir _) => os_error #"is a directory"
                | None => os_error #"not found"
                end) (fun _ _ => None).

(** [File::open(d)?.sync_all()] on a directory: a crash brings back its entries as
    they are now. *)
Definition with_entries (d : path) (f g : fs) : fs :=
  let inside (x : path * node) := parent x.1 = Some d in
  filter inside f ∪ filter (fun x => ~ inside x) g.
Definition sync_dir (d : path) : io unit := fun w =>
  match next_fault w with
  | (w, Fails e _) => (w, Err (StorageError.Io e))
  | (w, Proceeds) =>
      match now w !! d with
      | Some _ =>
          let l := map (with_entries d (now w)) (exposed w) in
          (World (now w) l (l ++ seen w) (faults w), Ok tt)
      | None => (w, Err (StorageError.Io #"not found"))
      end
  end.

(** * storage.rs *)

(** redb reads a database file and opens its table. *)
Context (open_read_only : bytes -> result str unit).

Definition verify_database (p : path) : io unit := fun w =>
  match next_fault w with
  | (w, Fails e _) => (w, Err (StorageError.Database e))
  | (w, Proceeds) =>
      (w, match now w !! p with
          | Some (File c _ _) => map_err StorageError.Database (open_read_only c)
          | _ => Err (StorageError.Database #"not a file")
          end)
  end.

Definition sync_parent (p : path) : io unit :=
  match parent p with None => fail StorageError.Invalid | Some d => sync_dir d end.

Definition copy_private_file (source destination : path) (max_bytes : Z) : io unit :=
  length ← metadata_len source;
  if max_bytes <? length then fail StorageError.Limit
  else
    _ ← create_new destination;
    _ ← look (fun f => if is_some (f !! source) then Ok tt else os_error #"not found");
    _ ← copy source destination;
    sync_all destination.

Definition prepare_path (p : path) : io unit :=
  match parent p with
  | None => fail StorageError.Invalid
  | Some directory =>
      existed ← path_exists directory;
      _ ← create_dir_all directory;
      if (existed : bool) then
        mode ← metadata_mode directory;
        if negb (Z.land mode 0x3f =? 0) then fail StorageError.Permissions else mret tt
      else set_permissions directory 0x1c0
  end.

(** The closure that [backup_closed_database] and [restore_stopped_database] share,
    with the removal of the temporary file when it fails. *)
Definition install (source temporary destination : path) (max_bytes : Z) : io unit := fun w =>
  match
    (_ ← copy_private_file source temporary max_bytes;
     _ ← verify_database temporary;
     _ ← rename temporary destination;
     sync_parent destination) w
  with
  | (w, Ok r) => (w, Ok r)
  | (w, Err e) => ((remove_file temporary w).1, Err e)
  end.

(** The process and the nanoseconds since the epoch, unless the clock is before
    it. *)
Context (process_id : Z) (clock : option Z).

Definition temporary_name (kind : str) (destination : path) (nanos : Z) : path :=
  with_extension destination (kind ++ #"-" ++ display process_id ++ #"-" ++ display nanos).

Definition backup_closed_database (source destination : path) (max_database_bytes : Z) : io unit :=
  if bool_decide (source = destination) then fail StorageError.Invalid
  else
    there ← path_exists destination;
    if (there : bool) then fail StorageError.Invalid
    else
      _ ← prepare_path destination;
      match clock with
      | None => fail StorageError.Invalid
      | Some nanos =>
          install source (temporary_name #"backup" destination nanos) destination max_database_bytes
      end.

Definition restore_stopped_database (backup destination : path) (max_database_bytes : Z) : io unit :=
  if bool_decide (backup = destination) then fail StorageError.Invalid
  else
    file ← is_file backup;
    if negb file || negb (bool_decide (head destination = Some #"/")) then fail StorageError.Invalid
    else
      length ← metadata_len backup;
      if max_database_bytes <? length then fail StorageError.Limit
      else
        _ ← verify_database backup;
        _ ← prepare_path destination;
        match clock with
        | None => fail StorageError.Invalid
        | Some nanos =>
            install backup (temporary_name #"restore" destination nanos) destination max_database_bytes
        end.
End calls.

(** * The database after a backup *)

(** What redb keeps in its file: [stored] is the table of a closed database,
    [create_with_backend] what opening makes of the content and its answer,
    [write_back] the content after a transaction. *)
Class RedbFile `{Redb} := {
  stored : bytes -> gmap str bytes;
  create_with_backend : bytes -> bytes * result str database;
  write_back : database -> bytes -> bytes;
  create_keeps c : stored (create_with_backend c).1 = stored c;
  create_reads c d : (create_with_backend c).2 = Ok d -> committed d = stored c;
  write_back_ok d c : stored (write_back d c) = committed d;
}.

Section reopen.
Context `{RedbFile} (umask dir_len : Z) (open_read_only : bytes -> result str unit).

(** [OpenOptions] with [create] and mode 0600. *)
Definition open_or_create (p : path) : io unit :=
  sys (fun f => match f !! p, parent p ≫= (f !!.) with
                | Some (File _ _ _), _ => Ok (None, tt)
                | Some (Dir _), _ => os_error #"is a directory"
                | None, Some (Dir _) => Ok (Some (<[p := File [] (Z.ldiff 0x180 umask) false]> f), tt)
                | None, _ => os_error #"not found"
                end) (fun _ _ => None).

(** [LockedFileBackend::open]. *)
Definition open_backend (p : path) (max_bytes : Z) : io unit :=
  _ ← open_or_create p;
  mode ← metadata_mode p;
  if negb (Z.land mode 0x3f =? 0) then fail StorageError.Permissions
  else
    length ← metadata_len dir_len p;
    if max_bytes <? length then fail StorageError.Limit else mret tt.

(** redb writes to the open file and syncs it. *)
Definition store (p : path) (content : bytes -> bytes) (w : world) : world :=
  match now w !! p with
  | Some (File c m _) => change (<[p := File (content c) m true]> (now w)) w
  | _ => w
  end.

Definition create_database (p : path) : io database := fun w =>
  match next_fault w with
  | (w, Fails e _) => (w, Err (StorageError.Database e))
  | (w, Proceeds) =>
      match now w !! p with
      | Some (File c _ _) =>
          (store p (fun c => (create_with_backend c).1) w, db_error (create_with_backend c).2)
      | _ => (w, Err (StorageError.Database #"not a file"))
      end
  end.

(** The transaction that makes sure of the table. *)
Definition open_table (p : path) (d : database) : io database := fun w =>
  match db_error (begin_write d) with
  | Err e => (w, Err e)
  | Ok table =>
      let '(d, r) := commit d table in
      (store p (write_back d) w, _ ← db_error r; Ok d)
  end.

Definition open_database (p : path) (max_database_bytes : Z) : io database :=
  _ ← open_backend p max_database_bytes;
  database ← create_database p;
  open_table p database.

(** [StorageWorker::open]: the thread is started with the open database. *)
Definition open_worker (p : path) (cache_bytes max_database_bytes queue_capacity : Z) : io StorageWorker.t :=
  if (cache_bytes =? 0) || (max_database_bytes =? 0) || (queue_capacity =? 0)
  then fail StorageError.Invalid
  else
    _ ← prepare_path umask p;
    database ← open_database p max_database_bytes;
    look (fun _ => StorageWorker.open database cache_bytes max_database_bytes queue_capacity).

(** The branch of [Command::Backup] in [run], with the database closed: what the
    copy and the reopening answer. *)
Definition serve_backup (process_id : Z) (clock : option Z) (p destination : path) (max_database_bytes : Z)
    (w : world) : world * (result StorageError.t unit * result StorageError.t database) :=
  let '(w, copied) :=
    backup_closed_database umask dir_len open_read_only process_id clock p destination max_database_bytes w in
  let '(w, reopened) := open_database p max_database_bytes w in
  (w, (copied, reopened)).
End reopen.

(** * Reasoning about calls *)

(** When [m] begins in a world of [P], it ends in one of [Q] with its result, or in
    one of [E] with an error. *)
Definition triple {A} (P : world -> Prop) (m : io A) (Q : A -> world -> Prop) (E : world -> Prop) : Prop :=
  forall w, P w -> match m w with (w', Ok a) => Q a w' | (w', Err _) => E w' end.

Lemma triple_ret {A} (P : world -> Prop) (a : A) E : triple P (mret a) (fun b w => P w /\ b = a) E.
Proof. by intros w. Qed.

Lemma triple_fail {A} (P E : world -> Prop) e (Q : A -> world -> Prop) :
  (forall w, P w -> E w) -> triple P (fail e) Q E.
Proof. intros H w. apply H. Qed.

Lemma triple_bind {A B} P (m : io A) (k : A -> io B) R Q E :
  triple P m R E -> (forall a, triple (R a) (k a) Q E) -> triple P (m ≫= k) Q E.
Proof.
  intros Hm Hk w Hw. specialize (Hm w Hw). unfold mbind, io_bind.
  destruct (m w) as [w' [a|e]]; [by apply Hk|done].
Qed.

Lemma triple_weaken {A} (P P' : world -> Prop) (m : io A) Q Q' (E E' : world -> Prop) :
  triple P m Q E -> (forall w, P' w -> P w) -> (forall a w, Q a w -> Q' a w) -> (forall w, E w -> E' w) ->
  triple P' m Q' E'.
Proof.
  intros H HP HQ HE w Hw. specialize (H w (HP w Hw)). destruct (m w) as [w' [a|e]]; auto.
Qed.

(** Every state that a crash may bring back, now or so far, is in [S]. *)
Definition all (S : fs -> Prop) (w : world) : Prop :=
  S (now w) /\ Forall S (exposed w) /\ Forall S (seen w).

Lemma all_weaken (S T : fs -> Prop) w : (forall f, S f -> T f) -> all S w -> all T w.
Proof. intros H (H1 & H2 & H3). split_and!; [auto|by eapply Forall_impl..]. Qed.

Lemma all_change (S : fs -> Prop) f w : all S w -> S f -> all S (change f w).
Proof. intros (H1 & H2 & H3) Hf. by split_and!; try constructor. Qed.

Lemma all_next_fault S w : all S (next_fault w).1 <-> all S w.
Proof. unfold next_fault. by destruct (faults w). Qed.
Lemma now_next_fault w : now (next_fault w).1 = now w.
Proof. unfold next_fault. by destruct (faults w). Qed.

(** A call keeps [S] when what it does to a state of [S] and of [N] is in [S];
    then the state is in [T], or still in [N] when the call only looked. *)
Lemma triple_sys {A : Type} (S N : fs -> Prop) (f : fs -> result StorageError.t (option fs * A))
    (partial : nat -> fs -> option fs) (T : A -> fs -> Prop) :
  (forall g o a, S g -> N g -> f g = Ok (o, a) ->
     match o with Some h => S h /\ T a h | None => T a g end) ->
  (forall g n h, S g -> N g -> partial n g = Some h -> S h) ->
  triple (fun w => all S w /\ N (now w)) (sys f partial) (fun a w => all S w /\ T a (now w)) (all S).
Proof.
  intros Hf Hp w [Ha HN]. unfold sys. rewrite <- all_next_fault in Ha. rewrite <- now_next_fault in HN.
  destruct (next_fault w) as [w1 x]. simpl in *. assert (S (now w1)) as HS by apply Ha.
  destruct x as [|e n].
  - destruct (f (now w1)) as [[[g|] a]|e] eqn:E; simpl; [|by split; [|apply (Hf _ None a HS HN E)]|done].
    destruct (Hf _ (Some g) a HS HN E). split; [by apply all_change|done].
  - destruct (partial n (now w1)) as [g|] eqn:E; simpl; [|done]. apply all_change; [done|]. by eapply Hp.
Qed.

Lemma triple_look {A : Type} (S N : fs -> Prop) (f : fs -> result StorageError.t A) (T : A -> fs -> Prop) :
  (forall g a, S g -> N g -> f g = Ok a -> T a g) ->
  triple (fun w => all S w /\ N (now w)) (look f) (fun a w => all S w /\ T a (now w)) (all S).
Proof.
  intros H. apply triple_sys; [|done]. intros g o a HS HN.
  unfold mbind, result_bind. destruct (f g) as [b|e] eqn:E; [|done]. intros [= <- <-]. by apply H.
Qed.

Lemma triple_ask (S N : fs -> Prop) f :
  triple (fun w => all S w /\ N (now w)) (ask f) (fun _ w => all S w /\ N (now w)) (all S).
Proof.
  intros w [Ha HN]. unfold ask. rewrite <- all_next_fault in Ha. rewrite <- now_next_fault in HN.
  by destruct (next_fault w) as [w1 x].
Qed.

(** ** Directories *)

Section proofs.
Context (umask dir_len : Z) (open_read_only : bytes -> result str unit).

Lemma make_dirs_keeps l f g p x :
  make_dirs umask f l = Some g -> f !! p = Some x -> g !! p = Some x.
Proof.
  revert f. induction l as [|q l IH]; intros f; simpl; [by intros [= ->]|].
  unfold make_dir. destruct (f !! q) as [[|m]|] eqn:E; simpl; [done|by apply IH|].
  intros H Hp. apply (IH _ H). rewrite lookup_insert_ne; [done|]. intros ->. congruence.
Qed.

Lemma make_dirs_outside l f g p : make_dirs umask f l = Some g -> p ∉ l -> g !! p = f !! p.
Proof.
  revert f. induction l as [|q l IH]; intros f; simpl; [by intros [= ->]|].
  unfold make_dir. rewrite not_elem_of_cons.
  destruct (f !! q) as [[|m]|]; simpl; [done|naive_solver|].
  intros H [Hq Hl]. rewrite (IH _ H Hl). by apply lookup_insert_ne.
Qed.

Lemma prefixes_length p q : q ∈ prefixes p -> (length q <= length p)%nat.
Proof. unfold prefixes. rewrite list_elem_of_fmap. intros (n & -> & _). rewrite length_take. lia. Qed.

Lemma parent_Some p d : parent p = Some d -> exists c, p = d ++ [c].
Proof.
  unfold parent. destruct (reverse p) as [|c r] eqn:E; [done|]. case_bool_decide; [done|]. intros [= <-].
  exists c. by rewrite <- (reverse_involutive p), E, reverse_cons.
Qed.

(** The states in which the files that matter are as they were. *)
Definition untouched (l : list (path * option node)) (f : fs) : Prop :=
  Forall (fun '(p, x) => f !! p = x) l.

Lemma make_dirs_made l f g p :
  make_dirs umask f l = Some g -> p ∈ l -> exists m, g !! p = Some (Dir m).
Proof.
  revert f. induction l as [|q l IH]; intros f; simpl; [by intros _ ?%elem_of_nil|].
  intros H [->|Hp]%elem_of_cons.
  - unfold make_dir in H. destruct (f !! q) as [[|m]|] eqn:E; simpl in H; [done|..].
    + exists m. by eapply make_dirs_keeps.
    + eexists. eapply make_dirs_keeps; [done|apply lookup_insert_eq].
  - destruct (make_dir umask f q) as [h|]; [|done]. by apply (IH h).
Qed.

Lemma prefixes_self p : p <> [] -> p ∈ prefixes p.
Proof.
  intros Hp. unfold prefixes. apply list_elem_of_fmap. exists (length p). rewrite firstn_all. split; [done|].
  apply elem_of_seq. destruct p; simpl in *; [done|lia].
Qed.

(** What the making of directories above [p] leaves alone. *)
Definition spared (p : path) (x : path * option node) : Prop :=
  (length p <= length x.1)%nat \/ x.1 <> [] /\ exists c m s, x.2 = Some (File c m s).

Lemma make_dirs_untouched p d c l k f g :
  p = d ++ [c] -> Forall (spared p) l -> untouched l f ->
  make_dirs umask f (take k (prefixes d)) = Some g -> untouched l g.
Proof.
  intros -> Hl Hf Hg. unfold untouched in *. rewrite Forall_forall in Hl, Hf |- *. intros [q x] Hin.
  pose proof (Hf _ Hin) as Hx. simpl in Hx. destruct (Hl _ Hin) as [Hq|(_ & c' & m & s & Hs)]; simpl in *.
  - rewrite <- Hx. eapply make_dirs_outside; [done|]. intros Hq'.
    apply elem_of_take in Hq' as (i & Hi & _). apply list_elem_of_lookup_2, prefixes_length in Hi.
    rewrite length_app in Hq. simpl in Hq. lia.
  - subst x. rewrite Hs. by eapply make_dirs_keeps.
Qed.

(** Only directories above the destination are made or changed. *)
Lemma prepare_path_untouched p l :
  Forall (spared p) l ->
  triple (all (untouched l)) (prepare_path umask p) (fun _ => all (untouched l)) (all (untouched l)).
Proof.
  intros Hl. unfold prepare_path. destruct (parent p) as [d|] eqn:Ed; [|by apply triple_fail].
  destruct (parent_Some _ _ Ed) as [c Hp].
  eapply triple_bind; [eapply triple_weaken;
    [apply (triple_ask (untouched l) (fun _ => True))|done|intros a w [H _]; exact H|done]|].
  intros existed. eapply triple_bind.
  { eapply triple_weaken; [apply (triple_sys (untouched l) (fun _ => True) _ _
      (fun _ f => d = [] \/ exists m, f !! d = Some (Dir m)))|by intros|intros ? ? H; exact H|done].
    - intros g o a Hg _. destruct (make_dirs umask g (prefixes d)) as [h|] eqn:E; [|done]. intros [= <- <-].
      split; [|destruct (decide (d = [])); [by left|right; by eapply make_dirs_made, prefixes_self]].
      eapply (make_dirs_untouched _ d c l (length (prefixes d))); [done..|]. by rewrite firstn_all.
    - intros g n h Hg _ Hh. by eapply (make_dirs_untouched _ d c l n). }
  intros []. set (N := fun f : fs => d = [] \/ exists m, f !! d = Some (Dir m)).
  destruct existed.
  - eapply triple_bind; [by apply (triple_look (untouched l) N _ (fun _ _ => True))|]. intros m.
    case_if; [apply triple_fail|eapply triple_weaken; [apply triple_ret|..]]; naive_solver.
  - eapply triple_weaken; [apply (triple_sys (untouched l) N _ _ (fun _ _ => True))|done|intros ? ? [H _]; exact H|done];
      [|done].
    intros g o a Hg Hd Hs. simpl in Hs. destruct (g !! d) as [[c' m s|m]|] eqn:E; [..|done]; injection Hs as <- <-;
      (split; [|done]); unfold untouched in *; rewrite Forall_forall in Hl, Hg |- *; intros [q x] Hin;
      specialize (Hg _ Hin); specialize (Hl _ Hin); simpl in *; (rewrite lookup_insert_ne; [done|]); intros ->;
      destruct Hl as [Hq|(Hne & c'' & m' & s' & Hx)]; simpl in *.
    all: try (rewrite Hp, length_app in Hq; simpl in Hq; lia).
    all: destruct Hd as [->|[m'' Hd]]; [done|congruence].
Qed.

(** ** Installing a file *)

(** [f] has the whole of the verified content [c], synced, under [p]. *)
Definition holds_copy (c : bytes) (max_bytes : Z) (p : path) (f : fs) : Prop :=
  (exists m, f !! p = Some (File c m true)) /\ open_read_only c = Ok tt /\ len c <= max_bytes.

(** The source is as it was, and so is the destination unless the copy is
    complete. *)
Definition atomic_copy (source destination : path) (c : bytes) (mode : Z) (d : option node) (max_bytes : Z)
    (f : fs) : Prop :=
  f !! source = Some (File c mode true) /\
  (f !! destination = d \/ holds_copy c max_bytes destination f).

Lemma verify_keeps (S : fs -> Prop) N p :
  triple (fun w => all S w /\ N (now w)) (verify_database open_read_only p)
    (fun _ w => all S w /\ N (now w) /\
       match now w !! p with Some (File c _ _) => open_read_only c = Ok tt | _ => False end) (all S).
Proof.
  intros w [Ha HN]. unfold verify_database. rewrite <- all_next_fault in Ha. rewrite <- now_next_fault in HN.
  destruct (next_fault w) as [w1 [|e n]]; simpl in *; [|done].
  destruct (now w1 !! p) as [[c m s|m]|]; [|done..]. by destruct (open_read_only c) as [[]|].
Qed.

Lemma with_entries_inside (d : path) (f g : fs) (p : path) : parent p = Some d -> with_entries d f g !! p = f !! p.
Proof.
  intros Hp. unfold with_entries. apply option_eq. intros x.
  rewrite lookup_union_Some_raw, map_lookup_filter_None, !map_lookup_filter_Some. simpl. naive_solver.
Qed.

Lemma with_entries_either (d : path) (f g : fs) (p : path) :
  with_entries d f g !! p = f !! p \/ with_entries d f g !! p = g !! p.
Proof.
  destruct (decide (parent p = Some d)) as [H|H]; [left; by apply with_entries_inside|right].
  unfold with_entries. apply option_eq. intros x.
  rewrite lookup_union_Some_raw, map_lookup_filter_None, !map_lookup_filter_Some. simpl. naive_solver.
Qed.

Section install.
Context (source temporary destination : path) (max_bytes mode : Z) (c : bytes) (d : option node).
Hypothesis distinct : temporary <> source /\ temporary <> destination /\ source <> destination.
#[local] Abbreviation safe := (atomic_copy source destination c mode d max_bytes).
#[local] Abbreviation complete := (holds_copy c max_bytes destination).
#[local] Abbreviation partly s f := (exists c' m, f !! temporary = Some (File c' m s)).
#[local] Abbreviation copied s f := (exists m, f !! temporary = Some (File c m s)).

Lemma safe_insert (f : fs) x : safe f -> safe (<[temporary := x]> f).
Proof.
  destruct distinct as (? & ? & ?). unfold atomic_copy, holds_copy. by rewrite !lookup_insert_ne.
Qed.
Lemma safe_delete (f : fs) : safe f -> safe (delete temporary f).
Proof.
  destruct distinct as (? & ? & ?). unfold atomic_copy, holds_copy. by rewrite !lookup_delete_ne.
Qed.

Lemma create_new_safe :
  triple (all safe) (create_new umask temporary) (fun _ w => all safe w /\ partly false (now w)) (all safe).
Proof.
  eapply triple_weaken; [apply (triple_sys safe (fun _ => True) _ _ (fun _ f => partly false f))|done|done|done];
    [|done].
  intros g o [] Hg _ H. destruct (g !! temporary) eqn:E; [done|].
  destruct (parent temporary ≫= _) as [[|?]|]; [done| |done]. injection H as <-.
  split; [by apply safe_insert|]. rewrite lookup_insert_eq. eauto.
Qed.

Lemma copy_safe :
  triple (fun w => all safe w /\ partly false (now w)) (copy source temporary)
    (fun _ w => all safe w /\ copied false (now w)) (all safe).
Proof.
  apply (triple_sys safe (fun f => partly false f) _ _ (fun _ f => copied false f)).
  - intros g o a Hg (c' & m & Ht). unfold put_content. rewrite (proj1 Hg), Ht. intros [= <- <-].
    split; [by apply safe_insert|]. rewrite lookup_insert_eq. eauto.
  - intros g n h Hg (c' & m & Ht). unfold put_content. rewrite (proj1 Hg), Ht. intros [= <-].
    by apply safe_insert.
Qed.

Lemma sync_all_safe :
  triple (fun w => all safe w /\ copied false (now w)) (sync_all temporary)
    (fun _ w => all safe w /\ copied true (now w)) (all safe).
Proof.
  apply (triple_sys safe (fun f => copied false f) _ _ (fun _ f => copied true f)); [|done].
  intros g o a Hg (m & Ht). rewrite Ht. intros [= <- <-].
  split; [by apply safe_insert|]. rewrite lookup_insert_eq. eauto.
Qed.

Lemma copy_private_file_safe :
  triple (all safe) (copy_private_file umask dir_len source temporary max_bytes)
    (fun _ w => all safe w /\ copied true (now w) /\ len c <= max_bytes) (all safe).
Proof.
  unfold copy_private_file. eapply triple_bind.
  { eapply triple_weaken; [apply (triple_look safe (fun _ => True) _ (fun a _ => a = len c))
      |done|intros ? ? H; exact H|done].
    intros g a Hg _. rewrite (proj1 Hg). by intros [= ->]. }
  intros n. case_if; [apply triple_fail; naive_solver|].
  intros w [Ha ->]. revert w Ha. eapply triple_bind; [apply create_new_safe|]. intros [].
  eapply triple_bind.
  { by apply (triple_look safe (fun f => partly false f) _ (fun _ f => partly false f)). }
  intros []. eapply triple_bind; [apply copy_safe|]. intros [].
  eapply triple_weaken; [apply sync_all_safe|done| |done]. intros ? ? []; bools; split_and!; auto; lia.
Qed.

Lemma rename_safe :
  open_read_only c = Ok tt -> len c <= max_bytes ->
  triple (fun w => all safe w /\ copied true (now w)) (rename temporary destination)
    (fun _ w => all safe w /\ complete (now w)) (all safe).
Proof.
  intros Hc Hl. apply (triple_sys safe (fun f => copied true f) _ _ (fun _ => complete)); [|done].
  intros g o [] Hg (m & Ht). rewrite Ht. destruct distinct as (? & ? & ?).
  assert (complete (<[destination := File c m true]> (delete temporary g))) as Hd.
  { split; [|done]. rewrite lookup_insert_eq. eauto. }
  assert (safe (<[destination := File c m true]> (delete temporary g))) as Hs.
  { split; [|by right]. rewrite lookup_insert_ne, lookup_delete_ne by done. apply Hg. }
  destruct (g !! destination) as [[|]|]; intros [= <-]; done.
Qed.

Lemma with_entries_safe (p : path) (f g : fs) : safe f -> safe g -> complete f -> parent destination = Some p ->
  safe (with_entries p f g) /\ complete (with_entries p f g).
Proof.
  intros Hf Hg Hc Hp. assert (complete (with_entries p f g)) as H.
  { destruct Hc as [(m & Hm) Hc]. split; [|done]. exists m. by rewrite with_entries_inside. }
  split; [|done]. split; [|by right]. destruct (with_entries_either p f g source) as [->| ->]; [apply Hf|apply Hg].
Qed.

Lemma sync_parent_safe :
  triple (fun w => all safe w /\ complete (now w)) (sync_parent destination)
    (fun _ w => all safe w /\ complete (now w) /\ Forall complete (exposed w)) (all safe).
Proof.
  unfold sync_parent. destruct (parent destination) as [p|] eqn:Hp; [|apply triple_fail; naive_solver].
  intros w [Ha HN]. unfold sync_dir. rewrite <- all_next_fault in Ha. rewrite <- now_next_fault in HN.
  destruct (next_fault w) as [w1 [|e n]]; simpl in *; [|done]. destruct (now w1 !! p); [|done].
  destruct Ha as (Hn & He & Hs).
  assert (Forall (fun f => safe f /\ complete f) (map (with_entries p (now w1)) (exposed w1))) as H.
  { apply Forall_fmap. eapply Forall_impl; [exact He|]. intros g Hg. by apply with_entries_safe. }
  apply Forall_and in H as [H1 H2]. repeat split; simpl; auto. all: try apply Forall_app; try apply Hn; try apply HN; auto.
Qed.

Lemma remove_temporary_safe w : all safe w -> all safe (remove_file temporary w).1.
Proof.
  intros Ha. assert (triple (fun w => all safe w /\ True) (remove_file temporary) (fun _ w => all safe w /\ True) (all safe)) as H.
  { apply (triple_sys safe (fun _ => True) _ _ (fun _ _ => True)); [|done].
    intros g o a Hg _. destruct (g !! temporary) as [[|]|]; [|done..]. intros [= <- <-].
    split; [by apply safe_delete|done]. }
  specialize (H w (conj Ha I)). destruct (remove_file temporary w) as [w' [a|e]]; [apply H|done].
Qed.

Lemma install_safe :
  triple (all safe) (install umask dir_len open_read_only source temporary destination max_bytes)
    (fun _ w => all safe w /\ Forall complete (exposed w)) (all safe).
Proof.
  assert (triple (all safe)
    (_ ← copy_private_file umask dir_len source temporary max_bytes;
     _ ← verify_database open_read_only temporary;
     _ ← rename temporary destination; sync_parent destination)
    (fun _ w => all safe w /\ Forall complete (exposed w)) (all safe)) as H.
  { eapply triple_bind; [apply copy_private_file_safe|]. intros []. eapply triple_bind.
    { apply (verify_keeps safe (fun f => copied true f /\ len c <= max_bytes)). }
    intros []. intros w (Ha & (Ht & Hl) & Hv). assert (open_read_only c = Ok tt) as Hc.
    { destruct Ht as [m Ht]. by rewrite Ht in Hv. }
    revert w Ha Ht Hv. 
    enough (triple (fun w => all safe w /\ copied true (now w)) (_ ← rename temporary destination; sync_parent destination)
      (fun _ w => all safe w /\ Forall complete (exposed w)) (all safe)) as H by (intros w ? ? _; by apply H).
    eapply triple_bind; [by apply rename_safe|]. intros [].
    eapply triple_weaken; [apply sync_parent_safe|done|naive_solver|done]. }
  intros w Hw. specialize (H w Hw). unfold install.
  destruct ((_ ← copy_private_file umask dir_len source temporary max_bytes; _) w) as [w' [a|e]]; [done|].
  by apply remove_temporary_safe.
Qed.
End install.
End proofs.

(** * Crashes *)

(** What a crash leaves of a node: the content of a file that was not synced may
    be anything. *)
Definition crash_node (x y : node) : Prop :=
  match x, y with
  | File _ m false, File _ m' _ => m' = m
  | File _ _ false, Dir _ => False
  | _, _ => y = x
  end.
Definition crash (f g : fs) : Prop := forall p, option_Forall2 crash_node (f !! p) (g !! p).

Lemma crash_synced (f g : fs) (p : path) c m : crash f g -> f !! p = Some (File c m true) -> g !! p = Some (File c m true).
Proof. intros H Hf. specialize (H p). rewrite Hf in H. by inversion H as [? ? Hx|]; subst; simpl in Hx; subst. Qed.

Lemma crash_refl (f : fs) : crash f f.
Proof.
  intros p. destruct (f !! p) as [[c m []|m]|]; by constructor.
Qed.

(** What remains of a destination that was [d] before: what a crash leaves of it, or
    the whole of the copy. *)
Definition after_crash (source destination : path) (open_read_only : bytes -> result str unit) (c : bytes)
    (mode : Z) (d : option node) (max_bytes : Z) (h : fs) : Prop :=
  h !! source = Some (File c mode true) /\
  (option_Forall2 crash_node d (h !! destination) \/
   holds_copy open_read_only c max_bytes destination h).

Lemma holds_copy_crash open_read_only (c : bytes) (max_bytes : Z) (p : path) (f g : fs) :
  crash f g -> holds_copy open_read_only c max_bytes p f -> holds_copy open_read_only c max_bytes p g.
Proof. intros Hc [(m & Hm) H]. split; [|done]. exists m. by eapply crash_synced. Qed.

Lemma atomic_copy_crash open_read_only (source destination : path) (c : bytes) (mode : Z) (d : option node)
    (max_bytes : Z) (f g : fs) :
  crash f g -> atomic_copy open_read_only source destination c mode d max_bytes f ->
  after_crash source destination open_read_only c mode d max_bytes g.
Proof.
  intros Hc [Hs Hd]. split; [by eapply crash_synced|].
  destruct Hd as [Hd|Hd]; [left|right; by eapply holds_copy_crash]. subst d. apply Hc.
Qed.

Lemma with_extension_length p e : length (with_extension p e) = length p.
Proof.
  unfold with_extension. destruct (file_name p); [|done]. destruct (parent p) eqn:E; [|done].
  apply parent_Some in E as [c ->]. by rewrite !length_app.
Qed.

Section atomic.
Context (umask dir_len : Z) (open_read_only : bytes -> result str unit).
Context (source destination : path) (max_bytes mode : Z) (c : bytes) (f : fs).
#[local] Abbreviation safe :=
  (atomic_copy open_read_only source destination c mode (f !! destination) max_bytes).
#[local] Abbreviation complete := (holds_copy open_read_only c max_bytes destination).

(** The directories, then the file. *)
Lemma prepared_install_safe temporary :
  f !! source = Some (File c mode true) -> source <> [] -> source <> destination ->
  f !! temporary = None -> temporary <> destination ->
  triple (all (untouched [(source, Some (File c mode true)); (destination, f !! destination)]))
    (_ ← prepare_path umask destination;
     install umask dir_len open_read_only source temporary destination max_bytes)
    (fun _ w => all safe w /\ Forall complete (exposed w)) (all safe).
Proof.
  intros Hs Hne Hsd Ht Htd.
  assert (forall w, all (untouched [(source, Some (File c mode true)); (destination, f !! destination)]) w ->
    all safe w) as Hw.
  { intros w. apply all_weaken. intros g [H1 [H2 _]%Forall_cons]%Forall_cons. split; [done|by left]. }
  eapply triple_bind.
  - eapply triple_weaken; [apply prepare_path_untouched|done|intros a w H; exact H|apply Hw].
    apply Forall_cons_2; [right; simpl; eauto|]. apply Forall_cons_2; [by left|done].
  - intros []. eapply triple_weaken; [apply install_safe|exact Hw|done|done].
    split_and!; [intros ->; congruence|done..].
Qed.

Lemma all_start l : f !! source = Some (File c mode true) ->
  all (untouched [(source, Some (File c mode true)); (destination, f !! destination)]) (start f l).
Proof.
  intros H. assert (untouched [(source, Some (File c mode true)); (destination, f !! destination)] f).
  { by repeat constructor. }
  by repeat constructor.
Qed.
End atomic.

Section theorems.
Context (umask dir_len : Z) (open_read_only : bytes -> result str unit) (process_id : Z) (clock : option Z).
Context (source destination : path) (max_bytes mode : Z) (c : bytes).
#[local] Abbreviation backup := (backup_closed_database umask dir_len open_read_only process_id clock).
#[local] Abbreviation restore := (restore_stopped_database umask dir_len open_read_only process_id clock).
#[local] Abbreviation temporary kind := (temporary_name process_id kind destination).
#[local] Abbreviation safe f :=
  (atomic_copy open_read_only source destination c mode (f !! destination) max_bytes).
#[local] Abbreviation complete := (holds_copy open_read_only c max_bytes destination).

(** The source is a file whose content is on the disk, and the temporary name is
    free. *)
Definition ready (f : fs) (kind : str) : Prop :=
  f !! source = Some (File c mode true) /\ source <> [] /\
  forall nanos, clock = Some nanos -> f !! temporary kind nanos = None /\ temporary kind nanos <> destination.

Lemma untouched_safe (f : fs) w :
  all (untouched [(source, Some (File c mode true)); (destination, f !! destination)]) w -> all (safe f) w.
Proof. apply all_weaken. intros g [H1 [H2 _]%Forall_cons]%Forall_cons. split; [done|by left]. Qed.

(** The directories are made, the clock is read and the file is installed. *)
Lemma dated_install_safe (f : fs) kind :
  ready f kind -> source <> destination ->
  triple (all (untouched [(source, Some (File c mode true)); (destination, f !! destination)]))
    (_ ← prepare_path umask destination;
     match clock with
     | None => fail StorageError.Invalid
     | Some nanos =>
         install umask dir_len open_read_only source (temporary kind nanos) destination max_bytes
     end)
    (fun _ w => all (safe f) w /\ Forall complete (exposed w)) (all (safe f)).
Proof.
  intros (Hs & Hne & Ht) Hd. destruct clock as [nanos|].
  - destruct (Ht nanos eq_refl). by apply prepared_install_safe.
  - eapply triple_bind; [eapply triple_weaken; [apply prepare_path_untouched|done|
      intros a w H; exact H|apply untouched_safe]|].
    + apply Forall_cons_2; [right; simpl; eauto|]. apply Forall_cons_2; [by left|done].
    + intros []. apply triple_fail, untouched_safe.
Qed.

(** A run from a state that is [ready]. *)
Definition installs (f : fs) (m : io unit) : Prop :=
  forall l, match m (start f l) with
            | (w, Ok _) => all (safe f) w /\ Forall complete (exposed w)
            | (w, Err _) => all (safe f) w
            end.

Lemma backup_installs (f : fs) : ready f #"backup" -> installs f (backup source destination max_bytes).
Proof.
  intros Hf l. set (S := untouched [(source, Some (File c mode true)); (destination, f !! destination)]).
  enough (triple (all S) (backup source destination max_bytes)
    (fun _ w => all (safe f) w /\ Forall complete (exposed w)) (all (safe f))) as H
    by (apply (H (start f l)), all_start, Hf).
  unfold backup_closed_database. case_bool_decide; [apply triple_fail, untouched_safe|].
  eapply triple_bind; [eapply triple_weaken;
    [apply (triple_ask S (fun _ => True))|done|intros a w H1; exact (proj1 H1)|apply untouched_safe]|].
  intros [|]; [apply triple_fail, untouched_safe|]. by apply dated_install_safe.
Qed.

Lemma restore_installs (f : fs) : ready f #"restore" -> installs f (restore source destination max_bytes).
Proof.
  intros Hf l. set (S := untouched [(source, Some (File c mode true)); (destination, f !! destination)]).
  enough (triple (all S) (restore source destination max_bytes)
    (fun _ w => all (safe f) w /\ Forall complete (exposed w)) (all (safe f))) as H
    by (apply (H (start f l)), all_start, Hf).
  unfold restore_stopped_database. case_bool_decide; [apply triple_fail, untouched_safe|].
  eapply triple_bind; [eapply triple_weaken;
    [apply (triple_ask S (fun _ => True))|done|intros a w H1; exact (proj1 H1)|apply untouched_safe]|].
  intros file. destruct (_ || _); [apply triple_fail, untouched_safe|].
  eapply triple_bind; [eapply triple_weaken;
    [apply (triple_look S (fun _ => True) _ (fun _ _ => True))|done|intros a w H1; exact (proj1 H1)|
     apply untouched_safe]; done|].
  intros n. case_if; [apply triple_fail, untouched_safe|].
  eapply triple_bind; [eapply triple_weaken;
    [apply (verify_keeps _ S (fun _ => True))|done|intros a w H1; exact (proj1 H1)|apply untouched_safe]|].
  intros []. by apply dated_install_safe.
Qed.

(** After a crash at any point the source is there and the destination is what it
    was or the whole copy; once the answer is a success, it is the copy. *)
Definition crash_atomic (f : fs) (m : io unit) : Prop :=
  forall l g h, crash g h ->
    (g ∈ seen (m (start f l)).1 ->
       after_crash source destination open_read_only c mode (f !! destination) max_bytes h) /\
    (g ∈ exposed (m (start f l)).1 -> (m (start f l)).2 = Ok tt -> complete h).

Lemma installs_atomic (f : fs) (m : io unit) : installs f m -> crash_atomic f m.
Proof.
  intros H l g h Hc. specialize (H l). destruct (m (start f l)) as [w [[]|e]]; simpl.
  - destruct H as [(_ & _ & Hs) He]. rewrite Forall_forall in Hs, He.
    split; [intros ?; eapply atomic_copy_crash; eauto|intros ? _; eapply holds_copy_crash; eauto].
  - destruct H as (_ & _ & Hs). rewrite Forall_forall in Hs.
    split; [intros ?; eapply atomic_copy_crash; eauto|done].
Qed.
End theorems.

(** ** Runs without failures *)

Lemma sys_ok {A} (f : fs -> result StorageError.t (option fs * A)) partial w o a :
  faults w = [] -> f (now w) = Ok (o, a) ->
  sys f partial w = (match o with Some g => change g w | None => w end, Ok a).
Proof. intros Hw Hf. unfold sys, next_fault. rewrite Hw. simpl. by rewrite Hf. Qed.

Lemma make_dirs_present umask (f : fs) l :
  Forall (fun q => exists m, f !! q = Some (Dir m)) l -> make_dirs umask f l = Some f.
Proof.
  induction l as [|q l IH]; simpl; [done|]. intros [[m Hm] Hl]%Forall_cons.
  unfold make_dir. rewrite Hm. by apply IH.
Qed.

Lemma with_extension_parent p e :
  with_extension p e <> p -> parent (with_extension p e) = parent p.
Proof.
  unfold with_extension. destruct (file_name p) as [name|]; [|done]. destruct (parent p) as [d|] eqn:E; [|done].
  intros _. unfold parent. rewrite reverse_app. simpl. case_bool_decide as H; [|by rewrite reverse_involutive].
  exfalso. destruct (file_stem name) as [|? []]; simpl in H; [done|done|done].
Qed.

#[local] Arguments Z.ldiff : simpl never.

Section completes.
Context (umask dir_len : Z) (open_read_only : bytes -> result str unit).
Context (source temporary destination d : path) (max_bytes : Z) (c : bytes).
Hypothesis content_opens : open_read_only c = Ok tt.
Hypothesis content_fits : len c <= max_bytes.
Hypothesis names : parent temporary = Some d /\ parent destination = Some d /\ temporary <> destination.
#[local] Abbreviation copied s := (File c (Z.ldiff 0x180 umask) s).

(** The copy stands in the temporary file. *)
Lemma copy_private_file_completes w m s dm :
  faults w = [] -> now w !! source = Some (File c m s) -> now w !! temporary = None -> now w !! d = Some (Dir dm) ->
  exists w', copy_private_file umask dir_len source temporary max_bytes w = (w', Ok tt) /\ faults w' = [] /\
    now w' = <[temporary := copied true]> (now w).
Proof.
  intros Hw Hs Ht Hd. assert (source <> temporary) as Hne by congruence. destruct names as (Hp & _ & _).
  unfold copy_private_file, mbind, io_bind. unfold metadata_len, look.
  erewrite sys_ok; [|done|unfold mbind, result_bind; rewrite Hs; reflexivity]. simpl.
  replace (max_bytes <? len c) with false by (symmetry; apply Z.ltb_ge; lia).
  unfold create_new. erewrite sys_ok; [|done|rewrite Ht, Hp; simpl; rewrite Hd; reflexivity]. simpl.
  erewrite sys_ok; [|done|simpl; rewrite lookup_insert_ne, Hs by done; reflexivity]. simpl.
  unfold copy. erewrite sys_ok; [|done|simpl; rewrite lookup_insert_ne, Hs by done; reflexivity]. simpl.
  unfold put_content. rewrite lookup_insert_eq. simpl.
  unfold sync_all. erewrite sys_ok; [|done|simpl; rewrite lookup_insert_eq; reflexivity].
  eexists. split; [reflexivity|]. split; [done|]. simpl. by rewrite !insert_insert_eq.
Qed.

Lemma install_completes w m s dm :
  faults w = [] -> now w !! source = Some (File c m s) -> now w !! temporary = None -> now w !! d = Some (Dir dm) ->
  (forall x, now w !! destination <> Some (Dir x)) ->
  exists w', install umask dir_len open_read_only source temporary destination max_bytes w = (w', Ok tt) /\
    now w' = <[destination := copied true]> (now w).
Proof.
  intros Hw Hs Ht Hd Hdest. destruct (copy_private_file_completes w m s dm) as (w1 & E1 & Hw1 & Hn1); [done..|].
  destruct names as (Hpt & Hpd & Hne). assert (temporary <> d) by congruence.
  assert (destination <> d) by (intros ->; by apply (Hdest dm)).
  unfold install, mbind, io_bind. rewrite E1. unfold verify_database, next_fault at 1. rewrite Hw1, Hn1, lookup_insert_eq.
  rewrite content_opens. simpl. unfold rename.
  erewrite sys_ok; [|done|rewrite Hn1, lookup_insert_eq, lookup_insert_ne by done;
    destruct (now w !! destination) as [[]|]; [|by destruct (Hdest mode)|]; reflexivity].
  rewrite delete_insert_id by done. simpl. unfold sync_parent, sync_dir, next_fault. rewrite Hpd. simpl.
  rewrite Hw1. simpl. rewrite lookup_insert_ne, Hd by done. simpl. eauto.
Qed.
End completes.

(** ** Reopening *)

Section reopening.
Context `{RedbFile} (umask dir_len : Z).

Lemma open_backend_keeps p max_bytes (x : node) :
  triple (fun w => now w !! p = Some x) (open_backend umask dir_len p max_bytes)
    (fun _ w => now w !! p = Some x) (fun _ => True).
Proof.
  assert (forall (A : Type) (f : fs -> result StorageError.t A),
    triple (fun w => now w !! p = Some x) (look f) (fun _ w => now w !! p = Some x) (fun _ => True)) as Hl.
  { intros A f w Hw. unfold look, sys. rewrite <- now_next_fault in Hw. destruct (next_fault w) as [w1 [|e n]]; [|done].
    unfold mbind, result_bind. simpl in *. by destruct (f (now w1)). }
  unfold open_backend. eapply triple_bind.
  - instantiate (1 := fun _ w => now w !! p = Some x). intros w Hw. unfold open_or_create, sys.
    rewrite <- now_next_fault in Hw. destruct (next_fault w) as [w1 [|e n]]; [|done]. simpl in *. rewrite Hw.
    by destruct x.
  - intros []. eapply triple_bind; [apply Hl|]. intros m. case_if; [by apply triple_fail|].
    eapply triple_bind; [apply Hl|]. intros n. case_if; [by apply triple_fail|]. by intros w Hw.
Qed.

(** The table that is opened is the one in the file. *)
Lemma open_database_same p max_bytes c m s w w' d :
  now w !! p = Some (File c m s) -> open_database umask dir_len p max_bytes w = (w', Ok d) ->
  committed d = stored c.
Proof.
  intros Hw. unfold open_database, mbind, io_bind.
  pose proof (open_backend_keeps p max_bytes _ w Hw) as Hk.
  destruct (open_backend _ _ _ _ w) as [w1 [[]|e]]; [|done].
  unfold create_database. rewrite <- now_next_fault in Hk. destruct (next_fault w1) as [w2 [|e n]]; [|done].
  simpl in Hk. rewrite Hk. destruct (create_with_backend c).2 as [d1|e] eqn:Ec; [|done]. simpl.
  apply create_reads in Ec. rewrite <- Ec. unfold open_table.
  destruct (begin_write d1) as [t|e] eqn:Eb; [|done]. simpl. apply begin_write_ok in Eb.
  destruct (commit d1 t) as [d2 [[]|e]] eqn:Em; simpl; [|done]. intros [= _ <-].
  apply commit_ok in Em. congruence.
Qed.
End reopening.

(** ** Access to the files *)

Definition node_mode (x : node) : Z := match x with File _ m _ | Dir m => m end.
(** Neither the group nor others have access to [p]. *)
Definition private (p : path) (f : fs) : Prop :=
  exists x, f !! p = Some x /\ Z.land (node_mode x) 0x3f = 0.

(** What a call does to the file system, when no more is asked than how it is
    afterwards. *)
Definition ends {A} (P : fs -> Prop) (m : io A) (Q : A -> fs -> Prop) : Prop :=
  triple (fun w => P (now w)) m (fun a w => Q a (now w)) (fun _ => True).

Lemma ends_bind {A B} P (m : io A) (k : A -> io B) R Q :
  ends P m R -> (forall a, ends (R a) (k a) Q) -> ends P (m ≫= k) Q.
Proof. apply triple_bind. Qed.

Lemma ends_fail {A} P e (Q : A -> fs -> Prop) : ends P (fail e) Q.
Proof. by intros w. Qed.

Lemma ends_sys {A} (P : fs -> Prop) (f : fs -> result StorageError.t (option fs * A)) partial Q :
  (forall g o a, P g -> f g = Ok (o, a) -> Q a (default g o)) -> ends P (sys f partial) Q.
Proof.
  intros H w Hw. unfold sys. rewrite <- now_next_fault in Hw. destruct (next_fault w) as [w1 [|e n]]; simpl in *; [|done].
  destruct (f (now w1)) as [[o a]|e] eqn:E; [|done]. specialize (H _ _ _ Hw E). by destruct o.
Qed.

Lemma ends_look {A} (P : fs -> Prop) (f : fs -> result StorageError.t A) :
  ends P (look f) (fun a g => P g /\ f g = Ok a).
Proof.
  apply ends_sys. intros g o a Hg. unfold mbind, result_bind. destruct (f g) as [b|] eqn:E; [|done].
  by intros [= <- <-].
Qed.

Lemma ends_ask P f : ends P (ask f) (fun _ => P).
Proof. intros w Hw. unfold ask. rewrite <- now_next_fault in Hw. by destruct (next_fault w). Qed.

Lemma ends_weaken {A} (P P' : fs -> Prop) (m : io A) (Q Q' : A -> fs -> Prop) :
  ends P m Q -> (forall f, P' f -> P f) -> (forall a f, Q a f -> Q' a f) -> ends P' m Q'.
Proof. intros H HP HQ. by apply (triple_weaken _ _ _ _ _ _ _ H); auto. Qed.

Lemma prepare_path_private umask p d :
  parent p = Some d -> ends (fun _ => True) (prepare_path umask p) (fun _ => private d).
Proof.
  intros Hp. unfold prepare_path. rewrite Hp. eapply ends_bind; [apply ends_ask|]. intros existed.
  eapply ends_bind; [by apply (ends_sys _ _ _ (fun _ _ => True))|]. intros []. destruct existed.
  - eapply ends_bind; [apply ends_look|]. intros m. case_if; [apply ends_fail|]. intros w [_ Hm]. simpl.
    destruct (now w !! d) as [x|] eqn:E; [|done].
    exists x. split; [done|]. destruct x; injection Hm as <-; done.
  - apply ends_sys. intros g o [] _ H. destruct (g !! d) as [[c m s|m]|]; [..|done]; injection H as <-; simpl;
      (eexists; split; [apply lookup_insert_eq|done]).
Qed.

Lemma private_insert p d x f : p <> d -> private d f -> private d (<[p := x]> f).
Proof. intros Hne (y & Hy & Hm). exists y. by rewrite lookup_insert_ne. Qed.

Lemma store_private `{RedbFile} p q content w : p <> q -> private p (now w) /\ private q (now w) ->
  private p (now (store q content w)) /\ private q (now (store q content w)).
Proof.
  intros Hne [Hp (x & Hx & Hm)]. unfold store. rewrite Hx. destruct x as [c m s|m]; simpl.
  - split; [by apply private_insert|]. eexists. by rewrite lookup_insert_eq.
  - split; [done|]. by exists (Dir m).
Qed.

Lemma open_database_private `{RedbFile} umask dir_len p d max_bytes :
  parent p = Some d ->
  ends (private d) (open_database umask dir_len p max_bytes) (fun _ f => private d f /\ private p f).
Proof.
  intros Hp. assert (d <> p) as Hne.
  { intros ->. apply parent_Some in Hp as [c E]. apply (f_equal length) in E. rewrite length_app in E. simpl in E. lia. }
  unfold open_database, open_backend. eapply ends_bind.
  { eapply ends_bind; [apply (ends_sys _ _ _ (fun _ => private d))|].
    - intros g o [] Hg E. destruct (g !! p) as [[]|]; [by injection E as <-|done|].
      destruct (parent p ≫= _) as [[]|]; [done| |done]. injection E as <-. by apply private_insert.
    - intros []. eapply ends_bind; [apply ends_look|]. intros m. case_if; [apply ends_fail|].
      eapply ends_bind; [apply ends_look|]. intros n. case_if; [apply ends_fail|].
      intros w ((Hd & Hm) & _). simpl. instantiate (1 := fun _ f => private d f /\ private p f). split; [done|].
      destruct (now w !! p) as [x|] eqn:E; [|done].
      exists x. split; [done|]. destruct x; injection Hm as <-; done. }
  intros []. eapply ends_bind.
  - intros w Hw. unfold create_database. rewrite <- now_next_fault in Hw.
    destruct (next_fault w) as [w1 [|e n]]; simpl in *; [|done]. destruct (now w1 !! p) as [[c m s|]|]; [|done..].
    destruct (db_error _); [|done]. instantiate (1 := fun _ f => private d f /\ private p f). by apply store_private.
  - intros db w Hw. unfold open_table. destruct (db_error (begin_write db)) as [table|]; [|done].
    destruct (commit db table) as [db' r]. unfold mbind, result_bind. destruct (db_error r); [|done]. by apply store_private.
Qed.

(** * Properties *)

(** C18: Backups are atomic.  The database is closed, its content is on the disk and
    the temporary name is free; any of the calls of the operating system may fail.
    Then, after a crash at any point, the database is as it was and the destination
    is what a crash leaves of what was there or the whole content of the database,
    which redb has opened and which is no longer than the limit; when the answer
    was a success, it is that content. *)
Theorem backup_atomic umask dir_len open_read_only process_id clock source destination max_bytes mode c f :
  ready process_id clock source destination mode c f #"backup" ->
  crash_atomic open_read_only source destination max_bytes mode c f
    (backup_closed_database umask dir_len open_read_only process_id clock source destination max_bytes).
Proof. intros H. by apply installs_atomic, backup_installs. Qed.

(** The restoration of a backup is atomic in the same way: a database that is
    replaced is there as a whole until the verified backup is there as a whole. *)
Theorem restore_atomic umask dir_len open_read_only process_id clock backup destination max_bytes mode c f :
  ready process_id clock backup destination mode c f #"restore" ->
  crash_atomic open_read_only backup destination max_bytes mode c f
    (restore_stopped_database umask dir_len open_read_only process_id clock backup destination max_bytes).
Proof. intros H. by apply installs_atomic, restore_installs. Qed.

(** C24: A backup that has answered a success, a crash, any changes that keep the
    backup, a restoration that answers a success, and another crash leave the
    content that the database had when it was backed up. *)
Theorem backup_roundtrip umask dir_len open_read_only process_id clock process_id' clock'
    source backup target max_bytes max_bytes' mode c f l g h f' l' g' h' :
  ready process_id clock source backup mode c f #"backup" ->
  (backup_closed_database umask dir_len open_read_only process_id clock source backup max_bytes (start f l)).2
    = Ok tt ->
  g ∈ exposed (backup_closed_database umask dir_len open_read_only process_id clock source backup max_bytes
    (start f l)).1 ->
  crash g h -> f' !! backup = h !! backup -> backup <> [] ->
  (forall nanos, clock' = Some nanos ->
     f' !! temporary_name process_id' #"restore" target nanos = None /\
     temporary_name process_id' #"restore" target nanos <> target) ->
  (restore_stopped_database umask dir_len open_read_only process_id' clock' backup target max_bytes'
    (start f' l')).2 = Ok tt ->
  g' ∈ exposed (restore_stopped_database umask dir_len open_read_only process_id' clock' backup target max_bytes'
    (start f' l')).1 ->
  crash g' h' ->
  exists m, h' !! target = Some (File c m true).
Proof.
  intros Hf Hr Hg Hc Hf' Hne Ht Hr' Hg' Hc'.
  pose proof (backup_installs umask dir_len open_read_only _ _ _ _ max_bytes _ _ _ Hf) as Hb.
  destruct (installs_atomic _ _ _ _ _ _ _ _ Hb l g h Hc) as [_ H].
  destruct (H Hg Hr) as [[m Hm] _]. rewrite Hm in Hf'.
  assert (ready process_id' clock' backup target m c f' #"restore") as Hf2 by done.
  pose proof (restore_installs umask dir_len open_read_only _ _ _ _ max_bytes' _ _ _ Hf2) as Hb'.
  destruct (installs_atomic _ _ _ _ _ _ _ _ Hb' l' g' h' Hc') as [_ H']. apply (H' Hg' Hr').
Qed.

(** Without failures a backup of a database that redb opens and that is within
    the limit answers a success, when the directory of the backup is there and
    private and neither the name of the backup nor the temporary one is taken; all
    that has changed is that the copy is there. *)
Theorem backup_completes umask dir_len open_read_only process_id nanos source destination d max_bytes
    c m s dm f :
  f !! source = Some (File c m s) -> open_read_only c = Ok tt -> len c <= max_bytes ->
  f !! destination = None -> parent destination = Some d -> f !! d = Some (Dir dm) -> Z.land dm 0x3f = 0 ->
  Forall (fun q => exists x, f !! q = Some (Dir x)) (prefixes d) ->
  f !! temporary_name process_id #"backup" destination nanos = None ->
  temporary_name process_id #"backup" destination nanos <> destination ->
  exists w,
    backup_closed_database umask dir_len open_read_only process_id (Some nanos) source destination max_bytes
      (start f []) = (w, Ok tt) /\
    now w = <[destination := File c (Z.ldiff 0x180 umask) true]> f.
Proof.
  intros Hs Ho Hl Hd Hp Hdir Hm Hpre Ht Hne. unfold backup_closed_database.
  rewrite bool_decide_false by congruence. unfold mbind, io_bind, path_exists, ask at 1. simpl. rewrite Hd. simpl.
  unfold prepare_path. rewrite Hp. unfold mbind, io_bind, path_exists, ask. simpl. rewrite Hdir. simpl.
  unfold create_dir_all. erewrite sys_ok; [|done|simpl; rewrite make_dirs_present by done; reflexivity]. simpl.
  unfold metadata_mode, look.
  erewrite sys_ok; [|done|unfold mbind, result_bind; simpl; rewrite Hdir; reflexivity]. simpl.
  rewrite Hm. simpl.
  eapply (install_completes _ _ _ source _ destination d); try done; simpl; [|by intros x; rewrite Hd].
  split_and!; [|done..]. unfold temporary_name in *. by rewrite with_extension_parent.
Qed.

(** A backup leaves the database of the worker as it was: when the file of the
    closed database stores its table, the worker that serves the backup and reopens
    the file continues with the table it had, whatever of the backup has failed.
    That is what the history of the commands relies on. *)
Theorem backup_keeps_table `{RedbFile} umask dir_len open_read_only process_id clock source destination
    max_bytes mode c f l worker d :
  StorageWorker.db worker = Some d -> stored c = committed d ->
  ready process_id clock source destination mode c f #"backup" ->
  let '(_, (copied, reopened)) :=
    serve_backup umask dir_len open_read_only process_id clock source destination max_bytes (start f l) in
  WorkerFacts.event_ok worker (WorkerFacts.Thread copied reopened).
Proof.
  intros Hd Hc Hr. unfold serve_backup.
  pose proof (backup_installs umask dir_len open_read_only _ _ _ _ max_bytes _ _ _ Hr l) as Hb.
  destruct (backup_closed_database _ _ _ _ _ _ _ _ _) as [w copied].
  assert (now w !! source = Some (File c mode true)) as Hs.
  { destruct copied; [apply (proj1 Hb)|apply Hb]. }
  destruct (open_database _ _ _ _ _) as [w' [d'|e]] eqn:Eo; simpl; [|done].
  intros d0 Hd0. assert (d0 = d) as -> by congruence. by rewrite <- Hc; eapply open_database_same.
Qed.

(** C25: The database is private.  Whatever the file system is and whichever calls
    fail, a storage that could be opened has a file and a directory to which neither
    the group nor others have access. *)
Theorem storage_private `{RedbFile} umask dir_len p cache_bytes max_bytes queue_capacity f l w worker :
  open_worker umask dir_len p cache_bytes max_bytes queue_capacity (start f l) = (w, Ok worker) ->
  exists d, parent p = Some d /\ private d (now w) /\ private p (now w).
Proof.
  unfold open_worker. case_if; [done|]. destruct (parent p) as [d|] eqn:Hp; [|unfold prepare_path; by rewrite Hp].
  intros E. exists d. split; [done|].
  match type of E with ?m _ = _ =>
    enough (ends (fun _ => True) m (fun _ f => private d f /\ private p f)) as Hends;
    [specialize (Hends (start f l) I); rewrite E in Hends; exact Hends|] end.
  eapply ends_bind; [by apply prepare_path_private|]. intros [].
  eapply ends_bind; [by apply open_database_private|]. intros db.
  eapply ends_weaken; [apply ends_look|intros g Hg; exact Hg|intros ? ? [? _]; done].
Qed.

(** * Examples *)

Definition demo_source : path := components #"/var/lib/snolc/policy.redb".
Definition demo_backup : path := components #"/srv/backup/policy.bak".
Definition demo_temporary : path := temporary_name 7 #"backup" demo_backup 1000.
Definition demo_content : bytes := #"redb database".

Definition demo_fs : fs :=
  list_to_map
    (map (fun p => (p, Dir 0x1c0)) (prefixes (components #"/var/lib/snolc") ++ prefixes (components #"/srv/backup"))
     ++ [(demo_source, File demo_content 0x180 true)]).

(** redb opens what begins with its magic. *)
Definition demo_open (c : bytes) : result str unit :=
  if bool_decide (take 4 c = #"redb") then Ok tt else Err #"not a database".

Definition demo_run (l : list fault) : world * result StorageError.t unit :=
  backup_closed_database 0x12 4096 demo_open 7 (Some 1000) demo_source demo_backup 1000 (start demo_fs l).

Example demo_temporary_name : demo_temporary = components #"/srv/backup/policy.backup-7-1000".
Proof. vm_compute. reflexivity. Qed.

(** The copy is cut off after five bytes: the temporary file is removed. *)
Example demo_cut_off :
  let '(w, r) := demo_run [Proceeds; Proceeds; Proceeds; Proceeds; Proceeds; Proceeds; Proceeds; Fails #"no space" 5]
  in (now w !! demo_backup, now w !! demo_temporary, r) = (None, None, Err (StorageError.Io #"no space")).
Proof. vm_compute. reflexivity. Qed.

Lemma demo_ready : ready 7 (Some 1000) demo_source demo_backup 0x180 demo_content demo_fs #"backup".
Proof.
  split_and!; [vm_compute; reflexivity|done|]. intros nanos [= <-].
  split; [vm_compute; reflexivity|]. vm_compute. discriminate.
Qed.

Lemma backup_atomic_witness :
  crash_atomic demo_open demo_source demo_backup 1000 0x180 demo_content demo_fs
    (backup_closed_database 0x12 4096 demo_open 7 (Some 1000) demo_source demo_backup 1000).
Proof. apply backup_atomic, demo_ready. Defined.

(** The state after that backup, with another database in place of the first. *)
Definition demo_replaced : fs := <[demo_source := File #"redb other" 0x180 true]> (now (demo_run []).1).

Lemma demo_restore_ready :
  ready 8 (Some 2000) demo_backup demo_source 0x180 demo_content demo_replaced #"restore".
Proof.
  split_and!; [vm_compute; reflexivity|done|]. intros nanos [= <-].
  split; [vm_compute; reflexivity|]. vm_compute. discriminate.
Qed.

Lemma restore_atomic_witness :
  crash_atomic demo_open demo_backup demo_source 1000 0x180 demo_content demo_replaced
    (restore_stopped_database 0x12 4096 demo_open 8 (Some 2000) demo_backup demo_source 1000).
Proof. apply restore_atomic, demo_restore_ready. Defined.

Definition demo_restore : world * result StorageError.t unit :=
  restore_stopped_database 0x12 4096 demo_open 8 (Some 2000) demo_backup demo_source 1000 (start demo_replaced []).

Lemma backup_roundtrip_witness :
  exists m, now demo_restore.1 !! demo_source = Some (File demo_content m true).
Proof.
  eapply (backup_roundtrip 0x12 4096 demo_open 7 (Some 1000) 8 (Some 2000) demo_source demo_backup demo_source
    1000 1000 0x180 demo_content demo_fs [] (now (demo_run []).1) (now (demo_run []).1) demo_replaced []
    (now demo_restore.1) (now demo_restore.1)).
  - apply demo_ready.
  - vm_compute. reflexivity.
  - apply (bool_decide_unpack _). vm_compute. exact I.
  - apply crash_refl.
  - vm_compute. reflexivity.
  - done.
  - intros nanos [= <-]. split; [vm_compute; reflexivity|]. vm_compute. discriminate.
  - vm_compute. reflexivity.
  - apply (bool_decide_unpack _). vm_compute. exact I.
  - apply crash_refl.
Defined.

Lemma backup_completes_witness :
  exists w, demo_run [] = (w, Ok tt) /\ now w = <[demo_backup := File demo_content 0x180 true]> demo_fs.
Proof.
  eapply (backup_completes 0x12 4096 demo_open 7 1000 demo_source demo_backup (components #"/srv/backup") 1000
    demo_content 0x180 true 0x1c0 demo_fs).
  1-7,9: vm_compute; reflexivity || discriminate.
  - apply (Forall_impl (fun q => demo_fs !! q = Some (Dir 0x1c0))); [|eauto].
    apply (bool_decide_unpack _). vm_compute. exact I.
  - vm_compute. discriminate.
Defined.

(** The directory cannot be synced after the renaming: the answer is an error, the
    backup is in place, and another attempt is refused. *)
Lemma backup_error_installed :
  let '(w, r) := demo_run (replicate 11 Proceeds ++ [Fails #"input/output error" 0]) in
  r = Err (StorageError.Io #"input/output error") /\
  now w !! demo_backup = Some (File demo_content 0x180 true) /\
  (backup_closed_database 0x12 4096 demo_open 7 (Some 1001) demo_source demo_backup 1000 (start (now w) [])).2
    = Err StorageError.Invalid.
Proof. vm_compute. auto. Qed.

(** A table written out bit by bit, as an instance of the interface. *)
Module MemoryFile.
Fixpoint bits (p : positive) : bytes :=
  match p with xH => [] | xO p => x00 :: bits p | xI p => x01 :: bits p end.
Fixpoint number (b : bytes) : positive :=
  match b with
  | [] => xH
  | c :: b => if bool_decide (c = x00) then xO (number b) else xI (number b)
  end.
Lemma number_bits p : number (bits p) = p.
Proof. by induction p as [p IH|p IH|]; simpl; rewrite ?IH. Qed.

Definition file : RedbFile (H := MemoryRedb.memory).
Proof.
  refine {| stored c := default ∅ (countable.decode (A := gmap str bytes) (number c));
    create_with_backend c := (c, Ok (default ∅ (countable.decode (number c)) : @database MemoryRedb.memory));
    write_back d c := bits (countable.encode (d : gmap str bytes)) |}.
  - done.
  - by intros c d [= <-].
  - intros d c. rewrite number_bits, countable.decode_encode. done.
Defined.
End MemoryFile.

(** The worker of that table, and its file. *)
Definition demo_worker : StorageWorker.t (H := MemoryRedb.memory) :=
  StorageWorker.mk (H := MemoryRedb.memory) None false [Command.Backup #"/srv/backup/policy.bak" 0] 4 true 1 ∅
    (Some (example_table : @database MemoryRedb.memory)).
Definition table_content : bytes :=
  write_back (RedbFile := MemoryFile.file) (example_table : @database MemoryRedb.memory) [].
Definition table_fs : fs := <[demo_source := File table_content 0x180 true]> demo_fs.

(** The disk is full while the backup is copied. *)
Definition table_served :=
  serve_backup (H0 := MemoryFile.file) 0x12 4096 (fun _ => Ok tt) 7 (Some 1000) demo_source demo_backup 1000000
    (start table_fs (replicate 7 Proceeds ++ [Fails #"no space" 5])).

Lemma backup_keeps_table_witness :
  table_served.2.1 = Err (StorageError.Io #"no space") /\ is_ok table_served.2.2 = true /\
  let '(_, (copied, reopened)) := table_served in
  WorkerFacts.event_ok demo_worker (WorkerFacts.Thread copied reopened).
Proof.
  split_and!; [vm_compute; reflexivity..|].
  apply (backup_keeps_table (H := MemoryRedb.memory) (H0 := MemoryFile.file) 0x12 4096 (fun _ => Ok tt) 7 (Some 1000)
    demo_source demo_backup 1000000 0x180 table_content table_fs
    (replicate 7 Proceeds ++ [Fails #"no space" 5]) demo_worker example_table).
  - reflexivity.
  - apply write_back_ok.
  - split_and!; [apply lookup_insert_eq|done|]. intros nanos [= <-].
    split; [vm_compute; reflexivity|]. vm_compute. discriminate.
Defined.

(** The storage is opened where nothing was: the directory and the file are made. *)
Definition fresh_fs : fs := {[ [(#"/")] := Dir 0x1ed ]}.
Definition opened := open_worker (H0 := MemoryFile.file) 0x12 4096 demo_source 1024 4096 8 (start fresh_fs []).

Lemma storage_private_witness :
  is_ok opened.2 = true /\
  exists d, parent demo_source = Some d /\ private d (now opened.1) /\ private demo_source (now opened.1).
Proof.
  assert (is_ok opened.2 = true) as Hok by (vm_compute; reflexivity). split; [exact Hok|].
  destruct (opened.2) as [worker|e] eqn:E; [|discriminate].
  apply (storage_private (H0 := MemoryFile.file) 0x12 4096 demo_source 1024 4096 8 fresh_fs [] opened.1 worker).
  rewrite <- E. fold opened. apply surjective_pairing.
Defined.
