(* ===== verification/Rules.v ===== *)
(** The rule engine of policy-local (modules/policy-local/src/lib.rs,
    [destination_policy] to [cidr_matches]): which flows are allowed from
    their metadata alone, and which only once their protocol is observed. *)
From Stdlib Require Import Strings.Byte.
From S2P Require Import Prelude Text Net Admin Config Sniff.
#[local] Open Scope Z_scope.

(** The address types of the SDK's flow metadata. *)
Inductive AddressType := ADDRESS_IPV4 | ADDRESS_IPV6 | ADDRESS_DOMAIN | ADDRESS_OTHER.
#[export] Instance AddressType_eq_dec : EqDecision AddressType.
Proof. solve_decision. Defined.

(** What the SDK's [BorrowedFlowMetadata] gives the rules. *)
Module FlowMetadata.
Record t := mk { address_type : AddressType; address : bytes; port : Z }.
End FlowMetadata.

Module SniffPolicy.
(** [timeout] in nanoseconds. *)
Record t := mk {
  entries : list RuleEntry.t;
  terminal : Action.t;
  unknown : UnknownAction.t;
  max_bytes : Z;
  timeout : Z;
}.
End SniffPolicy.

(** ** Addresses *)

Definition cidr_matches (cidr : str) (address : IpAddr.t) : bool :=
  match split_once "/"%byte cidr with
  | None => false
  | Some (network, prefix) =>
      match parse_ip network, parse_uint u8_max prefix with
      | Some network, Some prefix =>
          match network, address with
          | IpAddr.V4 network, IpAddr.V4 address =>
              if prefix <=? 32 then
                let mask := if prefix =? 0 then 0
                            else Z.land (Z.shiftl u32_max (32 - prefix)) u32_max in
                Z.land network mask =? Z.land address mask
              else false
          | IpAddr.V6 network, IpAddr.V6 address =>
              if prefix <=? 128 then
                let mask := if prefix =? 0 then 0
                            else Z.land (Z.shiftl u128_max (128 - prefix)) u128_max in
                Z.land network mask =? Z.land address mask
              else false
          | _, _ => false
          end
      | _, _ => false
      end
  end.

Definition metadata_ip (metadata : FlowMetadata.t) : option IpAddr.t :=
  let address := FlowMetadata.address metadata in
  match FlowMetadata.address_type metadata with
  | ADDRESS_IPV4 => if len address =? 4 then Some (IpAddr.V4 (of_be address)) else None
  | ADDRESS_IPV6 => if len address =? 16 then Some (IpAddr.V6 (of_be address)) else None
  | _ => None
  end.

Definition address_rule_matches (entry : RuleEntry.t) (metadata : FlowMetadata.t) : bool :=
  let cidr_ok :=
    match RuleEntry.cidr entry with
    | None => true
    | Some cidr =>
        match metadata_ip metadata with
        | None => false
        | Some address => cidr_matches cidr address
        end
    end in
  let domain :=
    if bool_decide (FlowMetadata.address_type metadata = ADDRESS_DOMAIN)
    then from_utf8 (FlowMetadata.address metadata) else None in
  if negb cidr_ok then false
  else if is_some_and (RuleEntry.domain_exact entry)
            (fun expected => negb (bool_decide (domain = Some expected)))
  then false
  else if is_some_and (RuleEntry.domain_suffix entry) (fun suffix =>
            negb (is_some_and domain (fun domain =>
              bool_decide (domain = suffix)
              || is_some_and (strip_suffix domain suffix)
                   (fun prefix => ends_with prefix #"."))))
  then false
  else true.

(** ** Observations *)

Definition observed_protocol_matches (protocol : ObservedProtocol.t) (observed : Observed.t)
  : bool :=
  match protocol, observed with
  | ObservedProtocol.Any, _ => true
  | ObservedProtocol.Tls, Observed.Tls _ => true
  | ObservedProtocol.Http, Observed.Http _ => true
  | ObservedProtocol.Ssh, Observed.Ssh => true
  | ObservedProtocol.Quic, Observed.Quic => true
  | ObservedProtocol.Unknown, Observed.Unknown => true
  | _, _ => false
  end.

Definition rule_requires_observation (entry : RuleEntry.t) : bool :=
  is_some (RuleEntry.tls_sni entry) || is_some (RuleEntry.http_host entry)
  || negb (bool_decide (RuleEntry.protocol entry = ObservedProtocol.Any)).

Definition allows (a : Action.t) : bool := bool_decide (a = Action.Allow).

Definition is_unknown (observed : Observed.t) : bool := bool_decide (observed = Observed.Unknown).

(** A name condition of an entry: met, not met ([continue]), or unavailable
    (the early [return]). *)
Inductive condition := Met | NotMet | Unavailable.

Definition sni_condition (entry : RuleEntry.t) (observed : Observed.t) : condition :=
  match RuleEntry.tls_sni entry with
  | None => Met
  | Some expected =>
      match observed with
      | Observed.Tls (Some sni) => if eq_ignore_ascii_case sni expected then Met else NotMet
      | _ => Unavailable
      end
  end.

Definition host_condition (entry : RuleEntry.t) (observed : Observed.t) : condition :=
  match RuleEntry.http_host entry with
  | None => Met
  | Some expected =>
      match observed with
      | Observed.Http (Some host) => if eq_ignore_ascii_case host expected then Met else NotMet
      | _ => Unavailable
      end
  end.

(** One round of the loop of [observed_allowed]: the value it returns, or
    [None] to go on with the next entry. *)
Definition entry_verdict (entry : RuleEntry.t) (observed : Observed.t) : option bool :=
  if is_unknown observed
     && negb (bool_decide (RuleEntry.protocol entry = ObservedProtocol.Unknown))
  then Some (allows (RuleEntry.unavailable entry))
  else if negb (observed_protocol_matches (RuleEntry.protocol entry) observed) then None
  else match sni_condition entry observed with
  | NotMet => None
  | Unavailable => Some (allows (RuleEntry.unavailable entry))
  | Met =>
      match host_condition entry observed with
      | NotMet => None
      | Unavailable => Some (allows (RuleEntry.unavailable entry))
      | Met => Some (allows (RuleEntry.action entry))
      end
  end.

Fixpoint observed_entries (entries : list RuleEntry.t) (observed : Observed.t) : option bool :=
  match entries with
  | [] => None
  | entry :: entries =>
      match entry_verdict entry observed with
      | Some verdict => Some verdict
      | None => observed_entries entries observed
      end
  end.

Definition observed_allowed (policy : SniffPolicy.t) (observed : Observed.t) : bool :=
  match observed_entries (SniffPolicy.entries policy) observed with
  | Some verdict => verdict
  | None =>
      if is_unknown observed
      then bool_decide (SniffPolicy.unknown policy = UnknownAction.Allow)
      else allows (SniffPolicy.terminal policy)
  end.

(** ** The decision on the metadata *)

(** The [continue] condition of the loop of [destination_policy]. *)
Definition entry_skipped (user : UserSpec.t) (metadata : FlowMetadata.t) (entry : RuleEntry.t)
  : bool :=
  negb (bool_decide (RuleEntry.direction entry = Direction.Upload)
        || bool_decide (RuleEntry.direction entry = Direction.Both))
  || is_some_and (RuleEntry.user_group entry)
       (fun group => negb (bool_decide (group = UserSpec.group user)))
  || is_some_and (RuleEntry.port entry)
       (fun port => negb (port =? FlowMetadata.port metadata))
  || negb (address_rule_matches entry metadata).

Definition action_verdict (a : Action.t) : result unit (option SniffPolicy.t) :=
  match a with Action.Allow => Ok None | Action.Deny => Err tt end.

(** The loop: [inl] is an early return, [inr] the collected entries. *)
Fixpoint collect_observed (user : UserSpec.t) (metadata : FlowMetadata.t)
  (observed entries : list RuleEntry.t)
  : result unit (option SniffPolicy.t) + list RuleEntry.t :=
  match entries with
  | [] => inr observed
  | entry :: entries =>
      if entry_skipped user metadata entry then collect_observed user metadata observed entries
      else if rule_requires_observation entry
      then collect_observed user metadata (observed ++ [entry]) entries
      else match observed with
      | [] => inl (action_verdict (RuleEntry.action entry))
      | _ => collect_observed user metadata (observed ++ [entry]) entries
      end
  end.

(** [destination_policy]; [dynamic] is [state.admin.rules]. *)
Definition select_rules `{Toml Rules.t} (options : Options.t) (dynamic : gmap str str)
  (user : UserSpec.t) : option Rules.t :=
  match dynamic !! UserSpec.rule_profile user with
  | Some rules => toml_from_str rules
  | None => Some (Options.rules options)
  end.

Definition destination_policy `{Toml Rules.t} (options : Options.t) (dynamic : gmap str str)
  (user : UserRecord.t) (metadata : FlowMetadata.t) : result unit (option SniffPolicy.t) :=
  match select_rules options dynamic (UserRecord.spec user) with
  | None => Err tt
  | Some rules =>
      match collect_observed (UserRecord.spec user) metadata [] (Rules.entries rules) with
      | inl verdict => verdict
      | inr [] => action_verdict (Rules.terminal rules)
      | inr observed =>
          Ok (Some (SniffPolicy.mk observed (Rules.terminal rules)
            (Options.on_unknown_protocol options) (Options.sniff_bytes options)
            (Options.sniff_timeout_ms options * 1000000)))
      end
  end.

(** * The two-phase evaluation is first match *)

(** The reference: one pass over the rules with the observation at hand.  The
    first entry that applies decides; an entry whose observed part does not
    match is passed over. *)
Fixpoint first_match (user : UserSpec.t) (metadata : FlowMetadata.t)
  (entries : list RuleEntry.t) (terminal : Action.t) (observed : Observed.t) : bool :=
  match entries with
  | [] => allows terminal
  | entry :: entries =>
      if entry_skipped user metadata entry
      then first_match user metadata entries terminal observed
      else if negb (rule_requires_observation entry) then allows (RuleEntry.action entry)
      else match entry_verdict entry observed with
      | Some verdict => verdict
      | None => first_match user metadata entries terminal observed
      end
  end.

(** When the protocol is unknown, every entry decides at once. *)
Lemma entry_verdict_unknown e : exists v, entry_verdict e Observed.Unknown = Some v.
Proof.
  unfold entry_verdict. simpl. case_bool_decide as Hp; simpl; [|eauto].
  rewrite Hp. simpl. unfold sni_condition, host_condition.
  destruct (RuleEntry.tls_sni e); [eauto|]. destruct (RuleEntry.http_host e); eauto.
Qed.

(** An entry without an observed part, reached with a known protocol, decides
    by its action. *)
Lemma entry_verdict_static e o :
  rule_requires_observation e = false -> o <> Observed.Unknown ->
  entry_verdict e o = Some (allows (RuleEntry.action e)).
Proof.
  unfold rule_requires_observation. intros Hr Ho. bools. unfold entry_verdict, is_unknown.
  rewrite bool_decide_eq_false_2 by done. simpl. rewrite H0. simpl.
  unfold sni_condition, host_condition. destruct (RuleEntry.tls_sni e); [done|].
  by destruct (RuleEntry.http_host e).
Qed.

Lemma observed_entries_app l k o :
  observed_entries (l ++ k) o =
  match observed_entries l o with Some v => Some v | None => observed_entries k o end.
Proof. induction l as [|e l IH]; simpl; [done|]. destruct (entry_verdict e o); auto. Qed.

Lemma collect_inr_extends user md : forall entries obs l,
  collect_observed user md obs entries = inr l -> exists k, l = obs ++ k.
Proof.
  induction entries as [|e entries IH]; intros obs l; simpl.
  - intros [= <-]. exists []. by rewrite app_nil_r.
  - case_if; [apply IH|]. case_if; [|destruct obs; [done|]].
    all: intros [k ->]%IH; rewrite <- app_assoc; eauto.
Qed.

(** Once something has been collected the loop never returns early, and what
    it collects gives the reference's answer. *)
Lemma collect_observed_spec user md o terminal : forall entries obs,
  obs <> [] -> exists l, collect_observed user md obs entries = inr l /\
    (unwrap_or (observed_entries l o) (allows terminal) =
     unwrap_or (observed_entries obs o) (first_match user md entries terminal o)).
Proof.
  induction entries as [|e entries IH]; intros obs Hne; simpl; [eauto|].
  destruct (entry_skipped user md e); [by apply IH|].
  assert (Hsnoc : obs ++ [e] <> []) by (by destruct obs).
  destruct (IH (obs ++ [e]) Hsnoc) as (l & Hl & E).
  rewrite observed_entries_app in E.
  assert (Hunk : observed_entries obs o = None -> o <> Observed.Unknown).
  { intros Hn ->. destruct obs as [|x obs]; [done|]. simpl in Hn.
    by destruct (entry_verdict_unknown x) as [v Hv]; rewrite Hv in Hn. }
  destruct (rule_requires_observation e) eqn:Hr; simpl.
  - exists l. split; [done|]. rewrite E. destruct (observed_entries obs o); simpl; [done|].
    by destruct (entry_verdict e o).
  - destruct obs as [|x obs]; [done|]. exists l. split; [done|]. rewrite E.
    destruct (observed_entries (x :: obs) o) eqn:Eo; [done|].
    cbn [observed_entries]. rewrite entry_verdict_static by auto. done.
Qed.

Lemma collect_observed_nil user md o terminal : forall entries,
  match collect_observed user md [] entries with
  | inl v => v = if first_match user md entries terminal o then Ok None else Err tt
  | inr [] => first_match user md entries terminal o = allows terminal
  | inr l => unwrap_or (observed_entries l o) (allows terminal) =
             first_match user md entries terminal o
  end.
Proof.
  induction entries as [|e entries IH]; simpl; [done|].
  destruct (entry_skipped user md e); [done|].
  destruct (rule_requires_observation e) eqn:Hr; simpl.
  - destruct (collect_observed_spec user md o terminal entries [e]) as (l & -> & E); [done|].
    simpl in E. destruct l; [|rewrite E]; by destruct (entry_verdict e o).
  - unfold action_verdict, allows. destruct (RuleEntry.action e); done.
Qed.

Lemma observed_entries_unknown l :
  l <> [] -> exists v, observed_entries l Observed.Unknown = Some v.
Proof.
  destruct l as [|e l]; [done|]. intros _. simpl.
  destruct (entry_verdict_unknown e) as [v ->]. eauto.
Qed.

Lemma observed_allowed_unwrap p o :
  SniffPolicy.entries p <> [] ->
  observed_allowed p o =
  unwrap_or (observed_entries (SniffPolicy.entries p) o) (allows (SniffPolicy.terminal p)).
Proof.
  intros Hne. unfold observed_allowed, is_unknown. case_bool_decide as Ho.
  - subst. by destruct (observed_entries_unknown _ Hne) as [v ->].
  - by destruct (observed_entries _ o).
Qed.

Lemma destination_policy_entries `{Toml Rules.t} options dynamic user md p :
  destination_policy options dynamic user md = Ok (Some p) ->
  SniffPolicy.entries p <> [] /\ SniffPolicy.unknown p = Options.on_unknown_protocol options.
Proof.
  unfold destination_policy. destruct (select_rules _ _ _) as [rules|]; [|done].
  pose proof (collect_observed_nil (UserRecord.spec user) md Observed.Ssh (Rules.terminal rules)
    (Rules.entries rules)) as Hc.
  destruct (collect_observed _ _ _ _) as [v|[|e l]].
  - rewrite Hc. by case_if.
  - by destruct (Rules.terminal rules).
  - by intros [= <-].
Qed.

(** C10: splitting the rules into a decision on the destination and a decision
    on the observed protocol does not change their meaning.  Whatever is
    observed later, the two phases together give the answer of the plain
    reading of the rules, in which the first entry that applies decides: a
    flow refused at once is one every observation would refuse, a flow
    admitted without sniffing is one every observation would admit, and a
    sniffed flow gets the answer of its observation. *)
Theorem rules_two_phase `{Toml Rules.t} options dynamic user md rules o :
  select_rules options dynamic (UserRecord.spec user) = Some rules ->
  let reference :=
    first_match (UserRecord.spec user) md (Rules.entries rules) (Rules.terminal rules) o in
  match destination_policy options dynamic user md with
  | Err _ => reference = false
  | Ok None => reference = true
  | Ok (Some policy) => observed_allowed policy o = reference
  end.
Proof.
  intros Hs reference. pose proof (destination_policy_entries options dynamic user md) as Hne.
  unfold destination_policy in *. rewrite Hs in *.
  pose proof (collect_observed_nil (UserRecord.spec user) md o (Rules.terminal rules)
    (Rules.entries rules)) as Hc. fold reference in Hc.
  destruct (collect_observed _ _ _ _) as [v|[|e l]].
  - rewrite Hc. by destruct reference.
  - rewrite Hc. by destruct (Rules.terminal rules).
  - rewrite observed_allowed_unwrap by (eapply Hne; done). exact Hc.
Qed.

(** The option [on_unknown_protocol] never takes part in a decision: every
    policy built from rules answers the same whatever its value, because for
    an unrecognised protocol the first collected entry always decides, by its
    action or by its [unavailable] field. *)
Theorem on_unknown_protocol_unused `{Toml Rules.t} options dynamic user md p o action :
  destination_policy options dynamic user md = Ok (Some p) ->
  observed_allowed p o =
  observed_allowed (SniffPolicy.mk (SniffPolicy.entries p) (SniffPolicy.terminal p) action
    (SniffPolicy.max_bytes p) (SniffPolicy.timeout p)) o.
Proof. intros [Hne _]%destination_policy_entries. by rewrite !observed_allowed_unwrap. Qed.

(** * Addresses *)

Lemma shiftr_ones w k : 0 <= k <= w -> Z.shiftr (Z.ones w) k = Z.ones (w - k).
Proof.
  intros. apply Z.bits_inj'. intros n Hn. rewrite Z.shiftr_spec by done.
  destruct (decide (n < w - k)).
  - rewrite !Z.ones_spec_low by lia. done.
  - rewrite !Z.ones_spec_high by lia. done.
Qed.

(** Masking with the [p] top bits compares the numbers those bits form. *)
Lemma mask_eqb w p a b :
  0 <= p <= w -> 0 <= a < 2 ^ w -> 0 <= b < 2 ^ w ->
  let mask := if p =? 0 then 0 else Z.land (Z.shiftl (Z.ones w) (w - p)) (Z.ones w) in
  (Z.land a mask =? Z.land b mask) = true <-> Z.shiftr a (w - p) = Z.shiftr b (w - p).
Proof.
  intros Hp Ha Hb mask. rewrite Z.eqb_eq.
  assert (Hbit : forall x i, 0 <= x < 2 ^ w -> 0 <= i ->
    Z.testbit (Z.land x mask) i = (w - p <=? i) && Z.testbit x i).
  { intros x i Hx Hi. rewrite Z.land_spec. unfold mask.
    destruct (decide (i < w)) as [Hw|Hw].
    - case_if; [subst p; rewrite Z.bits_0, andb_false_r, (proj2 (Z.leb_gt _ _)) by lia; done|].
      rewrite Z.land_spec, Z.shiftl_spec by done. rewrite (Z.ones_spec_low w i) by lia.
      rewrite andb_true_r, andb_comm. f_equal.
      destruct (w - p <=? i) eqn:E; bools.
      + apply Z.ones_spec_low. lia.
      + apply Z.testbit_neg_r. lia.
    - rewrite <- (Z.mod_small x (2 ^ w)) by done. rewrite Z.mod_pow2_bits_high by lia.
      by rewrite andb_false_r. }
  split; intros E; apply Z.bits_inj'; intros i Hi.
  - rewrite !Z.shiftr_spec by done. apply (f_equal (fun z => Z.testbit z (i + (w - p)))) in E.
    rewrite !Hbit in E by (done || lia). rewrite (proj2 (Z.leb_le _ _)) in E by lia. done.
  - rewrite !Hbit by done. destruct (w - p <=? i) eqn:El; [|done]. bools. simpl.
    apply (f_equal (fun z => Z.testbit z (i - (w - p)))) in E.
    rewrite !Z.shiftr_spec in E by lia. by replace (i - (w - p) + (w - p)) with i in E by lia.
Qed.

(** The meaning of a CIDR rule: same family, and the same leading bits. *)
Definition cidr_contains (network : IpAddr.t) (prefix : Z) (address : IpAddr.t) : Prop :=
  match network, address with
  | IpAddr.V4 n, IpAddr.V4 a => prefix <= 32 /\ Z.shiftr n (32 - prefix) = Z.shiftr a (32 - prefix)
  | IpAddr.V6 n, IpAddr.V6 a => prefix <= 128 /\ Z.shiftr n (128 - prefix) = Z.shiftr a (128 - prefix)
  | _, _ => False
  end.

(** A CIDR rule matches exactly the addresses of its family that share the
    network's first [prefix] bits, including the prefixes 0 and 32 or 128 at
    which the mask computation is special, whatever host bits the network is
    written with; a malformed CIDR matches nothing. *)
Theorem cidr_matches_iff cidr address :
  IpAddr.wf address ->
  cidr_matches cidr address = true <->
  exists network prefix n p,
    split_once "/"%byte cidr = Some (network, prefix) /\
    parse_ip network = Some n /\ parse_uint u8_max prefix = Some p /\
    cidr_contains n p address.
Proof.
  intros Hw. unfold cidr_matches. destruct (split_once _ cidr) as [[net pre]|]; [|naive_solver].
  destruct (parse_ip net) as [n|] eqn:En; [|naive_solver].
  destruct (parse_uint u8_max pre) as [p|] eqn:Ep; [|naive_solver].
  apply parse_uint_nonneg in Ep as Hp. apply parse_ip_wf in En as Hn.
  transitivity (cidr_contains n p address); [|naive_solver].
  destruct n as [n|n], address as [a|a]; simpl in *; [|done..|].
  - case_if; [|split; [done|lia]]. change u32_max with (Z.ones 32) in *.
    rewrite (mask_eqb 32 p n a) by (change (2 ^ 32) with (Z.ones 32 + 1); lia). naive_solver.
  - case_if; [|split; [done|lia]]. change u128_max with (Z.ones 128) in *.
    rewrite (mask_eqb 128 p n a) by (change (2 ^ 128) with (Z.ones 128 + 1); lia). naive_solver.
Qed.

(** A domain rule respects label boundaries.  An entry whose address
    conditions are a domain suffix matches a flow exactly when the flow goes to
    that very domain or to a name that ends in a dot followed by it, and never
    matches an address given as a number. *)
Theorem domain_suffix_iff entry md suffix :
  RuleEntry.cidr entry = None -> RuleEntry.domain_exact entry = None ->
  RuleEntry.domain_suffix entry = Some suffix ->
  address_rule_matches entry md = true <->
  FlowMetadata.address_type md = ADDRESS_DOMAIN /\ utf8_valid (FlowMetadata.address md) = true /\
  (FlowMetadata.address md = suffix \/
   exists labels, FlowMetadata.address md = labels ++ #"." ++ suffix).
Proof.
  intros Hc He Hs. unfold address_rule_matches. rewrite Hc, He, Hs. simpl.
  case_bool_decide as Ht; simpl; [|naive_solver].
  unfold from_utf8. destruct (utf8_valid _); simpl; [|naive_solver].
  set (d := FlowMetadata.address md). case_bool_decide as Hd; simpl; [naive_solver|].
  destruct (strip_suffix d suffix) as [x|] eqn:Ex; simpl.
  - apply strip_suffix_Some in Ex.
    transitivity (ends_with x #"." = true); [by destruct (ends_with x #".")|].
    rewrite ends_with_iff. split.
    + intros [y ->]. split_and!; [done..|]. right. exists y. by rewrite Ex, <- app_assoc.
    + intros (_ & _ & [?|[y Hy]]); [done|]. exists y.
      rewrite Hy in Ex. change (y ++ #"." ++ suffix = x ++ suffix) in Ex.
      rewrite app_assoc in Ex. by apply app_inv_tail in Ex.
  - split; [done|]. intros (_ & _ & [?|[y Hy]]); [done|].
    change (d = y ++ #"." ++ suffix) in Hy. rewrite app_assoc in Hy.
    apply strip_suffix_Some in Hy. congruence.
Qed.

(** ** Examples *)

Definition domain_rule (name : str) : RuleEntry.t :=
  RuleEntry.mk Action.Deny Direction.Upload ObservedProtocol.Any Action.Deny None None
    (Some name) None None None None.

Definition to_domain (name : str) (port : Z) : FlowMetadata.t :=
  FlowMetadata.mk ADDRESS_DOMAIN name port.

(** Domain rules compare the destination byte for byte.  A rule that
    denies a domain does not apply to the same domain written with capital
    letters, which resolves to the same host; the rules on observed names, by
    contrast, ignore case. *)
Theorem domain_rules_case_sensitive `{Toml Rules.t} options user port :
  Options.rules options = Rules.mk Action.Allow [domain_rule #"example.com"] ->
  destination_policy options ∅ user (to_domain #"example.com" port) = Err tt /\
  destination_policy options ∅ user (to_domain #"Example.com" port) = Ok None /\
  eq_ignore_ascii_case #"example.com" #"Example.com" = true.
Proof.
  intros Hr. unfold destination_policy, select_rules. rewrite lookup_empty, Hr. done.
Qed.

#[local] Instance no_toml : Toml Rules.t := {| toml_from_str _ := None |}.

Definition options_with (rules : Rules.t) : Options.t :=
  Options.mk #"s" CredentialTransport.Protected 1 1 1 1 1 1024 1 UnknownAction.Deny 1
    (StorageOptions.mk #"/p" 1 1 1 1 1) GlobalRate.Unlimited rules None.

(** SSH is refused, TLS to one name is refused, everything else is allowed. *)
Definition example_rules : Rules.t := Rules.mk Action.Allow
  [RuleEntry.mk Action.Deny Direction.Upload ObservedProtocol.Ssh Action.Allow None None
     None None None None None;
   RuleEntry.mk Action.Deny Direction.Both ObservedProtocol.Tls Action.Deny None (Some 443)
     None None (Some #"bad.example") None None;
   domain_rule #"example.com"].

Lemma rules_two_phase_witness :
  match destination_policy (options_with example_rules) ∅ RecordFacts.example_user
          (to_domain #"example.com" 443) with
  | Ok (Some policy) =>
      observed_allowed policy (Observed.Tls (Some #"good.example")) = false
  | _ => False
  end.
Proof.
  exact (rules_two_phase (options_with example_rules) ∅ RecordFacts.example_user
    (to_domain #"example.com" 443) example_rules (Observed.Tls (Some #"good.example"))
    eq_refl).
Defined.

Lemma on_unknown_protocol_unused_witness :
  observed_allowed (SniffPolicy.mk [List.hd (domain_rule []) (Rules.entries example_rules)]
    Action.Allow UnknownAction.Deny 1024 1000000) Observed.Unknown = true.
Proof.
  rewrite (on_unknown_protocol_unused (options_with (Rules.mk Action.Allow
      [List.hd (domain_rule []) (Rules.entries example_rules)])) ∅ RecordFacts.example_user
    (to_domain #"example.org" 443) _ _ UnknownAction.Allow); reflexivity.
Defined.

Lemma cidr_matches_iff_witness :
  cidr_matches #"10.1.2.3/8" (IpAddr.V4 0x0aff0001) = true <->
  exists network prefix n p,
    split_once "/"%byte #"10.1.2.3/8" = Some (network, prefix) /\
    parse_ip network = Some n /\ parse_uint u8_max prefix = Some p /\
    cidr_contains n p (IpAddr.V4 0x0aff0001).
Proof. apply cidr_matches_iff. split; vm_compute; congruence. Defined.

Definition suffix_rule : RuleEntry.t :=
  RuleEntry.mk Action.Deny Direction.Upload ObservedProtocol.Any Action.Deny None None
    None (Some #"example.com") None None None.

Lemma domain_suffix_iff_witness :
  address_rule_matches suffix_rule (to_domain #"api.example.com" 443) = true.
Proof.
  apply (domain_suffix_iff suffix_rule _ #"example.com"); [reflexivity..|].
  split_and!; [reflexivity..|]. right. exists #"api". reflexivity.
Defined.

Lemma domain_rules_case_sensitive_witness :
  destination_policy (options_with (Rules.mk Action.Allow [domain_rule #"example.com"])) ∅
    RecordFacts.example_user (to_domain #"Example.com" 443) = Ok None.
Proof. apply domain_rules_case_sensitive. reflexivity. Defined.
