(* ===== verification/Flow.v ===== *)
(** The flows of policy-local (modules/policy-local/src/lib.rs,
    [DatagramSniff], [PolicyFlow], [PolicyDatagramFlow]): a pair of pumps
    between the local stack and the multiplexed stream, behind the sniffer.

    The byte streams and the pumps belong to the SDK: what they answer to one
    [poll] is an argument, and the bytes written to the stack are part of the
    result. *)
From Stdlib Require Import Strings.Byte.
From S2P Require Import Prelude Text Net Admin Config Sniff Rules.
#[local] Open Scope Z_scope.

Definition MAX_UDP_PAYLOAD : Z := 65507.

(** The SDK's [PumpError], with [E] for [io::Error]; the source builds the
    first three. *)
Inductive PumpError (E : Type) := PermissionDenied | WriteZero | Io (error : E) | OtherPump.
Arguments PermissionDenied {E}.
Arguments WriteZero {E}.
Arguments Io {E} _.
Arguments OtherPump {E}.

Module PumpReport.
Record t := mk { read : Z; written : Z; finished : bool }.
#[global] Instance eq_dec : EqDecision t.
Proof. solve_decision. Defined.
Definition default : t := mk 0 0 false.
End PumpReport.

Module TcpSniff.
(** [deadline] in nanoseconds. *)
Record t := mk { policy : SniffPolicy.t; prefix : bytes; deadline : Z; allowed : bool }.
End TcpSniff.

(** * TCP flows *)
Module PolicyFlow.

(** The streams and the pumps' buffers are the environment. *)
Record t := mk {
  session : Z;
  user_id : option str;
  credential_digest : option str;
  sniff : option TcpSniff.t;
  prefix_offset : Z;
}.

Definition new (now : Z) (session : Z) (user_id credential_digest : option str)
  (sniff : option SniffPolicy.t) : t :=
  mk session user_id credential_digest
    ((fun policy => TcpSniff.mk policy [] (now + SniffPolicy.timeout policy) false) <$> sniff) 0.

Definition set_sniff (f : t) (s : option TcpSniff.t) (offset : Z) : t :=
  mk (session f) (user_id f) (credential_digest f) s offset.

Section with_io.
Context {E : Type}.

(** What happens around one [poll]: for each round of the sniffing loop the
    clock and the answer of the multiplexed stream to a read, then the answers
    to the write of the prefix and of the two pumps. *)
Record io := Env {
  clock : nat -> Z;
  mux_read : nat -> poll (result E bytes);
  stack_write : poll (result E Z);
  upload_pump : poll (result (PumpError E) PumpReport.t);
  download_pump : poll (result (PumpError E) PumpReport.t);
}.

(** The loop of [poll_sniff] from round [i] on: the sniffer after it, and
    [Ready (Ok tt)] for [break].  [None] when the fuel runs out. *)
Fixpoint sniff_loop (fuel i : nat) (a : io) (s : TcpSniff.t)
  : option (TcpSniff.t * poll (result (PumpError E) unit)) :=
  match fuel with
  | O => None
  | S fuel =>
      let policy := TcpSniff.policy s in
      let prefix := TcpSniff.prefix s in
      let complete := (SniffPolicy.max_bytes policy <=? len prefix)
                      || (TcpSniff.deadline s <=? clock a i) in
      match classify_tcp prefix complete with
      | Classification.Complete observed =>
          if negb (observed_allowed policy observed)
          then Some (s, Ready (Err PermissionDenied))
          else Some (TcpSniff.mk policy prefix (TcpSniff.deadline s) true, Ready (Ok tt))
      | Classification.NeedMore =>
          let remaining := saturating_sub (SniffPolicy.max_bytes policy) (len prefix) in
          if remaining =? 0 then sniff_loop fuel (S i) a s
          else match mux_read a i with
          | Ready (Ok []) =>
              let observed := match classify_tcp prefix true with
                              | Classification.Complete observed => observed
                              | Classification.NeedMore => Observed.Unknown
                              end in
              if negb (observed_allowed policy observed)
              then Some (s, Ready (Err PermissionDenied))
              else Some (TcpSniff.mk policy prefix (TcpSniff.deadline s) true, Ready (Ok tt))
          | Ready (Ok input) =>
              sniff_loop fuel (S i) a
                (TcpSniff.mk policy (prefix ++ input) (TcpSniff.deadline s) (TcpSniff.allowed s))
          | Ready (Err e) => Some (s, Ready (Err (Io e)))
          | Pending => Some (s, Pending)
          end
      end
  end.

(** The rounds the loop can take: each read adds a byte to a prefix that is
    bounded. *)
Definition sniff_fuel (s : TcpSniff.t) : nat :=
  S (Z.to_nat (SniffPolicy.max_bytes (TcpSniff.policy s) - len (TcpSniff.prefix s))).

(** The end of [poll_sniff], once the verdict is positive: the flow, the bytes
    that go to the stack, and the result. *)
Definition write_prefix (a : io) (f : t) (s : TcpSniff.t) (max_write : Z)
  : t * bytes * poll (result (PumpError E) PumpReport.t) :=
  let prefix := TcpSniff.prefix s in
  let offset := prefix_offset f in
  if offset <? len prefix then
    if max_write =? 0 then (set_sniff f (Some s) offset, [], Pending)
    else
      let end_ := Z.min (len prefix) (offset + max_write) in
      let chunk := take (Z.to_nat (end_ - offset)) (drop (Z.to_nat offset) prefix) in
      match stack_write a with
      | Ready (Ok written) =>
          if written =? 0 then (set_sniff f (Some s) offset, [], Ready (Err WriteZero))
          else
            let report := PumpReport.mk 0 written false in
            let out := take (Z.to_nat written) chunk in
            if offset + written =? len prefix
            then (set_sniff f None 0, out, Ready (Ok report))
            else (set_sniff f (Some s) (offset + written), out, Ready (Ok report))
      | Ready (Err e) => (set_sniff f (Some s) offset, [], Ready (Err (Io e)))
      | Pending => (set_sniff f (Some s) offset, [], Pending)
      end
  else (set_sniff f None 0, [], Ready (Ok PumpReport.default)).

Definition poll_sniff (a : io) (f : t) (max_write : Z)
  : option (t * bytes * poll (result (PumpError E) PumpReport.t)) :=
  match sniff f with
  | None => Some (f, [], Ready (Ok PumpReport.default))
  | Some s =>
      looped ← (if TcpSniff.allowed s then Some (s, Ready (Ok tt))
                else sniff_loop (sniff_fuel s) 0 a s);
      match looped with
      | (s, Ready (Ok _)) => Some (write_prefix a f s max_write)
      | (s, Ready (Err e)) => Some (set_sniff f (Some s) (prefix_offset f), [], Ready (Err e))
      | (s, Pending) => Some (set_sniff f (Some s) (prefix_offset f), [], Pending)
      end
  end.

(** A pump that is not ready counts as an empty report. *)
Definition pump_report (p : poll (result (PumpError E) PumpReport.t))
  : result (PumpError E) PumpReport.t :=
  match p with
  | Ready r => r
  | Pending => Ok PumpReport.default
  end.

(** The budgets given to the two pumps. *)
Definition upload_max (max_stack_to_mux max_total : Z) : Z := Z.min max_stack_to_mux max_total.
Definition download_max (max_mux_to_stack max_total : Z) (prefix upload : PumpReport.t) : Z :=
  let remaining := saturating_sub (saturating_sub max_total (PumpReport.written upload))
                     (PumpReport.written prefix) in
  Z.min max_mux_to_stack remaining.

(** [PolicyFlow::poll]; the middle of the result is what went to the stack
    from the sniffed prefix. *)
Definition poll_flow (a : io) (f : t) (max_stack_to_mux max_mux_to_stack max_total : Z)
  : option (t * bytes * poll (result (PumpError E) (PumpReport.t * PumpReport.t))) :=
  '(f, out, sniffed) ← poll_sniff a f (Z.min max_mux_to_stack max_total);
  match sniffed with
  | Pending => Some (f, out, Pending)
  | Ready (Err e) => Some (f, out, Ready (Err e))
  | Ready (Ok prefix) =>
      if is_some (sniff f) then Some (f, out, Ready (Ok (PumpReport.default, prefix)))
      else match pump_report (upload_pump a) with
      | Err e => Some (f, out, Ready (Err e))
      | Ok upload =>
          match pump_report (download_pump a) with
          | Err e => Some (f, out, Ready (Err e))
          | Ok download =>
              let download :=
                PumpReport.mk
                  (saturating_add usize_max (PumpReport.read download) (PumpReport.read prefix))
                  (saturating_add usize_max (PumpReport.written download)
                     (PumpReport.written prefix))
                  (PumpReport.finished download) in
              if bool_decide (upload = PumpReport.default)
                 && bool_decide (download = PumpReport.default)
              then Some (f, out, Pending)
              else Some (f, out, Ready (Ok (upload, download)))
          end
      end
  end.

(** The contracts of the streams and pumps: a read returns at most what was
    asked for, a write takes at most what it is offered, a pump writes no more
    than its budget. *)
Definition reads_ok (a : io) : Prop :=
  forall i input, mux_read a i = Ready (Ok input) -> len input <= 1024.
End with_io.
End PolicyFlow.

(** * UDP flows *)

Module DatagramPumpReport.
Record t := mk { received : Z; sent : Z; finished : bool }.
#[global] Instance eq_dec : EqDecision t.
Proof. solve_decision. Defined.
Definition default : t := mk 0 0 false.
End DatagramPumpReport.

Module DatagramSniff.
(** The inner datagram stream is the environment. *)
Record t := mk { policy : option SniffPolicy.t }.
Definition new (policy : option SniffPolicy.t) : t := mk policy.

(** The SDK's [DatagramRecv]; a datagram comes with the bytes it left in the
    buffer. *)
Inductive recv := Datagram (length : Z) | Other.
Inductive error (E : Type) := PermissionDenied | InvalidData | Io (e : E).
Arguments PermissionDenied {E}.
Arguments InvalidData {E}.
Arguments Io {E} _.

(** [poll_recv_datagram] over the answer of the inner stream and the buffer it
    filled. *)
Definition poll_recv_datagram {E} (d : t) (inner : poll (result E recv)) (output : bytes)
  : t * poll (result (error E) recv) :=
  match inner with
  | Ready (Ok (Datagram length)) =>
      if length <=? len output then
        match policy d with
        | Some p =>
            let prefix := take (Z.to_nat (Z.min length (SniffPolicy.max_bytes p))) output in
            if negb (observed_allowed p (classify_udp prefix))
            then (d, Ready (Err PermissionDenied))
            else (mk None, Ready (Ok (Datagram length)))
        | None => (d, Ready (Ok (Datagram length)))
        end
      else (d, Ready (Err InvalidData))
  | Ready (Ok Other) => (d, Ready (Ok Other))
  | Ready (Err e) => (d, Ready (Err (Io e)))
  | Pending => (d, Pending)
  end.
End DatagramSniff.

Module PolicyDatagramFlow.
Record t := mk {
  session : Z;
  user_id : option str;
  credential_digest : option str;
  mux : DatagramSniff.t;
}.

Definition new (session : Z) (user_id credential_digest : option str)
  (sniff : option SniffPolicy.t) : t :=
  mk session user_id credential_digest (DatagramSniff.new sniff).

Section with_io.
Context {E : Type}.
Definition pump_report (p : poll (result (PumpError E) DatagramPumpReport.t))
  : result (PumpError E) DatagramPumpReport.t :=
  match p with Ready r => r | Pending => Ok DatagramPumpReport.default end.

Definition upload_max (max_stack_to_mux max_total : Z) : Z := Z.min max_stack_to_mux max_total.
Definition download_max (max_mux_to_stack max_total : Z) (upload : DatagramPumpReport.t) : Z :=
  Z.min max_mux_to_stack (saturating_sub max_total (DatagramPumpReport.sent upload)).

(** [PolicyDatagramFlow::poll] over the answers of the two pumps; the
    receiving pump leaves the sniffer in [mux]. *)
Definition poll_flow (f : t) (upload download : poll (result (PumpError E) DatagramPumpReport.t))
  (mux : DatagramSniff.t)
  : t * poll (result (PumpError E) (DatagramPumpReport.t * DatagramPumpReport.t)) :=
  match pump_report upload with
  | Err e => (f, Ready (Err e))
  | Ok upload =>
      let f := mk (session f) (user_id f) (credential_digest f) mux in
      match pump_report download with
      | Err e => (f, Ready (Err e))
      | Ok download =>
          if bool_decide (upload = DatagramPumpReport.default)
             && bool_decide (download = DatagramPumpReport.default)
          then (f, Pending) else (f, Ready (Ok (upload, download)))
      end
  end.
End with_io.
End PolicyDatagramFlow.

(** * Properties of the sniffer *)
Module SniffFacts.
Import PolicyFlow.
Section facts.
Context {E : Type}.

(** What round [i] of the loop reads. *)
Definition read_at (a : @io E) (i : nat) : bytes :=
  match mux_read a i with Ready (Ok b) => b | _ => [] end.
Definition reads (a : @io E) (i k : nat) : bytes := concat (map (read_at a) (seq i k)).

(** The policy lets the flow through on what it has read. *)
Definition cleared (p : SniffPolicy.t) (prefix : bytes) : Prop :=
  exists complete o, classify_tcp prefix complete = Classification.Complete o /\
    observed_allowed p o = true.

Lemma classify_complete p : exists o, classify_tcp p true = Classification.Complete o.
Proof.
  unfold classify_tcp, classify_tls, classify_http, incomplete. repeat case_match; simplify_eq/=; eauto.
Qed.

(** The number of reads the loop makes. *)
Fixpoint rounds (fuel i : nat) (a : @io E) (s : TcpSniff.t) : nat :=
  match fuel with
  | O => O
  | S fuel =>
      let complete := (SniffPolicy.max_bytes (TcpSniff.policy s) <=? len (TcpSniff.prefix s))
                      || (TcpSniff.deadline s <=? clock a i) in
      match classify_tcp (TcpSniff.prefix s) complete, mux_read a i with
      | Classification.NeedMore, Ready (Ok (x :: input)) =>
          S (rounds fuel (S i) a (TcpSniff.mk (TcpSniff.policy s) (TcpSniff.prefix s ++ x :: input)
              (TcpSniff.deadline s) (TcpSniff.allowed s)))
      | _, _ => O
      end
  end.

Lemma sniff_loop_spec : forall fuel i (a : @io E) s,
  (Z.to_nat (SniffPolicy.max_bytes (TcpSniff.policy s) - len (TcpSniff.prefix s)) < fuel)%nat ->
  TcpSniff.allowed s = false ->
  exists s' r, sniff_loop fuel i a s = Some (s', r) /\
    TcpSniff.policy s' = TcpSniff.policy s /\ TcpSniff.deadline s' = TcpSniff.deadline s /\
    TcpSniff.prefix s' = TcpSniff.prefix s ++ reads a i (rounds fuel i a s) /\
    (r = Ready (Ok tt) -> TcpSniff.allowed s' = true /\
       cleared (TcpSniff.policy s) (TcpSniff.prefix s')) /\
    (r <> Ready (Ok tt) -> TcpSniff.allowed s' = false).
Proof.
  induction fuel as [|fuel IH]; intros i a s Hf Ha; [lia|]. cbn [sniff_loop rounds].
  set (complete := (_ <=? _) || _). destruct (classify_tcp (TcpSniff.prefix s) complete) as [|o] eqn:Ec.
  2: { destruct (observed_allowed _ o) eqn:Eo; simpl; eexists _, _;
         (split; [done|]); simpl; rewrite app_nil_r; split_and!; try done.
       intros _. split; [done|]. by exists complete, o. }
  case_if.
  { exfalso. assert (complete = true) as Hc.
    { unfold complete. rewrite (proj2 (Z.leb_le _ _)); [done|]. ints. }
    rewrite Hc in Ec. destruct (classify_complete (TcpSniff.prefix s)). congruence. }
  destruct (mux_read a i) as [[[|x input]|e]|] eqn:Er.
  - destruct (classify_complete (TcpSniff.prefix s)) as [o Eo]. rewrite Eo.
    destruct (observed_allowed _ o) eqn:Ea; simpl; eexists _, _;
      (split; [done|]); simpl; rewrite app_nil_r; split_and!; try done.
    intros _. split; [done|]. by exists true, o.
  - edestruct (IH (S i) a (TcpSniff.mk (TcpSniff.policy s) (TcpSniff.prefix s ++ x :: input)
      (TcpSniff.deadline s) (TcpSniff.allowed s))) as (s' & r & Hl & Hp & Hd & Hx & Hok & Hno);
      [|done|].
    { simpl. rewrite len_app, len_cons. pose proof (len_nonneg input). ints. }
    exists s', r. simpl in *. split_and!; try done.
    unfold reads. simpl. unfold read_at at 1. by rewrite Er, Hx, <- app_assoc.
  - eexists _, _. split; [done|]. rewrite app_nil_r. by split_and!.
  - eexists _, _. split; [done|]. rewrite app_nil_r. by split_and!.
Qed.

(** C29: a poll of a flow always returns: the sniffing loop ends after at most
    as many rounds as the prefix may still grow, whatever the peer sends and
    whatever the clock does. *)
Theorem poll_flow_returns (a : @io E) f max_stack_to_mux max_mux_to_stack max_total :
  is_Some (poll_flow a f max_stack_to_mux max_mux_to_stack max_total).
Proof.
  unfold poll_flow.
  assert (Hs : is_Some (poll_sniff a f (Z.min max_mux_to_stack max_total))).
  { unfold poll_sniff. destruct (sniff f) as [s|]; [|eauto]. destruct (TcpSniff.allowed s) eqn:Ea.
    - simpl. eauto.
    - destruct (sniff_loop_spec (sniff_fuel s) 0 a s) as (s' & r & -> & _); [unfold sniff_fuel; lia|done|].
      simpl. repeat case_match; eauto. }
  destruct Hs as [[[f' out] r] ->]. simpl. repeat case_match; eauto.
Qed.

(** What one poll reads from the peer while sniffing. *)
Definition received_by (a : @io E) (f : t) : bytes :=
  match sniff f with
  | Some s => if TcpSniff.allowed s then [] else reads a 0 (rounds (sniff_fuel s) 0 a s)
  | None => []
  end.

(** A run of the sniffing phase: what was read from the peer and what was
    passed on to the stack so far.  The stack takes no more than it is
    offered. *)
Inductive sniffing (p : SniffPolicy.t) : t -> bytes -> bytes -> Prop :=
| sniff_new now session user digest :
    sniffing p (new now session user digest (Some p)) [] []
| sniff_poll f received out (a : @io E) max_write f' chunk r :
    sniffing p f received out -> is_Some (sniff f) -> 0 <= max_write ->
    (forall n, stack_write a = Ready (Ok n) ->
       0 <= n <= Z.min max_write (len received + len (received_by a f) - prefix_offset f)) ->
    poll_sniff a f max_write = Some (f', chunk, r) ->
    sniffing p f' (received ++ received_by a f) (out ++ chunk).

(** While sniffing, the prefix is what was read and the offset what was passed
    on, and nothing is passed on before the verdict. *)
Definition sniff_inv (p : SniffPolicy.t) (f : t) (received out : bytes) : Prop :=
  match sniff f with
  | Some s =>
      TcpSniff.policy s = p /\ TcpSniff.prefix s = received /\
      0 <= prefix_offset f <= len received /\ out = take (Z.to_nat (prefix_offset f)) received /\
      (TcpSniff.allowed s = true -> cleared p received) /\
      (TcpSniff.allowed s = false -> prefix_offset f = 0)
  | None => out = received /\ cleared p received
  end.

Lemma write_prefix_inv p (a : @io E) f s max_write received out f' chunk r :
  TcpSniff.policy s = p -> TcpSniff.prefix s = received -> TcpSniff.allowed s = true ->
  0 <= prefix_offset f <= len received -> out = take (Z.to_nat (prefix_offset f)) received ->
  cleared p received -> 0 <= max_write ->
  (forall n, stack_write a = Ready (Ok n) ->
     0 <= n <= Z.min max_write (len received - prefix_offset f)) ->
  write_prefix a f s max_write = (f', chunk, r) ->
  sniff_inv p f' received (out ++ chunk).
Proof.
  intros Hp Hx Ha Ho Hout Hc Hm Hw. unfold write_prefix. rewrite Hx.
  assert (Hsame : sniff_inv p (set_sniff f (Some s) (prefix_offset f)) received (out ++ [])).
  { rewrite app_nil_r. unfold sniff_inv. simpl. split_and!; try done; [lia..|congruence]. }
  case_if.
  2: { intros [= <- <- <-]. unfold sniff_inv; simpl. rewrite app_nil_r. split; [|done].
       rewrite Hout, take_ge; [done|]. ints. }
  case_if; [intros [= <- <- <-]; done|].
  destruct (stack_write a) as [[n|e]|]; [|intros [= <- <- <-]; done..].
  case_if; [intros [= <- <- <-]; done|]. specialize (Hw n eq_refl).
  set (o := prefix_offset f) in *.
  assert (Hchunk : take (Z.to_nat n) (take (Z.to_nat (Z.min (len received) (o + max_write) - o))
    (drop (Z.to_nat o) received)) = take (Z.to_nat n) (drop (Z.to_nat o) received)).
  { rewrite take_take. f_equal. ints. }
  rewrite Hchunk.
  assert (Hout' : out ++ take (Z.to_nat n) (drop (Z.to_nat o) received) =
    take (Z.to_nat (o + n)) received).
  { rewrite Hout, Z2Nat.inj_add by lia. by rewrite take_take_drop. }
  case_if; intros [= <- <- <-]; unfold sniff_inv; simpl; rewrite Hout'.
  - split; [|done]. rewrite take_ge; [done|]. ints.
  - split_and!; try done; [lia..|congruence].
Qed.

Lemma sniffing_inv p f received out : sniffing p f received out -> sniff_inv p f received out.
Proof.
  induction 1 as [now session user digest|f received out a max_write f' chunk r _ IH Hs Hm Hw Hp].
  { unfold sniff_inv. simpl. split_and!; try done; lia. }
  destruct Hs as [s Hs]. unfold sniff_inv in IH. rewrite Hs in IH.
  destruct IH as (Hpol & Hpre & Hoff & Hout & Hyes & Hno).
  unfold poll_sniff in Hp. unfold received_by in *. rewrite Hs in *.
  destruct (TcpSniff.allowed s) eqn:Ea.
  - injection Hp as Hp. rewrite app_nil_r. eapply write_prefix_inv in Hp; eauto.
    intros n Hn. specialize (Hw n Hn). change (len []) with 0 in Hw. lia.
  - destruct (sniff_loop_spec (sniff_fuel s) 0 a s) as (s' & r' & El & Hp' & Hd' & Hx' & Hok & Hnok);
      [unfold sniff_fuel; lia|done|].
    rewrite El in Hp. cbn [mbind option_bind] in Hp. rewrite Hpre in Hx'. specialize (Hno eq_refl).
    assert (out = []) as -> by (rewrite Hout, Hno; done).
    assert (Hblocked : r' <> Ready (Ok tt) ->
      sniff_inv p (set_sniff f (Some s') (prefix_offset f))
        (received ++ reads a 0 (rounds (sniff_fuel s) 0 a s)) ([] ++ [])).
    { intros Hr. unfold sniff_inv. simpl. rewrite (Hnok Hr), Hno. split_and!; try done; [congruence|].
      apply len_nonneg. }
    destruct r' as [[[]|e]|]; [|injection Hp as <- <- <-; by apply Hblocked..].
    destruct (Hok eq_refl) as [Ha' Hc]. injection Hp as Hp.
    eapply write_prefix_inv in Hp; [exact Hp|congruence|done|done|..].
    + rewrite Hno. split; [lia|apply len_nonneg].
    + by rewrite Hno.
    + rewrite <- Hx', <- Hpol. done.
    + done.
    + intros n Hn. specialize (Hw n Hn). rewrite len_app. lia.
Qed.


(** The pumps and the stack keep to the budgets they are given. *)
Definition within_budget (a : @io E) (f : t) (max_stack_to_mux max_mux_to_stack max_total : Z) : Prop :=
  (forall f' out prefix, poll_sniff a f (Z.min max_mux_to_stack max_total) =
     Some (f', out, Ready (Ok prefix)) ->
     0 <= PumpReport.written prefix <= Z.min max_mux_to_stack max_total) /\
  (forall u, pump_report (upload_pump a) = Ok u ->
     0 <= PumpReport.written u <= upload_max max_stack_to_mux max_total /\
     forall f' out prefix d, poll_sniff a f (Z.min max_mux_to_stack max_total) =
       Some (f', out, Ready (Ok prefix)) -> pump_report (download_pump a) = Ok d ->
       0 <= PumpReport.written d <= download_max max_mux_to_stack max_total prefix u).

(** A flow past its sniffing phase keeps to its grant: one poll moves at
    most [max_total] bytes in all and at most its share in each direction.
    During sniffing it moves at most the grant again, because the prefix is
    written before the pumps get their budgets. *)
Theorem flow_budget (a : @io E) f m_up m_down m_total f' out up down :
  0 <= m_up -> 0 <= m_down -> 0 <= m_total -> m_total <= usize_max / 2 ->
  within_budget a f m_up m_down m_total ->
  poll_flow a f m_up m_down m_total = Some (f', out, Ready (Ok (up, down))) ->
  PumpReport.written up + PumpReport.written down <= 2 * m_total /\
  (sniff f = None ->
     PumpReport.written up + PumpReport.written down <= m_total /\
     PumpReport.written up <= m_up /\ PumpReport.written down <= m_down).
Proof.
  intros Hu Hd Ht Hmax [Hpre Hpump]. unfold poll_flow.
  destruct (poll_sniff a f (Z.min m_down m_total)) as [[[f1 out1] [[prefix|e]|]]|] eqn:Es;
    simpl; try done.
  specialize (Hpre _ _ _ eq_refl).
  assert (Hnone : sniff f = None -> PumpReport.written prefix = 0 /\ sniff f1 = None).
  { intros Hn. unfold poll_sniff in Es. rewrite Hn in Es. injection Es as <- <- <-. done. }
  destruct (sniff f1) as [s1|] eqn:Es1; simpl.
  { intros [= <- <- <- <-]. simpl. split; [lia|]. intros Hn. by destruct (Hnone Hn). }
  destruct (pump_report (upload_pump a)) as [u|] eqn:Eu; [|done].
  destruct (Hpump u eq_refl) as [Huw Hdw].
  destruct (pump_report (download_pump a)) as [d|] eqn:Ed; [|done].
  specialize (Hdw _ _ _ _ eq_refl eq_refl). unfold upload_max, download_max in *.
  case_if; [done|]. intros [= <- <- <- <-]. simpl. split.
  - ints.
  - intros Hn. destruct (Hnone Hn) as [Hz _]. rewrite Hz in *. ints.
Qed.
End facts.

(** ** Examples *)

(** SSH is allowed, anything else is refused. *)
Definition ssh_only : SniffPolicy.t :=
  SniffPolicy.mk
    [RuleEntry.mk Action.Allow Direction.Upload ObservedProtocol.Ssh Action.Deny None None
       None None None None None] Action.Deny UnknownAction.Deny 64 1000.

Definition banner : bytes := #"SSH-2.0-x" ++ CRLF.

(** The banner arrives in two reads; the stack takes [n] bytes. *)
Definition banner_io (n : Z) : @io unit :=
  Env (fun _ => 0)
    (fun i => match i with
              | O => Ready (Ok (take 5 banner))
              | S O => Ready (Ok (drop 5 banner))
              | _ => Pending
              end)
    (Ready (Ok n)) Pending Pending.

Definition first_flow : t := new 0 1 None None (Some ssh_only).


Definition moved (n : Z) : poll (result (PumpError unit) PumpReport.t) :=
  Ready (Ok (PumpReport.mk n n false)).
Definition pumping : @io unit := Env (fun _ => 0) (fun _ => Pending) Pending (moved 6) (moved 4).

Lemma flow_budget_witness :
  PumpReport.written (PumpReport.mk 6 6 false) + PumpReport.written (PumpReport.mk 4 4 false) <= 10.
Proof.
  eapply (flow_budget pumping (new 0 1 None None None) 8 5 10); try lia; try reflexivity.
  - vm_compute. congruence.
  - split.
    + intros f' out prefix [= <- <- <-]. vm_compute. split; congruence.
    + intros u [= <-]. split; [vm_compute; split; congruence|].
      intros f' out prefix d [= <- <- <-] [= <-]. vm_compute. split; congruence.
Defined.

(** The poll that ends the sniffing phase can move twice its grant: the
    prefix takes the whole of it, and the upload pump is then given the whole
    of it again. *)
Theorem sniffed_flow_exceeds_grant :
  let prefix := TcpSniff.mk ssh_only banner 1000 true in
  let f := mk 1 None None (Some prefix) 0 in
  let a := Env (fun _ => 0) (fun _ => Pending) (Ready (Ok 11)) (moved 11) Pending in
  within_budget a f 11 11 11 /\
  exists up down, poll_flow a f 11 11 11 =
      Some (mk 1 None None None 0, banner, Ready (Ok (up, down))) /\
    PumpReport.written up + PumpReport.written down = 22.
Proof.
  intros prefix f a. split.
  - split.
    + intros f' out p [= <- <- <-]. vm_compute. split; congruence.
    + intros u [= <-]. split; [vm_compute; split; congruence|].
      intros f' out p d [= <- <- <-] [= <-]. vm_compute. split; congruence.
  - eexists _, _. split; [vm_compute; reflexivity|]. reflexivity.
Qed.
End SniffFacts.
