(* ===== verification/State.v ===== *)
(** The state of a policy-local instance (modules/policy-local/src/lib.rs, from
    [ChannelSecurity] to [PreparedAdmin]).

    [Instant]s are nanoseconds since the instance started; reply channels of the
    storage worker are their numbers.  A Rust [HashMap] is iterated in an order
    the language does not fix: the class [HashOrder] stands for it. *)
From Stdlib Require Import Strings.Byte.
From S2P Require Import Prelude Text Net Frame Accounting Admin Config Sniff Service Storage Rules Flow.
#[local] Open Scope Z_scope.

(** The status codes of the SDK. *)
Inductive Status :=
| STATUS_OK | STATUS_PENDING | STATUS_INVALID | STATUS_DENIED | STATUS_IO | STATUS_RESOURCE
| STATUS_INTERNAL.
#[export] Instance Status_eq_dec : EqDecision Status.
Proof. solve_decision. Defined.

Module PolicyRole.
Inductive t := Client | Server.
#[global] Instance eq_dec : EqDecision t.
Proof. solve_decision. Defined.
End PolicyRole.

Module ChannelSecurity.
Record t := mk {
  role : PolicyRole.t;
  confidentiality : bool;
  integrity : bool;
  peer_authenticated : bool;
  peer_identity : option str;
}.
End ChannelSecurity.

Module PendingDebit.
Record t := mk { amount : Z; record : UserRecord.t; reply : nat }.
End PendingDebit.

Module PendingRefund.
Record t := mk { amount : Z; record : UserRecord.t; reply : nat }.
End PendingRefund.

Module UserTraffic.
Record t := mk {
  quota : QuotaAccount.t;
  upload : option TokenBucket.t;
  download : option TokenBucket.t;
  combined : option TokenBucket.t;
  debit : option PendingDebit.t;
  refund : option PendingRefund.t;
  failed : bool;
  checkpoint_at : Z;
}.

Definition set_quota (s : t) (v : QuotaAccount.t) : t :=
  mk v (upload s) (download s) (combined s) (debit s) (refund s) (failed s) (checkpoint_at s).
Definition set_upload (s : t) (v : option TokenBucket.t) : t :=
  mk (quota s) v (download s) (combined s) (debit s) (refund s) (failed s) (checkpoint_at s).
Definition set_download (s : t) (v : option TokenBucket.t) : t :=
  mk (quota s) (upload s) v (combined s) (debit s) (refund s) (failed s) (checkpoint_at s).
Definition set_combined (s : t) (v : option TokenBucket.t) : t :=
  mk (quota s) (upload s) (download s) v (debit s) (refund s) (failed s) (checkpoint_at s).
Definition set_debit (s : t) (v : option PendingDebit.t) : t :=
  mk (quota s) (upload s) (download s) (combined s) v (refund s) (failed s) (checkpoint_at s).
Definition set_refund (s : t) (v : option PendingRefund.t) : t :=
  mk (quota s) (upload s) (download s) (combined s) (debit s) v (failed s) (checkpoint_at s).
Definition set_failed (s : t) (v : bool) : t :=
  mk (quota s) (upload s) (download s) (combined s) (debit s) (refund s) v (checkpoint_at s).
Definition set_checkpoint_at (s : t) (v : Z) : t :=
  mk (quota s) (upload s) (download s) (combined s) (debit s) (refund s) (failed s) v.
End UserTraffic.

Module RateGrant.
Record t := mk { stack_to_mux : Z; mux_to_stack : Z; combined : Z; global : Z }.
Definition default : t := mk 0 0 0 0.
End RateGrant.

Module FlowIdentity.
Record t := mk {
  user_id : str;
  credential_digest : option str;
  sniff : option SniffPolicy.t;
}.
End FlowIdentity.

Module AuthState.
Inductive t :=
| Waiting
| Credential (digest : str) (reply : nat)
| User (user_id : str) (reply : nat)
| Clock (user : UserRecord.t) (reply : nat)
| Authenticated (user_id : str).
#[global] Instance eq_dec : EqDecision t.
Proof. solve_decision. Defined.
End AuthState.

Module PolicySession.
Record t := mk {
  channel : SessionChannel.t;
  role : PolicyRole.t;
  auth : AuthState.t;
  subscribed : bool;
  last_status : Z;
  credential_digest : option str;
  pending_flows : list FlowIdentity.t;
}.

Definition set_channel (s : t) (v : SessionChannel.t) : t :=
  mk v (role s) (auth s) (subscribed s) (last_status s) (credential_digest s) (pending_flows s).
Definition set_role (s : t) (v : PolicyRole.t) : t :=
  mk (channel s) v (auth s) (subscribed s) (last_status s) (credential_digest s)
    (pending_flows s).
Definition set_auth (s : t) (v : AuthState.t) : t :=
  mk (channel s) (role s) v (subscribed s) (last_status s) (credential_digest s)
    (pending_flows s).
Definition set_subscribed (s : t) (v : bool) : t :=
  mk (channel s) (role s) (auth s) v (last_status s) (credential_digest s) (pending_flows s).
Definition set_last_status (s : t) (v : Z) : t :=
  mk (channel s) (role s) (auth s) (subscribed s) v (credential_digest s) (pending_flows s).
Definition set_credential_digest (s : t) (v : option str) : t :=
  mk (channel s) (role s) (auth s) (subscribed s) (last_status s) v (pending_flows s).
Definition set_pending_flows (s : t) (v : list FlowIdentity.t) : t :=
  mk (channel s) (role s) (auth s) (subscribed s) (last_status s) (credential_digest s) v.
End PolicySession.

Module AdminState.
Record t := mk {
  sequencer : AdminSequencer.t;
  users : gmap str UserRecord.t;
  loaded_users : gset str;
  credentials : gmap str CredentialRecord.t;
  loaded_credentials : gset str;
  rules : gmap str str;
}.

Definition set_sequencer (s : t) (v : AdminSequencer.t) : t :=
  mk v (users s) (loaded_users s) (credentials s) (loaded_credentials s) (rules s).
Definition set_users (s : t) (v : gmap str UserRecord.t) : t :=
  mk (sequencer s) v (loaded_users s) (credentials s) (loaded_credentials s) (rules s).
Definition set_loaded_users (s : t) (v : gset str) : t :=
  mk (sequencer s) (users s) v (credentials s) (loaded_credentials s) (rules s).
Definition set_credentials (s : t) (v : gmap str CredentialRecord.t) : t :=
  mk (sequencer s) (users s) (loaded_users s) v (loaded_credentials s) (rules s).
Definition set_loaded_credentials (s : t) (v : gset str) : t :=
  mk (sequencer s) (users s) (loaded_users s) (credentials s) v (rules s).
Definition set_rules (s : t) (v : gmap str str) : t :=
  mk (sequencer s) (users s) (loaded_users s) (credentials s) (loaded_credentials s) v.
End AdminState.

Module AdminMutation.
Record t := mk {
  users : list (str * option UserRecord.t);
  credentials : list (str * option CredentialRecord.t);
  rules : list (str * str);
  active_rule_profiles : list str;
  disconnect : option Z;
}.
Definition default : t := mk [] [] [] [] None.
End AdminMutation.

Module PreparedAdmin.
Record t := mk {
  response : bytes;
  mutation : AdminMutation.t;
  changes : list (str * option bytes);
}.
End PreparedAdmin.

Module ReadKind.
Inductive t := User (id : str) | Credential (digest : str).
End ReadKind.

Module PendingWrite.
Record t := mk {
  request : bytes;
  client_id : str;
  receipt : bytes;
  response : bytes;
  mutation : AdminMutation.t;
  reply : nat;
}.
End PendingWrite.

Module PendingRead.
Record t := mk { request : bytes; kind : ReadKind.t; reply : nat }.
End PendingRead.

Module PendingBackup.
Record t := mk { request : bytes; destination : str; reply : nat }.
End PendingBackup.

Module PendingControl.
Inductive t := Write (w : PendingWrite.t) | Read (r : PendingRead.t) | Backup (b : PendingBackup.t).
Definition request (p : t) : bytes :=
  match p with
  | Write w => PendingWrite.request w
  | Read r => PendingRead.request r
  | Backup b => PendingBackup.request b
  end.
End PendingControl.

Module State.
Section with_redb.
Context `{Redb}.
Record t := mk {
  shutting_down : bool;
  maintenance : bool;
  global_rate : option TokenBucket.t;
  user_deficit : gmap str Z;
  user_cursor : Z;
  options : Options.t;
  storage : StorageWorker.t;
  admin : AdminState.t;
  pending_control : option PendingControl.t;
  client_credential : option Credential.t;
  sessions : gmap Z PolicySession.t;
  flows : gmap Z PolicyFlow.t;
  datagram_flows : gmap Z PolicyDatagramFlow.t;
  traffic : gmap str UserTraffic.t;
  flow_cursor : gmap str Z;
}.

Definition set_shutting_down (s : t) (v : bool) : t :=
  mk v (maintenance s) (global_rate s) (user_deficit s) (user_cursor s) (options s) (storage s)
    (admin s) (pending_control s) (client_credential s) (sessions s) (flows s)
    (datagram_flows s) (traffic s) (flow_cursor s).
Definition set_maintenance (s : t) (v : bool) : t :=
  mk (shutting_down s) v (global_rate s) (user_deficit s) (user_cursor s) (options s)
    (storage s) (admin s) (pending_control s) (client_credential s) (sessions s) (flows s)
    (datagram_flows s) (traffic s) (flow_cursor s).
Definition set_global_rate (s : t) (v : option TokenBucket.t) : t :=
  mk (shutting_down s) (maintenance s) v (user_deficit s) (user_cursor s) (options s)
    (storage s) (admin s) (pending_control s) (client_credential s) (sessions s) (flows s)
    (datagram_flows s) (traffic s) (flow_cursor s).
Definition set_user_deficit (s : t) (v : gmap str Z) : t :=
  mk (shutting_down s) (maintenance s) (global_rate s) v (user_cursor s) (options s) (storage s)
    (admin s) (pending_control s) (client_credential s) (sessions s) (flows s)
    (datagram_flows s) (traffic s) (flow_cursor s).
Definition set_user_cursor (s : t) (v : Z) : t :=
  mk (shutting_down s) (maintenance s) (global_rate s) (user_deficit s) v (options s)
    (storage s) (admin s) (pending_control s) (client_credential s) (sessions s) (flows s)
    (datagram_flows s) (traffic s) (flow_cursor s).
Definition set_options (s : t) (v : Options.t) : t :=
  mk (shutting_down s) (maintenance s) (global_rate s) (user_deficit s) (user_cursor s) v
    (storage s) (admin s) (pending_control s) (client_credential s) (sessions s) (flows s)
    (datagram_flows s) (traffic s) (flow_cursor s).
Definition set_storage (s : t) (v : StorageWorker.t) : t :=
  mk (shutting_down s) (maintenance s) (global_rate s) (user_deficit s) (user_cursor s)
    (options s) v (admin s) (pending_control s) (client_credential s) (sessions s) (flows s)
    (datagram_flows s) (traffic s) (flow_cursor s).
Definition set_admin (s : t) (v : AdminState.t) : t :=
  mk (shutting_down s) (maintenance s) (global_rate s) (user_deficit s) (user_cursor s)
    (options s) (storage s) v (pending_control s) (client_credential s) (sessions s) (flows s)
    (datagram_flows s) (traffic s) (flow_cursor s).
Definition set_pending_control (s : t) (v : option PendingControl.t) : t :=
  mk (shutting_down s) (maintenance s) (global_rate s) (user_deficit s) (user_cursor s)
    (options s) (storage s) (admin s) v (client_credential s) (sessions s) (flows s)
    (datagram_flows s) (traffic s) (flow_cursor s).
Definition set_client_credential (s : t) (v : option Credential.t) : t :=
  mk (shutting_down s) (maintenance s) (global_rate s) (user_deficit s) (user_cursor s)
    (options s) (storage s) (admin s) (pending_control s) v (sessions s) (flows s)
    (datagram_flows s) (traffic s) (flow_cursor s).
Definition set_sessions (s : t) (v : gmap Z PolicySession.t) : t :=
  mk (shutting_down s) (maintenance s) (global_rate s) (user_deficit s) (user_cursor s)
    (options s) (storage s) (admin s) (pending_control s) (client_credential s) v (flows s)
    (datagram_flows s) (traffic s) (flow_cursor s).
Definition set_flows (s : t) (v : gmap Z PolicyFlow.t) : t :=
  mk (shutting_down s) (maintenance s) (global_rate s) (user_deficit s) (user_cursor s)
    (options s) (storage s) (admin s) (pending_control s) (client_credential s) (sessions s) v
    (datagram_flows s) (traffic s) (flow_cursor s).
Definition set_datagram_flows (s : t) (v : gmap Z PolicyDatagramFlow.t) : t :=
  mk (shutting_down s) (maintenance s) (global_rate s) (user_deficit s) (user_cursor s)
    (options s) (storage s) (admin s) (pending_control s) (client_credential s) (sessions s)
    (flows s) v (traffic s) (flow_cursor s).
Definition set_traffic (s : t) (v : gmap str UserTraffic.t) : t :=
  mk (shutting_down s) (maintenance s) (global_rate s) (user_deficit s) (user_cursor s)
    (options s) (storage s) (admin s) (pending_control s) (client_credential s) (sessions s)
    (flows s) (datagram_flows s) v (flow_cursor s).
Definition set_flow_cursor (s : t) (v : gmap str Z) : t :=
  mk (shutting_down s) (maintenance s) (global_rate s) (user_deficit s) (user_cursor s)
    (options s) (storage s) (admin s) (pending_control s) (client_credential s) (sessions s)
    (flows s) (datagram_flows s) (traffic s) v.
End with_redb.
End State.
Arguments State.t {_}.

(** Updates of the administrative part. *)
Section admin_updates.
Context `{Redb}.
Definition with_users (s : State.t) (f : gmap str UserRecord.t -> gmap str UserRecord.t) : State.t :=
  State.set_admin s (AdminState.set_users (State.admin s) (f (AdminState.users (State.admin s)))).
Definition with_loaded_users (s : State.t) (f : gset str -> gset str) : State.t :=
  State.set_admin s
    (AdminState.set_loaded_users (State.admin s) (f (AdminState.loaded_users (State.admin s)))).
Definition with_credentials (s : State.t)
  (f : gmap str CredentialRecord.t -> gmap str CredentialRecord.t) : State.t :=
  State.set_admin s
    (AdminState.set_credentials (State.admin s) (f (AdminState.credentials (State.admin s)))).
Definition with_loaded_credentials (s : State.t) (f : gset str -> gset str) : State.t :=
  State.set_admin s (AdminState.set_loaded_credentials (State.admin s)
    (f (AdminState.loaded_credentials (State.admin s)))).
Definition with_rules (s : State.t) (f : gmap str str -> gmap str str) : State.t :=
  State.set_admin s (AdminState.set_rules (State.admin s) (f (AdminState.rules (State.admin s)))).

Definition user_of (s : State.t) (id : str) : option UserRecord.t :=
  AdminState.users (State.admin s) !! id.
End admin_updates.
