(* ===== verification/Traffic.v ===== *)
(** Access, quota and rate control of policy-local
    (modules/policy-local/src/lib.rs, [user_available_at] to
    [flow_limit_reached], [select_flow] to [charge_flow]). *)
From Stdlib Require Import Strings.Byte.
From S2P Require Import Prelude Text Net Frame Accounting Admin Config Sniff Service Storage Rules Flow State.
#[local] Open Scope Z_scope.

(** * Who may use the service *)

Definition user_access_allowed_at (user : UserRecord.t) (now : Z) : bool :=
  let spec := UserRecord.spec user in
  if negb (bool_decide (UserSpec.status spec = UserStatus.Enabled)) then false
  else
    let now := Z.max now (UserRecord.max_observed_utc user) in
    if (match UserSpec.expiration spec with
        | Expiration.AtUtc unix_seconds => unix_seconds <=? now
        | Expiration.Unlimited => false
        end) then false
    else if negb (WeeklyAccess.allows (UserSpec.weekly_access spec) now) then false
    else true.

(** [matches!(user.spec.quota, ByteLimit::Limited { bytes } if charged >= bytes)]. *)
Definition quota_exhausted (user : UserRecord.t) : bool :=
  match UserSpec.quota (UserRecord.spec user) with
  | ByteLimit.Limited bytes => bytes <=? UserRecord.durable_charged_bytes user
  | ByteLimit.Unlimited => false
  end.

Definition user_available_at (user : UserRecord.t) (now : Z) : bool :=
  user_access_allowed_at user now && negb (quota_exhausted user).

Section with_redb.
Context `{Redb}.

Definition flow_available_at (s : State.t) (user : UserRecord.t) (now : Z) : bool :=
  if negb (user_access_allowed_at user now) then false
  else
    is_some_and (State.traffic s !! UserRecord.id user)
      (fun traffic => negb (QuotaAccount.credit_remaining (UserTraffic.quota traffic) =? 0))
    || negb (quota_exhausted user).

(** The number of entries of a map that satisfy a test. *)
Definition count_values {A} (m : gmap Z A) (p : A -> bool) : Z :=
  len (filter (fun kv => p (snd kv) = true) (map_to_list m)).

Definition authenticated_as (id : str) (session : PolicySession.t) : bool :=
  bool_decide (PolicySession.auth session = AuthState.Authenticated id).

Definition session_limit_reached (s : State.t) (user : UserRecord.t) : bool :=
  match UserSpec.max_sessions (UserRecord.spec user) with
  | CountLimit.Unlimited => false
  | CountLimit.Limited count =>
      count <=? count_values (State.sessions s) (authenticated_as (UserRecord.id user))
  end.

(** The sessions' identities waiting for their flow, for one user. *)
Definition pending_of (id : str) (session : PolicySession.t) : Z :=
  len (filter (fun i => FlowIdentity.user_id i = id) (PolicySession.pending_flows session)).

Definition pending_total (s : State.t) (id : str) : Z :=
  map_fold (fun _ session n => pending_of id session + n) 0 (State.sessions s).

Definition active_flows (s : State.t) (id : str) : Z :=
  saturating_add usize_max
    (count_values (State.flows s) (fun flow => bool_decide (PolicyFlow.user_id flow = Some id)))
    (count_values (State.datagram_flows s)
       (fun flow => bool_decide (PolicyDatagramFlow.user_id flow = Some id))).

Definition flow_limit_reached (s : State.t) (user : UserRecord.t) : bool :=
  match UserSpec.max_flows (UserRecord.spec user) with
  | CountLimit.Unlimited => false
  | CountLimit.Limited count =>
      count <=? saturating_add usize_max (active_flows s (UserRecord.id user))
                  (pending_total s (UserRecord.id user))
  end.

(** * Scheduling *)

(** The flow a user's turn goes to, and the cursor moved on. *)
Definition select_flow (cursor : Z) (flows : list Z) : Z * Z :=
  (nth (Z.to_nat (cursor mod len flows)) flows 0, wrapping_add usize_max cursor 1).

Definition weighted_share (available weight total_weight : Z) : Z :=
  if total_weight =? 0 then 0
  else
    let share := saturating_mul u128_max available weight / total_weight in
    if share <=? u64_max then share else u64_max.

Definition rate_bucket (rate : RateLimit.t) (burst_bytes now_nanos : Z)
  : result QuotaError (option TokenBucket.t) :=
  match rate with
  | RateLimit.Unlimited => Ok None
  | RateLimit.Limited bytes_per_second =>
      Some <$> TokenBucket.new bytes_per_second burst_bytes now_nanos
  end.

(** Take from a bucket that may be absent. *)
Definition take_from (bucket : option TokenBucket.t) (wanted now_nanos : Z)
  : option TokenBucket.t * result QuotaError Z :=
  match bucket with
  | Some b => let '(b, r) := TokenBucket.take b wanted now_nanos in (Some b, r)
  | None => (None, Ok wanted)
  end.

Definition take_rate_grant (traffic : UserTraffic.t) (budget now_nanos : Z)
  : UserTraffic.t * result QuotaError RateGrant.t :=
  let '(bucket, r) := take_from (UserTraffic.combined traffic) budget now_nanos in
  let traffic := UserTraffic.set_combined traffic bucket in
  match r with
  | Err e => (traffic, Err e)
  | Ok combined =>
      let '(bucket, r) := take_from (UserTraffic.upload traffic) combined now_nanos in
      let traffic := UserTraffic.set_upload traffic bucket in
      match r with
      | Err e => (traffic, Err e)
      | Ok user_upload =>
          let '(bucket, r) := take_from (UserTraffic.download traffic) combined now_nanos in
          let traffic := UserTraffic.set_download traffic bucket in
          match r with
          | Err e => (traffic, Err e)
          | Ok user_download =>
              (traffic, Ok (RateGrant.mk user_download user_upload combined combined))
          end
      end
  end.

Definition refund_to (bucket : option TokenBucket.t) (amount : Z) : option TokenBucket.t :=
  (fun b => TokenBucket.refund b amount) <$> bucket.

(** The part of [refund_rate] on the user's buckets. *)
Definition refund_buckets (traffic : UserTraffic.t) (grant : RateGrant.t)
  (stack_written mux_written : Z) : UserTraffic.t :=
  let traffic := UserTraffic.set_download traffic (refund_to (UserTraffic.download traffic)
    (saturating_sub (RateGrant.stack_to_mux grant) stack_written)) in
  let traffic := UserTraffic.set_upload traffic (refund_to (UserTraffic.upload traffic)
    (saturating_sub (RateGrant.mux_to_stack grant) mux_written)) in
  UserTraffic.set_combined traffic (refund_to (UserTraffic.combined traffic)
    (saturating_sub (RateGrant.combined grant) (saturating_add u64_max stack_written mux_written))).

Definition refund_rate (s : State.t) (user_id : option str) (grant : RateGrant.t)
  (stack_to_mux mux_to_stack : PumpReport.t) : State.t :=
  match user_id with
  | None => s
  | Some user_id =>
      match State.traffic s !! user_id with
      | None => s
      | Some traffic =>
          let stack_written := PumpReport.written stack_to_mux in
          let mux_written := PumpReport.written mux_to_stack in
          let s := State.set_traffic s
            (<[user_id := refund_buckets traffic grant stack_written mux_written]>
               (State.traffic s)) in
          let written := saturating_add u64_max stack_written mux_written in
          let s := State.set_global_rate s
            (refund_to (State.global_rate s) (saturating_sub (RateGrant.global grant) written)) in
          match State.user_deficit s !! user_id with
          | None => s
          | Some deficit =>
              State.set_user_deficit s
                (<[user_id := saturating_sub deficit written]> (State.user_deficit s))
          end
      end
  end.

(** [charge_flow]; the effects before an error stay. *)
Definition charge_flow (s : State.t) (user_id : option str) (upload download : PumpReport.t)
  : State.t * result QuotaError unit :=
  match user_id with
  | None => (s, Ok tt)
  | Some user_id =>
      match checked_add usize_max (PumpReport.written upload) (PumpReport.written download) with
      | None => (s, Err Overflow)
      | Some accepted =>
          match State.traffic s !! user_id with
          | None => (s, Err Accounting.State)
          | Some traffic =>
              let '(quota, r) := QuotaAccount.charge (UserTraffic.quota traffic) accepted in
              let s := State.set_traffic s
                (<[user_id := UserTraffic.set_quota traffic quota]> (State.traffic s)) in
              match r with
              | Err e => (s, Err e)
              | Ok _ =>
                  match user_of s user_id with
                  | None => (s, Err Accounting.State)
                  | Some user =>
                      match checked_add u64_max (UserRecord.upload_bytes user)
                              (PumpReport.written download) with
                      | None => (s, Err Overflow)
                      | Some up =>
                          let user := UserRecord.mk (UserRecord.id user) (UserRecord.spec user)
                            (UserRecord.revision user) (UserRecord.durable_charged_bytes user) up
                            (UserRecord.download_bytes user) (UserRecord.max_observed_utc user) in
                          let s := with_users s (fun m => <[user_id := user]> m) in
                          match checked_add u64_max (UserRecord.download_bytes user)
                                  (PumpReport.written upload) with
                          | None => (s, Err Overflow)
                          | Some down =>
                              let user := UserRecord.mk (UserRecord.id user) (UserRecord.spec user)
                                (UserRecord.revision user) (UserRecord.durable_charged_bytes user)
                                (UserRecord.upload_bytes user) down
                                (UserRecord.max_observed_utc user) in
                              (with_users s (fun m => <[user_id := user]> m), Ok tt)
                          end
                      end
                  end
              end
          end
      end
  end.
End with_redb.

(** * Quota credit *)

(** How one round of the loop of [advance_quota] ends when it [continue]s:
    whether the user is added to [stopped] and to [remove_traffic]. *)
Record verdict := Verdict { stopped : bool; removed : bool }.
Definition CONTINUE : verdict := Verdict false false.
Definition STOPPED : verdict := Verdict true false.
Definition REMOVED : verdict := Verdict false true.
Definition stopped_if (b : bool) : verdict := Verdict b false.

Section quota.
Context `{Redb, Postcard StoredUserRecord.t, HashOrder}.

(** Users with a flow. *)
Definition active_users (s : State.t) : gset str :=
  list_to_set (omap (fun kv => PolicyFlow.user_id (snd kv)) (map_to_list (State.flows s))
    ++ omap (fun kv => PolicyDatagramFlow.user_id (snd kv)) (map_to_list (State.datagram_flows s))).

Definition set_user_traffic (s : State.t) (user_id : str) (t : UserTraffic.t) : State.t :=
  State.set_traffic s (<[user_id := t]> (State.traffic s)).

(** The account and buckets of a user's first flow; [None] on the early
    [stopped.insert(user_id)]. *)
Definition new_traffic (s : State.t) (now : Z) (user : UserRecord.t) : option UserTraffic.t :=
  let spec := UserRecord.spec user in
  let limit := match UserSpec.quota spec with
               | ByteLimit.Unlimited => None
               | ByteLimit.Limited bytes => Some bytes
               end in
  let bucket rate := rate_bucket rate (UserSpec.burst_bytes spec) now in
  match QuotaAccount.new limit (UserRecord.durable_charged_bytes user)
          (StorageOptions.accounting_block_bytes (Options.storage (State.options s))),
        bucket (UserSpec.upload_rate spec), bucket (UserSpec.download_rate spec),
        bucket (UserSpec.combined_rate spec) with
  | Ok quota, Ok upload, Ok download, Ok combined =>
      Some (UserTraffic.mk quota upload download combined None None false
        (now + Options.checkpoint_interval_ms (State.options s) * 1000000))
  | _, _, _, _ => None
  end.

(** [if !state.traffic.contains_key(&user_id) { .. }]. *)
Definition open_traffic (s : State.t) (now : Z) (user_id : str) (active : bool)
  : State.t * option verdict :=
  if is_some (State.traffic s !! user_id) then (s, None)
  else if negb active then (s, Some CONTINUE)
  else match user_of s user_id with
  | None => (s, Some STOPPED)
  | Some user =>
      match new_traffic s now user with
      | None => (s, Some STOPPED)
      | Some traffic => (set_user_traffic s user_id traffic, None)
      end
  end.

(** What a write reply channel answers. *)
Inductive write_answer := Written | WriteFailed | WriteEmpty.
Definition try_recv_write (s : State.t) (reply : nat) : State.t * write_answer :=
  let '(w, r) := StorageWorker.try_recv (State.storage s) reply in
  let s := State.set_storage s w in
  match r with
  | Ready (Some (Reply.Write (Ok _))) => (s, Written)
  | Ready _ => (s, WriteFailed)
  | Pending => (s, WriteEmpty)
  end.

(** [if let Some(pending) = traffic.debit.take() { .. }]. *)
Definition settle_debit (s : State.t) (user_id : str) (traffic : UserTraffic.t)
  : State.t * option verdict :=
  match UserTraffic.debit traffic with
  | None => (s, None)
  | Some pending =>
      let traffic := UserTraffic.set_debit traffic None in
      match try_recv_write s (PendingDebit.reply pending) with
      | (s, Written) =>
          let '(quota, r) := QuotaAccount.commit_credit (UserTraffic.quota traffic)
                               (PendingDebit.amount pending) in
          let traffic := UserTraffic.set_quota traffic quota in
          if is_err r then
            (set_user_traffic s user_id (UserTraffic.set_failed traffic true), Some STOPPED)
          else
            (with_users (set_user_traffic s user_id traffic)
               (fun m => <[user_id := PendingDebit.record pending]> m), None)
      | (s, WriteFailed) =>
          let traffic := UserTraffic.set_quota traffic
                           (QuotaAccount.fail_credit (UserTraffic.quota traffic)) in
          (set_user_traffic s user_id (UserTraffic.set_failed traffic true), Some STOPPED)
      | (s, WriteEmpty) =>
          (set_user_traffic s user_id (UserTraffic.set_debit traffic (Some pending)),
           Some CONTINUE)
      end
  end.

(** [if let Some(pending) = traffic.refund.take() { .. }]. *)
Definition settle_refund (s : State.t) (now : Z) (user_id : str) (active : bool)
  (traffic : UserTraffic.t) : State.t * option verdict :=
  match UserTraffic.refund traffic with
  | None => (s, None)
  | Some pending =>
      let traffic := UserTraffic.set_refund traffic None in
      match try_recv_write s (PendingRefund.reply pending) with
      | (s, Written) =>
          let '(quota, r) := QuotaAccount.commit_refund (UserTraffic.quota traffic)
                               (PendingRefund.amount pending) in
          let traffic := UserTraffic.set_quota traffic quota in
          if is_err r then
            (set_user_traffic s user_id (UserTraffic.set_failed traffic true),
             Some (stopped_if active))
          else
            let traffic := UserTraffic.set_checkpoint_at traffic
              (now + Options.checkpoint_interval_ms (State.options s) * 1000000) in
            let s := with_users (set_user_traffic s user_id traffic)
                       (fun m => <[user_id := PendingRefund.record pending]> m) in
            (s, if negb active then Some REMOVED else None)
      | (s, WriteFailed) =>
          let traffic := UserTraffic.set_quota traffic
                           (QuotaAccount.fail_refund (UserTraffic.quota traffic)) in
          (set_user_traffic s user_id (UserTraffic.set_failed traffic true),
           Some (stopped_if active))
      | (s, WriteEmpty) =>
          (set_user_traffic s user_id (UserTraffic.set_refund traffic (Some pending)),
           Some CONTINUE)
      end
  end.

Definition set_charged (record : UserRecord.t) (charged : Z) : UserRecord.t :=
  UserRecord.mk (UserRecord.id record) (UserRecord.spec record) (UserRecord.revision record)
    charged (UserRecord.upload_bytes record) (UserRecord.download_bytes record)
    (UserRecord.max_observed_utc record).

Definition user_key (user_id : str) : str := #"user/" ++ user_id.

(** The user's record with its charge changed, encoded and handed to the
    storage; [None] on the three ways this fails. *)
Definition put_charged (s : State.t) (user_id : str) (change : Z -> option Z)
  : State.t * option (UserRecord.t * nat) :=
  match user_of s user_id with
  | None => (s, None)
  | Some record =>
      match change (UserRecord.durable_charged_bytes record) with
      | None => (s, None)
      | Some charged =>
          let record := set_charged record charged in
          match encode_user_record record with
          | Err _ => (s, None)
          | Ok value =>
              let '(w, r) := StorageWorker.put (State.storage s) (user_key user_id) value in
              let s := State.set_storage s w in
              match r with
              | Err _ => (s, None)
              | Ok reply => (s, Some (record, reply))
              end
          end
      end
  end.

(** [if !active || checkpoint_due { .. }]. *)
Definition start_refund (s : State.t) (now : Z) (user_id : str) (active : bool)
  (traffic : UserTraffic.t) : State.t * verdict :=
  let '(quota, r) := QuotaAccount.request_refund (UserTraffic.quota traffic) in
  let traffic := UserTraffic.set_quota traffic quota in
  match r with
  | Err _ =>
      if QuotaAccount.credit_remaining quota =? 0 then
        if negb active then (set_user_traffic s user_id traffic, REMOVED)
        else (set_user_traffic s user_id (UserTraffic.set_checkpoint_at traffic
                (now + Options.checkpoint_interval_ms (State.options s) * 1000000)), CONTINUE)
      else (set_user_traffic s user_id (UserTraffic.set_failed traffic true), CONTINUE)
  | Ok amount =>
      match put_charged s user_id (fun charged => checked_sub charged amount) with
      | (s, Some (record, reply)) =>
          (set_user_traffic s user_id (UserTraffic.set_refund traffic
             (Some (PendingRefund.mk amount record reply))), CONTINUE)
      | (s, None) =>
          (set_user_traffic s user_id (UserTraffic.set_failed (UserTraffic.set_quota traffic
             (QuotaAccount.fail_refund quota)) true), CONTINUE)
      end
  end.

(** The request for the next block of credit. *)
Definition start_debit (s : State.t) (user_id : str) (traffic : UserTraffic.t)
  : State.t * verdict :=
  let '(quota, r) := QuotaAccount.request_credit (UserTraffic.quota traffic) in
  let traffic := UserTraffic.set_quota traffic quota in
  match r with
  | Err Exhausted => (set_user_traffic s user_id traffic, STOPPED)
  | Err _ => (set_user_traffic s user_id (UserTraffic.set_failed traffic true), STOPPED)
  | Ok amount =>
      match put_charged s user_id (fun charged => checked_add u64_max charged amount) with
      | (s, Some (record, reply)) =>
          (set_user_traffic s user_id (UserTraffic.set_debit traffic
             (Some (PendingDebit.mk amount record reply))), CONTINUE)
      | (s, None) =>
          (set_user_traffic s user_id (UserTraffic.set_failed (UserTraffic.set_quota traffic
             (QuotaAccount.fail_credit quota)) true), STOPPED)
      end
  end.

(** One user's round. *)
Definition advance_user (s : State.t) (now : Z) (user_id : str) (active : bool)
  : State.t * verdict :=
  match open_traffic s now user_id active with
  | (s, Some v) => (s, v)
  | (s, None) =>
  match State.traffic s !! user_id with
  | None => (s, STOPPED)
  | Some traffic =>
  if UserTraffic.failed traffic then (s, if active then STOPPED else REMOVED)
  else match settle_debit s user_id traffic with
  | (s, Some v) => (s, v)
  | (s, None) =>
  match State.traffic s !! user_id with
  | None => (s, STOPPED)
  | Some traffic =>
  match settle_refund s now user_id active traffic with
  | (s, Some v) => (s, v)
  | (s, None) =>
  match State.traffic s !! user_id with
  | None => (s, STOPPED)
  | Some traffic =>
      let checkpoint_due := active && (UserTraffic.checkpoint_at traffic <=? now) in
      if negb active || checkpoint_due then start_refund s now user_id active traffic
      else if negb (QuotaAccount.credit_remaining (UserTraffic.quota traffic) =? 0)
      then (s, CONTINUE)
      else start_debit s user_id traffic
  end end end end end end.

(** The loop over the users, collecting [stopped] and [remove_traffic]. *)
Fixpoint advance_users (s : State.t) (now : Z) (active : gset str) (users : list str)
  : State.t * gset str * list str :=
  match users with
  | [] => (s, ∅, [])
  | user_id :: users =>
      let '(s, v) := advance_user s now user_id (bool_decide (user_id ∈ active)) in
      let '(s, stop, remove) := advance_users s now active users in
      (s, if stopped v then {[user_id]} ∪ stop else stop,
       if removed v then user_id :: remove else remove)
  end.

Definition drop_traffic (s : State.t) (user_id : str) : State.t :=
  let s := State.set_traffic s (base.delete user_id (State.traffic s)) in
  let s := State.set_flow_cursor s (base.delete user_id (State.flow_cursor s)) in
  State.set_user_deficit s (base.delete user_id (State.user_deficit s)).

Definition advance_quota (s : State.t) (now : Z) : State.t * gset str :=
  let active := active_users s in
  let users := hash_order (elements (active ∪ dom (State.traffic s))) in
  let '(s, stop, remove) := advance_users s now active users in
  (fold_left drop_traffic remove s, stop).
End quota.
