(* ===== verification/Session.v ===== *)
(** The policy sessions (modules/policy-local/src/lib.rs, [attach_session],
    [admit_flow] to [attach_datagram_flow], [poll_policy_session] to
    [finish_authentication], [status_message]).

    A session that is being polled is out of the map, as in the source: the
    handlers work on the state and that session. *)
From Stdlib Require Import Strings.Byte.
From S2P Require Import Prelude Text Net Frame Accounting Admin Config Sniff Service Storage Rules Flow State Traffic.
#[local] Open Scope Z_scope.

(** [toml::to_string] of a serialisable value. *)
Class TomlPrint (A : Type) := { toml_to_string : A -> option str }.

Module PolicyStatus.
Record t := mk {
  status : str;
  server_id : str;
  user_id : str;
  used_bytes : Z;
  limit_bytes : option Z;
  upload_bytes_per_second : option Z;
  download_bytes_per_second : option Z;
  expires_at : option Z;
  revision : Z;
  reason : str;
}.
End PolicyStatus.

(** What [handle_server_status] looks up in a TOML document: the keys
    [status] and [user_id], when they are strings. *)
Module ServerStatus.
Record t := mk { status : option str; user_id : option str }.
End ServerStatus.

Definition rate_value (rate : RateLimit.t) : option Z :=
  match rate with
  | RateLimit.Unlimited => None
  | RateLimit.Limited bytes_per_second => Some bytes_per_second
  end.

Definition limit_value (quota : ByteLimit.t) : option Z :=
  match quota with
  | ByteLimit.Unlimited => None
  | ByteLimit.Limited bytes => Some bytes
  end.

Definition admin_status (error : AdminError.t) : Status :=
  match error with
  | AdminError.ClientLimit => STATUS_RESOURCE
  | AdminError.Invalid | AdminError.Sequence | AdminError.State => STATUS_DENIED
  | AdminError.Random | AdminError.Encode => STATUS_INTERNAL
  end.

Definition storage_status (error : StorageError.t) : Status :=
  match error with
  | StorageError.QueueFull | StorageError.Limit => STATUS_RESOURCE
  | StorageError.Invalid => STATUS_INVALID
  | StorageError.Stopped | StorageError.Permissions | StorageError.Io _
  | StorageError.Database _ => STATUS_IO
  end.

(** A string between double quotes. *)
Definition quoted (s : str) : str := [x22] ++ s ++ [x22].

Section session.
Context `{Redb, Sha256, Postcard StoredUserRecord.t, Postcard CredentialRecord.t,
  TomlPrint PolicyStatus.t, Toml Service.ClientRequest.t, Toml ServerStatus.t}.
Context {E : Type}.

Definition status_message (s : State.t) (user_id status : str) : result Status str :=
  user ← ok_or (user_of s user_id) STATUS_INVALID;
  let spec := UserRecord.spec user in
  ok_or (toml_to_string (PolicyStatus.mk status (Options.server_id (State.options s)) user_id
    (UserRecord.durable_charged_bytes user) (limit_value (UserSpec.quota spec))
    (rate_value (UserSpec.upload_rate spec)) (rate_value (UserSpec.download_rate spec))
    (match UserSpec.expiration spec with
     | Expiration.Unlimited => None
     | Expiration.AtUtc unix_seconds => Some unix_seconds
     end) (UserRecord.revision user) #"ok")) STATUS_INTERNAL.

(** The result of a handler: the state, the session, and the error that drops
    the session. *)
Abbreviation handled := (State.t * PolicySession.t * result Status unit)%type.

(** Put a response on the session's channel. *)
Definition respond (s : State.t) (session : PolicySession.t) (response : str) : handled :=
  let '(c, r) := @SessionChannel.queue_response E (PolicySession.channel session) response in
  (s, PolicySession.set_channel session c, map_err (fun _ => STATUS_RESOURCE) r).

Definition snapshot_status (s : State.t) (session : PolicySession.t) (now : Z) (status : str)
  : handled :=
  let '(c, r) := @SessionChannel.replace_snapshot E (PolicySession.channel session) status in
  let session := PolicySession.set_channel session c in
  match r with
  | Err _ => (s, session, Err STATUS_RESOURCE)
  | Ok _ => (s, PolicySession.set_last_status session now, Ok tt)
  end.

Definition queue_denied (s : State.t) (session : PolicySession.t) (reason : str) : handled :=
  respond s session (#"status = " ++ quoted #"denied" ++ [x0a] ++ #"reason = " ++ quoted reason ++ [x0a]).

Definition finish_authentication (s : State.t) (session : PolicySession.t) (user : UserRecord.t)
  : handled :=
  let user_id := UserRecord.id user in
  let s := with_loaded_users s (fun l => {[user_id]} ∪ l) in
  let s := with_users s (fun m => <[user_id := user]> m) in
  let session := PolicySession.set_auth session (AuthState.Authenticated user_id) in
  match status_message s user_id #"authenticated" with
  | Err e => (s, session, Err e)
  | Ok status => respond s session status
  end.

(** [handle_client_request], by request. *)
Definition handle_auth (s : State.t) (session : PolicySession.t) (credential : str) : handled :=
  match PolicySession.auth session with
  | AuthState.Waiting =>
      match Credential.parse_hex credential with
      | Err e => (s, session, Err (admin_status e))
      | Ok credential =>
          let digest := CredentialDigest.hex (Credential.digest_id credential) in
          let session := PolicySession.set_credential_digest session (Some digest) in
          let '(w, r) := StorageWorker.get (State.storage s) (#"credential/" ++ digest) in
          let s := State.set_storage s w in
          match r with
          | Err e => (s, session, Err (storage_status e))
          | Ok reply => (s, PolicySession.set_auth session (AuthState.Credential digest reply), Ok tt)
          end
      end
  | _ => (s, session, Err STATUS_DENIED)
  end.

Definition handle_status (s : State.t) (session : PolicySession.t) : handled :=
  match PolicySession.auth session with
  | AuthState.Authenticated user_id =>
      match status_message s user_id #"ok" with
      | Err e => (s, session, Err e)
      | Ok status => respond s session status
      end
  | _ => (s, session, Err STATUS_DENIED)
  end.

Definition handle_subscribe (s : State.t) (session : PolicySession.t) (now : Z) : handled :=
  match PolicySession.auth session with
  | AuthState.Authenticated user_id =>
      match status_message s user_id #"ok" with
      | Err e => (s, session, Err e)
      | Ok status =>
          match snapshot_status s session now status with
          | (s, session, Ok _) => (s, PolicySession.set_subscribed session true, Ok tt)
          | refused => refused
          end
      end
  | _ => (s, session, Err STATUS_DENIED)
  end.

Definition handle_client_request (s : State.t) (session : PolicySession.t) (now : Z) (input : str)
  : handled :=
  match @ClientRequest.parse E _ input with
  | Err _ => (s, session, Err STATUS_DENIED)
  | Ok (ClientRequest.Auth credential) => handle_auth s session credential
  | Ok ClientRequest.Status => handle_status s session
  | Ok ClientRequest.Subscribe => handle_subscribe s session now
  | Ok ClientRequest.DisconnectSelf => (s, session, Err STATUS_OK)
  end.

Definition handle_server_status (session : PolicySession.t) (input : str)
  : PolicySession.t * result Status unit :=
  match toml_from_str input with
  | None => (session, Err STATUS_DENIED)
  | Some value =>
      match ServerStatus.status value with
      | None => (session, Err STATUS_DENIED)
      | Some status =>
          if bool_decide (status = #"authenticated") || bool_decide (status = #"ok")
          then (PolicySession.set_auth session (AuthState.Authenticated
                  (unwrap_or (ServerStatus.user_id value) #"remote")), Ok tt)
          else (session, Err STATUS_DENIED)
      end
  end.

(** What a read reply channel answers: [ReadFailed] is an error or a
    disconnection. *)
Inductive read_answer := ReadValue (v : option bytes) | ReadFailed | ReadEmpty.
Definition try_recv_read (s : State.t) (reply : nat) : State.t * read_answer :=
  let '(w, r) := StorageWorker.try_recv (State.storage s) reply in
  let s := State.set_storage s w in
  match r with
  | Ready (Some (Reply.Read (Ok v))) => (s, ReadValue v)
  | Ready _ => (s, ReadFailed)
  | Pending => (s, ReadEmpty)
  end.

(** The arms of [advance_authentication]; the session comes with its
    authentication taken out (set to [Waiting]). *)
Definition advance_credential (s : State.t) (session : PolicySession.t) (digest : str) (reply : nat)
  : handled :=
  match try_recv_read s reply with
  | (s, ReadValue (Some value)) =>
      match from_bytes value with
      | None => (s, session, Err STATUS_IO)
      | Some credential =>
          if negb (bool_decide (CredentialRecord.digest credential = digest))
             || CredentialRecord.revoked credential
          then queue_denied s session #"credential-revoked"
          else
            let user_id := CredentialRecord.user_id credential in
            let '(w, r) := StorageWorker.get (State.storage s) (user_key user_id) in
            let s := State.set_storage s w in
            match r with
            | Err e => (s, session, Err (storage_status e))
            | Ok reply => (s, PolicySession.set_auth session (AuthState.User user_id reply), Ok tt)
            end
      end
  | (s, ReadValue None) => queue_denied s session #"credential-unknown"
  | (s, ReadFailed) => (s, session, Err STATUS_IO)
  | (s, ReadEmpty) => (s, PolicySession.set_auth session (AuthState.Credential digest reply), Ok tt)
  end.

Definition set_observed (user : UserRecord.t) (now : Z) : UserRecord.t :=
  UserRecord.mk (UserRecord.id user) (UserRecord.spec user) (UserRecord.revision user)
    (UserRecord.durable_charged_bytes user) (UserRecord.upload_bytes user)
    (UserRecord.download_bytes user) now.

(** The user's record has been read. *)
Definition check_user (s : State.t) (session : PolicySession.t) (utc : Z) (user_id : str)
  (user : UserRecord.t) : handled :=
  if negb (bool_decide (UserRecord.id user = user_id)) || negb (user_available_at user utc)
  then queue_denied s session #"user-disabled"
  else if session_limit_reached s user then queue_denied s session #"session-limit"
  else if UserRecord.max_observed_utc user <? utc then
    let user := set_observed user utc in
    match encode_user_record user with
    | Err e => (s, session, Err (admin_status e))
    | Ok value =>
        let '(w, r) := StorageWorker.put (State.storage s) (user_key user_id) value in
        let s := State.set_storage s w in
        match r with
        | Err e => (s, session, Err (storage_status e))
        | Ok reply => (s, PolicySession.set_auth session (AuthState.Clock user reply), Ok tt)
        end
    end
  else finish_authentication s session user.

Definition advance_user_read (s : State.t) (session : PolicySession.t) (utc : Z) (user_id : str)
  (reply : nat) : handled :=
  match try_recv_read s reply with
  | (s, ReadValue (Some value)) =>
      match decode_user_record value with
      | Err _ => (s, session, Err STATUS_IO)
      | Ok user => check_user s session utc user_id user
      end
  | (s, ReadValue None) => queue_denied s session #"user-unknown"
  | (s, ReadFailed) => (s, session, Err STATUS_IO)
  | (s, ReadEmpty) => (s, PolicySession.set_auth session (AuthState.User user_id reply), Ok tt)
  end.

Definition advance_clock (s : State.t) (session : PolicySession.t) (user : UserRecord.t)
  (reply : nat) : handled :=
  match try_recv_write s reply with
  | (s, Written) => finish_authentication s session user
  | (s, WriteFailed) => (s, session, Err STATUS_IO)
  | (s, WriteEmpty) => (s, PolicySession.set_auth session (AuthState.Clock user reply), Ok tt)
  end.

Definition advance_authentication (s : State.t) (session : PolicySession.t) (utc : Z) : handled :=
  let taken := PolicySession.set_auth session AuthState.Waiting in
  match PolicySession.auth session with
  | AuthState.Credential digest reply => advance_credential s taken digest reply
  | AuthState.User user_id reply => advance_user_read s taken utc user_id reply
  | AuthState.Clock user reply => advance_clock s taken user reply
  | _ => (s, session, Ok tt)
  end.

(** The loop over the messages. *)
Fixpoint handle_messages (s : State.t) (session : PolicySession.t) (now : Z) (messages : list str)
  : handled :=
  match messages with
  | [] => (s, session, Ok tt)
  | message :: messages =>
      let '(s, session, r) :=
        match PolicySession.role session with
        | PolicyRole.Server => handle_client_request s session now message
        | PolicyRole.Client =>
            let '(session, r) := handle_server_status session message in (s, session, r)
        end in
      match r with
      | Err e => (s, session, Err e)
      | Ok _ => handle_messages s session now messages
      end
  end.

(** The status due to a subscriber. *)
Definition push_status (s : State.t) (session : PolicySession.t) (now : Z) : handled :=
  match PolicySession.auth session with
  | AuthState.Authenticated user_id =>
      if PolicySession.subscribed session
         && (Options.status_interval_ms (State.options s) * 1000000
             <=? now - PolicySession.last_status session)
      then match status_message s user_id #"ok" with
           | Err e => (s, session, Err e)
           | Ok status => snapshot_status s session now status
           end
      else (s, session, Ok tt)
  | _ => (s, session, Ok tt)
  end.

(** [poll_policy_session] over the answers of the session's stream. *)
Definition poll_policy_session (s : State.t) (session : PolicySession.t) (now utc : Z)
  (a : @SessionChannel.answers E) : handled :=
  let '(c, _, r) := SessionChannel.poll_channel (PolicySession.channel session) a in
  let session := PolicySession.set_channel session c in
  match r with
  | Ready (Err _) => (s, session, Err STATUS_IO)
  | polled =>
      let messages := match polled with Ready (Ok messages) => messages | _ => [] end in
      match handle_messages s session now messages with
      | (s, session, Err e) => (s, session, Err e)
      | (s, session, Ok _) =>
          match advance_authentication s session utc with
          | (s, session, Err e) => (s, session, Err e)
          | (s, session, Ok _) => push_status s session now
          end
      end
  end.
End session.

(** * The calls of the host

    The instance exists and its pointers are valid ([raw] says whether the
    foreign stream handles are accepted, [pumps] whether the pumps of a flow can
    be made); the counters [SESSION_NEXT] and
    [FLOW_NEXT] are passed through. *)
Section host.
Context `{Redb, Toml ChannelSecurity.t, Toml Rules.t}.
Context {E : Type}.

(** [fetch_add(1)]. *)
Definition fetch_add (next : Z) : Z * Z := (wrapping_add u64_max next 1, next).

Definition channel_denied (context : ChannelSecurity.t) : bool :=
  negb (ChannelSecurity.confidentiality context) || negb (ChannelSecurity.integrity context)
  || (bool_decide (ChannelSecurity.role context = PolicyRole.Client)
      && negb (ChannelSecurity.peer_authenticated context))
  || (ChannelSecurity.peer_authenticated context
      && bool_decide (ChannelSecurity.peer_identity context = Some [])).

(** The client's side queues its credential as the first frame. *)
Definition greet (s : State.t) (role : PolicyRole.t) (channel : SessionChannel.t)
  : result Status SessionChannel.t :=
  match role with
  | PolicyRole.Server => Ok channel
  | PolicyRole.Client =>
      match State.client_credential s with
      | None => Err STATUS_DENIED
      | Some credential =>
          let request := #"method = " ++ quoted #"auth" ++ [x0a] ++ #"credential = "
                           ++ quoted (Credential.hex credential) ++ [x0a] in
          match @SessionChannel.queue_secret E channel request with
          | (channel, Ok _) => Ok channel
          | (_, Err _) => Err STATUS_RESOURCE
          end
      end
  end.

(** The state, the counter, the status, and the handle written to the
    output. *)
Definition attach_session (s : State.t) (next now : Z) (raw : bool) (context : bytes)
  : State.t * Z * Status * option Z :=
  match (context ← from_utf8 context; toml_from_str context) with
  | None => (s, next, STATUS_DENIED, None)
  | Some context =>
      if channel_denied context then (s, next, STATUS_DENIED, None)
      else if negb raw then (s, next, STATUS_INVALID, None)
      else
        let '(next, handle) := fetch_add next in
        if handle =? 0 then (s, next, STATUS_RESOURCE, None)
        else match @SessionChannel.new E (Options.max_control_frame_bytes (State.options s)) with
        | Err _ => (s, next, STATUS_RESOURCE, None)
        | Ok channel =>
            match greet s (ChannelSecurity.role context) channel with
            | Err status => (s, next, status, None)
            | Ok channel =>
                let session := PolicySession.mk channel (ChannelSecurity.role context)
                  AuthState.Waiting false now None [] in
                (State.set_sessions s (<[handle := session]> (State.sessions s)), next,
                 STATUS_OK, Some handle)
            end
        end
  end.

(** The authenticated session a flow belongs to, or the status to return. *)
Definition flow_session (s : State.t) (session : Z)
  : result Status (PolicySession.t * str) :=
  if State.maintenance s then Err STATUS_PENDING
  else match State.sessions s !! session with
  | None => Err STATUS_INVALID
  | Some p =>
      match PolicySession.auth p with
      | AuthState.Authenticated user_id => Ok (p, user_id)
      | _ => Err STATUS_PENDING
      end
  end.

Definition rules_of (s : State.t) := AdminState.rules (State.admin s).

Definition admit_flow (s : State.t) (session utc : Z) (metadata : FlowMetadata.t)
  : State.t * Status :=
  if session =? 0 then (s, STATUS_INVALID)
  else match flow_session s session with
  | Err status => (s, status)
  | Ok (p, user_id) =>
      match PolicySession.role p with
      | PolicyRole.Client => (s, STATUS_OK)
      | PolicyRole.Server =>
          match user_of s user_id with
          | None => (s, STATUS_DENIED)
          | Some user =>
              if negb (flow_available_at s user utc) || flow_limit_reached s user
              then (s, STATUS_DENIED)
              else match destination_policy (State.options s) (rules_of s) user metadata with
              | Err _ => (s, STATUS_DENIED)
              | Ok sniff =>
                  let admitted := FlowIdentity.mk user_id (PolicySession.credential_digest p) sniff in
                  let p := PolicySession.set_pending_flows p
                             (PolicySession.pending_flows p ++ [admitted]) in
                  (State.set_sessions s (<[session := p]> (State.sessions s)), STATUS_OK)
              end
          end
      end
  end.

Definition admit_resolved (s : State.t) (session utc : Z) (metadata : FlowMetadata.t) : Status :=
  if session =? 0 then STATUS_INVALID
  else match FlowMetadata.address_type metadata with
  | ADDRESS_IPV4 | ADDRESS_IPV6 =>
      match flow_session s session with
      | Err status => status
      | Ok (p, user_id) =>
          match PolicySession.role p with
          | PolicyRole.Client => STATUS_OK
          | PolicyRole.Server =>
              match user_of s user_id with
              | None => STATUS_DENIED
              | Some user =>
                  if negb (flow_available_at s user utc)
                     || is_err (destination_policy (State.options s) (rules_of s) user metadata)
                  then STATUS_DENIED else STATUS_OK
              end
          end
      end
  | _ => STATUS_INVALID
  end.

(** The identity a new flow gets: the oldest admitted one on a server, none on
    a client. *)
Definition take_identity (s : State.t) (session : Z)
  : State.t * result Status (option FlowIdentity.t) :=
  match State.sessions s !! session with
  | None => (s, Err STATUS_INVALID)
  | Some p =>
      match PolicySession.role p with
      | PolicyRole.Client => (s, Ok None)
      | PolicyRole.Server =>
          match PolicySession.pending_flows p with
          | [] => (s, Err STATUS_DENIED)
          | admitted :: rest =>
              (State.set_sessions s
                 (<[session := PolicySession.set_pending_flows p rest]> (State.sessions s)),
               Ok (Some admitted))
          end
      end
  end.

Definition attach_flow (s : State.t) (next now session : Z) (raw pumps : bool)
  : State.t * Z * Status :=
  if session =? 0 then (s, next, STATUS_INVALID)
  else match take_identity s session with
  | (s, Err status) => (s, next, status)
  | (s, Ok admitted) =>
      if negb raw then (s, next, STATUS_INVALID)
      else if negb pumps then (s, next, STATUS_RESOURCE)
      else
        let flow := PolicyFlow.new now session (FlowIdentity.user_id <$> admitted)
                      (admitted ≫= FlowIdentity.credential_digest)
                      (admitted ≫= FlowIdentity.sniff) in
        let '(next, handle) := fetch_add next in
        if handle =? 0 then (s, next, STATUS_RESOURCE)
        else (State.set_flows s (<[handle := flow]> (State.flows s)), next, STATUS_OK)
  end.

Definition attach_datagram_flow (s : State.t) (next session : Z) (raw pumps : bool)
  : State.t * Z * Status :=
  if session =? 0 then (s, next, STATUS_INVALID)
  else match take_identity s session with
  | (s, Err status) => (s, next, status)
  | (s, Ok admitted) =>
      if negb raw then (s, next, STATUS_INVALID)
      else if negb pumps then (s, next, STATUS_RESOURCE)
      else
        let flow := PolicyDatagramFlow.new session (FlowIdentity.user_id <$> admitted)
                      (admitted ≫= FlowIdentity.credential_digest)
                      (admitted ≫= FlowIdentity.sniff) in
        let '(next, handle) := fetch_add next in
        if handle =? 0 then (s, next, STATUS_RESOURCE)
        else (State.set_datagram_flows s (<[handle := flow]> (State.datagram_flows s)), next,
              STATUS_OK)
  end.
End host.
