(* ===== verification/Control.v ===== *)
(** The administrative control of policy-local
    (modules/policy-local/src/lib.rs, [control_instance] to
    [apply_admin_mutation]): a request is prepared against the in-memory state,
    written to the storage together with its receipt, and takes effect and is
    answered only once the write is durable. *)
From Stdlib Require Import Strings.Byte.
From S2P Require Import Prelude Text Net Frame Accounting Admin Config Sniff Service Storage Rules Flow State Traffic Session.
#[local] Open Scope Z_scope.

Module MutationResponse.
Record t := mk { status : str; revision : Z; user_id : option str }.
End MutationResponse.

Module UsageResponse.
Record t := mk {
  status : str;
  user_id : str;
  revision : Z;
  used_bytes : Z;
  limit_bytes : option Z;
  upload_bytes : Z;
  download_bytes : Z;
}.
End UsageResponse.

Module SessionsResponse.
Record t := mk { status : str; sessions : list Z }.
End SessionsResponse.

Module BackupResponse.
Record t := mk { status : str; destination : str }.
End BackupResponse.

Definition encode_response {A} `{TomlPrint A} (response : A) : result Status bytes :=
  ok_or (toml_to_string response) STATUS_INTERNAL.

Definition next_revision (revision : Z) : result Status Z :=
  ok_or (checked_add u64_max revision 1) STATUS_RESOURCE.

Section control.
Context `{Redb, Sha256, HashOrder, Postcard StoredUserRecord.t, Postcard CredentialRecord.t,
  Postcard Receipt.t, Toml ControlRequest.t, Toml Rules.t, TomlPrint MutationResponse.t,
  TomlPrint UsageResponse.t, TomlPrint SessionsResponse.t, TomlPrint BackupResponse.t}.

Definition credential_key (digest : str) : str := #"credential/" ++ digest.
Definition client_key (client_id : str) : str := #"client/" ++ client_id.

(** ** What has to be loaded first *)

Definition requested_user (request : ControlRequest.t) : option str :=
  match request with
  | ControlRequest.UserUpdate _ _ user_id _ _
  | ControlRequest.UserDisable _ _ user_id _
  | ControlRequest.UserDelete _ _ user_id _
  | ControlRequest.CredentialAdd _ _ user_id _
  | ControlRequest.QuotaAdd _ _ user_id _
  | ControlRequest.QuotaNewPeriod _ _ user_id _
  | ControlRequest.UsageGet user_id
  | ControlRequest.SessionsList (Some user_id) => Some user_id
  | _ => None
  end.

Definition requested_credential (request : ControlRequest.t) : option str :=
  match request with
  | ControlRequest.CredentialAdd _ _ _ credential_sha256
  | ControlRequest.CredentialRevoke _ _ credential_sha256 => Some credential_sha256
  | _ => None
  end.

Definition required_admin_read (s : State.t) (request : ControlRequest.t)
  : option (str * ReadKind.t) :=
  let admin := State.admin s in
  let missing_user :=
    user_id ← requested_user request;
    if bool_decide (user_id ∈ AdminState.loaded_users admin) then None
    else Some (user_key user_id, ReadKind.User user_id) in
  match missing_user with
  | Some read => Some read
  | None =>
      digest ← requested_credential request;
      if bool_decide (digest ∈ AdminState.loaded_credentials admin) then None
      else Some (credential_key digest, ReadKind.Credential digest)
  end.

(** Make room for one more cached user. *)
Definition evict_user (s : State.t) : State.t :=
  if Options.max_cached_users (State.options s) <=?
     Z.of_nat (size (AdminState.users (State.admin s))) then
    match hash_order (map_to_list (AdminState.users (State.admin s))) with
    | (evicted, _) :: _ =>
        with_loaded_users (with_users s (fun m => base.delete evicted m))
          (fun l => l ∖ {[evicted]})
    | [] => s
    end
  else s.

Definition finish_admin_read (s : State.t) (kind : ReadKind.t) (value : option bytes)
  : State.t * result Status unit :=
  match kind with
  | ReadKind.User id =>
      let s := with_loaded_users s (fun l => {[id]} ∪ l) in
      match value with
      | None => (s, Ok tt)
      | Some value =>
          match decode_user_record value with
          | Err _ => (s, Err STATUS_IO)
          | Ok user =>
              if negb (bool_decide (UserRecord.id user = id)) then (s, Err STATUS_IO)
              else (with_users (evict_user s) (fun m => <[id := user]> m), Ok tt)
          end
      end
  | ReadKind.Credential digest =>
      let s := with_loaded_credentials s (fun l => {[digest]} ∪ l) in
      match value with
      | None => (s, Ok tt)
      | Some value =>
          match from_bytes value with
          | None => (s, Err STATUS_IO)
          | Some credential =>
              if negb (bool_decide (CredentialRecord.digest credential = digest))
              then (s, Err STATUS_IO)
              else (with_credentials s (fun m => <[digest := credential]> m), Ok tt)
          end
      end
  end.

(** ** Read-only requests *)

Definition read_admin_state (s : State.t) (request : ControlRequest.t) : result Status bytes :=
  match request with
  | ControlRequest.UsageGet user_id =>
      user ← ok_or (user_of s user_id) STATUS_INVALID;
      encode_response (UsageResponse.mk #"ok" (UserRecord.id user) (UserRecord.revision user)
        (UserRecord.durable_charged_bytes user)
        (limit_value (UserSpec.quota (UserRecord.spec user)))
        (UserRecord.upload_bytes user) (UserRecord.download_bytes user))
  | ControlRequest.SessionsList user_id =>
      let sessions := omap (fun '(handle, session) =>
        match PolicySession.auth session with
        | AuthState.Authenticated authenticated =>
            if is_none_or user_id (fun requested => bool_decide (requested = authenticated))
            then Some handle else None
        | _ => None
        end) (hash_order (map_to_list (State.sessions s))) in
      encode_response (SessionsResponse.mk #"ok" sessions)
  | _ => Err STATUS_INVALID
  end.

(** ** Preparing a mutation *)

Definition checked_user (s : State.t) (user_id : str) (expected_revision : Z)
  : result Status UserRecord.t :=
  user ← ok_or (user_of s user_id) STATUS_INVALID;
  if negb (UserRecord.revision user =? expected_revision) then Err STATUS_DENIED else Ok user.

(** The mutation and changes of a request, the user of its response and the
    revision. *)
Abbreviation prepared :=
  (AdminMutation.t * list (str * option bytes) * option str * Z)%type.

Definition only_users (users : list (str * option UserRecord.t)) : AdminMutation.t :=
  AdminMutation.mk users [] [] [] None.
Definition only_credentials (credentials : list (str * option CredentialRecord.t))
  : AdminMutation.t := AdminMutation.mk [] credentials [] [] None.

(** [put_user] on an empty mutation. *)
Definition put_user (user : UserRecord.t)
  : result Status (AdminMutation.t * list (str * option bytes)) :=
  value ← map_err admin_status (encode_user_record user);
  Ok (only_users [(UserRecord.id user, Some user)], [(user_key (UserRecord.id user), Some value)]).

(** A user's record with a new specification, charge and counters, at its next
    revision. *)
Definition revise (record : UserRecord.t) (spec : UserSpec.t) : result Status UserRecord.t :=
  revision ← next_revision (UserRecord.revision record);
  Ok (UserRecord.mk (UserRecord.id record) spec revision (UserRecord.durable_charged_bytes record)
    (UserRecord.upload_bytes record) (UserRecord.download_bytes record)
    (UserRecord.max_observed_utc record)).

Definition put_revised (user_id : str) (record : UserRecord.t) : result Status prepared :=
  '(mutation, changes) ← put_user record;
  Ok (mutation, changes, Some user_id, UserRecord.revision record).

Definition set_status (spec : UserSpec.t) (status : UserStatus.t) : UserSpec.t :=
  UserSpec.mk status (UserSpec.expiration spec) (UserSpec.quota spec) (UserSpec.upload_rate spec)
    (UserSpec.download_rate spec) (UserSpec.combined_rate spec) (UserSpec.burst_bytes spec)
    (UserSpec.max_sessions spec) (UserSpec.max_flows spec) (UserSpec.weekly_access spec)
    (UserSpec.weight spec) (UserSpec.group spec) (UserSpec.rule_profile spec).

Definition set_spec_quota (spec : UserSpec.t) (quota : ByteLimit.t) : UserSpec.t :=
  UserSpec.mk (UserSpec.status spec) (UserSpec.expiration spec) quota (UserSpec.upload_rate spec)
    (UserSpec.download_rate spec) (UserSpec.combined_rate spec) (UserSpec.burst_bytes spec)
    (UserSpec.max_sessions spec) (UserSpec.max_flows spec) (UserSpec.weekly_access spec)
    (UserSpec.weight spec) (UserSpec.group spec) (UserSpec.rule_profile spec).

(** [fill] is what the random source answers. *)
Definition prepare_create (fill : option bytes) (utc : Z) (user : UserSpec.t)
  : result Status prepared :=
  id ← map_err admin_status (UserId.generate fill);
  let id := UserId.hex id in
  '(mutation, changes) ← put_user (UserRecord.mk id user 1 0 0 0 utc);
  Ok (mutation, changes, Some id, 1).

Definition prepare_update (s : State.t) (user_id : str) (expected_revision : Z)
  (user : UserSpec.t) : result Status prepared :=
  record ← checked_user s user_id expected_revision;
  record ← revise record user;
  put_revised user_id record.

Definition prepare_disable (s : State.t) (user_id : str) (expected_revision : Z)
  : result Status prepared :=
  record ← checked_user s user_id expected_revision;
  record ← revise record (set_status (UserRecord.spec record) UserStatus.Disabled);
  put_revised user_id record.

(** The cached credentials of the user go with it. *)
Definition prepare_delete (s : State.t) (user_id : str) (expected_revision : Z)
  : result Status prepared :=
  record ← checked_user s user_id expected_revision;
  revision ← next_revision (UserRecord.revision record);
  let digests := omap (fun '(digest, credential) =>
    if bool_decide (CredentialRecord.user_id credential = user_id) then Some digest else None)
    (hash_order (map_to_list (AdminState.credentials (State.admin s)))) in
  Ok (AdminMutation.mk [(user_id, None)] (map (fun d => (d, None)) digests) [] [] None,
      (user_key user_id, None) :: map (fun d => (credential_key d, None)) digests,
      Some user_id, revision).

Definition prepare_credential_add (s : State.t) (user_id credential_sha256 : str)
  : result Status prepared :=
  user ← ok_or (user_of s user_id) STATUS_INVALID;
  revision ← next_revision (UserRecord.revision user);
  match AdminState.credentials (State.admin s) !! credential_sha256 with
  | Some existing =>
      if negb (bool_decide (CredentialRecord.user_id existing = user_id))
         || CredentialRecord.revoked existing
      then Err STATUS_DENIED
      else Ok (AdminMutation.default, [], Some user_id, revision)
  | None =>
      let record := CredentialRecord.mk credential_sha256 user_id false revision in
      value ← ok_or (to_allocvec record) STATUS_INTERNAL;
      Ok (only_credentials [(credential_sha256, Some record)],
          [(credential_key credential_sha256, Some value)], Some user_id, revision)
  end.

Definition prepare_credential_revoke (s : State.t) (credential_sha256 : str)
  : result Status prepared :=
  record ← ok_or (AdminState.credentials (State.admin s) !! credential_sha256) STATUS_INVALID;
  revision ← next_revision (CredentialRecord.revision record);
  let record := CredentialRecord.mk (CredentialRecord.digest record)
                  (CredentialRecord.user_id record) true revision in
  value ← ok_or (to_allocvec record) STATUS_INTERNAL;
  Ok (only_credentials [(credential_sha256, Some record)],
      [(credential_key credential_sha256, Some value)], Some (CredentialRecord.user_id record),
      revision).

Definition prepare_quota_add (s : State.t) (user_id : str) (bytes : Z) : result Status prepared :=
  record ← ok_or (user_of s user_id) STATUS_INVALID;
  match UserSpec.quota (UserRecord.spec record) with
  | ByteLimit.Unlimited => Err STATUS_INVALID
  | ByteLimit.Limited limit =>
      limit ← ok_or (checked_add u64_max limit bytes) STATUS_RESOURCE;
      record ← revise record (set_spec_quota (UserRecord.spec record) (ByteLimit.Limited limit));
      put_revised user_id record
  end.

Definition prepare_quota_new_period (s : State.t) (user_id : str) (quota : ByteLimit.t)
  : result Status prepared :=
  record ← ok_or (user_of s user_id) STATUS_INVALID;
  revision ← next_revision (UserRecord.revision record);
  put_revised user_id (UserRecord.mk (UserRecord.id record)
    (set_spec_quota (UserRecord.spec record) quota) revision 0 0 0
    (UserRecord.max_observed_utc record)).

Definition prepare_disconnect (s : State.t) (session_id : Z) : result Status prepared :=
  if negb (is_some (State.sessions s !! session_id)) then Err STATUS_INVALID
  else Ok (AdminMutation.mk [] [] [] [] (Some session_id), [], None, 0).

Definition prepare_rules (profile : str) (apply : RuleApply.t) (rules_toml : str)
  : result Status prepared :=
  rules ← ok_or (toml_from_str rules_toml) STATUS_INVALID;
  _ ← map_err (fun _ => STATUS_INVALID) (Rules.validate rules);
  Ok (AdminMutation.mk [] [] [(profile, rules_toml)]
        (if bool_decide (apply = RuleApply.Active) then [profile] else []) None,
      [(#"meta/rules/" ++ profile, Some rules_toml)], None, 0).

Definition prepare_admin_mutation (s : State.t) (fill : option bytes) (utc : Z)
  (request : ControlRequest.t) : result Status PreparedAdmin.t :=
  '(mutation, changes, user_id, revision) ←
    match request with
    | ControlRequest.UserCreate _ _ user => prepare_create fill utc user
    | ControlRequest.UserUpdate _ _ user_id expected user => prepare_update s user_id expected user
    | ControlRequest.UserDisable _ _ user_id expected => prepare_disable s user_id expected
    | ControlRequest.UserDelete _ _ user_id expected => prepare_delete s user_id expected
    | ControlRequest.CredentialAdd _ _ user_id digest => prepare_credential_add s user_id digest
    | ControlRequest.CredentialRevoke _ _ digest => prepare_credential_revoke s digest
    | ControlRequest.QuotaAdd _ _ user_id bytes => prepare_quota_add s user_id bytes
    | ControlRequest.QuotaNewPeriod _ _ user_id quota => prepare_quota_new_period s user_id quota
    | ControlRequest.SessionsDisconnect _ _ session_id => prepare_disconnect s session_id
    | ControlRequest.RulesReplace _ _ profile apply rules => prepare_rules profile apply rules
    | ControlRequest.UsageGet _ | ControlRequest.SessionsList _
    | ControlRequest.MaintenanceBackup _ => Err STATUS_INVALID
    end;
  response ← encode_response (MutationResponse.mk #"ok" revision user_id);
  Ok (PreparedAdmin.mk response mutation changes).

(** ** Applying a committed mutation *)

Definition stopped_by (utc : Z) (mutation : AdminMutation.t) : gset str :=
  list_to_set (omap (fun '(id, user) =>
    match user with
    | Some user => if user_available_at user utc then None else Some id
    | None => Some id
    end) (AdminMutation.users mutation)).

Definition revoked_by (mutation : AdminMutation.t) : gset str :=
  list_to_set (omap (fun '(digest, credential) =>
    match credential with
    | Some credential => if negb (CredentialRecord.revoked credential) then None else Some digest
    | None => Some digest
    end) (AdminMutation.credentials mutation)).

Definition apply_user (s : State.t) (change : str * option UserRecord.t) : State.t :=
  let '(id, user) := change in
  match user with
  | Some user =>
      let s := if is_none (user_of s id) then evict_user s else s in
      with_users (with_loaded_users s (fun l => {[id]} ∪ l)) (fun m => <[id := user]> m)
  | None => with_loaded_users (with_users s (fun m => base.delete id m)) (fun l => {[id]} ∪ l)
  end.

Definition apply_credential (s : State.t) (change : str * option CredentialRecord.t) : State.t :=
  let '(digest, credential) := change in
  let s := with_loaded_credentials s (fun l => {[digest]} ∪ l) in
  with_credentials s (fun m =>
    match credential with
    | Some credential => <[digest := credential]> m
    | None => base.delete digest m
    end).

Definition apply_rules (s : State.t) (change : str * str) : State.t :=
  with_rules s (fun m => <[fst change := snd change]> m).

(** [retain] on the flows of some users, of some credentials. *)
Definition in_set (X : gset str) (o : option str) : bool :=
  is_some_and o (fun id => bool_decide (id ∈ X)).

Definition drop_flows_of_users (users : gset str) (s : State.t) : State.t :=
  let s := State.set_flows s
    (filter (fun kv => in_set users (PolicyFlow.user_id (snd kv)) = false) (State.flows s)) in
  State.set_datagram_flows s
    (filter (fun kv => in_set users (PolicyDatagramFlow.user_id (snd kv)) = false)
       (State.datagram_flows s)).

Definition drop_flows_of_credentials (digests : gset str) (s : State.t) : State.t :=
  let s := State.set_flows s
    (filter (fun kv => in_set digests (PolicyFlow.credential_digest (snd kv)) = false)
       (State.flows s)) in
  State.set_datagram_flows s
    (filter (fun kv => in_set digests (PolicyDatagramFlow.credential_digest (snd kv)) = false)
       (State.datagram_flows s)).

(** Rules applied to active flows: the flows of the users of those profiles
    end. *)
Definition apply_active_rules (profiles : list str) (s : State.t) : State.t :=
  if bool_decide (profiles = []) then s
  else
    let affected := list_to_set (omap (fun kv =>
      let user := snd kv in
      if bool_decide (UserSpec.rule_profile (UserRecord.spec user) ∈ profiles)
      then Some (UserRecord.id user) else None)
      (map_to_list (AdminState.users (State.admin s)))) in
    drop_flows_of_users affected s.

Definition session_of_users (users : gset str) (session : PolicySession.t) : bool :=
  match PolicySession.auth session with
  | AuthState.Authenticated id => bool_decide (id ∈ users)
  | _ => false
  end.

(** [if !stopped_users.is_empty() { .. }]. *)
Definition stop_users (users : gset str) (s : State.t) : State.t :=
  if bool_decide (users = ∅) then s
  else
    let s := State.set_traffic s (filter (fun kv => fst kv ∉ users) (State.traffic s)) in
    let s := State.set_flow_cursor s (filter (fun kv => fst kv ∉ users) (State.flow_cursor s)) in
    let s := State.set_user_deficit s (filter (fun kv => fst kv ∉ users) (State.user_deficit s)) in
    let s := drop_flows_of_users users s in
    State.set_sessions s
      (filter (fun kv => session_of_users users (snd kv) = false) (State.sessions s)).

(** [if !revoked_credentials.is_empty() { .. }]. *)
Definition revoke_credentials (digests : gset str) (s : State.t) : State.t :=
  if bool_decide (digests = ∅) then s
  else
    let s := drop_flows_of_credentials digests s in
    State.set_sessions s
      (filter (fun kv => in_set digests (PolicySession.credential_digest (snd kv)) = false)
         (State.sessions s)).

Definition apply_admin_mutation (s : State.t) (utc : Z) (mutation : AdminMutation.t) : State.t :=
  let s := fold_left apply_user (AdminMutation.users mutation) s in
  let s := fold_left apply_credential (AdminMutation.credentials mutation) s in
  let s := fold_left apply_rules (AdminMutation.rules mutation) s in
  let s := apply_active_rules (AdminMutation.active_rule_profiles mutation) s in
  let s := match AdminMutation.disconnect mutation with
           | Some session => State.set_sessions s (base.delete session (State.sessions s))
           | None => s
           end in
  let s := stop_users (stopped_by utc mutation) s in
  revoke_credentials (revoked_by mutation) s.

(** ** The control call *)

Definition set_sequencer (s : State.t) (q : AdminSequencer.t) : State.t :=
  State.set_admin s (AdminState.set_sequencer (State.admin s) q).

(** The pending request has the same bytes as this one: look at its reply.
    [inl] is the answer to the call, [inr] to go on with the request. *)
Definition resume_write (s : State.t) (utc : Z) (p : PendingWrite.t)
  : State.t * result Status bytes :=
  match try_recv_write s (PendingWrite.reply p) with
  | (s, Written) =>
      let '(q, r) := AdminSequencer.apply_commit (AdminState.sequencer (State.admin s))
                       (PendingWrite.client_id p) (PendingWrite.receipt p) in
      let s := set_sequencer s q in
      match r with
      | Err _ => (s, Err STATUS_INTERNAL)
      | Ok _ => (apply_admin_mutation s utc (PendingWrite.mutation p), Ok (PendingWrite.response p))
      end
  | (s, WriteFailed) => (s, Err STATUS_IO)
  | (s, WriteEmpty) =>
      (State.set_pending_control s (Some (PendingControl.Write p)), Err STATUS_PENDING)
  end.

Definition resume_read (s : State.t) (p : PendingRead.t)
  : State.t * (result Status bytes + unit) :=
  match try_recv_read s (PendingRead.reply p) with
  | (s, ReadValue value) =>
      match finish_admin_read s (PendingRead.kind p) value with
      | (s, Err status) => (s, inl (Err status))
      | (s, Ok _) => (s, inr tt)
      end
  | (s, ReadFailed) => (s, inl (Err STATUS_IO))
  | (s, ReadEmpty) =>
      (State.set_pending_control s (Some (PendingControl.Read p)), inl (Err STATUS_PENDING))
  end.

Definition resume_backup (s : State.t) (p : PendingBackup.t) : State.t * result Status bytes :=
  match try_recv_write s (PendingBackup.reply p) with
  | (s, Written) =>
      (State.set_maintenance s false,
       encode_response (BackupResponse.mk #"ok" (PendingBackup.destination p)))
  | (s, WriteFailed) => (State.set_maintenance s false, Err STATUS_IO)
  | (s, WriteEmpty) =>
      (State.set_pending_control s (Some (PendingControl.Backup p)), Err STATUS_PENDING)
  end.

Definition resume (s : State.t) (utc : Z) (request : bytes)
  : State.t * (result Status bytes + unit) :=
  match State.pending_control s with
  | None => (s, inr tt)
  | Some pending =>
      if negb (bool_decide (PendingControl.request pending = request))
      then (s, inl (Err STATUS_PENDING))
      else
        let s := State.set_pending_control s None in
        match pending with
        | PendingControl.Write p => let '(s, r) := resume_write s utc p in (s, inl r)
        | PendingControl.Read p => resume_read s p
        | PendingControl.Backup p => let '(s, r) := resume_backup s p in (s, inl r)
        end
  end.

Definition start_backup (s : State.t) (request : bytes) (destination : str)
  : State.t * result Status bytes :=
  let '(w, r) := StorageWorker.backup (State.storage s) destination in
  let s := State.set_storage s w in
  match r with
  | Err e => (s, Err (storage_status e))
  | Ok reply =>
      let s := State.set_maintenance s true in
      (State.set_pending_control s
         (Some (PendingControl.Backup (PendingBackup.mk request destination reply))),
       Err STATUS_PENDING)
  end.

Definition start_read (s : State.t) (request : bytes) (key : str) (kind : ReadKind.t)
  : State.t * result Status bytes :=
  let '(w, r) := StorageWorker.get (State.storage s) key in
  let s := State.set_storage s w in
  match r with
  | Err e => (s, Err (storage_status e))
  | Ok reply =>
      (State.set_pending_control s
         (Some (PendingControl.Read (PendingRead.mk request kind reply))), Err STATUS_PENDING)
  end.

(** Prepare the mutation and its receipt and hand both to the storage in one
    transaction. *)
Definition start_write (s : State.t) (fill : option bytes) (utc : Z) (request : bytes)
  (parsed : ControlRequest.t) (client_id : str) (seq : Z) (request_hash : bytes)
  : State.t * result Status bytes :=
  match prepare_admin_mutation s fill utc parsed with
  | Err status => (s, Err status)
  | Ok p =>
      match AdminSequencer.prepare_commit (AdminState.sequencer (State.admin s)) client_id seq
              request_hash (PreparedAdmin.response p) with
      | Err e => (s, Err (admin_status e))
      | Ok receipt =>
          let changes := PreparedAdmin.changes p ++ [(client_key client_id, Some receipt)] in
          let '(w, r) := StorageWorker.apply (State.storage s) changes in
          let s := State.set_storage s w in
          match r with
          | Err e => (s, Err (storage_status e))
          | Ok reply =>
              (State.set_pending_control s
                 (Some (PendingControl.Write (PendingWrite.mk request client_id receipt
                    (PreparedAdmin.response p) (PreparedAdmin.mutation p) reply))),
               Err STATUS_PENDING)
          end
      end
  end.

(** A request with nothing pending for it. *)
Definition start_request (s : State.t) (fill : option bytes) (utc : Z) (request : bytes)
  : State.t * result Status bytes :=
  if Options.max_control_frame_bytes (State.options s) <? len request
  then (s, Err STATUS_RESOURCE)
  else match ControlRequest.parse request with
  | Err _ => (s, Err STATUS_INVALID)
  | Ok (ControlRequest.MaintenanceBackup destination) => start_backup s request destination
  | Ok parsed =>
      match required_admin_read s parsed with
      | Some (key, kind) => start_read s request key kind
      | None =>
          match ControlRequest.sequence parsed with
          | None => (s, read_admin_state s parsed)
          | Some (client_id, seq) =>
              match AdminSequencer.check (AdminState.sequencer (State.admin s)) client_id seq
                      request with
              | Err e => (s, Err (admin_status e))
              | Ok (AdminDecision.Replay response) => (s, Ok response)
              | Ok (AdminDecision.Execute request_hash) =>
                  start_write s fill utc request parsed client_id seq request_hash
              end
          end
      end
  end.

Definition control_instance (s : State.t) (fill : option bytes) (utc : Z) (request : bytes)
  : State.t * result Status bytes :=
  match resume s utc request with
  | (s, inl r) => (s, r)
  | (s, inr _) => start_request s fill utc request
  end.
End control.
