(* ===== verification/Policy.v ===== *)
(** The life of a policy-local instance (modules/policy-local/src/lib.rs,
    [initialize], [poll_instance], [shutdown_instance]).

    One call of [poll_instance] is a function of the state, the two clocks and
    what the streams of the flows and sessions answer during it. *)
From Stdlib Require Import Strings.Byte.
From stdpp Require Import sorting.
From S2P Require Import Prelude Text Net Frame Accounting Admin Config Sniff Service Storage Rules Flow State Traffic Session Control.
#[local] Open Scope Z_scope.

Section policy.
Context `{Redb, Sha256, HashOrder, Postcard StoredUserRecord.t, Postcard CredentialRecord.t,
  Postcard Receipt.t, TomlPrint PolicyStatus.t, Toml Service.ClientRequest.t,
  Toml ServerStatus.t, Toml Options.t}.
Context {E : Type}.

(** * Starting *)

(** The receipts found in the storage, restored one by one. *)
Fixpoint restore_receipts (q : AdminSequencer.t) (receipts : list (str * bytes))
  : result Status AdminSequencer.t :=
  match receipts with
  | [] => Ok q
  | (key, receipt) :: receipts =>
      client_id ← ok_or (strip_prefix key #"client/") STATUS_INTERNAL;
      match AdminSequencer.restore q client_id receipt with
      | (q, Ok _) => restore_receipts q receipts
      | (_, Err e) => Err (admin_status e)
      end
  end.

Definition initial_rate (rate : GlobalRate.t) : result Status (option TokenBucket.t) :=
  match rate with
  | GlobalRate.Unlimited => Ok None
  | GlobalRate.Limited bytes_per_second burst_bytes =>
      map_err (fun _ => STATUS_INVALID) (Some <$> TokenBucket.new bytes_per_second burst_bytes 0)
  end.

Definition initial_credential (env : str -> option str) (client : option ClientOptions.t)
  : result Status (option Credential.t) :=
  match client with
  | None => Ok None
  | Some client =>
      secret ← map_err (fun _ => STATUS_INVALID)
                 (SecretSource.resolve env (ClientOptions.credential client));
      Some <$> map_err admin_status (Credential.parse_hex secret)
  end.

(** The scan is sent to the worker, which serves it before the call returns. *)
Definition scan_receipts (worker : StorageWorker.t) (limit : Z)
  : result Status (StorageWorker.t * list (str * bytes)) :=
  let '(worker, r) := StorageWorker.scan worker #"client/" limit in
  reply ← map_err storage_status r;
  let worker := StorageWorker.run_step (Ok tt) (Err StorageError.Stopped) worker in
  match StorageWorker.try_recv worker reply with
  | (worker, Ready (Some (Reply.Scanned r))) =>
      receipts ← map_err storage_status r; Ok (worker, receipts)
  | _ => Err STATUS_IO
  end.

(** The messages of [validate_module]. *)
Inductive InvalidModule := BaseNotUtf8 | InvalidOptions (error : ConfigError.t).

Definition validate_module (env : str -> option str) (config base : bytes) : result InvalidModule unit :=
  base ← ok_or (from_utf8 base) BaseNotUtf8;
  _ ← map_err InvalidOptions (Options.parse env config base);
  Ok tt.

(** [initialize]; [opened] is what opening the database file answers. *)
Definition initialize (env : str -> option str) (opened : result StorageError.t database)
  (config base : bytes) : result Status State.t :=
  base ← ok_or (from_utf8 base) STATUS_INVALID;
  options ← map_err (fun _ => STATUS_INVALID) (Options.parse env config base);
  global_rate ← initial_rate (Options.global_rate options);
  let st := Options.storage options in
  d ← map_err (fun _ => STATUS_IO) opened;
  worker ← map_err (fun _ => STATUS_IO)
    (StorageWorker.open d (StorageOptions.cache_bytes st) (StorageOptions.max_database_bytes st)
       (StorageOptions.queue_capacity st));
  sequencer ← map_err (fun _ => STATUS_INVALID)
    (AdminSequencer.new (Options.max_admin_clients options));
  '(worker, receipts) ← scan_receipts worker (Options.max_admin_clients options);
  sequencer ← restore_receipts sequencer receipts;
  client_credential ← initial_credential env (Options.client options);
  Ok (State.mk false false global_rate ∅ 0 options worker
    (AdminState.mk sequencer ∅ ∅ ∅ ∅ ∅) None client_credential ∅ ∅ ∅ ∅ ∅).

(** What starts had been valid, and runs with the options that were checked. *)
Lemma initialize_validated env opened config base s :
  initialize env opened config base = Ok s ->
  validate_module env config base = Ok tt /\
  exists base', from_utf8 base = Some base' /\ Options.parse env config base' = Ok (State.options s).
Proof.
  unfold initialize, validate_module. intros Hi.
  apply bind_Ok in Hi as (base' & Hb & (options & Hp & (rate & _ & (d & _ & (worker & _ & (q & _ & Hi)%bind_Ok)%bind_Ok)%bind_Ok)%bind_Ok)%bind_Ok).
  apply bind_Ok in Hi as ([worker' receipts] & _ & (q' & _ & (credential & _ & [= <-])%bind_Ok)%bind_Ok).
  destruct (from_utf8 base) as [base''|]; [|done]. injection Hb as ->. simpl.
  apply map_err_Ok in Hp. rewrite Hp. eauto.
Qed.

(** * One poll *)

(** The clock only moves forward for a user. *)
Definition observe_clock (s : State.t) (utc : Z) : State.t :=
  with_users s (fmap (fun user => set_observed user (Z.max (UserRecord.max_observed_utc user) utc))).

Definition users_without_access (s : State.t) (utc : Z) : gset str :=
  list_to_set (omap (fun '(id, user) =>
    if user_access_allowed_at user utc then None else Some id)
    (map_to_list (AdminState.users (State.admin s)))).

Definition stop_expired (s : State.t) (now utc : Z) : State.t :=
  let s := observe_clock s utc in
  let denied := users_without_access s utc in
  let '(s, exhausted) := advance_quota s now in
  let stopped := denied ∪ exhausted in
  if bool_decide (stopped = ∅) then s else drop_flows_of_users stopped s.

(** ** Scheduling *)

(** The flows of each user, and the users in turn. *)
Definition flows_of (s : State.t) (user_id : str) : list Z :=
  omap (fun '(handle, flow) =>
    if bool_decide (PolicyFlow.user_id flow = Some user_id) then Some handle else None)
    (map_to_list (State.flows s))
  ++ omap (fun '(handle, flow) =>
    if bool_decide (PolicyDatagramFlow.user_id flow = Some user_id) then Some handle else None)
    (map_to_list (State.datagram_flows s)).

Definition rotate_left {A} (l : list A) (n : Z) : list A :=
  drop (Z.to_nat n) l ++ take (Z.to_nat n) l.

#[local] Instance lex_le_rel_dec : RelDecision lex_le := lex_le_dec.

Definition schedule (s : State.t) : State.t * list (str * list Z) :=
  let users := merge_sort lex_le (elements (active_users s)) in
  let scheduled := map (fun user_id => (user_id, merge_sort Z.le (flows_of s user_id))) users in
  if bool_decide (scheduled = []) then (s, [])
  else
    let offset := State.user_cursor s mod len scheduled in
    (State.set_user_cursor s (wrapping_add usize_max (State.user_cursor s) 1),
     rotate_left scheduled offset).

Definition weight_of (s : State.t) (user_id : str) : Z :=
  match user_of s user_id with
  | Some user => UserSpec.weight (UserRecord.spec user)
  | None => 1
  end.

Definition total_weight (s : State.t) (scheduled : list (str * list Z)) : Z :=
  fold_left (fun total u => saturating_add u64_max total (weight_of s (fst u))) scheduled 0.

(** Look at the global bucket. *)
Definition global_available (s : State.t) (now : Z) : State.t * option Z :=
  match State.global_rate s with
  | None => (s, None)
  | Some bucket =>
      let '(bucket, r) := TokenBucket.available bucket now in
      (State.set_global_rate s (Some bucket),
       match r with Ok available => Some available | Err _ => None end)
  end.

(** The budget of a user's turn, before the rates. *)
Definition turn_budget (credit max_work deficit : Z) (available : option Z) (weight total : Z) : Z :=
  let weighted := match available with
                  | Some available => weighted_share available weight total
                  | None => u64_max
                  end in
  Z.min (Z.min (Z.min credit max_work) deficit) weighted.

(** One user's turn: its flow, and the grant if there is one. *)
Definition grant_user (s : State.t) (now : Z) (available : option Z) (total : Z)
  (user : str * list Z) : State.t * option (Z * RateGrant.t) :=
  let '(user_id, flows) := user in
  let '(flow, cursor) := select_flow (unwrap_or (State.flow_cursor s !! user_id) 0) flows in
  let s := State.set_flow_cursor s (<[user_id := cursor]> (State.flow_cursor s)) in
  let max_work := if is_some (State.datagram_flows s !! flow) then MAX_UDP_PAYLOAD
                  else Options.sniff_bytes (State.options s) in
  match State.traffic s !! user_id with
  | None => (s, None)
  | Some traffic =>
      if is_some (UserTraffic.debit traffic) || is_some (UserTraffic.refund traffic)
         || UserTraffic.failed traffic
      then (s, None)
      else
        let weight := weight_of s user_id in
        let quantum := saturating_mul u64_max max_work weight in
        let deficit := saturating_add u64_max
                         (unwrap_or (State.user_deficit s !! user_id) 0) quantum in
        let s := State.set_user_deficit s (<[user_id := deficit]> (State.user_deficit s)) in
        let budget := turn_budget (QuotaAccount.credit_remaining (UserTraffic.quota traffic))
                        max_work deficit available weight total in
        let '(bucket, r) := take_from (State.global_rate s) budget now in
        let s := State.set_global_rate s bucket in
        let global := match r with Ok taken => taken | Err _ => 0 end in
        let '(traffic, r) := take_rate_grant traffic global now in
        let s := set_user_traffic s user_id traffic in
        match r with
        | Err _ => (s, None)
        | Ok grant =>
            let grant := RateGrant.mk (RateGrant.stack_to_mux grant) (RateGrant.mux_to_stack grant)
                           (RateGrant.combined grant) (RateGrant.combined grant) in
            (State.set_global_rate s (refund_to (State.global_rate s)
               (saturating_sub global (RateGrant.global grant))), Some (flow, grant))
        end
  end.

Fixpoint grant_users (s : State.t) (now : Z) (available : option Z) (total : Z)
  (scheduled : list (str * list Z)) (grants : gmap Z RateGrant.t)
  : State.t * gmap Z RateGrant.t :=
  match scheduled with
  | [] => (s, grants)
  | user :: scheduled =>
      let '(s, granted) := grant_user s now available total user in
      grant_users s now available total scheduled
        (match granted with
         | Some (flow, grant) => <[flow := grant]> grants
         | None => grants
         end)
  end.

(** The turns of one poll: the users in order, and the grants of their flows. *)
Definition assign_grants (s : State.t) (now : Z) : State.t * gmap Z RateGrant.t :=
  let '(s, scheduled) := schedule s in
  let total := total_weight s scheduled in
  let '(s, available) := global_available s now in
  grant_users s now available total scheduled ∅.

(** ** Moving bytes *)

(** The grant of a flow: that of its user's turn, or a fixed amount of work for
    a flow without a user. *)
Definition flow_grant (grants : gmap Z RateGrant.t) (handle : Z) (user_id : option str) (work : Z)
  : RateGrant.t :=
  match user_id with
  | None => RateGrant.mk work work work work
  | Some _ => unwrap_or (grants !! handle) RateGrant.default
  end.

(** What a polled flow leaves behind: the report pair to account for, and
    whether the flow is over. *)
Definition polled_usage {A} (default : A) (finished : A -> bool)
  (r : poll (result (PumpError E) (A * A))) : A * A * bool :=
  match r with
  | Ready (Ok (upload, download)) => (upload, download, finished upload && finished download)
  | Ready (Err _) => (default, default, true)
  | Pending => (default, default, false)
  end.

(** Refund what was not used, charge what was; an error ends the flow. *)
Definition account (s : State.t) (user_id : option str) (grant : RateGrant.t)
  (upload download : PumpReport.t) : State.t * bool :=
  let s := refund_rate s user_id grant upload download in
  let '(s, r) := charge_flow s user_id upload download in
  (s, is_err r).

(** The usage of one polled flow: handle, user, grant, the two reports, and
    whether it finished. *)
Abbreviation usage := (Z * option str * RateGrant.t * PumpReport.t * PumpReport.t * bool)%type.

(** The loop over [state.flows]: the flows after it and their usage. *)
Fixpoint poll_flows (ios : Z -> @PolicyFlow.io E) (grants : gmap Z RateGrant.t) (work : Z)
  (flows : list (Z * PolicyFlow.t)) : option (list (Z * PolicyFlow.t) * list usage) :=
  match flows with
  | [] => Some ([], [])
  | (handle, flow) :: flows =>
      '(polled, used) ← poll_flows ios grants work flows;
      let grant := flow_grant grants handle (PolicyFlow.user_id flow) work in
      if RateGrant.combined grant =? 0 then Some ((handle, flow) :: polled, used)
      else
        '(flow, _, r) ← PolicyFlow.poll_flow (ios handle) flow (RateGrant.stack_to_mux grant)
                          (RateGrant.mux_to_stack grant) (RateGrant.combined grant);
        let '(upload, download, over) := polled_usage PumpReport.default PumpReport.finished r in
        Some ((handle, flow) :: polled,
              (handle, PolicyFlow.user_id flow, grant, upload, download, over) :: used)
  end.

Definition of_datagram (r : DatagramPumpReport.t) : PumpReport.t :=
  PumpReport.mk (DatagramPumpReport.received r) (DatagramPumpReport.sent r)
    (DatagramPumpReport.finished r).

(** The answers of a datagram flow's pumps and the sniffer they leave. *)
Record datagram_io := DatagramIo {
  dg_upload : poll (result (PumpError E) DatagramPumpReport.t);
  dg_download : poll (result (PumpError E) DatagramPumpReport.t);
  dg_mux : DatagramSniff.t;
}.

Fixpoint poll_datagram_flows (ios : Z -> datagram_io) (grants : gmap Z RateGrant.t)
  (flows : list (Z * PolicyDatagramFlow.t)) : list (Z * PolicyDatagramFlow.t) * list usage :=
  match flows with
  | [] => ([], [])
  | (handle, flow) :: flows =>
      let '(polled, used) := poll_datagram_flows ios grants flows in
      let grant := flow_grant grants handle (PolicyDatagramFlow.user_id flow) MAX_UDP_PAYLOAD in
      if RateGrant.combined grant =? 0 then ((handle, flow) :: polled, used)
      else
        let a := ios handle in
        let '(flow, r) := PolicyDatagramFlow.poll_flow flow (dg_upload a) (dg_download a) (dg_mux a) in
        let '(upload, download, over) :=
          polled_usage DatagramPumpReport.default DatagramPumpReport.finished r in
        ((handle, flow) :: polled,
         (handle, PolicyDatagramFlow.user_id flow, grant, of_datagram upload, of_datagram download,
          over) :: used)
  end.

(** The second loop: the state after the accounting, and the handles of the
    flows that are over. *)
Fixpoint account_all (s : State.t) (used : list usage) : State.t * gset Z :=
  match used with
  | [] => (s, ∅)
  | (handle, user_id, grant, upload, download, over) :: used =>
      let '(s, failed) := account s user_id grant upload download in
      let '(s, finished) := account_all s used in
      (s, if over || failed then {[handle]} ∪ finished else finished)
  end.

Definition without {A} (finished : gset Z) (flows : list (Z * A)) : gmap Z A :=
  filter (fun kv => fst kv ∉ finished) (list_to_map flows : gmap Z A).

(** Each flow of a user takes its grant out of the map. *)
Definition spend (grants : gmap Z RateGrant.t) (flows : list (Z * PolicyFlow.t)) : gmap Z RateGrant.t :=
  fold_left (fun grants '(handle, flow) =>
    if is_some (PolicyFlow.user_id flow) then base.delete handle grants else grants) flows grants.

Definition move_bytes (s : State.t) (ios : Z -> @PolicyFlow.io E) (dgs : Z -> datagram_io)
  (grants : gmap Z RateGrant.t) : option State.t :=
  let flows := hash_order (map_to_list (State.flows s)) in
  '(polled, used) ← poll_flows ios grants (Options.sniff_bytes (State.options s)) flows;
  let grants := spend grants flows in
  let '(s, finished) := account_all s used in
  let s := State.set_flows s (without finished polled) in
  let '(polled, used) := poll_datagram_flows dgs grants
                           (hash_order (map_to_list (State.datagram_flows s))) in
  let '(s, finished) := account_all s used in
  Some (State.set_datagram_flows s (without finished polled)).

(** ** Sessions *)

Fixpoint poll_sessions (s : State.t) (now utc : Z) (ios : Z -> @SessionChannel.answers E)
  (handles : list Z) : State.t :=
  match handles with
  | [] => s
  | handle :: handles =>
      match State.sessions s !! handle with
      | None => poll_sessions s now utc ios handles
      | Some session =>
          let s := State.set_sessions s (base.delete handle (State.sessions s)) in
          let '(s, session, r) := poll_policy_session s session now utc (ios handle) in
          let s := if is_ok r
                   then State.set_sessions s (<[handle := session]> (State.sessions s)) else s in
          poll_sessions s now utc ios handles
      end
  end.

(** Flows live only as long as their session. *)
Definition retain_flows (s : State.t) : State.t :=
  let live session := bool_decide (is_Some (State.sessions s !! session)) in
  let s' := State.set_flows s
    (filter (fun kv => live (PolicyFlow.session (snd kv)) = true) (State.flows s)) in
  State.set_datagram_flows s'
    (filter (fun kv => live (PolicyDatagramFlow.session (snd kv)) = true)
       (State.datagram_flows s')).

(** The environment of a poll. *)
Record environment := Environment {
  now_nanos : Z;
  now_utc : Z;
  flow_io : Z -> @PolicyFlow.io E;
  datagram_ios : Z -> datagram_io;
  session_io : Z -> @SessionChannel.answers E;
}.

Definition poll_instance (s : State.t) (env : environment) : option (State.t * Status) :=
  if State.maintenance s then Some (s, STATUS_PENDING)
  else
    let now := now_nanos env in
    let s := stop_expired s now (now_utc env) in
    let '(s, grants) := assign_grants s now in
    s ← move_bytes s (flow_io env) (datagram_ios env) grants;
    let s := poll_sessions s now (now_utc env) (session_io env)
               (hash_order (map fst (map_to_list (State.sessions s)))) in
    Some (retain_flows s, STATUS_PENDING).

(** * Stopping *)

(** [shutdown_instance]: [None] for the state once the instance is gone. *)
Definition shutdown_instance (s : State.t) (now : Z) : option State.t * Status :=
  let s := if State.shutting_down s then s
           else State.set_datagram_flows (State.set_flows (State.set_sessions
                  (State.set_shutting_down s true) ∅) ∅) ∅ in
  let '(s, _) := advance_quota s now in
  if negb (bool_decide (State.traffic s = ∅)) then (Some s, STATUS_PENDING)
  else
    let '(w, r) := StorageWorker.poll_shutdown (State.storage s) in
    let s := State.set_storage s w in
    match r with
    | Ok false => (Some s, STATUS_PENDING)
    | Ok true => (None, STATUS_OK)
    | Err _ => (Some s, STATUS_IO)
    end.
End policy.
