(* ===== verification/Scenario.v ===== *)
(** A small concrete world for policy-local, in which the theorems about the
    whole instance are exercised: an in-memory database, codecs that are
    injective by construction, a digest that pads, and a TOML parser that knows
    the documents of the examples.  Nothing here models code of the repository. *)
From Stdlib Require Import Strings.Byte.
From S2P Require Import Prelude Text Net Frame Accounting Admin Config Sniff Service Storage Rules Flow State Traffic Session Control Policy.
#[local] Open Scope Z_scope.

Module World.
Import RecordFacts.
#[export] Instance world_redb : Redb := MemoryRedb.memory.
#[export] Instance world_sha : Sha256 := SequencerFacts.prefix_sha.
#[export] Instance world_user_postcard : Postcard StoredUserRecord.t :=
  RecordFacts.countable_postcard.

#[export] Instance world_credential_countable : Countable CredentialRecord.t :=
  inj_countable' (fun c => (CredentialRecord.digest c, CredentialRecord.user_id c,
      CredentialRecord.revoked c, CredentialRecord.revision c))
    (fun '(d, u, v, n) => CredentialRecord.mk d u v n) ltac:(by intros []).
#[export] Instance world_credential_postcard : Postcard CredentialRecord.t :=
  RecordFacts.countable_postcard.
#[export] Instance world_receipt_countable : Countable Receipt.t :=
  inj_countable' (fun r => (Receipt.seq r, Receipt.request_hash r, Receipt.response r))
    (fun '(n, h, r) => Receipt.mk n h r) ltac:(by intros []).
#[export] Instance world_receipt_postcard : Postcard Receipt.t :=
  RecordFacts.countable_postcard.

(** The order of a [HashMap] here is the order of the list. *)
#[export] Instance world_order : HashOrder.
Proof. by refine {| hash_order _ l := l |}. Defined.

#[export] Instance world_mutation_print : TomlPrint MutationResponse.t :=
  {| toml_to_string r := Some (MutationResponse.status r) |}.
#[export] Instance world_usage_print : TomlPrint UsageResponse.t :=
  {| toml_to_string r := Some (UsageResponse.status r) |}.
#[export] Instance world_sessions_print : TomlPrint SessionsResponse.t :=
  {| toml_to_string r := Some (SessionsResponse.status r) |}.
#[export] Instance world_backup_print : TomlPrint BackupResponse.t :=
  {| toml_to_string r := Some (BackupResponse.status r) |}.
#[export] Instance world_status_print : TomlPrint PolicyStatus.t :=
  {| toml_to_string r := Some (PolicyStatus.status r) |}.

(** ** Users *)

Definition alice : str := #"00112233445566778899aabbccddeeff".

(** A user with a quota and at most [flows] flows. *)
Definition user_with (quota : ByteLimit.t) (flows : CountLimit.t) (charged : Z) : UserRecord.t :=
  UserRecord.mk alice
    (UserSpec.mk UserStatus.Enabled Expiration.Unlimited quota RateLimit.Unlimited
      RateLimit.Unlimited RateLimit.Unlimited 65507 CountLimit.Unlimited flows
      WeeklyAccess.Unlimited 1 #"default" #"default") 1 charged 0 0 0.

Definition alice_user : UserRecord.t :=
  user_with (ByteLimit.Limited 100000) (CountLimit.Limited 2) 0.

(** ** Documents *)

Definition rules_document : str := #"rules".
Definition example_rules : Rules.t := Rules.mk Action.Deny [].
#[export] Instance world_rules_toml : Toml Rules.t :=
  {| toml_from_str s := if bool_decide (s = rules_document) then Some example_rules else None |}.

Definition disable_request : bytes := #"disable".
Definition quota_request : bytes := #"quota".
Definition rules_request : bytes := #"replace".
#[export] Instance world_control_toml : Toml ControlRequest.t :=
  {| toml_from_str s :=
       if bool_decide (s = disable_request) then Some (ControlRequest.UserDisable #"cli" 1 alice 1)
       else if bool_decide (s = quota_request) then Some (ControlRequest.QuotaAdd #"cli" 1 alice 500000)
       else if bool_decide (s = rules_request)
       then Some (ControlRequest.RulesReplace #"cli" 1 #"default" RuleApply.New rules_document)
       else None |}.

Definition auth_document : str := #"auth".
Definition secret : str := concat (replicate 32 #"0a").
#[export] Instance world_client_toml : Toml ClientRequest.t :=
  {| toml_from_str s :=
       if bool_decide (s = auth_document) then Some (ClientRequest.Auth secret) else None |}.
#[export] Instance world_channel_toml : Toml ChannelSecurity.t :=
  {| toml_from_str _ := Some (ChannelSecurity.mk PolicyRole.Server true true false None) |}.
#[export] Instance world_server_toml : Toml ServerStatus.t := {| toml_from_str _ := None |}.

Definition options : Options.t :=
  Options.mk #"server" CredentialTransport.Protected 16 4 4096 1000 1000 4096 1000
    UnknownAction.Allow 60000 (StorageOptions.mk #"/var/policy.redb" 65536 1048576 16 4096 10)
    GlobalRate.Unlimited (Rules.mk Action.Allow []) None.
#[export] Instance world_options_toml : Toml Options.t := {| toml_from_str _ := Some options |}.

(** ** States *)

Definition worker (d : gmap str bytes) : StorageWorker.t :=
  StorageWorker.mk None false [] 16 true 0 ∅ (Some (d : database)).

(** The thread serves one command. *)
Definition serve (s : State.t) : State.t :=
  State.set_storage s (StorageWorker.run_step (Ok tt) (Err StorageError.Stopped) (State.storage s)).

Definition session_of (auth : AuthState.t) : PolicySession.t :=
  PolicySession.mk (SessionChannel.mk (mkDecoder [] None 4096) 0 [] None None 0 4096 false)
    PolicyRole.Server auth false 0 (Some #"digest") [].

(** A server instance with one authenticated session of [alice]. *)
Definition server (user : UserRecord.t) : State.t :=
  State.mk false false None ∅ 0 options (worker ∅)
    (AdminState.mk (AdminSequencer.mk 4 ∅) {[alice := user]} {[alice]} ∅ ∅ ∅) None None
    {[1 := session_of (AuthState.Authenticated alice)]} ∅ ∅ ∅ ∅.

(** A poll at [now] in which the streams answer nothing, except that session 1
    receives [input]. *)
Definition quiet_io : @PolicyFlow.io unit :=
  PolicyFlow.Env (fun _ => 0) (fun _ => Pending) Pending Pending Pending.
Definition environment_of (now : Z) (input : bytes) : environment (E := unit) :=
  Environment now 1000 (fun _ => quiet_io)
    (fun _ => DatagramIo Pending Pending (DatagramSniff.mk None))
    (fun _ => SessionChannel.Answers (if bool_decide (input = []) then Pending else Ready (Ok input))
       Pending).
Definition poll_with (now : Z) (input : bytes) (s : State.t) : State.t :=
  match poll_instance s (environment_of now input) with Some (s, _) => s | None => s end.

Lemma poll_with_Some now input s :
  is_some (poll_instance s (environment_of now input)) = true ->
  exists status, poll_instance s (environment_of now input) = Some (poll_with now input s, status).
Proof. unfold poll_with. destruct (poll_instance _ _) as [[s' status]|]; [by exists status|done]. Qed.

Definition control (s : State.t) (request : bytes) : State.t * result Status bytes :=
  control_instance s None 1000 request.
End World.
