(* ===== verification/Shutdown.v ===== *)
(** The end of the storage worker of policy-local
    (modules/policy-local/src/storage.rs, [Drop for StorageWorker]): the handle asks
    the thread to stop, waits for its answer and joins it.  The calls block, so the
    thread runs inside them here.

    Dropping the handle ends the thread, and what was accepted before has been
    served in order, unless a backup could not open the database again
    ([destroy_serves]; [failed_reopen_drops] shows that exception). *)
From S2P Require Import Prelude Text Admin Storage State Scenario.
#[local] Open Scope Z_scope.
Import StorageWorker.

Section drop.
Context `{Redb}.

(** What the copy and the reopening answer to a backup of a database, for the
    command with that reply channel. *)
Context (outcome : database -> nat -> result StorageError.t unit * result StorageError.t database).

(** The thread takes one command. *)
Definition thread_step (w : t) : t :=
  match queue w, db w with
  | command :: _, Some d =>
      let '(copied, reopened) := outcome d (Command.response command) in run_step copied reopened w
  | _, _ => w
  end.

(** The thread runs until [wait] is over. *)
Fixpoint thread_runs (wait : t -> bool) (fuel : nat) (w : t) : t :=
  match fuel with
  | O => w
  | S fuel => if wait w then thread_runs wait fuel (thread_step w) else w
  end.

(** [SyncSender::send]: waits while the queue is full; [false] when the receiver is
    gone. *)
Definition full (w : t) : bool := running w && (capacity w <=? len (queue w)).
Definition send_blocking (w : t) (command : Command.t) : t * bool :=
  let w := thread_runs full (length (queue w)) w in
  if running w then (set_queue w (queue w ++ [command]), true) else (w, false).

(** [Receiver::recv] and [JoinHandle::join]. *)
Definition recv (w : t) (response : nat) : t :=
  let w := thread_runs (fun w => running w && negb (is_some (replies w !! response))) (length (queue w)) w in
  (try_recv w response).1.
Definition join (w : t) : t := set_joined (thread_runs running (length (queue w)) w).

Definition drop (w : t) : t :=
  let w :=
    match stopping w with
    | Some _ => w
    | None =>
        let '(w, response) := fresh w in
        let '(w, sent) := send_blocking w (Command.Stop response) in
        if (sent : bool) then set_stopping w (Some response) else w
    end in
  let w := match stopping w with Some response => recv (set_stopping w None) response | None => w end in
  if joined w then w else join w.

(** [destroy_instance] of lib.rs: the state of the instance is dropped, and its
    storage with it. *)
Definition destroy_instance (states : gmap Z State.t) (instance : Z)
  : gmap Z State.t * option StorageWorker.t :=
  (base.delete instance states, drop ∘ State.storage <$> states !! instance).
End drop.

(** * The thread ends *)
Section ends.
Context `{Redb}.
Context (outcome : database -> nat -> result StorageError.t unit * result StorageError.t database).

Definition is_stop (c : Command.t) : bool := match c with Command.Stop _ => true | _ => false end.

(** The thread has its database while it runs, and nobody waits for it after. *)
Definition alive (w : t) : Prop :=
  if running w then is_Some (db w) else queue w = [].
(** The thread will see a command to stop, or has ended. *)
Definition doomed (w : t) : Prop := running w = true -> existsb is_stop (queue w) = true.

(** A step serves one command or ends the thread. *)
Lemma thread_step_shrinks w c rest :
  alive w -> running w = true -> queue w = c :: rest ->
  let w' := thread_step outcome w in
  alive w' /\ (running w' = false \/ running w' = true /\ queue w' = rest /\ is_stop c = false).
Proof.
  unfold alive. intros Ha Hr Hq. rewrite Hr in Ha. destruct Ha as [d Hd]. unfold thread_step. rewrite Hq, Hd.
  destruct (outcome d (Command.response c)) as [copied reopened]. unfold run_step. rewrite Hr, Hq, Hd.
  destruct c as [k n|k v n|k n|ch n|p l n|ds n|n]; simpl; rewrite ?Hr; eauto;
    try (destruct (put_value _ _ _)); try (destruct (delete_value _ _)); try (destruct (apply_values _ _));
    try (destruct reopened); simpl; rewrite ?Hr; eauto 6.
Qed.

Lemma thread_runs_doomed wait fuel w :
  (forall w, wait w = true -> running w = true) -> alive w -> doomed w ->
  alive (thread_runs outcome wait fuel w) /\ doomed (thread_runs outcome wait fuel w).
Proof.
  intros Hwait. revert w. induction fuel as [|fuel IH]; intros w Ha Hd; simpl; [done|]. case_if; [|done].
  assert (running w = true) as Hr by auto. specialize (Hd Hr). destruct (queue w) as [|c rest] eqn:Hq; [done|].
  destruct (thread_step_shrinks w c rest Ha Hr Hq) as [Ha' Hs]. apply IH; [done|]. intros Hr'.
  destruct Hs as [?|(_ & -> & Hc)]; [congruence|]. simpl in Hd. by rewrite Hc in Hd.
Qed.

Lemma thread_runs_alive wait fuel w :
  (forall w, wait w = true -> running w = true) -> alive w -> alive (thread_runs outcome wait fuel w).
Proof.
  intros Hwait. revert w. induction fuel as [|fuel IH]; intros w Ha; simpl; [done|]. case_if; [|done].
  assert (running w = true) as Hr by auto. destruct (queue w) as [|c rest] eqn:Hq.
  - apply IH. unfold thread_step. by rewrite Hq.
  - apply IH. by eapply thread_step_shrinks.
Qed.

Lemma thread_runs_ends fuel w :
  alive w -> doomed w -> (length (queue w) <= fuel)%nat ->
  running (thread_runs outcome running fuel w) = false /\ queue (thread_runs outcome running fuel w) = [].
Proof.
  revert w. induction fuel as [|fuel IH]; intros w Ha Hd Hf; simpl.
  - destruct (queue w) eqn:Hq; [|simpl in Hf; lia]. split; [|done].
    destruct (running w) eqn:Hr; [|done]. specialize (Hd Hr). by rewrite Hq in Hd.
  - destruct (running w) eqn:Hr; [|unfold alive in Ha; by rewrite Hr in Ha].
    pose proof (Hd Hr) as Hs. destruct (queue w) as [|c rest] eqn:Hq; [done|].
    destruct (thread_step_shrinks w c rest Ha Hr Hq) as [Ha' Hx]. apply IH; [done|..].
    + intros Hr'. destruct Hx as [?|(_ & -> & Hc)]; [congruence|]. simpl in Hs. by rewrite Hc in Hs.
    + destruct Hx as [Hx|(_ & -> & _)]; [|simpl in Hf; lia].
      unfold alive in Ha'. rewrite Hx in Ha'. rewrite Ha'. simpl. lia.
Qed.

Lemma existsb_snoc {A} (f : A -> bool) l x : existsb f (l ++ [x]) = existsb f l || f x.
Proof. rewrite existsb_app. simpl. by rewrite orb_false_r. Qed.

(** The thread does not touch the handle. *)
Lemma run_step_handle copied reopened w :
  let w' := run_step copied reopened w in
  joined w' = joined w /\ stopping w' = stopping w /\ capacity w' = capacity w /\ next_response w' = next_response w.
Proof.
  unfold run_step. destruct (running w); [|done]. destruct (queue w) as [|c rest]; [done|].
  destruct (db w) as [d|]; [|done].
  destruct c as [k n|k v n|k n|ch n|p l n|ds n|n]; simpl; eauto;
    try (destruct (put_value _ _ _)); try (destruct (delete_value _ _)); try (destruct (apply_values _ _));
    try (destruct reopened); done.
Qed.
Lemma thread_step_handle w :
  let w' := thread_step outcome w in
  joined w' = joined w /\ stopping w' = stopping w /\ capacity w' = capacity w /\ next_response w' = next_response w.
Proof.
  unfold thread_step. destruct (queue w) as [|c rest]; [done|]. destruct (db w) as [d|]; [|done].
  destruct (outcome d (Command.response c)) as [copied reopened]. apply run_step_handle.
Qed.
Lemma thread_runs_handle wait fuel w :
  let w' := thread_runs outcome wait fuel w in
  joined w' = joined w /\ stopping w' = stopping w /\ capacity w' = capacity w /\ next_response w' = next_response w.
Proof.
  revert w. induction fuel as [|fuel IH]; intros w; simpl; [done|]. case_if; [|done].
  destruct (IH (thread_step outcome w)) as (-> & -> & -> & ->). apply thread_step_handle.
Qed.

(** The request to stop is queued, unless the thread has ended. *)
Lemma send_blocking_doomed w command :
  alive w -> is_stop command = true ->
  let w' := (send_blocking outcome w command).1 in alive w' /\ doomed w'.
Proof.
  intros Ha Hc. unfold send_blocking. set (w1 := thread_runs _ _ _ _).
  assert (alive w1) as Ha1. { apply thread_runs_alive; [|done]. unfold full. intros w' Hw. by apply andb_prop in Hw as []. }
  destruct (running w1) eqn:Hr; simpl.
  - split; [unfold alive in *; simpl; by rewrite Hr in *|]. intros _. simpl. by rewrite existsb_snoc, Hc, orb_true_r.
  - split; [done|]. unfold doomed. congruence.
Qed.

Lemma recv_doomed w n : alive w -> doomed w -> alive (recv outcome w n) /\ doomed (recv outcome w n).
Proof.
  intros Ha Hd. unfold recv. set (w1 := thread_runs _ _ _ _).
  assert (alive w1 /\ doomed w1) as [Ha1 Hd1].
  { apply thread_runs_doomed; [|done..]. intros w' Hw. by apply andb_prop in Hw as []. }
  unfold try_recv. destruct (replies w1 !! n); [done|]. by case_if.
Qed.

Lemma recv_handle w n :
  joined (recv outcome w n) = joined w /\ (running w = false -> running (recv outcome w n) = false).
Proof.
  unfold recv. set (wait := fun w => running w && _). set (w1 := thread_runs _ _ _ _).
  assert (joined w1 = joined w /\ (running w = false -> running w1 = false)) as [Hj Hr].
  { split; [apply thread_runs_handle|]. intros Hr. unfold w1, wait.
    destruct (length (queue w)); simpl; by rewrite ?Hr. }
  unfold try_recv. destruct (replies w1 !! n); [done|]. by case_if.
Qed.

Lemma send_blocking_handle w command :
  joined (send_blocking outcome w command).1 = joined w /\
  stopping (send_blocking outcome w command).1 = stopping w /\
  (running w = false -> send_blocking outcome w command = (w, false)).
Proof.
  unfold send_blocking. split_and!.
  - case_if; simpl; apply thread_runs_handle.
  - case_if; simpl; apply thread_runs_handle.
  - intros Hr. assert (thread_runs outcome full (length (queue w)) w = w) as ->; [|by rewrite Hr].
    unfold full. destruct (length (queue w)); simpl; [done|by rewrite Hr].
Qed.

(** Dropping the handle ends the thread. *)
Lemma drop_ends w :
  alive w -> (joined w = true -> running w = false) -> (is_some (stopping w) = true -> doomed w) ->
  let w' := drop outcome w in running w' = false /\ queue w' = [] /\ joined w' = true.
Proof.
  intros Ha Hj Hs. unfold drop. set (w1 := match stopping w with Some _ => w | None => _ end).
  assert (alive w1 /\ (joined w1 = true -> running w1 = false) /\ doomed w1) as (Ha1 & Hj1 & Hd1).
  { unfold w1. destruct (stopping w); [by split_and!; auto|].
    destruct (send_blocking_doomed (fresh w).1 (Command.Stop (next_response w))) as [Ha2 Hd2]; [done..|].
    destruct (send_blocking_handle (fresh w).1 (Command.Stop (next_response w))) as (Hj2 & _ & Hr2).
    assert (joined (send_blocking outcome (fresh w).1 (Command.Stop (next_response w))).1 = true ->
      running (send_blocking outcome (fresh w).1 (Command.Stop (next_response w))).1 = false) as Hj3.
    { rewrite Hj2. intros Hjw. specialize (Hj Hjw). by rewrite Hr2. }
    simpl in *. destruct (send_blocking _ _ _) as [w2 []]; by split_and!. }
  clearbody w1. set (w2 := match stopping w1 with Some _ => _ | None => w1 end).
  assert (alive w2 /\ (joined w2 = true -> running w2 = false) /\ doomed w2) as (Ha2 & Hj2 & Hd2).
  { unfold w2. destruct (stopping w1) as [n|]; [|by split_and!].
    destruct (recv_doomed (set_stopping w1 None) n) as [? ?]; [done..|]. split_and!; [done| |done].
    destruct (recv_handle (set_stopping w1 None) n) as [-> Hr]. auto. }
  destruct (joined w2) eqn:Ej.
  - specialize (Hj2 eq_refl). unfold alive in Ha2. by rewrite Hj2 in Ha2.
  - unfold join. simpl. destruct (thread_runs_ends (length (queue w2)) w2) as [-> ->]; done.
Qed.
End ends.

(** * The handle of the worker *)

(** The answers after which the thread leaves its loop. *)
Definition ending (c : Command.t) (r : Reply.t) : Prop :=
  match c, r with
  | Command.Stop _, Reply.Stopped => True
  | Command.Backup _ _, Reply.Write (Err _) => True
  | _, _ => False
  end.

(** A request to stop comes last. *)
Definition stops_last (log : list Command.t) : Prop :=
  forall pre n post, log = pre ++ Command.Stop n :: post -> post = [].

Section serves.
Context `{Redb}.
Context (d0 : database).

(** The life of the handle: the requests of its clients, which are not requests to
    stop, the thread, the receipts, and the calls of [poll_shutdown]. *)
Inductive handled : t -> list Command.t -> list (nat * Reply.t) -> Prop :=
| handled_open cache max cap w :
    0 <= cap -> StorageWorker.open d0 cache max cap = Ok w -> handled w [] []
| handled_request w log received command :
    handled w log received -> (forall n, Command.response (command n) = n) ->
    (forall n, is_stop (command n) = false) ->
    handled (request w command).1 (log ++ WorkerFacts.accepted w (WorkerFacts.Request command)) received
| handled_thread w log received copied reopened :
    handled w log received -> WorkerFacts.event_ok w (WorkerFacts.Thread copied reopened) ->
    handled (run_step copied reopened w) log received
| handled_receive w log received n :
    handled w log received ->
    handled (try_recv w n).1 log
      (received ++ match try_recv w n with (_, Ready (Some r)) => [(n, r)] | _ => [] end)
| handled_shutdown w log received :
    handled w log received ->
    handled (poll_shutdown w).1
      (log ++ if is_some (stopping w) then [] else WorkerFacts.accepted w (WorkerFacts.Request Command.Stop))
      received.

(** The commands served before and since, with the answers to the latter waiting,
    and those dropped by a thread that has ended. *)
Record tracked (w : t) (log : list Command.t) (received : list (nat * Reply.t))
    (served new : list (Command.t * Reply.t)) (lost : list Command.t) : Prop := {
  t_inv : WorkerFacts.inv d0 w log received (served ++ new) lost;
  t_end : running w = false -> db w = None /\ exists pre c r, served ++ new = pre ++ [(c, r)] /\ ending c r;
  t_new : forall c r, (c, r) ∈ new -> is_stop c = false -> replies w !! Command.response c = Some r;
}.

(** One iteration of the thread answers the command at the head, and goes on or ends. *)
Lemma run_step_serves copied reopened w d c rest :
  running w = true -> queue w = c :: rest -> db w = Some d ->
  (forall d', reopened = Ok d' -> committed d' = committed d) ->
  exists r,
    (exists d', run_step copied reopened w = answer (set_queue w rest) c (Some d') r /\
       WorkerFacts.serves (committed d) c r (committed d') /\ is_stop c = false) \/
    (run_step copied reopened w = leave (answer (set_queue w rest) c None r) /\
       WorkerFacts.serves (committed d) c r (committed d) /\ ending c r).
Proof.
  intros Hr Hq Hd Hre. unfold run_step. rewrite Hr, Hq, Hd.
  destruct c as [k n|k v n|k n|ch n|p l n|ds n|n]; simpl.
  - eexists. left. eexists. split_and!; [done|apply (WorkerFacts.get_serves d k n)|done].
  - destruct (put_value d k v) as [d' r] eqn:E. eexists. left. eexists. split_and!; [done|by apply put_value_atomic|done].
  - destruct (delete_value d k) as [d' r] eqn:E. eexists. left. eexists. split_and!; [done|by apply delete_value_atomic|done].
  - destruct (apply_values d ch) as [d' r] eqn:E. eexists. left. eexists. split_and!; [done|by apply apply_values_atomic|done].
  - eexists. left. eexists. split_and!; [done|apply (WorkerFacts.scan_serves d p l n)|done].
  - destruct reopened as [d'|e]; eexists; [left; eexists; split_and!; [done|by rewrite (Hre d')|done]|].
    right. split; [done|]. done.
  - eexists. right. split; [done|]. done.
Qed.

(** The reply channels of commands at different places differ. *)
Lemma response_ne w log received served lost c r c' rest :
  WorkerFacts.inv d0 w log received served lost -> (c, r) ∈ served -> queue w = c' :: rest ->
  Command.response c <> Command.response c'.
Proof.
  intros (_ & Hlog & _ & _ & _ & _ & Hnd & _) Hin Hq E.
  rewrite Hlog, Hq, !map_app in Hnd. simpl in Hnd. apply NoDup_app in Hnd as (_ & Hx & _).
  apply (Hx (Command.response c)).
  - apply list_elem_of_fmap. exists c. split; [done|]. apply list_elem_of_fmap. by exists (c, r).
  - apply elem_of_app. right. rewrite E. left.
Qed.

Lemma tracked_step copied reopened w log received served new lost :
  tracked w log received served new lost -> WorkerFacts.event_ok w (WorkerFacts.Thread copied reopened) ->
  exists more lost', tracked (run_step copied reopened w) log received served (new ++ more) lost' /\
    forall n, (running w = true -> Command.Stop n ∈ queue w) ->
      running (run_step copied reopened w) = true -> Command.Stop n ∈ queue (run_step copied reopened w).
Proof.
  intros T Hok. assert (Hsame : run_step copied reopened w = w ->
    exists more lost', tracked (run_step copied reopened w) log received served (new ++ more) lost' /\
      forall n, (running w = true -> Command.Stop n ∈ queue w) ->
        running (run_step copied reopened w) = true -> Command.Stop n ∈ queue (run_step copied reopened w)).
  { intros ->. exists [], lost. by rewrite app_nil_r. }
  destruct (running w) eqn:Hr; [|apply Hsame; unfold run_step; by rewrite Hr].
  destruct (queue w) as [|c rest] eqn:Hq; [apply Hsame; unfold run_step; by rewrite Hr, Hq|].
  destruct T as [Hinv Hend Hnew]. pose proof Hinv as (_ & _ & Hrun & _).
  destruct (Hrun Hr) as [-> [d Hd]].
  assert (forall c' r, (c', r) ∈ new -> Command.response c' <> Command.response c) as Hne.
  { intros c' r Hin. eapply response_ne; [exact Hinv| |exact Hq]. apply elem_of_app. by right. }
  destruct (run_step_serves copied reopened w d c rest Hr Hq Hd) as (r & Hstep).
  { intros d' ->. simpl in Hok. by apply Hok. }
  assert (forall c' r', (c', r') ∈ new ++ [(c, r)] -> is_stop c' = false ->
    <[Command.response c := r]> (replies w) !! Command.response c' = Some r') as Hrep.
  { intros c' r' [Hin|Hin]%elem_of_app Hs.
    - rewrite lookup_insert_ne; [by apply Hnew|]. intros E. symmetry in E. by eapply Hne.
    - apply list_elem_of_singleton in Hin. injection Hin as -> ->. apply lookup_insert_eq. }
  destruct Hstep as [(d' & -> & Hs & Hc)|(-> & Hs & He)]; exists [(c, r)].
  - exists []. split.
    2: { intros n Hn _. specialize (Hn eq_refl). apply elem_of_cons in Hn as [<-|Hn]; [done|exact Hn]. }
    split; [|simpl; congruence|done]. rewrite app_assoc.
    by apply (WorkerFacts.answer_inv d0 w log received (served ++ new) c rest r d _ Hinv Hr Hq Hd Hs).
  - exists rest. split; [|done]. split; [| |done].
    + rewrite app_assoc.
      by apply (WorkerFacts.answer_inv d0 w log received (served ++ new) c rest r d _ Hinv Hr Hq Hd Hs).
    + intros _. split; [done|]. exists (served ++ new), c, r. by rewrite <- app_assoc.
Qed.

(** A receipt removes the answer it takes. *)
Lemma tracked_receive n w log received served new lost :
  tracked w log received served new lost ->
  (forall c r, (c, r) ∈ new -> is_stop c = false -> Command.response c <> n) ->
  tracked (try_recv w n).1 log
    (received ++ match try_recv w n with (_, Ready (Some r)) => [(n, r)] | _ => [] end) served new lost.
Proof.
  intros [Hinv Hend Hnew] Hne. split; [by apply WorkerFacts.receive_inv|..]; unfold try_recv;
    (destruct (replies w !! n) eqn:En; [|by case_if]); [done|]. simpl. intros c r Hin Hs.
  rewrite lookup_delete_ne; [by apply Hnew|]. intros E. symmetry in E. by eapply Hne.
Qed.

Lemma tracked_enqueue w log received served new lost command :
  tracked w log received served new lost -> running w = true ->
  Forall (fun c => Command.response c < Command.response command)%nat log ->
  (Command.response command < next_response w)%nat -> len (queue w) < capacity w ->
  tracked (set_queue w (queue w ++ [command])) (log ++ [command]) received served new lost.
Proof.
  intros [(Hh & Hlog & Hrun & Hstop & Hrep & Hrec & Hnd & Hlt & Hcap) Hend Hnew] Hr Hl Hn Hc.
  split; simpl; [|congruence|done]. split_and!; simpl; try done.
  - by rewrite Hlog, <- !app_assoc.
  - congruence.
  - rewrite map_app. apply NoDup_app. split_and!; [done| |apply NoDup_singleton].
    intros n (c & -> & Hin)%list_elem_of_fmap E%list_elem_of_singleton. rewrite Forall_forall in Hl.
    specialize (Hl c Hin). lia.
  - apply Forall_app. split; [done|]. by apply Forall_singleton.
  - rewrite len_snoc. lia.
Qed.

(** ** The life of the handle *)

(** What holds of a handle: a request to stop is the last command; while the
    thread runs it waits in the queue and the handle knows of it. *)
Record life (w : t) (log : list Command.t) (received : list (nat * Reply.t))
    (served : list (Command.t * Reply.t)) (lost : list Command.t) : Prop := {
  l_tracked : tracked w log received served [] lost;
  l_stopping : forall n, stopping w = Some n ->
    Command.Stop n ∈ log /\ (running w = true -> Command.Stop n ∈ queue w);
  l_last : stops_last log;
  l_known : forall n, Command.Stop n ∈ log -> running w = true -> is_some (stopping w) = true;
  l_joined : joined w = true -> running w = false;
  l_capacity : 0 < capacity w;
}.

Lemma stops_last_snoc log c : (forall n, Command.Stop n ∉ log) -> stops_last (log ++ [c]).
Proof.
  intros Hno pre n post E. destruct post as [|x post _] using rev_ind; [done|].
  exfalso. rewrite app_comm_cons, app_assoc in E. apply app_inj_tail in E as [E _].
  apply (Hno n). rewrite E. apply elem_of_app. right. left.
Qed.

Lemma life_fresh w log received served lost :
  life w log received served lost -> life (fresh w).1 log received served lost.
Proof.
  intros [[Hinv Hend _] Hst Hl Hk Hj Hc]. split; try done. split; [|done|by intros ? ? ?%elem_of_nil].
  destruct Hinv as (? & ? & ? & ? & ? & ? & ? & Hlt & ?). split_and!; try done.
  eapply Forall_impl; [exact Hlt|]. simpl. lia.
Qed.

(** A request of a client. *)
Lemma life_request w log received served lost command :
  life w log received served lost -> (forall n, Command.response (command n) = n) ->
  (forall n, is_stop (command n) = false) ->
  life (request w command).1 (log ++ WorkerFacts.accepted w (WorkerFacts.Request command)) received served lost.
Proof.
  intros L Hc Hs. pose proof (life_fresh _ _ _ _ _ L) as Lf.
  assert (life (fresh w).1 (log ++ []) received served lost) as Lr by by rewrite app_nil_r.
  unfold WorkerFacts.accepted, request. simpl. unfold send. simpl.
  destruct (is_some (stopping w)) eqn:Est; [done|]. destruct (negb (running w)) eqn:Hr; [done|].
  apply negb_false_iff in Hr. case_if; [done|]. simpl.
  assert (forall n, Command.Stop n ∉ log) as Hno.
  { intros n Hn. pose proof (l_known _ _ _ _ _ L n Hn Hr) as Hx. congruence. }
  destruct Lf as [T Hst Hl Hk Hj Hcap]. split; try done.
  - apply (tracked_enqueue (fresh w).1); simpl; [done|done| |rewrite Hc; lia|lia].
    destruct L as [[(_ & _ & _ & _ & _ & _ & _ & Hlt & _) _ _] _ _ _ _ _]. by rewrite Hc.
  - simpl. intros n Hn. by rewrite Hn in Est.
  - by apply stops_last_snoc.
  - intros n [Hn|Hn]%elem_of_app; [by destruct (Hno n)|]. apply list_elem_of_singleton in Hn.
    specialize (Hs (next_response w)). by rewrite <- Hn in Hs.
Qed.

Lemma life_start w log received served lost :
  life w log received served lost ->
  life (start_shutdown w).1
    (log ++ if is_some (stopping w) then [] else WorkerFacts.accepted w (WorkerFacts.Request Command.Stop))
    received served lost.
Proof.
  intros L. pose proof (life_fresh _ _ _ _ _ L) as Lf. unfold start_shutdown.
  destruct (stopping w) eqn:Est; simpl; [by rewrite app_nil_r|].
  assert (life (fresh w).1 (log ++ []) received served lost) as Lr by by rewrite app_nil_r.
  unfold WorkerFacts.accepted, request. simpl. unfold send. simpl.
  destruct (is_some (stopping w)) eqn:Est'; [by rewrite Est in Est'|]. destruct (negb (running w)) eqn:Hr; [done|].
  apply negb_false_iff in Hr. case_if; [done|]. simpl.
  assert (forall n, Command.Stop n ∉ log) as Hno.
  { intros n Hn. pose proof (l_known _ _ _ _ _ L n Hn Hr) as Hx. by rewrite Est in Hx. }
  destruct Lf as [T Hst Hl Hk Hj Hcap]. split; try done.
  - assert (tracked (set_queue (fresh w).1 (queue w ++ [Command.Stop (next_response w)]))
      (log ++ [Command.Stop (next_response w)]) received served [] lost) as [? ? ?]; [|by split].
    apply (tracked_enqueue (fresh w).1); simpl; [done|done| |lia|lia].
    by destruct L as [[(_ & _ & _ & _ & _ & _ & _ & Hlt & _) _ _] _ _ _ _ _].
  - simpl. intros n [= <-]. split; [|intros _]; apply elem_of_app; right; left.
  - by apply stops_last_snoc.
Qed.

(** Reply channels are not shared: the answer on a channel is that of its command. *)
Lemma served_unique w log received served lost c r c' :
  WorkerFacts.inv d0 w log received served lost -> (c, r) ∈ served -> c' ∈ log ->
  Command.response c = Command.response c' -> c = c'.
Proof.
  intros (_ & Hlog & _ & _ & _ & _ & Hnd & _) Hin Hc' E.
  assert (c ∈ log) as Hc.
  { rewrite Hlog. apply elem_of_app. left. apply list_elem_of_fmap. by exists (c, r). }
  apply list_elem_of_lookup in Hc as [i Hi]. apply list_elem_of_lookup in Hc' as [j Hj].
  assert (i = j) as ->.
  { eapply NoDup_lookup; [exact Hnd| |]; rewrite list_lookup_fmap; [by rewrite Hi|]. by rewrite Hj, E. }
  congruence.
Qed.

(** While the thread runs, a request to stop has no answer. *)
Lemma stop_unanswered w log received served lost n r :
  life w log received served lost -> stopping w = Some n -> replies w !! n = Some r -> running w = false.
Proof.
  intros [[Hinv _ _] Hst _ _ _ _] Hs Hrep. destruct (running w) eqn:Hr; [|done]. exfalso.
  destruct (Hst n Hs) as [Hlog Hq]. specialize (Hq eq_refl).
  pose proof Hinv as (_ & El & _ & _ & Hreps & _ & Hnd & _). destruct (Hreps n r Hrep) as (c & Hin & Hc).
  rewrite El, map_app in Hnd. apply NoDup_app in Hnd as (_ & Hx & _). apply (Hx n).
  - apply list_elem_of_fmap. exists c. split; [done|]. apply list_elem_of_fmap. by exists (c, r).
  - apply list_elem_of_fmap. exists (Command.Stop n). split; [done|]. apply elem_of_app. by right.
Qed.

Lemma life_receive n w log received served lost :
  life w log received served lost ->
  life (try_recv w n).1 log
    (received ++ match try_recv w n with (_, Ready (Some r)) => [(n, r)] | _ => [] end) served lost.
Proof.
  intros [T Hst Hl Hk Hj Hcap]. split; try done.
  - apply tracked_receive; [done|]. by intros ? ? ?%elem_of_nil.
  - unfold try_recv. destruct (replies w !! n); [done|by case_if].
  - unfold try_recv. destruct (replies w !! n); [done|by case_if].
  - unfold try_recv. destruct (replies w !! n); [done|by case_if].
  - unfold try_recv. destruct (replies w !! n); [done|by case_if].
Qed.

Lemma tracked_forget more w log received served new lost :
  tracked w log (received ++ more) served new lost -> tracked w log received served new lost.
Proof.
  intros [(? & ? & ? & ? & ? & Hrec & ?) Hend Hnew]. split; [|done..]. split_and!; try tauto; try done.
  intros n r Hin. apply Hrec, elem_of_app. by left.
Qed.

Lemma life_poll w log received served lost :
  life w log received served lost ->
  life (poll_shutdown w).1
    (log ++ if is_some (stopping w) then [] else WorkerFacts.accepted w (WorkerFacts.Request Command.Stop))
    received served lost.
Proof.
  intros L%life_start. unfold poll_shutdown.
  destruct (start_shutdown w) as [w1 [[]|e]]; [|done]. simpl in L.
  set (log1 := log ++ _) in *. clearbody log1. destruct (stopping w1) as [n|] eqn:Es; [|done].
  pose proof (life_receive n _ _ _ _ _ L) as Lr. pose proof (fun r => stop_unanswered _ _ _ _ _ n r L Es) as Hu.
  unfold try_recv in *. destruct (replies w1 !! n) as [r|] eqn:En.
  - specialize (Hu r eq_refl). destruct Lr as [T%tracked_forget Hst Hl Hk Hj Hcap]. simpl in *. split; try done.
    + destruct T as [? ? ?]. by split.
    + simpl. congruence.
  - destruct (existsb _ _); by rewrite app_nil_r in Lr.
Qed.

Lemma life_thread copied reopened w log received served lost :
  life w log received served lost -> WorkerFacts.event_ok w (WorkerFacts.Thread copied reopened) ->
  exists served' lost', life (run_step copied reopened w) log received served' lost'.
Proof.
  intros [T Hst Hl Hk Hj Hcap] Hok.
  destruct (tracked_step _ _ _ _ _ _ _ _ T Hok) as (more & lost' & [Hinv Hend Hnew] & Hq).
  destruct (run_step_handle copied reopened w) as (Ej & Es & Ec & _).
  assert (running w = false -> running (run_step copied reopened w) = false) as Hr.
  { intros Hr. unfold run_step. by rewrite Hr. }
  exists (served ++ more), lost'. split; rewrite ?Ej, ?Es, ?Ec; auto.
  - split; [by rewrite app_nil_r|by rewrite app_nil_r|by intros ? ? ?%elem_of_nil].
  - intros n Hn. destruct (Hst n Hn). auto.
  - intros n Hn Hr'. destruct (running w) eqn:E; [by eapply Hk|]. by rewrite Hr in Hr'.
Qed.

Lemma handled_life w log received :
  handled w log received -> exists served lost, life w log received served lost.
Proof.
  induction 1 as [cache max cap w Hcap Ho|w log received command _ (served & lost & IH) Hc Hs
    |w log received copied reopened _ (served & lost & IH) Hok|w log received n _ (served & lost & IH)
    |w log received _ (served & lost & IH)].
  - exists [], []. revert Ho. unfold open. case_if; [done|]. intros [= <-]. bools.
    split; simpl; try done; [|by intros [] ?|by intros ? ?%elem_of_nil|lia].
    split; simpl; [|done|by intros ? ? ?%elem_of_nil]. split_and!; simpl; try done.
    + exists (committed d0). split; [constructor|]. by intros d [= <-].
    + intros n r ?%elem_of_nil. done.
    + apply NoDup_nil_2.
  - eexists _, _. by apply life_request.
  - by eapply life_thread.
  - eexists _, _. by apply life_receive.
  - eexists _, _. by apply life_poll.
Qed.

(** ** Dropping it *)
Context (outcome : database -> nat -> result StorageError.t unit * result StorageError.t database).
(** When the database is opened again after a backup, its table is the same. *)
Hypothesis reopens : forall d n copied d', outcome d n = (copied, Ok d') -> committed d' = committed d.

Lemma thread_runs_tracked wait fuel w log received served new lost :
  tracked w log received served new lost ->
  exists more lost', tracked (thread_runs outcome wait fuel w) log received served (new ++ more) lost'.
Proof.
  revert w new lost. induction fuel as [|fuel IH]; intros w new lost T; simpl.
  { exists [], lost. by rewrite app_nil_r. }
  case_if; [|exists [], lost; by rewrite app_nil_r].
  assert (exists more lost', tracked (thread_step outcome w) log received served (new ++ more) lost')
    as (more & lost' & T').
  { assert (exists more lost', tracked w log received served (new ++ more) lost') as Hsame
      by (exists [], lost; by rewrite app_nil_r).
    unfold thread_step. destruct (queue w) as [|c rest]; [done|]. destruct (db w) as [d|] eqn:Hd; [|done].
    destruct (outcome d (Command.response c)) as [copied reopened] eqn:Eo.
    destruct (tracked_step copied reopened w log received served new lost T) as (more & lost' & T' & _); [|eauto].
    simpl. destruct reopened as [d'|]; [|done]. rewrite Hd. intros d1 [= <-]. by eapply reopens. }
  destruct (IH _ _ _ T') as (more' & lost'' & T''). exists (more ++ more'), lost''. by rewrite app_assoc.
Qed.

Lemma full_over fuel w :
  alive w -> 0 < capacity w -> (length (queue w) <= fuel)%nat ->
  full (thread_runs outcome full fuel w) = false.
Proof.
  revert w. induction fuel as [|fuel IH]; intros w Ha Hc Hf; simpl.
  - destruct (queue w) eqn:Hq; [|simpl in Hf; lia]. unfold full. rewrite Hq. change (len []) with 0.
    destruct (running w); simpl; lia.
  - destruct (full w) eqn:Ef; [|done]. unfold full in Ef. apply andb_prop in Ef as [Hr Hl].
    destruct (queue w) as [|c rest] eqn:Hq; [change (len []) with 0 in Hl; lia|].
    destruct (thread_step_shrinks outcome w c rest Ha Hr Hq) as [Ha' Hx].
    destruct (thread_step_handle outcome w) as (_ & _ & Ec & _). apply IH; [done|lia|].
    destruct Hx as [Hx|(_ & -> & _)]; [|simpl in Hf; lia].
    unfold alive in Ha'. rewrite Hx in Ha'. rewrite Ha'. simpl. lia.
Qed.

Lemma inv_alive w log received served lost : WorkerFacts.inv d0 w log received served lost -> alive w.
Proof. intros (_ & _ & Hrun & Hstop & _). unfold alive. destruct (running w); naive_solver. Qed.

(** The request to stop is taken, unless the thread has ended. *)
Lemma send_blocking_tracked w log received served new lost k :
  tracked w log received served new lost -> 0 < capacity w ->
  Forall (fun c => Command.response c < k)%nat log -> (k < next_response w)%nat ->
  let '(w', sent) := send_blocking outcome w (Command.Stop k) in
  exists more lost',
    tracked w' (log ++ if (sent : bool) then [Command.Stop k] else []) received served (new ++ more) lost'.
Proof.
  intros T Hcap Hl Hk. unfold send_blocking.
  pose proof (inv_alive _ _ _ _ _ (t_inv _ _ _ _ _ _ T)) as Ha.
  pose proof (full_over (length (queue w)) w Ha Hcap ltac:(done)) as Hfull.
  destruct (thread_runs_tracked full (length (queue w)) _ _ _ _ _ _ T) as (more & lost' & T').
  destruct (thread_runs_handle outcome full (length (queue w)) w) as (_ & _ & Ec & En).
  set (w1 := thread_runs _ _ _ _) in *. destruct (running w1) eqn:Hr; exists more, lost'; [|by rewrite app_nil_r].
  apply tracked_enqueue; [done|done|done|simpl; lia|]. unfold full in Hfull. rewrite Hr in Hfull. simpl in Hfull. lia.
Qed.

Lemma recv_tracked n w log received served new lost :
  tracked w log received served new lost -> Command.Stop n ∈ log ->
  exists more lost', tracked (recv outcome w n) log received served (new ++ more) lost'.
Proof.
  intros T Hn. unfold recv. set (wait := fun w => running w && _).
  destruct (thread_runs_tracked wait (length (queue w)) _ _ _ _ _ _ T) as (more & lost' & T').
  exists more, lost'. eapply tracked_forget, tracked_receive; [exact T'|]. intros c r Hin Hs E.
  assert (c = Command.Stop n) as ->; [|done].
  eapply (served_unique _ _ _ _ _ c r); [apply (t_inv _ _ _ _ _ _ T')| |done|done]. apply elem_of_app. by right.
Qed.

(** Everything up to the request to stop is served, unless a backup could not open
    the database again. *)
Lemma drop_tracked w log received served lost :
  life w log received served lost ->
  exists own new lost',
    tracked (drop outcome w) (log ++ own) received served new lost' /\ stops_last (log ++ own) /\
    (own = [] \/ own = [Command.Stop (next_response w)]).
Proof.
  intros L. unfold drop. set (w1 := match stopping w with Some _ => w | None => _ end).
  assert (exists own new lost',
    (tracked w1 (log ++ own) received served new lost' /\ stops_last (log ++ own) /\
     (own = [] \/ own = [Command.Stop (next_response w)])) /\
    forall n, stopping w1 = Some n -> Command.Stop n ∈ log ++ own) as (own & new & lost1 & (T1 & Hl1 & Ho) & Hst1).
  { unfold w1. destruct (stopping w) as [n|] eqn:Es.
    { exists [], [], lost. rewrite app_nil_r. destruct L as [T Hst Hl Hk Hj Hcap].
      split_and!; [done|done|by left|]. intros n' [= <-]%(eq_trans (eq_sym Es)). by apply Hst. }
    pose proof (life_fresh _ _ _ _ _ L) as [T Hst Hl Hk Hj Hcap].
    pose proof (send_blocking_tracked (fresh w).1 log received served [] lost (next_response w) T Hcap) as Hsend.
    pose proof (send_blocking_handle outcome (fresh w).1 (Command.Stop (next_response w))) as (_ & Hst2 & Hgone).
    simpl in *. destruct (send_blocking _ _ _) as [w2 sent].
    destruct Hsend as (more & lost' & T2); [by apply L|lia|].
    destruct sent; [exists [Command.Stop (next_response w)], more, lost'|exists [], more, lost'].
    - split_and!; [by destruct T2; split| |by right|].
      + apply stops_last_snoc. intros n Hn. destruct (running w) eqn:Hr; [|by specialize (Hgone eq_refl)].
        specialize (Hk n Hn eq_refl). by rewrite Es in Hk.
      + simpl. intros n [= <-]. apply elem_of_app. right. left.
    - rewrite app_nil_r in *. split_and!; [done|done|by left|]. simpl in Hst2. congruence. }
  clearbody w1. set (w2 := match stopping w1 with Some _ => _ | None => w1 end).
  assert (exists more lost', tracked w2 (log ++ own) received served (new ++ more) lost') as (more & lost2 & T2).
  { unfold w2. destruct (stopping w1) as [n|]; [|exists [], lost1; by rewrite app_nil_r].
    apply (recv_tracked n _ _ _ _ _ lost1); [by destruct T1; split|by apply Hst1]. }
  exists own. destruct (joined w2); [by exists (new ++ more), lost2|].
  destruct (thread_runs_tracked running (length (queue w2)) _ _ _ _ _ _ T2) as (more' & lost3 & T3).
  exists ((new ++ more) ++ more'), lost3. split; [by destruct T3; split|done].
Qed.
End serves.

(** Dropping a handle ends its thread, and what it had accepted is served. *)
Lemma drop_serves `{Redb} outcome d0 w log received :
  (forall d n copied d', outcome d n = (copied, Ok d') -> committed d' = committed d) ->
  handled d0 w log received ->
  let w' := drop outcome w in
  (running w' = false /\ queue w' = [] /\ db w' = None /\ joined w' = true) /\
  exists own served new lost m,
    (own = [] \/ own = [Command.Stop (next_response w)]) /\
    log ++ own = map fst served ++ map fst new ++ lost /\
    (running w = true -> log = map fst served ++ queue w) /\
    WorkerFacts.history (committed d0) (served ++ new) m /\
    (forall c r, (c, r) ∈ new -> is_stop c = false -> replies w' !! Command.response c = Some r) /\
    (lost = [] \/ exists path n e, last (served ++ new) = Some (Command.Backup path n, Reply.Write (Err e))).
Proof.
  intros Hout (served & lost & L)%handled_life w'.
  destruct (drop_tracked d0 outcome Hout _ _ _ _ _ L) as (own & new & lost' & [Hinv Hend Hnew] & Hl & Ho).
  fold w' in Hinv, Hend, Hnew.
  destruct (drop_ends outcome w) as (Hr & Hq & Hj).
  { eapply inv_alive, (l_tracked _ _ _ _ _ _ L). }
  { apply (l_joined _ _ _ _ _ _ L). }
  { intros Hs Hr. destruct (stopping w) as [n|] eqn:Es; [|done].
    destruct (l_stopping _ _ _ _ _ _ L n Es) as [_ Hin]. specialize (Hin Hr).
    apply existsb_exists. exists (Command.Stop n). split; [by apply list_elem_of_In|done]. }
  fold w' in Hr, Hq, Hj. destruct (Hend Hr) as [Hdb (pre & c & r & Hlast & He)]. split; [done|].
  destruct Hinv as ((m & Hh & _) & Hlog & _). rewrite Hq, app_nil_r in Hlog.
  exists own, served, new, lost', m. split_and!; [done| | |done|done|].
  - by rewrite Hlog, map_app, <- app_assoc.
  - intros Hrw. destruct (l_tracked _ _ _ _ _ _ L) as [(_ & El & Hrun & _) _ _].
    destruct (Hrun Hrw) as [-> _]. by rewrite app_nil_r in El.
  - rewrite Hlast. rewrite last_snoc. destruct c as [| | | | |path n|n], r as [|[]| |]; simpl in He; try done.
    + right. eauto.
    + left. apply (Hl (map fst pre) n lost'). rewrite Hlog, Hlast, map_app. by rewrite <- app_assoc.
Qed.


(** * An example *)

(** A full queue: the request to stop has to wait. *)
Definition idle : StorageWorker.t (H := MemoryRedb.memory) :=
  mk (H := MemoryRedb.memory) None false [] 3 true 0 ∅ (Some (∅ : @database MemoryRedb.memory)).

Definition waiting : StorageWorker.t (H := MemoryRedb.memory) :=
  fold_left (fun w command => (request w command).1)
    [Command.Put #"user/1" #"v"; Command.Backup #"/srv/b"; Command.Get #"user/1"] idle.

Lemma waiting_handled :
  handled (H := MemoryRedb.memory) (∅ : gmap str bytes) waiting
    [Command.Put #"user/1" #"v" 0; Command.Backup #"/srv/b" 1; Command.Get #"user/1" 2] [].
Proof.
  apply (handled_request (H := MemoryRedb.memory) _
    (fold_left (fun w command => (request w command).1) [Command.Put #"user/1" #"v"; Command.Backup #"/srv/b"] idle)
    [Command.Put #"user/1" #"v" 0; Command.Backup #"/srv/b" 1] [] (Command.Get #"user/1")); [|done..].
  apply (handled_request (H := MemoryRedb.memory) _ (request idle (Command.Put #"user/1" #"v")).1
    [Command.Put #"user/1" #"v" 0] [] (Command.Backup #"/srv/b")); [|done..].
  apply (handled_request (H := MemoryRedb.memory) _ idle [] [] (Command.Put #"user/1" #"v")); [|done..].
  by apply (handled_open (H := MemoryRedb.memory) _ 1 1 3).
Qed.

(** The backup fails, the database is opened again. *)
Definition failing_backup (d : @database MemoryRedb.memory) (n : nat) :
    result StorageError.t unit * result StorageError.t (@database MemoryRedb.memory) :=
  (Err StorageError.Limit, Ok d).

Example waiting_dropped :
  let w := drop failing_backup waiting in
  (replies w !! 1%nat, replies w !! 2%nat) =
  (Some (Reply.Write (Err StorageError.Limit)), Some (Reply.Read (Ok (Some #"v")))).
Proof. vm_compute. reflexivity. Qed.

(** The instance that owns it. *)
Definition instances : gmap Z (State.t (H := MemoryRedb.memory)) :=
  {[5 := State.set_storage (World.server World.alice_user) waiting]}.

(** The database cannot be opened again after the backup: the read that was accepted
    behind it gets no answer. *)
Definition losing_backup (d : @database MemoryRedb.memory) (n : nat) :
    result StorageError.t unit * result StorageError.t (@database MemoryRedb.memory) :=
  (Ok tt, Err StorageError.Limit).

Theorem failed_reopen_drops :
  let w := drop losing_backup waiting in
  (replies w !! 1%nat, replies w !! 2%nat) = (Some (Reply.Write (Err StorageError.Limit)), None).
Proof. vm_compute. reflexivity. Qed.

