(* ===== verification/ControlFacts.v ===== *)
(** Properties of the administrative control (Control.v): what a committed
    mutation removes, and that nothing changes before the commit is durable. *)
From Stdlib Require Import Strings.Byte.
From S2P Require Import Prelude Text Net Frame Accounting Admin Config Sniff Service Storage Rules Flow State Traffic Session Control Policy Scenario.
#[local] Open Scope Z_scope.

Section facts.
Context `{HR : Redb, HS : Sha256, HO : HashOrder, HP1 : Postcard StoredUserRecord.t,
  HP2 : Postcard CredentialRecord.t, HP3 : Postcard Receipt.t, HT1 : Toml ControlRequest.t,
  HT2 : Toml Rules.t, HX1 : TomlPrint MutationResponse.t, HX2 : TomlPrint UsageResponse.t,
  HX3 : TomlPrint SessionsResponse.t, HX4 : TomlPrint BackupResponse.t}.

(** * Stopping users and credentials *)

(** Nothing of a user is left running. *)
Definition user_gone (s : State.t) (id : str) : Prop :=
  (forall h f, State.flows s !! h = Some f -> PolicyFlow.user_id f <> Some id) /\
  (forall h f, State.datagram_flows s !! h = Some f -> PolicyDatagramFlow.user_id f <> Some id) /\
  (forall h p, State.sessions s !! h = Some p ->
     PolicySession.auth p <> AuthState.Authenticated id) /\
  State.traffic s !! id = None /\ State.flow_cursor s !! id = None /\
  State.user_deficit s !! id = None.

(** Nothing that was opened with a credential is left running. *)
Definition credential_gone (s : State.t) (digest : str) : Prop :=
  (forall h f, State.flows s !! h = Some f -> PolicyFlow.credential_digest f <> Some digest) /\
  (forall h f, State.datagram_flows s !! h = Some f ->
     PolicyDatagramFlow.credential_digest f <> Some digest) /\
  (forall h p, State.sessions s !! h = Some p -> PolicySession.credential_digest p <> Some digest).

Lemma in_set_false X o id : in_set X o = false -> id ∈ X -> o <> Some id.
Proof. intros Hf Hin ->. simpl in Hf. by rewrite bool_decide_eq_true_2 in Hf. Qed.

Lemma stop_users_gone users s id : id ∈ users -> user_gone (stop_users users s) id.
Proof.
  intros Hin. unfold stop_users. rewrite bool_decide_eq_false_2 by set_solver.
  split_and!; simpl.
  - intros h f [_ Hf]%map_lookup_filter_Some. by eapply in_set_false.
  - intros h f [_ Hf]%map_lookup_filter_Some. by eapply in_set_false.
  - intros h p [_ Hp]%map_lookup_filter_Some Ha. simpl in Hp. unfold session_of_users in Hp.
    rewrite Ha in Hp. by rewrite bool_decide_eq_true_2 in Hp.
  - apply map_lookup_filter_None. right. naive_solver.
  - apply map_lookup_filter_None. right. naive_solver.
  - apply map_lookup_filter_None. right. naive_solver.
Qed.

Lemma revoke_keeps_gone digests s id : user_gone s id -> user_gone (revoke_credentials digests s) id.
Proof.
  unfold revoke_credentials. case_bool_decide; [done|].
  intros (Hf & Hd & Hs & Ht & Hc & Hu). split_and!; simpl; try done.
  - intros h f [Hl _]%map_lookup_filter_Some. eauto.
  - intros h f [Hl _]%map_lookup_filter_Some. eauto.
  - intros h p [Hl _]%map_lookup_filter_Some. eauto.
Qed.

Lemma revoke_credentials_gone digests s d :
  d ∈ digests -> credential_gone (revoke_credentials digests s) d.
Proof.
  intros Hin. unfold revoke_credentials. rewrite bool_decide_eq_false_2 by set_solver.
  split_and!; simpl.
  - intros h f [_ Hf]%map_lookup_filter_Some. by eapply in_set_false.
  - intros h f [_ Hf]%map_lookup_filter_Some. by eapply in_set_false.
  - intros h p [_ Hf]%map_lookup_filter_Some. by eapply in_set_false.
Qed.

(** C7: cutting a user off is immediate and complete.  When a committed
    mutation deletes a user, or leaves it disabled, expired, outside its
    schedule or over its quota, none of its flows, datagram flows, sessions,
    accounts or scheduling entries survive; and when it revokes or deletes a
    credential, nothing opened with that credential survives, whoever the user
    is. *)
Theorem mutation_cuts_off s utc m :
  (forall id user, (id, user) ∈ AdminMutation.users m ->
     match user with Some user => user_available_at user utc = false | None => True end ->
     user_gone (apply_admin_mutation s utc m) id) /\
  (forall digest c, (digest, c) ∈ AdminMutation.credentials m ->
     match c with Some c => CredentialRecord.revoked c = true | None => True end ->
     credential_gone (apply_admin_mutation s utc m) digest).
Proof.
  split.
  - intros id user Hin Hu. apply revoke_keeps_gone, stop_users_gone.
    unfold stopped_by. apply elem_of_list_to_set, list_elem_of_omap. exists (id, user).
    split; [done|]. destruct user as [user|]; [by rewrite Hu|done].
  - intros digest c Hin Hc. apply revoke_credentials_gone.
    unfold revoked_by. apply elem_of_list_to_set, list_elem_of_omap. exists (digest, c).
    split; [done|]. destruct c as [c|]; [by rewrite Hc|done].
Qed.

(** * Nothing happens before the commit *)

(** Everything but the caches of records read from the storage, the storage
    queue, and the bookkeeping of the pending request. *)
Definition effects (s : State.t) :=
  (AdminState.sequencer (State.admin s), AdminState.rules (State.admin s), State.sessions s,
   State.flows s, State.datagram_flows s, State.traffic s,
   (State.flow_cursor s, State.user_deficit s, State.options s, State.global_rate s)).

(** The pending write of this request, whose transaction the storage reports as
    durable. *)
Definition durable_write (s : State.t) (request : bytes) (p : PendingWrite.t) : Prop :=
  State.pending_control s = Some (PendingControl.Write p) /\ PendingWrite.request p = request /\
  exists w u, StorageWorker.try_recv (State.storage s) (PendingWrite.reply p) =
    (w, Ready (Some (Reply.Write (Ok u)))).

Lemma try_recv_write_effects s n s' a :
  try_recv_write s n = (s', a) -> effects s' = effects s.
Proof.
  unfold try_recv_write. destruct (StorageWorker.try_recv _ _) as [w r].
  repeat case_match; intros [= <- <-]; done.
Qed.

Lemma try_recv_read_effects s n s' a :
  try_recv_read s n = (s', a) -> effects s' = effects s.
Proof.
  unfold try_recv_read. destruct (StorageWorker.try_recv _ _) as [w r].
  repeat case_match; intros [= <- <-]; done.
Qed.

Lemma finish_admin_read_effects s k v s' r :
  finish_admin_read s k v = (s', r) -> effects s' = effects s.
Proof.
  unfold finish_admin_read, evict_user. repeat case_match; intros [= <- <-]; done.
Qed.

Lemma start_request_effects s fill utc request s' r :
  start_request s fill utc request = (s', r) ->
  effects s' = effects s /\
  forall response, r = Ok response ->
    exists q, ControlRequest.parse request = Ok q /\
      (ControlRequest.sequence q = None \/
       exists c n, ControlRequest.sequence q = Some (c, n) /\
         AdminSequencer.check (AdminState.sequencer (State.admin s)) c n request =
           Ok (AdminDecision.Replay response)).
Proof.
  unfold start_request. case_if; [by intros [= <- <-]|].
  destruct (ControlRequest.parse request) as [q|] eqn:Ep; [|by intros [= <- <-]].
  assert (Hrest :
    (match required_admin_read s q with
      | Some (key, kind) => start_read s request key kind
      | None =>
          match ControlRequest.sequence q with
          | None => (s, read_admin_state s q)
          | Some (client_id, seq) =>
              match AdminSequencer.check (AdminState.sequencer (State.admin s)) client_id seq
                      request with
              | Err e => (s, Err (admin_status e))
              | Ok (AdminDecision.Replay response) => (s, Ok response)
              | Ok (AdminDecision.Execute request_hash) =>
                  start_write s fill utc request q client_id seq request_hash
              end
          end
      end) = (s', r) ->
    effects s' = effects s /\
    forall response, r = Ok response ->
      exists q', Ok (E := AdminError.t) q = Ok q' /\
        (ControlRequest.sequence q' = None \/
         exists c n, ControlRequest.sequence q' = Some (c, n) /\
           AdminSequencer.check (AdminState.sequencer (State.admin s)) c n request =
             Ok (AdminDecision.Replay response))).
  { destruct (required_admin_read s q) as [[key kind]|].
    { unfold start_read. destruct (StorageWorker.get _ _) as [w [n|e]]; by intros [= <- <-]. }
    destruct (ControlRequest.sequence q) as [[c n]|] eqn:Es.
    2: { intros [= <- <-]. split; [done|]. intros response _. exists q. auto. }
    destruct (AdminSequencer.check _ c n request) as [[h|resp]|] eqn:Ec.
    - unfold start_write. destruct (prepare_admin_mutation _ _ _ _); [|by intros [= <- <-]].
      destruct (AdminSequencer.prepare_commit _ _ _ _ _); [|by intros [= <- <-]].
      destruct (StorageWorker.apply _ _) as [w [k|e]]; by intros [= <- <-].
    - intros [= <- <-]. split; [done|]. intros response [= <-]. exists q. split; [done|].
      right. eauto.
    - by intros [= <- <-]. }
  destruct q; try exact Hrest. clear Hrest.
  unfold start_backup. destruct (StorageWorker.backup _ _) as [w [n|e]]; by intros [= <- <-].
Qed.

(** C4: administration is write-ahead.  A control call changes the receipts,
    rules, sessions, flows or accounts only when it completes a pending write
    of the very same request bytes that the storage reports as durable, and
    then the change is the prepared mutation and the answer the prepared
    response.  Every other successful answer is a read, a finished backup, or
    the recorded response of an earlier execution. *)
Theorem control_write_ahead s fill utc request s' r :
  control_instance s fill utc request = (s', r) ->
  (exists p, durable_write s request p /\
     ((exists s1, effects s1 = (AdminState.sequencer (State.admin s1), AdminState.rules (State.admin s),
          State.sessions s, State.flows s, State.datagram_flows s, State.traffic s,
          (State.flow_cursor s, State.user_deficit s, State.options s, State.global_rate s)) /\
        AdminSequencer.apply_commit (AdminState.sequencer (State.admin s))
          (PendingWrite.client_id p) (PendingWrite.receipt p) =
            (AdminState.sequencer (State.admin s1), Ok tt) /\
        s' = apply_admin_mutation s1 utc (PendingWrite.mutation p) /\
        r = Ok (PendingWrite.response p)) \/
      r = Err STATUS_INTERNAL)) \/
  (effects s' = effects s /\
   forall response, r = Ok response ->
     (exists b, State.pending_control s = Some (PendingControl.Backup b)) \/
     exists q, ControlRequest.parse request = Ok q /\
       (ControlRequest.sequence q = None \/
        exists c n, ControlRequest.sequence q = Some (c, n) /\
          AdminSequencer.check (AdminState.sequencer (State.admin s)) c n request =
            Ok (AdminDecision.Replay response))).
Proof.
  unfold control_instance, resume.
  destruct (State.pending_control s) as [pending|] eqn:Ep.
  2: { intros [He Hr]%start_request_effects. right. split; [done|]. intros resp Hx. right. eauto. }
  case_if; [intros [= <- <-]; right; done|].
  destruct pending as [p|p|p]; simpl in *.
  - unfold resume_write, try_recv_write. simpl.
    destruct (StorageWorker.try_recv (State.storage s) (PendingWrite.reply p)) as [w a] eqn:Ea.
    destruct a as [[[v|[u|e]|v|]|]|]; try (intros [= <- <-]; right; done).
    destruct (AdminSequencer.apply_commit _ _ _) as [q [[]|e]] eqn:Ec; intros [= <- <-]; left;
      exists p; (split; [split_and!; eauto|]).
    + left. exists (set_sequencer (State.set_storage (State.set_pending_control s None) w) q).
      split_and!; [reflexivity|exact Ec|reflexivity|done].
    + by right.
  - unfold resume_read. destruct (try_recv_read _ _) as [s1 a] eqn:Ea.
    apply try_recv_read_effects in Ea. simpl in Ea.
    destruct a as [v| |]; try (intros [= <- <-]; right; done).
    destruct (finish_admin_read s1 _ v) as [s2 [[]|e]] eqn:Ef; apply finish_admin_read_effects in Ef.
    + intros [He Hr]%start_request_effects. right.
      assert (Hall : effects s2 = effects s) by (rewrite Ef, Ea; done).
      split; [congruence|]. intros resp Hx. right. destruct (Hr resp Hx) as (q & Hq & Hc).
      exists q. split; [done|]. replace (AdminState.sequencer (State.admin s)) with
        (AdminState.sequencer (State.admin s2)) by (unfold effects in Hall; congruence). done.
    + intros [= <- <-]. right. split; [rewrite Ef, Ea; done|done].
  - unfold resume_backup. destruct (try_recv_write _ _) as [s1 a] eqn:Ea.
    apply try_recv_write_effects in Ea. simpl in Ea.
    destruct a; intros [= <- <-]; right; (split; [exact Ea|]); intros resp Hx; left; eauto.
Qed.
End facts.

(** * A concrete run *)
Import World.

(** The user is deleted and a credential of somebody else revoked. *)
Definition example_mutation : AdminMutation.t :=
  AdminMutation.mk [(alice, None)]
    [(#"digest", Some (CredentialRecord.mk #"digest" #"bob" true 2))] [] [] None.

Lemma mutation_cuts_off_witness :
  user_gone (apply_admin_mutation (server alice_user) 1000 example_mutation) alice /\
  credential_gone (apply_admin_mutation (server alice_user) 1000 example_mutation) #"digest".
Proof.
  destruct (mutation_cuts_off (server alice_user) 1000 example_mutation) as [Hu Hc]. split.
  - apply (Hu alice None); [by left|done].
  - apply (Hc #"digest" (Some (CredentialRecord.mk #"digest" #"bob" true 2))); [by left|done].
Defined.

(** The first call of a request leaves it pending; the storage serves it. *)
Definition disabling : State.t := serve (fst (control (server alice_user) disable_request)).

Lemma control_write_ahead_witness :
  snd (control disabling disable_request) = Ok #"ok" /\
  size (State.sessions disabling) = 1%nat /\
  size (State.sessions (fst (control disabling disable_request))) = 0%nat /\
  exists p, durable_write disabling disable_request p.
Proof.
  split_and!; [vm_compute; reflexivity..|].
  destruct (control_write_ahead disabling None 1000 disable_request _ _
    (surjective_pairing (control disabling disable_request))) as [(p & Hp & _)|[He _]];
    [by exists p|].
  exfalso. apply (f_equal (fun e => size (snd (fst (fst (fst (fst e))))))) in He.
  vm_compute in He. discriminate.
Defined.
