(* ===== verification/RestartFacts.v ===== *)
(** What a policy-local instance keeps over a restart: the receipts of the
    administrative requests (so a retry is answered and not executed again), and
    not the dynamic rules. *)
From Stdlib Require Import Strings.Byte.
From S2P Require Import Prelude Text Net Frame Accounting Admin Config Sniff Service Storage Rules Flow State Traffic Session Control Policy Scenario.
#[local] Open Scope Z_scope.

Section facts.
Context `{HR : Redb, HS : Sha256, HP : Postcard Receipt.t, HT : Toml Options.t}.

Lemma strip_client key c : strip_prefix key #"client/" = Some c <-> key = client_key c.
Proof.
  unfold strip_prefix, client_key. destruct (starts_with key #"client/") eqn:Es.
  - apply starts_with_iff in Es as [x ->]. rewrite drop_app_length. split; [by intros [= ->]|].
    intros Hx%app_inj_1; [|done]. by destruct Hx as [_ ->].
  - split; [done|]. intros ->. exfalso. apply not_true_iff_false in Es. apply Es.
    apply starts_with_iff. eauto.
Qed.

Lemma restore_Ok q c v q' :
  AdminSequencer.restore q c v = (q', Ok tt) ->
  validate_client_id c = Ok tt /\
  exists r, from_bytes v = Some r /\
    AdminSequencer.clients q' = <[c := r]> (AdminSequencer.clients q).
Proof.
  unfold AdminSequencer.restore. destruct (validate_client_id c) as [[]|]; [|done].
  case_if; [done|]. destruct (from_bytes v) as [r|]; simpl; [|done]. intros [= <-]. eauto.
Qed.

(** The restored table: what the receipts say, over what was there. *)
Lemma restore_receipts_spec l : forall q q',
  restore_receipts q l = Ok q' -> NoDup (fst <$> l) ->
  forall c r, AdminSequencer.clients q' !! c = Some r <->
    (exists v, (client_key c, v) ∈ l /\ from_bytes v = Some r /\ validate_client_id c = Ok tt) \/
    AdminSequencer.clients q !! c = Some r /\ client_key c ∉ fst <$> l.
Proof.
  induction l as [|[key v] l IH]; intros q q'; simpl.
  - intros [= <-] _ c r. set_solver.
  - intros (c0 & ->%ok_or_Ok%strip_client & Hq)%bind_Ok [Hk Hn]%NoDup_cons c r.
    destruct (AdminSequencer.restore q c0 v) as [q1 [[]|]] eqn:Er; [|done].
    apply restore_Ok in Er as (Hv & r0 & Hr0 & Hc1). rewrite (IH _ _ Hq Hn c r), Hc1.
    destruct (decide (c = c0)) as [->|Hne].
    + rewrite lookup_insert_eq. split.
      * intros [(v' & Hin & _)|[[= <-] _]]; [|left; exists v; set_solver].
        destruct Hk. apply list_elem_of_fmap. by exists (client_key c0, v').
      * intros [(v' & [[= ->]|Hin]%elem_of_cons & Hr & _)|[_ Hin]]; [right; split; [congruence|done]| |set_solver].
        destruct Hk. apply list_elem_of_fmap. by exists (client_key c0, v').
    + rewrite lookup_insert_ne by done.
      assert (client_key c <> client_key c0).
      { unfold client_key. intros Hx%app_inj_1; [|done]. by destruct Hx. }
      set_solver.
Qed.

Lemma scan_receipts_Ok d cache max capacity w limit w' l :
  0 <= limit -> StorageWorker.open d cache max capacity = Ok w ->
  scan_receipts w limit = Ok (w', l) ->
  entries_under (committed d) #"client/" l /\ len l <= limit.
Proof.
  intros Hlim. unfold StorageWorker.open. case_if; [done|]. intros [= <-]. bools.
  unfold scan_receipts, StorageWorker.scan. simpl. case_if; [done|].
  unfold StorageWorker.request, StorageWorker.send. simpl. case_if; [done|]. simpl.
  unfold StorageWorker.try_recv, StorageWorker.answer. simpl. rewrite lookup_insert_eq.
  intros (l' & Hl & [= _ ->])%bind_Ok. apply map_err_Ok in Hl. by apply scan_values_Ok.
Qed.

(** What [initialize] does that matters after it. *)
Lemma initialize_Ok env d config base s :
  initialize env (Ok d) config base = Ok s ->
  exists q w l,
    AdminSequencer.new (Options.max_admin_clients (State.options s)) = Ok q /\
    (exists cache max capacity, StorageWorker.open d cache max capacity = Ok w) /\
    scan_receipts w (Options.max_admin_clients (State.options s)) = Ok (State.storage s, l) /\
    restore_receipts q l = Ok (AdminState.sequencer (State.admin s)) /\
    AdminState.rules (State.admin s) = ∅.
Proof.
  unfold initialize.
  intros (b & _ & (o & _ & (g & _ & (d' & Hd & (w & Hw & (q & Hq & ([w' l] & Hl &
    (q' & Hr & (c & _ & [= <-])%bind_Ok)%bind_Ok)%bind_Ok)%bind_Ok)%bind_Ok)%bind_Ok)%bind_Ok)%bind_Ok)%bind_Ok.
  simpl in Hd. simplify_eq. apply map_err_Ok in Hw, Hq. exists q, w, l. simpl. eauto 10.
Qed.

Lemma entries_under_keys m prefix l : entries_under m prefix l -> NoDup (fst <$> l).
Proof.
  intros [Hs _]. induction Hs as [|[k v] l _ IH Hf]; simpl; constructor; [|done].
  intros ([k' v'] & -> & Hin)%list_elem_of_fmap. rewrite Forall_forall in Hf.
  specialize (Hf _ Hin). simpl in Hf. by apply lex_lt_irrefl in Hf.
Qed.

(** The receipts of a restarted instance are those of the database. *)
Lemma initialize_receipts env d config base s c r :
  initialize env (Ok d) config base = Ok s ->
  0 <= Options.max_admin_clients (State.options s) ->
  AdminSequencer.clients (AdminState.sequencer (State.admin s)) !! c = Some r <->
  exists v, committed d !! client_key c = Some v /\ from_bytes v = Some r /\
    validate_client_id c = Ok tt.
Proof.
  intros (q & w & l & Hq & (? & ? & ? & Hw) & Hl & Hr & _)%initialize_Ok Hlim.
  destruct (scan_receipts_Ok _ _ _ _ _ _ _ _ Hlim Hw Hl) as [Hu _].
  rewrite (restore_receipts_spec _ _ _ Hr (entries_under_keys _ _ _ Hu) c r).
  destruct Hu as [_ Hin]. setoid_rewrite Hin.
  assert (Hc : starts_with (client_key c) #"client/" = true) by (apply starts_with_iff; eexists; done).
  unfold AdminSequencer.new in Hq. case_if_in Hq; [done|]. simplify_eq. simpl.
  rewrite lookup_empty. naive_solver.
Qed.

Lemma prepare_commit_receipt q c n h response receipt :
  AdminSequencer.prepare_commit q c n h response = Ok receipt ->
  validate_client_id c = Ok tt /\ from_bytes receipt = Some (Receipt.mk n h response).
Proof.
  unfold AdminSequencer.prepare_commit. intros ([] & Hv & ([] & _ & Hr%ok_or_Ok)%bind_Ok)%bind_Ok.
  split; [done|]. by apply from_bytes_to_allocvec.
Qed.

Lemma apply_map_snoc changes k v m : apply_map (changes ++ [(k, Some v)]) m = <[k := v]> (apply_map changes m).
Proof. unfold apply_map. by rewrite fold_left_app. Qed.

End facts.

(** * Concrete restarts *)
Import World.

(** A server that has been asked to disable a user, and whose storage has
    served the write. *)
Definition restarted (s : State.t) : result Status State.t :=
  d ← ok_or (StorageWorker.db (State.storage s)) STATUS_IO;
  initialize (fun _ => None) (Ok d) [] #"/".

Definition example_receipt : bytes :=
  unwrap_or (to_allocvec (Receipt.mk 1 (sha256 disable_request) #"ok")) [].
Definition example_state : State.t :=
  match initialize (fun _ => None) (Ok ({[client_key #"cli" := example_receipt]} : database)) [] #"/" with
  | Ok s => s
  | Err _ => server alice_user
  end.

Lemma example_state_started :
  initialize (fun _ => None) (Ok ({[client_key #"cli" := example_receipt]} : database)) [] #"/"
    = Ok example_state.
Proof.
  unfold example_state. destruct (initialize _ _ _ _) eqn:Hi; [done|].
  apply (f_equal is_ok) in Hi. vm_compute in Hi. done.
Qed.


Definition destination : FlowMetadata.t := FlowMetadata.mk ADDRESS_DOMAIN #"example.com" 443.

(** A server whose rules were replaced by a set that denies everything; the
    request was answered. *)
Definition replaced : State.t * result Status bytes :=
  control (serve (fst (control (server alice_user) rules_request))) rules_request.

(** A restart forgets the dynamic rules.  After an accepted and durable
    replacement of a rule profile, flows are decided by it; once the instance
    is restarted on the same database, which still holds the document, the
    static rules of the configuration apply again and a denied destination is
    admitted. *)
Theorem restart_forgets_rules :
  snd replaced = Ok #"ok" /\
  destination_policy (State.options (fst replaced)) (rules_of (fst replaced)) alice_user destination
    = Err tt /\
  (d ← StorageWorker.db (State.storage (fst replaced));
   committed d !! (#"meta/rules/" ++ #"default")) = Some rules_document /\
  (s ← restarted (fst replaced);
   Ok (destination_policy (State.options s) (rules_of s) alice_user destination)) = Ok (Ok None).
Proof. vm_compute. auto. Qed.
