(* ===== verification/SessionFacts.v ===== *)
(** Authentication (Session.v, Policy.v): in every reachable state of an
    instance, an authenticated server session is backed by a secret that came on its
    own stream and by what the storage answered. *)
From Stdlib Require Import Strings.Byte.
From S2P Require Import Prelude Text Net Frame Accounting Admin Config Sniff Service Storage Rules Flow State Traffic Session Control Policy Scenario.
#[local] Open Scope Z_scope.

Section facts.
Context `{HR : Redb, HS : Sha256, HO : HashOrder, HP1 : Postcard StoredUserRecord.t,
  HP2 : Postcard CredentialRecord.t, HP3 : Postcard Receipt.t, HT1 : Toml ControlRequest.t,
  HT2 : Toml Rules.t, HT3 : Toml ClientRequest.t, HT4 : Toml ServerStatus.t,
  HT5 : Toml ChannelSecurity.t, HX1 : TomlPrint MutationResponse.t,
  HX2 : TomlPrint UsageResponse.t, HX3 : TomlPrint SessionsResponse.t,
  HX4 : TomlPrint BackupResponse.t, HX5 : TomlPrint PolicyStatus.t}.
Context {E : Type}.

(** * The evidence behind a session *)

(** A value the storage has answered and that is not fetched yet. *)
Definition answered (s : State.t) (v : bytes) : Prop :=
  exists n, StorageWorker.replies (State.storage s) !! n = Some (Reply.Read (Ok (Some v))).

(** One of the messages is a well-formed authentication request with a secret of
    that digest. *)
Definition presented (messages : list str) (digest : str) : Prop :=
  exists message secret credential, message ∈ messages /\
    @ClientRequest.parse E _ message = Ok (ClientRequest.Auth secret) /\
    Credential.parse_hex secret = Ok credential /\
    digest = CredentialDigest.hex (Credential.digest_id credential).

Section evidence.
(** The values the storage has answered so far, and the times of the steps. *)
Context (seen : bytes -> Prop) (polled : Z -> Prop).

Definition credential_evidence (digest id : str) : Prop :=
  exists v c, seen v /\ from_bytes v = Some c /\ CredentialRecord.digest c = digest /\
    CredentialRecord.revoked c = false /\ CredentialRecord.user_id c = id.

Definition user_evidence (id : str) : Prop :=
  exists v user t, seen v /\ polled t /\ decode_user_record v = Ok user /\
    UserRecord.id user = id /\ user_available_at user t = true.

(** [messages] are those the session has received. *)
Definition backed (messages : list str) (p : PolicySession.t) : Prop :=
  PolicySession.role p = PolicyRole.Server ->
  match PolicySession.auth p with
  | AuthState.Waiting => True
  | AuthState.Credential digest _ => PolicySession.credential_digest p = Some digest /\ presented messages digest
  | AuthState.User id _ =>
      exists digest, PolicySession.credential_digest p = Some digest /\ presented messages digest /\
        credential_evidence digest id
  | AuthState.Clock user _ =>
      exists digest, PolicySession.credential_digest p = Some digest /\ presented messages digest /\
        credential_evidence digest (UserRecord.id user) /\ user_evidence (UserRecord.id user)
  | AuthState.Authenticated id =>
      exists digest, PolicySession.credential_digest p = Some digest /\ presented messages digest /\
        credential_evidence digest id /\ user_evidence id
  end.

(** * Handlers *)

(** What a handler may do to the rest of the state. *)
Definition quiet (s s' : State.t) : Prop :=
  State.sessions s' = State.sessions s /\ (forall v, answered s' v -> answered s v).

Lemma quiet_refl s : quiet s s.
Proof. by split. Qed.
Lemma quiet_trans s1 s2 s3 : quiet s1 s2 -> quiet s2 s3 -> quiet s1 s3.
Proof. intros [H1 A1] [H2 A2]. split; [congruence|auto]. Qed.

Section handlers.
Context (messages : list str).
Abbreviation backed := (backed messages).

(** A handler ends with a backed session. *)
Definition sound (s : State.t) (h : State.t * PolicySession.t * result Status unit) : Prop :=
  let '(s', p', _) := h in quiet s s' /\ backed p'.

(** Two sessions with the same standing. *)
Definition same_standing (p p' : PolicySession.t) : Prop :=
  PolicySession.auth p' = PolicySession.auth p /\ PolicySession.role p' = PolicySession.role p /\
  PolicySession.credential_digest p' = PolicySession.credential_digest p.

Lemma same_standing_backed p p' : same_standing p p' -> backed p -> backed p'.
Proof. unfold backed. intros (-> & -> & ->). done. Qed.

Lemma request_answered w command w' r :
  StorageWorker.request w command = (w', r) ->
  StorageWorker.replies w' = StorageWorker.replies w.
Proof.
  unfold StorageWorker.request, StorageWorker.send. simpl.
  repeat (case_if; [by intros [= <- <-]|]). by intros [= <- <-].
Qed.

Lemma get_answered w key w' r :
  StorageWorker.get w key = (w', r) -> StorageWorker.replies w' = StorageWorker.replies w.
Proof.
  unfold StorageWorker.get. destruct (validate_key key); [|by intros [= <- <-]].
  apply request_answered.
Qed.

Lemma put_answered w key v w' r :
  StorageWorker.put w key v = (w', r) -> StorageWorker.replies w' = StorageWorker.replies w.
Proof.
  unfold StorageWorker.put. destruct (validate_key key); [|by intros [= <- <-]].
  apply request_answered.
Qed.

Lemma quiet_storage s w :
  StorageWorker.replies w = StorageWorker.replies (State.storage s) ->
  quiet s (State.set_storage s w).
Proof. intros Hw. split; [done|]. intros v [n Hn]. exists n. simpl in Hn. congruence. Qed.

Lemma quiet_recv s w n a :
  StorageWorker.try_recv (State.storage s) n = (w, a) -> quiet s (State.set_storage s w).
Proof.
  unfold StorageWorker.try_recv. destruct (_ !! n) eqn:En.
  - intros [= <- <-]. split; [done|]. intros v [k Hk]. simpl in Hk. exists k.
    by apply lookup_delete_Some in Hk as [_ ?].
  - case_if; intros [= <- <-]; apply quiet_storage; done.
Qed.

Lemma try_recv_read_quiet s n s' a :
  try_recv_read s n = (s', a) ->
  quiet s s' /\ forall v, a = ReadValue (Some v) -> answered s v.
Proof.
  unfold try_recv_read. destruct (StorageWorker.try_recv _ _) as [w r] eqn:Er.
  pose proof (quiet_recv _ _ _ _ Er) as Hq. intros Hs.
  assert (Hs' : s' = State.set_storage s w) by (repeat case_match; by simplify_eq).
  subst. split; [done|]. intros v ->.
  assert (r = Ready (Some (Reply.Read (Ok (Some v))))) as -> by (repeat case_match; by simplify_eq).
  unfold StorageWorker.try_recv in Er. destruct (_ !! n) eqn:En.
  - exists n. congruence.
  - case_if_in Er; simplify_eq.
Qed.

Lemma try_recv_write_quiet s n s' a : try_recv_write s n = (s', a) -> quiet s s'.
Proof.
  unfold try_recv_write. destruct (StorageWorker.try_recv _ _) as [w r] eqn:Er.
  pose proof (quiet_recv _ _ _ _ Er) as Hq. intros Hs.
  assert (s' = State.set_storage s w) as -> by (repeat case_match; by simplify_eq). done.
Qed.

Lemma respond_sound s p response : backed p -> sound s (@respond _ E s p response).
Proof.
  unfold respond. destruct (SessionChannel.queue_response _ _) as [c r]. intros Hp. simpl.
  split; [apply quiet_refl|]. by apply (same_standing_backed p).
Qed.

Lemma denied_sound s p reason : backed p -> sound s (@queue_denied _ E s p reason).
Proof. apply respond_sound. Qed.

Lemma snapshot_sound s p now status : backed p -> sound s (@snapshot_status _ E s p now status).
Proof.
  unfold snapshot_status. destruct (SessionChannel.replace_snapshot _ _) as [c [r|e]]; intros Hp;
    simpl; (split; [apply quiet_refl|]); by apply (same_standing_backed p).
Qed.

Lemma quiet_sound s1 s2 h : quiet s1 s2 -> sound s2 h -> sound s1 h.
Proof.
  destruct h as [[s p] r]. intros Hq [Hs Hb]. split; [|done]. by eapply quiet_trans.
Qed.

Lemma finish_sound s p user :
  backed (PolicySession.set_auth p (AuthState.Authenticated (UserRecord.id user))) ->
  sound s (@finish_authentication _ _ E s p user).
Proof.
  intros Hb. unfold finish_authentication. destruct (status_message _ _ _) as [status|e].
  - eapply quiet_sound; [|by apply respond_sound]. split; done.
  - simpl. split; [split; done|done].
Qed.

Lemma auth_sound s p message secret :
  message ∈ messages -> @ClientRequest.parse E _ message = Ok (ClientRequest.Auth secret) -> backed p ->
  sound s (handle_auth s p secret).
Proof.
  intros Hin Hm Hb. unfold handle_auth.
  destruct (PolicySession.auth p) eqn:Ea; try (simpl; split; [apply quiet_refl|done]).
  destruct (Credential.parse_hex secret) as [k|e] eqn:Ek; [|simpl; split; [apply quiet_refl|done]].
  destruct (StorageWorker.get _ _) as [w r] eqn:Eg. apply get_answered in Eg.
  destruct r as [n|e]; simpl; (split; [by apply quiet_storage|]).
  - intros _. simpl. split; [done|]. by exists message, secret, k.
  - unfold backed in *. simpl. by rewrite Ea.
Qed.

Lemma request_sound s p now message :
  message ∈ messages -> backed p -> sound s (@handle_client_request _ _ _ _ E s p now message).
Proof.
  intros Hin Hb. assert (Hq : forall r, sound s (s, p, r)) by (intros r; split; [apply quiet_refl|done]).
  unfold handle_client_request. destruct (ClientRequest.parse message) as [[secret| | |]|e] eqn:Em;
    auto; [by eapply auth_sound| |].
  - unfold handle_status. destruct (PolicySession.auth p); auto.
    destruct (status_message _ _ _); auto using respond_sound.
  - unfold handle_subscribe. destruct (PolicySession.auth p); auto.
    destruct (status_message _ _ _) as [status|]; auto.
    pose proof (snapshot_sound s p now status Hb) as Hs.
    destruct (snapshot_status _ _ _ _) as [[s1 p1] [[]|e]]; [|done].
    destruct Hs as [? ?]. split; [done|]. by apply (same_standing_backed p1).
Qed.

Lemma credential_sound s p digest n :
  (forall v, answered s v -> seen v) ->
  backed (PolicySession.set_auth p (AuthState.Credential digest n)) ->
  PolicySession.auth p = AuthState.Waiting ->
  sound s (@advance_credential _ _ E s p digest n).
Proof.
  intros Hseen Hb Ha. unfold advance_credential.
  assert (Hw : backed p) by (unfold backed; by rewrite Ha).
  destruct (try_recv_read s n) as [s1 a] eqn:Er. apply try_recv_read_quiet in Er as [Hq Hv].
  destruct a as [[v|]| |]; [|by eapply quiet_sound, denied_sound|by split|by split].
  destruct (from_bytes v) as [c|] eqn:Ec; [|by split].
  destruct (negb _ || _) eqn:Eg; bools; [by eapply quiet_sound, denied_sound|].
  destruct (StorageWorker.get _ _) as [w r] eqn:Es. apply get_answered in Es.
  assert (quiet s (State.set_storage s1 w)) by (eapply quiet_trans; [done|by apply quiet_storage]).
  destruct r as [k|e]; simpl; [|by split]. split; [done|]. intros Hr. simpl in *.
  destruct (Hb Hr) as [Hd Hp]. exists digest. split_and!; try done.
  exists v, c. split_and!; auto.
Qed.

Lemma check_user_sound s p utc user_id user v n :
  seen v -> polled utc -> decode_user_record v = Ok user ->
  backed (PolicySession.set_auth p (AuthState.User user_id n)) ->
  PolicySession.auth p = AuthState.Waiting ->
  sound s (@check_user _ _ _ E s p utc user_id user).
Proof.
  intros Hseen Hutc Hdec Hb Ha. unfold check_user.
  assert (Hw : backed p) by (unfold backed; by rewrite Ha).
  destruct (negb _ || _) eqn:Eg; bools; [by apply denied_sound|].
  case_if; [by apply denied_sound|].
  assert (He : user_evidence user_id) by (exists v, user, utc; split_and!; auto).
  case_if.
  - destruct (encode_user_record _) as [value|e]; [|by split; [apply quiet_refl|]].
    destruct (StorageWorker.put _ _ _) as [w r] eqn:Es. apply put_answered in Es.
    destruct r as [k|e]; simpl; (split; [by apply quiet_storage|]); [|done].
    intros Hr. destruct (Hb Hr) as (d & Hd & Hp & Hc). exists d. simpl in *.
    subst user_id. split_and!; auto.
  - apply finish_sound. intros Hr. destruct (Hb Hr) as (d & Hd & Hp & Hc). exists d. simpl in *.
    subst user_id. split_and!; auto.
Qed.

Lemma user_read_sound s p utc user_id n :
  (forall v, answered s v -> seen v) -> polled utc ->
  backed (PolicySession.set_auth p (AuthState.User user_id n)) ->
  PolicySession.auth p = AuthState.Waiting ->
  sound s (@advance_user_read _ _ _ E s p utc user_id n).
Proof.
  intros Hseen Hutc Hb Ha. unfold advance_user_read.
  assert (Hw : backed p) by (unfold backed; by rewrite Ha).
  destruct (try_recv_read s n) as [s1 a] eqn:Er. apply try_recv_read_quiet in Er as [Hq Hv].
  destruct a as [[v|]| |]; [|by eapply quiet_sound, denied_sound|by split|by split].
  destruct (decode_user_record v) as [user|] eqn:Ed; [|by split].
  eapply quiet_sound; [done|]. eapply check_user_sound; eauto.
Qed.

Lemma clock_sound s p user n :
  backed (PolicySession.set_auth p (AuthState.Clock user n)) ->
  PolicySession.auth p = AuthState.Waiting ->
  sound s (@advance_clock _ _ E s p user n).
Proof.
  intros Hb Ha. unfold advance_clock.
  assert (Hw : backed p) by (unfold backed; by rewrite Ha).
  destruct (try_recv_write s n) as [s1 a] eqn:Er. apply try_recv_write_quiet in Er.
  destruct a; [|by split|by split]. eapply quiet_sound; [done|]. by apply finish_sound.
Qed.

Lemma advance_sound s p utc :
  (forall v, answered s v -> seen v) -> polled utc -> backed p ->
  sound s (@advance_authentication _ _ _ _ E s p utc).
Proof.
  intros Hseen Hutc Hb. unfold advance_authentication.
  assert (Hback : forall a, PolicySession.auth p = a ->
    backed (PolicySession.set_auth (PolicySession.set_auth p AuthState.Waiting) a)).
  { intros a Ha. by apply (same_standing_backed p). }
  destruct (PolicySession.auth p) eqn:Ea; try (split; [apply quiet_refl|done]).
  - apply credential_sound; auto.
  - apply user_read_sound; auto.
  - apply clock_sound; auto.
Qed.

Lemma server_status_sound s p message r p' :
  PolicySession.role p = PolicyRole.Client ->
  handle_server_status p message = (p', r) -> sound s (s, p', r).
Proof.
  intros Hc Hm. split; [apply quiet_refl|]. intros Hr. exfalso.
  unfold handle_server_status in Hm. repeat case_match; simplify_eq; simpl in Hr; congruence.
Qed.

Lemma messages_sound l : forall s p now,
  Forall (fun m => m ∈ messages) l -> backed p -> sound s (@handle_messages _ _ _ _ _ E s p now l).
Proof.
  induction l as [|message l IH]; intros s p now Hl Hb; simpl.
  - split; [apply quiet_refl|done].
  - apply Forall_cons in Hl as [Hin Hl].
    assert (Hs : sound s (match PolicySession.role p with
        | PolicyRole.Client => let '(session, r) := handle_server_status p message in (s, session, r)
        | PolicyRole.Server => @handle_client_request _ _ _ _ E s p now message
        end)).
    { destruct (PolicySession.role p) eqn:Er; [|by apply request_sound].
      destruct (handle_server_status p message) as [p' r] eqn:Em. by eapply server_status_sound. }
    match type of Hs with sound _ ?h => destruct h as [[s1 p1] [[]|e]] end; [|done].
    destruct Hs as [Hq Hb1]. eapply quiet_sound; [done|]. by apply IH.
Qed.

Lemma push_status_sound s p now : backed p -> sound s (@push_status _ _ E s p now).
Proof.
  intros Hb. unfold push_status. destruct (PolicySession.auth p); try (by split; [apply quiet_refl|]).
  case_if; [|by split; [apply quiet_refl|]].
  destruct (status_message _ _ _); [|by split; [apply quiet_refl|]]. by apply snapshot_sound.
Qed.

(** The handlers of a poll, on the messages it delivers. *)
Lemma handle_sound s p now utc l :
  (forall v, answered s v -> seen v) -> polled utc -> Forall (fun m => m ∈ messages) l -> backed p ->
  sound s (match @handle_messages _ _ _ _ _ E s p now l with
    | (s, session, Err e) => (s, session, Err e)
    | (s, session, Ok _) =>
        match @advance_authentication _ _ _ _ E s session utc with
        | (s, session, Err e) => (s, session, Err e)
        | (s, session, Ok _) => @push_status _ _ E s session now
        end
    end).
Proof.
  intros Hseen Hutc Hl Hb. pose proof (messages_sound l s p now Hl Hb) as Hm.
  destruct (handle_messages _ _ _ _) as [[s1 p2] [[]|e]]; [|done]. destruct Hm as [Hq Hb2].
  assert (Hs1 : forall v, answered s1 v -> seen v) by (intros v Hv; apply Hseen, Hq, Hv).
  pose proof (advance_sound s1 p2 utc Hs1 Hutc Hb2) as Ha.
  destruct (advance_authentication _ _ _) as [[s2 p3] [[]|e]].
  - destruct Ha as [Hq2 Hb3]. eapply quiet_sound; [by eapply quiet_trans|]. by apply push_status_sound.
  - destruct Ha. split; [by eapply quiet_trans|done].
Qed.
End handlers.

(** ** What a session has received *)

Definition decoder_of (p : PolicySession.t) : FrameDecoder :=
  SessionChannel.decoder (PolicySession.channel p).

(** The handlers queue answers and leave the decoder alone. *)
Definition tuned (p : PolicySession.t) (h : State.t * PolicySession.t * result Status unit) : Prop :=
  decoder_of h.1.2 = decoder_of p.

Lemma respond_tuned s p response : tuned p (@respond _ E s p response).
Proof.
  unfold respond, SessionChannel.queue_response, SessionChannel.queue_frame.
  case_if; [done|]. by destruct (encode_frame _ _).
Qed.

Lemma snapshot_tuned s p now status : tuned p (@snapshot_status _ E s p now status).
Proof. unfold snapshot_status, SessionChannel.replace_snapshot. by destruct (encode_frame _ _). Qed.

Ltac tune :=
  repeat (case_match; simplify_eq/=); try done;
  try (etransitivity; [apply respond_tuned|done]); try (etransitivity; [apply snapshot_tuned|done]).

Lemma finish_tuned s p user : tuned p (@finish_authentication _ _ E s p user).
Proof. unfold finish_authentication. case_match; [|done]. etransitivity; [apply respond_tuned|done]. Qed.

Lemma request_tuned s p now message : tuned p (@handle_client_request _ _ _ _ E s p now message).
Proof.
  unfold handle_client_request, handle_auth, handle_status, handle_subscribe.
  destruct (ClientRequest.parse message) as [[]|]; try (by tune).
  destruct (PolicySession.auth p); try done. destruct (status_message _ _ _) as [status|]; [|done].
  pose proof (snapshot_tuned s p now status) as Ht. destruct (snapshot_status _ _ _ _) as [[s1 p1] []]; done.
Qed.

Lemma messages_tuned l : forall s p now, tuned p (@handle_messages _ _ _ _ _ E s p now l).
Proof.
  induction l as [|message l IH]; intros s p now; simpl; [done|].
  assert (Ht : tuned p (match PolicySession.role p with
      | PolicyRole.Client => let '(session, r) := handle_server_status p message in (s, session, r)
      | PolicyRole.Server => @handle_client_request _ _ _ _ E s p now message
      end)).
  { destruct (PolicySession.role p); [|apply request_tuned]. unfold handle_server_status. by tune. }
  match type of Ht with tuned _ ?h => destruct h as [[s1 p1] [[]|e]] end; [|done].
  etransitivity; [apply IH|done].
Qed.

Lemma advance_tuned s p utc : tuned p (@advance_authentication _ _ _ _ E s p utc).
Proof.
  unfold advance_authentication.
  destruct (PolicySession.auth p) as [|digest n|id n|user n|id]; try done.
  - unfold advance_credential, queue_denied. destruct (try_recv_read s n) as [s1 [[v|]| |]]; tune.
  - unfold advance_user_read, queue_denied. destruct (try_recv_read s n) as [s1 [[v|]| |]]; try by tune.
    case_match; [|done]. unfold check_user, queue_denied.
    repeat (case_if; [etransitivity; [apply respond_tuned|done]|]).
    case_if; [by tune|etransitivity; [apply finish_tuned|done]].
  - unfold advance_clock. destruct (try_recv_write s n) as [s1 []]; try done.
    etransitivity; [apply finish_tuned|done].
Qed.

Lemma push_status_tuned s p now : tuned p (@push_status _ _ E s p now).
Proof. unfold push_status. tune. Qed.

(** What a poll reads of the stream of a session. *)
Definition fetched (p : PolicySession.t) (a : @SessionChannel.answers E) : bytes :=
  if SessionChannel.eof (PolicySession.channel p) then []
  else match SessionChannel.read_answer a with Ready (Ok b) => b | _ => [] end.

(** The bytes are the frames of the messages and the beginning of another; the
    messages back the session. *)
Definition stands (input : bytes) (p : PolicySession.t) : Prop :=
  exists messages, input = encodings messages ++ buffer (decoder_of p) /\ Frame.wf (decoder_of p) /\
    backed messages p.

Lemma backed_more messages more p : backed messages p -> backed (messages ++ more) p.
Proof.
  assert (Hp : forall d, presented messages d -> presented (messages ++ more) d).
  { intros d (m & x & c & Hin & ?). exists m, x, c. split; [by apply elem_of_app; left|done]. }
  intros Hb Hr. specialize (Hb Hr). destruct (PolicySession.auth p); naive_solver.
Qed.

Lemma poll_channel_reads p (a : @SessionChannel.answers E) c out r :
  SessionChannel.poll_channel (PolicySession.channel p) a = (c, out, r) -> Frame.wf (decoder_of p) ->
  (exists e, r = Ready (Err e)) \/
  exists new, buffer (decoder_of p) ++ fetched p a = encodings new ++ buffer (SessionChannel.decoder c) /\
    Frame.wf (SessionChannel.decoder c) /\
    (match r with Ready (Ok messages) => messages | _ => [] end) = new.
Proof.
  unfold SessionChannel.poll_channel. intros Hp Hwf.
  destruct (SessionChannel.poll_read_half _ a) as [c1 [messages|e]] eqn:Er; [|left; simplify_eq; eauto].
  assert (Hw : forall c2 o x, SessionChannel.poll_write_half c1 a = (c2, o, x) ->
    SessionChannel.decoder c2 = SessionChannel.decoder c1).
  { intros c2 o x. unfold SessionChannel.poll_write_half, SessionChannel.next_frame.
    repeat case_match; intros; simplify_eq; done. }
  destruct (SessionChannel.poll_write_half c1 a) as [[c2 o] x] eqn:Ew. specialize (Hw _ _ _ eq_refl).
  destruct x as [[]|e]; [|left; simplify_eq; eauto]. case_if_in Hp; [left; simplify_eq; eauto|].
  right. exists messages.
  assert (Hm : c = c2 /\ (match r with Ready (Ok messages) => messages | _ => [] end) = messages).
  { case_if_in Hp; simplify_eq; [bools; by subst|done]. }
  destruct Hm as [-> ->]. rewrite Hw. clear Hp Ew Hw.
  unfold SessionChannel.poll_read_half in Er. unfold fetched, decoder_of in *.
  destruct (SessionChannel.eof _); [simplify_eq; by rewrite app_nil_r|].
  destruct (SessionChannel.read_answer a) as [[[|x b]|e]|]; try (simplify_eq; by rewrite app_nil_r).
  destruct (push _ (x :: b)) as [d [fs|e]] eqn:Ed; simplify_eq.
  by apply push_Ok in Ed as (? & ? & ? & _).
Qed.

Lemma poll_session_sound s p now utc a input :
  (forall v, answered s v -> seen v) -> polled utc -> stands input p ->
  let '(s', p', r) := @poll_policy_session _ _ _ _ _ _ _ E s p now utc a in
  quiet s s' /\ (is_ok r = true -> stands (input ++ fetched p a) p').
Proof.
  intros Hseen Hutc (messages & -> & Hwf & Hb). unfold poll_policy_session.
  destruct (SessionChannel.poll_channel _ _) as [[c o] r] eqn:Ec.
  apply poll_channel_reads in Ec as [[e ->]|(new & Hbuf & Hwf' & Hnew)];
    [by split; [apply quiet_refl|]| |done].
  set (p1 := PolicySession.set_channel p c).
  assert (Hs : let '(s', p', r') := match @handle_messages _ _ _ _ _ E s p1 now new with
      | (s, session, Err e) => (s, session, Err e)
      | (s, session, Ok _) =>
          match @advance_authentication _ _ _ _ E s session utc with
          | (s, session, Err e) => (s, session, Err e)
          | (s, session, Ok _) => @push_status _ _ E s session now
          end
      end in quiet s s' /\ (is_ok r' = true -> stands ((encodings messages ++ buffer (decoder_of p)) ++ fetched p a) p')).
  { assert (Hb1 : backed (messages ++ new) p1) by (by apply (same_standing_backed _ p), backed_more).
    pose proof (handle_sound (messages ++ new) s p1 now utc new Hseen Hutc) as Hh.
    specialize (Hh ltac:(apply Forall_forall; intros; by apply elem_of_app; right) Hb1).
    pose proof (messages_tuned new s p1 now) as T1.
    destruct (handle_messages s p1 now new) as [[s1 p2] [[]|e]]; [|by destruct Hh].
    pose proof (advance_tuned s1 p2 utc) as T2.
    destruct (advance_authentication s1 p2 utc) as [[s2 p3] [[]|e]]; [|by destruct Hh].
    pose proof (push_status_tuned s2 p3 now) as T3. destruct (push_status s2 p3 now) as [[s3 p4] x].
    destruct Hh as [Hq Hb4]. split; [done|]. intros _. exists (messages ++ new).
    assert (decoder_of p4 = SessionChannel.decoder c) as ->.
    { unfold tuned in *. simpl in *. rewrite T3, T2, T1. done. }
    split_and!; [|done|done]. by rewrite encodings_app, <- !app_assoc, Hbuf. }
  destruct r as [[ms|e]|]; simpl in Hnew; subst; [exact Hs|by split; [apply quiet_refl|]|exact Hs].
Qed.

(** * The rest of the instance leaves sessions alone *)

Lemma quiet_eq s s1 s2 :
  quiet s s1 -> State.sessions s2 = State.sessions s1 ->
  StorageWorker.replies (State.storage s2) = StorageWorker.replies (State.storage s1) ->
  quiet s s2.
Proof.
  intros [Hs Ha] Es Ew. split; [congruence|]. intros v Hv. apply Ha. unfold answered in *.
  by rewrite <- Ew.
Qed.

Ltac settle :=
  first [eapply quiet_eq; [apply quiet_refl|done|done] | eapply quiet_eq; [eassumption|done|done]].

Lemma open_traffic_quiet s now id active s' v :
  open_traffic s now id active = (s', v) -> quiet s s'.
Proof. unfold open_traffic. repeat case_match; intros [= <- <-]; settle. Qed.

Lemma settle_debit_quiet s id t s' v : settle_debit s id t = (s', v) -> quiet s s'.
Proof.
  unfold settle_debit. destruct (UserTraffic.debit t); [|by intros [= <- <-]].
  destruct (try_recv_write _ _) as [s1 a] eqn:Er. apply try_recv_write_quiet in Er.
  repeat case_match; intros [= <- <-]; settle.
Qed.

Lemma settle_refund_quiet s now id active t s' v :
  settle_refund s now id active t = (s', v) -> quiet s s'.
Proof.
  unfold settle_refund. destruct (UserTraffic.refund t); [|by intros [= <- <-]].
  destruct (try_recv_write _ _) as [s1 a] eqn:Er. apply try_recv_write_quiet in Er.
  repeat case_match; intros [= <- <-]; settle.
Qed.

Lemma put_charged_quiet s id f s' v : put_charged s id f = (s', v) -> quiet s s'.
Proof.
  unfold put_charged. destruct (user_of s id); [|intros [= <- <-]; apply quiet_refl].
  destruct (f _); [|intros [= <- <-]; apply quiet_refl].
  destruct (encode_user_record _); [|intros [= <- <-]; apply quiet_refl].
  destruct (StorageWorker.put _ _ _) as [w r] eqn:Er. apply put_answered in Er.
  destruct r; intros [= <- <-]; by apply quiet_storage.
Qed.

Lemma start_refund_quiet s now id active t s' v :
  start_refund s now id active t = (s', v) -> quiet s s'.
Proof.
  unfold start_refund. destruct (QuotaAccount.request_refund _) as [q [n|e]].
  - destruct (put_charged s id _) as [s1 o] eqn:Ep. apply put_charged_quiet in Ep.
    repeat case_match; intros [= <- <-]; settle.
  - repeat case_match; intros [= <- <-]; settle.
Qed.

Lemma start_debit_quiet s id t s' v : start_debit s id t = (s', v) -> quiet s s'.
Proof.
  unfold start_debit. destruct (QuotaAccount.request_credit _) as [q [n|e]].
  - destruct (put_charged s id _) as [s1 o] eqn:Ep. apply put_charged_quiet in Ep.
    repeat case_match; intros [= <- <-]; settle.
  - repeat case_match; intros [= <- <-]; settle.
Qed.

Lemma advance_user_quiet s now id active s' v :
  advance_user s now id active = (s', v) -> quiet s s'.
Proof.
  unfold advance_user. destruct (open_traffic s now id active) as [s1 o1] eqn:E1.
  apply open_traffic_quiet in E1. destruct o1; [by intros [= <- <-]|].
  destruct (State.traffic s1 !! id) as [t1|]; [|by intros [= <- <-]].
  destruct (UserTraffic.failed t1); [by intros [= <- <-]|].
  destruct (settle_debit s1 id t1) as [s2 o2] eqn:E2. apply settle_debit_quiet in E2.
  pose proof (quiet_trans _ _ _ E1 E2) as Q2. destruct o2; [by intros [= <- <-]|].
  destruct (State.traffic s2 !! id) as [t2|]; [|by intros [= <- <-]].
  destruct (settle_refund s2 now id active t2) as [s3 o3] eqn:E3. apply settle_refund_quiet in E3.
  pose proof (quiet_trans _ _ _ Q2 E3) as Q3. destruct o3; [by intros [= <- <-]|].
  destruct (State.traffic s3 !! id) as [t3|]; [|by intros [= <- <-]]. simpl.
  repeat case_if; try (by intros [= <- <-]); intros Hs;
    (eapply quiet_trans; [exact Q3|]); eauto using start_refund_quiet, start_debit_quiet.
Qed.

Lemma advance_users_quiet users : forall s now active s' st rm,
  advance_users s now active users = (s', st, rm) -> quiet s s'.
Proof.
  induction users as [|u users IH]; intros s now active s' st rm; simpl.
  - intros [= <- <- <-]. apply quiet_refl.
  - destruct (advance_user _ _ _ _) as [s1 v] eqn:E1. apply advance_user_quiet in E1.
    destruct (advance_users s1 now active users) as [[s2 st2] rm2] eqn:E2. apply IH in E2.
    intros [= <- <- <-]. by eapply quiet_trans.
Qed.

Lemma advance_quota_quiet s now s' st : advance_quota s now = (s', st) -> quiet s s'.
Proof.
  unfold advance_quota. destruct (advance_users _ _ _ _) as [[s1 st1] rm] eqn:E1.
  apply advance_users_quiet in E1. intros [= <- <-]. revert s1 E1.
  induction rm as [|u rm IH]; intros s1 E1; simpl; [done|]. apply IH. settle.
Qed.

Lemma stop_expired_quiet s now utc : quiet s (stop_expired s now utc).
Proof.
  unfold stop_expired. destruct (advance_quota _ now) as [s1 st] eqn:E1.
  apply advance_quota_quiet in E1.
  assert (quiet s s1) by (eapply quiet_trans; [|exact E1]; settle). case_if; settle.
Qed.

Lemma grant_user_quiet s now available total u s' g :
  grant_user s now available total u = (s', g) -> quiet s s'.
Proof.
  unfold grant_user. destruct u as [id flows]. unfold select_flow.
  repeat case_match; intros [= <- <-]; settle.
Qed.

Lemma grant_users_quiet now available total scheduled : forall s grants s' g,
  grant_users s now available total scheduled grants = (s', g) -> quiet s s'.
Proof.
  induction scheduled as [|u scheduled IH]; intros s grants s' g; simpl.
  - intros [= <- <-]. apply quiet_refl.
  - destruct (grant_user _ _ _ _ u) as [s1 o] eqn:E1. apply grant_user_quiet in E1.
    intros E2%IH. by eapply quiet_trans.
Qed.

Lemma account_quiet s id grant up down s' b :
  account s id grant up down = (s', b) -> quiet s s'.
Proof.
  unfold account. assert (quiet s (refund_rate s id grant up down)) as Hr.
  { unfold refund_rate. repeat case_match; settle. }
  destruct (charge_flow _ _ _ _) as [s1 r] eqn:Ec. intros [= <- <-].
  unfold charge_flow in Ec. repeat case_match; simplify_eq; settle.
Qed.

Lemma account_all_quiet used : forall s s' f, account_all s used = (s', f) -> quiet s s'.
Proof.
  induction used as [|[[[[[h id] g] up] down] over] used IH]; intros s s' f; simpl.
  - intros [= <- <-]. apply quiet_refl.
  - destruct (account _ _ _ _ _) as [s1 b] eqn:E1. apply account_quiet in E1.
    destruct (account_all s1 used) as [s2 f2] eqn:E2. apply IH in E2.
    intros [= <- <-]. by eapply quiet_trans.
Qed.

Lemma move_bytes_quiet s ios dgs grants s' : @move_bytes _ _ E s ios dgs grants = Some s' -> quiet s s'.
Proof.
  unfold move_bytes. intros ([polled1 used1] & _ & Hs)%bind_Some.
  destruct (account_all s used1) as [s1 f1] eqn:E1. apply account_all_quiet in E1.
  destruct (poll_datagram_flows _ _ _) as [polled2 used2].
  destruct (account_all _ used2) as [s2 f2] eqn:E2. apply account_all_quiet in E2. simplify_eq.
  eapply quiet_eq; [eapply quiet_trans; [exact E1|eapply quiet_trans; [|exact E2]]|done|done]. settle.
Qed.

(** Sessions may disappear, and those that stay keep their standing and what they
    have received. *)
Definition retained (p p' : PolicySession.t) : Prop :=
  same_standing p p' /\ decoder_of p' = decoder_of p.

Definition keeps (s s' : State.t) : Prop :=
  (forall h p', State.sessions s' !! h = Some p' ->
     exists p, State.sessions s !! h = Some p /\ retained p p') /\
  (forall v, answered s' v -> answered s v).

Lemma quiet_keeps s s' : quiet s s' -> keeps s s'.
Proof. intros [Hs Ha]. split; [|done]. intros h p'. rewrite Hs. by exists p'. Qed.

Lemma subseteq_keeps s s' :
  State.sessions s' ⊆ State.sessions s -> State.storage s' = State.storage s -> keeps s s'.
Proof.
  intros Hs Hw. split.
  - intros h p' Hp. exists p'. split; [by eapply lookup_weaken|done].
  - unfold answered. by rewrite Hw.
Qed.

Lemma keeps_trans s1 s2 s3 : keeps s1 s2 -> keeps s2 s3 -> keeps s1 s3.
Proof.
  intros [H1 A1] [H2 A2]. split; [|auto]. intros h p3 Hp3.
  destruct (H2 _ _ Hp3) as (p2 & Hp2 & (? & ? & ?) & ?). destruct (H1 _ _ Hp2) as (p1 & Hp1 & (? & ? & ?) & ?).
  exists p1. split; [done|]. split; [split_and!|]; congruence.
Qed.

Lemma fold_quiet {A} (f : State.t -> A -> State.t) l :
  (forall s a, quiet s (f s a)) -> forall s, quiet s (fold_left f l s).
Proof.
  intros Hf. induction l as [|a l IH]; intros s; simpl; [apply quiet_refl|].
  eapply quiet_trans; [apply Hf|apply IH].
Qed.

Lemma apply_admin_mutation_keeps s utc m : keeps s (apply_admin_mutation s utc m).
Proof.
  unfold apply_admin_mutation.
  assert (H1 : quiet s (fold_left apply_user (AdminMutation.users m) s)).
  { apply fold_quiet. intros s0 [id u]. unfold apply_user, evict_user. repeat case_match; settle. }
  set (s1 := fold_left apply_user _ _) in *.
  assert (H2 : quiet s1 (fold_left apply_credential (AdminMutation.credentials m) s1)).
  { apply fold_quiet. intros s0 [id u]. settle. }
  set (s2 := fold_left apply_credential _ _) in *.
  assert (H3 : quiet s2 (fold_left apply_rules (AdminMutation.rules m) s2)).
  { apply fold_quiet. intros s0 [id u]. settle. }
  set (s3 := fold_left apply_rules _ _) in *.
  assert (H4 : quiet s3 (apply_active_rules (AdminMutation.active_rule_profiles m) s3)).
  { unfold apply_active_rules. case_if; settle. }
  set (s4 := apply_active_rules _ s3) in *.
  eapply keeps_trans; [apply quiet_keeps; eapply quiet_trans; [exact H1|eapply quiet_trans;
    [exact H2|eapply quiet_trans; [exact H3|exact H4]]]|].
  set (s5 := match AdminMutation.disconnect m with
             | Some session => State.set_sessions s4 (base.delete session (State.sessions s4))
             | None => s4
             end).
  assert (H5 : keeps s4 s5).
  { apply subseteq_keeps; unfold s5; case_match; try done. apply delete_subseteq. }
  eapply keeps_trans; [exact H5|]. eapply keeps_trans.
  - apply (subseteq_keeps s5 (stop_users (stopped_by utc m) s5)); unfold stop_users; case_if; try done.
    apply map_filter_subseteq.
  - apply subseteq_keeps; unfold revoke_credentials; case_if; try done. apply map_filter_subseteq.
Qed.

Lemma start_request_quiet s fill utc request s' r :
  start_request s fill utc request = (s', r) -> quiet s s'.
Proof.
  unfold start_request. case_if; [intros [= <- <-]; apply quiet_refl|].
  destruct (ControlRequest.parse request) as [q|]; [|intros [= <- <-]; apply quiet_refl].
  assert (Hread : forall key kind, start_read s request key kind = (s', r) -> quiet s s').
  { intros key kind. unfold start_read. destruct (StorageWorker.get _ _) as [w [n|e]] eqn:Eg;
      intros [= <- <-]; apply get_answered in Eg; apply (quiet_storage s) in Eg; settle. }
  assert (Hwrite : forall c n h, start_write s fill utc request q c n h = (s', r) -> quiet s s').
  { intros c n h. unfold start_write.
    destruct (prepare_admin_mutation _ _ _ _); [|intros [= <- <-]; apply quiet_refl].
    destruct (AdminSequencer.prepare_commit _ _ _ _ _); [|intros [= <- <-]; apply quiet_refl].
    destruct (StorageWorker.apply _ _) as [w k] eqn:Eg.
    assert (Hw : quiet s (State.set_storage s w)).
    { apply quiet_storage. unfold StorageWorker.apply in Eg.
      repeat (case_if_in Eg; [by simplify_eq|]). by eapply request_answered. }
    destruct k; intros [= <- <-]; settle. }
  assert (Hbackup : forall d, start_backup s request d = (s', r) -> quiet s s').
  { intros d. unfold start_backup. destruct (StorageWorker.backup _ _) as [w k] eqn:Eg.
    assert (Hw : quiet s (State.set_storage s w)).
    { apply quiet_storage. unfold StorageWorker.backup in Eg.
      case_if_in Eg; [by simplify_eq|]. by eapply request_answered. }
    destruct k; intros [= <- <-]; settle. }
  destruct q; eauto; (case_match; [case_match; eauto|]);
    repeat case_match; try (intros [= <- <-]; apply quiet_refl); eauto.
Qed.

Lemma control_keeps s fill utc request s' r :
  control_instance s fill utc request = (s', r) -> keeps s s'.
Proof.
  unfold control_instance, resume.
  destruct (State.pending_control s) as [pending|].
  2: { intros Hs%start_request_quiet. by apply quiet_keeps. }
  case_if; [intros [= <- <-]; apply quiet_keeps, quiet_refl|].
  set (s0 := State.set_pending_control s None).
  assert (H0 : quiet s s0) by (unfold s0; settle). clearbody s0.
  destruct pending as [p|p|p].
  - unfold resume_write. destruct (try_recv_write s0 _) as [s1 a] eqn:Ea.
    apply try_recv_write_quiet in Ea. pose proof (quiet_trans _ _ _ H0 Ea) as H1.
    destruct a; [|intros [= <- <-]; by apply quiet_keeps|intros [= <- <-]; apply quiet_keeps; settle].
    destruct (AdminSequencer.apply_commit _ _ _) as [q [[]|e]]; intros [= <- <-].
    + eapply keeps_trans; [|apply apply_admin_mutation_keeps]. apply quiet_keeps. settle.
    + apply quiet_keeps. settle.
  - unfold resume_read. destruct (try_recv_read s0 _) as [s1 a] eqn:Ea.
    apply try_recv_read_quiet in Ea as [Ea _]. pose proof (quiet_trans _ _ _ H0 Ea) as H1.
    destruct a; [|intros [= <- <-]; by apply quiet_keeps|intros [= <- <-]; apply quiet_keeps; settle].
    destruct (finish_admin_read s1 _ _) as [s2 x] eqn:Ef.
    assert (H2 : quiet s s2).
    { unfold finish_admin_read, evict_user in Ef. repeat case_match; simplify_eq; settle. }
    destruct x; [|intros [= <- <-]; by apply quiet_keeps].
    intros Hs%start_request_quiet. apply quiet_keeps. by eapply quiet_trans.
  - unfold resume_backup. destruct (try_recv_write s0 _) as [s1 a] eqn:Ea.
    apply try_recv_write_quiet in Ea. pose proof (quiet_trans _ _ _ H0 Ea) as H1.
    destruct a; intros [= <- <-]; apply quiet_keeps; settle.
Qed.

(** * Every operation keeps all sessions backed *)

(** [inputs] are the bytes the stream of each session has given. *)
Definition all_backed (inputs : Z -> bytes) (s : State.t) : Prop :=
  (forall v, answered s v -> seen v) /\
  (forall h p, State.sessions s !! h = Some p -> stands (inputs h) p).

Lemma retained_stands input p p' : retained p p' -> stands input p -> stands input p'.
Proof.
  intros [Hsame Hd] (messages & Hi & Hwf & Hb). exists messages. rewrite Hd.
  split_and!; [done..|]. by eapply same_standing_backed.
Qed.

Lemma keeps_backed inputs s s' : keeps s s' -> all_backed inputs s -> all_backed inputs s'.
Proof.
  intros [Hk Ha] [Hs Hb]. split; [auto|]. intros h p' (p & Hp & Hr)%Hk.
  eapply retained_stands; eauto.
Qed.

(** The bytes after a poll. *)
Definition fed (s : State.t) (env : environment (E := E)) (inputs : Z -> bytes) (h : Z) : bytes :=
  if State.maintenance s then inputs h
  else match State.sessions s !! h with
       | Some p => inputs h ++ fetched p (session_io env h)
       | None => inputs h
       end.

Lemma poll_sessions_backed now utc ios (inputs inputs' : Z -> bytes) handles :
  polled utc -> NoDup handles -> forall s,
  (forall v, answered s v -> seen v) ->
  (forall h p, State.sessions s !! h = Some p ->
     if decide (h ∈ handles) then stands (inputs h) p /\ inputs' h = inputs h ++ fetched p (ios h)
     else stands (inputs' h) p) ->
  all_backed inputs' (@poll_sessions _ _ _ _ _ _ _ E s now utc ios handles).
Proof.
  intros Hutc Hnd. induction Hnd as [|h handles Hh Hnd IH]; intros s Hs Hb; simpl.
  { split; [done|]. intros h p Hp. specialize (Hb h p Hp). destruct (decide _) as [H|]; [|done].
    by apply not_elem_of_nil in H. }
  destruct (State.sessions s !! h) as [p|] eqn:Ep.
  2: { apply IH; [done|]. intros k q Hq. specialize (Hb k q Hq).
       repeat destruct (decide _); try done; set_solver. }
  set (s0 := State.set_sessions s (base.delete h (State.sessions s))).
  pose proof (Hb h p Ep) as Hp. destruct (decide (h ∈ h :: handles)); [|set_solver].
  destruct Hp as [Hp Hin].
  pose proof (poll_session_sound s0 p now utc (ios h) _ Hs Hutc Hp) as Hpoll.
  destruct (poll_policy_session _ _ _ _ _) as [[s1 p1] r]. destruct Hpoll as [[Hs1 Ha1] Hb1].
  assert (Hold : forall h' p', State.sessions s1 !! h' = Some p' ->
    h' <> h /\ State.sessions s !! h' = Some p').
  { intros h' p'. rewrite Hs1. simpl. by intros [? ?]%lookup_delete_Some. }
  assert (Hrest : forall k q, k <> h -> State.sessions s !! k = Some q ->
    if decide (k ∈ handles) then stands (inputs k) q /\ inputs' k = inputs k ++ fetched q (ios k)
    else stands (inputs' k) q).
  { intros k q Hk Hq. specialize (Hb k q Hq). repeat destruct (decide _); try done; set_solver. }
  apply IH; destruct (is_ok r); try (intros v Hv; apply Hs, Ha1, Hv).
  - intros k q. simpl. intros [[<- <-]|[Hk [_ Hl]%Hold]]%lookup_insert_Some; [|by apply Hrest].
    rewrite decide_False by done. rewrite Hin. by apply Hb1.
  - intros k q [? ?]%Hold. by apply Hrest.
Qed.

Lemma poll_instance_backed s env s' status inputs :
  polled (now_utc env) -> all_backed inputs s ->
  @poll_instance _ _ _ _ _ _ _ _ E s env = Some (s', status) -> all_backed (fed s env inputs) s'.
Proof.
  intros Hutc Hb. unfold poll_instance, assign_grants, fed.
  destruct (State.maintenance s); [by intros [= <- <-]|].
  pose proof (stop_expired_quiet s (now_nanos env) (now_utc env)) as H1.
  set (s1 := stop_expired s _ _) in *. destruct (schedule s1) as [s2 scheduled] eqn:E2.
  assert (H2 : quiet s1 s2).
  { unfold schedule in E2. case_if_in E2; simplify_eq; settle. }
  destruct (global_available s2 _) as [s3 available] eqn:E3.
  assert (H3 : quiet s2 s3).
  { unfold global_available in E3. repeat case_match; simplify_eq; settle. }
  destruct (grant_users s3 _ _ _ _ _) as [s4 grants] eqn:E4. apply grant_users_quiet in E4.
  intros (s5 & E5%move_bytes_quiet & [= <- _])%bind_Some.
  assert (Hq : quiet s s5) by eauto using quiet_trans.
  set (s6 := poll_sessions s5 _ _ _ _).
  apply (keeps_backed _ s6); [apply quiet_keeps; unfold retain_flows; settle|].
  destruct Hq as [Hsess Hans]. destruct Hb as [Hs Hb]. unfold s6. rewrite Hsess.
  apply (poll_sessions_backed _ _ _ inputs); [done| |by auto|].
  - rewrite hash_order_perm. apply NoDup_fst_map_to_list.
  - intros h p. rewrite Hsess. intros Hp. rewrite Hp, decide_True; [by split; [apply Hb|]|].
    rewrite hash_order_perm. apply list_elem_of_fmap. exists (h, p).
    split; [done|]. by apply elem_of_map_to_list.
Qed.

Lemma greet_decoder s role c c' :
  @greet _ E s role c = Ok c' -> SessionChannel.decoder c' = SessionChannel.decoder c.
Proof.
  unfold greet, SessionChannel.queue_secret, SessionChannel.queue_frame.
  intros. by repeat case_match; simplify_eq.
Qed.

Lemma channel_new_wf limit c :
  @SessionChannel.new E limit = Ok c -> 0 <= limit ->
  SessionChannel.decoder c = mkDecoder [] None limit /\ Frame.wf (mkDecoder [] None limit).
Proof.
  unfold SessionChannel.new, Frame.new. case_if; [done|]. intros [= <-] Hl. bools.
  split; [done|]. unfold Frame.wf, len. simpl. lia.
Qed.

(** The bytes after an attachment: the new session has none. *)
Definition opened (handle : option Z) (inputs : Z -> bytes) (h : Z) : bytes :=
  if decide (handle = Some h) then [] else inputs h.

Lemma attach_session_backed s next now raw context s' next' status handle inputs :
  0 <= Options.max_control_frame_bytes (State.options s) -> all_backed inputs s ->
  @attach_session _ _ E s next now raw context = (s', next', status, handle) ->
  all_backed (opened handle inputs) s'.
Proof.
  intros Hlim [Hs Hb] Ha. unfold opened, attach_session, fetch_add in *.
  repeat (case_match; simplify_eq; try (split; [done|]; intros h p Hp; by apply Hb)).
  split; [done|]. intros h p. simpl. intros [[<- <-]|[Hne Hl]]%lookup_insert_Some.
  2: { rewrite decide_False by congruence. by apply Hb. }
  rewrite decide_True by done. exists []. unfold decoder_of. simpl.
  match goal with Hg : greet _ _ _ = Ok _ |- _ => apply greet_decoder in Hg; rewrite Hg end.
  match goal with Hn : SessionChannel.new _ = Ok _ |- _ => apply channel_new_wf in Hn as [-> Hwf]; [|done] end.
  by split_and!.
Qed.

Lemma update_session_keeps s h p p' :
  State.sessions s !! h = Some p -> retained p p' ->
  keeps s (State.set_sessions s (<[h := p']> (State.sessions s))).
Proof.
  intros Hp Hsame. split; [|done]. intros h0 p0. simpl.
  intros [[<- <-]|[_ Hl]]%lookup_insert_Some; [by exists p|by exists p0].
Qed.

Lemma admit_flow_keeps s session utc metadata s' status :
  admit_flow s session utc metadata = (s', status) -> keeps s s'.
Proof.
  unfold admit_flow. case_if; [intros [= <- <-]; apply quiet_keeps, quiet_refl|].
  destruct (flow_session s session) as [[p id]|] eqn:Ef;
    [|intros [= <- <-]; apply quiet_keeps, quiet_refl].
  assert (Hp : State.sessions s !! session = Some p).
  { unfold flow_session in Ef. repeat case_match; simplify_eq; done. }
  repeat case_match; intros [= <- <-]; try (apply quiet_keeps, quiet_refl).
  by eapply update_session_keeps.
Qed.

Lemma take_identity_keeps s session s' r : take_identity s session = (s', r) -> keeps s s'.
Proof.
  unfold take_identity. repeat case_match; intros [= <- <-]; try (apply quiet_keeps, quiet_refl).
  by eapply update_session_keeps.
Qed.

Lemma attach_flow_keeps s next now session raw pumps s' next' status :
  attach_flow s next now session raw pumps = (s', next', status) -> keeps s s'.
Proof.
  unfold attach_flow, fetch_add. case_if; [intros [= <- <- <-]; apply quiet_keeps, quiet_refl|].
  destruct (take_identity s session) as [s1 r] eqn:Et. apply take_identity_keeps in Et.
  repeat case_match; intros [= <- <- <-]; done.
Qed.

Lemma attach_datagram_flow_keeps s next session raw pumps s' next' status :
  attach_datagram_flow s next session raw pumps = (s', next', status) -> keeps s s'.
Proof.
  unfold attach_datagram_flow, fetch_add.
  case_if; [intros [= <- <- <-]; apply quiet_keeps, quiet_refl|].
  destruct (take_identity s session) as [s1 r] eqn:Et. apply take_identity_keeps in Et.
  repeat case_match; intros [= <- <- <-]; done.
Qed.

Lemma shutdown_keeps s now s' status : shutdown_instance s now = (Some s', status) -> keeps s s'.
Proof.
  unfold shutdown_instance.
  set (s0 := if State.shutting_down s then s else State.set_datagram_flows (State.set_flows
    (State.set_sessions (State.set_shutting_down s true) ∅) ∅) ∅).
  assert (H0 : keeps s s0).
  { unfold s0. case_if; [apply quiet_keeps, quiet_refl|]. apply subseteq_keeps; [|done].
    apply map_empty_subseteq. }
  destruct (advance_quota s0 now) as [s1 st] eqn:E1. apply advance_quota_quiet in E1.
  pose proof (keeps_trans _ _ _ H0 (quiet_keeps _ _ E1)) as H1.
  case_if; [by intros [= <- <-]|].
  destruct (StorageWorker.poll_shutdown (State.storage s1)) as [w r] eqn:E2.
  assert (H2 : quiet s1 (State.set_storage s1 w)).
  { unfold StorageWorker.poll_shutdown, StorageWorker.start_shutdown in E2.
    destruct (is_some _).
    - repeat case_match; simplify_eq; try (by apply quiet_storage);
        match goal with H : StorageWorker.try_recv _ _ = _ |- _ => by apply quiet_recv in H end.
    - destruct (StorageWorker.request _ _) as [w1 [n|e]] eqn:E3; apply request_answered in E3.
      + simpl in E2. destruct (StorageWorker.try_recv _ n) as [w2 a] eqn:E4.
        assert (H4 := quiet_recv (State.set_storage s1 (StorageWorker.set_stopping w1 (Some n))) _ _ _ E4).
        assert (H3 : quiet s1 (State.set_storage s1 (StorageWorker.set_stopping w1 (Some n))))
          by by apply quiet_storage.
        pose proof (quiet_trans _ _ _ H3 H4) as H5.
        repeat case_match; simplify_eq; (eapply quiet_eq; [exact H5|done|]); done.
      + simplify_eq. by apply quiet_storage. }
  intros Hs. eapply keeps_trans; [exact H1|]. apply quiet_keeps.
  repeat case_match; simplify_eq; done.
Qed.
End evidence.

(** * Runs of an instance *)

(** One call of the host, or one command served by the storage thread, at UTC
    time [utc]. *)
Inductive step (utc : Z) : State.t -> State.t -> Prop :=
| step_poll s env s' status :
    now_utc env = utc -> @poll_instance _ _ _ _ _ _ _ _ E s env = Some (s', status) -> step utc s s'
| step_control s fill request s' r :
    control_instance s fill utc request = (s', r) -> step utc s s'
| step_attach_session s next now raw context s' next' status handle :
    @attach_session _ _ E s next now raw context = (s', next', status, handle) -> step utc s s'
| step_admit_flow s session metadata s' status :
    admit_flow s session utc metadata = (s', status) -> step utc s s'
| step_attach_flow s next now session raw pumps s' next' status :
    attach_flow s next now session raw pumps = (s', next', status) -> step utc s s'
| step_attach_datagram_flow s next session raw pumps s' next' status :
    attach_datagram_flow s next session raw pumps = (s', next', status) -> step utc s s'
| step_shutdown s now s' status :
    shutdown_instance s now = (Some s', status) -> step utc s s'
| step_storage s copied reopened :
    step utc s (State.set_storage s (StorageWorker.run_step copied reopened (State.storage s))).

(** The same steps with what the sessions have read: the bytes that the stream of
    each session has given go from [inputs] to those after the step.  A frame limit
    is a [usize]. *)
Inductive move (utc : Z) (inputs : Z -> bytes) : State.t -> (Z -> bytes) -> State.t -> Prop :=
| move_poll s env s' status :
    now_utc env = utc -> @poll_instance _ _ _ _ _ _ _ _ E s env = Some (s', status) ->
    move utc inputs s (fed s env inputs) s'
| move_control s fill request s' r :
    control_instance s fill utc request = (s', r) -> move utc inputs s inputs s'
| move_attach_session s next now raw context s' next' status handle :
    0 <= Options.max_control_frame_bytes (State.options s) ->
    @attach_session _ _ E s next now raw context = (s', next', status, handle) ->
    move utc inputs s (opened handle inputs) s'
| move_admit_flow s session metadata s' status :
    admit_flow s session utc metadata = (s', status) -> move utc inputs s inputs s'
| move_attach_flow s next now session raw pumps s' next' status :
    attach_flow s next now session raw pumps = (s', next', status) -> move utc inputs s inputs s'
| move_attach_datagram_flow s next session raw pumps s' next' status :
    attach_datagram_flow s next session raw pumps = (s', next', status) -> move utc inputs s inputs s'
| move_shutdown s now s' status :
    shutdown_instance s now = (Some s', status) -> move utc inputs s inputs s'
| move_storage s copied reopened :
    move utc inputs s inputs
      (State.set_storage s (StorageWorker.run_step copied reopened (State.storage s))).

Lemma move_step utc inputs s inputs' s' : move utc inputs s inputs' s' -> step utc s s'.
Proof.
  destruct 1; eauto using step_poll, step_control, step_attach_session, step_admit_flow, step_attach_flow,
    step_attach_datagram_flow, step_shutdown, step_storage.
Qed.

(** A run from a start without sessions, with the values the storage answered on
    the way, the times of the steps, and the bytes each session has been given
    since it was attached. *)
Inductive reach : (bytes -> Prop) -> (Z -> Prop) -> (Z -> bytes) -> State.t -> Prop :=
| reach_start s : State.sessions s = ∅ -> reach (answered s) (fun _ => False) (fun _ => []) s
| reach_step seen polled inputs utc s inputs' s' :
    reach seen polled inputs s -> move utc inputs s inputs' s' ->
    reach (fun v => seen v \/ answered s' v) (fun t => polled t \/ t = utc) inputs' s'.

Lemma backed_mono (seen seen' : bytes -> Prop) (polled polled' : Z -> Prop) messages p :
  (forall v, seen v -> seen' v) -> (forall t, polled t -> polled' t) ->
  backed seen polled messages p -> backed seen' polled' messages p.
Proof.
  intros Hs Hp Hb Hr. specialize (Hb Hr).
  assert (Hc : forall d id, credential_evidence seen d id -> credential_evidence seen' d id).
  { intros d id (v & c & Hv & ?). exists v, c. auto. }
  assert (Hu : forall id, user_evidence seen polled id -> user_evidence seen' polled' id).
  { intros id (v & u & t & Hv & Ht & ?). exists v, u, t. auto. }
  destruct (PolicySession.auth p); naive_solver.
Qed.

Lemma stands_mono (seen seen' : bytes -> Prop) (polled polled' : Z -> Prop) input p :
  (forall v, seen v -> seen' v) -> (forall t, polled t -> polled' t) ->
  stands seen polled input p -> stands seen' polled' input p.
Proof. intros Hs Hp (messages & ? & ? & ?). exists messages. eauto using backed_mono. Qed.

Lemma move_backed (seen : bytes -> Prop) (polled : Z -> Prop) utc inputs s inputs' s' :
  move utc inputs s inputs' s' -> polled utc -> all_backed seen polled inputs s ->
  (forall v, answered s' v -> seen v) -> all_backed seen polled inputs' s'.
Proof.
  intros Hstep Hutc Hb Hv. destruct Hstep.
  - eapply poll_instance_backed; [|done..]. by subst.
  - eapply keeps_backed; [by eapply control_keeps|done].
  - by eapply attach_session_backed.
  - eapply keeps_backed; [by eapply admit_flow_keeps|done].
  - eapply keeps_backed; [by eapply attach_flow_keeps|done].
  - eapply keeps_backed; [by eapply attach_datagram_flow_keeps|done].
  - eapply keeps_backed; [by eapply shutdown_keeps|done].
  - split; [done|]. by destruct Hb.
Qed.

Lemma reach_backed seen polled inputs s : reach seen polled inputs s -> all_backed seen polled inputs s.
Proof.
  induction 1 as [s Hs|seen polled inputs utc s inputs' s' Hr [IHa IHb] Hstep].
  - split; [done|]. intros h p. by rewrite Hs, lookup_empty.
  - eapply move_backed; [done|by right| |by right]. split; [by left; apply IHa|].
    intros h p Hp. eapply stands_mono; [| |by eapply IHb]; by left.
Qed.

(** C2: no authentication without evidence.  In every reachable state, a server
    session that counts as authenticated as a user was sent, on its own stream and
    since it was attached, a frame with a well-formed authentication request whose
    secret has the digest the session records; and on the way the storage answered a
    credential record with that digest that is not revoked and names the user, and a
    record of that very user which was available (enabled, not expired, within its
    schedule and its quota) at the time of one of the steps. *)
Theorem authenticated_backed seen polled inputs s h p id :
  reach seen polled inputs s -> State.sessions s !! h = Some p ->
  PolicySession.role p = PolicyRole.Server -> PolicySession.auth p = AuthState.Authenticated id ->
  exists messages rest digest, inputs h = encodings messages ++ rest /\ presented messages digest /\
    PolicySession.credential_digest p = Some digest /\
    credential_evidence seen digest id /\ user_evidence seen polled id.
Proof.
  intros [_ Hb]%reach_backed Hp Hr Ha. destruct (Hb _ _ Hp) as (messages & Hi & _ & Hback).
  specialize (Hback Hr). rewrite Ha in Hback. destruct Hback as (digest & ? & ? & ? & ?).
  by exists messages, (buffer (decoder_of p)), digest.
Qed.
End facts.

(** * A concrete run *)
Import World.

(** The digest of the secret of the example, and the records stored for it. *)
Definition example_digest : str :=
  match Credential.parse_hex secret with
  | Ok credential => CredentialDigest.hex (Credential.digest_id credential)
  | Err _ => []
  end.
Definition example_database : gmap str bytes :=
  <[credential_key example_digest :=
      unwrap_or (to_allocvec (CredentialRecord.mk example_digest alice false 1)) []]>
  {[user_key alice := match encode_user_record alice_user with Ok v => v | Err _ => [] end]}.

Definition example_frame : bytes :=
  match Frame.encode_frame auth_document 4096 with Ok frame => frame | Err _ => [] end.

(** An instance starts, a client attaches, sends its secret, and the storage answers the three
    requests of the authentication. *)
Definition run0 : State.t :=
  match initialize (fun _ => None) (Ok (example_database : database)) [] #"/" with
  | Ok s => s
  | Err _ => server alice_user
  end.
Definition run1 : State.t := fst (fst (fst (@attach_session _ _ unit run0 1 0 true []))).
Definition run2 : State.t := serve (poll_with 1 example_frame run1).
Definition run3 : State.t := serve (poll_with 2 [] run2).
Definition run4 : State.t := serve (poll_with 3 [] run3).
Definition run5 : State.t := poll_with 4 [] run4.

Lemma run0_started :
  initialize (fun _ => None) (Ok (example_database : database)) [] #"/" = Ok run0.
Proof.
  unfold run0. destruct (initialize _ _ _ _) eqn:Hi; [done|].
  apply (f_equal is_ok) in Hi. vm_compute in Hi. done.
Qed.

(** The steps of the run. *)
Definition next (s s' : State.t) : Prop :=
  forall inputs, exists inputs', move (E := unit) 1000 inputs s inputs' s'.

Lemma next_step s s' : next s s' -> exists utc, step (E := unit) utc s s'.
Proof. intros H. destruct (H (fun _ => [])) as [inputs' Hm]. exists 1000. by eapply move_step. Qed.

Lemma next_poll now input s :
  is_some (poll_instance s (environment_of now input)) = true -> next s (poll_with now input s).
Proof.
  intros [status Hs]%poll_with_Some inputs. eexists.
  by eapply (move_poll 1000 inputs s (environment_of now input)).
Qed.

Lemma next_serve s : next s (serve s).
Proof. intros inputs. eexists. apply move_storage. Qed.

Lemma run1_next : next run0 run1.
Proof.
  intros inputs. unfold run1.
  destruct (attach_session run0 1 0 true []) as [[[s n] status] h] eqn:Ea.
  eexists. eapply move_attach_session; [|exact Ea]. vm_compute. discriminate.
Qed.

Lemma run5_reached : rtc next run0 run5.
Proof.
  unfold run5, run4, run3, run2. eapply rtc_l; [apply run1_next|].
  eapply rtc_l; [apply (next_poll 1 example_frame); vm_compute; reflexivity|].
  eapply rtc_l; [apply next_serve|].
  eapply rtc_l; [apply (next_poll 2 []); vm_compute; reflexivity|].
  eapply rtc_l; [apply next_serve|].
  eapply rtc_l; [apply (next_poll 3 []); vm_compute; reflexivity|].
  eapply rtc_l; [apply next_serve|].
  eapply rtc_l; [apply (next_poll 4 []); vm_compute; reflexivity|].
  apply rtc_refl.
Qed.

Lemma reach_run s s' seen polled inputs :
  rtc next s s' -> reach (E := unit) seen polled inputs s ->
  exists seen' polled' inputs', reach (E := unit) seen' polled' inputs' s'.
Proof.
  intros Hrun. revert seen polled inputs. induction Hrun as [|s1 s2 s3 Hs _ IH]; intros seen polled inputs Hr.
  - by exists seen, polled, inputs.
  - destruct (Hs inputs) as [inputs' Hstep]. eapply IH. by eapply reach_step.
Qed.

Lemma example_reached : exists seen polled inputs, reach (E := unit) seen polled inputs run5.
Proof. eapply reach_run; [apply run5_reached|]. apply reach_start. vm_compute. reflexivity. Qed.

Lemma authenticated_backed_witness :
  (PolicySession.auth <$> State.sessions run5 !! 1) = Some (AuthState.Authenticated alice) /\
  exists seen polled (inputs : Z -> bytes) messages rest digest,
    inputs 1 = encodings messages ++ rest /\ presented (E := unit) messages digest /\
    credential_evidence seen digest alice /\ user_evidence seen polled alice.
Proof.
  assert (Ha : (PolicySession.auth <$> State.sessions run5 !! 1) = Some (AuthState.Authenticated alice))
    by (vm_compute; reflexivity).
  assert (Hr : (PolicySession.role <$> State.sessions run5 !! 1) = Some PolicyRole.Server)
    by (vm_compute; reflexivity).
  split; [exact Ha|]. destruct example_reached as (seen & polled & inputs & R).
  destruct (State.sessions run5 !! 1) as [p|] eqn:Ep; [|discriminate]. simpl in Ha, Hr.
  destruct (authenticated_backed (E := unit) seen polled inputs run5 1 p alice R Ep)
    as (messages & rest & d & Hi & H1 & _ & H2 & H3); [congruence..|].
  exists seen, polled, inputs, messages, rest, d. exact (conj Hi (conj H1 (conj H2 H3))).
Defined.
