(* ===== verification/CacheFacts.v ===== *)
(** The cache of user records (Policy.v): every record in memory, and every
    record on its way to or from the storage, is filed under its own user. *)
From Stdlib Require Import Strings.Byte.
From S2P Require Import Prelude Text Net Frame Accounting Admin Config Sniff Service Storage Rules Flow State Traffic Session Control Policy Scenario SessionFacts.
#[local] Open Scope Z_scope.

(** The records of an account's pending writes belong to its user. *)
Definition account_keyed (id : str) (t : UserTraffic.t) : Prop :=
  (forall d, UserTraffic.debit t = Some d -> UserRecord.id (PendingDebit.record d) = id) /\
  (forall r, UserTraffic.refund t = Some r -> UserRecord.id (PendingRefund.record r) = id).

Definition mutation_keyed (m : AdminMutation.t) : Prop :=
  forall id user, (id, Some user) ∈ AdminMutation.users m -> UserRecord.id user = id.

Section facts.
Context `{HR : Redb, HS : Sha256, HO : HashOrder, HP1 : Postcard StoredUserRecord.t,
  HP2 : Postcard CredentialRecord.t, HP3 : Postcard Receipt.t, HT1 : Toml ControlRequest.t,
  HT2 : Toml Rules.t, HT3 : Toml ClientRequest.t, HT4 : Toml ServerStatus.t,
  HT5 : Toml ChannelSecurity.t, HX1 : TomlPrint MutationResponse.t,
  HX2 : TomlPrint UsageResponse.t, HX3 : TomlPrint SessionsResponse.t,
  HX4 : TomlPrint BackupResponse.t, HX5 : TomlPrint PolicyStatus.t}.
Context {E : Type}.

Definition keyed (s : State.t) : Prop :=
  (forall id user, user_of s id = Some user -> UserRecord.id user = id) /\
  (forall id t, State.traffic s !! id = Some t -> account_keyed id t) /\
  (forall p, State.pending_control s = Some (PendingControl.Write p) ->
     mutation_keyed (PendingWrite.mutation p)).

(** ** Updates *)

Lemma keyed_eq s s' :
  keyed s -> AdminState.users (State.admin s') = AdminState.users (State.admin s) ->
  State.traffic s' = State.traffic s -> State.pending_control s' = State.pending_control s ->
  keyed s'.
Proof. unfold keyed, user_of. intros Hk -> -> ->. exact Hk. Qed.

Lemma keyed_traffic s id t : keyed s -> account_keyed id t -> keyed (set_user_traffic s id t).
Proof.
  intros (Hu & Ht & Hp) Hid. split_and!; [done| |done]. intros id' t'. simpl.
  intros [[<- <-]|[_ Hl]]%lookup_insert_Some; [done|eauto].
Qed.

Lemma keyed_user s id user :
  keyed s -> UserRecord.id user = id -> keyed (with_users s (fun m => <[id := user]> m)).
Proof.
  intros (Hu & Ht & Hp) Hid. split_and!; [|done..]. intros id' user'. unfold user_of. simpl.
  intros [[<- <-]|[_ Hl]]%lookup_insert_Some; [done|by apply Hu].
Qed.

Lemma keyed_subset s s' :
  keyed s -> AdminState.users (State.admin s') ⊆ AdminState.users (State.admin s) ->
  State.traffic s' ⊆ State.traffic s -> State.pending_control s' = State.pending_control s ->
  keyed s'.
Proof.
  intros (Hu & Ht & Hp) Hu' Ht' Hp'. split_and!.
  - intros id user Hl. apply Hu. unfold user_of in *. by eapply lookup_weaken.
  - intros id t Hl. apply Ht. by eapply lookup_weaken.
  - by rewrite Hp'.
Qed.

Ltac same :=
  match goal with H : keyed _ |- _ => apply (keyed_eq _ _ H); [done|done|done] end.

Lemma try_recv_write_keyed s n s' a : try_recv_write s n = (s', a) -> keyed s -> keyed s'.
Proof.
  unfold try_recv_write. destruct (StorageWorker.try_recv _ _) as [w r].
  intros Hs Hk. repeat case_match; simplify_eq; same.
Qed.

Lemma try_recv_read_keyed s n s' a : try_recv_read s n = (s', a) -> keyed s -> keyed s'.
Proof.
  unfold try_recv_read. destruct (StorageWorker.try_recv _ _) as [w r].
  intros Hs Hk. repeat case_match; simplify_eq; same.
Qed.

(** ** Accounts *)

Lemma account_keyed_none id t :
  UserTraffic.debit t = None -> UserTraffic.refund t = None -> account_keyed id t.
Proof. intros H1 H2. split; intros ?; congruence. Qed.

Lemma open_traffic_keyed s now id active s' v :
  open_traffic s now id active = (s', v) -> keyed s -> keyed s'.
Proof.
  unfold open_traffic. intros Hs Hk. case_if_in Hs; [by simplify_eq|]. case_if_in Hs; [by simplify_eq|].
  destruct (user_of s id) as [u|]; [|by simplify_eq].
  destruct (new_traffic s now u) as [t|] eqn:En; simplify_eq; [|done].
  apply keyed_traffic; [done|]. unfold new_traffic in En. repeat case_match; simplify_eq;
    by apply account_keyed_none.
Qed.

Lemma settle_debit_keyed s id t s' v :
  settle_debit s id t = (s', v) -> account_keyed id t -> keyed s -> keyed s'.
Proof.
  unfold settle_debit. intros Hs [Hd Hr] Hk. destruct (UserTraffic.debit t) as [d|] eqn:Ed;
    [|by simplify_eq].
  destruct (try_recv_write s _) as [s1 a] eqn:Er. apply try_recv_write_keyed in Er; [|done].
  destruct a; [destruct (QuotaAccount.commit_credit _ _) as [q r]; case_if_in Hs|..]; simplify_eq.
  2: { apply keyed_user; [|auto]. apply keyed_traffic; [done|]. by split. }
  all: apply keyed_traffic; [done|]; by split.
Qed.

Lemma settle_refund_keyed s now id active t s' v :
  settle_refund s now id active t = (s', v) -> account_keyed id t -> keyed s -> keyed s'.
Proof.
  unfold settle_refund. intros Hs [Hd Hr] Hk. destruct (UserTraffic.refund t) as [d|] eqn:Ed;
    [|by simplify_eq].
  destruct (try_recv_write s _) as [s1 a] eqn:Er. apply try_recv_write_keyed in Er; [|done].
  destruct a; [destruct (QuotaAccount.commit_refund _ _) as [q r]; case_if_in Hs|..]; simplify_eq.
  2: { apply keyed_user; [|auto]. apply keyed_traffic; [done|]. by split. }
  all: apply keyed_traffic; [done|]; by split.
Qed.

Lemma put_charged_keyed s id f s' o :
  put_charged s id f = (s', o) -> keyed s ->
  keyed s' /\ forall record reply, o = Some (record, reply) -> UserRecord.id record = id.
Proof.
  unfold put_charged. intros Hs Hk. destruct (user_of s id) as [u|] eqn:Eu; [|by simplify_eq].
  apply (proj1 Hk) in Eu. destruct (f _); [|by simplify_eq].
  destruct (encode_user_record _); [|by simplify_eq].
  destruct (StorageWorker.put _ _ _) as [w [n|e]]; simplify_eq; (split; [same|]); [|done].
  intros record reply [= <- _]. done.
Qed.

Lemma start_refund_keyed s now id active t s' v :
  start_refund s now id active t = (s', v) -> account_keyed id t -> keyed s -> keyed s'.
Proof.
  unfold start_refund. intros Hs [Hd Hr] Hk.
  destruct (QuotaAccount.request_refund _) as [q [n|e]].
  - destruct (put_charged s id _) as [s1 o] eqn:Ep. apply put_charged_keyed in Ep as [Hk1 Ho]; [|done].
    destruct o as [[record reply]|]; simplify_eq; (apply keyed_traffic; [done|]); [|by split].
    split; [done|]. simpl. intros r [= <-]. by eapply Ho.
  - repeat case_match; simplify_eq; (apply keyed_traffic; [done|]); by split.
Qed.

Lemma start_debit_keyed s id t s' v :
  start_debit s id t = (s', v) -> account_keyed id t -> keyed s -> keyed s'.
Proof.
  unfold start_debit. intros Hs [Hd Hr] Hk.
  destruct (QuotaAccount.request_credit _) as [q [n|e]].
  - destruct (put_charged s id _) as [s1 o] eqn:Ep. apply put_charged_keyed in Ep as [Hk1 Ho]; [|done].
    destruct o as [[record reply]|]; simplify_eq; (apply keyed_traffic; [done|]); [|by split].
    split; [|done]. simpl. intros r [= <-]. by eapply Ho.
  - repeat case_match; simplify_eq; (apply keyed_traffic; [done|]); by split.
Qed.

Lemma advance_user_keyed s now id active s' v :
  advance_user s now id active = (s', v) -> keyed s -> keyed s'.
Proof.
  unfold advance_user. intros Hs Hk.
  destruct (open_traffic s now id active) as [s1 o1] eqn:E1. apply open_traffic_keyed in E1; [|done].
  destruct o1; [by simplify_eq|].
  destruct (State.traffic s1 !! id) as [t1|] eqn:T1; [|by simplify_eq].
  destruct (UserTraffic.failed t1); [by simplify_eq|].
  destruct (settle_debit s1 id t1) as [s2 o2] eqn:E2.
  apply settle_debit_keyed in E2; [|by eapply E1|done]. destruct o2; [by simplify_eq|].
  destruct (State.traffic s2 !! id) as [t2|] eqn:T2; [|by simplify_eq].
  destruct (settle_refund s2 now id active t2) as [s3 o3] eqn:E3.
  apply settle_refund_keyed in E3; [|by eapply E2|done]. destruct o3; [by simplify_eq|].
  destruct (State.traffic s3 !! id) as [t3|] eqn:T3; [|by simplify_eq].
  assert (account_keyed id t3) by by eapply E3. simpl in Hs.
  repeat case_if_in Hs; simplify_eq; eauto using start_refund_keyed, start_debit_keyed.
Qed.

Lemma advance_users_keyed users : forall s now active s' st rm,
  advance_users s now active users = (s', st, rm) -> keyed s -> keyed s'.
Proof.
  induction users as [|u users IH]; intros s now active s' st rm; simpl; [by intros [= <- <- <-]|].
  destruct (advance_user _ _ _ _) as [s1 v] eqn:E1.
  destruct (advance_users s1 now active users) as [[s2 st2] rm2] eqn:E2.
  intros [= <- <- <-] Hk. eapply IH; [exact E2|]. by eapply advance_user_keyed.
Qed.

Lemma advance_quota_keyed s now s' st : advance_quota s now = (s', st) -> keyed s -> keyed s'.
Proof.
  unfold advance_quota. intros Hs Hk.
  destruct (advance_users _ _ _ _) as [[s1 st1] rm] eqn:E1. simplify_eq.
  apply advance_users_keyed in E1; [|done]. clear Hk. revert s1 E1.
  induction rm as [|u rm IH]; intros s1 E1; simpl; [done|]. apply IH.
  eapply keyed_subset; [done|done| |done]. apply delete_subseteq.
Qed.

Lemma stop_expired_keyed s now utc : keyed s -> keyed (stop_expired s now utc).
Proof.
  intros Hk. unfold stop_expired. destruct (advance_quota _ now) as [s1 st] eqn:E1.
  apply advance_quota_keyed in E1; [case_if; [done|same]|].
  destruct Hk as (Hu & Ht & Hp). split_and!; [|done..]. intros id user. unfold user_of. simpl.
  rewrite lookup_fmap_Some. intros (u & <- & Hl). exact (Hu _ _ Hl).
Qed.

(** ** Granting, moving and accounting *)

Lemma take_rate_grant_pending t budget now t' r :
  take_rate_grant t budget now = (t', r) ->
  UserTraffic.debit t' = UserTraffic.debit t /\ UserTraffic.refund t' = UserTraffic.refund t.
Proof. unfold take_rate_grant. repeat case_match; intros [= <- <-]; done. Qed.

Lemma account_keyed_pending id t t' :
  account_keyed id t -> UserTraffic.debit t' = UserTraffic.debit t ->
  UserTraffic.refund t' = UserTraffic.refund t -> account_keyed id t'.
Proof. unfold account_keyed. by intros H -> ->. Qed.

Lemma grant_user_keyed s now available total u s' g :
  grant_user s now available total u = (s', g) -> keyed s -> keyed s'.
Proof.
  unfold grant_user. destruct u as [id flows]. unfold select_flow. intros Hs Hk.
  set (s1 := State.set_flow_cursor s _) in Hs.
  assert (Hk1 : keyed s1) by (unfold s1; same).
  change (State.traffic s1) with (State.traffic s) in Hs.
  destruct (State.traffic s !! id) as [t|] eqn:Et; [|by simplify_eq].
  case_if_in Hs; [by simplify_eq|]. destruct (take_from _ _ now) as [bucket r].
  set (s2 := State.set_global_rate _ bucket) in Hs.
  assert (Hk2 : keyed s2) by (unfold s2; same).
  destruct (take_rate_grant t _ now) as [t' r'] eqn:Eg. apply take_rate_grant_pending in Eg as [Hd Hr].
  assert (Hk3 : keyed (set_user_traffic s2 id t')).
  { apply keyed_traffic; [done|]. eapply account_keyed_pending; eauto. by apply Hk. }
  destruct r'; simplify_eq; [same|done].
Qed.

Lemma grant_users_keyed now available total scheduled : forall s grants s' g,
  grant_users s now available total scheduled grants = (s', g) -> keyed s -> keyed s'.
Proof.
  induction scheduled as [|u scheduled IH]; intros s grants s' g; simpl; [by intros [= <- <-]|].
  destruct (grant_user _ _ _ _ u) as [s1 o] eqn:E1. intros Hs Hk.
  eapply IH; [exact Hs|]. by eapply grant_user_keyed.
Qed.

Lemma refund_rate_keyed s id grant up down : keyed s -> keyed (refund_rate s id grant up down).
Proof.
  intros Hk. unfold refund_rate. destruct id as [id|]; [|done].
  destruct (State.traffic s !! id) as [t|] eqn:Et; [|done].
  assert (Hk1 : keyed (set_user_traffic s id (refund_buckets t grant (PumpReport.written up)
    (PumpReport.written down)))).
  { apply keyed_traffic; [done|]. eapply account_keyed_pending; [by apply Hk|done|done]. }
  case_match; same.
Qed.

Lemma charge_flow_keyed s id up down s' r :
  charge_flow s id up down = (s', r) -> keyed s -> keyed s'.
Proof.
  unfold charge_flow. intros Hs Hk. destruct id as [id|]; [|by simplify_eq].
  destruct (checked_add _ _ _); [|by simplify_eq].
  destruct (State.traffic s !! id) as [t|] eqn:Et; [|by simplify_eq].
  destruct (QuotaAccount.charge _ _) as [q r1].
  set (s1 := State.set_traffic s _) in Hs.
  assert (Hk1 : keyed s1).
  { unfold s1. apply keyed_traffic; [done|]. eapply account_keyed_pending; [by apply Hk|done|done]. }
  clearbody s1. destruct r1; [|by simplify_eq].
  destruct (user_of s1 id) as [u|] eqn:Eu; [|by simplify_eq]. apply (proj1 Hk1) in Eu.
  destruct (checked_add _ _ _); [|by simplify_eq].
  destruct (checked_add _ _ _); simplify_eq; repeat (apply keyed_user; [|done]); done.
Qed.

Lemma account_all_keyed used : forall s s' f, account_all s used = (s', f) -> keyed s -> keyed s'.
Proof.
  induction used as [|[[[[[h id] g] up] down] over] used IH]; intros s s' f; simpl;
    [by intros [= <- <-]|].
  unfold account. destruct (charge_flow _ _ _ _) as [s1 b] eqn:E1.
  destruct (account_all s1 used) as [s2 f2] eqn:E2. intros [= <- <-] Hk.
  eapply IH; [exact E2|]. eapply charge_flow_keyed; [exact E1|]. by apply refund_rate_keyed.
Qed.

Lemma move_bytes_keyed s ios dgs grants s' :
  @move_bytes _ _ E s ios dgs grants = Some s' -> keyed s -> keyed s'.
Proof.
  unfold move_bytes. intros ([polled1 used1] & _ & Hs)%bind_Some Hk.
  destruct (account_all s used1) as [s1 f1] eqn:E1. apply account_all_keyed in E1; [|done].
  destruct (poll_datagram_flows _ _ _) as [polled2 used2].
  destruct (account_all _ used2) as [s2 f2] eqn:E2. apply account_all_keyed in E2; [|same].
  simplify_eq. same.
Qed.

(** ** Sessions *)

Definition handled_keyed (s : State.t) (h : State.t * PolicySession.t * result Status unit) : Prop :=
  keyed s -> keyed (fst (fst h)).

Lemma respond_keyed s p response : handled_keyed s (@respond _ E s p response).
Proof. unfold handled_keyed, respond. by case_match. Qed.

Lemma snapshot_keyed s p now status : handled_keyed s (@snapshot_status _ E s p now status).
Proof. unfold handled_keyed, snapshot_status. by repeat case_match. Qed.

Lemma finish_keyed s p user : handled_keyed s (@finish_authentication _ _ E s p user).
Proof.
  intros Hk. unfold finish_authentication.
  set (s1 := with_users _ _).
  assert (Hk1 : keyed s1) by (unfold s1; apply keyed_user; [same|done]).
  case_match; [|done]. by apply respond_keyed.
Qed.

Lemma request_keyed s p now message : handled_keyed s (@handle_client_request _ _ _ _ E s p now message).
Proof.
  intros Hk. unfold handle_client_request, handle_auth, handle_status, handle_subscribe.
  destruct (ClientRequest.parse message) as [[secret| | |]|e]; try done;
    destruct (PolicySession.auth p); try done.
  - destruct (Credential.parse_hex secret); [|done].
    destruct (StorageWorker.get _ _) as [w [n|e]]; simpl; same.
  - case_match; [|done]. by apply respond_keyed.
  - destruct (status_message _ _ _); [|done].
    pose proof (snapshot_keyed s p now a Hk) as Hs.
    by destruct (snapshot_status _ _ _ _) as [[s1 p1] [[]|e]].
Qed.

Lemma advance_keyed s p utc : handled_keyed s (@advance_authentication _ _ _ _ E s p utc).
Proof.
  intros Hk. unfold advance_authentication.
  destruct (PolicySession.auth p) as [|digest n|id n|user n|]; try done.
  - unfold advance_credential. destruct (try_recv_read s n) as [s1 a] eqn:Er.
    apply try_recv_read_keyed in Er; [|done].
    destruct a as [[v|]| |]; try done; [|by apply respond_keyed].
    destruct (from_bytes v); [|done]. case_if; [by apply respond_keyed|].
    destruct (StorageWorker.get _ _) as [w [k|e]]; simpl; same.
  - unfold advance_user_read. destruct (try_recv_read s n) as [s1 a] eqn:Er.
    apply try_recv_read_keyed in Er; [|done].
    destruct a as [[v|]| |]; try done; [|by apply respond_keyed].
    destruct (decode_user_record v) as [user|]; [|done]. unfold check_user.
    case_if; [by apply respond_keyed|]. case_if; [by apply respond_keyed|].
    case_if; [|by apply finish_keyed]. destruct (encode_user_record _); [|done].
    destruct (StorageWorker.put _ _ _) as [w [k|e]]; simpl; same.
  - unfold advance_clock. destruct (try_recv_write s n) as [s1 a] eqn:Er.
    apply try_recv_write_keyed in Er; [|done]. destruct a; try done. by apply finish_keyed.
Qed.

Lemma messages_keyed messages : forall s p now,
  handled_keyed s (@handle_messages _ _ _ _ _ E s p now messages).
Proof.
  induction messages as [|message messages IH]; intros s p now Hk; simpl; [done|].
  pose proof (request_keyed s p now message Hk) as Hs.
  destruct (PolicySession.role p).
  - destruct (handle_server_status p message) as [p1 [[]|e]]; [by apply IH|done].
  - destruct (handle_client_request _ _ _ _) as [[s1 p1] [[]|e]]; [by apply IH|done].
Qed.

Lemma poll_session_keyed s p now utc a :
  handled_keyed s (@poll_policy_session _ _ _ _ _ _ _ E s p now utc a).
Proof.
  intros Hk. unfold poll_policy_session. destruct (SessionChannel.poll_channel _ _) as [[c ?] r].
  assert (Hgo : forall messages, keyed (fst (fst (match @handle_messages _ _ _ _ _ E s
      (PolicySession.set_channel p c) now messages with
      | (s, session, Err e) => (s, session, Err e)
      | (s, session, Ok _) =>
          match @advance_authentication _ _ _ _ E s session utc with
          | (s, session, Err e) => (s, session, Err e)
          | (s, session, Ok _) => @push_status _ _ E s session now
          end
      end)))).
  { intros messages. pose proof (messages_keyed messages s (PolicySession.set_channel p c) now Hk) as H1.
    destruct (handle_messages _ _ _ _) as [[s1 p1] [[]|e]]; [|done].
    pose proof (advance_keyed s1 p1 utc H1) as H2.
    destruct (advance_authentication _ _ _) as [[s2 p2] [[]|e]]; [|done].
    unfold push_status. destruct (PolicySession.auth p2); try done. case_if; [|done].
    case_match; [|done]. by apply snapshot_keyed. }
  destruct r as [[messages|e]|]; [apply Hgo|done|apply Hgo].
Qed.

Lemma poll_sessions_keyed now utc ios handles : forall s,
  keyed s -> keyed (@poll_sessions _ _ _ _ _ _ _ E s now utc ios handles).
Proof.
  induction handles as [|h handles IH]; intros s Hk; simpl; [done|].
  destruct (State.sessions s !! h) as [p|]; [|by apply IH].
  set (s0 := State.set_sessions s _). assert (Hk0 : keyed s0) by (unfold s0; same).
  pose proof (poll_session_keyed s0 p now utc (ios h) Hk0) as H1.
  destruct (poll_policy_session _ _ _ _ _) as [[s1 p1] r]. simpl in H1.
  apply IH. case_if; [same|done].
Qed.

Lemma poll_instance_keyed s env s' status :
  @poll_instance _ _ _ _ _ _ _ _ E s env = Some (s', status) -> keyed s -> keyed s'.
Proof.
  unfold poll_instance, assign_grants. intros Hs Hk. destruct (State.maintenance s); [by simplify_eq|].
  pose proof (stop_expired_keyed s (now_nanos env) (now_utc env) Hk) as H1.
  set (s1 := stop_expired s _ _) in *. destruct (schedule s1) as [s2 scheduled] eqn:E2.
  assert (H2 : keyed s2) by (unfold schedule in E2; case_if_in E2; simplify_eq; same).
  destruct (global_available s2 _) as [s3 available] eqn:E3.
  assert (H3 : keyed s3) by (unfold global_available in E3; repeat case_match; simplify_eq; same).
  destruct (grant_users s3 _ _ _ _ _) as [s4 grants] eqn:E4. apply grant_users_keyed in E4; [|done].
  apply bind_Some in Hs as (s5 & E5 & [= <- _]). apply move_bytes_keyed in E5; [|done].
  pose proof (poll_sessions_keyed (now_nanos env) (now_utc env) (session_io env)
    (hash_order (map fst (map_to_list (State.sessions s5)))) s5 E5) as H6.
  unfold retain_flows. same.
Qed.

(** ** Administration *)

Lemma put_user_keyed user m changes : put_user user = Ok (m, changes) -> mutation_keyed m.
Proof.
  unfold put_user. intros (value & _ & [= <- _])%bind_Ok. intros id u.
  by intros [= -> <-]%list_elem_of_singleton.
Qed.

Lemma put_revised_keyed id user m changes o n :
  put_revised id user = Ok (m, changes, o, n) -> mutation_keyed m.
Proof.
  unfold put_revised. intros ([m1 c1] & Hp & [= <- _ _ _])%bind_Ok. by eapply put_user_keyed.
Qed.

Ltac steps := repeat match goal with
  | H : (_ ≫= _) = Ok _ |- _ => apply bind_Ok in H as (? & ? & ?)
  end.

Lemma prepare_keyed s fill utc request p :
  prepare_admin_mutation s fill utc request = Ok p -> mutation_keyed (PreparedAdmin.mutation p).
Proof.
  unfold prepare_admin_mutation. intros ([[[m changes] o] n] & Hm & (response & _ & [= <-])%bind_Ok)%bind_Ok.
  simpl. destruct request; simpl in Hm; try done.
  - unfold prepare_create in Hm. steps. destruct x0 as [m1 c1]. simplify_eq. by eapply put_user_keyed.
  - unfold prepare_update in Hm. steps. by eapply put_revised_keyed.
  - unfold prepare_disable in Hm. steps. by eapply put_revised_keyed.
  - unfold prepare_delete in Hm. steps. simplify_eq. intros i u. simpl.
    by intros [=]%list_elem_of_singleton.
  - unfold prepare_credential_add in Hm. steps. case_match; [case_if_in H1|]; steps; simplify_eq;
      intros i u; simpl; by intros ?%not_elem_of_nil.
  - unfold prepare_credential_revoke in Hm. steps. simplify_eq. intros i u. simpl.
    by intros ?%not_elem_of_nil.
  - unfold prepare_quota_add in Hm. steps. case_match; [done|]. steps. by eapply put_revised_keyed.
  - unfold prepare_quota_new_period in Hm. steps. by eapply put_revised_keyed.
  - unfold prepare_disconnect in Hm. case_if_in Hm; simplify_eq. intros i u. simpl.
    by intros ?%not_elem_of_nil.
  - unfold prepare_rules in Hm. steps. simplify_eq. intros i u. simpl. by intros ?%not_elem_of_nil.
Qed.

Lemma evict_user_keyed s : keyed s -> keyed (evict_user s).
Proof.
  intros Hk. unfold evict_user. case_if; [|done]. case_match; [done|]. case_match.
  eapply keyed_subset; [done| |done|done]. apply delete_subseteq.
Qed.

Lemma apply_users_keyed users : forall s,
  (forall id user, (id, Some user) ∈ users -> UserRecord.id user = id) ->
  keyed s -> keyed (fold_left apply_user users s).
Proof.
  induction users as [|[id [user|]] users IH]; intros s Hm Hk; simpl; [done|..].
  - apply IH; [set_solver|]. apply keyed_user; [|apply Hm; by left].
    assert (keyed (if is_none (user_of s id) then evict_user s else s))
      by (case_if; [by apply evict_user_keyed|done]). same.
  - apply IH; [set_solver|]. eapply keyed_subset; [done| |done|done]. apply delete_subseteq.
Qed.

Lemma fold_keyed {A} (f : State.t -> A -> State.t) l :
  (forall s a, keyed s -> keyed (f s a)) -> forall s, keyed s -> keyed (fold_left f l s).
Proof. intros Hf. induction l as [|a l IH]; intros s Hk; simpl; auto. Qed.

Lemma apply_admin_mutation_keyed s utc m :
  mutation_keyed m -> keyed s -> keyed (apply_admin_mutation s utc m).
Proof.
  intros Hm Hk. unfold apply_admin_mutation.
  assert (H1 := apply_users_keyed _ s Hm Hk). set (s1 := fold_left apply_user _ _) in *.
  assert (H2 : keyed (fold_left apply_credential (AdminMutation.credentials m) s1)).
  { apply fold_keyed; [|done]. intros s0 [d c] H0. same. }
  set (s2 := fold_left apply_credential _ _) in *.
  assert (H3 : keyed (fold_left apply_rules (AdminMutation.rules m) s2)).
  { apply fold_keyed; [|done]. intros s0 [d c] H0. same. }
  set (s3 := fold_left apply_rules _ _) in *.
  assert (H4 : keyed (apply_active_rules (AdminMutation.active_rule_profiles m) s3)).
  { unfold apply_active_rules. case_if; same. }
  set (s4 := apply_active_rules _ s3) in *.
  set (s5 := match AdminMutation.disconnect m with
             | Some session => State.set_sessions s4 (base.delete session (State.sessions s4))
             | None => s4
             end).
  assert (H5 : keyed s5) by (unfold s5; case_match; same).
  assert (H6 : keyed (stop_users (stopped_by utc m) s5)).
  { unfold stop_users. case_if; [done|]. eapply keyed_subset; [done|done| |done].
    apply map_filter_subseteq. }
  unfold revoke_credentials. case_if; same.
Qed.

Lemma finish_admin_read_keyed s kind value s' r :
  finish_admin_read s kind value = (s', r) -> keyed s -> keyed s'.
Proof.
  unfold finish_admin_read. intros Hs Hk. destruct kind as [id|digest].
  - set (s1 := with_loaded_users s _) in Hs. assert (Hk1 : keyed s1) by (unfold s1; same).
    destruct value as [v|]; [|by simplify_eq]. destruct (decode_user_record v) as [user|]; [|by simplify_eq].
    case_if_in Hs; simplify_eq; [done|]. bools. apply keyed_user; [by apply evict_user_keyed|done].
  - repeat case_match; simplify_eq; same.
Qed.

Lemma keyed_pending s o :
  keyed s -> (forall p, o = Some (PendingControl.Write p) -> mutation_keyed (PendingWrite.mutation p)) ->
  keyed (State.set_pending_control s o).
Proof. intros (Hu & Ht & _) Ho. by split_and!. Qed.

Lemma start_request_keyed s fill utc request s' r :
  start_request s fill utc request = (s', r) -> keyed s -> keyed s'.
Proof.
  unfold start_request. intros Hs Hk. case_if_in Hs; [by simplify_eq|].
  destruct (ControlRequest.parse request) as [q|]; [|by simplify_eq].
  assert (Hread : forall key kind, start_read s request key kind = (s', r) -> keyed s').
  { intros key kind. unfold start_read. destruct (StorageWorker.get _ _) as [w [n|e]];
      intros [= <- <-]; [apply keyed_pending; [same|done]|same]. }
  assert (Hwrite : forall c n h, start_write s fill utc request q c n h = (s', r) -> keyed s').
  { intros c n h. unfold start_write.
    destruct (prepare_admin_mutation s fill utc q) as [p|] eqn:Ep; [|by intros [= <- <-]].
    apply prepare_keyed in Ep.
    destruct (AdminSequencer.prepare_commit _ _ _ _ _); [|by intros [= <- <-]].
    destruct (StorageWorker.apply _ _) as [w [k|e]]; intros [= <- <-]; [|same].
    apply keyed_pending; [same|]. by intros p' [= <-]. }
  assert (Hbackup : forall d, start_backup s request d = (s', r) -> keyed s').
  { intros d. unfold start_backup. destruct (StorageWorker.backup _ _) as [w [k|e]];
      intros [= <- <-]; [apply keyed_pending; [same|done]|same]. }
  destruct q; eauto; (case_match; [case_match; eauto|]); repeat case_match; simplify_eq; eauto.
Qed.

Lemma control_keyed s fill utc request s' r :
  control_instance s fill utc request = (s', r) -> keyed s -> keyed s'.
Proof.
  unfold control_instance, resume. intros Hs Hk.
  destruct (State.pending_control s) as [pending|] eqn:Ep; [|by eapply start_request_keyed].
  case_if_in Hs; [by simplify_eq|].
  assert (H0 : keyed (State.set_pending_control s None)) by by apply keyed_pending.
  set (s0 := State.set_pending_control s None) in *.
  destruct pending as [p|p|p].
  - assert (Hm : mutation_keyed (PendingWrite.mutation p)) by (eapply (proj2 (proj2 Hk)); done).
    unfold resume_write in Hs. destruct (try_recv_write s0 _) as [s1 a] eqn:Ea.
    apply try_recv_write_keyed in Ea; [|done].
    destruct a; simplify_eq; [|done|by apply keyed_pending; [|intros p' [= <-]]].
    destruct (AdminSequencer.apply_commit _ _ _) as [q [[]|e]]; simplify_eq; [|same].
    apply apply_admin_mutation_keyed; [done|same].
  - unfold resume_read in Hs. destruct (try_recv_read s0 _) as [s1 a] eqn:Ea.
    apply try_recv_read_keyed in Ea; [|done].
    destruct a; simplify_eq; [|done|by apply keyed_pending].
    destruct (finish_admin_read s1 _ _) as [s2 [[]|e]] eqn:Ef; apply finish_admin_read_keyed in Ef; try done.
    + by eapply start_request_keyed.
    + by simplify_eq.
  - unfold resume_backup in Hs. destruct (try_recv_write s0 _) as [s1 a] eqn:Ea.
    apply try_recv_write_keyed in Ea; [|done].
    destruct a; simplify_eq; [same|same|by apply keyed_pending].
Qed.

(** ** Every step *)

Lemma step_keyed utc s s' : step (E := E) utc s s' -> keyed s -> keyed s'.
Proof.
  intros Hstep Hk. destruct Hstep.
  - by eapply poll_instance_keyed.
  - by eapply control_keyed.
  - unfold attach_session, fetch_add in *. repeat case_match; simplify_eq; try done; same.
  - unfold admit_flow in *. repeat case_match; simplify_eq; try done; same.
  - unfold attach_flow, fetch_add, take_identity in *. repeat case_match; simplify_eq; try done; same.
  - unfold attach_datagram_flow, fetch_add, take_identity in *.
    repeat case_match; simplify_eq; try done; same.
  - unfold shutdown_instance in *. destruct (advance_quota _ now) as [s1 st] eqn:E1.
    apply advance_quota_keyed in E1; [|case_if; [done|same]].
    repeat case_match; simplify_eq; try done; same.
  - same.
Qed.
End facts.
