(* ===== verification/LimitFacts.v ===== *)
(** The limit on a user's flows (Session.v, Traffic.v, Policy.v): a flow counts
    from its admission to its end, and no step takes a user over the limit in
    its record. *)
From Stdlib Require Import Strings.Byte.
From S2P Require Import Prelude Text Net Frame Accounting Admin Config Sniff Service Storage Rules Flow State Traffic Session Control Policy Scenario SessionFacts CacheFacts.
#[local] Open Scope Z_scope.

(** * Counting *)

Lemma count_values_size {A} (m : gmap Z A) q :
  count_values m q = Z.of_nat (size (filter (fun kv => q (snd kv) = true) m)).
Proof.
  unfold count_values, len. f_equal. rewrite map_filter_alt.
  rewrite map_size_list_to_map; [done|].
  apply (NoDup_fmap_fst (filter (fun kv : Z * A => q (snd kv) = true) (map_to_list m))).
  - intros k x y [_ Hx]%list_elem_of_filter [_ Hy]%list_elem_of_filter.
    apply elem_of_map_to_list in Hx, Hy. congruence.
  - apply NoDup_filter, NoDup_map_to_list.
Qed.

(** The entries that count in [m'] count in [m]. *)
Lemma count_values_le {A} (m m' : gmap Z A) q :
  (forall h x', m' !! h = Some x' -> exists x, m !! h = Some x /\ q x = q x') ->
  count_values m' q <= count_values m q.
Proof.
  intros Hm. rewrite !count_values_size. apply inj_le. rewrite <- !size_dom.
  apply subseteq_size. intros h [x' [Hx' Hq]%map_lookup_filter_Some]%elem_of_dom.
  destruct (Hm _ _ Hx') as (x & Hx & Hqx). apply elem_of_dom. exists x.
  apply map_lookup_filter_Some. split; [done|]. simpl in *. congruence.
Qed.

Lemma count_values_insert {A} (m : gmap Z A) h x q :
  count_values (<[h := x]> m) q <= count_values m q + (if q x then 1 else 0).
Proof.
  rewrite !count_values_size. destruct (q x) eqn:Eq.
  - transitivity (Z.of_nat (size (<[h := x]> (filter (fun kv => q (snd kv) = true) m)))).
    + apply inj_le. rewrite <- !size_dom. apply subseteq_size.
      intros k [y [Hy Hq]%map_lookup_filter_Some]%elem_of_dom. rewrite dom_insert.
      apply lookup_insert_Some in Hy as [[<- _]|[Hne Hy]]; [set_solver|].
      apply elem_of_union. right. apply elem_of_dom. exists y. by apply map_lookup_filter_Some.
    + rewrite map_size_insert. case_match; unfold id; lia.
  - rewrite Z.add_0_r. apply inj_le. rewrite <- !size_dom. apply subseteq_size.
    intros k [y [Hy Hq]%map_lookup_filter_Some]%elem_of_dom. simpl in Hq.
    apply lookup_insert_Some in Hy as [[<- <-]|[Hne Hy]]; [congruence|].
    apply elem_of_dom. exists y. by apply map_lookup_filter_Some.
Qed.

(** The sum of a measure over a map. *)
Definition total {A} (f : A -> Z) (m : gmap Z A) : Z := map_fold (fun _ x n => f x + n) 0 m.

Lemma total_insert {A} (f : A -> Z) (m : gmap Z A) h x :
  m !! h = None -> total f (<[h := x]> m) = f x + total f m.
Proof. intros Hm. unfold total. rewrite map_fold_insert_L; [done| |done]. intros; lia. Qed.

Lemma total_delete {A} (f : A -> Z) (m : gmap Z A) h x :
  m !! h = Some x -> total f m = f x + total f (base.delete h m).
Proof.
  intros Hm. rewrite <- (insert_delete_id m h x Hm) at 1. apply total_insert, lookup_delete_eq.
Qed.

Lemma total_le {A} (f : A -> Z) (m' : gmap Z A) : forall m,
  (forall x, 0 <= f x) ->
  (forall h x', m' !! h = Some x' -> exists x, m !! h = Some x /\ f x' <= f x) ->
  total f m' <= total f m.
Proof.
  induction m' as [|h x' m' Hh IH] using map_ind; intros m Hf Hm.
  - unfold total at 1. rewrite map_fold_empty. clear Hm. unfold total.
    induction m as [|h x m Hh IH] using map_ind; [by rewrite map_fold_empty|].
    fold (total f (<[h:=x]> m)). rewrite total_insert by done. specialize (Hf x). fold (total f m) in IH. lia.
  - destruct (Hm h x') as (x & Hx & Hle); [apply lookup_insert_eq|].
    rewrite total_insert, (total_delete f m h x) by done.
    enough (total f m' <= total f (base.delete h m)) by lia. apply IH; [done|].
    intros k y Hy. assert (k <> h) by congruence.
    destruct (Hm k y) as (z & Hz & ?); [by rewrite lookup_insert_ne|].
    exists z. by rewrite lookup_delete_ne.
Qed.

Section facts.
Context `{HR : Redb, HS : Sha256, HO : HashOrder, HP1 : Postcard StoredUserRecord.t,
  HP2 : Postcard CredentialRecord.t, HP3 : Postcard Receipt.t, HT1 : Toml ControlRequest.t,
  HT2 : Toml Rules.t, HT3 : Toml ClientRequest.t, HT4 : Toml ServerStatus.t,
  HT5 : Toml ChannelSecurity.t, HX1 : TomlPrint MutationResponse.t,
  HX2 : TomlPrint UsageResponse.t, HX3 : TomlPrint SessionsResponse.t,
  HX4 : TomlPrint BackupResponse.t, HX5 : TomlPrint PolicyStatus.t}.
Context {E : Type}.

Definition of_user (id : str) (flow : PolicyFlow.t) : bool :=
  bool_decide (PolicyFlow.user_id flow = Some id).
Definition datagram_of_user (id : str) (flow : PolicyDatagramFlow.t) : bool :=
  bool_decide (PolicyDatagramFlow.user_id flow = Some id).

(** Running flows, of both kinds, and admitted ones. *)
Definition user_flows (s : State.t) (id : str) : Z :=
  count_values (State.flows s) (of_user id) + count_values (State.datagram_flows s) (datagram_of_user id)
  + pending_total s id.

(** * Steps that open nothing *)

(** Sessions, flows and admissions may disappear; nothing changes hands. *)
Definition fewer (s s' : State.t) : Prop :=
  (forall h f', State.flows s' !! h = Some f' ->
     exists f, State.flows s !! h = Some f /\ PolicyFlow.user_id f = PolicyFlow.user_id f') /\
  (forall h f', State.datagram_flows s' !! h = Some f' ->
     exists f, State.datagram_flows s !! h = Some f /\
       PolicyDatagramFlow.user_id f = PolicyDatagramFlow.user_id f') /\
  (forall h p', State.sessions s' !! h = Some p' ->
     PolicySession.pending_flows p' = [] \/
     exists p, State.sessions s !! h = Some p /\
       PolicySession.pending_flows p = PolicySession.pending_flows p').

Lemma pending_of_nonneg id p : 0 <= pending_of id p.
Proof. apply len_nonneg. Qed.

Lemma pending_total_nonneg s id : 0 <= pending_total s id.
Proof.
  change (total (pending_of id) ∅ <= total (pending_of id) (State.sessions s)).
  apply total_le; [apply pending_of_nonneg|]. intros h p. by rewrite lookup_empty.
Qed.

(** Sessions without admissions do not count. *)
Lemma total_pending_filter id (m : gmap Z PolicySession.t) :
  total (pending_of id) m =
  total (pending_of id) (filter (fun kv => PolicySession.pending_flows (snd kv) <> []) m).
Proof.
  induction m as [|h p m Hh IH] using map_ind; [by rewrite map_filter_empty|].
  rewrite total_insert by done. destruct (decide (PolicySession.pending_flows p = [])) as [Hp|Hp].
  - rewrite map_filter_insert_not' by (simpl; naive_solver congruence).
    unfold pending_of at 1. rewrite Hp. simpl. rewrite IH. done.
  - rewrite map_filter_insert_True by done. rewrite total_insert; [by rewrite IH|].
    apply map_lookup_filter_None. auto.
Qed.

Lemma fewer_user_flows s s' id : fewer s s' -> user_flows s' id <= user_flows s id.
Proof.
  intros (Hf & Hd & Hp). unfold user_flows.
  assert (count_values (State.flows s') (of_user id) <= count_values (State.flows s) (of_user id)).
  { apply count_values_le. intros h f' (f & Hl & Hu)%Hf. exists f. unfold of_user. by rewrite Hu. }
  assert (count_values (State.datagram_flows s') (datagram_of_user id)
          <= count_values (State.datagram_flows s) (datagram_of_user id)).
  { apply count_values_le. intros h f' (f & Hl & Hu)%Hd. exists f. unfold datagram_of_user. by rewrite Hu. }
  assert (pending_total s' id <= pending_total s id); [|lia].
  change (total (pending_of id) (State.sessions s') <= total (pending_of id) (State.sessions s)).
  rewrite (total_pending_filter id (State.sessions s')). apply total_le; [apply pending_of_nonneg|].
  intros h p' [Hl Hne]%map_lookup_filter_Some. destruct (Hp _ _ Hl) as [?|(p & Hlp & He)]; [done|].
  exists p. split; [done|]. unfold pending_of. by rewrite He.
Qed.

Lemma fewer_refl s : fewer s s.
Proof. split_and!; eauto. Qed.

Lemma fewer_trans s1 s2 s3 : fewer s1 s2 -> fewer s2 s3 -> fewer s1 s3.
Proof.
  intros (F1 & D1 & P1) (F2 & D2 & P2). split_and!.
  - intros h f (f2 & H2 & <-)%F2. eauto.
  - intros h f (f2 & H2 & <-)%D2. eauto.
  - intros h p [?|(p2 & H2 & <-)]%P2; eauto.
Qed.

(** ** Accounting leaves the flows alone *)

Definition still (s s' : State.t) : Prop :=
  State.flows s' = State.flows s /\ State.datagram_flows s' = State.datagram_flows s.

Lemma still_trans s1 s2 s3 : still s1 s2 -> still s2 s3 -> still s1 s3.
Proof. intros [? ?] [? ?]. split; congruence. Qed.

(** ... nor the turn of any user's flows. *)
Definition kept (s s' : State.t) : Prop :=
  still s s' /\ State.flow_cursor s' = State.flow_cursor s.

Lemma kept_trans s1 s2 s3 : kept s1 s2 -> kept s2 s3 -> kept s1 s3.
Proof. intros [? ?] [? ?]. split; [by eapply still_trans|congruence]. Qed.

Lemma try_recv_write_kept s n s' a : try_recv_write s n = (s', a) -> kept s s'.
Proof.
  unfold try_recv_write. destruct (StorageWorker.try_recv _ _). by repeat case_match; intros [= <- <-].
Qed.

Lemma put_charged_kept s id f s' o : put_charged s id f = (s', o) -> kept s s'.
Proof. unfold put_charged. by repeat case_match; intros [= <- <-]. Qed.

Lemma settle_debit_kept s id t s' v : settle_debit s id t = (s', v) -> kept s s'.
Proof.
  unfold settle_debit. destruct (UserTraffic.debit t); [|by intros [= <- <-]].
  destruct (try_recv_write _ _) as [s1 a] eqn:Er. apply try_recv_write_kept in Er.
  by repeat case_match; intros [= <- <-].
Qed.

Lemma settle_refund_kept s now id active t s' v :
  settle_refund s now id active t = (s', v) -> kept s s'.
Proof.
  unfold settle_refund. destruct (UserTraffic.refund t); [|by intros [= <- <-]].
  destruct (try_recv_write _ _) as [s1 a] eqn:Er. apply try_recv_write_kept in Er.
  by repeat case_match; intros [= <- <-].
Qed.

Lemma start_refund_kept s now id active t s' v :
  start_refund s now id active t = (s', v) -> kept s s'.
Proof.
  unfold start_refund. destruct (QuotaAccount.request_refund _) as [q [n|e]].
  - destruct (put_charged s id _) as [s1 o] eqn:Ep. apply put_charged_kept in Ep.
    by repeat case_match; intros [= <- <-].
  - by repeat case_match; intros [= <- <-].
Qed.

Lemma start_debit_kept s id t s' v : start_debit s id t = (s', v) -> kept s s'.
Proof.
  unfold start_debit. destruct (QuotaAccount.request_credit _) as [q [n|e]].
  - destruct (put_charged s id _) as [s1 o] eqn:Ep. apply put_charged_kept in Ep.
    by repeat case_match; intros [= <- <-].
  - by repeat case_match; intros [= <- <-].
Qed.

Lemma advance_user_kept s now id active s' v :
  advance_user s now id active = (s', v) -> kept s s'.
Proof.
  unfold advance_user. destruct (open_traffic s now id active) as [s1 o1] eqn:E1.
  assert (Q1 : kept s s1) by (unfold open_traffic in E1; by repeat case_match; simplify_eq).
  destruct o1; [by intros [= <- <-]|]. case_match; [|by intros [= <- <-]].
  case_match; [by intros [= <- <-]|].
  destruct (settle_debit s1 id _) as [s2 o2] eqn:E2. apply settle_debit_kept in E2.
  pose proof (kept_trans _ _ _ Q1 E2) as Q2. destruct o2; [by intros [= <- <-]|].
  case_match; [|by intros [= <- <-]].
  destruct (settle_refund s2 _ id _ _) as [s3 o3] eqn:E3. apply settle_refund_kept in E3.
  pose proof (kept_trans _ _ _ Q2 E3) as Q3. destruct o3; [by intros [= <- <-]|].
  case_match; [|by intros [= <- <-]]. simpl.
  repeat case_if; try (by intros [= <- <-]); intros Hs; (eapply kept_trans; [exact Q3|]);
    eauto using start_refund_kept, start_debit_kept.
Qed.

Lemma advance_users_kept users : forall s now active s' st rm,
  advance_users s now active users = (s', st, rm) -> kept s s'.
Proof.
  induction users as [|u users IH]; intros s now active s' st rm; simpl; [by intros [= <- <- <-]|].
  destruct (advance_user _ _ _ _) as [s2 v] eqn:E2. apply advance_user_kept in E2.
  destruct (advance_users s2 now active users) as [[s3 st3] rm3] eqn:E3. apply IH in E3.
  intros [= <- <- <-]. by eapply kept_trans.
Qed.

Lemma advance_quota_still s now s' st : advance_quota s now = (s', st) -> still s s'.
Proof.
  unfold advance_quota. destruct (advance_users _ _ _ _) as [[s1 st1] rm] eqn:E1.
  apply advance_users_kept in E1 as [E1 _]. intros [= <- <-]. revert s1 E1.
  induction rm as [|u rm IH]; intros s1 H1; simpl; [done|]. by apply IH.
Qed.

Lemma grant_user_still s now available total u s' g :
  grant_user s now available total u = (s', g) -> still s s'.
Proof.
  unfold grant_user. destruct u. unfold select_flow. intros. by repeat case_match; simplify_eq.
Qed.

Lemma grant_users_still now available weight scheduled : forall s grants s' g,
  grant_users s now available weight scheduled grants = (s', g) -> still s s'.
Proof.
  induction scheduled as [|u scheduled IH]; intros s grants s' g; simpl; [by intros [= <- <-]|].
  destruct (grant_user _ _ _ _ u) as [s1 o] eqn:E1.
  apply grant_user_still in E1. intros E2%IH. by eapply still_trans.
Qed.

Lemma account_all_kept used : forall s s' f, account_all s used = (s', f) -> kept s s'.
Proof.
  induction used as [|[[[[[h id] g] up] down] over] used IH]; intros s s' f; simpl;
    [by intros [= <- <-]|].
  destruct (account _ _ _ _ _) as [s1 b] eqn:E1.
  assert (H1 : kept s s1).
  { unfold account in E1. assert (Hr : kept s (refund_rate s id g up down))
      by (unfold refund_rate; by repeat case_match).
    destruct (charge_flow _ _ _ _) as [s2 r] eqn:Ec. simplify_eq. eapply kept_trans; [exact Hr|].
    unfold charge_flow in Ec. by repeat case_match; simplify_eq. }
  destruct (account_all s1 used) as [s2 f2] eqn:E2. apply IH in E2. intros [= <- <-].
  by eapply kept_trans.
Qed.

(** ** Polled flows keep their user *)

Lemma poll_flow_user (a : @PolicyFlow.io E) f m1 m2 m3 f' out r :
  PolicyFlow.poll_flow a f m1 m2 m3 = Some (f', out, r) ->
  PolicyFlow.user_id f' = PolicyFlow.user_id f.
Proof.
  unfold PolicyFlow.poll_flow. intros ([[f1 out1] r1] & H1 & H2)%bind_Some.
  assert (f' = f1) as -> by (repeat case_match; by simplify_eq). clear H2.
  unfold PolicyFlow.poll_sniff in H1. destruct (PolicyFlow.sniff f); [|by simplify_eq].
  apply bind_Some in H1 as ([s1 r2] & _ & H1).
  repeat case_match; simplify_eq; try done.
  unfold PolicyFlow.write_prefix in *. repeat case_match; simplify_eq; done.
Qed.

Lemma poll_flows_users ios grants work l : forall polled used,
  @poll_flows E ios grants work l = Some (polled, used) ->
  Forall2 (fun kv' kv => fst kv' = fst kv /\
    PolicyFlow.user_id (snd kv') = PolicyFlow.user_id (snd kv)) polled l.
Proof.
  induction l as [|[h f] l IH]; intros polled used; simpl; [by intros [= <- <-]|].
  intros ([polled1 used1] & H1%IH & H2)%bind_Some. case_if_in H2; [simplify_eq; by constructor|].
  apply bind_Some in H2 as ([[f1 out1] r1] & Hp%poll_flow_user & H2).
  repeat case_match; simplify_eq; by constructor.
Qed.

Lemma poll_datagram_flows_users ios grants l : forall polled used,
  @poll_datagram_flows E ios grants l = (polled, used) ->
  Forall2 (fun kv' kv => fst kv' = fst kv /\
    PolicyDatagramFlow.user_id (snd kv') = PolicyDatagramFlow.user_id (snd kv)) polled l.
Proof.
  induction l as [|[h f] l IH]; intros polled used; simpl; [by intros [= <- <-]|].
  destruct (poll_datagram_flows ios grants l) as [polled1 used1] eqn:E1.
  specialize (IH _ _ eq_refl).
  case_if; [intros [= <- <-]; by constructor|].
  destruct (PolicyDatagramFlow.poll_flow _ _ _ _) as [f1 r1] eqn:Ep.
  assert (PolicyDatagramFlow.user_id f1 = PolicyDatagramFlow.user_id f).
  { unfold PolicyDatagramFlow.poll_flow in Ep. repeat case_match; by simplify_eq. }
  repeat case_match; intros [= <- <-]; by constructor.
Qed.

(** What is left of polled flows comes from the flows there were. *)
Lemma without_from {A B} (u : A -> B) finished (polled : list (Z * A)) (m : gmap Z A) h x' :
  Forall2 (fun kv' kv => fst kv' = fst kv /\ u (snd kv') = u (snd kv)) polled
    (hash_order (map_to_list m)) ->
  without finished polled !! h = Some x' -> exists x, m !! h = Some x /\ u x = u x'.
Proof.
  intros Hf [Hl _]%map_lookup_filter_Some. apply elem_of_list_to_map_2 in Hl.
  apply list_elem_of_lookup in Hl as [i Hi].
  destruct (Forall2_lookup_l _ _ _ _ _ Hf Hi) as ([k x] & Hk & He & Hu). simpl in *. subst.
  exists x. split; [|done]. apply elem_of_map_to_list. rewrite <- (hash_order_perm (map_to_list m)).
  by eapply list_elem_of_lookup_2.
Qed.

(** ** Whole operations *)

Lemma subset_fewer s s' :
  State.flows s' ⊆ State.flows s -> State.datagram_flows s' ⊆ State.datagram_flows s ->
  State.sessions s' ⊆ State.sessions s -> fewer s s'.
Proof.
  intros Hf Hd Hs. split_and!.
  - intros h f Hl. exists f. split; [by eapply lookup_weaken|done].
  - intros h f Hl. exists f. split; [by eapply lookup_weaken|done].
  - intros h p Hl. right. exists p. split; [by eapply lookup_weaken|done].
Qed.

(** Flows and sessions are exactly as before. *)
Definition steady (s s' : State.t) : Prop := still s s' /\ State.sessions s' = State.sessions s.

Lemma steady_trans s1 s2 s3 : steady s1 s2 -> steady s2 s3 -> steady s1 s3.
Proof. intros [? ?] [? ?]. split; [by eapply still_trans|congruence]. Qed.

Lemma steady_fewer s s' : steady s s' -> fewer s s'.
Proof. intros [[Hf Hd] Hs]. apply subset_fewer; by rewrite ?Hf, ?Hd, ?Hs. Qed.

Lemma stop_expired_fewer s now utc : fewer s (stop_expired s now utc).
Proof.
  unfold stop_expired. destruct (advance_quota _ now) as [s1 st] eqn:E1.
  assert (H1 : steady s s1).
  { split; [by apply advance_quota_still in E1|by apply advance_quota_quiet in E1 as [? _]]. }
  case_if; [by apply steady_fewer|]. eapply fewer_trans; [by apply steady_fewer|].
  apply subset_fewer; simpl; [apply map_filter_subseteq..|done].
Qed.

Lemma move_bytes_fewer s ios dgs grants s' :
  @move_bytes _ _ E s ios dgs grants = Some s' -> fewer s s'.
Proof.
  intros Hm. pose proof (move_bytes_quiet _ _ _ _ _ Hm) as [Hs _]. revert Hm.
  unfold move_bytes. intros ([polled1 used1] & H1%poll_flows_users & H2)%bind_Some.
  destruct (account_all s used1) as [s1 f1] eqn:E1. apply account_all_kept in E1 as [[Ef1 Ed1] _].
  destruct (poll_datagram_flows _ _ _) as [polled2 used2] eqn:E2. apply poll_datagram_flows_users in E2.
  destruct (account_all _ used2) as [s2 f2] eqn:E3. apply account_all_kept in E3 as [[Ef2 Ed2] _].
  simpl in *. rewrite Ed1 in E2. simplify_eq. split_and!; simpl in *.
  - intros h f'. rewrite Ef2. by apply (without_from PolicyFlow.user_id).
  - intros h f'. by apply (without_from PolicyDatagramFlow.user_id).
  - intros h p'. rewrite Hs. eauto.
Qed.

(** The accounts and the turns as well. *)
Definition calm (s s' : State.t) : Prop :=
  steady s s' /\ State.traffic s' = State.traffic s /\ State.flow_cursor s' = State.flow_cursor s.

Lemma calm_trans s1 s2 s3 : calm s1 s2 -> calm s2 s3 -> calm s1 s3.
Proof. intros (? & ? & ?) (? & ? & ?). split_and!; [by eapply steady_trans|congruence..]. Qed.

(** A handler leaves the rest alone, and the session its admissions. *)
Definition handled_steady (s : State.t) (p : PolicySession.t)
  (h : State.t * PolicySession.t * result Status unit) : Prop :=
  calm s (fst (fst h)) /\
  PolicySession.pending_flows (snd (fst h)) = PolicySession.pending_flows p.

Lemma handled_trans s p s1 p1 h :
  calm s s1 -> PolicySession.pending_flows p1 = PolicySession.pending_flows p ->
  handled_steady s1 p1 h -> handled_steady s p h.
Proof. intros Hs Hp [H1 H2]. split; [by eapply calm_trans|congruence]. Qed.

Lemma respond_steady s p response : handled_steady s p (@respond _ E s p response).
Proof. unfold respond. by case_match. Qed.

Lemma snapshot_steady s p now status : handled_steady s p (@snapshot_status _ E s p now status).
Proof. unfold snapshot_status. by repeat case_match. Qed.

Lemma finish_steady s p user : handled_steady s p (@finish_authentication _ _ E s p user).
Proof.
  unfold finish_authentication. case_match; [|done]. by eapply handled_trans, respond_steady.
Qed.

Lemma request_steady s p now message :
  handled_steady s p (@handle_client_request _ _ _ _ E s p now message).
Proof.
  unfold handle_client_request, handle_auth, handle_status, handle_subscribe.
  destruct (ClientRequest.parse message) as [[secret| | |]|e]; try done;
    destruct (PolicySession.auth p); try done.
  - by repeat case_match.
  - case_match; [|done]. apply respond_steady.
  - destruct (status_message _ _ _) as [a|]; [|done].
    pose proof (snapshot_steady s p now a) as Hs.
    by destruct (snapshot_status _ _ _ _) as [[s1 p1] [[]|e]].
Qed.

Lemma try_recv_read_calm s n s' a : try_recv_read s n = (s', a) -> calm s s'.
Proof.
  unfold try_recv_read. destruct (StorageWorker.try_recv _ _). by repeat case_match; intros [= <- <-].
Qed.

Lemma try_recv_write_calm s n s' a : try_recv_write s n = (s', a) -> calm s s'.
Proof.
  unfold try_recv_write. destruct (StorageWorker.try_recv _ _). by repeat case_match; intros [= <- <-].
Qed.

Lemma advance_steady s p utc : handled_steady s p (@advance_authentication _ _ _ _ E s p utc).
Proof.
  unfold advance_authentication.
  destruct (PolicySession.auth p) as [|digest n|id n|user n|]; try done.
  - unfold advance_credential. destruct (try_recv_read s n) as [s1 a] eqn:Er.
    apply try_recv_read_calm in Er. eapply (handled_trans _ _ s1 (PolicySession.set_auth p AuthState.Waiting)); [done|done|].
    destruct a as [[v|]| |]; try done; [|apply respond_steady].
    case_match; [|done]. case_if; [apply respond_steady|]. by repeat case_match.
  - unfold advance_user_read. destruct (try_recv_read s n) as [s1 a] eqn:Er.
    apply try_recv_read_calm in Er. eapply (handled_trans _ _ s1 (PolicySession.set_auth p AuthState.Waiting)); [done|done|].
    destruct a as [[v|]| |]; try done; [|apply respond_steady].
    case_match; [|done]. unfold check_user. case_if; [apply respond_steady|].
    case_if; [apply respond_steady|]. case_if; [|apply finish_steady]. by repeat case_match.
  - unfold advance_clock. destruct (try_recv_write s n) as [s1 a] eqn:Er.
    apply try_recv_write_calm in Er. eapply (handled_trans _ _ s1 (PolicySession.set_auth p AuthState.Waiting)); [done|done|].
    destruct a; try done. apply finish_steady.
Qed.

Lemma messages_steady messages : forall s p now,
  handled_steady s p (@handle_messages _ _ _ _ _ E s p now messages).
Proof.
  induction messages as [|message messages IH]; intros s p now; simpl; [done|].
  destruct (PolicySession.role p).
  - destruct (handle_server_status p message) as [p1 r] eqn:Eh.
    assert (PolicySession.pending_flows p1 = PolicySession.pending_flows p).
    { unfold handle_server_status in Eh. by repeat case_match; simplify_eq. }
    destruct r; [|done]. by eapply handled_trans, IH.
  - pose proof (request_steady s p now message) as [H1 H2].
    destruct (handle_client_request _ _ _ _) as [[s1 p1] [[]|e]]; [|done]. by eapply handled_trans, IH.
Qed.

Lemma poll_session_steady s p now utc a :
  handled_steady s p (@poll_policy_session _ _ _ _ _ _ _ E s p now utc a).
Proof.
  unfold poll_policy_session. destruct (SessionChannel.poll_channel _ _) as [[c ?] r].
  set (p0 := PolicySession.set_channel p c).
  assert (Hgo : forall messages, handled_steady s p (match @handle_messages _ _ _ _ _ E s p0 now messages with
      | (s, session, Err e) => (s, session, Err e)
      | (s, session, Ok _) =>
          match @advance_authentication _ _ _ _ E s session utc with
          | (s, session, Err e) => (s, session, Err e)
          | (s, session, Ok _) => @push_status _ _ E s session now
          end
      end)).
  { intros messages. destruct (messages_steady messages s p0 now) as [H1 H2].
    destruct (handle_messages _ _ _ _) as [[s1 p1] [[]|e]]; [|done].
    eapply (handled_trans _ _ s1 p1); [done|done|]. destruct (advance_steady s1 p1 utc) as [H3 H4].
    destruct (advance_authentication _ _ _) as [[s2 p2] [[]|e]]; [|done].
    eapply (handled_trans _ _ s2 p2); [done|done|].
    unfold push_status. destruct (PolicySession.auth p2); try done. case_if; [|done].
    case_match; [|done]. apply snapshot_steady. }
  destruct r as [[messages|e]|]; [apply Hgo|done|apply Hgo].
Qed.

Lemma poll_sessions_fewer now utc ios handles : forall s,
  fewer s (@poll_sessions _ _ _ _ _ _ _ E s now utc ios handles).
Proof.
  induction handles as [|h handles IH]; intros s; simpl; [apply fewer_refl|].
  destruct (State.sessions s !! h) as [p|] eqn:Ep; [|apply IH].
  set (s0 := State.set_sessions s _).
  destruct (poll_session_steady s0 p now utc (ios h)) as [[[[Hf Hd] Hs] _] Hp].
  destruct (poll_policy_session _ _ _ _ _) as [[s1 p1] r]. simpl in *.
  eapply fewer_trans; [|apply IH]. split_and!.
  - intros h' f'. destruct (is_ok r); simpl; rewrite Hf; simpl; eauto.
  - intros h' f'. destruct (is_ok r); simpl; rewrite Hd; simpl; eauto.
  - intros h' p' H. right. destruct (is_ok r); simpl in *.
    + apply lookup_insert_Some in H as [[<- <-]|[Hne Hl]]; [by exists p|].
      rewrite Hs, lookup_delete_ne in Hl by done. eauto.
    + rewrite Hs in H. apply lookup_delete_Some in H as [_ ?]. eauto.
Qed.

Lemma poll_instance_fewer s env s' status :
  @poll_instance _ _ _ _ _ _ _ _ E s env = Some (s', status) -> fewer s s'.
Proof.
  unfold poll_instance, assign_grants. intros Hs. destruct (State.maintenance s); [simplify_eq; apply fewer_refl|].
  pose proof (stop_expired_fewer s (now_nanos env) (now_utc env)) as H1.
  set (s1 := stop_expired s _ _) in *. destruct (schedule s1) as [s2 scheduled] eqn:E2.
  assert (H2 : steady s1 s2) by (unfold schedule in E2; by case_if_in E2; simplify_eq).
  destruct (global_available s2 _) as [s3 available] eqn:E3.
  assert (H3 : steady s2 s3) by (unfold global_available in E3; by repeat case_match; simplify_eq).
  destruct (grant_users s3 _ _ _ _ _) as [s4 grants] eqn:E4.
  assert (H4 : steady s3 s4).
  { split; [by apply grant_users_still in E4|by apply grant_users_quiet in E4 as [? _]]. }
  apply bind_Some in Hs as (s5 & E5%move_bytes_fewer & [= <- _]).
  eapply fewer_trans; [exact H1|]. eapply fewer_trans; [apply steady_fewer, (steady_trans _ _ _ H2),
    (steady_trans _ _ _ H3), H4|]. eapply fewer_trans; [exact E5|].
  eapply fewer_trans; [apply (poll_sessions_fewer (now_nanos env) (now_utc env) (session_io env)
    (hash_order (map fst (map_to_list (State.sessions s5)))))|].
  unfold retain_flows. apply subset_fewer; simpl; [apply map_filter_subseteq..|done].
Qed.

Lemma poll_sessions_traffic now utc ios handles : forall s,
  let s' := @poll_sessions _ _ _ _ _ _ _ E s now utc ios handles in
  State.traffic s' = State.traffic s /\ State.flow_cursor s' = State.flow_cursor s.
Proof.
  induction handles as [|h handles IH]; intros s; simpl in *; [done|].
  destruct (State.sessions s !! h) as [p|]; [|apply IH].
  set (s0 := State.set_sessions s _).
  destruct (poll_session_steady s0 p now utc (ios h)) as [(_ & Ht & Hc) _].
  destruct (poll_policy_session _ _ _ _ _) as [[s1 p1] r]. simpl in *.
  destruct (IH (if is_ok r then State.set_sessions s1 (<[h := p1]> (State.sessions s1)) else s1)) as [-> ->].
  by case_if.
Qed.

(** What an administrative request leaves: fewer flows, fewer accounts. *)
Definition reduces (s s' : State.t) : Prop := fewer s s' /\ State.traffic s' ⊆ State.traffic s.

Lemma reduces_trans s1 s2 s3 : reduces s1 s2 -> reduces s2 s3 -> reduces s1 s3.
Proof. intros [? ?] [? ?]. split; [by eapply fewer_trans|by etrans]. Qed.

Lemma calm_reduces s s' : calm s s' -> reduces s s'.
Proof. intros (? & Ht & _). split; [by apply steady_fewer|by rewrite Ht]. Qed.

Lemma subset_reduces s s' :
  State.flows s' ⊆ State.flows s -> State.datagram_flows s' ⊆ State.datagram_flows s ->
  State.sessions s' ⊆ State.sessions s -> State.traffic s' ⊆ State.traffic s -> reduces s s'.
Proof. intros. split; [by apply subset_fewer|done]. Qed.

Lemma start_request_calm s fill utc request s' r :
  start_request s fill utc request = (s', r) -> calm s s'.
Proof.
  unfold start_request. case_if; [by intros [= <- <-]|].
  destruct (ControlRequest.parse request) as [q|]; [|by intros [= <- <-]].
  assert (Hread : forall key kind, start_read s request key kind = (s', r) -> calm s s').
  { intros key kind. unfold start_read. by repeat case_match; intros [= <- <-]. }
  assert (Hwrite : forall c n h, start_write s fill utc request q c n h = (s', r) -> calm s s').
  { intros c n h. unfold start_write. by repeat case_match; intros [= <- <-]. }
  assert (Hbackup : forall d, start_backup s request d = (s', r) -> calm s s').
  { intros d. unfold start_backup. by repeat case_match; intros [= <- <-]. }
  destruct q; eauto; (case_match; [case_match; eauto|]); repeat case_match;
    try (by intros [= <- <-]); eauto.
Qed.

Lemma fold_calm {A} (f : State.t -> A -> State.t) l :
  (forall s a, calm s (f s a)) -> forall s, calm s (fold_left f l s).
Proof.
  intros Hf. induction l as [|a l IH]; intros s; simpl; [done|].
  eapply calm_trans; [apply Hf|apply IH].
Qed.

Lemma apply_admin_mutation_reduces s utc m : reduces s (apply_admin_mutation s utc m).
Proof.
  unfold apply_admin_mutation.
  assert (H1 : calm s (fold_left apply_user (AdminMutation.users m) s)).
  { apply fold_calm. intros s0 [id u]. unfold apply_user, evict_user. by repeat case_match. }
  set (s1 := fold_left apply_user _ _) in *.
  assert (H2 : calm s1 (fold_left apply_credential (AdminMutation.credentials m) s1)).
  { apply fold_calm. by intros s0 [id u]. }
  set (s2 := fold_left apply_credential _ _) in *.
  assert (H3 : calm s2 (fold_left apply_rules (AdminMutation.rules m) s2)).
  { apply fold_calm. by intros s0 [id u]. }
  set (s3 := fold_left apply_rules _ _) in *.
  eapply reduces_trans; [apply calm_reduces, (calm_trans _ _ _ H1), (calm_trans _ _ _ H2), H3|].
  eapply (reduces_trans _ (apply_active_rules (AdminMutation.active_rule_profiles m) s3)).
  { unfold apply_active_rules. case_if; [apply calm_reduces; done|].
    apply subset_reduces; simpl; [apply map_filter_subseteq..|done|done]. }
  set (s4 := apply_active_rules _ s3).
  set (s5 := match AdminMutation.disconnect m with
             | Some session => State.set_sessions s4 (base.delete session (State.sessions s4))
             | None => s4
             end).
  eapply (reduces_trans _ s5).
  { unfold s5. case_match; [|apply calm_reduces; done]. apply subset_reduces; simpl; [done..|apply delete_subseteq|done]. }
  eapply (reduces_trans _ (stop_users (stopped_by utc m) s5)).
  { unfold stop_users. case_if; [apply calm_reduces; done|].
    apply subset_reduces; simpl; apply map_filter_subseteq. }
  unfold revoke_credentials. case_if; [apply calm_reduces; done|].
  apply subset_reduces; simpl; [apply map_filter_subseteq..|done].
Qed.

Lemma control_reduces s fill utc request s' r :
  control_instance s fill utc request = (s', r) -> reduces s s'.
Proof.
  unfold control_instance, resume. intros Hs.
  destruct (State.pending_control s) as [pending|];
    [|by apply calm_reduces; eapply start_request_calm].
  case_if_in Hs; [simplify_eq; apply calm_reduces; done|].
  set (s0 := State.set_pending_control s None) in *. assert (H0 : calm s s0) by done.
  destruct pending as [p|p|p].
  - unfold resume_write in Hs. destruct (try_recv_write s0 _) as [s1 a] eqn:Ea.
    apply try_recv_write_calm in Ea. pose proof (calm_trans _ _ _ H0 Ea) as H1.
    destruct a; [|by simplify_eq; apply calm_reduces..].
    destruct (AdminSequencer.apply_commit _ _ _) as [q [[]|e]]; simplify_eq.
    + eapply reduces_trans; [|apply apply_admin_mutation_reduces]. by apply calm_reduces.
    + by apply calm_reduces.
  - unfold resume_read in Hs. destruct (try_recv_read s0 _) as [s1 a] eqn:Ea.
    apply try_recv_read_calm in Ea. pose proof (calm_trans _ _ _ H0 Ea) as H1.
    destruct a; [|by simplify_eq; apply calm_reduces..].
    destruct (finish_admin_read s1 _ _) as [s2 x] eqn:Ef.
    assert (H2 : calm s s2).
    { eapply calm_trans; [exact H1|]. unfold finish_admin_read, evict_user in Ef.
      by repeat case_match; simplify_eq. }
    destruct x; [|by simplify_eq; apply calm_reduces].
    apply calm_reduces. eapply calm_trans; [exact H2|]. by eapply start_request_calm.
  - unfold resume_backup in Hs. destruct (try_recv_write s0 _) as [s1 a] eqn:Ea.
    apply try_recv_write_calm in Ea. pose proof (calm_trans _ _ _ H0 Ea) as H1.
    by destruct a; simplify_eq; apply calm_reduces.
Qed.

Lemma attach_session_fewer s next now raw context s' next' status handle :
  @attach_session _ _ E s next now raw context = (s', next', status, handle) -> fewer s s'.
Proof.
  unfold attach_session, fetch_add. intros Hs.
  repeat case_match; simplify_eq; try apply fewer_refl.
  split_and!; simpl; [by eauto..|]. intros h p'.
  intros [[_ <-]|[_ Hl]]%lookup_insert_Some; [by left|eauto].
Qed.

Lemma shutdown_fewer s now s' status : shutdown_instance s now = (Some s', status) -> fewer s s'.
Proof.
  unfold shutdown_instance. intros Hs.
  set (s0 := if State.shutting_down s then s else State.set_datagram_flows (State.set_flows
    (State.set_sessions (State.set_shutting_down s true) ∅) ∅) ∅) in *.
  assert (H0 : fewer s s0).
  { unfold s0. case_if; [apply fewer_refl|]. apply subset_fewer; apply map_empty_subseteq. }
  destruct (advance_quota s0 now) as [s1 st] eqn:E1.
  assert (H1 : steady s0 s1).
  { split; [by apply advance_quota_still in E1|by apply advance_quota_quiet in E1 as [? _]]. }
  assert (H2 : still s1 s' /\ State.sessions s' = State.sessions s1)
    by (repeat case_match; by simplify_eq).
  eapply fewer_trans; [exact H0|]. apply steady_fewer. by eapply steady_trans.
Qed.

(** * Admission and attachment *)

Lemma total_update {A} (f : A -> Z) (m : gmap Z A) h x y :
  m !! h = Some x -> total f (<[h := y]> m) = total f m - f x + f y.
Proof.
  intros Hm. rewrite (total_delete f m h x Hm), <- insert_delete_eq, total_insert; [lia|].
  apply lookup_delete_eq.
Qed.

(** What one identity contributes to a user's count. *)
Definition one_of (id user : str) : Z := if bool_decide (user = id) then 1 else 0.

Lemma pending_of_cons id p a rest :
  PolicySession.pending_flows p = a :: rest ->
  pending_of id p = one_of id (FlowIdentity.user_id a)
    + pending_of id (PolicySession.set_pending_flows p rest).
Proof.
  intros Hp. unfold pending_of, one_of. rewrite Hp. simpl. rewrite filter_cons.
  case_bool_decide; rewrite ?decide_True, ?decide_False by done; lens; lia.
Qed.

Lemma pending_of_snoc id p a :
  pending_of id (PolicySession.set_pending_flows p (PolicySession.pending_flows p ++ [a]))
  = pending_of id p + one_of id (FlowIdentity.user_id a).
Proof.
  unfold pending_of, one_of. simpl. rewrite filter_app, filter_cons, filter_nil. lens.
  case_bool_decide; rewrite ?decide_True, ?decide_False by done; lens; lia.
Qed.

Lemma take_identity_flows s session s' r id :
  take_identity s session = (s', r) ->
  still s s' /\
  pending_total s' id = pending_total s id -
    match r with Ok (Some a) => one_of id (FlowIdentity.user_id a) | _ => 0 end.
Proof.
  unfold take_identity. destruct (State.sessions s !! session) as [p|] eqn:Ep;
    [|intros [= <- <-]; split; [done|lia]].
  destruct (PolicySession.role p); [intros [= <- <-]; split; [done|lia]|].
  destruct (PolicySession.pending_flows p) as [|a rest] eqn:Ea; [intros [= <- <-]; split; [done|lia]|].
  intros [= <- <-]. split; [done|].
  change (total (pending_of id) (<[session := PolicySession.set_pending_flows p rest]>
    (State.sessions s)) = total (pending_of id) (State.sessions s) - one_of id (FlowIdentity.user_id a)).
  rewrite (total_update _ _ _ p) by done. rewrite (pending_of_cons id p a rest Ea). lia.
Qed.

Lemma one_of_eq id user : (if bool_decide (Some user = Some id) then 1 else 0) = one_of id user.
Proof. unfold one_of. by repeat case_bool_decide; simplify_eq. Qed.

Lemma one_of_nonneg id user : 0 <= one_of id user.
Proof. unfold one_of. case_if; lia. Qed.

Lemma attach_flow_count s next now session raw pumps s' next' status id :
  attach_flow s next now session raw pumps = (s', next', status) -> user_flows s' id <= user_flows s id.
Proof.
  unfold attach_flow, fetch_add. case_if; [by intros [= <- <- <-]|].
  destruct (take_identity s session) as [s1 r] eqn:Et.
  apply (take_identity_flows _ _ _ _ id) in Et as [[Hf Hd] Hp]. unfold user_flows.
  destruct r as [admitted|e]; [|intros [= <- <- <-]; rewrite Hf, Hd; lia].
  assert (Hn : 0 <= match admitted with Some a => one_of id (FlowIdentity.user_id a) | None => 0 end)
    by (destruct admitted; [apply one_of_nonneg|lia]).
  do 3 (case_if; [intros [= <- <- <-]; rewrite Hf, Hd; destruct admitted; lia|]).
  intros [= <- <- <-]. simpl. rewrite Hf, Hd. 
  assert (Hx : forall m, pending_total (State.set_flows s1 m) id = pending_total s1 id) by done.
  rewrite Hx.
  set (flow := PolicyFlow.new _ _ _ _ _).
  pose proof (count_values_insert (State.flows s) next flow (of_user id)) as Hc.
  assert (Hq : (if of_user id flow then 1 else 0)
    = match admitted with Some a => one_of id (FlowIdentity.user_id a) | None => 0 end).
  { unfold flow, of_user. destruct admitted; simpl; [apply one_of_eq|done]. }
  rewrite Hq in Hc. destruct admitted; lia.
Qed.

Lemma attach_datagram_flow_count s next session raw pumps s' next' status id :
  attach_datagram_flow s next session raw pumps = (s', next', status) -> user_flows s' id <= user_flows s id.
Proof.
  unfold attach_datagram_flow, fetch_add. case_if; [by intros [= <- <- <-]|].
  destruct (take_identity s session) as [s1 r] eqn:Et.
  apply (take_identity_flows _ _ _ _ id) in Et as [[Hf Hd] Hp]. unfold user_flows.
  destruct r as [admitted|e]; [|intros [= <- <- <-]; rewrite Hf, Hd; lia].
  assert (Hn : 0 <= match admitted with Some a => one_of id (FlowIdentity.user_id a) | None => 0 end)
    by (destruct admitted; [apply one_of_nonneg|lia]).
  do 3 (case_if; [intros [= <- <- <-]; rewrite Hf, Hd; destruct admitted; lia|]).
  intros [= <- <- <-]. simpl. rewrite Hf, Hd. 
  assert (Hx : forall m, pending_total (State.set_datagram_flows s1 m) id = pending_total s1 id) by done.
  rewrite Hx.
  set (flow := PolicyDatagramFlow.new _ _ _ _).
  pose proof (count_values_insert (State.datagram_flows s) next flow (datagram_of_user id)) as Hc.
  assert (Hq : (if datagram_of_user id flow then 1 else 0)
    = match admitted with Some a => one_of id (FlowIdentity.user_id a) | None => 0 end).
  { unfold flow, datagram_of_user. destruct admitted; simpl; [apply one_of_eq|done]. }
  rewrite Hq in Hc. destruct admitted; lia.
Qed.

(** A user is within its limit. *)
Definition within (user : UserRecord.t) (n : Z) : Prop :=
  match UserSpec.max_flows (UserRecord.spec user) with
  | CountLimit.Unlimited => True
  | CountLimit.Limited count => count <= u32_max -> n <= count
  end.

Lemma admit_flow_count s session utc metadata s' status id :
  keyed s -> admit_flow s session utc metadata = (s', status) ->
  user_flows s' id = user_flows s id \/
  exists user, user_of s id = Some user /\ flow_available_at s user utc = true /\
    user_flows s' id = user_flows s id + 1 /\ within user (user_flows s' id).
Proof.
  intros Hk. unfold admit_flow. case_if; [intros [= <- <-]; by left|].
  destruct (flow_session s session) as [[p uid]|] eqn:Ef; [|intros [= <- <-]; by left].
  assert (Hp : State.sessions s !! session = Some p).
  { unfold flow_session in Ef. repeat case_match; by simplify_eq. }
  destruct (PolicySession.role p); [intros [= <- <-]; by left|].
  destruct (user_of s uid) as [user|] eqn:Eu; [|intros [= <- <-]; by left].
  destruct (negb _ || _) eqn:Eg; bools; [intros [= <- <-]; by left|].
  destruct (destination_policy _ _ _ _) as [sniff|]; [|intros [= <- <-]; by left].
  intros [= <- <-]. set (a := FlowIdentity.mk _ _ _).
  set (s' := State.set_sessions s _).
  assert (Ht : pending_total s' id = pending_total s id + one_of id uid).
  { change (total (pending_of id) (<[session := PolicySession.set_pending_flows p
      (PolicySession.pending_flows p ++ [a])]> (State.sessions s))
      = total (pending_of id) (State.sessions s) + one_of id uid).
    rewrite (total_update _ _ _ p) by done. rewrite pending_of_snoc. simpl. lia. }
  assert (Hc : user_flows s' id = user_flows s id + one_of id uid).
  { unfold user_flows. rewrite Ht. simpl. lia. }
  unfold one_of in Hc. case_bool_decide as Hid; [|left; lia]. subst uid. right. exists user.
  split_and!; [done..|]. unfold within. rewrite Hc.
  assert (Hu : UserRecord.id user = id) by by apply Hk.
  match goal with H : flow_limit_reached s user = false |- _ => revert H end.
  unfold flow_limit_reached, active_flows. rewrite Hu. case_match; [done|]. intros Hl Hmax. bools.
  change (fun flow => bool_decide (PolicyFlow.user_id flow = Some id)) with (of_user id) in Hl.
  change (fun flow => bool_decide (PolicyDatagramFlow.user_id flow = Some id))
    with (datagram_of_user id) in Hl.
  pose proof (pending_total_nonneg s id). unfold user_flows. ints.
Qed.

(** * The limit *)

Lemma initialize_keyed `{HT6 : Toml Options.t} env opened config base s :
  initialize env opened config base = Ok s -> keyed s.
Proof.
  unfold initialize.
  intros (b & _ & (o & _ & (g & _ & (d' & Hd & (w & Hw & (q & Hq & ([w' l] & Hl &
    (q' & Hr & (c & _ & [= <-])%bind_Ok)%bind_Ok)%bind_Ok)%bind_Ok)%bind_Ok)%bind_Ok)%bind_Ok)%bind_Ok)%bind_Ok.
  split_and!; [|done..]. intros id user. unfold user_of. simpl. by rewrite lookup_empty.
Qed.

(** C3: no user gets more flows than its limit.  Along any run of an instance,
    from its start on, a step raises the number of a user's flows (running
    TCP and UDP flows and admissions waiting for their flow) only when it
    admits one flow of a user that is available, and then the count stays
    within the limit in the user's record. *)
Theorem flow_limit_respected `{HT6 : Toml Options.t} env opened config base s0 s utc s' id :
  initialize env opened config base = Ok s0 ->
  rtc (fun a b => exists t, step (E := E) t a b) s0 s -> step (E := E) utc s s' ->
  user_flows s' id <= user_flows s id \/
  exists user, user_of s id = Some user /\ flow_available_at s user utc = true /\
    user_flows s' id = user_flows s id + 1 /\ within user (user_flows s' id).
Proof.
  intros H0 Hrun Hstep.
  assert (Hk : keyed s).
  { apply initialize_keyed in H0. induction Hrun as [|s1 s2 s3 [t Ht] _ IH]; [done|].
    apply IH; [|done]. by eapply step_keyed. }
  destruct Hstep.
  - left. by eapply fewer_user_flows, poll_instance_fewer.
  - left. apply fewer_user_flows. by eapply control_reduces.
  - left. by eapply fewer_user_flows, attach_session_fewer.
  - edestruct admit_flow_count as [->|H']; [done|done|by left|by right].
  - left. by eapply attach_flow_count.
  - left. by eapply attach_datagram_flow_count.
  - left. by eapply fewer_user_flows, shutdown_fewer.
  - left. done.
Qed.
End facts.

(** * A concrete run *)
Import World.

Definition example_destination : FlowMetadata.t := FlowMetadata.mk ADDRESS_DOMAIN #"example.com" 443.

(** The authenticated client of [run5] opens a first flow, then a second. *)
Definition admitted : State.t := fst (admit_flow run5 1 1000 example_destination).

Lemma admitted_reached : rtc (fun a b => exists utc, step (E := unit) utc a b) run0 admitted.
Proof.
  eapply rtc_r; [eapply rtc_subrel; [exact next_step|apply run5_reached]|]. exists 1000.
  unfold admitted. destruct (admit_flow run5 1 1000 example_destination) as [s status] eqn:Ea.
  by eapply step_admit_flow.
Qed.

Lemma flow_limit_respected_witness :
  user_flows admitted alice = 1 /\
  user_flows (fst (admit_flow admitted 1 1000 example_destination)) alice = 2 /\
  exists user, user_of admitted alice = Some user /\
    UserSpec.max_flows (UserRecord.spec user) = CountLimit.Limited 2 /\
    within user (user_flows (fst (admit_flow admitted 1 1000 example_destination)) alice).
Proof.
  assert (H1 : user_flows admitted alice = 1) by (vm_compute; reflexivity).
  assert (H2 : user_flows (fst (admit_flow admitted 1 1000 example_destination)) alice = 2)
    by (vm_compute; reflexivity).
  assert (H3 : ((fun u => UserSpec.max_flows (UserRecord.spec u)) <$> user_of admitted alice)
    = Some (CountLimit.Limited 2)) by (vm_compute; reflexivity).
  split; [exact H1|]. split; [exact H2|].
  destruct (admit_flow admitted 1 1000 example_destination) as [s' status] eqn:Ea. simpl in H2.
  destruct (flow_limit_respected (HR := world_redb) (E := unit) _ _ _ _ run0 admitted 1000 s' alice run0_started admitted_reached (step_admit_flow _ _ _ _ _ _ Ea))
    as [Hle|(user & Hu & _ & _ & Hw)].
  - exfalso. rewrite H1, H2 in Hle. apply Hle. reflexivity.
  - exists user. split; [exact Hu|]. rewrite Hu in H3. injection H3 as H3. split; [exact H3|exact Hw].
Defined.
