(* ===== verification/OrderingFacts.v ===== *)
(** Two interleavings of a policy-local instance with an outcome its parts do
    not intend, run on the model: an administrative change that crosses a debit
    of the same user, and a rule on an address that is only known once a name is
    resolved. *)
From Stdlib Require Import Strings.Byte.
From S2P Require Import Prelude Text Net Frame Accounting Admin Config Sniff Service Storage Rules Flow State Traffic Session Control Policy Scenario.
#[local] Open Scope Z_scope.
Import World.

Definition domain_destination : FlowMetadata.t := FlowMetadata.mk ADDRESS_DOMAIN #"example.com" 443.
Definition address_destination : FlowMetadata.t :=
  FlowMetadata.mk ADDRESS_IPV4 [x0a; x00; x00; x01] 443.

(** Admit a flow and attach it under handle 1. *)
Definition open_flow (metadata : FlowMetadata.t) (s : State.t) : State.t :=
  fst (fst (attach_flow (fst (admit_flow s 1 1000 metadata)) 1 0 1 true true)).

(** * A quota grant that crosses a debit *)

(** The quota, the durable charge and the revision of a record. *)
Definition standing (user : UserRecord.t) : ByteLimit.t * Z * Z :=
  (UserSpec.quota (UserRecord.spec user), UserRecord.durable_charged_bytes user,
   UserRecord.revision user).
Definition cached (s : State.t) : option (ByteLimit.t * Z * Z) := standing <$> user_of s alice.
Definition stored (s : State.t) : option (ByteLimit.t * Z * Z) :=
  d ← StorageWorker.db (State.storage s);
  v ← committed d !! user_key alice;
  match decode_user_record v with Ok user => Some (standing user) | Err _ => None end.

(** A flow of the user starts, so the next poll asks for a block of credit;
    before the storage has answered, the quota is raised by 500000 bytes. *)
Definition debited : State.t := poll_with 0 [] (open_flow domain_destination (server alice_user)).
Definition raising : State.t := serve (serve (fst (control debited quota_request))).
Definition raised : State.t * result Status bytes := control raising quota_request.
Definition settled : State.t := poll_with 10 [] (fst raised).

(** A committed quota grant can be lost.  A debit writes the whole user
    record, as it was when the credit was requested, and its commit puts that
    record back into the cache.  When the quota is raised in between, the
    request is answered and first in force (600000 bytes at revision 2), and the
    next poll reinstates the old limit at revision 1 in memory; the database is
    left with the new limit and without the debit of 4096 bytes. *)
Theorem quota_grant_lost :
  snd raised = Ok #"ok" /\
  cached (fst raised) = Some (ByteLimit.Limited 600000, 0, 2) /\
  cached settled = Some (ByteLimit.Limited 100000, 4096, 1) /\
  stored settled = Some (ByteLimit.Limited 600000, 0, 2).
Proof. vm_compute. auto. Qed.

(** * A rule on a resolved address *)

(** TLS to 10.0.0.0/8 is denied, everything else allowed. *)
Definition address_rules : Rules.t :=
  Rules.mk Action.Allow
    [RuleEntry.mk Action.Deny Direction.Upload ObservedProtocol.Tls Action.Deny
       (Some #"10.0.0.0/8") None None None None None None].
Definition ruled : State.t :=
  State.set_options (server alice_user)
    (Options.mk #"server" CredentialTransport.Protected 16 4 4096 1000 1000 4096 1000
      UnknownAction.Allow 60000 (StorageOptions.mk #"/var/policy.redb" 65536 1048576 16 4096 10)
      GlobalRate.Unlimited address_rules None).

Definition sniffed (s : State.t) : option bool :=
  (fun flow => is_some (PolicyFlow.sniff flow)) <$> State.flows s !! 1.

(** A protocol rule on an address does not reach flows that name their
    destination.  Such a flow to an address is watched until its protocol is
    known.  The same flow by name is admitted unwatched; when the name resolves
    to that address the second check finds the rule, answers that the flow is
    admitted, and drops the verdict that it has to be watched. *)
Theorem resolved_rule_lost :
  sniffed (open_flow address_destination ruled) = Some true /\
  sniffed (open_flow domain_destination ruled) = Some false /\
  admit_resolved ruled 1 1000 address_destination = STATUS_OK /\
  is_some <$> destination_policy (State.options ruled) (rules_of ruled) alice_user address_destination
    = Ok true.
Proof. vm_compute. auto. Qed.
