(* ===== verification/AccountFacts.v ===== *)
(** The accounts of an instance (Traffic.v, Policy.v) along its runs: the debit or
    refund that is on its way to the storage always fits the account, so that a
    durable write is never turned down. *)
From Stdlib Require Import Strings.Byte.
From stdpp Require Import sorting.
From S2P Require Import Prelude Text Net Frame Accounting Admin Config Sniff Service Storage Rules Flow State Traffic Session Control Policy Scenario SessionFacts LimitFacts OrderingFacts.
#[local] Open Scope Z_scope.

Import QuotaAccount.

(** * One account *)

(** The counters of an account are in order. *)
Definition sound (q : QuotaAccount.t) : Prop :=
  (exists floor, inv floor q) /\ is_u64 (block_bytes q).

(** The flags of the account say which write is pending, and its amount fits. *)
Record books (t : UserTraffic.t) : Prop := {
  books_debit : debit_pending (UserTraffic.quota t) = is_some (UserTraffic.debit t);
  books_refund : refund_pending (UserTraffic.quota t) = is_some (UserTraffic.refund t);
  books_credit : forall d, UserTraffic.debit t = Some d ->
    0 < PendingDebit.amount d <= block_bytes (UserTraffic.quota t) /\
    forall l, limit_bytes (UserTraffic.quota t) = Some l ->
      durable_charged (UserTraffic.quota t) + PendingDebit.amount d <= l;
  books_debit_record : forall d, UserTraffic.debit t = Some d ->
    is_u64 (UserRecord.durable_charged_bytes (PendingDebit.record d));
  books_return : forall r, UserTraffic.refund t = Some r ->
    PendingRefund.amount r = credit_remaining (UserTraffic.quota t) /\ PendingRefund.amount r <> 0;
  books_refund_record : forall r, UserTraffic.refund t = Some r ->
    is_u64 (UserRecord.durable_charged_bytes (PendingRefund.record r));
}.

Definition account_ok (t : UserTraffic.t) : Prop :=
  sound (UserTraffic.quota t) /\ (UserTraffic.failed t = false -> books t).

(** No write of the account is pending. *)
Definition at_rest (t : UserTraffic.t) : Prop :=
  UserTraffic.debit t = None /\ UserTraffic.refund t = None.

Lemma step_sound q o : op_ok o -> sound q -> sound (fst (step q o)).
Proof.
  intros Ho [[floor Hi] Hb]. pose proof (step_preserves q o Ho floor Hi) as Hs.
  assert (Hk : block_bytes (fst (step q o)) = block_bytes q).
  { destruct o; simpl; unfold request_credit, commit_credit, charge, request_refund, commit_refund,
      checkpoint_refund, request_refund, commit_refund; repeat case_match; by simplify_eq. }
  destruct (step q o) as [q' n]. destruct Hs as [Hi' _]. simpl in *. split; [eauto|by rewrite Hk].
Qed.

Lemma sound_credit q : sound q -> 0 <= credit_remaining q <= durable_charged q /\ durable_charged q <= u64_max.
Proof. intros [[floor Hi] _]. unfold inv in Hi. lia. Qed.

Lemma sound_block q : sound q -> 0 < block_bytes q.
Proof. intros [[floor Hi] _]. unfold inv in Hi. lia. Qed.

Lemma new_sound limit charged block q :
  is_u64 charged -> is_u64 block -> new limit charged block = Ok q ->
  sound q /\ debit_pending q = false /\ refund_pending q = false.
Proof.
  intros Hc Hb Hn. destruct (new_inv _ _ _ _ Hc Hb Hn) as [Hi _].
  unfold new in Hn. case_if_in Hn; [done|]. simplify_eq. split; [|done]. split; eauto.
Qed.

Lemma request_credit_books q q' n :
  0 < block_bytes q -> request_credit q = (q', Ok n) ->
  debit_pending q = false /\ refund_pending q = false /\ 0 < n <= block_bytes q /\
  (forall l, limit_bytes q = Some l -> durable_charged q + n <= l) /\
  q' = mk (limit_bytes q) (durable_charged q) (credit_remaining q) (block_bytes q) true false.
Proof.
  intros Hb. unfold request_credit. case_if; [done|]. case_if; [done|]. intros [= <- <-]. bools.
  match goal with H : refund_pending q = false |- _ => rewrite H end.
  destruct (limit_bytes q) as [l|]; simpl in *; split_and!; try done; try ints.
  intros l' [= <-]. ints.
Qed.

Lemma request_refund_books q q' n :
  request_refund q = (q', Ok n) ->
  debit_pending q = false /\ refund_pending q = false /\ n = credit_remaining q /\ n <> 0 /\
  q' = mk (limit_bytes q) (durable_charged q) (credit_remaining q) (block_bytes q) false true.
Proof.
  unfold request_refund. case_if; [done|]. case_if; [done|]. intros [= <- <-]. bools.
  match goal with H : debit_pending q = false |- _ => rewrite H end. split_and!; done || lia.
Qed.

(** What the storage has written, the account accepts. *)
Lemma commit_credit_accepts t d :
  account_ok t -> UserTraffic.failed t = false -> UserTraffic.debit t = Some d ->
  let q := UserTraffic.quota t in
  durable_charged q + PendingDebit.amount d <= u64_max ->
  commit_credit q (PendingDebit.amount d) =
    (mk (limit_bytes q) (durable_charged q + PendingDebit.amount d) (PendingDebit.amount d)
       (block_bytes q) false false, Ok tt).
Proof.
  intros [Hs Hb] Hf Hd q Hmax. destruct (Hb Hf) as [Hdp Hrp Hc _ _ _]. rewrite Hd in Hdp.
  destruct (Hc _ Hd) as [[Hpos Hblock] Hlim]. destruct Hs as [[floor Hi] _].
  destruct Hi as (_ & _ & _ & _ & _ & Hexcl). destruct (Hexcl Hdp) as [_ Hr].
  fold q in Hdp, Hblock, Hlim, Hr. unfold commit_credit. rewrite Hdp, Hr. simpl.
  rewrite (proj2 (Z.eqb_neq _ _)) by lia. rewrite (proj2 (Z.ltb_ge _ _)) by lia. simpl.
  unfold checked_add. rewrite (proj2 (Z.leb_le _ _)) by lia.
  destruct (limit_bytes q) as [l|]; simpl; [|done].
  specialize (Hlim l eq_refl). by rewrite (proj2 (Z.ltb_ge _ _)) by lia.
Qed.

Lemma commit_refund_accepts t r :
  account_ok t -> UserTraffic.failed t = false -> UserTraffic.refund t = Some r ->
  let q := UserTraffic.quota t in
  commit_refund q (PendingRefund.amount r) =
    (mk (limit_bytes q) (durable_charged q - PendingRefund.amount r) 0 (block_bytes q) false false,
     Ok tt).
Proof.
  intros [Hs Hb] Hf Hr q. destruct (Hb Hf) as [Hdp Hrp _ _ Hc _]. rewrite Hr in Hrp.
  destruct (Hc _ Hr) as [Ha Hne]. pose proof (sound_credit _ Hs) as Hle.
  destruct Hs as [[floor Hi] _]. destruct Hi as (_ & _ & _ & _ & _ & Hexcl).
  fold q in Hdp, Hrp, Ha, Hle, Hexcl. unfold commit_refund.
  assert (Hd : debit_pending q = false).
  { destruct (debit_pending q); [|done]. destruct (Hexcl eq_refl). simpl in Hrp. congruence. }
  rewrite Hrp, Hd. simpl. rewrite (proj2 (Z.eqb_neq _ _)) by lia. rewrite Ha, Z.eqb_refl. simpl.
  unfold checked_sub. by rewrite (proj2 (Z.leb_le _ _)) by lia.
Qed.

(** * All accounts *)

Section facts.
Context `{HR : Redb, HS : Sha256, HO : HashOrder, HP1 : Postcard StoredUserRecord.t,
  HP2 : Postcard CredentialRecord.t, HP3 : Postcard Receipt.t, HT1 : Toml ControlRequest.t,
  HT2 : Toml Rules.t, HT3 : Toml ClientRequest.t, HT4 : Toml ServerStatus.t,
  HT5 : Toml ChannelSecurity.t, HX1 : TomlPrint MutationResponse.t,
  HX2 : TomlPrint UsageResponse.t, HX3 : TomlPrint SessionsResponse.t,
  HX4 : TomlPrint BackupResponse.t, HX5 : TomlPrint PolicyStatus.t}.
Context {E : Type}.

Definition accounts_ok (s : State.t) : Prop :=
  forall id t, State.traffic s !! id = Some t -> account_ok t.

(** The counters that accounts are opened with are of their type, u64. *)
Definition typed (s : State.t) : Prop :=
  (forall id user, user_of s id = Some user -> is_u64 (UserRecord.durable_charged_bytes user)) /\
  is_u64 (StorageOptions.accounting_block_bytes (Options.storage (State.options s))).

Lemma accounts_eq s s' : accounts_ok s -> State.traffic s' = State.traffic s -> accounts_ok s'.
Proof. unfold accounts_ok. by intros H ->. Qed.

Lemma accounts_subset s s' : accounts_ok s -> State.traffic s' ⊆ State.traffic s -> accounts_ok s'.
Proof. intros H Hs id t Hl. eapply H. by eapply lookup_weaken. Qed.

Lemma accounts_set s id t : accounts_ok s -> account_ok t -> accounts_ok (set_user_traffic s id t).
Proof.
  intros Hs Ht id' t'. simpl. intros [[<- <-]|[_ Hl]]%lookup_insert_Some; [done|eauto].
Qed.

(** Without a pending write only the flags matter. *)
Lemma rest_books t :
  debit_pending (UserTraffic.quota t) = false -> refund_pending (UserTraffic.quota t) = false ->
  at_rest t -> books t.
Proof. intros Hd Hr [Ed Er]. split; rewrite ?Hd, ?Hr, ?Ed, ?Er; done. Qed.

(** At most one write is pending. *)
Lemma one_pending t :
  account_ok t -> UserTraffic.failed t = false ->
  UserTraffic.debit t = None \/ UserTraffic.refund t = None.
Proof.
  intros [Hq Hb] Hf. destruct (Hb Hf) as [Hdp Hrp _ _ _ _].
  destruct (UserTraffic.debit t); [|by left]. destruct (UserTraffic.refund t); [|by right].
  destruct Hq as [[floor Hi] _]. destruct Hi as (_ & _ & _ & _ & _ & He).
  destruct (He Hdp). simpl in Hrp. congruence.
Qed.

Lemma failed_ok t : sound (UserTraffic.quota t) -> account_ok (UserTraffic.set_failed t true).
Proof. by split. Qed.

Lemma debit_put_back t d :
  UserTraffic.debit t = Some d ->
  UserTraffic.set_debit (UserTraffic.set_debit t None) (Some d) = t.
Proof. by destruct t; simpl; intros ->. Qed.

Lemma refund_put_back t r :
  UserTraffic.refund t = Some r ->
  UserTraffic.set_refund (UserTraffic.set_refund t None) (Some r) = t.
Proof. by destruct t; simpl; intros ->. Qed.

Lemma try_recv_write_traffic s n s' a :
  try_recv_write s n = (s', a) ->
  State.traffic s' = State.traffic s /\
  AdminState.users (State.admin s') = AdminState.users (State.admin s) /\
  State.options s' = State.options s.
Proof.
  unfold try_recv_write. destruct (StorageWorker.try_recv _ _). by repeat case_match; intros [= <- <-].
Qed.

Lemma typed_eq s s' :
  typed s -> AdminState.users (State.admin s') = AdminState.users (State.admin s) ->
  State.options s' = State.options s -> typed s'.
Proof. unfold typed, user_of. by intros H -> ->. Qed.

Lemma typed_user s id user :
  typed s -> is_u64 (UserRecord.durable_charged_bytes user) ->
  typed (with_users s (fun m => <[id := user]> m)).
Proof.
  intros [Hu Hb] Hid. split; [|done]. intros id' user'. unfold user_of. simpl.
  intros [[<- <-]|[_ Hl]]%lookup_insert_Some; [done|by eapply Hu].
Qed.

Lemma put_charged_typed s id f s' o :
  put_charged s id f = (s', o) -> typed s ->
  (forall n m, is_u64 n -> f n = Some m -> is_u64 m) ->
  State.traffic s' = State.traffic s /\ typed s' /\
  forall record reply, o = Some (record, reply) -> is_u64 (UserRecord.durable_charged_bytes record).
Proof.
  unfold put_charged. intros Hs Ht Hf. destruct (user_of s id) as [u|] eqn:Eu; [|by simplify_eq].
  apply (proj1 Ht) in Eu. destruct (f _) as [m|] eqn:Ef; [|by simplify_eq]. apply Hf in Ef; [|done].
  repeat case_match; simplify_eq; split_and!; try done; by intros record' reply' [= <- <-].
Qed.

Lemma checked_add_u64 n m k : 0 <= k -> is_u64 n -> checked_add u64_max n k = Some m -> is_u64 m.
Proof. intros Hk Hn [-> ?]%checked_add_Some. unfold is_u64 in *. lia. Qed.

Lemma checked_sub_u64 n m k : 0 <= k -> is_u64 n -> checked_sub n k = Some m -> is_u64 m.
Proof. intros Hk Hn [-> ?]%checked_sub_Some. unfold is_u64 in *. lia. Qed.

(** ** A user's round *)

Lemma open_traffic_ok s now id active s' v :
  open_traffic s now id active = (s', v) -> typed s -> accounts_ok s -> typed s' /\ accounts_ok s'.
Proof.
  unfold open_traffic. intros Hs [Hu Hb] Hok. case_if_in Hs; [by simplify_eq|].
  case_if_in Hs; [by simplify_eq|].
  destruct (user_of s id) as [u|] eqn:Eu; [|by simplify_eq]. apply Hu in Eu.
  destruct (new_traffic s now u) as [t|] eqn:En; simplify_eq; [|done].
  split; [done|]. apply accounts_set; [done|]. unfold new_traffic in En.
  destruct (new _ _ _) as [q|] eqn:Eq; [|done]. apply new_sound in Eq as (Hq & Hd & Hr); [|done..].
  repeat case_match; simplify_eq. split; [done|]. intros _. by split.
Qed.

(** What settling a write leaves behind for the next block. *)
Definition settled_to (id : str) (s' : State.t) (v : option verdict) : Prop :=
  typed s' /\ accounts_ok s' /\
  (v = None -> exists t', State.traffic s' !! id = Some t' /\ UserTraffic.failed t' = false).

Lemma settle_debit_ok s id t s' v :
  settle_debit s id t = (s', v) -> typed s -> accounts_ok s -> State.traffic s !! id = Some t ->
  UserTraffic.failed t = false -> settled_to id s' v.
Proof.
  unfold settle_debit. intros Hs Hty Hok Ht Hf. pose proof (Hok _ _ Ht) as [Hq Hb].
  destruct (UserTraffic.debit t) as [d|] eqn:Ed; [|simplify_eq; by split_and!; eauto].
  assert (Er0 : UserTraffic.refund t = None) by (destruct (one_pending t); try done; congruence).
  destruct (Hb Hf) as [Hdp Hrp Hc Hdr Hret Hrr]. rewrite Er0 in Hrp. destruct (Hc _ Ed) as [[Hpos Hblock] Hlim].
  destruct (try_recv_write s _) as [s1 a] eqn:Er. apply try_recv_write_traffic in Er as (Er & Eu & Eo).
  assert (Hok1 : accounts_ok s1) by by eapply accounts_eq.
  assert (Hty1 : typed s1) by by eapply typed_eq.
  assert (Hu : is_u64 (PendingDebit.amount d)) by (destruct Hq as [_ Hu]; unfold is_u64 in *; lia).
  pose proof (step_sound _ (CommitCredit (PendingDebit.amount d)) Hu Hq) as Hq'.
  destruct a; [|simplify_eq; (split_and!; [done| |done])..].
  - simpl in *. destruct (commit_credit _ _) as [q r] eqn:Ec. case_if_in Hs; simplify_eq.
    + split_and!; [done| |done]. apply accounts_set; [done|]. by apply failed_ok.
    + split_and!; [by apply typed_user; eauto| |intros _; simpl; rewrite lookup_insert_eq; eauto].
      apply (accounts_set s1); [done|]. split; [done|]. intros _.
      destruct r; [|done]. unfold commit_credit in Ec. case_if_in Ec; [done|].
      destruct (checked_add _ _ _); [|done]. case_if_in Ec; simplify_eq.
      by apply rest_books.
  - apply accounts_set; [done|]. apply failed_ok. by apply (step_sound _ FailCredit).
  - apply accounts_set; [done|]. by rewrite (debit_put_back t d) by done.
Qed.

Lemma settle_refund_ok s now id active t s' v :
  settle_refund s now id active t = (s', v) -> typed s -> accounts_ok s -> State.traffic s !! id = Some t ->
  UserTraffic.failed t = false -> settled_to id s' v.
Proof.
  unfold settle_refund. intros Hs Hty Hok Ht Hf. pose proof (Hok _ _ Ht) as [Hq Hb].
  destruct (UserTraffic.refund t) as [d|] eqn:Ed; [|simplify_eq; by split_and!; eauto].
  assert (Er0 : UserTraffic.debit t = None) by (destruct (one_pending t); try done; congruence).
  destruct (Hb Hf) as [Hdp Hrp Hc Hdr Hret Hrr]. rewrite Er0 in Hdp. destruct (Hret _ Ed) as [Ha Hne].
  destruct (try_recv_write s _) as [s1 a] eqn:Er. apply try_recv_write_traffic in Er as (Er & Eu & Eo).
  assert (Hok1 : accounts_ok s1) by by eapply accounts_eq.
  assert (Hty1 : typed s1) by by eapply typed_eq.
  assert (Hu : is_u64 (PendingRefund.amount d)).
  { pose proof (sound_credit _ Hq). unfold is_u64. lia. }
  pose proof (step_sound _ (CommitRefund (PendingRefund.amount d)) Hu Hq) as Hq'.
  destruct a; [|simplify_eq; (split_and!; [done| |done])..].
  - simpl in *. destruct (commit_refund _ _) as [q r] eqn:Ec. case_if_in Hs; simplify_eq.
    + split_and!; [done| |done]. apply accounts_set; [done|]. by apply failed_ok.
    + split_and!; [by apply typed_user; eauto| |intros _; simpl; rewrite lookup_insert_eq; eauto].
      apply (accounts_set s1); [done|]. split; [done|]. intros _.
      destruct r; [|done]. unfold commit_refund in Ec. case_if_in Ec; [done|].
      destruct (checked_sub _ _); [|done]. simplify_eq. by apply rest_books.
  - apply accounts_set; [done|]. apply failed_ok. by apply (step_sound _ FailRefund).
  - apply accounts_set; [done|]. by rewrite (refund_put_back t d) by done.
Qed.

Lemma start_refund_ok s now id active t s' v :
  start_refund s now id active t = (s', v) -> typed s -> accounts_ok s -> account_ok t ->
  UserTraffic.failed t = false -> typed s' /\ accounts_ok s'.
Proof.
  unfold start_refund. intros Hs Hty Hok [Hq Hb] Hf. destruct (Hb Hf) as [Hdp Hrp Hc Hdr Hret Hrr].
  pose proof (step_sound _ RequestRefund I Hq) as Hq'. simpl in Hq'.
  destruct (request_refund _) as [q [n|e]] eqn:Er.
  - apply request_refund_books in Er as (Hd & Hr & -> & Hne & ->). rewrite Hd in Hdp. rewrite Hr in Hrp.
    destruct (put_charged s id _) as [s1 o] eqn:Ep.
    apply put_charged_typed in Ep as (Etr & Hty1 & Ho); [|done|intros; eapply checked_sub_u64; [|done..]; apply sound_credit in Hq; lia].
    assert (Hok1 : accounts_ok s1) by by eapply accounts_eq.
    destruct o as [[record reply]|]; simplify_eq; (split; [done|apply accounts_set; [done|]]).
    + split; [done|]. intros _. split; simpl; try done; intros r [= <-]; eauto.
    + apply failed_ok. by apply (step_sound _ FailRefund).
  - assert (q = UserTraffic.quota t) as ->.
    { unfold request_refund in Er. by repeat case_if_in Er; simplify_eq. }
    assert (account_ok (UserTraffic.set_quota t (UserTraffic.quota t))) by (by destruct t).
    repeat case_if_in Hs; simplify_eq; (split; [done|apply accounts_set; [done|]]); try done; by apply failed_ok.
Qed.

Lemma start_debit_ok s id t s' v :
  start_debit s id t = (s', v) -> typed s -> accounts_ok s -> account_ok t ->
  UserTraffic.failed t = false -> typed s' /\ accounts_ok s'.
Proof.
  unfold start_debit. intros Hs Hty Hok [Hq Hb] Hf. destruct (Hb Hf) as [Hdp Hrp Hc Hdr Hret Hrr].
  pose proof (step_sound _ RequestCredit I Hq) as Hq'. simpl in Hq'.
  destruct (request_credit _) as [q [n|e]] eqn:Er.
  - apply request_credit_books in Er as (Hd & Hr & Hn & Hlim & ->); [|by eapply sound_block].
    rewrite Hd in Hdp. rewrite Hr in Hrp.
    destruct (put_charged s id _) as [s1 o] eqn:Ep.
    apply put_charged_typed in Ep as (Etr & Hty1 & Ho); [|done|intros; eapply checked_add_u64; [|done..]; lia].
    assert (Hok1 : accounts_ok s1) by by eapply accounts_eq.
    destruct o as [[record reply]|]; simplify_eq; (split; [done|apply accounts_set; [done|]]).
    + split; [done|]. intros _. split; simpl; try done; intros r [= <-]; eauto.
    + apply failed_ok. by apply (step_sound _ FailCredit).
  - assert (q = UserTraffic.quota t) as ->.
    { unfold request_credit in Er. by repeat case_if_in Er; simplify_eq. }
    assert (account_ok (UserTraffic.set_quota t (UserTraffic.quota t))) by (by destruct t).
    destruct e; simplify_eq; (split; [done|apply accounts_set; [done|]]); try done; by apply failed_ok.
Qed.
Lemma advance_user_ok s now id active s' v :
  advance_user s now id active = (s', v) -> typed s -> accounts_ok s -> typed s' /\ accounts_ok s'.
Proof.
  unfold advance_user. intros Hs Hty Hok.
  destruct (open_traffic s now id active) as [s1 o1] eqn:E1.
  apply open_traffic_ok in E1 as [Hty1 Hok1]; [|done..]. destruct o1; [by simplify_eq|].
  destruct (State.traffic s1 !! id) as [t1|] eqn:T1; [|by simplify_eq].
  destruct (UserTraffic.failed t1) eqn:F1; [by simplify_eq|].
  destruct (settle_debit s1 id t1) as [s2 o2] eqn:E2.
  apply settle_debit_ok in E2 as (Hty2 & Hok2 & H2); [|done..]. destruct o2; [by simplify_eq|].
  destruct (H2 eq_refl) as (t2 & T2 & F2). rewrite T2 in Hs.
  destruct (settle_refund s2 now id active t2) as [s3 o3] eqn:E3.
  apply settle_refund_ok in E3 as (Hty3 & Hok3 & H3); [|done..]. destruct o3; [by simplify_eq|].
  destruct (H3 eq_refl) as (t3 & T3 & F3). rewrite T3 in Hs. simpl in Hs.
  pose proof (Hok3 _ _ T3) as Ha.
  repeat case_if_in Hs; simplify_eq; eauto using start_refund_ok, start_debit_ok.
Qed.

Lemma advance_users_ok users : forall s now active s' st rm,
  advance_users s now active users = (s', st, rm) -> typed s -> accounts_ok s ->
  typed s' /\ accounts_ok s'.
Proof.
  induction users as [|u users IH]; intros s now active s' st rm; simpl; [by intros [= <- <- <-]|].
  destruct (advance_user _ _ _ _) as [s1 v] eqn:E1.
  destruct (advance_users s1 now active users) as [[s2 st2] rm2] eqn:E2.
  intros [= <- <- <-] Hty Hok. apply advance_user_ok in E1 as [Hty1 Hok1]; eauto.
Qed.

Lemma advance_quota_ok s now s' st :
  advance_quota s now = (s', st) -> typed s -> accounts_ok s -> accounts_ok s'.
Proof.
  unfold advance_quota. intros Hs Hty Hok.
  destruct (advance_users _ _ _ _) as [[s1 st1] rm] eqn:E1. simplify_eq.
  apply advance_users_ok in E1 as [_ Hok1]; [|done..]. clear Hok Hty. revert s1 Hok1.
  induction rm as [|u rm IH]; intros s1 E1; simpl; [done|]. apply IH.
  eapply accounts_subset; [done|]. apply delete_subseteq.
Qed.

Lemma stop_expired_ok s now utc : typed s -> accounts_ok s -> accounts_ok (stop_expired s now utc).
Proof.
  intros [Hu Hb] Hok. unfold stop_expired. destruct (advance_quota _ now) as [s1 st] eqn:E1.
  apply advance_quota_ok in E1; [by case_if| |done].
  split; [|done]. intros id user. unfold user_of. simpl.
  rewrite lookup_fmap_Some. intros (u & <- & Hl). exact (Hu _ _ Hl).
Qed.

(** ** Grants go to accounts at rest *)

(** A flow of the user [id] has the handle [h]. *)
Definition owner (s : State.t) (h : Z) (id : str) : Prop :=
  (exists f, State.flows s !! h = Some f /\ PolicyFlow.user_id f = Some id) \/
  (exists f, State.datagram_flows s !! h = Some f /\ PolicyDatagramFlow.user_id f = Some id).

(** Handles are below the counter they are taken from, and used once. *)
Definition apart (s : State.t) : Prop :=
  forall h f g, State.flows s !! h = Some f -> State.datagram_flows s !! h = Some g -> False.
Definition handles (next : Z) (s : State.t) : Prop :=
  0 <= next /\ apart s /\
  (forall h, is_Some (State.flows s !! h) \/ is_Some (State.datagram_flows s !! h) -> h <> 0 /\ h < next).

Definition resting (s : State.t) (id : str) : Prop :=
  forall t, State.traffic s !! id = Some t -> at_rest t.

Definition granted (s : State.t) (grants : gmap Z RateGrant.t) : Prop :=
  forall h id, is_Some (grants !! h) -> owner s h id -> resting s id.

Lemma owner_unique s h id id' :
  apart s -> owner s h id -> owner s h id' -> id = id'.
Proof.
  intros Hd H1 H2.
  destruct H1 as [(f & Hf & Hi)|(f & Hf & Hi)], H2 as [(g & Hg & Hi')|(g & Hg & Hi')];
    first [congruence | by destruct (Hd _ _ _ Hf Hg) | by destruct (Hd _ _ _ Hg Hf)].
Qed.

Lemma owner_still s s' h id : still s s' -> owner s' h id -> owner s h id.
Proof. intros [Hf Hd]. unfold owner. by rewrite Hf, Hd. Qed.

(** Updates that leave the pending writes alone. *)
Definition same_pending (s s' : State.t) : Prop :=
  forall id t', State.traffic s' !! id = Some t' ->
  exists t, State.traffic s !! id = Some t /\
    UserTraffic.debit t' = UserTraffic.debit t /\ UserTraffic.refund t' = UserTraffic.refund t.

Lemma same_pending_eq s s' : State.traffic s' = State.traffic s -> same_pending s s'.
Proof. intros Ht id t. rewrite Ht. eauto. Qed.

Lemma same_pending_trans s1 s2 s3 : same_pending s1 s2 -> same_pending s2 s3 -> same_pending s1 s3.
Proof. intros H1 H2 id t (t2 & (t1 & ? & Hd & Hr)%H1 & -> & ->)%H2. eauto. Qed.

Lemma same_pending_set s id t t' :
  State.traffic s !! id = Some t -> UserTraffic.debit t' = UserTraffic.debit t ->
  UserTraffic.refund t' = UserTraffic.refund t -> same_pending s (set_user_traffic s id t').
Proof.
  intros Ht Hd Hr id' t0. simpl. intros [[<- <-]|[_ Hl]]%lookup_insert_Some; eauto.
Qed.

Lemma resting_pending s s' id : same_pending s s' -> resting s id -> resting s' id.
Proof. intros Hp Hr t' (t & Ht & Hd & Hf)%Hp. unfold at_rest. rewrite Hd, Hf. by apply Hr. Qed.

Lemma granted_pending s s' grants :
  still s s' -> same_pending s s' -> granted s grants -> granted s' grants.
Proof.
  intros Hs Hp Hg h id Hh Ho%(owner_still _ _ _ _ Hs). eapply resting_pending; [done|]. by eapply Hg.
Qed.

Lemma take_rate_grant_keeps t budget now t' r :
  take_rate_grant t budget now = (t', r) ->
  UserTraffic.quota t' = UserTraffic.quota t /\ UserTraffic.failed t' = UserTraffic.failed t /\
  UserTraffic.debit t' = UserTraffic.debit t /\ UserTraffic.refund t' = UserTraffic.refund t.
Proof. unfold take_rate_grant. repeat case_match; intros [= <- <-]; done. Qed.

(** The buckets are no part of the books. *)
Lemma account_ok_buckets t t' :
  account_ok t -> UserTraffic.quota t' = UserTraffic.quota t ->
  UserTraffic.failed t' = UserTraffic.failed t ->
  UserTraffic.debit t' = UserTraffic.debit t -> UserTraffic.refund t' = UserTraffic.refund t ->
  account_ok t'.
Proof.
  intros [Hq Hb] Eq Ef Ed Er. split; [by rewrite Eq|]. rewrite Ef. intros Hf.
  destruct (Hb Hf). by split; rewrite ?Eq, ?Ed, ?Er.
Qed.

Lemma grant_user_ok s now available total id flows s' g :
  grant_user s now available total (id, flows) = (s', g) -> accounts_ok s ->
  accounts_ok s' /\ same_pending s s' /\
  (forall h grant, g = Some (h, grant) -> resting s id /\ (h ∈ flows \/ h = 0)).
Proof.
  unfold grant_user, select_flow. intros Hs Hok.
  set (s1 := State.set_flow_cursor s _) in Hs.
  assert (Hsel : forall h, h = nth (Z.to_nat (unwrap_or (State.flow_cursor s !! id) 0 mod len flows)) flows 0 ->
    h ∈ flows \/ h = 0).
  { intros h ->. destruct (nth_in_or_default (Z.to_nat (unwrap_or (State.flow_cursor s !! id) 0 mod len flows)) flows 0) as [Hi|Hi];
      [left; by apply list_elem_of_In|by right]. }
  change (State.traffic s1) with (State.traffic s) in Hs.
  destruct (State.traffic s !! id) as [t|] eqn:Et;
    [|simplify_eq; split_and!; [done|by apply same_pending_eq|done]].
  case_if_in Hs; [simplify_eq; split_and!; [done|by apply same_pending_eq|done]|]. bools.
  destruct (take_from _ _ now) as [bucket r]. set (s2 := State.set_global_rate _ bucket) in Hs.
  destruct (take_rate_grant t _ now) as [t' r'] eqn:Eg.
  apply take_rate_grant_keeps in Eg as (Eq & Ef & Ed & Er).
  assert (Hok' : accounts_ok (set_user_traffic s2 id t')).
  { apply accounts_set; [exact Hok|]. eapply account_ok_buckets; eauto. }
  assert (Hp' : same_pending s (set_user_traffic s2 id t')) by by apply (same_pending_set s2 id t t').
  destruct r'; simplify_eq; (split_and!; [done|done|]); [|done].
  intros h grant [= <- _]. split; [|by apply Hsel]. intros t0. rewrite Et. intros [= <-].
  split; [destruct (UserTraffic.debit t)|destruct (UserTraffic.refund t)]; done.
Qed.

Lemma grant_users_ok now available total scheduled : forall s grants s' g,
  grant_users s now available total scheduled grants = (s', g) -> accounts_ok s ->
  apart s -> (forall id, ~ owner s 0 id) ->
  (forall id flows h, (id, flows) ∈ scheduled -> h ∈ flows -> owner s h id) ->
  granted s grants -> accounts_ok s' /\ granted s' g.
Proof.
  induction scheduled as [|u scheduled IH]; intros s grants s' g; simpl; [by intros [= <- <-]|].
  destruct (grant_user _ _ _ _ u) as [s1 o] eqn:E1. intros Hs Hok Ha H0 Hown Hg. destruct u as [id flows].
  pose proof (grant_user_still _ _ _ _ _ _ _ E1) as Hst.
  apply grant_user_ok in E1 as (Hok1 & Hp1 & Hsel); [|done].
  assert (Hback : forall h id', owner s1 h id' -> owner s h id') by eauto using owner_still.
  assert (Hforth : forall h id', owner s h id' -> owner s1 h id').
  { unfold owner. by destruct Hst as [-> ->]. }
  eapply IH; [exact Hs|done| | | |].
  - unfold apart. destruct Hst as [-> ->]. exact Ha.
  - intros id' Ho. eapply H0; eauto.
  - intros id' flows' h Hi Hh. apply Hforth. eapply Hown; [by right|done].
  - pose proof (granted_pending _ _ _ Hst Hp1 Hg) as Hg1. destruct o as [[h grant]|]; [|done].
    destruct (Hsel _ _ eq_refl) as [Hr Hh]. intros h' id' Hh' Ho.
    destruct (decide (h' = h)) as [->|Hne]; [|rewrite lookup_insert_ne in Hh' by done; by eapply Hg1].
    apply Hback in Ho. destruct Hh as [Hh| ->]; [|by destruct (H0 id')].
    assert (id' = id) as -> by (eapply owner_unique; [done..|]; eapply Hown; [by left|done]).
    by eapply resting_pending.
Qed.

(** ** Charges *)

Lemma refund_rate_ok s id grant up down :
  accounts_ok s -> accounts_ok (refund_rate s id grant up down) /\
  same_pending s (refund_rate s id grant up down).
Proof.
  intros Hok. unfold refund_rate. destruct id as [id|]; [|by split; [|apply same_pending_eq]].
  destruct (State.traffic s !! id) as [t|] eqn:Et; [|by split; [|apply same_pending_eq]].
  set (t' := refund_buckets _ _ _ _).
  assert (Hok' : accounts_ok (set_user_traffic s id t')).
  { apply accounts_set; [done|]. by eapply account_ok_buckets; [by eapply Hok|..]. }
  assert (Hp : same_pending s (set_user_traffic s id t')) by by apply (same_pending_set s id t t').
  by case_match.
Qed.

Lemma charge_account_ok t n :
  account_ok t -> at_rest t -> is_u64 n ->
  account_ok (UserTraffic.set_quota t (fst (charge (UserTraffic.quota t) n))).
Proof.
  intros [Hq Hb] Hr Hn. split; [by apply (step_sound _ (Charge n))|]. intros Hf.
  destruct (Hb Hf) as [Hdp Hrp _ _ _ _]. destruct Hr as [Hd Hr]. rewrite Hd in Hdp. rewrite Hr in Hrp.
  apply rest_books; [..|done]; simpl; unfold charge; by case_if.
Qed.

Lemma charge_flow_ok s id up down s' r :
  charge_flow s id up down = (s', r) -> accounts_ok s -> (forall i, id = Some i -> resting s i) ->
  0 <= PumpReport.written up -> 0 <= PumpReport.written down ->
  accounts_ok s' /\ same_pending s s'.
Proof.
  unfold charge_flow. intros Hs Hok Hr Hup Hdown.
  destruct id as [id|]; [|simplify_eq; by split; [|apply same_pending_eq]].
  destruct (checked_add _ _ _) as [n|] eqn:En; [|simplify_eq; by split; [|apply same_pending_eq]].
  apply checked_add_Some in En as [-> Hn].
  destruct (State.traffic s !! id) as [t|] eqn:Et; [|simplify_eq; by split; [|apply same_pending_eq]].
  assert (Ht : account_ok (UserTraffic.set_quota t (fst (charge (UserTraffic.quota t)
    (PumpReport.written up + PumpReport.written down))))).
  { apply charge_account_ok; [by eapply Hok|by eapply Hr|]. unfold is_u64. change usize_max with u64_max in Hn. lia. }
  destruct (charge _ _) as [q r1]. simpl in Ht. set (t' := UserTraffic.set_quota t q) in *.
  assert (Hok' : accounts_ok (set_user_traffic s id t')) by by apply accounts_set.
  assert (Hp : same_pending s (set_user_traffic s id t')) by by apply (same_pending_set s id t t').
  unfold set_user_traffic in *. set (s1 := State.set_traffic s _) in *. clearbody s1.
  by repeat case_match; simplify_eq.
Qed.

(** The flows whose usage is accounted for were at rest, and counts are counts. *)
Definition usage_ok (s : State.t) (u : Z * option str * RateGrant.t * PumpReport.t * PumpReport.t * bool) : Prop :=
  let '(_, id, _, up, down, _) := u in
  0 <= PumpReport.written up /\ 0 <= PumpReport.written down /\ forall i, id = Some i -> resting s i.

Lemma account_all_ok used : forall s s' f,
  account_all s used = (s', f) -> accounts_ok s -> Forall (usage_ok s) used ->
  accounts_ok s' /\ same_pending s s'.
Proof.
  induction used as [|[[[[[h id] g] up] down] over] used IH]; intros s s' f; simpl;
    [intros [= <- <-]; by split; [|apply same_pending_eq]|].
  unfold account. destruct (charge_flow _ _ _ _) as [s1 b] eqn:E1.
  destruct (account_all s1 used) as [s2 f2] eqn:E2.
  intros [= <- <-] Hok [(Hu & Hd & Hr) Hused]%Forall_cons.
  destruct (refund_rate_ok s id g up down Hok) as [Hok0 Hp0].
  apply charge_flow_ok in E1 as [Hok1 Hp1]; [|done|by eauto using resting_pending|done..].
  pose proof (same_pending_trans _ _ _ Hp0 Hp1) as Hp.
  apply IH in E2 as [Hok2 Hp2]; [|done|].
  - split; [done|]. by eapply same_pending_trans.
  - eapply Forall_impl; [exact Hused|]. intros [[[[[h' id'] g'] up'] down'] over'] (? & ? & ?).
    split_and!; eauto using resting_pending.
Qed.

(** ** Moving bytes *)

(** Counts of streams and pumps are not negative. *)
Definition counts (a : @PolicyFlow.io E) : Prop :=
  (forall n, PolicyFlow.stack_write a = Ready (Ok n) -> 0 <= n) /\
  (forall r, PolicyFlow.upload_pump a = Ready (Ok r) -> 0 <= PumpReport.written r) /\
  (forall r, PolicyFlow.download_pump a = Ready (Ok r) -> 0 <= PumpReport.written r).

Definition datagram_counts (a : @datagram_io E) : Prop :=
  (forall r, dg_upload a = Ready (Ok r) -> 0 <= DatagramPumpReport.sent r) /\
  (forall r, dg_download a = Ready (Ok r) -> 0 <= DatagramPumpReport.sent r).

Definition environment_counts (env : @environment E) : Prop :=
  (forall h, counts (flow_io env h)) /\ (forall h, datagram_counts (datagram_ios env h)).

Lemma poll_sniff_counts a f m f' out prefix :
  counts a -> PolicyFlow.poll_sniff a f m = Some (f', out, Ready (Ok prefix)) ->
  0 <= PumpReport.written prefix.
Proof.
  intros (Hw & _ & _). unfold PolicyFlow.poll_sniff. destruct (PolicyFlow.sniff f); [|by intros [= <- <- <-]].
  intros ([s1 r2] & _ & H1)%bind_Some. repeat case_match; simplify_eq.
  unfold PolicyFlow.write_prefix in *. repeat case_match; simplify_eq; simpl; try done; eauto.
Qed.

Lemma poll_flow_counts a f m1 m2 m3 f' out up down :
  counts a -> PolicyFlow.poll_flow a f m1 m2 m3 = Some (f', out, Ready (Ok (up, down))) ->
  0 <= PumpReport.written up /\ 0 <= PumpReport.written down.
Proof.
  intros Hc. unfold PolicyFlow.poll_flow. intros ([[f1 out1] r1] & H1 & H2)%bind_Some.
  destruct r1 as [[prefix|e]|]; [|done..]. apply poll_sniff_counts in H1; [|done].
  destruct Hc as (_ & Hu & Hd). case_match; [by simplify_eq|].
  unfold PolicyFlow.pump_report in H2.
  destruct (PolicyFlow.upload_pump a) as [[u|]|]; [|done|];
    (destruct (PolicyFlow.download_pump a) as [[d|]|]; [|done|]);
    case_if_in H2; simplify_eq; simpl; repeat (specialize (Hu _ eq_refl) || specialize (Hd _ eq_refl)); ints.
Qed.

(** A flow that moves bytes of a user has a grant. *)
Lemma flow_grant_some grants h id work :
  RateGrant.combined (flow_grant grants h (Some id) work) <> 0 -> is_Some (grants !! h).
Proof. simpl. destruct (grants !! h); [eauto|done]. Qed.

Lemma poll_flows_usage s ios grants work l : forall polled used,
  @poll_flows E ios grants work l = Some (polled, used) ->
  (forall h, counts (ios h)) ->
  (forall h f id, (h, f) ∈ l -> PolicyFlow.user_id f = Some id -> is_Some (grants !! h) -> resting s id) ->
  Forall (usage_ok s) used.
Proof.
  induction l as [|[h f] l IH]; intros polled used; simpl; [by intros [= <- <-]|].
  intros ([polled1 used1] & H1 & H2)%bind_Some Hc Hr.
  apply IH in H1; [|done|by intros; eapply Hr; [right|..]].
  case_if_in H2; [by simplify_eq|]. bools.
  apply bind_Some in H2 as ([[f1 out1] r1] & Hp & H2).
  destruct (polled_usage _ _ r1) as [[up down] over] eqn:Eu. simplify_eq. constructor; [|done].
  rewrite (poll_flow_user _ _ _ _ _ _ _ _ Hp).
  assert (0 <= PumpReport.written up /\ 0 <= PumpReport.written down) as [Hu Hd].
  { destruct r1 as [[[u d]|e]|]; simpl in Eu; simplify_eq; simpl; try lia.
    eapply poll_flow_counts; [apply Hc|exact Hp]. }
  split_and!; [done..|]. intros i Hi. rewrite Hi in *. eapply Hr; [by left|done|].
  by eapply flow_grant_some.
Qed.

Lemma poll_datagram_flows_usage s ios grants l : forall polled used,
  @poll_datagram_flows E ios grants l = (polled, used) ->
  (forall h, datagram_counts (ios h)) ->
  (forall h f id, (h, f) ∈ l -> PolicyDatagramFlow.user_id f = Some id -> is_Some (grants !! h) ->
     resting s id) ->
  Forall (usage_ok s) used.
Proof.
  induction l as [|[h f] l IH]; intros polled used; simpl; [by intros [= <- <-]|].
  destruct (poll_datagram_flows ios grants l) as [polled1 used1] eqn:E1. intros H2 Hc Hr.
  specialize (IH _ _ eq_refl Hc). ospecialize* IH; [by intros; eapply Hr; [right|..]|].
  case_if_in H2; [by simplify_eq|]. bools.
  destruct (PolicyDatagramFlow.poll_flow _ _ _ _) as [f1 r1] eqn:Ep.
  destruct (polled_usage _ _ r1) as [[up down] over] eqn:Eu. simplify_eq. constructor; [|done].
  assert (Hid : PolicyDatagramFlow.user_id f1 = PolicyDatagramFlow.user_id f).
  { unfold PolicyDatagramFlow.poll_flow in Ep. repeat case_match; by simplify_eq. }
  assert (0 <= DatagramPumpReport.sent up /\ 0 <= DatagramPumpReport.sent down) as [Hu Hd].
  { destruct (Hc h) as [Hcu Hcd]. unfold PolicyDatagramFlow.poll_flow, PolicyDatagramFlow.pump_report in Ep.
    destruct (dg_upload (ios h)) as [[u|]|], (dg_download (ios h)) as [[d|]|];
      try case_if_in Ep; simplify_eq; simpl in Eu; simplify_eq; simpl; auto with lia. }
  split_and!; [done..|]. intros i Hi. rewrite Hid in Hi. rewrite Hi in *. eapply Hr; [by left|done|].
  by eapply flow_grant_some.
Qed.

Lemma spend_subset (flows : list (Z * PolicyFlow.t)) : forall (grants : gmap Z RateGrant.t) h,
  is_Some (spend grants flows !! h) -> is_Some (grants !! h).
Proof.
  unfold spend. induction flows as [|[h' f] flows IH]; intros grants h; simpl; [done|].
  intros H%IH. case_if_in H; [|done]. destruct H as [g [_ ?]%lookup_delete_Some]. eauto.
Qed.

Lemma move_bytes_ok s ios dgs grants s' :
  @move_bytes _ _ E s ios dgs grants = Some s' ->
  (forall h, counts (ios h)) -> (forall h, datagram_counts (dgs h)) ->
  accounts_ok s -> granted s grants -> accounts_ok s'.
Proof.
  unfold move_bytes. intros ([polled1 used1] & H1 & Hs)%bind_Some Hc Hdc Hok Hg.
  apply (poll_flows_usage s) in H1; [|done|].
  2: { intros h f id Hl Hi Hh. eapply Hg; [done|]. left. exists f. split; [|done].
       apply elem_of_map_to_list. by rewrite <- (hash_order_perm (map_to_list (State.flows s))). }
  destruct (account_all s used1) as [s1 f1] eqn:E1.
  pose proof (account_all_kept _ _ _ _ E1) as [[_ Hd1] _].
  apply account_all_ok in E1 as [Hok1 Hp1]; [|done..].
  set (s1' := State.set_flows s1 _) in Hs.
  destruct (poll_datagram_flows _ _ _) as [polled2 used2] eqn:E2.
  apply (poll_datagram_flows_usage s1') in E2; [|done|].
  2: { intros h f id Hl Hi Hh%spend_subset. eapply (resting_pending s); [exact Hp1|].
       eapply Hg; [done|]. right. exists f. split; [|done]. rewrite <- Hd1.
       apply elem_of_map_to_list. by rewrite <- (hash_order_perm (map_to_list (State.datagram_flows s1))). }
  destruct (account_all s1' used2) as [s2 f2] eqn:E3.
  apply account_all_ok in E3 as [Hok2 _]; [|done..]. by simplify_eq.
Qed.

(** ** One poll *)

Lemma schedule_owner s s' scheduled id flows h :
  schedule s = (s', scheduled) -> (id, flows) ∈ scheduled -> h ∈ flows -> owner s h id.
Proof.
  unfold schedule. intros Hs Hi Hh. set (all := map _ _) in Hs.
  assert (Hin : (id, flows) ∈ all).
  { case_if_in Hs; simplify_eq; [by apply not_elem_of_nil in Hi|].
    unfold rotate_left in Hi. rewrite elem_of_app in Hi.
    rewrite <- (take_drop (Z.to_nat (State.user_cursor s mod len all)) all). apply elem_of_app. tauto. }
  unfold all in Hin. apply list_elem_of_fmap in Hin as (u & [= -> ->] & _).
  rewrite merge_sort_Permutation in Hh. unfold flows_of in Hh.
  apply elem_of_app in Hh as [Hh|Hh]; apply list_elem_of_omap in Hh as ([h' f] & Hl & Hf);
    case_if_in Hf; simplify_eq; bools; apply elem_of_map_to_list in Hl; [left|right]; eauto.
Qed.

Lemma poll_instance_ok s env s' status next :
  @poll_instance _ _ _ _ _ _ _ _ E s env = Some (s', status) -> environment_counts env ->
  typed s -> handles next s -> accounts_ok s -> accounts_ok s'.
Proof.
  unfold poll_instance, assign_grants. intros Hs [Hc Hdc] Hty (_ & Ha & Hn) Hok. destruct (State.maintenance s); [by simplify_eq|].
  pose proof (stop_expired_ok s (now_nanos env) (now_utc env) Hty Hok) as H1.
  pose proof (stop_expired_fewer s (now_nanos env) (now_utc env)) as (Hf & Hd & _).
  set (s1 := stop_expired s _ _) in *. destruct (schedule s1) as [s2 scheduled] eqn:E2.
  assert (H2 : calm s1 s2) by (unfold schedule in E2; by case_if_in E2; simplify_eq).
  destruct (global_available s2 _) as [s3 available] eqn:E3.
  assert (H3 : calm s2 s3) by (unfold global_available in E3; by repeat case_match; simplify_eq).
  pose proof (calm_trans _ _ _ H2 H3) as ([[Hf3 Hd3] _] & Ht3 & _). clear H2 H3.
  assert (Hown : forall h id, owner s3 h id <-> owner s1 h id) by (intros; unfold owner; by rewrite Hf3, Hd3).
  destruct (grant_users s3 _ _ _ _ _) as [s4 grants] eqn:E4.
  apply grant_users_ok in E4 as [H4 Hg].
  - apply bind_Some in Hs as (s5 & E5 & [= <- _]). apply move_bytes_ok in E5; [|done..].
    eapply accounts_eq; [exact E5|]. apply poll_sessions_traffic.
  - by eapply accounts_eq.
  - intros h f g. rewrite Hf3, Hd3. intros (f0 & Hl & _)%Hf (g0 & Hl' & _)%Hd. by eapply Ha.
  - intros id [(f & Hl & _)|(f & Hl & _)]%Hown; [apply Hf in Hl as (? & Hl & _)|apply Hd in Hl as (? & Hl & _)];
      destruct (Hn 0); eauto.
  - intros id flows h Hi Hh. apply Hown. by eapply schedule_owner.
  - intros h id []%is_Some_None. 
Qed.

(** * Runs *)

Lemma handles_fewer next s s' : handles next s -> fewer s s' -> handles next s'.
Proof.
  intros (H0 & Ha & Hn) (Hf & Hd & _). split_and!; [done|..].
  - intros h f g (f0 & ? & _)%Hf (g0 & ? & _)%Hd. by eapply Ha.
  - intros h [[f (f0 & ? & _)%Hf]|[f (f0 & ? & _)%Hd]]; apply Hn; eauto.
Qed.

Lemma handles_above next next' s : handles next s -> next <= next' -> handles next' s.
Proof. intros (H0 & Ha & Hn) Hle. split_and!; [lia|done|]. intros h [? ?]%Hn. lia. Qed.

Lemma handles_flow next s f :
  handles next s -> next <> 0 -> handles (next + 1) (State.set_flows s (<[next := f]> (State.flows s))).
Proof.
  intros (H0 & Ha & Hn) Hne. split_and!; [lia|..].
  - intros h f' g. simpl. intros [[<- _]|[_ Hl]]%lookup_insert_Some Hg; [|by eapply Ha].
    destruct (Hn next); [by right|lia].
  - intros h. simpl. intros [[f' [[<- _]|[_ Hl]]%lookup_insert_Some]|Hl]; [lia|..];
      (destruct (Hn h); [eauto|lia]).
Qed.

Lemma handles_datagram_flow next s f :
  handles next s -> next <> 0 ->
  handles (next + 1) (State.set_datagram_flows s (<[next := f]> (State.datagram_flows s))).
Proof.
  intros (H0 & Ha & Hn) Hne. split_and!; [lia|..].
  - intros h f' g. simpl. intros Hf [[<- _]|[_ Hl]]%lookup_insert_Some; [|by eapply Ha].
    destruct (Hn next); [by left|lia].
  - intros h. simpl. intros [Hl|[f' [[<- _]|[_ Hl]]%lookup_insert_Some]]; [|lia|];
      (destruct (Hn h); [eauto|lia]).
Qed.

Lemma take_identity_handles s session s1 r next :
  take_identity s session = (s1, r) -> handles next s ->
  handles next s1 /\ State.traffic s1 = State.traffic s.
Proof.
  intros Et Hh. assert (State.traffic s1 = State.traffic s)
    by (unfold take_identity in Et; by repeat case_match; simplify_eq).
  apply (take_identity_flows _ _ _ _ []) in Et as [[Hf Hd] _].
  split; [|done]. unfold handles, apart. by rewrite Hf, Hd.
Qed.

Lemma fetch_add_below next : 0 <= next -> next < u64_max -> fetch_add next = (next + 1, next).
Proof. intros. unfold fetch_add, wrapping_add. by rewrite Z.mod_small by lia. Qed.

(** The calls of the host on one instance and the commands served by its storage
    thread.  Values are of their types, and the counter of flow handles does not
    wrap. *)
Inductive run : Z -> State.t -> Prop :=
| run_start next s :
    0 <= next -> State.traffic s = ∅ -> State.flows s = ∅ -> State.datagram_flows s = ∅ -> run next s
| run_poll next s env s' status :
    run next s -> typed s -> environment_counts env ->
    @poll_instance _ _ _ _ _ _ _ _ E s env = Some (s', status) -> run next s'
| run_control next s fill utc request s' r :
    run next s -> control_instance s fill utc request = (s', r) -> run next s'
| run_attach_session next s sessions now raw context s' sessions' status handle :
    run next s -> @attach_session _ _ E s sessions now raw context = (s', sessions', status, handle) ->
    run next s'
| run_admit_flow next s session utc metadata s' status :
    run next s -> admit_flow s session utc metadata = (s', status) -> run next s'
| run_attach_flow next s now session raw pumps s' next' status :
    run next s -> next < u64_max ->
    attach_flow s next now session raw pumps = (s', next', status) -> run next' s'
| run_attach_datagram_flow next s session raw pumps s' next' status :
    run next s -> next < u64_max ->
    attach_datagram_flow s next session raw pumps = (s', next', status) -> run next' s'
| run_shutdown next s now s' status :
    run next s -> typed s -> shutdown_instance s now = (Some s', status) -> run next s'
| run_storage next s copied reopened :
    run next s ->
    run next (State.set_storage s (StorageWorker.run_step copied reopened (State.storage s))).

Lemma attach_flow_handles s next now session raw pumps s' next' status :
  attach_flow s next now session raw pumps = (s', next', status) -> next < u64_max ->
  handles next s -> handles next' s' /\ State.traffic s' = State.traffic s.
Proof.
  unfold attach_flow. intros Hs Hmax Hh. case_if_in Hs; [by simplify_eq|].
  destruct (take_identity s session) as [s1 r] eqn:Et.
  apply (take_identity_handles _ _ _ _ next) in Et as [Hh1 Ht]; [|done].
  destruct r as [admitted|]; [|by simplify_eq]. do 2 (case_if_in Hs; [by simplify_eq|]).
  rewrite fetch_add_below in Hs by (try done; by apply Hh).
  case_if_in Hs; simplify_eq; (split; [|done]); bools;
    [eapply handles_above; [done|lia]|by apply handles_flow].
Qed.

Lemma attach_datagram_flow_handles s next session raw pumps s' next' status :
  attach_datagram_flow s next session raw pumps = (s', next', status) -> next < u64_max ->
  handles next s -> handles next' s' /\ State.traffic s' = State.traffic s.
Proof.
  unfold attach_datagram_flow. intros Hs Hmax Hh. case_if_in Hs; [by simplify_eq|].
  destruct (take_identity s session) as [s1 r] eqn:Et.
  apply (take_identity_handles _ _ _ _ next) in Et as [Hh1 Ht]; [|done].
  destruct r as [admitted|]; [|by simplify_eq]. do 2 (case_if_in Hs; [by simplify_eq|]).
  rewrite fetch_add_below in Hs by (try done; by apply Hh).
  case_if_in Hs; simplify_eq; (split; [|done]); bools;
    [eapply handles_above; [done|lia]|by apply handles_datagram_flow].
Qed.

Lemma run_ok next s : run next s -> handles next s /\ accounts_ok s.
Proof.
  induction 1 as [next s H0 Ht Hf Hd|next s env s' status _ [Hh Hok] Hty Hc Hs
    |next s fill utc request s' r _ [Hh Hok] Hs|next s k now raw context s' k' status h _ [Hh Hok] Hs
    |next s session utc metadata s' status _ [Hh Hok] Hs
    |next s now session raw pumps s' next' status _ [Hh Hok] Hn Hs
    |next s session raw pumps s' next' status _ [Hh Hok] Hn Hs
    |next s now s' status _ [Hh Hok] Hty Hs|next s copied reopened _ [Hh Hok]].
  - split; [|intros id t; by rewrite Ht, lookup_empty]. split_and!; [done|..].
    + intros h f g. by rewrite Hf, lookup_empty.
    + intros h. rewrite Hf, Hd, !lookup_empty. by intros [[]|[]].
  - split; [by eapply handles_fewer, poll_instance_fewer|by eapply poll_instance_ok].
  - apply control_reduces in Hs as [Hfew Hsub].
    split; [by eapply handles_fewer|by eapply accounts_subset].
  - split; [by eapply handles_fewer, attach_session_fewer|]. eapply accounts_eq; [done|].
    unfold attach_session in Hs. repeat case_match; by simplify_eq.
  - unfold admit_flow in Hs. repeat case_match; by simplify_eq.
  - apply attach_flow_handles in Hs as [? Ht]; [|done..]. split; [done|by eapply accounts_eq].
  - apply attach_datagram_flow_handles in Hs as [? Ht]; [|done..]. split; [done|by eapply accounts_eq].
  - split; [by eapply handles_fewer, shutdown_fewer|]. unfold shutdown_instance in Hs.
    destruct (advance_quota _ now) as [s1 st] eqn:E1.
    apply advance_quota_ok in E1; [by repeat case_match; simplify_eq|by case_if..].
  - done.
Qed.

(** C19: a durable write is never turned down.  Along every run of an instance,
    for every account that has not failed: at most one of its writes is on the
    way to the storage, its flags say which, the credit in hand is part of the
    durable counter and the counter is within the limit; the commit of the debit
    that is on its way succeeds (unless the counter overflows), and so does the
    commit of the refund, for no byte is charged in between.  Hence only a write
    that the storage did not take marks an account as failed. *)
Theorem durable_write_accepted next s id t :
  run next s -> State.traffic s !! id = Some t -> UserTraffic.failed t = false ->
  let q := UserTraffic.quota t in
  (0 <= credit_remaining q <= durable_charged q /\
   forall l, limit_bytes q = Some l -> durable_charged q <= l) /\
  (UserTraffic.debit t = None \/ UserTraffic.refund t = None) /\
  debit_pending q = is_some (UserTraffic.debit t) /\
  refund_pending q = is_some (UserTraffic.refund t) /\
  (forall d, UserTraffic.debit t = Some d ->
     durable_charged q + PendingDebit.amount d <= u64_max ->
     commit_credit q (PendingDebit.amount d) =
       (mk (limit_bytes q) (durable_charged q + PendingDebit.amount d) (PendingDebit.amount d)
          (block_bytes q) false false, Ok tt)) /\
  (forall r, UserTraffic.refund t = Some r ->
     commit_refund q (PendingRefund.amount r) =
       (mk (limit_bytes q) (durable_charged q - PendingRefund.amount r) 0 (block_bytes q) false false,
        Ok tt)).
Proof.
  intros [_ Hok]%run_ok Ht Hf q. apply Hok in Ht. pose proof Ht as [Hq Hb]. destruct (Hb Hf).
  split; [split; [apply (sound_credit _ Hq)|destruct Hq as [[floor Hi] _]; apply Hi]|].
  split_and!; try done.
  - by apply one_pending.
  - intros d Hd Hmax. by apply commit_credit_accepts.
  - intros r Hr. by apply commit_refund_accepts.
Qed.
End facts.

(** ** An example *)
Section example.
Import World.

(** The user of the example opens a flow, the next poll asks for credit, the
    storage writes the debit, and a poll after the checkpoint interval asks for the
    credit back. *)
Definition opened : State.t := open_flow domain_destination (server alice_user).
Definition charged : State.t := serve debited.
Definition credited : State.t := poll_with 10 [] charged.
Definition returning : State.t := poll_with 60000000010 [] credited.

Definition users_typed (s : State.t) : Prop :=
  map_Forall (fun _ user => is_u64 (UserRecord.durable_charged_bytes user))
    (AdminState.users (State.admin s) : gmap str UserRecord.t).
#[local] Instance is_u64_dec n : Decision (is_u64 n) := and_dec _ _.
#[local] Instance users_typed_dec s : Decision (users_typed s) := map_Forall_dec _ _.

Lemma run_poll_with next now s :
  run (E := unit) next s -> bool_decide (users_typed s) = true ->
  is_u64 (StorageOptions.accounting_block_bytes (Options.storage (State.options s))) ->
  is_some (poll_instance s (environment_of now [])) = true -> run (E := unit) next (poll_with now [] s).
Proof.
  intros Hr Hty%bool_decide_eq_true Hb Hs. apply poll_with_Some in Hs as [status Hs].
  eapply run_poll; [exact Hr|by split| |exact Hs]. by split; intros h; split_and!.
Qed.

Lemma opened_run : run (E := unit) 2 opened.
Proof.
  set (admitted := fst (admit_flow (server alice_user) 1 1000 domain_destination)).
  assert (Hn : snd (fst (attach_flow admitted 1 0 1 true true)) = 2) by (vm_compute; reflexivity).
  unfold opened, open_flow. fold admitted. rewrite <- Hn.
  apply (run_attach_flow 1 admitted 0 1 true true _ _ (snd (attach_flow admitted 1 0 1 true true)));
    [|done|by destruct (attach_flow admitted 1 0 1 true true) as [[]]].
  eapply run_admit_flow; [|apply surjective_pairing]. by apply run_start.
Qed.

Lemma returning_run : run (E := unit) 2 returning.
Proof.
  apply run_poll_with; [|by vm_compute..]. apply run_poll_with; [|by vm_compute..].
  apply run_storage. apply run_poll_with; [exact opened_run|by vm_compute..].
Qed.

Lemma durable_write_accepted_witness :
  exists t r, State.traffic returning !! alice = Some t /\ UserTraffic.refund t = Some r /\
    commit_refund (UserTraffic.quota t) (PendingRefund.amount r) =
      (mk (Some 100000) 0 0 4096 false false, Ok tt).
Proof.
  destruct (State.traffic returning !! alice) as [t|] eqn:Et; [|by vm_compute in Et].
  destruct (UserTraffic.refund t) as [r|] eqn:Er.
  - exists t, r. split_and!; [done..|].
    destruct (durable_write_accepted 2 returning alice t returning_run Et) as (_ & _ & _ & _ & _ & Hr).
    + vm_compute in Et. by injection Et as <-.
    + rewrite (Hr r Er). vm_compute in Et. injection Et as <-. vm_compute in Er. by injection Er as <-.
  - vm_compute in Et. by injection Et as <-.
Defined.
End example.
