(* ===== verification/FairFacts.v ===== *)
(** The scheduler of policy-local (Policy.v): in every poll each user with a flow
    has a turn, the turn goes to one of its flows, the flows of a user take
    their turns one after the other, and a turn is worth at least a byte where the
    account can be granted any.  No other call moves a turn. *)
From Stdlib Require Import Strings.Byte.
From stdpp Require Import sorting.
From S2P Require Import Prelude Text Net Frame Accounting Admin Config Sniff Service Storage Rules Flow State Traffic Session Control Policy Scenario ControlFacts SessionFacts LimitFacts OrderingFacts AccountFacts.
#[local] Open Scope Z_scope.

(** * Turns of one user *)

Lemma select_flow_small cursor flows :
  0 <= cursor < usize_max -> select_flow cursor flows =
    (nth (Z.to_nat (cursor mod len flows)) flows 0, cursor + 1).
Proof. intros Hc. unfold select_flow, wrapping_add. by rewrite (Z.mod_small (cursor + 1)) by lia. Qed.

(** The [k]-th turn goes to the flow [k] places further on. *)
Lemma select_flow_covers cursor flows flow :
  0 <= cursor -> flow ∈ flows ->
  exists k, 0 <= k < len flows /\ nth (Z.to_nat ((cursor + k) mod len flows)) flows 0 = flow.
Proof.
  intros Hc [i Hi]%list_elem_of_lookup. pose proof (lookup_lt_Some _ _ _ Hi) as Hlt.
  assert (0 <= Z.of_nat i < len flows) as Hn by (unfold len; lia).
  exists ((Z.of_nat i - cursor) mod len flows). split; [apply Z.mod_pos_bound; lia|].
  replace ((cursor + (Z.of_nat i - cursor) mod len flows) mod len flows) with (Z.of_nat i).
  - rewrite Nat2Z.id. by apply nth_lookup_Some.
  - rewrite Zplus_mod_idemp_r. replace (cursor + (Z.of_nat i - cursor)) with (Z.of_nat i) by lia.
    by rewrite Z.mod_small.
Qed.

Section facts.
Context `{HR : Redb, HS : Sha256, HO : HashOrder, HP1 : Postcard StoredUserRecord.t,
  HP2 : Postcard CredentialRecord.t, HP3 : Postcard Receipt.t, HT1 : Toml ControlRequest.t,
  HT2 : Toml Rules.t, HT3 : Toml ClientRequest.t, HT4 : Toml ServerStatus.t,
  HT5 : Toml ChannelSecurity.t, HX1 : TomlPrint MutationResponse.t,
  HX2 : TomlPrint UsageResponse.t, HX3 : TomlPrint SessionsResponse.t,
  HX4 : TomlPrint BackupResponse.t, HX5 : TomlPrint PolicyStatus.t}.
Context {E : Type}.

Definition cursor_of (s : State.t) (id : str) : Z := unwrap_or (State.flow_cursor s !! id) 0.

(** ** One turn *)

(** A rate that has something to give: there is none, or its bucket has tokens. *)
Definition gives (bucket : option TokenBucket.t) (now : Z) : Prop :=
  match bucket with
  | None => True
  | Some b => exists b', TokenBucket.refill b now = (b', Ok tt) /\ 0 < TokenBucket.tokens b'
  end.

Lemma gives_take bucket now wanted :
  gives bucket now -> 0 < wanted -> exists bucket' n, take_from bucket wanted now = (bucket', Ok n) /\ 0 < n.
Proof.
  unfold gives, take_from, TokenBucket.take. destruct bucket as [b|]; [|by eauto].
  intros (b' & -> & Ht) Hw. eexists _, _. split; [done|]. lia.
Qed.

(** An account to which the scheduler can grant: its books are open and at rest, it
    has credit, its own rates have something to give, and there is no global rate. *)
Definition grantable (s : State.t) (now : Z) (id : str) : Prop :=
  State.global_rate s = None /\ 0 < Options.sniff_bytes (State.options s) /\ 0 < weight_of s id /\
  0 <= unwrap_or (State.user_deficit s !! id) 0 /\
  exists t, State.traffic s !! id = Some t /\ at_rest t /\ UserTraffic.failed t = false /\
    0 < QuotaAccount.credit_remaining (UserTraffic.quota t) /\
    gives (UserTraffic.combined t) now /\ gives (UserTraffic.upload t) now /\ gives (UserTraffic.download t) now.

(** What a turn gives such an account. *)
Lemma take_rate_grant_gives t budget now :
  0 < budget -> gives (UserTraffic.combined t) now -> gives (UserTraffic.upload t) now ->
  gives (UserTraffic.download t) now ->
  exists t' grant, take_rate_grant t budget now = (t', Ok grant) /\ 0 < RateGrant.combined grant /\
    0 < RateGrant.stack_to_mux grant /\ 0 < RateGrant.mux_to_stack grant.
Proof.
  intros Hb Hc Hu Hd. unfold take_rate_grant.
  destruct (gives_take _ now budget Hc Hb) as (b1 & c & -> & Hpos). simpl.
  destruct (gives_take _ now c Hu Hpos) as (b2 & u & -> & Hu'). simpl.
  destruct (gives_take _ now c Hd Hpos) as (b3 & d & -> & Hd'). simpl. eexists _, _. by split_and!.
Qed.

Definition generous (grant : RateGrant.t) : Prop :=
  0 < RateGrant.combined grant /\ 0 < RateGrant.stack_to_mux grant /\ 0 < RateGrant.mux_to_stack grant.

Lemma grant_user_turn s now available total id flows s' g :
  grant_user s now available total (id, flows) = (s', g) ->
  State.flow_cursor s' = <[id := snd (select_flow (cursor_of s id) flows)]> (State.flow_cursor s) /\
  (forall j, j <> id -> available = None -> grantable s now j -> grantable s' now j) /\
  (available = None -> grantable s now id ->
     exists grant, g = Some (fst (select_flow (cursor_of s id) flows), grant) /\ generous grant) /\
  (forall h grant, g = Some (h, grant) -> h = fst (select_flow (cursor_of s id) flows)).
Proof.
  unfold grant_user, cursor_of, select_flow. intros Hs. simpl in Hs.
  destruct (State.traffic s !! id) as [t|] eqn:Et.
  2: { simplify_eq. split_and!; try done. intros _ (_ & _ & _ & _ & t & Ht & _). congruence. }
  case_if_in Hs.
  { simplify_eq. split_and!; try done. intros _ (_ & _ & _ & _ & t' & Ht & [Hd Hr] & Hf & _). simplify_eq.
    rewrite Hd, Hr, Hf in *. done. }
  set (flow := nth _ flows 0) in *. set (s1 := State.set_flow_cursor s _) in Hs.
  change (weight_of s1 id) with (weight_of s id) in Hs. change (State.user_deficit s1) with (State.user_deficit s) in Hs.
  set (work := if is_some _ then MAX_UDP_PAYLOAD else _) in Hs.
  set (deficit := saturating_add u64_max _ _) in Hs. set (budget := turn_budget _ _ _ _ _ _) in Hs.
  destruct (take_from _ budget now) as [bucket r] eqn:Etake. change (State.global_rate _) with (State.global_rate s) in Etake.
  assert (Hglobal : State.global_rate s = None -> bucket = None /\ r = Ok budget).
  { intros Hn. rewrite Hn in Etake. by injection Etake as <- <-. }
  set (global := match r with Ok taken => taken | Err _ => 0 end) in Hs.
  destruct (take_rate_grant t global now) as [t' r'] eqn:Eg.
  assert (Hmine : available = None -> grantable s now id -> exists grant, r' = Ok grant /\ generous grant).
  { intros -> (Hn & Hsniff & Hw & Hdef & t0 & Ht & _ & _ & Hcr & Hc & Hu & Hd). simplify_eq.
    destruct (Hglobal Hn) as [_ ->]. simpl in global.
    assert (0 < work) by (unfold work; case_if; [done|exact Hsniff]).
    assert (0 < budget) by (unfold budget, turn_budget, deficit; ints; nia).
    destruct (take_rate_grant_gives t budget now) as (t1 & grant & E1 & ?); [done..|].
    unfold global in Eg. rewrite E1 in Eg. simplify_eq. eauto. }
  assert (Hother : forall j s'', j <> id -> grantable s now j ->
    State.traffic s'' !! j = State.traffic s !! j -> State.user_deficit s'' !! j = State.user_deficit s !! j ->
    State.global_rate s'' = None -> State.options s'' = State.options s -> weight_of s'' j = weight_of s j ->
    grantable s'' now j).
  { intros j s'' Hj (Hn & Hsniff & Hw & Hdef & Ht) E1 E2 E3 E4 E5. unfold grantable. by rewrite E1, E2, E3, E4, E5. }
  destruct r' as [grant|e]; simplify_eq; split_and!; try done.
  - intros j Hj _ Hgr. pose proof Hgr as (Hn & _). destruct (Hglobal Hn) as [-> _].
    apply Hother; simpl; try done; by rewrite lookup_insert_ne.
  - intros Ha Hgr. destruct (Hmine Ha Hgr) as (grant' & [= <-] & ?). eauto.
  - by intros h grant' [= <- _].
  - intros j Hj _ Hgr. pose proof Hgr as (Hn & _). destruct (Hglobal Hn) as [-> _].
    apply Hother; simpl; try done; by rewrite lookup_insert_ne.
  - intros Ha Hgr. by destruct (Hmine Ha Hgr) as (grant' & [=] & ?).
Qed.

(** ** The turns of a poll *)

Lemma select_flow_elem cursor flows : 0 < len flows -> fst (select_flow cursor flows) ∈ flows.
Proof.
  intros Hl. unfold select_flow. simpl. apply list_elem_of_In, nth_In.
  pose proof (Z.mod_pos_bound cursor (len flows) Hl). unfold len in *. lia.
Qed.

Lemma grant_users_turns now available total scheduled : forall s grants s' g,
  grant_users s now available total scheduled grants = (s', g) -> NoDup scheduled.*1 ->
  (forall id flows, (id, flows) ∈ scheduled -> 0 < len flows) ->
  (forall id, id ∉ scheduled.*1 -> State.flow_cursor s' !! id = State.flow_cursor s !! id) /\
  (forall h, (forall id flows, (id, flows) ∈ scheduled -> h ∉ flows) -> g !! h = grants !! h) /\
  (forall id flows, (id, flows) ∈ scheduled ->
     cursor_of s' id = snd (select_flow (cursor_of s id) flows) /\
     (available = None -> grantable s now id ->
      (forall j flows', (j, flows') ∈ scheduled -> j <> id -> forall h, h ∈ flows -> h ∉ flows') ->
      exists grant, g !! fst (select_flow (cursor_of s id) flows) = Some grant /\ generous grant)).
Proof.
  induction scheduled as [|[id flows] scheduled IH]; intros s grants s' g; cbn [grant_users fmap list_fmap fst].
  { intros [= <- <-] _ _. split_and!; try done. by intros ? ? ?%not_elem_of_nil. }
  destruct (grant_user _ _ _ _ _) as [s1 o] eqn:E1.
  intros Hs [Hid Hnd]%NoDup_cons Hpos. apply grant_user_turn in E1 as (Hc & Ht & Hg & Hh).
  assert (Hp : 0 < len flows) by (eapply Hpos; left).
  pose proof (select_flow_elem (cursor_of s id) flows Hp) as Hsel.
  apply IH in Hs as (Hother & Hkeep & Hrest); [|done|intros; eapply Hpos; by right]. split_and!.
  - intros j [Hj Hj']%not_elem_of_cons. by rewrite Hother, Hc, lookup_insert_ne by congruence.
  - intros h Hfree. rewrite Hkeep by (intros; eapply Hfree; by right). destruct o as [[h' grant]|]; [|done].
    rewrite lookup_insert_ne; [done|]. intros <-. rewrite (Hh h' grant eq_refl) in Hfree.
    by apply (Hfree id flows); [left|].
  - intros j flows' [[= -> ->]|Hin]%elem_of_cons.
    + split; [unfold cursor_of; by rewrite Hother, Hc, lookup_insert_eq by done|].
      intros Ha Hgr Hfree. destruct (Hg Ha Hgr) as (grant & -> & Hgen). exists grant. split; [|done].
      rewrite Hkeep; [apply lookup_insert_eq|]. intros j' flows' Hj'. eapply Hfree; [by right| |done].
      intros ->. apply Hid. apply list_elem_of_fmap. by exists (id, flows').
    + assert (j <> id) as Hne. { intros ->. apply Hid. apply list_elem_of_fmap. by exists (id, flows'). }
      specialize (Hrest j flows' Hin).
      assert (cursor_of s1 j = cursor_of s j) as Hcj
        by (unfold cursor_of; by rewrite Hc, lookup_insert_ne by congruence).
      rewrite Hcj in Hrest. destruct Hrest as [? Hr].
      split; [done|]. intros Ha Hgr Hfree. apply Hr; [done|by apply Ht|].
      intros k flows'' Hk Hkj. eapply Hfree; [by right|done].
Qed.

(** ** The users of a poll *)

Lemma rotate_left_perm {A} (l : list A) n : rotate_left l n ≡ₚ l.
Proof. unfold rotate_left. by rewrite Permutation_app_comm, take_drop. Qed.

Lemma schedule_perm s s' scheduled :
  schedule s = (s', scheduled) ->
  scheduled ≡ₚ map (fun id => (id, merge_sort Z.le (flows_of s id))) (elements (active_users s)).
Proof.
  unfold schedule. set (f := fun id => (id, merge_sort Z.le (flows_of s id))).
  assert (map f (merge_sort lex_le (elements (active_users s))) ≡ₚ map f (elements (active_users s))) as Hp
    by by rewrite merge_sort_Permutation.
  case_bool_decide as He; intros [= _ <-]; etransitivity; [|exact Hp|apply rotate_left_perm|exact Hp].
  rewrite <- He. done.
Qed.

Lemma flows_active s id : flows_of s id <> [] -> id ∈ active_users s.
Proof.
  unfold flows_of, active_users. rewrite elem_of_list_to_set, elem_of_app. intros Hne.
  destruct (omap _ (map_to_list (State.flows s))) as [|h l] eqn:El.
  - destruct (omap _ (map_to_list (State.datagram_flows s))) as [|h l] eqn:Ed; [done|]. right.
    assert (h ∈ h :: l) as Hh by left. rewrite <- Ed in Hh.
    apply list_elem_of_omap in Hh as ([h' f] & Hl & Hf). case_if_in Hf; simplify_eq; bools.
    apply list_elem_of_omap. by exists (h, f).
  - left. assert (h ∈ h :: l) as Hh by left. rewrite <- El in Hh.
    apply list_elem_of_omap in Hh as ([h' f] & Hl & Hf). case_if_in Hf; simplify_eq; bools.
    apply list_elem_of_omap. by exists (h, f).
Qed.

Lemma active_flows_of s id : id ∈ active_users s -> flows_of s id <> [].
Proof.
  unfold flows_of, active_users. rewrite elem_of_list_to_set, elem_of_app.
  intros [Ha|Ha]; apply list_elem_of_omap in Ha as ([h f] & Hl & Hf); intros Hn; apply app_nil in Hn as [H1 H2].
  - assert (h ∈ ([] : list Z)) as []%not_elem_of_nil. rewrite <- H1. apply list_elem_of_omap. exists (h, f).
    split; [done|]. simpl in *. by rewrite bool_decide_true.
  - assert (h ∈ ([] : list Z)) as []%not_elem_of_nil. rewrite <- H2. apply list_elem_of_omap. exists (h, f).
    split; [done|]. simpl in *. by rewrite bool_decide_true.
Qed.

Lemma schedule_turns s s' scheduled :
  schedule s = (s', scheduled) ->
  NoDup scheduled.*1 /\ (forall id flows, (id, flows) ∈ scheduled -> 0 < len flows) /\
  (apart s -> forall id flows j flows' h,
     (id, flows) ∈ scheduled -> (j, flows') ∈ scheduled -> j <> id -> h ∈ flows -> h ∉ flows') /\
  forall id, flows_of s id <> [] -> (id, merge_sort Z.le (flows_of s id)) ∈ scheduled.
Proof.
  intros Hsch. pose proof Hsch as Hs%schedule_perm. split_and!.
  3: { intros Ha id flows j flows' h Hi Hj Hne Hh Hh'. apply Hne.
       eapply owner_unique; [done|by eapply schedule_owner|by eapply schedule_owner]. }
  2: { intros id flows. rewrite Hs. intros (u & [= -> ->] & Hu%elem_of_elements)%list_elem_of_fmap.
       apply active_flows_of in Hu. unfold len. rewrite merge_sort_Permutation.
       destruct (flows_of s u); [done|]. simpl. lia. }
  - rewrite Hs, <- list_fmap_compose.
    replace (fst ∘ _) with (fun id : str => id) by done. rewrite list_fmap_id. apply NoDup_elements.
  - intros id Ha%flows_active. rewrite Hs. apply list_elem_of_fmap. exists id. split; [done|].
    by apply elem_of_elements.
Qed.

(** ** The cursor over a poll *)

(** A user that still has an account keeps its turn. *)
Lemma drop_all_cursor id remove : forall s,
  let s' := fold_left drop_traffic remove s in
  is_Some (State.traffic s' !! id) -> State.flow_cursor s' !! id = State.flow_cursor s !! id.
Proof.
  induction remove as [|j remove IH]; intros s; cbn; [done|]. intros Hs.
  rewrite IH by done. simpl. apply lookup_delete_ne. intros ->.
  assert (forall l s0, State.traffic s0 !! id = None ->
    State.traffic (fold_left drop_traffic l s0) !! id = None) as Hgone.
  { clear. induction l as [|k l IH]; intros s0 H0; simpl; [done|]. apply IH. simpl.
    by apply lookup_delete_None; right. }
  rewrite Hgone in Hs; [by apply is_Some_None in Hs|]. apply lookup_delete_eq.
Qed.

Lemma advance_quota_cursor s now s' status id :
  advance_quota s now = (s', status) -> is_Some (State.traffic s' !! id) ->
  State.flow_cursor s' !! id = State.flow_cursor s !! id.
Proof.
  unfold advance_quota. destruct (advance_users _ _ _ _) as [[s2 st2] rm] eqn:E2.
  apply advance_users_kept in E2 as [_ E2]. intros [= <- _] Ht. by rewrite drop_all_cursor, E2.
Qed.

Lemma stop_expired_cursor s now utc id :
  is_Some (State.traffic (stop_expired s now utc) !! id) ->
  cursor_of (stop_expired s now utc) id = cursor_of s id.
Proof.
  unfold stop_expired, cursor_of. destruct (advance_quota _ now) as [s1 st] eqn:E1. intros Hs.
  assert (State.flow_cursor s1 !! id = State.flow_cursor s !! id) as H1
    by (apply advance_quota_cursor with (id := id) in E1; [done|by case_if_in Hs]).
  case_if; simpl; by rewrite H1.
Qed.

Lemma move_bytes_cursor s ios dgs grants s' :
  @move_bytes _ _ E s ios dgs grants = Some s' -> State.flow_cursor s' = State.flow_cursor s.
Proof.
  unfold move_bytes. intros ([polled1 used1] & _ & Hm)%bind_Some.
  destruct (account_all s used1) as [s1 f1] eqn:E1. apply account_all_kept in E1 as [_ E1].
  destruct (poll_datagram_flows _ _ _) as [polled2 used2].
  destruct (account_all _ used2) as [s2 f2] eqn:E2. apply account_all_kept in E2 as [_ E2].
  simplify_eq. simpl in *. congruence.
Qed.

(** The state a poll schedules in, and the grants it hands out. *)
Definition admitted (s : State.t) (env : environment (E := E)) : State.t :=
  stop_expired s (now_nanos env) (now_utc env).

Definition poll_grants (s : State.t) (env : environment (E := E)) : gmap Z RateGrant.t :=
  snd (assign_grants (admitted s env) (now_nanos env)).

(** A poll in which the user can be granted something; handles are not used twice,
    as AccountFacts.v shows of every run. *)
Definition can_grant (s : State.t) (env : environment (E := E)) (id : str) : Prop :=
  apart (admitted s env) /\ grantable (admitted s env) (now_nanos env) id.

Definition user_flows (s : State.t) (env : environment (E := E)) (id : str) : list Z :=
  merge_sort Z.le (flows_of (admitted s env) id).

(** The flow a poll's turn of a user goes to, and the cursor it leaves. *)
Definition turn (s : State.t) (env : environment (E := E)) (id : str) : Z * Z :=
  select_flow (cursor_of s id) (user_flows s env id).

Lemma poll_turn s env s' status id :
  poll_instance s env = Some (s', status) -> State.maintenance s = false ->
  is_Some (State.traffic (admitted s env) !! id) -> user_flows s env id <> [] ->
  cursor_of s' id = snd (turn s env id) /\
  (can_grant s env id ->
   exists grant, poll_grants s env !! fst (turn s env id) = Some grant /\ generous grant).
Proof.
  unfold poll_instance, poll_grants, can_grant, turn, user_flows. intros Hp Hm Ht Hne. rewrite Hm in Hp.
  fold (admitted s env) in Hp. pose proof (stop_expired_cursor _ _ _ _ Ht) as Hc.
  fold (admitted s env) in Hc. rewrite <- Hc. clear Hc Hm. set (s1 := admitted s env) in *. clearbody s1.
  unfold assign_grants in *.
  destruct (schedule s1) as [s2 scheduled] eqn:E2. pose proof (schedule_turns _ _ _ E2) as (Hnd & Hpos & Hfree & Hin).
  assert (H2 : calm s1 s2 /\ s2 = State.set_user_cursor s1 (State.user_cursor s2))
    by (unfold schedule in E2; case_if_in E2; simplify_eq; split; try done; by destruct s2).
  destruct (global_available s2 _) as [s3 available] eqn:E3.
  assert (H3 : calm s2 s3) by (unfold global_available in E3; by repeat case_match; simplify_eq).
  assert (Hnone : State.global_rate s1 = None -> available = None /\ s3 = s2).
  { destruct H2 as [_ H2]. intros Hn. unfold global_available in E3. rewrite H2 in E3. simpl in E3.
    rewrite Hn in E3. simplify_eq. done. }
  pose proof (calm_trans _ _ _ (proj1 H2) H3) as (_ & Ht3 & Hc3).
  destruct (grant_users s3 _ _ _ _ _) as [s4 grants] eqn:E4.
  apply grant_users_turns in E4 as (_ & _ & Hturn); [|done..].
  apply bind_Some in Hp as (s5 & E5%move_bytes_cursor & [= <- _]).
  assert ((id, merge_sort Z.le (flows_of s1 id)) ∈ scheduled) as Hmine
    by (apply Hin; intros Hnil; apply Hne; by rewrite Hnil).
  destruct (Hturn id _ Hmine) as [Hcur Hg].
  replace (cursor_of s3 id) with (cursor_of s1 id) in * by (unfold cursor_of; by rewrite Hc3).
  split.
  - rewrite <- Hcur. unfold cursor_of, retain_flows. simpl.
    by rewrite (proj2 (poll_sessions_traffic _ _ _ _ _)), E5.
  - intros [Ha Hgr]. destruct (Hnone (proj1 Hgr)) as [Hav ->]. apply Hg; [done| |].
    + destruct H2 as [_ ->]. exact Hgr.
    + intros j flows' Hj Hne' h Hh. exact (Hfree Ha id _ j flows' h Hmine Hj Hne' Hh).
Qed.

(** * Between two polls *)

(** A call of the host other than a poll, or a command served by the storage
    thread. *)
Inductive other_step (utc : Z) : State.t -> State.t -> Prop :=
| other_control s fill request s' r :
    control_instance s fill utc request = (s', r) -> other_step utc s s'
| other_attach_session s next now raw context s' next' status handle :
    @attach_session _ _ E s next now raw context = (s', next', status, handle) -> other_step utc s s'
| other_admit_flow s session metadata s' status :
    admit_flow s session utc metadata = (s', status) -> other_step utc s s'
| other_attach_flow s next now session raw pumps s' next' status :
    attach_flow s next now session raw pumps = (s', next', status) -> other_step utc s s'
| other_attach_datagram_flow s next session raw pumps s' next' status :
    attach_datagram_flow s next session raw pumps = (s', next', status) -> other_step utc s s'
| other_shutdown s now s' status :
    shutdown_instance s now = (Some s', status) -> other_step utc s s'
| other_storage s copied reopened :
    other_step utc s (State.set_storage s (StorageWorker.run_step copied reopened (State.storage s))).

Lemma effects_cursor s s' id : effects s' = effects s -> cursor_of s' id = cursor_of s id.
Proof. unfold effects, cursor_of. intros He. injection He. congruence. Qed.

Lemma fold_left_same {A B C} (f : A -> B -> A) (g : A -> C) (l : list B) : forall a,
  (forall a b, g (f a b) = g a) -> g (fold_left f l a) = g a.
Proof. induction l as [|b l IH]; intros a Hf; simpl; [done|]. by rewrite IH, Hf. Qed.

(** A mutation takes the turn of a user away only with the account. *)
Lemma mutation_cursor s utc m id :
  is_Some (State.traffic (apply_admin_mutation s utc m) !! id) ->
  cursor_of (apply_admin_mutation s utc m) id = cursor_of s id.
Proof.
  unfold apply_admin_mutation. set (s1 := fold_left apply_rules _ _).
  assert (State.flow_cursor s1 = State.flow_cursor s) as H1.
  { unfold s1. rewrite !(fold_left_same _ State.flow_cursor); [done|..]; intros a [k v]; [|done|done].
    unfold apply_user, evict_user. by repeat case_match. }
  set (s2 := match AdminMutation.disconnect m with Some _ => _ | None => _ end).
  assert (State.flow_cursor s2 = State.flow_cursor s) as H2.
  { rewrite <- H1. unfold s2, apply_active_rules. by repeat case_match. }
  clearbody s1 s2. unfold cursor_of, revoke_credentials, stop_users. intros Ht. revert Ht.
  destruct (bool_decide (stopped_by utc m = ∅)), (bool_decide (revoked_by m = ∅)); simpl; rewrite ?H2; try done;
    intros [t [Ht Hin]%map_lookup_filter_Some]; rewrite <- H2;
    (destruct (State.flow_cursor s2 !! id) as [c|] eqn:Ec;
     [by rewrite (map_lookup_filter_Some_2 _ _ id c)|by rewrite map_lookup_filter_None_2 by auto]).
Qed.

Lemma control_cursor s fill utc request s' r id :
  control_instance s fill utc request = (s', r) -> is_Some (State.traffic s' !! id) ->
  cursor_of s' id = cursor_of s id.
Proof.
  unfold control_instance, resume. destruct (State.pending_control s) as [pending|].
  2: { intros [He _]%start_request_effects _. by apply effects_cursor. }
  case_if; [by intros [= <- <-]|]. destruct pending as [p|p|p]; simpl in *.
  - unfold resume_write, try_recv_write. simpl.
    destruct (StorageWorker.try_recv _ _) as [w a].
    destruct a as [[[v|[u|e]|v|]|]|]; try by intros [= <- <-].
    destruct (AdminSequencer.apply_commit _ _ _) as [q [[]|e]]; intros [= <- <-] Ht; [|done].
    by rewrite (mutation_cursor _ _ _ _ Ht).
  - unfold resume_read. destruct (try_recv_read _ _) as [s1 a] eqn:Ea.
    apply try_recv_read_effects in Ea. apply (effects_cursor _ _ id) in Ea. simpl in Ea.
    destruct a as [v| |]; try by intros [= <- <-].
    destruct (finish_admin_read s1 _ v) as [s2 [[]|e]] eqn:Ef; apply finish_admin_read_effects in Ef;
      apply (effects_cursor _ _ id) in Ef.
    + intros [He _]%start_request_effects _. apply (effects_cursor _ _ id) in He. by rewrite He, Ef, Ea.
    + intros [= <- <-] _. by rewrite Ef, Ea.
  - unfold resume_backup. destruct (try_recv_write _ _) as [s1 a] eqn:Ea.
    apply try_recv_write_effects in Ea. apply (effects_cursor _ _ id) in Ea. simpl in Ea.
    by destruct a; intros [= <- <-].
Qed.

Lemma take_identity_cursor s session s' r :
  take_identity s session = (s', r) -> State.flow_cursor s' = State.flow_cursor s.
Proof. unfold take_identity. by repeat case_match; intros [= <- <-]. Qed.

Lemma shutdown_cursor s now s' status id :
  shutdown_instance s now = (Some s', status) -> is_Some (State.traffic s' !! id) ->
  cursor_of s' id = cursor_of s id.
Proof.
  unfold shutdown_instance, cursor_of. destruct (advance_quota _ now) as [s1 st] eqn:E1.
  intros Hs Ht. apply advance_quota_cursor with (id := id) in E1.
  - replace (State.flow_cursor s' !! id) with (State.flow_cursor s1 !! id) by (by repeat case_match; simplify_eq).
    rewrite E1. by case_if.
  - by repeat case_match; simplify_eq.
Qed.

(** No call but a poll moves the turn of a user that has an account. *)
Lemma other_step_cursor utc s s' id :
  other_step utc s s' -> is_Some (State.traffic s' !! id) -> cursor_of s' id = cursor_of s id.
Proof.
  intros Hs Ht. destruct Hs as
    [s fill request s' r Hs|s next now raw context s' next' status handle Hs|s session metadata s' status Hs
    |s next now session raw pumps s' next' status Hs|s next session raw pumps s' next' status Hs
    |s now s' status Hs|s copied reopened].
  - by eapply control_cursor.
  - unfold attach_session in Hs. by repeat case_match; simplify_eq.
  - unfold admit_flow in Hs. by repeat case_match; simplify_eq.
  - unfold attach_flow in Hs. case_if_in Hs; simplify_eq; [done|].
    destruct (take_identity s session) as [s1 r] eqn:E1. apply take_identity_cursor in E1.
    unfold cursor_of. rewrite <- E1. by repeat case_match; simplify_eq.
  - unfold attach_datagram_flow in Hs. case_if_in Hs; simplify_eq; [done|].
    destruct (take_identity s session) as [s1 r] eqn:E1. apply take_identity_cursor in E1.
    unfold cursor_of. rewrite <- E1. by repeat case_match; simplify_eq.
  - by eapply shutdown_cursor.
  - done.
Qed.

(** Any number of calls and storage commands, after each of which the user still has
    an account. *)
Definition between (id : str) : State.t -> State.t -> Prop :=
  rtc (fun a b => (exists utc, other_step utc a b) /\ is_Some (State.traffic b !! id)).

Lemma between_cursor id s s' : between id s s' -> cursor_of s' id = cursor_of s id.
Proof.
  induction 1 as [|a b c [[utc Hab] Ht] _ IH]; [done|]. rewrite IH. by eapply other_step_cursor.
Qed.

(** * Consecutive polls *)

(** Polls of an instance that is not in maintenance, each with the environment it
    runs in, in which the user keeps its account and its flows.  Between two polls
    the host makes any calls and the storage thread serves any commands that leave
    the user its account. *)
Inductive polls (id : str) (flows : list Z) : State.t -> list (State.t * environment (E := E)) -> Prop :=
  | polls_done s : polls id flows s []
  | polls_next s env s' status s'' l :
      State.maintenance s = false -> poll_instance s env = Some (s', status) ->
      is_Some (State.traffic (admitted s env) !! id) -> user_flows s env id = flows ->
      between id s' s'' -> polls id flows s'' l ->
      polls id flows s ((s, env) :: l).

Lemma polls_turn id flows s l :
  polls id flows s l -> flows <> [] -> 0 <= cursor_of s id -> cursor_of s id + len l < usize_max ->
  forall k p env, l !! k = Some (p, env) ->
  fst (turn p env id) = nth (Z.to_nat ((cursor_of s id + Z.of_nat k) mod len flows)) flows 0 /\
  (can_grant p env id ->
   exists grant, poll_grants p env !! fst (turn p env id) = Some grant /\ generous grant).
Proof.
  intros Hl Hne. induction Hl as [|s env s' status s'' l Hm Hp Ht Hf Hc%between_cursor Hl IH];
    intros H0 Hmax k p env' Hk; [done|]. rewrite len_cons in Hmax.
  assert (Hlen : 0 <= len l) by apply len_nonneg.
  apply (poll_turn _ _ _ _ id) in Hp as [Hcur Hg]; [|done..|by rewrite Hf].
  assert (Hturn : turn s env id = (nth (Z.to_nat (cursor_of s id mod len flows)) flows 0, cursor_of s id + 1))
    by (unfold turn; rewrite Hf; apply select_flow_small; lia).
  rewrite Hturn in Hcur. destruct k as [|k].
  - injection Hk as <- <-. rewrite Z.add_0_r. split; [by rewrite Hturn|done].
  - rewrite Hc, Hcur in IH. simpl in IH.
    replace (cursor_of s id + Z.of_nat (S k)) with (cursor_of s id + 1 + Z.of_nat k) by lia.
    apply IH; [lia..|done].
Qed.

(** C20: in as many polls as a user has flows, every flow of the user has its turn,
    and a turn is worth something: there is one of the polls in which the flow is the
    one the user's turn goes to, and in that poll, when the account can be granted
    something, the grant that the poll hands to the flow is of at least one byte, both
    in total and in each direction.  An account can be granted something
    ([can_grant]) when its books are open (not failed, nothing being written or
    refreshed), it has credit left, its own combined, upload and download rates, if it
    has any, have tokens, the deployment has no global rate, the weight and
    [sniff_bytes] are positive, its deficit is not negative (it is a [u64]), and no
    handle is both a stream's and a datagram flow's, as in every run (AccountFacts.v).  Between the polls any calls of the host and any
    storage commands may happen; the user must keep its account through them, have the
    same flows in every poll, and its turn counter must not wrap around.  Nothing is
    asked of the other users or of the flows' peers. *)
Theorem flows_take_turns id flows s l flow :
  polls id flows s l -> length l = length flows -> 0 <= cursor_of s id ->
  cursor_of s id + len flows < usize_max -> flow ∈ flows ->
  exists p env, (p, env) ∈ l /\ fst (turn p env id) = flow /\
    (can_grant p env id -> exists grant, poll_grants p env !! flow = Some grant /\ generous grant).
Proof.
  intros Hl Hlen H0 Hmax Hin. assert (len l = len flows) as Hll by (unfold len; lia).
  destruct (select_flow_covers (cursor_of s id) flows flow H0 Hin) as (k & Hk & Hnth).
  destruct (lookup_lt_is_Some_2 l (Z.to_nat k)) as [[p env] Hp]; [unfold len in Hk; lia|].
  destruct (polls_turn _ _ _ _ Hl) with (k := Z.to_nat k) (p := p) (env := env) as [Ht Hg]; [|done|lia|done|].
  { intros ->. by apply not_elem_of_nil in Hin. }
  rewrite Z2Nat.id, Hnth in Ht by lia. rewrite Ht in Hg.
  exists p, env. split; [by eapply list_elem_of_lookup_2|done].
Qed.
End facts.

(** ** An example *)
Section example.
Import World.

(** A second flow of the user, under the handle of the first one's successor. *)
Definition open_second (s : State.t) : State.t :=
  fst (fst (attach_flow (fst (admit_flow s 1 1000 domain_destination)) 2 0 1 true true)).

(** Two flows and credit in hand, one poll further on, and two. *)
Definition turn_0 : State.t := serve (poll_with 0 [] (open_second (open_flow domain_destination (server alice_user)))).
Definition turn_1 : State.t := poll_with 10 [] turn_0.

Definition two_polls : list (State.t * environment (E := unit)) :=
  [(turn_0, environment_of 10 []); (turn_1, environment_of 20 [])].

Lemma two_polls_run : polls alice [1; 2] turn_0 two_polls.
Proof.
  destruct (poll_with_Some 10 [] turn_0) as [st0 H0]; [by vm_compute|].
  destruct (poll_with_Some 20 [] turn_1) as [st1 H1]; [by vm_compute|].
  eapply polls_next; [by vm_compute|exact H0|by vm_compute; eexists|by vm_compute|apply rtc_refl|].
  eapply polls_next; [by vm_compute|exact H1|by vm_compute; eexists|by vm_compute|apply rtc_refl|].
  constructor.
Qed.

Lemma turn_1_can_grant : can_grant turn_1 (environment_of 20 []) alice.
Proof.
  split.
  - unfold apart. intros h f g _ Hg. by vm_compute in Hg.
  - unfold grantable. split_and!; [by vm_compute..|].
    destruct (State.traffic _ !! alice) as [t|] eqn:Et; [|by vm_compute in Et].
    exists t. vm_compute in Et. by injection Et as <-.
Qed.

Lemma flows_take_turns_witness :
  can_grant turn_1 (environment_of 20 []) alice /\ exists p env, (p, env) ∈ two_polls /\ fst (turn p env alice) = 1 /\
    (can_grant p env alice -> exists grant, poll_grants p env !! 1 = Some grant /\ generous grant).
Proof.
  split; [exact turn_1_can_grant|].
  apply (flows_take_turns alice [1; 2] turn_0 two_polls 1 two_polls_run);
    [done|by vm_compute|by vm_compute|left].
Defined.
End example.
