(* ===== verification/Abi.v ===== *)
(** The part of the host interface (snolc_sdk::abi) that the modules name:
    status codes, the result of an I/O call, and the table of functions behind a
    byte stream.

    The SDK is not part of the repository.  A status is the constant it is named
    by, an I/O result is what its four constructors make of it, and the functions
    of a stream are fields of the table: partial functions of a world [W] that
    the caller of a definition chooses.  Wake handles are passed through to the
    stream, and are left out where a module does nothing else with them. *)
From Stdlib Require Import Strings.Byte.
From S2P Require Import Prelude Text.
#[local] Open Scope Z_scope.

Module Status.
Inductive t := OK | PENDING | INVALID | DENIED | RESOURCE | UNSUPPORTED | IO | INTERNAL.
#[global] Instance eq_dec : EqDecision t.
Proof. solve_decision. Defined.
End Status.

(** [SnolIoResult]: [progress], [pending], [eof] and [error]. *)
Module SnolIoResult.
Inductive t := progress (count : Z) | pending | eof | error (status : Status.t).
#[global] Instance eq_dec : EqDecision t.
Proof. solve_decision. Defined.
End SnolIoResult.

(** [SnolByteIoV1]: a read is given the handle and the length of the buffer and
    answers with what it stored there. *)
Module SnolByteIoV1.
Record t (W : Type) := mk {
  struct_size : Z;
  reserved : Z;
  read : option (W -> Z -> Z -> W * bytes * SnolIoResult.t);
  write : option (W -> Z -> bytes -> W * SnolIoResult.t);
  flush : option (W -> Z -> W * SnolIoResult.t);
  shutdown_write : option (W -> Z -> W * SnolIoResult.t);
  close : option (W -> Z -> W * Status.t);
}.
Arguments mk {W}.
Arguments struct_size {W} _.
Arguments reserved {W} _.
Arguments read {W} _.
Arguments write {W} _.
Arguments flush {W} _.
Arguments shutdown_write {W} _.
Arguments close {W} _.
End SnolByteIoV1.

(** The trait of the SDK for streams: a read is given the length of the buffer. *)
Class ByteIo (T : Type) := {
  poll_read : T -> Z -> T * bytes * poll (result unit Z);
  poll_write : T -> bytes -> T * poll (result unit Z);
  poll_flush : T -> T * poll (result unit unit);
  poll_shutdown_write : T -> T * poll (result unit unit);
  close_io : T -> T * result unit unit;
}.

(** A buffer of [n] zero bytes after the callee stored [data] at its start. *)
Definition filled (n : Z) (data : bytes) : bytes := resize (Z.to_nat n) x00 data.

Lemma len_filled n data : 0 <= n -> len (filled n data) = n.
Proof. intros. unfold filled, len. rewrite length_resize. lia. Qed.

Lemma take_filled n data : len data <= n -> take (length data) (filled n data) = data.
Proof.
  intros. unfold filled, len in *. rewrite resize_ge by lia.
  by rewrite take_app_length.
Qed.

(** [AtomicU64::fetch_add(1)]: the old value, and the counter after it. *)
Definition fetch_add (next : Z) : Z * Z := (next, wrapping_add u64_max next 1).
