(* ===== verification/Noise.v ===== *)
(** protection-noise (modules/protection-noise/src/lib.rs): the Noise_NK
    handshake and the records that secure a byte stream.

    The snow library is a parameter (class [Snow]): its builder, its handshake
    and its transport state, each with the buffer the code hands to it.  The
    stream below is a table of [Abi.SnolByteIoV1] over a world [W]; the pointer to
    it is an address, looked up by [table].  The thread-local maps and the two
    handle counters are the record [Noise.t]; [panic_status] is what the SDK's
    [catch_status] answers when the code below panics. *)
From Stdlib Require Import Strings.Byte.
From S2P Require Import Prelude Text Admin Abi.
#[local] Open Scope Z_scope.

Definition PATTERN : str := #"Noise_NK_25519_ChaChaPoly_BLAKE2s".
Definition PROLOGUE : bytes := #"snolc/protection-noise/1".
Definition MAX_HANDSHAKE : Z := 4096.
Definition MAX_PLAINTEXT : Z := 16384.
Definition MAX_CIPHERTEXT : Z := 16400.
Definition RECORD_LIMIT : Z := Z.shiftl 1 32.

(** The snow library.  [write_message state payload capacity] gives the new state
    and the bytes put at the start of a buffer of that capacity; likewise
    [read_message]. *)
Class Snow := {
  snow_error : Type;
  NoiseParams : Type;
  Builder : Type;
  HandshakeState : Type;
  TransportState : Type;
  parse_params : str -> result snow_error NoiseParams;
  Builder_new : NoiseParams -> Builder;
  Builder_prologue : bytes -> Builder -> result snow_error Builder;
  Builder_remote_public_key : bytes -> Builder -> result snow_error Builder;
  Builder_local_private_key : bytes -> Builder -> result snow_error Builder;
  build_initiator : Builder -> result snow_error HandshakeState;
  build_responder : Builder -> result snow_error HandshakeState;
  hs_write_message : HandshakeState -> bytes -> Z -> HandshakeState * result snow_error bytes;
  hs_read_message : HandshakeState -> bytes -> Z -> HandshakeState * result snow_error bytes;
  is_handshake_finished : HandshakeState -> bool;
  into_transport_mode : HandshakeState -> result snow_error TransportState;
  ts_write_message : TransportState -> bytes -> Z -> TransportState * result snow_error bytes;
  ts_read_message : TransportState -> bytes -> Z -> TransportState * result snow_error bytes;
}.

Module NoiseError.
Inductive t (E : Type) :=
| Snow (error : E)
| Length
| State
| HandshakePayload
| RecordLimit
| Io
| Eof.
Arguments Snow {E} _.
Arguments Length {E}.
Arguments State {E}.
Arguments HandshakePayload {E}.
Arguments RecordLimit {E}.
Arguments Io {E}.
Arguments Eof {E}.
End NoiseError.

(** * Records on the wire *)

Module FrameReader.
Record t := mk { data : bytes; expected : option Z }.

Definition default : t := mk [] None.

Definition push {E} (r : t) (input : bytes) (limit : Z) : t * result (NoiseError.t E) unit :=
  if limit + 2 <? saturating_add usize_max (len (data r)) (len input)
  then (r, Err NoiseError.Length)
  else
    let data := data r ++ input in
    if is_none (expected r) && (2 <=? len data) then
      let length := of_be (take 2 data) in
      if (length =? 0) || (limit <? length)
      then (mk data (expected r), Err NoiseError.Length)
      else (mk data (Some (length + 2)), Ok tt)
    else (mk data (expected r), Ok tt).

Definition take (r : t) : t * option bytes :=
  match expected r with
  | None => (r, None)
  | Some expected =>
      if len (data r) <? expected then (r, None)
      else if negb (len (data r) =? expected) then (r, None)
      else (default, Some (drop 2 (firstn (Z.to_nat expected) (data r))))
  end.

Definition remaining_capacity (r : t) (limit : Z) : Z :=
  match expected r with
  | Some expected => saturating_sub expected (len (data r))
  | None => Z.min (saturating_sub 2 (len (data r))) (limit + 2)
  end.
End FrameReader.

Definition frame {E} (message : bytes) (limit : Z) : result (NoiseError.t E) bytes :=
  if bool_decide (message = []) || (limit <? len message) || (u16_max <? len message)
  then Err NoiseError.Length
  else Ok (be_bytes 2 (len message) ++ message).

(** * The handshake and the transport, as values *)

Module NoiseHandshake.
Section with_snow.
Context `{Snow}.
Abbreviation error := (NoiseError.t snow_error).

Record t := mk { state : option HandshakeState; responder : bool }.

(** The builder up to the key, which both roles share. *)
Definition builder : result error Builder :=
  params ← map_err NoiseError.Snow (parse_params PATTERN);
  map_err NoiseError.Snow (Builder_prologue PROLOGUE (Builder_new params)).

Definition client (server_public_key : bytes) : result error t :=
  b ← builder;
  b ← map_err NoiseError.Snow (Builder_remote_public_key server_public_key b);
  state ← map_err NoiseError.Snow (build_initiator b);
  Ok (mk (Some state) false).

Definition server (private_key : bytes) : result error t :=
  b ← builder;
  b ← map_err NoiseError.Snow (Builder_local_private_key private_key b);
  state ← map_err NoiseError.Snow (build_responder b);
  Ok (mk (Some state) true).

Definition write_handshake (h : t) : t * result error bytes :=
  match state h with
  | None => (h, Err NoiseError.State)
  | Some state =>
      let '(state, r) := hs_write_message state [] MAX_HANDSHAKE in
      (mk (Some state) (responder h),
       message ← map_err NoiseError.Snow r; frame message MAX_HANDSHAKE)
  end.

Definition initial (h : t) : t * result error bytes :=
  if responder h then (h, Err NoiseError.State) else write_handshake h.

Definition receive (h : t) (message : bytes) : t * result error (option bytes) :=
  if MAX_HANDSHAKE <? len message then (h, Err NoiseError.Length)
  else match state h with
  | None => (h, Err NoiseError.State)
  | Some state =>
      let '(state, r) := hs_read_message state message MAX_HANDSHAKE in
      let h := mk (Some state) (responder h) in
      match r with
      | Err e => (h, Err (NoiseError.Snow e))
      | Ok payload =>
          if negb (len payload =? 0) then (h, Err NoiseError.HandshakePayload)
          else if responder h then
            let '(h, r) := write_handshake h in (h, reply ← r; Ok (Some reply))
          else (h, Ok None)
      end
  end.
End with_snow.
End NoiseHandshake.

Module NoiseTransport.
Section with_snow.
Context `{Snow}.
Abbreviation error := (NoiseError.t snow_error).

Record t := mk { state : TransportState; sent_records : Z; received_records : Z }.

Definition seal (s : t) (plaintext : bytes) : t * result error bytes :=
  if bool_decide (plaintext = []) || (MAX_PLAINTEXT <? len plaintext)
  then (s, Err NoiseError.Length)
  else if RECORD_LIMIT <=? sent_records s then (s, Err NoiseError.RecordLimit)
  else match ts_write_message (state s) plaintext MAX_CIPHERTEXT with
  | (state, Err e) =>
      (mk state (sent_records s) (received_records s), Err (NoiseError.Snow e))
  | (state, Ok ciphertext) =>
      (mk state (sent_records s + 1) (received_records s), frame ciphertext MAX_CIPHERTEXT)
  end.

Definition open (s : t) (ciphertext : bytes) : t * result error bytes :=
  if bool_decide (ciphertext = []) || (MAX_CIPHERTEXT <? len ciphertext)
  then (s, Err NoiseError.Length)
  else if RECORD_LIMIT <=? received_records s then (s, Err NoiseError.RecordLimit)
  else match ts_read_message (state s) ciphertext MAX_PLAINTEXT with
  | (state, Err e) =>
      (mk state (sent_records s) (received_records s), Err (NoiseError.Snow e))
  | (state, Ok plaintext) =>
      if len plaintext =? 0
      then (mk state (sent_records s) (received_records s), Err NoiseError.Length)
      else (mk state (sent_records s) (received_records s + 1), Ok plaintext)
  end.
End with_snow.
End NoiseTransport.

(** [NoiseHandshake::finish]. *)
Definition NoiseHandshake_finish `{Snow} (h : NoiseHandshake.t)
    : result (NoiseError.t snow_error) NoiseTransport.t :=
  state ← ok_or (NoiseHandshake.state h) NoiseError.State;
  if negb (is_handshake_finished state) then Err NoiseError.State
  else
    transport ← map_err NoiseError.Snow (into_transport_mode state);
    Ok (NoiseTransport.mk transport 0 0).

(** * Options and keys *)

Module Options.
Inductive t :=
| Client (server_public_key_file : str)
| Server (private_key_file : str).
End Options.

Module RoleKey.
Inductive t := Client (key : bytes) | Server (key : bytes).
End RoleKey.

(** The messages of [load_options]; the text of a library error is not kept, and
    [Panic] is the panic of slicing a string inside a character. *)
Inductive load_error :=
| ConfigNotUtf8 | BaseNotUtf8 | BadToml | ReadFailed | KeyLength | NotHexadecimal
| RawOrHexadecimal | Panic.

(** [str::is_char_boundary] and [&input[start..end]]. *)
Definition is_char_boundary (l : str) (i : nat) : bool :=
  match l !! i with
  | Some b => negb (utf8_cont b)
  | None => bool_decide (i = length l)
  end.

Definition str_slice (l : str) (i j : nat) : option str :=
  if (i <=? j)%nat && is_char_boundary l i && is_char_boundary l j
  then Some (drop i (firstn j l)) else None.

(** The loop of [decode_hex] over the remaining bytes of the key. *)
Fixpoint decode_hex_loop (input : str) (index count : nat) : result load_error bytes :=
  match count with
  | O => Ok []
  | S count =>
      let offset := (index * 2)%nat in
      pair ← ok_or (str_slice input offset (offset + 2)) Panic;
      byte ← ok_or (from_str_radix 16 u8_max pair) NotHexadecimal;
      rest ← decode_hex_loop input (S index) count;
      Ok (to_u8 byte :: rest)
  end.

Definition decode_hex (input : str) : result load_error bytes :=
  if negb (len input =? 64) then Err KeyLength else decode_hex_loop input 0 32.

Section options.
(** [fs::read]. *)
Context {Io : Type} (fs_read : str -> result Io bytes).

Definition read_key (base path : str) : result load_error bytes :=
  let path := if is_absolute path then path else path_join base path in
  bytes ← map_err (fun _ => ReadFailed) (fs_read path);
  if len bytes =? 32 then Ok bytes
  else
    text ← ok_or (from_utf8 bytes) RawOrHexadecimal;
    decode_hex (trim text).

Definition load_options `{Toml Options.t} (config base : bytes) : result load_error RoleKey.t :=
  config ← ok_or (from_utf8 config) ConfigNotUtf8;
  base ← ok_or (from_utf8 base) BaseNotUtf8;
  options ← ok_or (toml_from_str config) BadToml;
  match options with
  | Options.Client file => key ← read_key base file; Ok (RoleKey.Client key)
  | Options.Server file => key ← read_key base file; Ok (RoleKey.Server key)
  end.
End options.

(** * The stream below *)

Section lower.
Context {W : Type} (table : Z -> SnolByteIoV1.t W) (size_of_byte_io : Z) {E : Type}.
Abbreviation error := (NoiseError.t E).

(** [valid_io]; the null pointer is the address 0. *)
Definition valid_io (io : Z) : bool :=
  if io =? 0 then false
  else
    let t := table io in
    (size_of_byte_io <=? SnolByteIoV1.struct_size t) && (SnolByteIoV1.reserved t =? 0)
    && is_some (SnolByteIoV1.read t) && is_some (SnolByteIoV1.write t)
    && is_some (SnolByteIoV1.flush t) && is_some (SnolByteIoV1.shutdown_write t)
    && is_some (SnolByteIoV1.close t).

Definition close_lower (w : W) (io lower : Z) : W * Status.t :=
  match SnolByteIoV1.close (table io) with
  | None => (w, Status.INVALID)
  | Some close => close w lower
  end.

(** The loop of [flush_bytes]; every turn moves the offset. *)
Fixpoint flush_loop (fuel : nat) (write : W -> Z -> bytes -> W * SnolIoResult.t)
    (w : W) (lower : Z) (bytes : bytes) (offset : Z) : W * Z * result error bool :=
  match fuel with
  | O => (w, offset, Err NoiseError.Io)
  | S fuel =>
      if offset <? len bytes then
        let input := drop (Z.to_nat offset) bytes in
        match write w lower input with
        | (w, SnolIoResult.progress count) =>
            if (0 <? count) && (count <=? len bytes - offset)
            then flush_loop fuel write w lower bytes (offset + count)
            else (w, offset, Err NoiseError.Io)
        | (w, SnolIoResult.pending) => (w, offset, Ok false)
        | (w, _) => (w, offset, Err NoiseError.Io)
        end
      else (w, offset, Ok true)
  end.

Definition flush_fuel (bytes : bytes) (offset : Z) : nat := S (Z.to_nat (len bytes - offset)).

Definition flush_bytes (w : W) (io lower : Z) (bytes : bytes) (offset : Z)
    : W * Z * result error bool :=
  match SnolByteIoV1.write (table io) with
  | None => (w, offset, Err NoiseError.Io)
  | Some write => flush_loop (flush_fuel bytes offset) write w lower bytes offset
  end.

(** The loop of [read_frame]; every turn that goes on adds to the frame, which
    holds at most [limit + 2] bytes. *)
Fixpoint read_frame_loop (fuel : nat) (read : W -> Z -> Z -> W * bytes * SnolIoResult.t)
    (w : W) (lower : Z) (reader : FrameReader.t) (limit : Z)
    : W * FrameReader.t * result error (option bytes) :=
  match fuel with
  | O => (w, reader, Err NoiseError.Io)
  | S fuel =>
      let capacity := FrameReader.remaining_capacity reader limit in
      if capacity =? 0 then (w, reader, Err NoiseError.Length)
      else
        let '(w, data, result) := read w lower capacity in
        let buffer := filled capacity data in
        match result with
        | SnolIoResult.progress count =>
            if count <=? len buffer then
              if count =? 0 then (w, reader, Err NoiseError.Io)
              else
                match FrameReader.push reader (take (Z.to_nat count) buffer) limit with
                | (reader, Err e) => (w, reader, Err e)
                | (reader, Ok _) =>
                    match FrameReader.take reader with
                    | (reader, Some frame) => (w, reader, Ok (Some frame))
                    | (reader, None) => read_frame_loop fuel read w lower reader limit
                    end
                end
            else (w, reader, Err NoiseError.Io)
        | SnolIoResult.pending => (w, reader, Ok None)
        | SnolIoResult.eof => (w, reader, Err NoiseError.Eof)
        | _ => (w, reader, Err NoiseError.Io)
        end
  end.

Definition read_fuel (reader : FrameReader.t) (limit : Z) : nat :=
  S (Z.to_nat (limit + 2 - len (FrameReader.data reader))).

Definition read_frame (w : W) (io lower : Z) (reader : FrameReader.t) (limit : Z)
    : W * FrameReader.t * result error (option bytes) :=
  match FrameReader.take reader with
  | (reader, Some frame) => (w, reader, Ok (Some frame))
  | (reader, None) =>
      match SnolByteIoV1.read (table io) with
      | None => (w, reader, Err NoiseError.Io)
      | Some read => read_frame_loop (read_fuel reader limit) read w lower reader limit
      end
  end.
End lower.

(** * The pending handshake *)

Module PendingHandshake.
Record t `{Snow} := mk {
  owner : Z;
  lower : Z;
  io : Z;
  handshake : option HandshakeState;
  outbound : bytes;
  outbound_offset : Z;
  inbound : FrameReader.t;
  server_reply : bool;
}.

Section drive.
Context `{Snow} {W : Type} (table : Z -> SnolByteIoV1.t W).
Abbreviation error := (NoiseError.t snow_error).

Definition set_outbound (p : t) (o : bytes) (n : Z) : t :=
  mk _ (owner p) (lower p) (io p) (handshake p) o n (inbound p) (server_reply p).
Definition set_inbound (p : t) (r : FrameReader.t) : t :=
  mk _ (owner p) (lower p) (io p) (handshake p) (outbound p) (outbound_offset p) r
    (server_reply p).
Definition set_handshake (p : t) (h : option HandshakeState) : t :=
  mk _ (owner p) (lower p) (io p) h (outbound p) (outbound_offset p) (inbound p)
    (server_reply p).

Definition finish (p : t) : t * result error TransportState :=
  match handshake p with
  | None => (p, Err NoiseError.State)
  | Some state =>
      (set_handshake p None,
       if negb (is_handshake_finished state) then Err NoiseError.State
       else map_err NoiseError.Snow (into_transport_mode state))
  end.

(** [self.finish().map(Some)]. *)
Definition finish_some (p : t) : t * result error (option TransportState) :=
  let '(p, r) := finish p in (p, transport ← r; Ok (Some transport)).

(** What follows the flush: wait for the message of the peer, and answer. *)
Definition drive_read (p : t) (w : W) : t * W * result error (option TransportState) :=
  match read_frame table w (io p) (lower p) (inbound p) MAX_HANDSHAKE with
  | (w, reader, Err e) => (set_inbound p reader, w, Err e)
  | (w, reader, Ok None) => (set_inbound p reader, w, Ok None)
  | (w, reader, Ok (Some message)) =>
      let p := set_inbound p reader in
      match handshake p with
      | None => (p, w, Err NoiseError.State)
      | Some state =>
          let '(state, r) := hs_read_message state message MAX_HANDSHAKE in
          let p := set_handshake p (Some state) in
          match r with
          | Err e => (p, w, Err (NoiseError.Snow e))
          | Ok payload =>
              if negb (len payload =? 0) then (p, w, Err NoiseError.HandshakePayload)
              else if server_reply p then
                let '(state, r) := hs_write_message state [] MAX_HANDSHAKE in
                let p := set_handshake p (Some state) in
                match response ← map_err NoiseError.Snow r; frame response MAX_HANDSHAKE with
                | Err e => (p, w, Err e)
                | Ok out =>
                    let '(w, offset, r) :=
                      flush_bytes table w (io p) (lower p) out (outbound_offset p) in
                    let p := set_outbound p out offset in
                    match r with
                    | Err e => (p, w, Err e)
                    | Ok true => let '(p, r) := finish_some p in (p, w, r)
                    | Ok false => (p, w, Ok None)
                    end
                end
              else let '(p, r) := finish_some p in (p, w, r)
          end
      end
  end.

Definition drive (p : t) (w : W) : t * W * result error (option TransportState) :=
  if negb (bool_decide (outbound p = [])) then
    let '(w, offset, r) :=
      flush_bytes table w (io p) (lower p) (outbound p) (outbound_offset p) in
    let p := set_outbound p (outbound p) offset in
    match r with
    | Err e => (p, w, Err e)
    | Ok false => (p, w, Ok None)
    | Ok true =>
        let p := set_outbound p [] 0 in
        if server_reply p then let '(p, r) := finish_some p in (p, w, r)
        else drive_read p w
    end
  else drive_read p w.
End drive.
End PendingHandshake.

(** * The secured stream *)

Module Wrapped.
Record t `{Snow} := mk {
  owner : Z;
  lower : Z;
  io : Z;
  transport : TransportState;
  outbound : bytes;
  outbound_offset : Z;
  inbound : FrameReader.t;
  plaintext : bytes;
  plaintext_offset : Z;
  sent_records : Z;
  received_records : Z;
}.

Section io.
Context `{Snow} {W : Type} (table : Z -> SnolByteIoV1.t W).
Abbreviation error := (NoiseError.t snow_error).

(** The state after a successful handshake. *)
Definition fresh (owner lower io : Z) (transport : TransportState) : t :=
  mk _ owner lower io transport [] 0 FrameReader.default [] 0 0 0.

Definition set_outbound (s : t) (o : bytes) (n : Z) : t :=
  mk _ (owner s) (lower s) (io s) (transport s) o n (inbound s) (plaintext s)
    (plaintext_offset s) (sent_records s) (received_records s).
Definition set_inbound (s : t) (r : FrameReader.t) : t :=
  mk _ (owner s) (lower s) (io s) (transport s) (outbound s) (outbound_offset s) r (plaintext s)
    (plaintext_offset s) (sent_records s) (received_records s).
Definition set_plaintext (s : t) (p : bytes) (n : Z) : t :=
  mk _ (owner s) (lower s) (io s) (transport s) (outbound s) (outbound_offset s) (inbound s) p n
    (sent_records s) (received_records s).
Definition set_transport (s : t) (ts : TransportState) : t :=
  mk _ (owner s) (lower s) (io s) ts (outbound s) (outbound_offset s) (inbound s) (plaintext s)
    (plaintext_offset s) (sent_records s) (received_records s).
Definition set_records (s : t) (sent received : Z) : t :=
  mk _ (owner s) (lower s) (io s) (transport s) (outbound s) (outbound_offset s) (inbound s)
    (plaintext s) (plaintext_offset s) sent received.

(** [copy_plaintext]: the bytes put into an output of [room] bytes. *)
Definition copy_plaintext (s : t) (room : Z) : t * bytes * SnolIoResult.t :=
  if room =? 0 then (s, [], SnolIoResult.progress 0)
  else
    let remaining := drop (Z.to_nat (plaintext_offset s)) (plaintext s) in
    let count := Z.min (len remaining) room in
    let out := take (Z.to_nat count) remaining in
    let s := set_plaintext s (plaintext s) (plaintext_offset s + count) in
    let s := if plaintext_offset s =? len (plaintext s) then set_plaintext s [] 0 else s in
    (s, out, SnolIoResult.progress count).

Definition flush_wrapped (s : t) (w : W) : t * W * result error bool :=
  let '(w, offset, r) :=
    flush_bytes table w (io s) (lower s) (outbound s) (outbound_offset s) in
  let s := set_outbound s (outbound s) offset in
  match r with
  | Ok true => (set_outbound s [] 0, w, r)
  | _ => (s, w, r)
  end.

(** The body of [read] for a handle that is known. *)
Definition read_state (s : t) (w : W) (room : Z) : t * W * bytes * SnolIoResult.t :=
  if plaintext_offset s <? len (plaintext s) then
    let '(s, out, r) := copy_plaintext s room in (s, w, out, r)
  else if RECORD_LIMIT <=? received_records s then (s, w, [], SnolIoResult.error Status.IO)
  else
    let '(w, reader, r) :=
      read_frame (E := snow_error) table w (io s) (lower s) (inbound s) MAX_CIPHERTEXT in
    let s := set_inbound s reader in
    match r with
    | Ok None => (s, w, [], SnolIoResult.pending)
    | Err NoiseError.Eof => (s, w, [], SnolIoResult.eof)
    | Err _ => (s, w, [], SnolIoResult.error Status.IO)
    | Ok (Some ciphertext) =>
        match ts_read_message (transport s) ciphertext MAX_PLAINTEXT with
        | (ts, Err _) | (ts, Ok []) => (set_transport s ts, w, [], SnolIoResult.error Status.IO)
        | (ts, Ok plaintext) =>
            let s := set_transport s ts in
            let s := set_records s (sent_records s) (received_records s + 1) in
            let '(s, out, r) := copy_plaintext (set_plaintext s plaintext 0) room in
            (s, w, out, r)
        end
    end.

(** The end of [write]: one record is sealed and kept for the next flush. *)
Definition write_record (s : t) (input : bytes) : t * SnolIoResult.t :=
  if bool_decide (input = []) then (s, SnolIoResult.progress 0)
  else if RECORD_LIMIT <=? sent_records s then (s, SnolIoResult.error Status.IO)
  else
    let count := Z.min (len input) MAX_PLAINTEXT in
    match ts_write_message (transport s) (take (Z.to_nat count) input) MAX_CIPHERTEXT with
    | (ts, Err _) => (set_transport s ts, SnolIoResult.error Status.IO)
    | (ts, Ok ciphertext) =>
        let s := set_transport s ts in
        match @frame snow_error ciphertext MAX_CIPHERTEXT with
        | Err _ => (s, SnolIoResult.error Status.IO)
        | Ok out =>
            let s := set_outbound s out 0 in
            (set_records s (sent_records s + 1) (received_records s),
             SnolIoResult.progress count)
        end
    end.

(** The body of [write]. *)
Definition write_state (s : t) (w : W) (input : bytes) : t * W * SnolIoResult.t :=
  if negb (bool_decide (outbound s = [])) then
    match flush_wrapped s w with
    | (s, w, Ok true) => let '(s, r) := write_record s input in (s, w, r)
    | (s, w, Ok false) => (s, w, SnolIoResult.pending)
    | (s, w, Err _) => (s, w, SnolIoResult.error Status.IO)
    end
  else let '(s, r) := write_record s input in (s, w, r).

(** The bodies of [flush] and [shutdown_write], which end in a call of the
    stream below. *)
Definition flush_then (s : t) (w : W) (call : option (W -> Z -> W * SnolIoResult.t))
    : t * W * SnolIoResult.t :=
  match flush_wrapped s w with
  | (s, w, Ok false) => (s, w, SnolIoResult.pending)
  | (s, w, Err _) => (s, w, SnolIoResult.error Status.IO)
  | (s, w, Ok true) =>
      match call with
      | None => (s, w, SnolIoResult.error Status.INVALID)
      | Some call => let '(w, r) := call w (lower s) in (s, w, r)
      end
  end.

Definition flush_state (s : t) (w : W) := flush_then s w (SnolByteIoV1.flush (table (io s))).
Definition shutdown_state (s : t) (w : W) :=
  flush_then s w (SnolByteIoV1.shutdown_write (table (io s))).
End io.
End Wrapped.

(** * The module: its maps, its counters and the functions of its tables *)

Module Noise.
Record t `{Snow} := mk {
  INSTANCES : gmap Z RoleKey.t;
  PENDING : gmap Z PendingHandshake.t;
  WRAPPED : gmap Z Wrapped.t;
  INSTANCE_NEXT : Z;
  WRAPPED_NEXT : Z;
}.

Section entry.
Context `{Snow} {W : Type} (table : Z -> SnolByteIoV1.t W) (size_of_byte_io : Z).
Context {Io : Type} (fs_read : str -> result Io bytes) `{Toml Options.t}.
(** What [catch_status] answers when the code it runs panics. *)
Context (panic_status : Status.t).

Definition start : t := mk _ ∅ ∅ ∅ 1 1.

Definition set_instances (m : t) i n := mk _ i (PENDING m) (WRAPPED m) n (WRAPPED_NEXT m).
Definition set_pending (m : t) p :=
  mk _ (INSTANCES m) p (WRAPPED m) (INSTANCE_NEXT m) (WRAPPED_NEXT m).
Definition set_wrapped (m : t) s n := mk _ (INSTANCES m) (PENDING m) s (INSTANCE_NEXT m) n.

(** [validate_config]: the status; the message goes to the caller's buffer. *)
Definition validate_config (config base : bytes) : Status.t :=
  match load_options fs_read config base with
  | Ok _ => Status.OK
  | Err Panic => panic_status
  | Err _ => Status.INVALID
  end.

(** [create] with an output pointer that may be null: the handle it stores. *)
Definition create (m : t) (config base : bytes) (output_null : bool)
    : t * option Z * Status.t :=
  match load_options fs_read config base with
  | Err Panic => (m, None, panic_status)
  | Err _ => (m, None, Status.INVALID)
  | Ok role =>
      if output_null then (m, None, Status.INVALID)
      else
        let '(handle, next) := fetch_add (INSTANCE_NEXT m) in
        if handle =? 0 then (set_instances m (INSTANCES m) next, None, Status.RESOURCE)
        else (set_instances m (<[handle := role]> (INSTANCES m)) next, Some handle, Status.OK)
  end.

Definition known (m : t) (instance : Z) : bool := is_some (INSTANCES m !! instance).

Definition poll (m : t) (instance : Z) : Status.t :=
  if known m instance then Status.PENDING else Status.INVALID.

Definition control (m : t) (instance : Z) (written_null : bool) : Status.t :=
  if written_null then Status.INVALID
  else if known m instance then Status.UNSUPPORTED else Status.INVALID.

Definition shutdown (m : t) (instance : Z) : Status.t :=
  if known m instance then Status.OK else Status.INVALID.

Definition destroy (m : t) (instance : Z) : t :=
  mk _ (delete instance (INSTANCES m))
    (filter (fun '(_, p) => PendingHandshake.owner p <> instance) (PENDING m))
    (filter (fun '(_, s) => Wrapped.owner s <> instance) (WRAPPED m))
    (INSTANCE_NEXT m) (WRAPPED_NEXT m).

(** The [None] arm of [wrap]: a new handshake, with the first message of a
    client. *)
Definition begin_handshake (m : t) (instance lower io : Z)
    : result Status.t PendingHandshake.t :=
  let handshake :=
    match INSTANCES m !! instance with
    | None => Err NoiseError.State
    | Some (RoleKey.Client key) => NoiseHandshake.client key
    | Some (RoleKey.Server key) => NoiseHandshake.server key
    end in
  match handshake with
  | Err _ => Err Status.INVALID
  | Ok h =>
      if NoiseHandshake.responder h then
        Ok (PendingHandshake.mk _ instance lower io (NoiseHandshake.state h) [] 0
              FrameReader.default true)
      else
        match NoiseHandshake.initial h with
        | (_, Err _) => Err Status.INTERNAL
        | (h, Ok frame) =>
            Ok (PendingHandshake.mk _ instance lower io (NoiseHandshake.state h) frame 0
                  FrameReader.default false)
        end
  end.

(** The end of [wrap]: drive the handshake and keep what comes of it. *)
Definition wrap_drive (m : t) (w : W) (instance lower io : Z) (p : PendingHandshake.t)
    : t * W * option Z * Status.t :=
  match PendingHandshake.drive table p w with
  | (_, w, Ok (Some transport)) =>
      let '(handle, next) := fetch_add (WRAPPED_NEXT m) in
      if handle =? 0 then (set_wrapped m (WRAPPED m) next, w, None, Status.RESOURCE)
      else
        (set_wrapped m (<[handle := Wrapped.fresh instance lower io transport]> (WRAPPED m)) next,
         w, Some handle, Status.OK)
  | (p, w, Ok None) => (set_pending m (<[lower := p]> (PENDING m)), w, None, Status.PENDING)
  | (_, w, Err _) => let '(w, _) := close_lower table w io lower in (m, w, None, Status.IO)
  end.

Definition wrap (m : t) (w : W) (instance lower io : Z) (output_null : bool)
    : t * W * option Z * Status.t :=
  if (lower =? 0) || negb (valid_io table size_of_byte_io io) || output_null
  then (m, w, None, Status.INVALID)
  else
    let pending := PENDING m !! lower in
    let m := set_pending m (delete lower (PENDING m)) in
    match pending with
    | Some p =>
        if (PendingHandshake.owner p =? instance) && (PendingHandshake.io p =? io)
        then wrap_drive m w instance lower io p
        else (m, w, None, Status.INVALID)
    | None =>
        match begin_handshake m instance lower io with
        | Err status => (m, w, None, status)
        | Ok p => wrap_drive m w instance lower io p
        end
    end.

(** The functions of [BYTE_IO]. *)
Definition put (m : t) (handle : Z) (s : Wrapped.t) : t :=
  set_wrapped m (<[handle := s]> (WRAPPED m)) (WRAPPED_NEXT m).

Definition read (m : t) (w : W) (handle : Z) (output_null : bool) (room : Z)
    : t * W * bytes * SnolIoResult.t :=
  if output_null && negb (room =? 0) then (m, w, [], SnolIoResult.error Status.INVALID)
  else match WRAPPED m !! handle with
  | None => (m, w, [], SnolIoResult.error Status.INVALID)
  | Some s =>
      let '(s, w, out, r) := Wrapped.read_state table s w room in (put m handle s, w, out, r)
  end.

Definition write (m : t) (w : W) (handle : Z) (input : result Status.t bytes)
    : t * W * SnolIoResult.t :=
  match input with
  | Err status => (m, w, SnolIoResult.error status)
  | Ok input =>
      match WRAPPED m !! handle with
      | None => (m, w, SnolIoResult.error Status.INVALID)
      | Some s =>
          let '(s, w, r) := Wrapped.write_state table s w input in (put m handle s, w, r)
      end
  end.

Definition flush (m : t) (w : W) (handle : Z) : t * W * SnolIoResult.t :=
  match WRAPPED m !! handle with
  | None => (m, w, SnolIoResult.error Status.INVALID)
  | Some s => let '(s, w, r) := Wrapped.flush_state table s w in (put m handle s, w, r)
  end.

Definition shutdown_write (m : t) (w : W) (handle : Z) : t * W * SnolIoResult.t :=
  match WRAPPED m !! handle with
  | None => (m, w, SnolIoResult.error Status.INVALID)
  | Some s => let '(s, w, r) := Wrapped.shutdown_state table s w in (put m handle s, w, r)
  end.

Definition close (m : t) (w : W) (handle : Z) : t * W * Status.t :=
  match WRAPPED m !! handle with
  | None => (m, w, Status.INVALID)
  | Some s =>
      let m := set_wrapped m (delete handle (WRAPPED m)) (WRAPPED_NEXT m) in
      let '(w, status) := close_lower table w (Wrapped.io s) (Wrapped.lower s) in
      (m, w, status)
  end.
End entry.
End Noise.
