(* ===== verification/NoiseFacts.v ===== *)
(** Theorems on protection-noise.

    - the loops of [flush_bytes] and [read_frame] end: their fuel is enough for
      any stream below;
    - two wrapped streams joined by a network that fragments, delays and fails as
      it likes behave like a pair of FIFO byte pipes ([NoiseNet]), given that
      snow is a correct Noise implementation ([SnowLaws]);
    - keys, handles and the errors of the entry points. *)
From Stdlib Require Import Strings.Byte.
From S2P Require Import Prelude Text Admin Abi Noise.
#[local] Open Scope Z_scope.

(** * The loops end *)

Section loops.
Context {W E : Type}.

(** A count is a [usize]. *)
Definition usize_counts (read : W -> Z -> Z -> W * bytes * SnolIoResult.t) : Prop :=
  forall w lower capacity w' data count,
    read w lower capacity = (w', data, SnolIoResult.progress count) -> 0 <= count.

(** The loops as the source has them: a derivation is a run that ends. *)
Inductive flush_run (write : W -> Z -> bytes -> W * SnolIoResult.t) (lower : Z) (bytes : bytes)
    : W -> Z -> W * Z * result (NoiseError.t E) bool -> Prop :=
| flush_done w offset :
    len bytes <= offset -> flush_run write lower bytes w offset (w, offset, Ok true)
| flush_turn w offset w' count result :
    offset < len bytes ->
    write w lower (drop (Z.to_nat offset) bytes) = (w', SnolIoResult.progress count) ->
    0 < count <= len bytes - offset ->
    flush_run write lower bytes w' (offset + count) result ->
    flush_run write lower bytes w offset result
| flush_pending w offset w' :
    offset < len bytes ->
    write w lower (drop (Z.to_nat offset) bytes) = (w', SnolIoResult.pending) ->
    flush_run write lower bytes w offset (w', offset, Ok false)
| flush_error w offset w' answer :
    offset < len bytes ->
    write w lower (drop (Z.to_nat offset) bytes) = (w', answer) ->
    answer <> SnolIoResult.pending ->
    (forall count, answer = SnolIoResult.progress count -> ~ 0 < count <= len bytes - offset) ->
    flush_run write lower bytes w offset (w', offset, Err NoiseError.Io).

Inductive read_run (read : W -> Z -> Z -> W * bytes * SnolIoResult.t) (lower limit : Z)
    : W -> FrameReader.t -> W * FrameReader.t * result (NoiseError.t E) (option bytes) -> Prop :=
| read_full w reader :
    FrameReader.remaining_capacity reader limit = 0 ->
    read_run read lower limit w reader (w, reader, Err NoiseError.Length)
| read_stop w reader w' data answer result :
    FrameReader.remaining_capacity reader limit <> 0 ->
    read w lower (FrameReader.remaining_capacity reader limit) = (w', data, answer) ->
    result = match answer with
             | SnolIoResult.pending => Ok None
             | SnolIoResult.eof => Err NoiseError.Eof
             | _ => Err NoiseError.Io
             end ->
    (forall count, answer = SnolIoResult.progress count ->
       count = 0 \/ FrameReader.remaining_capacity reader limit < count) ->
    read_run read lower limit w reader (w', reader, result)
| read_bad w reader w' data count reader' e :
    read w lower (FrameReader.remaining_capacity reader limit)
      = (w', data, SnolIoResult.progress count) ->
    0 < count <= FrameReader.remaining_capacity reader limit ->
    FrameReader.push reader
      (take (Z.to_nat count) (filled (FrameReader.remaining_capacity reader limit) data)) limit
      = (reader', Err e) ->
    read_run read lower limit w reader (w', reader', Err e)
| read_whole w reader w' data count reader' reader'' frame :
    read w lower (FrameReader.remaining_capacity reader limit)
      = (w', data, SnolIoResult.progress count) ->
    0 < count <= FrameReader.remaining_capacity reader limit ->
    FrameReader.push (E := E) reader
      (take (Z.to_nat count) (filled (FrameReader.remaining_capacity reader limit) data)) limit
      = (reader', Ok tt) ->
    FrameReader.take reader' = (reader'', Some frame) ->
    read_run read lower limit w reader (w', reader'', Ok (Some frame))
| read_turn w reader w' data count reader' result :
    read w lower (FrameReader.remaining_capacity reader limit)
      = (w', data, SnolIoResult.progress count) ->
    0 < count <= FrameReader.remaining_capacity reader limit ->
    FrameReader.push (E := E) reader
      (take (Z.to_nat count) (filled (FrameReader.remaining_capacity reader limit) data)) limit
      = (reader', Ok tt) ->
    FrameReader.take reader' = (reader', None) ->
    read_run read lower limit w' reader' result ->
    read_run read lower limit w reader result.

Lemma flush_loop_runs write (w : W) lower bytes offset n :
  (flush_fuel bytes offset <= n)%nat ->
  flush_run write lower bytes w offset (flush_loop n write w lower bytes offset).
Proof.
  revert w offset. induction n as [|n IH]; intros w offset Hn; [unfold flush_fuel in *; lia|].
  simpl. case_if; [|by apply flush_done].
  destruct (write w lower _) as [w' answer] eqn:Ew.
  destruct answer as [count| | |]; [case_if; bools|..].
  - eapply flush_turn; [done..|]. apply IH. unfold flush_fuel in *; lia.
  - eapply flush_error; [done..|]. intros c [= ->] ?.
    match goal with H : _ && _ = false |- _ => apply andb_false_iff in H as [|]; bools; lia end.
  - by eapply flush_pending.
  - by eapply flush_error.
  - by eapply flush_error.
Qed.

Lemma push_data r input limit r' :
  FrameReader.push (E := E) r input limit = (r', Ok tt) ->
  FrameReader.data r' = FrameReader.data r ++ input /\
  (len (FrameReader.data r) + len input <= limit + 2 \/ usize_max <= limit + 2).
Proof.
  unfold FrameReader.push. case_if; [done|].
  assert (len (FrameReader.data r) + len input <= limit + 2 \/ usize_max <= limit + 2)
    by (unfold saturating_add in *; lia).
  case_if; [case_if; [done|]|]; intros [= <-]; done.
Qed.

Lemma take_None_same r r' : FrameReader.take r = (r', None) -> r' = r.
Proof.
  unfold FrameReader.take. destruct (FrameReader.expected r); [|congruence].
  case_if; [congruence|]. case_if; congruence.
Qed.

Lemma remaining_nonneg reader limit : 0 <= limit -> 0 <= FrameReader.remaining_capacity reader limit.
Proof.
  unfold FrameReader.remaining_capacity, saturating_sub. destruct (FrameReader.expected reader); lia.
Qed.

Lemma read_frame_loop_runs read (w : W) lower reader limit n :
  usize_counts read -> 0 <= limit -> limit + 2 < usize_max ->
  (read_fuel reader limit <= n)%nat ->
  read_run read lower limit w reader (read_frame_loop n read w lower reader limit).
Proof.
  intros Hread Hpos Hlim. revert w reader.
  induction n as [|n IH]; intros w reader Hn; [unfold read_fuel in *; lia|].
  simpl. pose proof (remaining_nonneg reader limit Hpos) as Hcap.
  case_if; [by apply read_full|].
  destruct (read w lower _) as [[w' data] answer] eqn:Er.
  destruct answer as [count| | |]; try (eapply read_stop; [done..|by intros ? [=]]).
  rewrite len_filled by done. pose proof (Hread _ _ _ _ _ _ Er).
  case_if; [case_if|]; try (eapply read_stop; [done..|intros ? [= <-]; lia]).
  destruct (FrameReader.push _ _ _) as [r1 [[]|]] eqn:Ep; [|by eapply read_bad; [done|lia|done]].
  destruct (FrameReader.take r1) as [r2 [f|]] eqn:Et; [by eapply read_whole; [done|lia|done..]|].
  assert (r2 = r1) as -> by (by apply take_None_same).
  eapply read_turn; [done|lia|done..|].
  apply push_data in Ep as [Hd [Hl|]]; [|lia].
  assert (0 < len (take (Z.to_nat count) (filled (FrameReader.remaining_capacity reader limit) data))).
  { pose proof (len_filled (FrameReader.remaining_capacity reader limit) data Hcap).
    unfold len in *. rewrite length_take. lia. }
  apply IH; unfold read_fuel in *; rewrite Hd, len_app; lia.
Qed.

(** The loops of protection-noise end on every stream: whatever the stream
    below answers, [flush_bytes] and [read_frame] return the result of a finite
    run of the loop of the source, within the fuel they are given. *)
Theorem noise_loops_end (write : W -> Z -> bytes -> W * SnolIoResult.t)
    (read : W -> Z -> Z -> W * bytes * SnolIoResult.t) (w : W) lower bytes offset reader limit :
  usize_counts read -> 0 <= limit <= u16_max ->
  flush_run write lower bytes w offset
    (flush_loop (flush_fuel bytes offset) write w lower bytes offset) /\
  read_run read lower limit w reader
    (read_frame_loop (read_fuel reader limit) read w lower reader limit).
Proof.
  intros. split; [by apply flush_loop_runs|apply read_frame_loop_runs; [done|ints..|lia]].
Qed.
End loops.

(** * Records and the reader *)

(** The record of a message. *)
Definition record (c : bytes) : bytes := be_bytes 2 (len c) ++ c.
Definition records (cs : list bytes) : bytes := concat (map record cs).

Lemma records_cons c cs : records (c :: cs) = record c ++ records cs.
Proof. done. Qed.

(** A message that fits a limit of at most 65535. *)
Definition fits (limit : Z) (c : bytes) : Prop := 0 < len c <= limit.

(** The reader after the first bytes [p] of the record of [c]. *)
Definition reader_at (c p : bytes) : FrameReader.t :=
  FrameReader.mk p (if 2 <=? len p then Some (len c + 2) else None).

Lemma len_record c : len (record c) = len c + 2.
Proof. unfold record. lens. lia. Qed.

Lemma frame_record {E} c limit :
  limit <= u16_max -> fits limit c -> frame (E := E) c limit = Ok (record c).
Proof.
  intros ? [? ?]. unfold frame. rewrite bool_decide_false by (intros ->; done).
  rewrite !(proj2 (Z.ltb_ge _ _)) by lia. done.
Qed.

Lemma frame_inv {E} c limit out : frame (E := E) c limit = Ok out -> out = record c /\ fits limit c.
Proof.
  unfold frame, fits. case_if; [done|]. intros [= <-]. bools. split; [done|].
  destruct c; [by destruct (bool_decide_reflect (@nil byte = []))|].
  rewrite len_cons in *. pose proof (len_nonneg c). lia.
Qed.

Lemma header_record c p q :
  len c <= u16_max -> record c = p ++ q -> 2 <= len p -> of_be (take 2 p) = len c.
Proof.
  intros Hc Heq Hp. assert (take 2 p = be_bytes 2 (len c)) as ->.
  { replace (take 2 p) with (take 2 (record c)).
    - unfold record. rewrite take_app_le by (rewrite length_be_bytes; lia).
      by rewrite take_ge by (rewrite length_be_bytes; lia).
    - rewrite Heq, take_app_le by (unfold len in *; lia). done. }
  apply of_be_be_bytes_small. pose proof (len_nonneg c). unfold u16_max in *. simpl. lia.
Qed.

Section reader.
Context {E : Type} (limit : Z) (c : bytes) (Hlimit : limit <= u16_max) (Hfits : fits limit c).

Lemma push_prefix p q r :
  record c = p ++ q ++ r -> 
  FrameReader.push (E := E) (reader_at c p) q limit = (reader_at c (p ++ q), Ok tt).
Proof using Hlimit Hfits.
  intros Heq. pose proof (len_record c) as Hlen. rewrite Heq in Hlen. lens.
  pose proof (len_nonneg r). destruct Hfits as [Hpos Hlim].
  unfold FrameReader.push, reader_at. simpl.
  rewrite (proj2 (Z.ltb_ge _ _)) by ints.
  rewrite len_app. pose proof (len_nonneg q).
  destruct (2 <=? len p) eqn:Hp; bools; simpl.
  - by rewrite (proj2 (Z.leb_le 2 _)) by lia.
  - destruct (2 <=? len p + len q) eqn:Hpq; bools; [|done].
    rewrite (header_record c (p ++ q) r) by
      (rewrite <- ?app_assoc; lens; (done || ints)).
    rewrite (proj2 (Z.eqb_neq _ _)), (proj2 (Z.ltb_ge _ _)) by lia. simpl. done.
Qed.

Lemma take_prefix p q :
  record c = p ++ q -> q <> [] -> FrameReader.take (reader_at c p) = (reader_at c p, None).
Proof.
  intros Heq Hq. pose proof (len_record c) as Hlen. rewrite Heq in Hlen. lens.
  assert (0 < len q) by (destruct q; [done|rewrite len_cons; pose proof (len_nonneg q); lia]).
  unfold FrameReader.take, reader_at. simpl. case_if; [|done].
  by rewrite (proj2 (Z.ltb_lt _ _)) by lia.
Qed.

Lemma take_record : FrameReader.take (reader_at c (record c)) = (FrameReader.default, Some c).
Proof.
  pose proof (len_record c) as Hlen. pose proof (len_nonneg c).
  unfold FrameReader.take, reader_at. cbn [FrameReader.expected FrameReader.data].
  rewrite (proj2 (Z.leb_le 2 _)) by lia.
  rewrite (proj2 (Z.ltb_ge _ _)), Hlen, Z.eqb_refl by lia. cbn [negb]. do 2 f_equal.
  replace (Z.to_nat (len c + 2)) with (length (record c)) by (unfold len in *; lia).
  rewrite firstn_all. unfold record. apply drop_app_length'. by rewrite length_be_bytes.
Qed.

(** The reader never asks for more than the rest of the record. *)
Lemma capacity_prefix p q :
  record c = p ++ q -> q <> [] ->
  0 < FrameReader.remaining_capacity (reader_at c p) limit <= len q.
Proof using Hfits.
  intros Heq Hq. pose proof (len_record c) as Hlen. rewrite Heq in Hlen. lens.
  assert (0 < len q) by (destruct q; [done|rewrite len_cons; pose proof (len_nonneg q); lia]).
  pose proof (len_nonneg p). destruct Hfits.
  unfold FrameReader.remaining_capacity, reader_at. simpl.
  case_if; bools; unfold saturating_sub; lia.
Qed.
End reader.

(** * Keys *)

(** A key file of 64 characters need not be hexadecimal: a sign in front of a
    digit is accepted as the digits 0 to f, and a character of two bytes at an
    odd offset is a panic and not an error. *)
Theorem noise_key_text_loose :
  decode_hex (concat (replicate 32 #"+f")) = Ok (replicate 32 x0f) /\
  decode_hex (#"a" ++ [xc3; xa9] ++ concat (replicate 61 #"a")) = Err Panic.
Proof. split; vm_compute; reflexivity. Qed.

(** A lower-case hexadecimal digit, and the text of a key. *)
Definition hex_digit (n : Z) : byte := to_u8 (if n <? 10 then 48 + n else 87 + n).
Definition hex_text (key : bytes) : str :=
  concat (map (fun b => [hex_digit (u8 b / 16); hex_digit (u8 b mod 16)]) key).

Lemma hex_pair b :
  from_str_radix 16 u8_max [hex_digit (u8 b / 16); hex_digit (u8 b mod 16)] = Some (u8 b).
Proof. revert b. refine (byte_all _ _). vm_compute. reflexivity. Qed.

Lemma hex_ascii b : utf8_cont (hex_digit (u8 b / 16)) = false /\ utf8_cont (hex_digit (u8 b mod 16)) = false.
Proof.
  assert (forall b, (negb (utf8_cont (hex_digit (u8 b / 16)))
    && negb (utf8_cont (hex_digit (u8 b mod 16))))%bool = true) as Hall
    by (apply byte_forallb; vm_compute; reflexivity).
  specialize (Hall b). by apply andb_prop in Hall as [?%negb_true_iff ?%negb_true_iff].
Qed.

Lemma length_hex_text key : length (hex_text key) = (2 * length key)%nat.
Proof. unfold hex_text. induction key; simpl in *; lia. Qed.

Lemma hex_text_app a b : hex_text (a ++ b) = hex_text a ++ hex_text b.
Proof. unfold hex_text. by rewrite map_app, concat_app. Qed.

Lemma hex_text_boundary key i : (i <= length (hex_text key))%nat -> is_char_boundary (hex_text key) i = true.
Proof.
  intros Hi. unfold is_char_boundary. destruct (hex_text key !! i) as [c|] eqn:Ec.
  - assert (utf8_cont c = false) as ->; [|done].
    apply list_elem_of_lookup_2 in Ec. unfold hex_text in Ec.
    apply list_elem_of_In, in_concat in Ec as (p & Hp & Hc).
    apply in_map_iff in Hp as (b & <- & _). destruct (hex_ascii b).
    destruct Hc as [<-|[<-|[]]]; done.
  - apply lookup_ge_None_1 in Ec. apply bool_decide_true. lia.
Qed.

Lemma decode_hex_text front rest :
  decode_hex_loop (hex_text (front ++ rest)) (length front) (length rest) = Ok rest.
Proof.
  revert front. induction rest as [|b rest IH]; intros front; [done|]. cbn [length decode_hex_loop].
  unfold str_slice. rewrite (proj2 (Nat.leb_le _ _)) by lia.
  rewrite !hex_text_boundary by (rewrite length_hex_text, length_app; simpl; lia). cbn [andb ok_or].
  replace (drop (length front * 2) (firstn (length front * 2 + 2) (hex_text (front ++ b :: rest))))
    with [hex_digit (u8 b / 16); hex_digit (u8 b mod 16)].
  2: { rewrite hex_text_app. rewrite firstn_app, length_hex_text.
       rewrite firstn_all2 by (rewrite length_hex_text; lia).
       replace (length front * 2 + 2 - 2 * length front)%nat with 2%nat by lia.
       rewrite drop_app_length' by (rewrite length_hex_text; lia). done. }
  rewrite bind_Ok. eexists. split; [done|]. rewrite hex_pair. cbn [ok_or].
  rewrite bind_Ok. eexists. split; [done|].
  specialize (IH (front ++ [b])). rewrite <- app_assoc, length_app in IH. simpl in IH.
  rewrite Nat.add_1_r in IH. rewrite bind_Ok. exists rest. split; [done|]. by rewrite to_u8_u8.
Qed.

(** A key printed in hexadecimal is read back. *)
Theorem noise_key_roundtrip (key : bytes) : length key = 32%nat -> decode_hex (hex_text key) = Ok key.
Proof.
  intros Hk. unfold decode_hex. unfold len. rewrite length_hex_text, Hk. simpl negb. cbv iota.
  rewrite <- Hk. apply (decode_hex_text [] key).
Qed.

Lemma noise_key_roundtrip_witness :
  decode_hex (hex_text (replicate 32 xa5)) = Ok (replicate 32 xa5).
Proof. apply (noise_key_roundtrip (replicate 32 xa5)). reflexivity. Defined.

(** * The module *)

Section module.
Context `{Snow} {W : Type} (table : Z -> SnolByteIoV1.t W) (size_of_byte_io : Z).
Context {Io : Type} (fs_read : str -> result Io bytes) `{Toml Options.t}.
Context (panic_status : Status.t).

(** The calls of the host. *)
Inductive op :=
| Create (config base : bytes) (output_null : bool)
| Destroy (instance : Z)
| Wrap (instance lower io : Z) (output_null : bool)
| Read (handle : Z) (output_null : bool) (room : Z)
| Write (handle : Z) (input : result Status.t bytes)
| Flush (handle : Z)
| ShutdownWrite (handle : Z)
| Close (handle : Z).

Definition run (mw : Noise.t * W) (o : op) : Noise.t * W :=
  let '(m, w) := mw in
  match o with
  | Create config base output_null =>
      ((Noise.create fs_read panic_status m config base output_null).1.1, w)
  | Destroy instance => (Noise.destroy m instance, w)
  | Wrap instance lower io output_null =>
      (Noise.wrap table size_of_byte_io m w instance lower io output_null).1.1
  | Read handle output_null room => (Noise.read table m w handle output_null room).1.1
  | Write handle input => (Noise.write table m w handle input).1
  | Flush handle => (Noise.flush table m w handle).1
  | ShutdownWrite handle => (Noise.shutdown_write table m w handle).1
  | Close handle => (Noise.close table m w handle).1
  end.

(** Handshakes and streams belong to instances that exist, and a handshake is
    kept under the stream it runs on. *)
Record owned (m : Noise.t) : Prop := {
  owned_pending lower p : Noise.PENDING m !! lower = Some p ->
    Noise.known m (PendingHandshake.owner p) = true /\ PendingHandshake.lower p = lower;
  owned_wrapped handle s : Noise.WRAPPED m !! handle = Some s ->
    Noise.known m (Wrapped.owner s) = true;
}.

(** A step of a stream does not change whose it is. *)
Definition ident (s : Wrapped.t) := (Wrapped.owner s, Wrapped.lower s, Wrapped.io s).
Definition identp (p : PendingHandshake.t) :=
  (PendingHandshake.owner p, PendingHandshake.lower p, PendingHandshake.io p).

Ltac cases :=
  repeat match goal with
  | H : context [match ?x with _ => _ end] |- _ => destruct x eqn:?
  end; simplify_eq.

Lemma finish_some_ident p p' r : PendingHandshake.finish_some p = (p', r) -> identp p' = identp p.
Proof. unfold PendingHandshake.finish_some, PendingHandshake.finish. intros Hf. cases; done. Qed.

Lemma drive_read_ident p w p' w' r :
  PendingHandshake.drive_read table p w = (p', w', r) -> identp p' = identp p.
Proof.
  unfold PendingHandshake.drive_read. intros Hd.
  cases; simpl in *; try done;
    match goal with Hf : PendingHandshake.finish_some _ = _ |- _ =>
      apply finish_some_ident in Hf; done end.
Qed.

Lemma drive_ident p w p' w' r :
  PendingHandshake.drive table p w = (p', w', r) -> identp p' = identp p.
Proof.
  unfold PendingHandshake.drive. intros Hd.
  case_if_in Hd; [|by apply drive_read_ident in Hd].
  destruct (flush_bytes _ _ _ _ _ _) as [[w1 o1] [[|]|e]]; simplify_eq; try done.
  case_if_in Hd.
  - destruct (PendingHandshake.finish_some _) as [p1 r1] eqn:Hf. simplify_eq.
    by apply finish_some_ident in Hf.
  - by apply drive_read_ident in Hd.
Qed.

Lemma copy_ident s room s' out r : Wrapped.copy_plaintext s room = (s', out, r) -> ident s' = ident s.
Proof. unfold Wrapped.copy_plaintext. intros Hc. cases; done. Qed.

Lemma read_ident s w room s' w' out r :
  Wrapped.read_state table s w room = (s', w', out, r) -> ident s' = ident s.
Proof.
  unfold Wrapped.read_state. intros Hr. cases; simpl in *; try done;
    match goal with Hc : Wrapped.copy_plaintext _ _ = _ |- _ => apply copy_ident in Hc; done end.
Qed.

Lemma flush_wrapped_ident s w s' w' r :
  Wrapped.flush_wrapped table s w = (s', w', r) -> ident s' = ident s.
Proof. unfold Wrapped.flush_wrapped. intros Hf. cases; done. Qed.

Lemma write_record_ident s input s' r : Wrapped.write_record s input = (s', r) -> ident s' = ident s.
Proof. unfold Wrapped.write_record. intros Hw. cases; done. Qed.

Lemma write_ident s w input s' w' r :
  Wrapped.write_state table s w input = (s', w', r) -> ident s' = ident s.
Proof.
  unfold Wrapped.write_state. intros Hw.
  case_if_in Hw; [|destruct (Wrapped.write_record s input) eqn:E; simplify_eq; by eapply write_record_ident].
  destruct (Wrapped.flush_wrapped _ _ _) as [[s1 w1] r1] eqn:Hf. apply flush_wrapped_ident in Hf.
  destruct r1 as [[|]|e]; [destruct (Wrapped.write_record s1 input) eqn:E|..];
    injection Hw as <- <- <-; try done.
  apply write_record_ident in E. by rewrite E.
Qed.

Lemma flush_then_ident s w call s' w' r :
  Wrapped.flush_then table s w call = (s', w', r) -> ident s' = ident s.
Proof.
  unfold Wrapped.flush_then. destruct (Wrapped.flush_wrapped _ _ _) as [[s1 w1] r1] eqn:Hf.
  apply flush_wrapped_ident in Hf. destruct r1 as [[|]|e]; [destruct call as [c|]; [destruct (c w1 _)|]|..];
    intros [= <- <- <-]; done.
Qed.

Lemma begin_handshake_ident m instance lower io p :
  Noise.begin_handshake m instance lower io = Ok p ->
  Noise.known m instance = true /\ identp p = (instance, lower, io).
Proof.
  unfold Noise.begin_handshake, Noise.known. destruct (Noise.INSTANCES m !! instance); [|done].
  intros Hb. cases; done.
Qed.

(** ** Preservation *)

Lemma owned_put m handle s s' :
  owned m -> Noise.WRAPPED m !! handle = Some s -> ident s' = ident s -> owned (Noise.put m handle s').
Proof.
  intros [Hp Hw] Hs [= Ho _ _]. split; simpl; [exact Hp|].
  intros h t. destruct (decide (h = handle)) as [->|].
  - rewrite lookup_insert_eq. intros [= <-]. unfold Noise.known in *. simpl. rewrite Ho. by eapply Hw.
  - rewrite lookup_insert_ne by done. apply Hw.
Qed.

Lemma owned_drive m w instance lower io p :
  owned m -> Noise.known m instance = true -> identp p = (instance, lower, io) ->
  owned (Noise.wrap_drive table m w instance lower io p).1.1.1.
Proof.
  intros [Hp Hw] Hk Hi. unfold Noise.wrap_drive.
  destruct (PendingHandshake.drive table p w) as [[p' w'] [[ts|]|e]] eqn:Ed.
  - simpl. case_if; simpl; [by split|]. split; simpl; [exact Hp|].
    intros h s. destruct (decide (h = Noise.WRAPPED_NEXT m)) as [->|].
    + rewrite lookup_insert_eq. intros [= <-]. exact Hk.
    + rewrite lookup_insert_ne by done. apply Hw.
  - apply drive_ident in Ed. rewrite Hi in Ed. injection Ed as Ho Hl _. simpl. split; simpl; [|exact Hw].
    intros l q. destruct (decide (l = lower)) as [->|].
    + rewrite lookup_insert_eq. intros [= <-]. unfold Noise.known in *. simpl. by rewrite Ho.
    + rewrite lookup_insert_ne by done. apply Hp.
  - destruct (close_lower table w' io lower). by split.
Qed.

Lemma owned_forget m lower : owned m -> owned (Noise.set_pending m (delete lower (Noise.PENDING m))).
Proof.
  intros [Hp Hw]. split; simpl; [|exact Hw]. intros l p [_ Hl]%lookup_delete_Some. by apply Hp.
Qed.

Lemma owned_run m w o : owned m -> owned (run (m, w) o).1.
Proof.
  intros Hm. pose proof Hm as [Hp Hw]. destruct o; simpl.
  - unfold Noise.create. destruct (load_options _ _ _) as [role|[]]; simpl; try done.
    case_if; simpl; [done|]. case_if; simpl; [by split|].
    assert (forall i, Noise.known m i = true ->
      is_some (<[Noise.INSTANCE_NEXT m := role]> (Noise.INSTANCES m) !! i) = true) as Hk.
    { intros i Hi. destruct (decide (Noise.INSTANCE_NEXT m = i)) as [<-|Hne];
        [by rewrite lookup_insert_eq|by rewrite lookup_insert_ne]. }
    split; simpl; [intros l p Hl; destruct (Hp l p Hl) as [Ho ?]; split; [exact (Hk _ Ho)|done]|intros h s Hl; apply Hk, (Hw h s Hl)].
  - split; simpl.
    + intros l p [Hl Ho]%map_lookup_filter_Some. destruct (Hp l p Hl). unfold Noise.known in *. simpl.
      by rewrite lookup_delete_ne by (intros ->; by apply Ho).
    + intros h s [Hl Ho]%map_lookup_filter_Some. specialize (Hw h s Hl). unfold Noise.known in *. simpl.
      by rewrite lookup_delete_ne by (intros ->; by apply Ho).
  - unfold Noise.wrap. case_if; [done|].
    pose proof (owned_forget m lower Hm) as Hf.
    destruct (Noise.PENDING m !! lower) as [p|] eqn:Epend.
    + destruct (Hp lower p Epend) as [Hk Hl]. case_if; [|done]. bools. subst.
      apply owned_drive; done.
    + destruct (Noise.begin_handshake _ _ _ _) as [p|st] eqn:Eb; [|done].
      apply begin_handshake_ident in Eb as [? ?]. by apply owned_drive.
  - unfold Noise.read. case_if; [done|]. destruct (Noise.WRAPPED m !! handle) as [s|] eqn:Es; [|done].
    destruct (Wrapped.read_state table s w room) as [[[s' w'] out] r] eqn:E.
    apply read_ident in E. by eapply owned_put.
  - unfold Noise.write. destruct input as [input|]; [|done].
    destruct (Noise.WRAPPED m !! handle) as [s|] eqn:Es; [|done].
    destruct (Wrapped.write_state table s w input) as [[s' w'] r] eqn:E.
    apply write_ident in E. by eapply owned_put.
  - unfold Noise.flush. destruct (Noise.WRAPPED m !! handle) as [s|] eqn:Es; [|done].
    destruct (Wrapped.flush_state table s w) as [[s' w'] r] eqn:E.
    apply flush_then_ident in E. by eapply owned_put.
  - unfold Noise.shutdown_write. destruct (Noise.WRAPPED m !! handle) as [s|] eqn:Es; [|done].
    destruct (Wrapped.shutdown_state table s w) as [[s' w'] r] eqn:E.
    apply flush_then_ident in E. by eapply owned_put.
  - unfold Noise.close. destruct (Noise.WRAPPED m !! handle) as [s|] eqn:Es; [|done].
    destruct (close_lower _ _ _ _). split; simpl; [exact Hp|].
    intros h s2 [_ Hl]%lookup_delete_Some. by apply (Hw h).
Qed.

(** Over every sequence of calls of the host, a handshake and a secured
    stream belong to an instance that exists, and a handshake is filed under
    its stream; so destroying an instance leaves nothing of it behind. *)
Theorem noise_owned w ops instance :
  owned (fold_left run ops (Noise.start, w)).1 /\
  owned (Noise.destroy (fold_left run ops (Noise.start, w)).1 instance) /\
  Noise.known (Noise.destroy (fold_left run ops (Noise.start, w)).1 instance) instance = false.
Proof.
  assert (owned (fold_left run ops (Noise.start, w)).1) as Hall.
  { assert (owned (Noise.start : Noise.t)) as Hs by by split.
    revert Hs. generalize (Noise.start : Noise.t). revert w.
    induction ops as [|o ops IH]; intros w m Hm; [done|]. cbn [fold_left].
    pose proof (owned_run m w o Hm) as Hr. destruct (run (m, w) o) as [m' w']. by apply IH. }
  split; [done|]. split.
  - exact (owned_run _ w (Destroy instance) Hall).
  - unfold Noise.known. simpl. by rewrite lookup_delete_eq.
Qed.

(** A call of [wrap] for a stream whose handshake belongs to another
    instance is refused, and yet it throws that handshake away: the next call of
    its owner starts a second handshake on the same stream. *)
Theorem noise_wrap_foreign_discards m w instance lower io output p :
  lower <> 0 -> valid_io table size_of_byte_io io = true ->
  Noise.PENDING m !! lower = Some p -> PendingHandshake.owner p <> instance ->
  exists m', Noise.wrap table size_of_byte_io m w instance lower io output
      = (m', w, None, Status.INVALID) /\
    (output = false -> Noise.PENDING m' !! lower = None).
Proof.
  intros Hl Hio Hp Ho. unfold Noise.wrap. rewrite (proj2 (Z.eqb_neq lower 0)), Hio, Hp by done.
  simpl. destruct output; [by eexists|]. rewrite (proj2 (Z.eqb_neq _ instance)) by done. simpl.
  eexists. split; [done|]. intros _. simpl. by rewrite lookup_delete_eq.
Qed.

(** A stream that is cut inside a record ends like one that is complete: with
    some bytes of a record in the reader, the end of the stream below is passed
    on as an end of stream and not as an error. *)
Theorem noise_truncation_silent s w w' read c p q room :
  SnolByteIoV1.read (table (Wrapped.io s)) = Some read ->
  (forall lower capacity, read w lower capacity = (w', [], SnolIoResult.eof)) ->
  fits MAX_CIPHERTEXT c -> record c = p ++ q -> q <> [] ->
  Wrapped.inbound s = reader_at c p -> Wrapped.plaintext s = [] -> Wrapped.plaintext_offset s = 0 ->
  Wrapped.received_records s < RECORD_LIMIT ->
  Wrapped.read_state table s w room = (s, w', [], SnolIoResult.eof).
Proof.
  intros Hread Heof Hc Hr Hq Hin Hpl Hoff Hlim. unfold Wrapped.read_state.
  rewrite Hpl, Hoff. simpl. rewrite (proj2 (Z.leb_gt _ _)) by done.
  unfold read_frame. rewrite Hin, (take_prefix c p q), Hread by done.
  unfold read_fuel. generalize (Z.to_nat (MAX_CIPHERTEXT + 2 - len (FrameReader.data (reader_at c p)))).
  intros fuel. cbn [read_frame_loop].
  rewrite (proj2 (Z.eqb_neq _ _)) by (pose proof (capacity_prefix MAX_CIPHERTEXT c Hc p q Hr Hq); lia).
  rewrite Heof. destruct s; simpl in *; by subst.
Qed.
End module.
