(* ===== verification/NoiseNet.v ===== *)
(** Two wrapped streams of protection-noise joined by a network.

    The network ([net]) has one FIFO wire for each direction and a schedule that
    decides, call by call, whether the stream below accepts or gives one byte or
    many, answers pending, or fails; the schedule is replaced at will between
    the calls.  Over it, what one side is given by [read] is a prefix of what the
    other side's [write] accepted, in both directions at once, whatever the
    schedule; and nothing is missing when a side reads the end of a stream that was
    shut down in order.  A direction can also be cut ([step_with]): then the bytes on
    the wire may be lost, what is read is still a prefix, and an end of the stream
    says nothing. *)
From Stdlib Require Import Strings.Byte.
From stdpp Require Import functions.
From S2P Require Import Prelude Text Admin Abi Noise NoiseFacts.
#[local] Open Scope Z_scope.

(** * What is assumed of snow

    A transport state has a sending and a receiving half, and a message that is
    written by one peer is read by the other as long as messages arrive in order
    (Noise specification, section 5.1 and 12): [session n x y] says that the
    sending half [x] and the receiving half [y] are [n] messages into their
    common sequence.  The nonce [2^64 - 1] is reserved, a message is at most
    65535 bytes, and the tag takes 16 of them. *)
Class SnowLaws `{Snow} := {
  Tx : Type;
  Rx : Type;
  tx : TransportState -> Tx;
  rx : TransportState -> Rx;
  session : Z -> Tx -> Rx -> Prop;
  session_message n x y p :
    session n x y -> 0 <= n < u64_max -> len p <= u16_max - 16 ->
    exists x' c y',
      len c = len p + 16 /\ session (n + 1) x' y' /\
      (forall a capacity, tx a = x -> len c <= capacity ->
         exists a', ts_write_message a p capacity = (a', Ok c) /\ tx a' = x' /\ rx a' = rx a) /\
      (forall b capacity, rx b = y -> len p <= capacity ->
         exists b', ts_read_message b c capacity = (b', Ok p) /\ rx b' = y' /\ tx b' = tx b);
}.

(** * The network *)

Record net := Net { wire : bool -> bytes; closed : bool -> bool; schedule : list Z }.

(** The handle 1 is the end of side [true], any other that of side [false]. *)
Definition side (lower : Z) : bool := lower =? 1.

Definition net_write (w : net) (lower : Z) (input : bytes) : net * SnolIoResult.t :=
  if bool_decide (input = []) then (w, SnolIoResult.progress 0)
  else match schedule w with
  | [] => (w, SnolIoResult.pending)
  | n :: rest =>
      let w := Net (wire w) (closed w) rest in
      if closed w (side lower) || (n <? 0) then (w, SnolIoResult.error Status.IO)
      else if n =? 0 then (w, SnolIoResult.pending)
      else
        let count := Z.min n (len input) in
        (Net (<[side lower := wire w (side lower) ++ take (Z.to_nat count) input]> (wire w))
           (closed w) rest,
         SnolIoResult.progress count)
  end.

Definition net_read (w : net) (lower capacity : Z) : net * bytes * SnolIoResult.t :=
  let from := negb (side lower) in
  match schedule w with
  | [] => (w, [], SnolIoResult.pending)
  | n :: rest =>
      let w := Net (wire w) (closed w) rest in
      if n <? 0 then (w, [], SnolIoResult.error Status.IO)
      else if n =? 0 then (w, [], SnolIoResult.pending)
      else if bool_decide (wire w from = []) then
        (w, [], if closed w from then SnolIoResult.eof else SnolIoResult.pending)
      else
        let count := Z.min n (Z.min capacity (len (wire w from))) in
        (Net (<[from := drop (Z.to_nat count) (wire w from)]> (wire w)) (closed w) rest,
         take (Z.to_nat count) (wire w from), SnolIoResult.progress count)
  end.

Definition net_shutdown (w : net) (lower : Z) : net * SnolIoResult.t :=
  (Net (wire w) (<[side lower := true]> (closed w)) (schedule w), SnolIoResult.progress 0).

Definition net_table (io : Z) : SnolByteIoV1.t net :=
  SnolByteIoV1.mk 48 0 (Some net_read) (Some net_write)
    (Some (fun w _ => (w, SnolIoResult.progress 0))) (Some net_shutdown)
    (Some (fun w _ => (w, Status.OK))).

Lemma net_read_counts : usize_counts (W := net) (fun w l c => net_read w l (Z.max 0 c)).
Proof.
  intros w lower capacity w' data count. unfold net_read.
  destruct (schedule w) as [|n rest]; [done|]. simpl.
  repeat case_if; try done. intros [= <- <- <-].
  pose proof (len_nonneg (wire w (negb (side lower)))). lia.
Qed.

Lemma len_pos {A} (l : list A) : l <> [] -> 0 < len l.
Proof. destruct l; [done|]. rewrite len_cons. pose proof (len_nonneg l). lia. Qed.

(** The network fails at some call of the schedule. *)
Definition troubled (w : net) : Prop := Exists (fun n => n < 0) (schedule w).

Lemma troubled_suffix w w' : schedule w' `suffix_of` schedule w -> troubled w' -> troubled w.
Proof. intros [l E] Ht. unfold troubled. rewrite E. apply Exists_app. by right. Qed.

(** Every call of the schedule moves something, and there are at least [k]. *)
Definition calm (k : Z) (w : net) : Prop := Forall (fun n => 0 < n) (schedule w) /\ k <= len (schedule w).

Section net_facts.
Context {E : Type}.

(** What a flush moves from the buffer it takes from its rest. *)
Lemma flush_net fuel w lower bytes offset w' offset' r :
  0 <= offset <= len bytes ->
  flush_loop (E := E) fuel net_write w lower bytes offset = (w', offset', r) ->
  0 <= offset' <= len bytes /\ closed w' = closed w /\
  wire w' (side lower) ++ drop (Z.to_nat offset') bytes
    = wire w (side lower) ++ drop (Z.to_nat offset) bytes /\
  wire w' (negb (side lower)) = wire w (negb (side lower)) /\
  (r = Ok true -> offset' = len bytes).
Proof.
  revert w offset. induction fuel as [|fuel IH]; intros w offset Ho; simpl; [by intros [= <- <- <-]|].
  case_if; [|intros [= <- <- <-]; split_and!; done || (intros; lia)].
  unfold net_write at 1. case_if; [by intros [= <- <- <-]|].
  destruct (schedule w) as [|n rest]; simpl; [by intros [= <- <- <-]|].
  repeat (case_if; [by intros [= <- <- <-]|]).
  set (count := Z.min n (len (drop (Z.to_nat offset) bytes))).
  assert (len (drop (Z.to_nat offset) bytes) = len bytes - offset) as Hd
    by (unfold len in *; rewrite length_drop; lia).
  assert (0 < count <= len bytes - offset) by (bools; lia).
  rewrite (proj2 (Z.ltb_lt 0 count)), (proj2 (Z.leb_le count _)) by lia. simpl.
  intros Hloop. apply IH in Hloop as (? & ? & Hw & Hn & ?); [|lia].
  simpl in *. rewrite fn_lookup_insert in Hw. rewrite fn_lookup_insert_ne in Hn by (destruct (side lower); done).
  split_and!; try done; try lia. rewrite Hw, <- app_assoc. f_equal.
  rewrite <- (take_drop (Z.to_nat count) (drop (Z.to_nat offset) bytes)) at 2.
  f_equal. rewrite drop_drop. f_equal. lia.
Qed.

Lemma flush_bytes_net w io lower bytes offset w' offset' r :
  0 <= offset <= len bytes ->
  flush_bytes (E := E) net_table w io lower bytes offset = (w', offset', r) ->
  0 <= offset' <= len bytes /\ closed w' = closed w /\
  wire w' (side lower) ++ drop (Z.to_nat offset') bytes
    = wire w (side lower) ++ drop (Z.to_nat offset) bytes /\
  wire w' (negb (side lower)) = wire w (negb (side lower)) /\
  (r = Ok true -> offset' = len bytes).
Proof. apply flush_net. Qed.

(** A flush fails only if the network fails or the direction was shut down. *)
Lemma flush_bytes_error w io lower bytes offset w' offset' r :
  0 <= offset <= len bytes ->
  flush_bytes (E := E) net_table w io lower bytes offset = (w', offset', r) ->
  schedule w' `suffix_of` schedule w /\
  forall e, r = Err e -> e = NoiseError.Io /\ (closed w (side lower) = true \/ troubled w).
Proof.
  unfold flush_bytes. simpl SnolByteIoV1.write. cbv iota.
  assert (len bytes - offset < Z.of_nat (flush_fuel bytes offset)) as Hf by (unfold flush_fuel; lia).
  revert Hf. generalize (flush_fuel bytes offset). intros fuel.
  revert w offset. induction fuel as [|fuel IH]; intros w offset Hf Ho; simpl; [lia|].
  case_if; [|by intros [= <- <- <-]].
  assert (len (drop (Z.to_nat offset) bytes) = len bytes - offset) as Hd
    by (unfold len in *; rewrite length_drop; lia).
  unfold net_write at 1. rewrite bool_decide_false by (intros Hn; rewrite Hn in Hd; change (len []) with 0 in Hd; lia).
  destruct (schedule w) as [|n rest] eqn:Es; [intros [= <- <- <-]; by rewrite Es|]. simpl.
  assert (rest `suffix_of` n :: rest) as Hsuf by (by exists [n]).
  case_if.
  { intros [= <- <- <-]. split; [done|]. intros e [= <-]. split; [done|].
    match goal with Hx : _ || _ = true |- _ => apply orb_prop in Hx as [Hx|Hx] end; [by left|right].
    unfold troubled. rewrite Es. left. lia. }
  case_if; [by intros [= <- <- <-]|]. bools.
  rewrite (proj2 (Z.ltb_lt 0 _)), (proj2 (Z.leb_le _ (len bytes - offset))) by lia. simpl.
  intros Hloop. apply IH in Hloop as [Hs He]; [|lia..]. simpl in Hs. split; [by etransitivity|].
  intros e Hr. destruct (He e Hr) as [-> [?|Ht]]; (split; [done|]); [by left|right].
  eapply troubled_suffix; [|exact Ht]. simpl. by rewrite Es.
Qed.

(** Nothing is sent in a direction that was shut down. *)
Lemma flush_bytes_closed w io lower bytes offset w' offset' r :
  closed w (side lower) = true ->
  flush_bytes (E := E) net_table w io lower bytes offset = (w', offset', r) -> wire w' = wire w.
Proof.
  unfold flush_bytes. simpl SnolByteIoV1.write. cbv iota. generalize (flush_fuel bytes offset).
  intros [|fuel] Hc; simpl; [by intros [= <- <- <-]|]. case_if; [|by intros [= <- <- <-]].
  unfold net_write at 1. case_if; [by intros [= <- <- <-]|].
  destruct (schedule w) as [|n rest]; [by intros [= <- <- <-]|]. simpl. rewrite Hc. simpl.
  by intros [= <- <- <-].
Qed.

(** With enough calls that move something, everything is flushed. *)
Lemma flush_bytes_live k w io lower bytes offset w' offset' r :
  0 <= k -> 0 <= offset <= len bytes -> closed w (side lower) = false -> calm (len bytes - offset + k) w ->
  flush_bytes (E := E) net_table w io lower bytes offset = (w', offset', r) -> r = Ok true /\ calm k w'.
Proof.
  intros Hk. unfold flush_bytes. simpl SnolByteIoV1.write. cbv iota.
  assert (len bytes - offset < Z.of_nat (flush_fuel bytes offset)) as Hf by (unfold flush_fuel; lia).
  revert Hf. generalize (flush_fuel bytes offset). intros fuel.
  revert w offset. induction fuel as [|fuel IH]; intros w offset Hf Ho Hcl [Hpos Hlen]; simpl; [lia|].
  case_if; [|intros [= <- <- <-]; split; [done|]; split; [done|lia]].
  assert (len (drop (Z.to_nat offset) bytes) = len bytes - offset) as Hd
    by (unfold len in *; rewrite length_drop; lia).
  unfold net_write at 1. rewrite bool_decide_false by (intros Hn; rewrite Hn in Hd; change (len []) with 0 in Hd; lia).
  destruct (schedule w) as [|n rest] eqn:Es; [change (len []) with 0 in Hlen; lia|]. simpl.
  apply Forall_cons in Hpos as [Hn Hpos]. rewrite len_cons in Hlen.
  rewrite Hcl, (proj2 (Z.ltb_ge n 0)), (proj2 (Z.eqb_neq n 0)) by lia. simpl.
  rewrite (proj2 (Z.ltb_lt 0 _)), (proj2 (Z.leb_le _ (len bytes - offset))) by lia. simpl.
  intros Hloop. apply IH in Hloop; [done|lia|lia|done|]. split; simpl; [done|lia].
Qed.

(** One turn inside the record of [c], of which [q] is still to come, when the
    network gives something: it gives a part of [q]. *)
Lemma read_turn fuel limit c p q tail u w lower n rest :
  limit <= u16_max -> fits limit c ->
  record c = p ++ q -> q <> [] -> wire w (negb (side lower)) ++ u = q ++ tail ->
  schedule w = n :: rest -> 0 < n -> wire w (negb (side lower)) <> [] ->
  exists got q',
    q = got ++ q' /\ got <> [] /\
    let w1 := Net (<[negb (side lower) := drop (length got) (wire w (negb (side lower)))]> (wire w)) (closed w) rest in
    wire w1 (negb (side lower)) ++ u = q' ++ tail /\ wire w1 (side lower) = wire w (side lower) /\
    read_frame_loop (E := E) (S fuel) net_read w lower (reader_at c p) limit
    = if decide (q' = []) then (w1, FrameReader.default, Ok (Some c))
      else read_frame_loop fuel net_read w1 lower (reader_at c (p ++ got)) limit.
Proof.
  intros Hl Hf Hr Hq Hu Es Hn Hne. cbn [read_frame_loop].
  pose proof (capacity_prefix limit c Hf p q Hr Hq) as Hcap.
  set (capacity := FrameReader.remaining_capacity (reader_at c p) limit) in *.
  rewrite (proj2 (Z.eqb_neq capacity 0)) by lia.
  unfold net_read at 1. rewrite Es. cbn [wire closed].
  rewrite (proj2 (Z.ltb_ge n 0)), (proj2 (Z.eqb_neq n 0)), bool_decide_false by (done || lia).
  set (x := wire w (negb (side lower))) in *.
  set (count := Z.min n (Z.min capacity (len x))).
  assert (0 < len x) as Hx by (by apply len_pos).
  assert (len (take (Z.to_nat count) x) = count) as Ht by (unfold len in *; rewrite length_take; lia).
  rewrite len_filled by lia.
  rewrite (proj2 (Z.leb_le _ _)), (proj2 (Z.eqb_neq _ _)) by lia.
  assert (take (Z.to_nat count) (filled capacity (take (Z.to_nat count) x))
          = take (Z.to_nat count) x) as ->.
  { rewrite <- Ht at 1. unfold len at 1. rewrite Nat2Z.id. apply take_filled. lia. }
  set (got := take (Z.to_nat count) x) in *.
  assert (length got = Z.to_nat count) as Hgl by (unfold len in Ht; lia).
  set (more := drop (Z.to_nat count) x) in *.
  assert (x = got ++ more) as Hsplit by (symmetry; apply take_drop).
  assert (exists q', q = got ++ q') as [q' ->].
  { exists (drop (length got) q). rewrite Hsplit, <- app_assoc in Hu.
    apply (f_equal (take (length got))) in Hu.
    rewrite take_app_length, take_app_le in Hu by (unfold len in *; lia).
    rewrite Hu at 1. by rewrite take_drop. }
  exists got, q'. rewrite Hsplit, <- !app_assoc in Hu. apply app_inv_head in Hu.
  split; [done|]. split; [intros Hnil; rewrite Hnil in Ht; change (len []) with 0 in Ht; lia|].
  rewrite Hgl. fold more. cbn [wire].
  rewrite fn_lookup_insert, fn_lookup_insert_ne by (destruct (side lower); done).
  split; [done|]. split; [done|]. rewrite (push_prefix limit c Hl Hf p got q') by done.
  destruct (decide (q' = [])) as [->|Hq'].
  - rewrite app_nil_r in Hr. by rewrite <- Hr, take_record.
  - by rewrite (take_prefix c (p ++ got) q') by (by rewrite <- ?app_assoc || done).
Qed.

(** Reading inside the record of [c], of which [q] is still to come: the reader
    takes [c] and not a byte more, or it stays inside the record. *)
Lemma read_net fuel limit c p q tail u w lower w' reader r :
  limit <= u16_max -> fits limit c -> len q <= Z.of_nat fuel ->
  record c = p ++ q -> q <> [] -> wire w (negb (side lower)) ++ u = q ++ tail ->
  read_frame_loop (E := E) fuel net_read w lower (reader_at c p) limit = (w', reader, r) ->
  closed w' = closed w /\ wire w' (side lower) = wire w (side lower) /\
  schedule w' `suffix_of` schedule w /\
  ((r = Ok (Some c) /\ reader = FrameReader.default /\
    wire w' (negb (side lower)) ++ u = tail) \/
   (exists p' q', record c = p' ++ q' /\ q' <> [] /\ reader = reader_at c p' /\
      wire w' (negb (side lower)) ++ u = q' ++ tail /\
      (r = Ok None \/ (r = Err NoiseError.Io /\ troubled w) \/
       (r = Err NoiseError.Eof /\ wire w' (negb (side lower)) = [] /\
        closed w (negb (side lower)) = true)))).
Proof.
  intros Hl Hf. revert w p q. induction fuel as [|fuel IH]; intros w p q Hfuel Hr Hq Hu Hloop.
  { apply len_pos in Hq. lia. }
  destruct (schedule w) as [|n rest] eqn:Es.
  { revert Hloop. cbn [read_frame_loop]. pose proof (capacity_prefix limit c Hf p q Hr Hq) as Hcap.
    rewrite (proj2 (Z.eqb_neq _ 0)) by lia. unfold net_read at 1. rewrite Es.
    intros [= <- <- <-]. split_and!; [done..|by rewrite Es|]. right. exists p, q. eauto 10. }
  assert (rest `suffix_of` n :: rest) as Hsuf by (by exists [n]).
  destruct (decide (0 < n /\ wire w (negb (side lower)) <> [])) as [[Hn Hne]|Hstop].
  - destruct (read_turn fuel limit c p q tail u w lower n rest Hl Hf Hr Hq Hu Es Hn Hne)
      as (got & q' & -> & Hgot & Hu' & Hs & Hturn).
    rewrite Hturn in Hloop. destruct (decide (q' = [])) as [->|Hq'].
    + injection Hloop as <- <- <-. split_and!; [done..|]. left. done.
    + apply IH with (q := q') in Hloop as (Hc & Hw & Hsch & Hcase); [| |by rewrite <- app_assoc|done|done].
      * rewrite Hs in Hw. split_and!; [done|done|by etransitivity|].
        destruct Hcase as [Hcase|(p' & q'' & ? & ? & ? & ? & Hres)]; [by left|right; exists p', q''].
        split_and!; [done..|]. destruct Hres as [?|[[? Ht]|?]]; [by left| |by do 2 right].
        right. left. split; [done|]. eapply troubled_suffix; [|exact Ht]. simpl. by rewrite Es.
      * rewrite len_app in Hfuel. assert (0 < len got) by (by apply len_pos). lia.
  - revert Hloop. cbn [read_frame_loop]. pose proof (capacity_prefix limit c Hf p q Hr Hq) as Hcap.
    rewrite (proj2 (Z.eqb_neq _ 0)) by lia. unfold net_read at 1. rewrite Es. cbn [wire closed].
    assert (troubled w \/ 0 <= n) as Hpos.
    { destruct (decide (n < 0)); [left|right; lia]. unfold troubled. rewrite Es. by left. }
    destruct (n <? 0) eqn:E1; [intros [= <- <- <-]; split_and!; [done..|]; right; exists p, q; simpl|].
    { split_and!; [done..|]. right. left. split; [done|]. bools. destruct Hpos; [done|lia]. }
    destruct (n =? 0) eqn:E2; [intros [= <- <- <-]; split_and!; [done..|]; right; exists p, q; eauto 10|]. bools.
    destruct (decide (wire w (negb (side lower)) = [])) as [Hnil|]; [|destruct Hstop; split; [lia|done]].
    rewrite bool_decide_true by done.
    destruct (closed w (negb (side lower))) eqn:Hc; intros [= <- <- <-];
      (split_and!; [done..|]; right; exists p, q; simpl; eauto 10).
Qed.

(** With all of the record on the wire and enough calls that move something, the
    frame is read. *)
Lemma read_live fuel k limit c p q w lower w' reader r :
  0 <= k -> limit <= u16_max -> fits limit c -> len q <= Z.of_nat fuel ->
  record c = p ++ q -> q <> [] -> wire w (negb (side lower)) = q -> calm (len q + k) w ->
  read_frame_loop (E := E) fuel net_read w lower (reader_at c p) limit = (w', reader, r) ->
  r = Ok (Some c) /\ calm k w'.
Proof.
  intros Hk Hl Hf. revert w p q. induction fuel as [|fuel IH]; intros w p q Hfuel Hr Hq Hu [Hpos Hlen] Hloop.
  { apply len_pos in Hq. lia. }
  destruct (schedule w) as [|n rest] eqn:Es.
  { change (len []) with 0 in Hlen. apply len_pos in Hq. lia. }
  apply Forall_cons in Hpos as [Hn Hpos]. rewrite len_cons in Hlen.
  destruct (read_turn fuel limit c p q [] [] w lower n rest Hl Hf Hr Hq) as (got & q' & -> & Hgot & Hu' & Hs & Hturn);
    [by rewrite Hu|done|done|by rewrite Hu|].
  assert (0 < len got) by (by apply len_pos).
  rewrite !app_nil_r in Hu'. rewrite len_app in *. rewrite Hturn in Hloop. destruct (decide (q' = [])) as [->|Hq'].
  - injection Hloop as <- <- <-. split; [done|]. split; simpl; [done|]. change (len []) with 0 in Hlen. lia.
  - apply IH with (q := q') in Hloop; [done|lia|by rewrite <- app_assoc|done|done|]. split; simpl; [done|lia].
Qed.

(** [read_frame] inside a record, and with nothing on the wire. *)
Lemma read_frame_fuel limit c p q : fits limit c -> record c = p ++ q ->
  len q <= Z.of_nat (read_fuel (reader_at c p) limit).
Proof.
  intros [_ Hc] Hr. unfold read_fuel. cbn [FrameReader.data reader_at]. apply (f_equal len) in Hr.
  rewrite len_record, len_app in Hr. lia.
Qed.

Lemma read_frame_at limit c p q tail u io w lower w' reader r :
  limit <= u16_max -> fits limit c ->
  record c = p ++ q -> q <> [] -> wire w (negb (side lower)) ++ u = q ++ tail ->
  read_frame (E := E) net_table w io lower (reader_at c p) limit = (w', reader, r) ->
  closed w' = closed w /\ wire w' (side lower) = wire w (side lower) /\
  schedule w' `suffix_of` schedule w /\
  ((r = Ok (Some c) /\ reader = FrameReader.default /\
    wire w' (negb (side lower)) ++ u = tail) \/
   (exists p' q', record c = p' ++ q' /\ q' <> [] /\ reader = reader_at c p' /\
      wire w' (negb (side lower)) ++ u = q' ++ tail /\
      (r = Ok None \/ (r = Err NoiseError.Io /\ troubled w) \/
       (r = Err NoiseError.Eof /\ wire w' (negb (side lower)) = [] /\
        closed w (negb (side lower)) = true)))).
Proof.
  intros Hl Hf Hr Hq Hw. unfold read_frame. rewrite (take_prefix c p q) by done.
  apply (read_net _ limit c p q tail u); try done. by apply read_frame_fuel.
Qed.

Lemma read_frame_live k limit c p q io w lower w' reader r :
  0 <= k -> limit <= u16_max -> fits limit c ->
  record c = p ++ q -> q <> [] -> wire w (negb (side lower)) = q -> calm (len q + k) w ->
  read_frame (E := E) net_table w io lower (reader_at c p) limit = (w', reader, r) ->
  r = Ok (Some c) /\ calm k w'.
Proof.
  intros Hk Hl Hf Hr Hq Hw Hc. unfold read_frame. rewrite (take_prefix c p q) by done.
  apply (read_live _ k limit c p q); try done. by apply read_frame_fuel.
Qed.

Lemma read_frame_idle limit io w lower w' reader r :
  0 <= limit -> wire w (negb (side lower)) = [] ->
  read_frame (E := E) net_table w io lower FrameReader.default limit = (w', reader, r) ->
  closed w' = closed w /\ (forall i, wire w' i = wire w i) /\ reader = FrameReader.default /\
  (exists n, schedule w' = drop n (schedule w) /\ (n <= 1)%nat) /\
  (r = Ok None \/ (r = Err NoiseError.Io /\ troubled w) \/
   (r = Err NoiseError.Eof /\ closed w (negb (side lower)) = true)).
Proof.
  intros Hl Hw. unfold read_frame. simpl. unfold read_fuel.
  generalize (Z.to_nat (limit + 2 - len (FrameReader.data FrameReader.default))). intros fuel. cbn [read_frame_loop].
  change (FrameReader.remaining_capacity FrameReader.default limit) with (Z.min 2 (limit + 2)).
  rewrite (proj2 (Z.eqb_neq _ _)) by lia.
  unfold net_read at 1. unfold troubled.
  destruct (schedule w) as [|n rest] eqn:Es.
  { intros [= <- <- <-]. split_and!; [done..|exists O; rewrite Es; split; [done|lia]|auto]. }
  cbn [wire closed]. rewrite Hw.
  destruct (n <? 0) eqn:E1; [|destruct (n =? 0); [|rewrite bool_decide_true by done;
      destruct (closed w (negb (side lower))) eqn:Hc]];
    intros [= <- <- <-]; (split_and!; [done..|exists 1%nat; split; [done|lia]|auto]).
  bools. right. left. split; [done|]. by left.
Qed.
End net_facts.

(** * The two sides *)

Record sys `{Snow} := Sys {
  st : bool -> Wrapped.t;
  below : net;
  accepted : bool -> bytes;
  delivered : bool -> bytes;
}.

(** What a result says was taken of an input. *)
Definition taken (r : SnolIoResult.t) (input : bytes) : bytes :=
  match r with SnolIoResult.progress n => take (Z.to_nat n) input | _ => [] end.

Section system.
Context `{SnowLaws}.
Abbreviation write_state := (Wrapped.write_state net_table).
Abbreviation read_state := (Wrapped.read_state net_table).

(** One call on a side, or a new schedule.  A user does not write after
    [shutdown_write].  The relation takes the directions that were cut, in which
    bytes may have been lost ([cuts] below). *)
Inductive step_with (cut : bool -> bool) : sys -> sys -> Prop :=
| step_schedule s l :
    step_with cut s (Sys _ (st s) (Net (wire (below s)) (closed (below s)) l) (accepted s) (delivered s))
| step_write s i input t w r :
    closed (below s) i = false \/ cut i = true -> write_state (st s i) (below s) input = (t, w, r) ->
    step_with cut s (Sys _ (<[i := t]> (st s)) w
              (<[i := accepted s i ++ taken r input]> (accepted s)) (delivered s))
| step_read s i room t w out r :
    0 <= room -> read_state (st s i) (below s) room = (t, w, out, r) ->
    step_with cut s (Sys _ (<[i := t]> (st s)) w (accepted s)
              (<[i := delivered s i ++ out]> (delivered s)))
| step_flush s i t w r :
    Wrapped.flush_state net_table (st s i) (below s) = (t, w, r) ->
    step_with cut s (Sys _ (<[i := t]> (st s)) w (accepted s) (delivered s))
| step_shutdown s i t w r :
    Wrapped.shutdown_state net_table (st s i) (below s) = (t, w, r) ->
    step_with cut s (Sys _ (<[i := t]> (st s)) w (accepted s) (delivered s)).

(** A network that only delays and fails calls, and loses nothing. *)
Definition step : sys -> sys -> Prop := step_with (fun _ => false).

(** A direction ends early: what was on its wire is cut off somewhere, and the
    reader is told the end of the stream after it. *)
Definition cuts (i : bool) (x : bytes) (s : sys) : sys :=
  Sys _ (st s) (Net (<[i := x]> (wire (below s))) (<[i := true]> (closed (below s))) (schedule (below s)))
    (accepted s) (delivered s).

Definition lower_of (i : bool) : Z := if i then 1 else 2.

(** Both sides just after the handshake. *)
Definition initial (s : sys) : Prop :=
  (forall i, exists owner io ts, st s i = Wrapped.fresh owner (lower_of i) io ts) /\
  (forall i, session 0 (tx (Wrapped.transport (st s i))) (rx (Wrapped.transport (st s (negb i))))) /\
  (forall i, wire (below s) i = [] /\ closed (below s) i = false /\
     accepted s i = [] /\ delivered s i = []).

Definition reachable (s : sys) : Prop := exists s0, initial s0 /\ rtc step s0 s.

(** ** The messages in flight *)

(** From the receiving half at [n] to the sending half at [m], the messages
    with their plaintexts. *)
Inductive flight : Z -> Rx -> list (bytes * bytes) -> Z -> Tx -> Prop :=
| flight_nil n x y : session n x y -> flight n y [] n x
| flight_cons n y c p y' l m x :
    fits MAX_CIPHERTEXT c -> fits MAX_PLAINTEXT p ->
    (forall b capacity, rx b = y -> len p <= capacity ->
       exists b', ts_read_message b c capacity = (b', Ok p) /\ rx b' = y' /\ tx b' = tx b) ->
    flight (n + 1) y' l m x ->
    flight n y ((c, p) :: l) m x.

Lemma flight_le n y l m x : flight n y l m x -> n <= m.
Proof. induction 1; lia. Qed.

Lemma flight_write n y l m a p :
  flight n y l m (tx a) -> 0 <= n -> m < RECORD_LIMIT -> fits MAX_PLAINTEXT p ->
  exists a' c, ts_write_message a p MAX_CIPHERTEXT = (a', Ok c) /\ rx a' = rx a /\
    fits MAX_CIPHERTEXT c /\ flight n y (l ++ [(c, p)]) (m + 1) (tx a').
Proof.
  remember (tx a) as x eqn:Hx. intros Hfl Hn Hm Hp.
  induction Hfl as [n x y Hs|n y c0 p0 y' l m x Hc0 Hp0 Hread Hfl IH].
  - destruct (session_message n x y p) as (x' & c & y' & Hc & Hs' & Hw & Hr); [done| | |].
    + unfold RECORD_LIMIT, u64_max in *. rewrite Z.shiftl_1_l in *. lia.
    + destruct Hp. unfold MAX_PLAINTEXT, u16_max in *. lia.
    + destruct (Hw a MAX_CIPHERTEXT) as (a' & Ha & Htx & Hrx).
      * done.
      * destruct Hp. unfold MAX_PLAINTEXT, MAX_CIPHERTEXT in *. lia.
      * exists a', c. split_and!; [done..| |].
        -- destruct Hp. unfold fits, MAX_PLAINTEXT, MAX_CIPHERTEXT in *. lia.
        -- eapply flight_cons; [|done..|by apply flight_nil; rewrite Htx].
           destruct Hp. unfold fits, MAX_PLAINTEXT, MAX_CIPHERTEXT in *. lia.
  - destruct (IH Hx ltac:(lia) Hm) as (a' & c & Ha & Hrx & Hc & Hfl').
    exists a', c. split_and!; [done..|]. by eapply flight_cons.
Qed.

(** ** The invariant of one direction *)

Definition reading (r : FrameReader.t) (l : list (bytes * bytes)) : Prop :=
  match l with
  | [] => r = FrameReader.default
  | (c, _) :: _ => exists p q, record c = p ++ q /\ q <> [] /\ r = reader_at c p
  end.

(** [l] is in flight from [a] to [b] over the wire [x]; of a direction that was cut,
    a part may be lost. *)
Record direction (cut : bool) (l : list (bytes * bytes)) (a b : Wrapped.t) (x : bytes) (shut : bool)
    (acc del : bytes) : Prop := Direction {
  dir_session : flight (Wrapped.received_records b) (rx (Wrapped.transport b)) l
    (Wrapped.sent_records a) (tx (Wrapped.transport a));
  dir_received : 0 <= Wrapped.received_records b;
  dir_offset : 0 <= Wrapped.outbound_offset a <= len (Wrapped.outbound a);
  dir_wire : exists lost, FrameReader.data (Wrapped.inbound b) ++ x ++ lost = records (map fst l) /\
    (cut = false -> lost = drop (Z.to_nat (Wrapped.outbound_offset a)) (Wrapped.outbound a));
  dir_reading : reading (Wrapped.inbound b) l;
  dir_plaintext : 0 <= Wrapped.plaintext_offset b <= len (Wrapped.plaintext b);
  dir_shut : cut = false -> shut = true -> Wrapped.outbound a = [];
  dir_cut : cut = true -> shut = true;
  dir_bytes : acc = del ++ drop (Z.to_nat (Wrapped.plaintext_offset b)) (Wrapped.plaintext b)
    ++ concat (map snd l);
}.

(** The parts of a state that matter to it as a receiver and as a sender. *)
Definition receiver (s : Wrapped.t) :=
  (Wrapped.lower s, Wrapped.received_records s, rx (Wrapped.transport s), Wrapped.inbound s,
   Wrapped.plaintext s, Wrapped.plaintext_offset s).
Definition sender (s : Wrapped.t) :=
  (Wrapped.lower s, Wrapped.sent_records s, tx (Wrapped.transport s), Wrapped.outbound s,
   Wrapped.outbound_offset s).

Lemma direction_sender cut l a a' b x shut acc del :
  sender a' = sender a -> direction cut l a b x shut acc del -> direction cut l a' b x shut acc del.
Proof. unfold sender. intros [= E1 E2 E3 E4 E5] []. by split; rewrite ?E2, ?E3, ?E4, ?E5. Qed.

Lemma direction_receiver cut l a b b' x shut acc del :
  receiver b' = receiver b -> direction cut l a b x shut acc del -> direction cut l a b' x shut acc del.
Proof. unfold receiver. intros [= E1 E2 E3 E4 E5 E6] []. by split; rewrite ?E2, ?E3, ?E4, ?E5, ?E6. Qed.

(** ** Each operation preserves the direction it works on *)

Lemma flush_wrapped_net s w s' w' r :
  0 <= Wrapped.outbound_offset s <= len (Wrapped.outbound s) ->
  Wrapped.flush_wrapped net_table s w = (s', w', r) ->
  receiver s' = receiver s /\ Wrapped.sent_records s' = Wrapped.sent_records s /\
  Wrapped.transport s' = Wrapped.transport s /\
  0 <= Wrapped.outbound_offset s' <= len (Wrapped.outbound s') /\
  (Wrapped.outbound s = [] -> Wrapped.outbound s' = []) /\
  closed w' = closed w /\
  wire w' (side (Wrapped.lower s))
    ++ drop (Z.to_nat (Wrapped.outbound_offset s')) (Wrapped.outbound s')
  = wire w (side (Wrapped.lower s))
    ++ drop (Z.to_nat (Wrapped.outbound_offset s)) (Wrapped.outbound s) /\
  wire w' (negb (side (Wrapped.lower s))) = wire w (negb (side (Wrapped.lower s))) /\
  (r = Ok true -> Wrapped.outbound s' = []) /\
  (closed w (side (Wrapped.lower s)) = true -> wire w' = wire w).
Proof.
  intros Ho. unfold Wrapped.flush_wrapped.
  destruct (flush_bytes _ _ _ _ _ _) as [[w1 o1] r1] eqn:Ef.
  pose proof (fun H => flush_bytes_closed _ _ _ _ _ _ _ _ H Ef) as Hshut.
  apply flush_bytes_net in Ef as (Ho1 & Hc & Hw & Hn & Hr); [|done].
  destruct r1 as [[|]|e]; intros [= <- <- <-]; simpl; split_and!; try done; try lia.
  rewrite <- Hw, (Hr eq_refl). f_equal. unfold len. by rewrite Nat2Z.id, drop_all.
Qed.

Lemma direction_flush cut l a b w acc del a' w' r :
  direction cut l a b (wire w (side (Wrapped.lower a))) (closed w (side (Wrapped.lower a))) acc del ->
  Wrapped.flush_wrapped net_table a w = (a', w', r) ->
  direction cut l a' b (wire w' (side (Wrapped.lower a))) (closed w' (side (Wrapped.lower a))) acc del.
Proof.
  intros [] Hf. apply flush_wrapped_net in Hf as (? & E2 & E3 & ? & Hnil & Hc & Hw & ? & ? & Hshut); [|done].
  split; rewrite ?E2, ?E3, ?Hc; auto. destruct dir_wire0 as (lost & Hl & Hlost). destruct cut.
  - exists lost. by rewrite Hshut by auto.
  - exists (drop (Z.to_nat (Wrapped.outbound_offset a')) (Wrapped.outbound a')).
    split; [|done]. by rewrite Hw, <- Hlost.
Qed.

Lemma records_app l k : records (l ++ k) = records l ++ records k.
Proof. unfold records. by rewrite map_app, concat_app. Qed.

Lemma reading_app r l k : reading r l -> reading r k \/ l <> [] -> reading r (l ++ k).
Proof. destruct l as [|[c p] l]; simpl; [by intros ? [?|?]|done]. Qed.

Lemma reading_default c p l : reading FrameReader.default ((c, p) :: l).
Proof.
  exists [], (record c). split_and!; [done| |done]. intros Hn%(f_equal len).
  rewrite len_record in Hn. pose proof (len_nonneg c). rewrite len_nil in Hn. lia.
Qed.

Lemma direction_write_record cut l a b x shut acc del input a' r :
  direction cut l a b x shut acc del -> shut = false \/ cut = true -> Wrapped.outbound a = [] ->
  Wrapped.write_record a input = (a', r) ->
  receiver a' = receiver a /\
  exists l', direction cut l' a' b x shut (acc ++ taken r input) del.
Proof.
  intros Hd Hopen Hout. unfold Wrapped.write_record.
  assert (exists l', direction cut l' a b x shut (acc ++ []) del) as Hsame
    by (rewrite app_nil_r; eauto).
  case_if; [intros [= <- <-]; done|]. case_if; [intros [= <- <-]; done|].
  destruct Hd. assert (0 < len input) by (by apply len_pos).
  set (count := Z.min (len input) MAX_PLAINTEXT).
  destruct (flight_write _ _ _ _ (Wrapped.transport a) (take (Z.to_nat count) input) dir_session0)
    as (t' & c & Ht & Hrx & Hc & Hfl); [done|lia| |].
  { unfold fits, count, MAX_PLAINTEXT, len in *. rewrite length_take. lia. }
  rewrite Ht, frame_record by done. intros [= <- <-]. unfold receiver. simpl. rewrite Hrx.
  split; [done|]. exists (l ++ [(c, take (Z.to_nat count) input)]).
  destruct dir_wire0 as (lost & Hl & Hlost). rewrite Hout, drop_nil in Hlost.
  pose proof (len_nonneg (record c)). split; simpl; try done.
  - exists (lost ++ record c). split; [|intros ->; by rewrite Hlost].
    rewrite map_app, records_app, <- Hl, <- !app_assoc. do 3 f_equal.
    unfold records. simpl. by rewrite app_nil_r.
  - apply reading_app; [done|]. destruct l; [left|by right]. simpl in dir_reading0.
    rewrite dir_reading0. apply reading_default.
  - intros Hu Hs. destruct Hopen; congruence.
  - rewrite dir_bytes0, map_app, concat_app. simpl. by rewrite app_nil_r, <- !app_assoc.
Qed.

Lemma direction_write cut l a b w acc del input a' w' r :
  direction cut l a b (wire w (side (Wrapped.lower a))) (closed w (side (Wrapped.lower a))) acc del ->
  closed w (side (Wrapped.lower a)) = false \/ cut = true ->
  write_state a w input = (a', w', r) ->
  receiver a' = receiver a /\ closed w' = closed w /\
  wire w' (negb (side (Wrapped.lower a))) = wire w (negb (side (Wrapped.lower a))) /\
  exists l', direction cut l' a' b (wire w' (side (Wrapped.lower a))) (closed w (side (Wrapped.lower a)))
    (acc ++ taken r input) del.
Proof.
  intros Hd Hopen. unfold Wrapped.write_state. case_if.
  - destruct (Wrapped.flush_wrapped _ _ _) as [[a1 w1] r1] eqn:Ef.
    pose proof (direction_flush _ _ _ _ _ _ _ _ _ _ Hd Ef) as Hd1.
    apply flush_wrapped_net in Ef as (Hrec & ? & ? & ? & ? & Hc & ? & ? & Hnil & _); [|by destruct Hd].
    rewrite Hc in Hd1.
    destruct r1 as [[|]|e]; [|intros [= <- <- <-]; simpl; rewrite app_nil_r; eauto..].
    destruct (Wrapped.write_record a1 input) as [a2 r2] eqn:Ew. intros [= <- <- <-].
    eapply direction_write_record in Ew as [-> ?]; eauto.
  - destruct (Wrapped.write_record a input) as [a2 r2] eqn:Ew. intros [= <- <- <-].
    eapply direction_write_record in Ew as [? ?]; eauto.
Qed.

Lemma direction_copy cut l a b x shut acc del room b' out r :
  0 <= room -> direction cut l a b x shut acc del ->
  Wrapped.copy_plaintext b room = (b', out, r) ->
  sender b' = sender b /\ direction cut l a b' x shut acc (del ++ out).
Proof.
  intros Hroom []. unfold Wrapped.copy_plaintext. case_if.
  { intros [= <- <- <-]. rewrite app_nil_r. done. }
  set (rem := drop (Z.to_nat (Wrapped.plaintext_offset b)) (Wrapped.plaintext b)) in *.
  set (count := Z.min (len rem) room). simpl.
  assert (len rem = len (Wrapped.plaintext b) - Wrapped.plaintext_offset b)
    by (unfold rem, len in *; rewrite length_drop; lia).
  assert (acc = (del ++ take (Z.to_nat count) rem)
    ++ drop (Z.to_nat (Wrapped.plaintext_offset b + count)) (Wrapped.plaintext b)
    ++ concat (map snd l)) as Hacc.
  { rewrite dir_bytes0, <- app_assoc. f_equal. rewrite (app_assoc (take _ _)). f_equal.
    rewrite <- (take_drop (Z.to_nat count) rem) at 1. f_equal. unfold rem.
    rewrite drop_drop. f_equal. lia. }
  case_if; intros [= <- <- <-]; (split; [done|]); split; simpl; try done; try lia.
  rewrite Hacc. f_equal. rewrite drop_ge by (unfold len in *; lia). done.
Qed.

(** [read_frame] on the network, for the receiving end of a direction. *)
Lemma read_frame_net l io r w lower u w' r' res :
  Forall (fits MAX_CIPHERTEXT) (map fst l) -> reading r l ->
  FrameReader.data r ++ wire w (negb (side lower)) ++ u = records (map fst l) ->
  read_frame (E := snow_error) net_table w io lower r MAX_CIPHERTEXT = (w', r', res) ->
  closed w' = closed w /\ wire w' (side lower) = wire w (side lower) /\
  ((exists c p l', l = (c, p) :: l' /\ res = Ok (Some c) /\ r' = FrameReader.default /\
      wire w' (negb (side lower)) ++ u = records (map fst l')) \/
   (reading r' l /\ FrameReader.data r' ++ wire w' (negb (side lower)) ++ u = records (map fst l) /\
    (res = Ok None \/ res = Err NoiseError.Io \/
     (res = Err NoiseError.Eof /\ wire w' (negb (side lower)) = [] /\
      closed w (negb (side lower)) = true)))).
Proof.
  intros Hfit Hr Hw Hread. destruct l as [|[c p] l]; simpl in Hr.
  - subst r. unfold records in Hw. simpl in Hw. apply app_nil in Hw as [Hw ->].
    apply read_frame_idle in Hread as (Hc & Hwire & -> & _ & Hres); [|done..].
    rewrite !Hwire, Hw. split_and!; [done..|right; split_and!; [done..|tauto]].
  - apply Forall_cons_1 in Hfit as [Hc _]. destruct Hr as (p0 & q & Hcpq & Hq & ->).
    assert (wire w (negb (side lower)) ++ u = q ++ records (map fst l)) as Hwq.
    { rewrite map_cons, records_cons in Hw. cbn [fst] in Hw.
      rewrite Hcpq, <- app_assoc in Hw. by apply app_inv_head in Hw. }
    eapply read_frame_at in Hread as (? & ? & _ & Hcase); [|by unfold MAX_CIPHERTEXT, u16_max|done..].
    split_and!; [done..|]. destruct Hcase as [(? & ? & ?)|(p' & q' & Heq & Hq' & -> & Hw' & Hres)].
    + left. exists c, p, l. done.
    + right. split_and!; [by exists p', q'| |tauto].
      rewrite map_cons, records_cons, Hw'. cbn [fst FrameReader.data reader_at].
      by rewrite Heq, <- app_assoc.
Qed.

Lemma flight_fits n y l m x : flight n y l m x -> Forall (fits MAX_CIPHERTEXT) (map fst l).
Proof. induction 1; simpl; constructor; done. Qed.

Lemma direction_read cut l a b w acc del room b' w' out r :
  0 <= room ->
  direction cut l a b (wire w (negb (side (Wrapped.lower b)))) (closed w (negb (side (Wrapped.lower b))))
    acc del ->
  read_state b w room = (b', w', out, r) ->
  sender b' = sender b /\ closed w' = closed w /\
  wire w' (side (Wrapped.lower b)) = wire w (side (Wrapped.lower b)) /\
  (exists l', direction cut l' a b' (wire w' (negb (side (Wrapped.lower b))))
     (closed w (negb (side (Wrapped.lower b)))) acc (del ++ out)) /\
  (r = SnolIoResult.eof -> cut = false -> acc = del).
Proof.
  intros Hroom Hd. unfold Wrapped.read_state. case_if.
  { destruct (Wrapped.copy_plaintext b room) as [[b1 o1] r1] eqn:Ec.
    intros [= <- <- <- <-].
    assert (r1 <> SnolIoResult.eof)
      by (unfold Wrapped.copy_plaintext in Ec; case_if_in Ec; simplify_eq; done).
    eapply direction_copy in Ec as [? ?]; [|done..]. split_and!; [done..|by eexists|done]. }
  case_if.
  { intros [= <- <- <- <-]. rewrite app_nil_r. split_and!; [done..|by eexists|done]. }
  destruct (read_frame _ _ _ _ _ _) as [[w1 r1] res] eqn:Er.
  destruct Hd. destruct dir_wire0 as (lost & Hlw & Hlost).
  eapply read_frame_net in Er as (Hc & Hs & Hcase); [|by eapply flight_fits|done..].
  destruct Hcase as [(c & p & l' & -> & -> & -> & Hw)|(Hr1 & Hw & Hres)].
  - inversion dir_session0 as [|n0 y0 c0 p0 y' l0 m x0 Hcf Hpf Hrd Hfl]; subst.
    destruct (Hrd (Wrapped.transport b) MAX_PLAINTEXT eq_refl ltac:(by destruct Hpf))
      as (t' & Ht & Hrx & Htx).
    change (Wrapped.transport (Wrapped.set_inbound b FrameReader.default)) with (Wrapped.transport b).
    rewrite Ht. destruct p as [|p0 p]; [by destruct Hpf|].
    destruct (Wrapped.copy_plaintext _ room) as [[b1 o1] r2] eqn:Ec. intros [= <- <- <- <-].
    assert (r2 <> SnolIoResult.eof)
      by (unfold Wrapped.copy_plaintext in Ec; case_if_in Ec; simplify_eq; done).
    assert (Wrapped.plaintext_offset b = len (Wrapped.plaintext b)) as Hoff by lia.
    eapply (direction_copy cut l' a) in Ec as [Hsend Hdir]; [|done|].
    + split_and!; [rewrite Hsend; unfold sender; simpl; by rewrite Htx|done|done|by eexists|done].
    + split; simpl; try done; rewrite ?Hrx; try done; try lia.
      * by exists lost.
      * destruct l' as [|[c' p'] l']; [done|apply reading_default].
      * rewrite Hoff. unfold len. rewrite Nat2Z.id, drop_all. simpl. done.
  - assert (exists l', direction cut l' a (Wrapped.set_inbound b r1)
      (wire w1 (negb (side (Wrapped.lower b)))) (closed w (negb (side (Wrapped.lower b)))) acc (del ++ []))
      as Hdir by (rewrite app_nil_r; exists l; split; simpl; eauto).
    destruct Hres as [->|[->|(-> & Hnil & Hshut)]]; intros [= <- <- <- <-]; split_and!; try done.
    intros _ Huncut. rewrite (Hlost Huncut), (dir_shut0 Huncut Hshut), drop_nil, app_nil_r, Hnil, app_nil_r in Hw.
    assert (Wrapped.plaintext_offset b = len (Wrapped.plaintext b)) as Hoff by lia.
    destruct l as [|[c p] l].
    + rewrite dir_bytes0, Hoff. unfold len. by rewrite Nat2Z.id, drop_all, !app_nil_r.
    + destruct Hr1 as (p' & q' & Heq & Hq' & ->). exfalso. apply Hq'.
      rewrite map_cons, records_cons in Hw. cbn [fst FrameReader.data reader_at] in Hw. rewrite Heq in Hw.
      apply (f_equal length) in Hw. rewrite !length_app in Hw.
      apply nil_length_inv. lia.
Qed.

(** ** The invariant of the system *)

Definition invariant (cut : bool -> bool) (s : sys) : Prop :=
  (forall i, Wrapped.lower (st s i) = lower_of i) /\
  (forall i, exists l, direction (cut i) l (st s i) (st s (negb i)) (wire (below s) i)
     (closed (below s) i) (accepted s i) (delivered s (negb i))).

Lemma side_lower i : side (lower_of i) = i.
Proof. by destruct i. Qed.

Lemma initial_invariant s : initial s -> invariant (fun _ => false) s.
Proof.
  intros (Hst & Hses & Hw). split.
  - intros i. by destruct (Hst i) as (o & io & ts & ->).
  - intros i. exists []. specialize (Hses i).
    destruct (Hw i) as (-> & -> & -> & _). destruct (Hw (negb i)) as (_ & _ & _ & ->).
    destruct (Hst i) as (o & io & ts & Hi). destruct (Hst (negb i)) as (o' & io' & ts' & Hn).
    rewrite Hi, Hn in *. split; simpl in *; try done; [by apply flight_nil|by exists []].
Qed.

(** A side that only worked as a sender, and one that only worked as a
    receiver. *)
Lemma sender_invariant cut s i t w acc :
  invariant cut s -> receiver t = receiver (st s i) ->
  wire w (negb i) = wire (below s) (negb i) -> closed w (negb i) = closed (below s) (negb i) ->
  (exists l, direction (cut i) l t (st s (negb i)) (wire w i) (closed w i) acc (delivered s (negb i))) ->
  invariant cut (Sys _ (<[i := t]> (st s)) w (<[i := acc]> (accepted s)) (delivered s)).
Proof.
  intros [Hlow Hdir] Hrec Hw Hc Hd. split; intros j; simpl.
  - destruct (decide (j = i)) as [->|Hj]; [rewrite fn_lookup_insert|by rewrite fn_lookup_insert_ne].
    injection Hrec. congruence.
  - destruct (decide (j = i)) as [->|Hj].
    + rewrite !fn_lookup_insert, fn_lookup_insert_ne by (destruct i; done). done.
    + assert (j = negb i) as -> by (destruct i, j; done). rewrite negb_involutive.
      rewrite !fn_lookup_insert, !fn_lookup_insert_ne by (destruct i; done).
      destruct (Hdir (negb i)) as [l Hl]. rewrite negb_involutive in Hl.
      exists l. rewrite Hw, Hc. by eapply direction_receiver.
Qed.

Lemma receiver_invariant cut s i t w out :
  invariant cut s -> sender t = sender (st s i) ->
  wire w i = wire (below s) i -> closed w i = closed (below s) i ->
  (exists l, direction (cut (negb i)) l (st s (negb i)) t (wire w (negb i)) (closed w (negb i))
     (accepted s (negb i)) (delivered s i ++ out)) ->
  invariant cut (Sys _ (<[i := t]> (st s)) w (accepted s) (<[i := delivered s i ++ out]> (delivered s))).
Proof.
  intros [Hlow Hdir] Hsnd Hw Hc Hd. split; intros j; simpl.
  - destruct (decide (j = i)) as [->|Hj]; [rewrite fn_lookup_insert|by rewrite fn_lookup_insert_ne].
    injection Hsnd. congruence.
  - destruct (decide (j = i)) as [->|Hj].
    + rewrite !fn_lookup_insert, !fn_lookup_insert_ne by (destruct i; done).
      destruct (Hdir i) as [l Hl]. exists l. rewrite Hw, Hc. by eapply direction_sender.
    + assert (j = negb i) as -> by (destruct i, j; done). rewrite negb_involutive.
      rewrite !fn_lookup_insert, fn_lookup_insert_ne by (destruct i; done). done.
Qed.

Lemma flush_then_invariant cut s i call t w r :
  (forall w0, fst (call w0 (lower_of i)) = Net (wire w0) (closed (fst (call w0 (lower_of i)))) (schedule w0)) ->
  (forall w0 j, j <> i -> closed (fst (call w0 (lower_of i))) j = closed w0 j) ->
  (forall w0, closed w0 i = true -> closed (fst (call w0 (lower_of i))) i = true) ->
  invariant cut s -> Wrapped.flush_then net_table (st s i) (below s) (Some call) = (t, w, r) ->
  invariant cut (Sys _ (<[i := t]> (st s)) w (accepted s) (delivered s)).
Proof.
  intros Hcall Hother Hstays Hinv. pose proof Hinv as [Hlow Hdir]. unfold Wrapped.flush_then.
  destruct (Wrapped.flush_wrapped _ _ _) as [[t1 w1] r1] eqn:Ef. destruct (Hdir i) as [l Hl].
  pose proof (direction_flush (cut i) l (st s i) (st s (negb i)) (below s) (accepted s i)
    (delivered s (negb i)) t1 w1 r1) as Hd.
  rewrite (Hlow i), side_lower in Hd. specialize (Hd Hl Ef).
  apply flush_wrapped_net in Ef as (Hrec & ? & ? & ? & ? & Hc & ? & Hw & Hnil & _); [|by destruct Hl].
  rewrite Hlow, side_lower in *.
  assert (forall w2, wire w2 = wire w1 -> (forall j, j <> i -> closed w2 j = closed w1 j) ->
    (closed w1 i = true -> closed w2 i = true) ->
    (closed w2 i = true -> cut i = false -> Wrapped.outbound t1 = []) ->
    invariant cut (Sys _ (<[i := t1]> (st s)) w2 (accepted s) (delivered s))) as Hgoal.
  { intros w2 Hw2 Hc2 Hup Hout.
    assert (invariant cut (Sys _ (<[i := t1]> (st s)) w2 (<[i := accepted s i]> (accepted s)) (delivered s)))
      as [Hi Hj].
    - apply sender_invariant; [done..|by rewrite Hw2|by rewrite Hc2, Hc by (by destruct i)|].
      exists l. rewrite Hw2. destruct Hd. split; auto.
    - split; [done|]. intros j. specialize (Hj j). simpl in *.
      replace (accepted s j) with ((<[i := accepted s i]> (accepted s) : bool -> bytes) j); [done|].
      destruct (decide (j = i)) as [->|]; [by rewrite fn_lookup_insert|by rewrite fn_lookup_insert_ne]. }
  destruct r1 as [[|]|e].
  - assert (Wrapped.lower t1 = lower_of i) as -> by (injection Hrec; congruence).
    destruct (call w1 (lower_of i)) as [w2 r2] eqn:Ec. intros [= <- <- <-].
    pose proof (Hcall w1) as Hw2. rewrite Ec in Hw2. apply Hgoal; auto.
    + simpl in Hw2. by rewrite Hw2.
    + intros j Hj. specialize (Hother w1 j Hj). by rewrite Ec in Hother.
    + intros Hx. specialize (Hstays w1 Hx). by rewrite Ec in Hstays.
  - intros [= <- <- <-]. apply Hgoal; auto. destruct Hd. auto.
  - intros [= <- <- <-]. apply Hgoal; auto. destruct Hd. auto.
Qed.

Lemma step_invariant cut s s' : step_with cut s s' -> invariant cut s -> invariant cut s'.
Proof.
  intros Hstep Hinv. pose proof Hinv as [Hlow Hdir].
  destruct Hstep as [s l|s i input t w r Hopen Hw|s i room t w out r Hroom Hr|s i t w r Hf|s i t w r Hf].
  - done.
  - destruct (Hdir i) as [l Hl].
    pose proof (direction_write (cut i) l (st s i) (st s (negb i)) (below s) (accepted s i)
      (delivered s (negb i)) input t w r) as Hd.
    rewrite (Hlow i), side_lower in Hd.
    destruct (Hd Hl Hopen Hw) as (? & Hc & ? & ?).
    apply sender_invariant; [done..|by rewrite Hc|by rewrite Hc].
  - destruct (Hdir (negb i)) as [l Hl]. rewrite negb_involutive in Hl.
    pose proof (direction_read (cut (negb i)) l (st s (negb i)) (st s i) (below s) (accepted s (negb i))
      (delivered s i) room t w out r Hroom) as Hd.
    rewrite (Hlow i), side_lower in Hd.
    destruct (Hd Hl Hr) as (? & Hc & ? & ? & _).
    apply receiver_invariant; [done..|by rewrite Hc|by rewrite Hc].
  - eapply flush_then_invariant in Hf; [done| |done..]. by intros [].
  - eapply flush_then_invariant in Hf; [done|done| | |done].
    + intros w0 j Hj. simpl. rewrite side_lower. by apply fn_lookup_insert_ne.
    + intros w0 _. simpl. rewrite side_lower. apply fn_lookup_insert.
Qed.

(** A direction that is cut loses the end of what was sent in it. *)
Lemma cuts_invariant cut i x s :
  invariant cut s -> x `prefix_of` wire (below s) i -> invariant (<[i := true]> cut) (cuts i x s).
Proof.
  intros [Hlow Hdir] [y Hy]. split; [done|]. intros j. simpl. destruct (Hdir j) as [l Hl]. exists l.
  destruct (decide (j = i)) as [->|Hj]; [rewrite !fn_lookup_insert|by rewrite !fn_lookup_insert_ne].
  destruct Hl. split; try done. destruct dir_wire0 as (lost & Hw & _). exists (y ++ lost).
  split; [|done]. by rewrite <- Hw, Hy, <- app_assoc.
Qed.

(** A side closes its end: the other side is told the end of the stream after what
    is on the wire, and unless the direction was shut down in order something may be
    missing. *)
Lemma close_invariant cut i s :
  invariant cut s ->
  invariant (<[i := cut i || negb (closed (below s) i)]> cut)
    (Sys _ (st s) (Net (wire (below s)) (<[i := true]> (closed (below s))) (schedule (below s)))
       (accepted s) (delivered s)).
Proof.
  intros [Hlow Hdir]. split; [done|]. intros j. simpl. destruct (Hdir j) as [l Hl]. exists l.
  destruct (decide (j = i)) as [->|Hj]; [rewrite !fn_lookup_insert|by rewrite !fn_lookup_insert_ne].
  destruct Hl. destruct dir_wire0 as (lost & Hw & Hlost).
  split; try done; [exists lost; split; [done|]|]; intros [? Hx]%orb_false_elim; [auto|].
  apply negb_false_iff in Hx. auto.
Qed.

Lemma invariant_ext cut cut' s : (forall i, cut i = cut' i) -> invariant cut s -> invariant cut' s.
Proof. intros E [Hlow Hdir]. split; [done|]. intros i. by rewrite <- E. Qed.

Lemma reachable_invariant s : reachable s -> invariant (fun _ => false) s.
Proof.
  intros (s0 & Hi & Hs). apply initial_invariant in Hi.
  induction Hs; [done|]. eauto using step_invariant.
Qed.

(** ** What the invariant gives *)

Lemma invariant_prefix cut s i : invariant cut s -> delivered s (negb i) `prefix_of` accepted s i.
Proof. intros [_ Hdir]. destruct (Hdir i) as [l []]. rewrite dir_bytes0. by apply prefix_app_r. Qed.

Lemma invariant_drained cut s i :
  invariant cut s -> cut i = false -> Wrapped.outbound (st s i) = [] -> wire (below s) i = [] ->
  FrameReader.data (Wrapped.inbound (st s (negb i))) = [] ->
  Wrapped.plaintext (st s (negb i)) = [] -> delivered s (negb i) = accepted s i.
Proof.
  intros [_ Hdir] Huncut Hout Hwire Hin Hpl. destruct (Hdir i) as [l []].
  destruct dir_wire0 as (lost & Hw & Hlost). rewrite (Hlost Huncut), Hout, Hwire, Hin, drop_nil in Hw.
  destruct l as [|[c p] l].
  - by rewrite dir_bytes0, Hpl, drop_nil, app_nil_r.
  - rewrite map_cons, records_cons in Hw. apply (f_equal len) in Hw.
    rewrite !len_app, len_record, (@len_nil byte) in Hw. cbn [fst] in Hw.
    pose proof (len_nonneg c). pose proof (len_nonneg (records (map fst l))). lia.
Qed.

Lemma invariant_eof cut s i room t w out :
  invariant cut s -> cut (negb i) = false -> 0 <= room ->
  read_state (st s i) (below s) room = (t, w, out, SnolIoResult.eof) ->
  delivered s i = accepted s (negb i).
Proof.
  intros [Hlow Hdir] Huncut Hroom Hr.
  destruct (Hdir (negb i)) as [l Hl]. rewrite negb_involutive in Hl.
  pose proof (direction_read (cut (negb i)) l (st s (negb i)) (st s i) (below s) (accepted s (negb i))
    (delivered s i) room t w out SnolIoResult.eof Hroom) as Hd.
  rewrite (Hlow i), side_lower in Hd.
  destruct (Hd Hl Hr) as (_ & _ & _ & _ & Heof). by rewrite Heof.
Qed.

(** C11: Whatever the network does, each side of a secured connection reads a
    prefix of what the other side wrote, and once the buffers and the wire of a
    direction are empty it has read all of it; in both directions, over all runs
    of reads, writes, flushes and shutdowns. *)
Theorem noise_transparent s i :
  reachable s ->
  delivered s (negb i) `prefix_of` accepted s i /\
  (Wrapped.outbound (st s i) = [] -> wire (below s) i = [] ->
   FrameReader.data (Wrapped.inbound (st s (negb i))) = [] ->
   Wrapped.plaintext (st s (negb i)) = [] ->
   delivered s (negb i) = accepted s i).
Proof.
  intros Hinv%reachable_invariant. split; [by eapply invariant_prefix|by eapply invariant_drained].
Qed.

(** The end of the stream is not early: when [read] answers end of stream,
    everything the other side's [write] accepted has been read. *)
Theorem noise_eof_complete s i room t w out :
  reachable s -> 0 <= room ->
  read_state (st s i) (below s) room = (t, w, out, SnolIoResult.eof) ->
  delivered s i = accepted s (negb i).
Proof. intros Hinv%reachable_invariant. by eapply invariant_eof. Qed.
End system.
