(* ===== verification/NoiseHandshakes.v ===== *)
(** The handshake of protection-noise over the network of NoiseNet.v: a client
    that knows the server's public key and the server, each driven by [wrap] as
    often as the host likes, in any order and over any schedule, agree on a
    session, read not a byte beyond the handshake, fail only if the network fails,
    and complete when it moves. *)
From Stdlib Require Import Strings.Byte.
From stdpp Require Import functions.
From S2P Require Import Prelude Text Admin Abi Noise NoiseFacts NoiseNet.
#[local] Open Scope Z_scope.

(** * What is assumed of snow

    The NK pattern (Noise specification, section 7.5): the initiator knows the
    responder's static key, each side sends one message of an ephemeral key and a
    tag, and the two transport states share a session in both directions. *)
Definition exchange `{SnowLaws} (i r : HandshakeState) : Prop :=
  exists i1 i2 r1 r2 m1 m2 ti tr,
    len m1 = 48 /\ len m2 = 48 /\
    (forall capacity, 48 <= capacity -> hs_write_message i [] capacity = (i1, Ok m1)) /\
    (forall capacity, 0 <= capacity -> hs_read_message r m1 capacity = (r1, Ok [])) /\
    (forall capacity, 48 <= capacity -> hs_write_message r1 [] capacity = (r2, Ok m2)) /\
    (forall capacity, 0 <= capacity -> hs_read_message i1 m2 capacity = (i2, Ok [])) /\
    is_handshake_finished i2 = true /\ is_handshake_finished r2 = true /\
    into_transport_mode i2 = Ok ti /\ into_transport_mode r2 = Ok tr /\
    session 0 (tx ti) (rx tr) /\ session 0 (tx tr) (rx ti).

Class NoiseNK `{SnowLaws} := {
  keypair : bytes -> bytes -> Prop;
  nk_exchange public private params b bi br i r :
    keypair public private ->
    parse_params PATTERN = Ok params ->
    Builder_prologue PROLOGUE (Builder_new params) = Ok b ->
    Builder_remote_public_key public b = Ok bi -> build_initiator bi = Ok i ->
    Builder_local_private_key private b = Ok br -> build_responder br = Ok r ->
    exchange i r;
}.

Section handshake.
Context `{NoiseNK}.

(** What [begin_handshake] leaves for a client and for a server whose keys
    match. *)
Definition begun (c s : PendingHandshake.t) (m : Noise.t) (ic is_ : Z) (public private : bytes) : Prop :=
  keypair public private /\
  Noise.INSTANCES m !! ic = Some (RoleKey.Client public) /\
  Noise.INSTANCES m !! is_ = Some (RoleKey.Server private) /\
  exists io io', Noise.begin_handshake m ic (lower_of true) io = Ok c /\
    Noise.begin_handshake m is_ (lower_of false) io' = Ok s.

(** The two sides; a side that is done has its transport. *)
Record hsys := HSys {
  peer : bool -> PendingHandshake.t;
  hnet : net;
  outcome : bool -> option TransportState;
}.

Inductive drives : hsys -> hsys -> Prop :=
| drives_schedule h l :
    drives h (HSys (peer h) (Net (wire (hnet h)) (closed (hnet h)) l) (outcome h))
| drives_side h i p w r :
    outcome h i = None -> PendingHandshake.drive net_table (peer h i) (hnet h) = (p, w, Ok r) ->
    drives h (HSys (<[i := p]> (peer h)) w (<[i := r]> (outcome h))).

(** A side is driven once over a given schedule, unless it is done. *)
Definition drive_once (i : bool) (h : hsys) : hsys :=
  match outcome h i, PendingHandshake.drive net_table (peer h i) (hnet h) with
  | None, (p, w, Ok r) => HSys (<[i := p]> (peer h)) w (<[i := r]> (outcome h))
  | _, _ => h
  end.

Definition drive_over (l : list Z) (i : bool) (h : hsys) : hsys :=
  drive_once i (HSys (peer h) (Net (wire (hnet h)) (closed (hnet h)) l) (outcome h)).

(** The first messages, as [begin_handshake] makes them. *)
Lemma begun_exchange c s m ic is_ public private :
  begun c s m ic is_ public private ->
  exists i r i1 m1 io io',
    exchange i r /\ hs_write_message i [] MAX_HANDSHAKE = (i1, Ok m1) /\
    c = PendingHandshake.mk _ ic 1 io (Some i1) (record m1) 0 FrameReader.default false /\
    s = PendingHandshake.mk _ is_ 2 io' (Some r) [] 0 FrameReader.default true.
Proof.
  intros (Hk & Hc & Hs & io & io' & Hbc & Hbs). unfold Noise.begin_handshake in *.
  rewrite Hc in Hbc. rewrite Hs in Hbs. unfold NoiseHandshake.client, NoiseHandshake.server in *.
  unfold NoiseHandshake.builder in *.
  destruct (parse_params PATTERN) as [params|e] eqn:Ep; [|done]. simpl in *.
  destruct (Builder_prologue PROLOGUE (Builder_new params)) as [b|e] eqn:Eb; [|done]. simpl in *.
  destruct (Builder_remote_public_key public b) as [bi|e] eqn:Ei; [|done]. simpl in *.
  destruct (build_initiator bi) as [i|e] eqn:Ebi; [|done]. simpl in *.
  destruct (Builder_local_private_key private b) as [br|e] eqn:Er; [|done]. simpl in *.
  destruct (build_responder br) as [r|e] eqn:Ebr; [|done]. simpl in *.
  pose proof (nk_exchange _ _ _ _ _ _ _ _ Hk Ep Eb Ei Ebi Er Ebr) as Hx.
  pose proof Hx as (i1 & i2 & r1 & r2 & m1 & m2 & ti & tr & Hm1 & _ & Hw & _).
  unfold NoiseHandshake.initial, NoiseHandshake.write_handshake in Hbc. simpl in Hbc.
  rewrite (Hw MAX_HANDSHAKE) in Hbc by done. simpl in Hbc.
  rewrite frame_record in Hbc by (done || unfold fits, MAX_HANDSHAKE; lia).
  simplify_eq. exists i, r, i1, m1, io, io'. by rewrite (Hw MAX_HANDSHAKE).
Qed.

(** ** The invariant *)

Section run.
Context (i1 i2 r r1 r2 : HandshakeState) (m1 m2 : bytes) (ti tr : TransportState).
Context (Hm1 : fits MAX_HANDSHAKE m1) (Hm2 : fits MAX_HANDSHAKE m2).
Context (Hread1 : hs_read_message r m1 MAX_HANDSHAKE = (r1, Ok [])).
Context (Hwrite2 : hs_write_message r1 [] MAX_HANDSHAKE = (r2, Ok m2)).
Context (Hread2 : hs_read_message i1 m2 MAX_HANDSHAKE = (i2, Ok [])).
Context (Hfin_i : is_handshake_finished i2 = true) (Hfin_r : is_handshake_finished r2 = true).
Context (Hmode_i : into_transport_mode i2 = Ok ti) (Hmode_r : into_transport_mode r2 = Ok tr).

Definition unsent (p : PendingHandshake.t) : bytes :=
  drop (Z.to_nat (PendingHandshake.outbound_offset p)) (PendingHandshake.outbound p).

(** The client before it is done; the server before and after it has read the
    first message. *)
Record client_waits (c : PendingHandshake.t) : Prop := {
  cw_lower : PendingHandshake.lower c = 1;
  cw_reply : PendingHandshake.server_reply c = false;
  cw_state : PendingHandshake.handshake c = Some i1;
  cw_out : 0 <= PendingHandshake.outbound_offset c <= len (PendingHandshake.outbound c);
}.

Record server_waits (s : PendingHandshake.t) : Prop := {
  sw_lower : PendingHandshake.lower s = 2;
  sw_reply : PendingHandshake.server_reply s = true;
  sw_state : PendingHandshake.handshake s = Some r;
  sw_out : PendingHandshake.outbound s = [] /\ PendingHandshake.outbound_offset s = 0;
}.

Record server_replies (s : PendingHandshake.t) : Prop := {
  sr_lower : PendingHandshake.lower s = 2;
  sr_reply : PendingHandshake.server_reply s = true;
  sr_state : PendingHandshake.handshake s = Some r2;
  sr_out : PendingHandshake.outbound s = record m2;
  sr_offset : 0 <= PendingHandshake.outbound_offset s <= len (record m2);
}.

(** The reader is inside the record of [m], of which [q] is still to come. *)
Definition within (m : bytes) (p : PendingHandshake.t) (q : bytes) : Prop :=
  exists d, record m = d ++ q /\ q <> [] /\ PendingHandshake.inbound p = reader_at m d.

(** What the server has still to send once it has read the first message. *)
Definition reply_left (h : hsys) (u : bytes) : Prop :=
  (outcome h false = None /\ server_replies (peer h false) /\ u = unsent (peer h false)) \/
  (outcome h false = Some tr /\ u = []).

Definition phases (h : hsys) : Prop :=
  (forall i, closed (hnet h) i = false) /\
  ((** the server waits for the first message *)
   (exists q, outcome h true = None /\ outcome h false = None /\
      client_waits (peer h true) /\ PendingHandshake.inbound (peer h true) = FrameReader.default /\
      server_waits (peer h false) /\ within m1 (peer h false) q /\
      wire (hnet h) true ++ unsent (peer h true) = q /\ wire (hnet h) false = []) \/
   (** the client waits for the second *)
   (exists q u, outcome h true = None /\ client_waits (peer h true) /\
      within m2 (peer h true) q /\ reply_left h u /\
      wire (hnet h) true = [] /\ unsent (peer h true) = [] /\ wire (hnet h) false ++ u = q) \/
   (** the client is done *)
   (exists u, outcome h true = Some ti /\ reply_left h u /\
      wire (hnet h) true = [] /\ wire (hnet h) false ++ u = [])).

Lemma finish_client c : 
  PendingHandshake.handshake c = Some i2 ->
  exists c', PendingHandshake.finish_some c = (c', Ok (Some ti)).
Proof using Hfin_i Hmode_i.
  intros Hh. unfold PendingHandshake.finish_some, PendingHandshake.finish. rewrite Hh, Hfin_i, Hmode_i.
  simpl. eauto.
Qed.

Lemma finish_server s :
  PendingHandshake.handshake s = Some r2 ->
  exists s', PendingHandshake.finish_some s = (s', Ok (Some tr)).
Proof using Hfin_r Hmode_r.
  intros Hh. unfold PendingHandshake.finish_some, PendingHandshake.finish. rewrite Hh, Hfin_r, Hmode_r.
  simpl. eauto.
Qed.

#[local] Opaque PendingHandshake.finish_some.

(** A drive on [w] that neither ends the handshake nor fails but with the network. *)
Definition goes_on (w : net) (res : result (NoiseError.t snow_error) (option TransportState)) : Prop :=
  res = Ok None \/ (res = Err NoiseError.Io /\ troubled w).

Lemma goes_on_suffix w w' res : schedule w' `suffix_of` schedule w -> goes_on w' res -> goes_on w res.
Proof. intros Hs [?|[? ?]]; [by left|right]. split; [done|]. by eapply troubled_suffix. Qed.

Abbreviation drive := (PendingHandshake.drive net_table).
Abbreviation drive_read := (PendingHandshake.drive_read net_table).

Lemma drive_read_idle c w c' w' res :
  client_waits c -> PendingHandshake.inbound c = FrameReader.default ->
  wire w false = [] -> (forall i, closed w i = false) -> drive_read c w = (c', w', res) ->
  c' = c /\ (forall i, wire w' i = wire w i) /\ closed w' = closed w /\
  (exists n, schedule w' = drop n (schedule w) /\ (n <= 1)%nat) /\ goes_on w res.
Proof.
  intros [Hl _ _ _] Hin Hw Hc. unfold PendingHandshake.drive_read.
  destruct (read_frame _ _ _ _ _ _) as [[w1 reader] r0] eqn:Er.
  rewrite Hin, Hl in Er.
  apply read_frame_idle in Er as (Hcl & Hwires & -> & Hsch & Hres); [|done|done].
  assert (PendingHandshake.set_inbound c FrameReader.default = c) as Hsame
    by (destruct c; simpl in *; by subst).
  rewrite Hsame. unfold goes_on.
  destruct Hres as [->|[[-> Ht]|[-> Hx]]]; [| |by rewrite Hc in Hx]; intros [= <- <- <-]; auto 10.
Qed.

Lemma drive_read_reply c w u c' w' res :
  client_waits c -> within m2 c (wire w false ++ u) ->
  (forall i, closed w i = false) -> drive_read c w = (c', w', res) ->
  wire w' true = wire w true /\ closed w' = closed w /\
  ((res = Ok (Some ti) /\ wire w' false ++ u = []) \/
   (client_waits c' /\ unsent c' = unsent c /\ within m2 c' (wire w' false ++ u) /\ goes_on w res)).
Proof using Hm2 Hread2 Hfin_i Hmode_i.
  intros [Hl Hrep Hst Hout] (d & Hd & Hq & Hin) Hc. unfold PendingHandshake.drive_read.
  destruct (read_frame _ _ _ _ _ _) as [[w1 reader] r0] eqn:Er.
  rewrite Hin, Hl in Er.
  apply (read_frame_at MAX_HANDSHAKE m2 d (wire w false ++ u) [] u) in Er as (Hcl & Hwt & _ & Hcase);
    [|done|done|done|done|by rewrite app_nil_r].
  simpl in Hwt, Hcase.
  destruct Hcase as [(-> & -> & Hrest)|(d' & q' & Hd' & Hq' & -> & Hrest & Hres)].
  - simpl. rewrite Hst, Hread2. simpl. rewrite Hrep.
    destruct (finish_client (PendingHandshake.set_handshake
      (PendingHandshake.set_inbound c FrameReader.default) (Some i2)) eq_refl) as [c2 Hf].
    rewrite Hf. intros [= <- <- <-]. auto.
  - rewrite app_nil_r in Hrest.
    destruct Hres as [->|[[-> Ht]|(-> & _ & Hx)]]; [| |by rewrite Hc in Hx]; intros [= <- <- <-];
      (split_and!; [done..|right]; split_and!;
        [by split|done|exists d'; by rewrite Hrest|unfold goes_on; auto]).
Qed.

Lemma drive_client_flush c w c' w' res :
  client_waits c -> closed w true = false -> drive c w = (c', w', res) ->
  (exists c1 w1, client_waits c1 /\ PendingHandshake.inbound c1 = PendingHandshake.inbound c /\
     wire w1 true ++ unsent c1 = wire w true ++ unsent c /\ wire w1 false = wire w false /\
     closed w1 = closed w /\ schedule w1 `suffix_of` schedule w /\
     (drive_read c1 w1 = (c', w', res) \/ (c' = c1 /\ w' = w1 /\ goes_on w res))).
Proof.
  intros Hcw Hopen. pose proof Hcw as [Hl Hrep Hst Hout]. unfold PendingHandshake.drive. case_if.
  2: { intros Hd. exists c, w. split_and!; auto. }
  destruct (flush_bytes _ _ _ _ _ _) as [[w1 o1] r0] eqn:Ef. rewrite Hl in Ef.
  pose proof Ef as Ef'. apply flush_bytes_net in Ef' as (Ho & Hcl & Hw & Hn & Hall); [|done].
  apply flush_bytes_error in Ef as [Hsch Herr]; [|done]. simpl in Hw, Hn, Herr.
  destruct r0 as [[|]|e].
  - simpl. rewrite Hrep. intros Hd. exists (PendingHandshake.set_outbound c [] 0), w1.
    split_and!; [by split|done| |done|done|done|by left].
    unfold unsent in *. simpl. rewrite <- Hw, (Hall eq_refl).
    unfold len. by rewrite Nat2Z.id, drop_all.
  - intros [= <- <- <-]. exists (PendingHandshake.set_outbound c (PendingHandshake.outbound c) o1), w1.
    split_and!; [by split|done..|right; unfold goes_on; auto].
  - destruct (Herr e eq_refl) as [-> [Hx|Ht]]; [congruence|].
    intros [= <- <- <-]. exists (PendingHandshake.set_outbound c (PendingHandshake.outbound c) o1), w1.
    split_and!; [by split|done..|right; unfold goes_on; auto].
Qed.

(** The server sends [m2], in one drive or in several. *)
Definition server_after (w : net) (s' : PendingHandshake.t) (w' : net)
    (res : result (NoiseError.t snow_error) (option TransportState)) (x : bytes) : Prop :=
  (res = Ok (Some tr) /\ wire w' false = x) \/
  (server_replies s' /\ wire w' false ++ unsent s' = x /\ goes_on w res).

Lemma server_flush p w o (s' := fun o => PendingHandshake.set_outbound p (record m2) o) w' o' r0 :
  PendingHandshake.lower p = 2 -> PendingHandshake.server_reply p = true ->
  PendingHandshake.handshake p = Some r2 -> 0 <= o <= len (record m2) -> closed w false = false ->
  flush_bytes (E := snow_error) net_table w (PendingHandshake.io p) (PendingHandshake.lower p)
    (record m2) o = (w', o', r0) ->
  wire w' true = wire w true /\ closed w' = closed w /\
  match r0 with
  | Ok true => wire w' false = wire w false ++ drop (Z.to_nat o) (record m2)
  | Ok false => server_replies (s' o') /\
      wire w' false ++ unsent (s' o') = wire w false ++ drop (Z.to_nat o) (record m2)
  | Err e => e = NoiseError.Io /\ troubled w /\ server_replies (s' o') /\
      wire w' false ++ unsent (s' o') = wire w false ++ drop (Z.to_nat o) (record m2)
  end.
Proof.
  intros Hl Hrep Hst Ho Hopen Hf. rewrite Hl in Hf.
  pose proof Hf as Hf'. apply flush_bytes_net in Hf' as (Ho' & Hcl & Hw & Hn & Hall); [|done].
  change (side 2) with false in *. simpl in Hn. split_and!; [done..|].
  destruct r0 as [[|]|e].
  - rewrite <- Hw, (Hall eq_refl). unfold len. by rewrite Nat2Z.id, drop_all, app_nil_r.
  - by split_and!; [split|].
  - apply flush_bytes_error in Hf as [_ Herr]; [|done]. destruct (Herr e eq_refl) as [-> [Hx|Ht]].
    + change (side 2) with false in Hx. congruence.
    + by split_and!; [..|split|].
Qed.

Lemma drive_server_waits s w u s' w' res :
  server_waits s -> within m1 s (wire w true ++ u) -> (forall i, closed w i = false) ->
  drive s w = (s', w', res) ->
  closed w' = closed w /\
  ((server_waits s' /\ within m1 s' (wire w' true ++ u) /\ wire w' false = wire w false /\ goes_on w res) \/
   (wire w' true ++ u = [] /\ server_after w s' w' res (wire w false ++ record m2))).
Proof using Hm1 Hm2 Hread1 Hwrite2 Hfin_r Hmode_r.
  intros [Hl Hrep Hst [Hout Hoff]] (d & Hd & Hq & Hin) Hc. unfold PendingHandshake.drive.
  rewrite bool_decide_true by done. cbn [negb]. unfold PendingHandshake.drive_read.
  destruct (read_frame _ _ _ _ _ _) as [[w1 reader] r0] eqn:Er.
  rewrite Hin, Hl in Er.
  apply (read_frame_at MAX_HANDSHAKE m1 d (wire w true ++ u) [] u) in Er as (Hcl & Hwt & Hsch & Hcase);
    [|done|done|done|done|by rewrite app_nil_r].
  change (side 2) with false in *. simpl in Hwt, Hcase.
  destruct Hcase as [(-> & -> & Hrest)|(d' & q' & Hd' & Hq' & -> & Hrest & Hres)].
  - simpl. rewrite Hst, Hread1. simpl. rewrite Hrep, Hwrite2. simpl.
    rewrite frame_record by done. rewrite Hoff.
    set (p := PendingHandshake.set_handshake (PendingHandshake.set_handshake
      (PendingHandshake.set_inbound s FrameReader.default) (Some r1)) (Some r2)).
    destruct (flush_bytes _ _ _ _ _ _) as [[w2 o2] r3] eqn:Ef.
    apply (server_flush p) in Ef as (Ht & Hc2 & Hflush); [|done..| |by rewrite Hcl].
    2: { pose proof (len_nonneg (record m2)). lia. }
    rewrite drop_0, Hwt in Hflush. rewrite <- Ht in Hrest. unfold server_after, goes_on.
    destruct r3 as [[|]|e]; simpl.
    + match goal with |- context [PendingHandshake.finish_some ?x] =>
        destruct (finish_server x eq_refl) as [s2 Hf]; rewrite Hf end.
      intros [= <- <- <-]. split; [congruence|]. auto.
    + destruct Hflush as [? ?]. intros [= <- <- <-]. split; [congruence|]. auto 10.
    + destruct Hflush as (-> & Htr & ? & ?). apply (troubled_suffix w) in Htr; [|done].
      intros [= <- <- <-]. split; [congruence|]. auto 10.
  - rewrite app_nil_r in Hrest. unfold goes_on.
    destruct Hres as [->|[[-> Ht]|(-> & _ & Hx)]]; [| |by rewrite Hc in Hx]; intros [= <- <- <-];
      (split; [done|left]; split_and!; [by split|exists d'; by rewrite Hrest|done|auto]).
Qed.

Lemma drive_server_replies s w s' w' res :
  server_replies s -> closed w false = false -> drive s w = (s', w', res) ->
  wire w' true = wire w true /\ closed w' = closed w /\
  server_after w s' w' res (wire w false ++ unsent s).
Proof using Hm2 Hfin_r Hmode_r.
  intros [Hl Hrep Hst Hout Hoff] Hopen. unfold PendingHandshake.drive.
  assert (record m2 <> []) by (intros Hn%(f_equal len); rewrite len_record in Hn;
    pose proof (len_nonneg m2); rewrite len_nil in Hn; lia).
  rewrite bool_decide_false by (by rewrite Hout). cbn [negb]. rewrite Hout.
  destruct (flush_bytes _ _ _ _ _ _) as [[w2 o2] r3] eqn:Ef.
  apply server_flush in Ef as (Ht & Hc2 & Hflush); [|done..].
  assert (unsent s = drop (Z.to_nat (PendingHandshake.outbound_offset s)) (record m2)) as ->
    by (unfold unsent; by rewrite Hout).
  unfold server_after, goes_on.
  destruct r3 as [[|]|e]; simpl.
  - rewrite Hrep. match goal with |- context [PendingHandshake.finish_some ?x] =>
      destruct (finish_server x Hst) as [s2 Hf]; rewrite Hf end.
    intros [= <- <- <-]. auto.
  - destruct Hflush as [? ?]. intros [= <- <- <-]. auto 10.
  - destruct Hflush as (-> & ? & ? & ?). intros [= <- <- <-]. auto 10.
Qed.

(** ** Every drive keeps the phases *)

Lemma phases_client h c' w' res o :
  phases h -> outcome h true = None -> drive (peer h true) (hnet h) = (c', w', res) ->
  (res = Ok o \/ (res = Err NoiseError.Io /\ o = None)) ->
  phases (HSys (<[true := c']> (peer h)) w' (<[true := o]> (outcome h))).
Proof using Hm2 Hread2 Hfin_i Hmode_i.
  intros [Hc Hph] Hnone Hd Ho.
  assert (forall u, reply_left h u ->
    reply_left (HSys (<[true := c']> (peer h)) w' (<[true := o]> (outcome h))) u) as Hleft
    by done.
  assert (goes_on (hnet h) res -> o = None) as Hgo
    by (destruct Ho as [->|[? ->]]; [intros [[= ->]|[? _]]|]; done).
  destruct Hph as [(q & _ & Hsn & Hcw & Hin & Hsw & Hwithin & Hwire & Hwf)|
    [(q & u & _ & Hcw & Hwithin & Hl & Hwt & Hun & Hq)|(u & Hdone & _)]]; [| |congruence].
  - apply drive_client_flush in Hd as (c1 & w1 & Hcw1 & Hin1 & Hw1 & Hf1 & Hc1 & Hs1 & Hcase); [|done..].
    assert (client_waits c' /\ PendingHandshake.inbound c' = FrameReader.default /\
      wire w' true ++ unsent c' = q /\ wire w' false = [] /\ closed w' = closed (hnet h) /\ goes_on (hnet h) res)
      as (? & ? & ? & ? & Hcl & Hg).
    { destruct Hcase as [Hr|(-> & -> & ?)]; [|split_and!; congruence || done].
      apply drive_read_idle in Hr as (-> & Hws & Hcl & _ & Hg);
        [|done|congruence|congruence|by rewrite Hc1].
      rewrite !Hws. split_and!; try (congruence || done). by eapply goes_on_suffix. }
    split; simpl; [by intros i; rewrite Hcl|]. left. exists q. rewrite (Hgo Hg). split_and!; done.
  - apply drive_client_flush in Hd as (c1 & w1 & Hcw1 & Hin1 & Hw1 & Hf1 & Hc1 & Hs1 & Hcase); [|done..].
    rewrite Hwt, Hun in Hw1. apply app_nil in Hw1 as [Hw1 Hu1].
    assert (within m2 c1 (wire w1 false ++ u)) as Hwi.
    { destruct Hwithin as (d & ? & ? & ?). exists d. rewrite Hf1, Hq, Hin1. done. }
    destruct Hcase as [Hr|(-> & -> & Hg)].
    + apply drive_read_reply with (u := u) in Hr as (Hwt' & Hcl & Hcase); [|done..|by rewrite Hc1].
      split; simpl; [by intros i; rewrite Hcl, Hc1|]. right.
      destruct Hcase as [(-> & Hnil)|(? & Hu' & Hwi' & Hg%(goes_on_suffix _ _ _ Hs1))].
      * right. exists u. destruct Ho as [[= <-]|[? _]]; [|done]. split_and!; [done|by apply Hleft|congruence|done].
      * left. exists (wire w' false ++ u), u. rewrite (Hgo Hg).
        split_and!; [done|done|done|rewrite (Hgo Hg) in Hleft; by apply Hleft|congruence|rewrite fn_lookup_insert; congruence|done].
    + split; simpl; [by intros i; rewrite Hc1|]. right. left. exists (wire w1 false ++ u), u.
      rewrite (Hgo Hg) in *. split_and!; done || by apply Hleft.
Qed.

Lemma phases_server h s' w' res o :
  phases h -> outcome h false = None -> drive (peer h false) (hnet h) = (s', w', res) ->
  (res = Ok o \/ (res = Err NoiseError.Io /\ o = None)) ->
  phases (HSys (<[false := s']> (peer h)) w' (<[false := o]> (outcome h))).
Proof using Hm1 Hm2 Hread1 Hwrite2 Hfin_r Hmode_r.
  intros [Hc Hph] Hnone Hd Ho.
  assert (goes_on (hnet h) res -> o = None) as Hgo
    by (destruct Ho as [->|[? ->]]; [intros [[= ->]|[? _]]|]; done).
  assert (forall x, server_after (hnet h) s' w' res x -> exists u,
    reply_left (HSys (<[false := s']> (peer h)) w' (<[false := o]> (outcome h))) u /\
    wire w' false ++ u = x) as Hafter.
  { intros x [[-> Hx]|(Hsr & Hx & Hg)].
    - exists []. rewrite app_nil_r. destruct Ho as [[= <-]|[? _]]; [|done]. split; [by right|done].
    - exists (unsent s'). rewrite (Hgo Hg). split; [by left|done]. }
  destruct Hph as [(q & Hcn & _ & Hcw & Hin & Hsw & Hwithin & Hwire & Hwf)|
    [(q & u & Hcn & Hcw & Hwithin & Hl & Hwt & Hun & Hq)|(u & Hdone & Hl & Hwt & Hnil)]].
  - apply drive_server_waits with (u := unsent (peer h true)) in Hd as (Hcl & Hcase);
      [|done|by rewrite Hwire|done].
    split; simpl; [by intros i; rewrite Hcl|].
    destruct Hcase as [(? & ? & ? & Hg)|(Hnil & Ha)].
    + left. exists (wire w' true ++ unsent (peer h true)). rewrite (Hgo Hg).
      split_and!; congruence || done.
    + right. left. destruct (Hafter _ Ha) as (u & Hl & Hu). apply app_nil in Hnil as [? ?].
      exists (record m2), u. split_and!; try done; [|rewrite Hu, Hwf; done].
      exists []. split_and!; [done| |done].
      intros Hn%(f_equal len). rewrite len_record, len_nil in Hn. pose proof (len_nonneg m2). lia.
  - destruct Hl as [(_ & Hsr & ->)|[? _]]; [|congruence].
    apply drive_server_replies in Hd as (Hwt' & Hcl & Ha); [|done..].
    split; simpl; [by intros i; rewrite Hcl|]. right. left.
    destruct (Hafter _ Ha) as (u & Hl & Hu). exists q, u. split_and!; try done; congruence.
  - destruct Hl as [(_ & Hsr & ->)|[? _]]; [|congruence].
    apply drive_server_replies in Hd as (Hwt' & Hcl & Ha); [|done..].
    split; simpl; [by intros i; rewrite Hcl|]. right. right.
    destruct (Hafter _ Ha) as (u & Hl & Hu). exists u. split_and!; try done; congruence.
Qed.

Lemma phases_drives h h' : drives h h' -> phases h -> phases h'.
Proof using Hm1 Hm2 Hread1 Hwrite2 Hread2 Hfin_i Hfin_r Hmode_i Hmode_r.
  intros [h0 l|h0 i p w res Hn Hd] Hp; [done|].
  destruct i; [by eapply phases_client; eauto|by eapply phases_server; eauto].
Qed.

(** A drive fails only if the network does. *)
Lemma phases_error h i p w e :
  phases h -> outcome h i = None -> drive (peer h i) (hnet h) = (p, w, Err e) ->
  e = NoiseError.Io /\ troubled (hnet h).
Proof using Hm1 Hm2 Hread1 Hwrite2 Hread2 Hfin_i Hfin_r Hmode_i Hmode_r.
  intros [Hc Hph] Hnone Hd.
  assert (goes_on (hnet h) (Err e) -> e = NoiseError.Io /\ troubled (hnet h)) as Hgo
    by (unfold goes_on; intros [[=]|[[= ->] ?]]; done).
  assert (forall x, server_after (hnet h) p w (Err e) x -> e = NoiseError.Io /\ troubled (hnet h)) as Hafter
    by (intros x [[[=] _]|(_ & _ & ?)]; auto).
  destruct i.
  - assert (client_waits (peer h true)) as Hcw0
      by (destruct Hph as [(? & ? & ? & ? & _)|[(? & ? & ? & ? & _)|(? & ? & _)]]; congruence || done).
    apply drive_client_flush in Hd as (c1 & w1 & Hcw1 & Hin1 & Hw1 & Hf1 & Hc1 & Hs1 & [Hr|(_ & _ & ?)]);
      [|auto|done..].
    destruct Hph as [(q & _ & Hsn & Hcw & Hin & Hsw & Hwithin & Hwire & Hwf)|
      [(q & u & _ & Hcw & Hwithin & Hl & Hwt & Hun & Hq)|(u & Hdone & _)]]; [| |congruence].
    + apply drive_read_idle in Hr as (_ & _ & _ & _ & Hg%(goes_on_suffix _ _ _ Hs1));
        [auto|done|congruence|congruence|by rewrite Hc1].
    + assert (within m2 c1 (wire w1 false ++ u)) as Hwi.
      { destruct Hwithin as (d & ? & ? & ?). exists d. rewrite Hf1, Hq, Hin1. done. }
      apply drive_read_reply with (u := u) in Hr
        as (_ & _ & [[[=] _]|(_ & _ & _ & Hg%(goes_on_suffix _ _ _ Hs1))]); [auto|done..|by rewrite Hc1].
  - destruct Hph as [(q & Hcn & _ & Hcw & Hin & Hsw & Hwithin & Hwire & Hwf)|
      [(q & u & Hcn & Hcw & Hwithin & Hl & _)|(u & Hdone & Hl & _)]].
    + apply drive_server_waits with (u := unsent (peer h true)) in Hd
        as (_ & [(_ & _ & _ & ?)|(_ & ?)]); eauto. by rewrite Hwire.
    + destruct Hl as [(_ & Hsr & _)|[? _]]; [|congruence].
      apply drive_server_replies in Hd as (_ & _ & ?); eauto.
    + destruct Hl as [(_ & Hsr & _)|[? _]]; [|congruence].
      apply drive_server_replies in Hd as (_ & _ & ?); eauto.
Qed.

(** ** The handshake ends *)

Lemma calm_untroubled k w : calm k w -> ~ troubled w.
Proof.
  intros [Hp _] (n & Hn & Hlt)%Exists_exists. rewrite Forall_forall in Hp. specialize (Hp n Hn). lia.
Qed.

(** The client sends all it has to send, and goes on to read. *)
Lemma client_flushes c w k :
  client_waits c -> closed w true = false -> 0 <= k -> calm (len (unsent c) + k) w ->
  exists c1 w1, drive c w = drive_read c1 w1 /\ client_waits c1 /\
    PendingHandshake.inbound c1 = PendingHandshake.inbound c /\ unsent c1 = [] /\
    wire w1 true = wire w true ++ unsent c /\ wire w1 false = wire w false /\ closed w1 = closed w /\ calm k w1.
Proof.
  intros Hcw Hopen Hk Hcalm. pose proof Hcw as [Hl Hrep Hst Hout]. unfold PendingHandshake.drive. case_if.
  2: { bools. assert (unsent c = []) as Hu by (unfold unsent; rewrite Heqb; apply drop_nil).
       rewrite Hu in *. change (len []) with 0 in Hcalm. exists c, w. rewrite app_nil_r. by split_and!. }
  destruct (flush_bytes _ _ _ _ _ _) as [[w1 o1] r0] eqn:Ef. rewrite Hl in Ef.
  assert (len (unsent c) = len (PendingHandshake.outbound c) - PendingHandshake.outbound_offset c) as Hu
    by (unfold unsent, len in *; rewrite length_drop; lia).
  rewrite Hu in Hcalm. pose proof Ef as Ef'.
  apply (flush_bytes_live k) in Ef' as [-> Hcalm1]; [|done..].
  apply flush_bytes_net in Ef as (Ho & Hcl & Hw & Hn & Hall); [|done]. simpl in Hw, Hn. simpl. rewrite Hrep.
  exists (PendingHandshake.set_outbound c [] 0), w1. split_and!; [done|by split|done|done| |done..].
  fold (unsent c) in Hw. rewrite <- Hw, (Hall eq_refl). unfold len. by rewrite Nat2Z.id, drop_all, app_nil_r.
Qed.

(** The server reads the first message and sends the second. *)
Lemma server_answers s w :
  server_waits s -> within m1 s (wire w true) -> (forall i, closed w i = false) ->
  calm (len (wire w true) + len (record m2)) w ->
  exists s' w', drive s w = (s', w', Ok (Some tr)).
Proof using Hm1 Hm2 Hread1 Hwrite2 Hfin_r Hmode_r.
  intros [Hl Hrep Hst [Hout Hoff]] (d & Hd & Hq & Hin) Hc Hcalm. unfold PendingHandshake.drive.
  rewrite bool_decide_true by done. cbn [negb]. unfold PendingHandshake.drive_read.
  destruct (read_frame _ _ _ _ _ _) as [[w1 reader] r0] eqn:Er. rewrite Hin, Hl in Er.
  pose proof Er as Er'. pose proof (len_nonneg (record m2)).
  apply (read_frame_live (len (record m2)) MAX_HANDSHAKE m1 d (wire w true)) in Er' as [-> Hcalm1]; [|done..].
  apply (read_frame_at MAX_HANDSHAKE m1 d (wire w true) [] []) in Er as (Hcl & _ & _ & Hcase);
    [|done|done|done|done|by rewrite !app_nil_r].
  destruct Hcase as [(_ & -> & _)|(d' & q' & _ & _ & _ & _ & [[=]|[[[=] _]|([=] & _)]])].
  simpl. rewrite Hst, Hread1. simpl. rewrite Hrep, Hwrite2. simpl. rewrite frame_record by done. rewrite Hoff.
  destruct (flush_bytes _ _ _ _ _ _) as [[w2 o2] r3] eqn:Ef. rewrite Hl in Ef.
  apply (flush_bytes_live 0) in Ef as [-> _]; [|lia|lia|by rewrite Hcl|by rewrite Z.sub_0_r, Z.add_0_r].
  match goal with |- context [PendingHandshake.finish_some ?x] =>
    destruct (finish_server x eq_refl) as [s2 Hf]; rewrite Hf end. eauto.
Qed.

(** The server sends the rest of the second message. *)
Lemma server_flushes s w :
  server_replies s -> closed w false = false -> calm (len (record m2)) w ->
  exists s' w', drive s w = (s', w', Ok (Some tr)).
Proof using Hm2 Hfin_r Hmode_r.
  intros [Hl Hrep Hst Hout Hoff] Hopen Hcalm. unfold PendingHandshake.drive.
  assert (record m2 <> []) by (intros Hn%(f_equal len); rewrite len_record in Hn;
    pose proof (len_nonneg m2); rewrite len_nil in Hn; lia).
  rewrite bool_decide_false by (by rewrite Hout). cbn [negb]. rewrite Hout.
  destruct (flush_bytes _ _ _ _ _ _) as [[w2 o2] r3] eqn:Ef. rewrite Hl in Ef.
  apply (flush_bytes_live (PendingHandshake.outbound_offset s)) in Ef as [-> _]; [|lia|lia|done|].
  2: { replace (_ - _ + _) with (len (record m2)) by lia. done. }
  simpl. rewrite Hrep. match goal with |- context [PendingHandshake.finish_some ?x] =>
    destruct (finish_server x Hst) as [s2 Hf]; rewrite Hf end. eauto.
Qed.

(** The client reads the second message. *)
Lemma client_reads c w :
  client_waits c -> within m2 c (wire w false) -> calm (len (wire w false)) w ->
  exists c' w', drive_read c w = (c', w', Ok (Some ti)).
Proof using Hm2 Hread2 Hfin_i Hmode_i.
  intros [Hl Hrep Hst Hout] (d & Hd & Hq & Hin) Hcalm. unfold PendingHandshake.drive_read.
  destruct (read_frame _ _ _ _ _ _) as [[w1 reader] r0] eqn:Er. rewrite Hin, Hl in Er.
  apply (read_frame_live 0 MAX_HANDSHAKE m2 d (wire w false)) in Er as [-> _]; [|done..|by rewrite Z.add_0_r].
  simpl. rewrite Hst, Hread2. simpl. rewrite Hrep.
  match goal with |- context [PendingHandshake.finish_some ?x] =>
    destruct (finish_client x eq_refl) as [c2 Hf]; rewrite Hf end. eauto.
Qed.

Lemma within_len m p q : within m p q -> len q <= len (record m).
Proof. intros (d & Hd & _). rewrite Hd, len_app. pose proof (len_nonneg d). lia. Qed.

Lemma drive_once_other i h : outcome (drive_once i h) (negb i) = outcome h (negb i).
Proof.
  unfold drive_once. destruct (outcome h i); [done|]. destruct (drive _ _) as [[c w] [r0|]]; [|done].
  simpl. by rewrite fn_lookup_insert_ne by (by destruct i).
Qed.

Lemma drive_once_phases i h : phases h -> phases (drive_once i h).
Proof using Hm1 Hm2 Hread1 Hwrite2 Hread2 Hfin_i Hfin_r Hmode_i Hmode_r.
  intros Hp. unfold drive_once. destruct (outcome h i) eqn:Ho; [done|].
  destruct (drive (peer h i) (hnet h)) as [[p w] [r0|e]] eqn:Ed; [|done].
  eapply phases_drives; [by eapply drives_side|done].
Qed.

Lemma first_drive h :
  phases h -> calm (len (record m1)) (hnet h) ->
  is_Some (outcome (drive_once true h) true) \/ unsent (peer (drive_once true h) true) = [].
Proof using Hm1 Hm2 Hread1 Hwrite2 Hread2 Hfin_i Hfin_r Hmode_i Hmode_r.
  intros Hp Hcalm. pose proof Hp as [Hc Hph]. unfold drive_once.
  destruct (outcome h true) as [x|] eqn:Ho; [left; by rewrite Ho|].
  assert (client_waits (peer h true) /\ len (unsent (peer h true)) <= len (record m1)) as [Hcw Hu].
  { destruct Hph as [(q & _ & _ & Hcw & _ & _ & Hwithin & Hwire & _)|
      [(q & u & _ & Hcw & _ & _ & _ & Hun & _)|(u & ? & _)]]; [| |congruence]; split; try done.
    - apply within_len in Hwithin. rewrite <- Hwire, len_app in Hwithin.
      pose proof (len_nonneg (wire (hnet h) true)). lia.
    - rewrite Hun. apply len_nonneg. }
  destruct (client_flushes (peer h true) (hnet h) (len (record m1) - len (unsent (peer h true))))
    as (c1 & w1 & Hd & Hcw1 & Hin1 & Hu1 & Hw1 & Hf1 & Hc1 & Hcalm1); [done|done|lia| |].
  { replace (_ + _) with (len (record m1)) by lia. done. }
  rewrite Hd. destruct (drive_read c1 w1) as [[c2 w2] res] eqn:Er.
  assert (res = Ok (Some ti) \/ unsent c2 = []) as Hcase.
  { destruct Hph as [(q & _ & _ & _ & Hin & _ & _ & _ & Hwf)|
      [(q & u & _ & _ & Hwithin & _ & _ & _ & Hq)|(u & ? & _)]]; [| |congruence].
    - apply drive_read_idle in Er as (-> & _); [by right|done|congruence|congruence|by rewrite Hc1].
    - assert (within m2 c1 (wire w1 false ++ u)) as Hwi.
      { destruct Hwithin as (d & ? & ? & ?). exists d. rewrite Hf1, Hq, Hin1. done. }
      apply drive_read_reply with (u := u) in Er as (_ & _ & [[-> _]|(_ & Hu2 & _)]);
        [by left|right; congruence|done..|by rewrite Hc1]. }
  destruct res as [r0|e].
  - simpl. rewrite !fn_lookup_insert. destruct Hcase as [[= ->]|?]; [left; eauto|by right].
  - destruct (phases_error h true c2 w2 e Hp Ho) as [_ Ht]; [by rewrite Hd|].
    by apply calm_untroubled in Hcalm.
Qed.

Lemma second_drive h :
  phases h -> is_Some (outcome h true) \/ unsent (peer h true) = [] ->
  calm (len (record m1) + len (record m2)) (hnet h) ->
  is_Some (outcome (drive_once false h) false).
Proof using Hm1 Hm2 Hread1 Hwrite2 Hread2 Hfin_i Hfin_r Hmode_i Hmode_r.
  intros [Hc Hph] Hsent [Hpos Hlen]. unfold drive_once.
  destruct (outcome h false) as [x|] eqn:Ho; [by rewrite Ho|].
  pose proof (len_nonneg (record m1)).
  assert (exists s' w', drive (peer h false) (hnet h) = (s', w', Ok (Some tr))) as (s' & w' & ->).
  2: { simpl. rewrite fn_lookup_insert. eauto. }
  destruct Hph as [(q & Hcn & _ & Hcw & Hin & Hsw & Hwithin & Hwire & Hwf)|
    [(q & u & _ & _ & _ & Hl & _)|(u & _ & Hl & _)]].
  - assert (unsent (peer h true) = []) as Hu by (destruct Hsent as [[? ?]|?]; congruence).
    rewrite Hu, app_nil_r in Hwire. apply within_len in Hwithin as Hq. rewrite <- Hwire in Hwithin, Hq.
    apply server_answers; [done..|]. split; [done|lia].
  - destruct Hl as [(_ & Hsr & _)|[? _]]; [|congruence]. apply server_flushes; [done..|]. split; [done|lia].
  - destruct Hl as [(_ & Hsr & _)|[? _]]; [|congruence]. apply server_flushes; [done..|]. split; [done|lia].
Qed.

Lemma third_drive h :
  phases h -> is_Some (outcome h false) -> calm (len (record m2)) (hnet h) ->
  is_Some (outcome (drive_once true h) true).
Proof using Hm1 Hm2 Hread1 Hwrite2 Hread2 Hfin_i Hfin_r Hmode_i Hmode_r.
  intros [Hc Hph] [x Hx] [Hpos Hlen]. unfold drive_once.
  destruct (outcome h true) as [y|] eqn:Ho; [by rewrite Ho|].
  destruct Hph as [(q & _ & ? & _)|[(q & u & _ & Hcw & Hwithin & Hl & _ & Hun & Hq)|(u & ? & _)]]; [congruence| |congruence].
  destruct Hl as [(? & _)|(_ & ->)]; [congruence|]. rewrite app_nil_r in Hq. rewrite <- Hq in Hwithin.
  pose proof (within_len _ _ _ Hwithin).
  destruct (client_flushes (peer h true) (hnet h) (len (record m2)))
    as (c1 & w1 & Hd & Hcw1 & Hin1 & Hu1 & Hw1 & Hf1 & Hc1 & [Hpos1 Hlen1]);
    [done|done|apply len_nonneg|rewrite Hun; split; [done|change (len []) with 0; lia]|].
  destruct (client_reads c1 w1) as (c' & w' & Hr); [done| |split; [done|rewrite Hf1; lia]|].
  { destruct Hwithin as (d & ? & ? & ?). exists d. by rewrite Hf1, Hin1. }
  rewrite Hd, Hr. simpl. rewrite fn_lookup_insert. eauto.
Qed.

(** Three drives, each over a network that moves something at every call, complete
    the handshake from wherever it is. *)
Lemma phases_complete h l :
  phases h -> Forall (fun n => 0 < n) l -> len (record m1) + len (record m2) <= len l ->
  let h' := drive_over l true (drive_over l false (drive_over l true h)) in
  phases h' /\ is_Some (outcome h' true) /\ is_Some (outcome h' false).
Proof using Hm1 Hm2 Hread1 Hwrite2 Hread2 Hfin_i Hfin_r Hmode_i Hmode_r.
  intros Hp Hpos Hlen h'. pose proof (len_nonneg (record m1)). pose proof (len_nonneg (record m2)).
  set (with_l := fun h0 => HSys (peer h0) (Net (wire (hnet h0)) (closed (hnet h0)) l) (outcome h0)).
  assert (forall h0, phases h0 -> phases (with_l h0)) as Hwith by done.
  assert (forall h0 k, k <= len l -> calm k (hnet (with_l h0))) as Hcalm by (intros; by split).
  set (h1 := drive_over l true h). set (h2 := drive_over l false h1).
  assert (phases h1) as P1 by (by apply drive_once_phases, Hwith).
  assert (phases h2) as P2 by (by apply drive_once_phases, Hwith).
  assert (phases h') as P3 by (by apply drive_once_phases, Hwith).
  assert (is_Some (outcome h1 true) \/ unsent (peer h1 true) = []) as D1
    by (apply (first_drive (with_l h)); [by apply Hwith|apply Hcalm; lia]).
  assert (is_Some (outcome h2 false)) as D2
    by (apply (second_drive (with_l h1)); [by apply Hwith|done|apply Hcalm; lia]).
  assert (is_Some (outcome h' true)) as D3
    by (apply (third_drive (with_l h2)); [by apply Hwith|done|apply Hcalm; lia]).
  split_and!; [done|done|]. assert (outcome h' false = outcome (with_l h2) false) as ->; [|done].
  apply (drive_once_other true).
Qed.
End run.
End handshake.

(** Both sides as [wrap] leaves them, on an empty network. *)
Definition hstart `{Snow} (c s : PendingHandshake.t) (l : list Z) : hsys :=
  HSys (fun i => if i then c else s) (Net (fun _ => []) (fun _ => false) l) (fun _ => None).

(** C30: A client that knows the server's key and the server complete the
    handshake with a common session.  In every order of their drives and over every
    schedule of the network, two sides that are done hold the two ends of one session
    in both directions and the wires are empty, so that the secured streams start in
    an [initial] state; a drive fails only when the schedule has a call at which the
    network fails, so never because the network is slow; and from every state that
    can be reached, driving the client, the server and the client again, each over a
    network that moves something at every call, completes both sides. *)
Theorem noise_handshake_agrees `{NoiseNK} c s m ic is_ public private l h :
  begun c s m ic is_ public private -> rtc drives (hstart c s l) h ->
  (forall tc ts io io', outcome h true = Some tc -> outcome h false = Some ts ->
     initial (Sys _ (fun i => if i then Wrapped.fresh ic (lower_of true) io tc
                              else Wrapped.fresh is_ (lower_of false) io' ts)
                (hnet h) (fun _ => []) (fun _ => []))) /\
  (forall i p w e, outcome h i = None ->
     PendingHandshake.drive net_table (peer h i) (hnet h) = (p, w, Err e) ->
     e = NoiseError.Io /\ Exists (fun n => n < 0) (schedule (hnet h))) /\
  (forall l', Forall (fun n => 0 < n) l' -> 100 <= len l' ->
     let h' := drive_over l' true (drive_over l' false (drive_over l' true h)) in
     is_Some (outcome h' true) /\ is_Some (outcome h' false)).
Proof.
  intros Hb Hr. apply begun_exchange in Hb as (i & r & i1' & m1' & io1 & io2 & Hx & Hw1 & -> & ->).
  destruct Hx as (i1 & i2 & r1 & r2 & m1 & m2 & ti & tr & Hm1 & Hm2 & Hi1 & Hr1 & Hw2 & Hi2 &
    Hfi & Hfr & Hmi & Hmr & Hs1 & Hs2).
  rewrite Hi1 in Hw1 by done. injection Hw1 as <- <-.
  assert (fits MAX_HANDSHAKE m1) as Hf1 by (unfold fits, MAX_HANDSHAKE; lia).
  assert (fits MAX_HANDSHAKE m2) as Hf2 by (unfold fits, MAX_HANDSHAKE; lia).
  specialize (Hr1 MAX_HANDSHAKE ltac:(done)). specialize (Hw2 MAX_HANDSHAKE ltac:(done)).
  specialize (Hi2 MAX_HANDSHAKE ltac:(done)).
  assert (phases i1 r r2 m1 m2 ti tr h) as Hph.
  { assert (phases i1 r r2 m1 m2 ti tr (hstart
      (PendingHandshake.mk _ ic 1 io1 (Some i1) (record m1) 0 FrameReader.default false)
      (PendingHandshake.mk _ is_ 2 io2 (Some r) [] 0 FrameReader.default true) l)) as Hp0.
    { split; [done|]. left. exists (record m1). pose proof (len_nonneg (record m1)).
      split_and!; try (split; simpl; done); try done.
      exists []. split_and!; [done| |done].
      intros Hn%(f_equal len). rewrite len_record, len_nil in Hn. lia. }
    clear Hs1 Hs2. induction Hr; [done|]. apply IHHr. by eapply phases_drives. }
  split_and!.
  - intros tc ts io io' Htc Hts. destruct Hph as [Hc Hph].
    assert (tc = ti /\ ts = tr /\ forall i, wire (hnet h) i = []) as (-> & -> & Hw).
    { destruct Hph as [(q & ? & _)|[(q & u & ? & _)|(u & Hti & Hl & Hwt & Hwf)]]; [congruence..|].
      destruct Hl as [(? & _)|(Htr & ->)]; [congruence|]. rewrite app_nil_r in Hwf.
      split_and!; [congruence..|]. by intros []. }
    split_and!.
    + intros [|]; simpl; eauto.
    + intros [|]; simpl; done.
    + intros j. simpl. rewrite Hc, Hw. done.
  - intros j p w e Hn Hd. eapply (phases_error i1 i2 r r1 r2 m1 m2 ti tr) in Hd; done.
  - intros l' Hpos Hlen. apply (phases_complete i1 i2 r r1 r2 m1 m2 ti tr); try done.
    rewrite !len_record. lia.
Qed.

(** * A concrete snow

    The laws above have a model: records are the plaintext followed by the
    message number, which the reader checks, and the handshake messages are 48
    bytes. *)
Module ToySnow.
Definition hs : Type := bool * nat.

Definition write (t : Z * Z) (p : bytes) (capacity : Z) : (Z * Z) * result unit bytes :=
  if len p + 16 <=? capacity then ((t.1 + 1, t.2), Ok (p ++ be_bytes 16 t.1)) else (t, Err tt).

Definition read (t : Z * Z) (c : bytes) (capacity : Z) : (Z * Z) * result unit bytes :=
  let n := (length c - 16)%nat in
  if (16 <=? len c) && (Z.of_nat n <=? capacity) && bool_decide (drop n c = be_bytes 16 t.2)
  then ((t.1, t.2 + 1), Ok (take n c)) else (t, Err tt).

#[global] Instance snow : Snow := {|
  snow_error := unit;
  NoiseParams := unit;
  Builder := unit;
  HandshakeState := hs;
  TransportState := Z * Z;
  parse_params _ := Ok tt;
  Builder_new _ := tt;
  Builder_prologue _ b := Ok b;
  Builder_remote_public_key _ b := Ok b;
  Builder_local_private_key _ b := Ok b;
  build_initiator _ := Ok (true, 0%nat);
  build_responder _ := Ok (false, 0%nat);
  hs_write_message h payload capacity := ((h.1, S h.2), Ok (replicate 48 x01));
  hs_read_message h message capacity := ((h.1, S h.2), Ok []);
  is_handshake_finished h := (2 <=? h.2)%nat;
  into_transport_mode _ := Ok (0, 0);
  ts_write_message := write;
  ts_read_message := read;
|}.

Lemma toy_message n p :
  0 <= n -> len p <= u16_max - 16 ->
  let c := p ++ be_bytes 16 n in
  len c = len p + 16 /\
  (forall (a : Z * Z) capacity, a.1 = n -> len c <= capacity ->
     exists a', write a p capacity = (a', Ok c) /\ a'.1 = n + 1 /\ a'.2 = a.2) /\
  (forall (b : Z * Z) capacity, b.2 = n -> len p <= capacity ->
     exists b', read b c capacity = (b', Ok p) /\ b'.2 = n + 1 /\ b'.1 = b.1).
Proof.
  intros Hn Hp c. assert (len c = len p + 16) as Hc by (unfold c; by rewrite len_app, len_be_bytes).
  split_and!; [done|intros [a1 a2] capacity ? ?|intros [b1 b2] capacity ? ?]; simpl in *; subst.
  - unfold write. rewrite (proj2 (Z.leb_le _ _)) by lia. by eexists.
  - unfold read. simpl. assert (length c - 16 = length p)%nat as Hl by (unfold len in *; lia).
    rewrite Hl. unfold c. rewrite drop_app_length, take_app_length, bool_decide_true by done.
    fold c. rewrite !(proj2 (Z.leb_le _ _)) by (unfold len in *; lia). by eexists.
Qed.

#[global] Instance laws : SnowLaws (H := snow).
Proof.
  refine {| Tx := Z; Rx := Z; tx := (fst : @TransportState snow -> Z);
    rx := (snd : @TransportState snow -> Z);
    session := fun n x y => x = n /\ y = n |}.
  intros n x y p [-> ->] Hn Hp. destruct (toy_message n p) as (Hc & Hw & Hr); [lia|done|].
  exists (n + 1), (p ++ be_bytes 16 n), (n + 1). done.
Defined.

#[global] Instance nk : NoiseNK.
Proof.
  refine {| keypair := fun public private => public = private |}.
  intros public private [] [] [] [] i r _ _ _ _ Hi _ Hr. simpl in *. simplify_eq.
  exists (true, 1%nat), (true, 2%nat), (false, 1%nat), (false, 2%nat),
    (replicate 48 x01), (replicate 48 x01), (0, 0), (0, 0).
  split_and!; done.
Defined.
End ToySnow.

(** * The theorems at work *)
Section witnesses.
#[local] Existing Instance ToySnow.snow.
#[local] Existing Instance ToySnow.laws.
#[local] Existing Instance ToySnow.nk.

Definition key : bytes := replicate 32 x07.
Definition toy_module : Noise.t :=
  Noise.mk _ {[1 := RoleKey.Client key; 2 := RoleKey.Server key]} ∅ ∅ 3 1.

Definition toy_client : PendingHandshake.t :=
  PendingHandshake.mk _ 1 1 8 (Some (true, 1%nat)) (record (replicate 48 x01)) 0 FrameReader.default false.
Definition toy_server : PendingHandshake.t :=
  PendingHandshake.mk _ 2 2 8 (Some (false, 0%nat)) [] 0 FrameReader.default true.

Lemma drive_once_drives i h :
  outcome h i = None -> is_ok (PendingHandshake.drive net_table (peer h i) (hnet h)).2 = true ->
  drives h (drive_once i h).
Proof.
  intros Hn Hok. unfold drive_once. rewrite Hn.
  destruct (PendingHandshake.drive net_table (peer h i) (hnet h)) as [[p w] [r|e]] eqn:Ed; [|done].
  by eapply drives_side.
Qed.

(** The client sends in pieces, the server answers, the client reads. *)
Definition toy_run : list bool := [true; true; false; true].
Definition toy_schedule : list Z := [7; 0; 43; 1; 1; 48; 50; 2; 48; 9; 48].
Definition toy_end : hsys := fold_left (fun h i => drive_once i h) toy_run (hstart toy_client toy_server toy_schedule).

Fixpoint run_ok (js : list bool) (h : hsys) : bool :=
  match js with
  | [] => true
  | i :: js =>
      is_none (outcome h i)
      && is_ok (PendingHandshake.drive net_table (peer h i) (hnet h)).2
      && run_ok js (drive_once i h)
  end.

Lemma run_drives js h : run_ok js h = true -> rtc drives h (fold_left (fun h i => drive_once i h) js h).
Proof.
  revert h. induction js as [|i js IH]; intros h; simpl; [constructor|].
  intros [[Hn Hok]%andb_prop Hrest]%andb_prop. eapply rtc_l; [|by apply IH].
  apply drive_once_drives; [by destruct (outcome h i)|done].
Qed.

Lemma toy_reached : rtc drives (hstart toy_client toy_server toy_schedule) toy_end.
Proof. apply run_drives. vm_compute. reflexivity. Qed.

Lemma toy_begun : begun toy_client toy_server toy_module 1 2 key key.
Proof. split_and!; [done..|exists 8, 8; done]. Qed.

Lemma noise_handshake_agrees_witness :
  outcome toy_end true = Some (0, 0) /\ outcome toy_end false = Some (0, 0) /\
  initial (Sys _ (fun i => if i then Wrapped.fresh 1 (lower_of true) 8 (0, 0)
                           else Wrapped.fresh 2 (lower_of false) 8 (0, 0))
             (hnet toy_end) (fun _ => []) (fun _ => [])).
Proof.
  assert (outcome toy_end true = Some (0, 0)) as Ht by (vm_compute; reflexivity).
  assert (outcome toy_end false = Some (0, 0)) as Hf by (vm_compute; reflexivity).
  split_and!; [done..|].
  destruct (noise_handshake_agrees toy_client toy_server toy_module 1 2 key key toy_schedule toy_end
    toy_begun toy_reached) as [Hinit _].
  exact (Hinit (0, 0) (0, 0) 8 8 Ht Hf).
Defined.

(** Side [true] writes, flushes in two pieces and shuts down; side [false] reads
    with a small buffer until the end of the stream. *)
Definition toy_sys : sys :=
  Sys _ (fun i => Wrapped.fresh 1 (lower_of i) 8 (0, 0))
    (Net (fun _ => []) (fun _ => false) [9; 0; 100; 2; 1; 100; 5; 5]) (fun _ => []) (fun _ => []).

Inductive call := CWrite (input : bytes) | CRead (room : Z) | CFlush | CShutdown.

Definition perform (s : sys) (ic : bool * call) : sys :=
  let '(i, c) := ic in
  match c with
  | CWrite input =>
      let '(t, w, r) := Wrapped.write_state net_table (st s i) (below s) input in
      Sys _ (<[i := t]> (st s)) w (<[i := accepted s i ++ taken r input]> (accepted s)) (delivered s)
  | CRead room =>
      let '(t, w, out, r) := Wrapped.read_state net_table (st s i) (below s) room in
      Sys _ (<[i := t]> (st s)) w (accepted s) (<[i := delivered s i ++ out]> (delivered s))
  | CFlush =>
      let '(t, w, r) := Wrapped.flush_state net_table (st s i) (below s) in
      Sys _ (<[i := t]> (st s)) w (accepted s) (delivered s)
  | CShutdown =>
      let '(t, w, r) := Wrapped.shutdown_state net_table (st s i) (below s) in
      Sys _ (<[i := t]> (st s)) w (accepted s) (delivered s)
  end.

Definition permitted (s : sys) (ic : bool * call) : bool :=
  match ic.2 with
  | CWrite _ => negb (closed (below s) ic.1)
  | CRead room => 0 <=? room
  | _ => true
  end.

Fixpoint all_permitted (s : sys) (l : list (bool * call)) : bool :=
  match l with
  | [] => true
  | c :: l => permitted s c && all_permitted (perform s c) l
  end.

Lemma perform_reach l s : all_permitted s l = true -> rtc step s (fold_left perform l s).
Proof.
  revert s. induction l as [|[i c] l IH]; intros s; simpl; [constructor|].
  intros [Hp Hl]%andb_prop. eapply rtc_l; [|by apply IH]. destruct c; simpl in *.
  - destruct (Wrapped.write_state _ _ _ _) as [[t w] r] eqn:E. apply negb_true_iff in Hp.
    eapply step_write; [by left|done].
  - destruct (Wrapped.read_state _ _ _ _) as [[[t w] out] r] eqn:E. unfold permitted in Hp; simpl in Hp; bools. by eapply step_read.
  - destruct (Wrapped.flush_state _ _ _) as [[t w] r] eqn:E. by eapply step_flush.
  - destruct (Wrapped.shutdown_state _ _ _) as [[t w] r] eqn:E. by eapply step_shutdown.
Qed.

Definition toy_calls : list (bool * call) :=
  [(true, CWrite #"attack at dawn"); (true, CFlush); (true, CShutdown);
   (false, CRead 6); (false, CRead 100)].
Definition toy_final : sys := fold_left perform toy_calls toy_sys.

Lemma toy_final_reachable : reachable toy_final.
Proof.
  exists toy_sys. split.
  - split_and!; [intros i; by exists 1, 8, (0, 0)|by intros i|by intros i].
  - apply perform_reach. vm_compute. reflexivity.
Qed.

Lemma noise_transparent_witness :
  delivered toy_final false = #"attack at dawn" /\
  delivered toy_final (negb true) `prefix_of` accepted toy_final true.
Proof.
  split; [vm_compute; reflexivity|].
  apply (noise_transparent toy_final true toy_final_reachable).
Defined.

Lemma noise_eof_complete_witness :
  (Wrapped.read_state net_table (st toy_final false) (below toy_final) 10).2 = SnolIoResult.eof /\
  delivered toy_final false = accepted toy_final (negb false).
Proof.
  assert ((Wrapped.read_state net_table (st toy_final false) (below toy_final) 10).2
    = SnolIoResult.eof) as He by (vm_compute; reflexivity).
  split; [exact He|].
  destruct (Wrapped.read_state net_table (st toy_final false) (below toy_final) 10)
    as [[[t w] out] r] eqn:E. simpl in He. subst r.
  apply (noise_eof_complete toy_final false 10 t w out toy_final_reachable); [lia|exact E].
Defined.

Lemma noise_loops_end_witness :
  read_run (E := unit) (fun w l c => net_read w l (Z.max 0 c)) 2 MAX_HANDSHAKE
    (Net (fun i => if i then record #"hello" else []) (fun _ => false) [1; 1; 9])
    FrameReader.default
    (read_frame_loop (read_fuel FrameReader.default MAX_HANDSHAKE)
       (fun w l c => net_read w l (Z.max 0 c))
       (Net (fun i => if i then record #"hello" else []) (fun _ => false) [1; 1; 9]) 2
       FrameReader.default MAX_HANDSHAKE).
Proof.
  apply (noise_loops_end net_write _ _ 2 [] 0 FrameReader.default MAX_HANDSHAKE net_read_counts).
  unfold MAX_HANDSHAKE, u16_max. lia.
Defined.

Definition toy_busy : Noise.t := Noise.set_pending toy_module {[1 := toy_client]}.

Lemma noise_wrap_foreign_discards_witness :
  exists m', Noise.wrap net_table 48 toy_busy (below toy_sys) 2 1 8 false
      = (m', below toy_sys, None, Status.INVALID) /\
    (false = false -> Noise.PENDING m' !! 1 = None).
Proof.
  apply (noise_wrap_foreign_discards net_table 48 toy_busy (below toy_sys) 2 1 8 false toy_client);
    [lia|reflexivity|reflexivity|simpl; lia].
Defined.

(** A stream below that is at its end. *)
Definition cut_table (io : Z) : SnolByteIoV1.t unit :=
  SnolByteIoV1.mk 48 0 (Some (fun w _ _ => (w, [], SnolIoResult.eof))) None None None None.

Definition cut_stream : Wrapped.t :=
  Wrapped.set_inbound (Wrapped.fresh 1 2 8 (0, 0)) (reader_at #"hello" (take 4 (record #"hello"))).

Lemma noise_truncation_silent_witness :
  Wrapped.read_state cut_table cut_stream tt 10 = (cut_stream, tt, [], SnolIoResult.eof).
Proof.
  apply (noise_truncation_silent cut_table cut_stream tt tt (fun w _ _ => (w, [], SnolIoResult.eof))
    #"hello" (take 4 (record #"hello")) (drop 4 (record #"hello")) 10); try reflexivity; try discriminate.
  split; [reflexivity|discriminate].
Defined.
End witnesses.
