(* ===== verification/Bridge.v ===== *)
(** The pipe between the engine and the SSH worker thread
    (modules/carrier-ssh/src/bridge.rs).

    A [Pipe] is shared by two threads, so a call is not one step: every access to
    the queue, to the [closed] flag or to a waker is an atomic step of its own,
    and the two threads interleave between them.  [Reader.t] and [Writer.t] are the
    points between those accesses inside [Endpoint::poll_read] and
    [Endpoint::poll_write]; [reader_step] and [writer_step] execute the next
    access.  The memory is taken to be sequentially consistent: [ArrayQueue] and
    [AtomicWaker] are, and [closed] is stored with release and loaded with
    acquire.  An [AtomicWaker] keeps the last waker registered; [wake] takes it
    and wakes the task. *)
From Stdlib Require Import Strings.Byte.
From stdpp Require Import relations.
From S2P Require Import Prelude Text.
#[local] Open Scope Z_scope.

(** * The shared pipe *)

(** The task behind a waker: whether its waker is registered, and whether it was
    woken since it registered last. *)
Record waker := Waker { registered : bool; woken : bool }.

Definition register (_ : waker) : waker := Waker true false.
Definition wake (a : waker) : waker := if registered a then Waker false true else a.

Module Pipe.
Record t := mk {
  capacity : nat;
  queue : list bytes;
  closed : bool;
  reader : waker;
  writer : waker;
}.

Definition new (chunks : nat) : t := mk chunks [] false (Waker false false) (Waker false false).

(** [ArrayQueue::pop], [push] and [is_full]. *)
Definition pop (p : t) : t * option bytes :=
  match queue p with
  | [] => (p, None)
  | chunk :: rest => (mk (capacity p) rest (closed p) (reader p) (writer p), Some chunk)
  end.

Definition is_full (p : t) : bool := (capacity p <=? length (queue p))%nat.

Definition push (p : t) (chunk : bytes) : option t :=
  if is_full p then None
  else Some (mk (capacity p) (queue p ++ [chunk]) (closed p) (reader p) (writer p)).

(** The three accesses of [Pipe::close]. *)
Definition store_closed (p : t) : t := mk (capacity p) (queue p) true (reader p) (writer p).
Definition wake_reader (p : t) : t := mk (capacity p) (queue p) (closed p) (wake (reader p)) (writer p).
Definition wake_writer (p : t) : t := mk (capacity p) (queue p) (closed p) (reader p) (wake (writer p)).
Definition register_reader (p : t) : t :=
  mk (capacity p) (queue p) (closed p) (register (reader p)) (writer p).
Definition register_writer (p : t) : t :=
  mk (capacity p) (queue p) (closed p) (reader p) (register (writer p)).
End Pipe.

(** * The two ends of one pipe *)

(** The result of the last [poll_read] and [poll_write]. *)
Inductive read_result := ReadNone | ReadBytes (b : bytes) | ReadEof | ReadPending.
Inductive write_result := WriteNone | WriteCount (n : nat) | BrokenPipe | WritePending.

Module Reader.
(** Where the reading thread is: about to pop, to wake the writer after a pop, to
    load [closed], to register, to pop again, to wake the writer after that, to
    load [closed] again; or closing the pipe when its endpoint is dropped. *)
Inductive t :=
| Idle
| Pop1 (n : nat) | Wake1 (n : nat) | Check1 (n : nat) | Register (n : nat)
| Pop2 (n : nat) | Wake2 (n : nat) | Check2 (n : nat)
| Close1 | Close2 | Close3 | Gone.
End Reader.

Module Writer.
(** Likewise for the writing thread; [dropped] tells a dropped endpoint from one
    that is shut down. *)
Inductive t :=
| Idle
| Check (input : bytes) | Push (input : bytes) | WakeReader (n : nat)
| Register (input : bytes) | Full (input : bytes)
| Close1 (dropped : bool) | Close2 (dropped : bool) | Close3 (dropped : bool) | Gone.
End Writer.

(** The pipe, the reader's [current] chunk, where both threads are and what their
    last calls answered; [sent] and [got] are the bytes that [poll_write]
    accepted and [poll_read] delivered. *)
Record state := State {
  pipe : Pipe.t;
  current : bytes;
  chunk_bytes : nat;
  rpc : Reader.t;
  wpc : Writer.t;
  rresult : read_result;
  wresult : write_result;
  sent : bytes;
  got : bytes;
}.

Definition start (queue_chunks chunk_bytes : nat) : state :=
  State (Pipe.new queue_chunks) [] chunk_bytes Reader.Idle Writer.Idle ReadNone WriteNone [] [].

Definition set_reader (s : state) (p : Pipe.t) (c : bytes) (pc : Reader.t) : state :=
  State p c (chunk_bytes s) pc (wpc s) (rresult s) (wresult s) (sent s) (got s).
Definition end_read (s : state) (p : Pipe.t) (r : read_result) : state :=
  State p (current s) (chunk_bytes s) Reader.Idle (wpc s) r (wresult s) (sent s) (got s).
Definition set_writer (s : state) (p : Pipe.t) (pc : Writer.t) : state :=
  State p (current s) (chunk_bytes s) (rpc s) pc (rresult s) (wresult s) (sent s) (got s).
Definition end_write (s : state) (p : Pipe.t) (r : write_result) : state :=
  State p (current s) (chunk_bytes s) (rpc s) Writer.Idle (rresult s) r (sent s) (got s).

(** The branch of [poll_read] that copies out of [current]; without bytes there
    it goes on with [otherwise]. *)
Definition copy_or (s : state) (p : Pipe.t) (c : bytes) (n : nat) (otherwise : Reader.t) : state :=
  match c with
  | [] => set_reader s p [] otherwise
  | _ =>
      let count := Nat.min n (length c) in
      State p (drop count c) (chunk_bytes s) Reader.Idle (wpc s) (ReadBytes (take count c))
        (wresult s) (sent s) (got s ++ take count c)
  end.

(** The entry of [poll_read]: an empty output, bytes left over, or a pop. *)
Definition enter_read (s : state) (n : nat) : state :=
  match n with
  | O => end_read s (pipe s) (ReadBytes [])
  | _ => copy_or s (pipe s) (current s) n (Reader.Pop1 n)
  end.

Definition reader_step (s : state) : option state :=
  match rpc s with
  | Reader.Idle | Reader.Gone => None
  | Reader.Pop1 n => Some
      (match Pipe.pop (pipe s) with
       | (p, Some chunk) => set_reader s p chunk (Reader.Wake1 n)
       | (p, None) => set_reader s p (current s) (Reader.Check1 n)
       end)
  | Reader.Wake1 n => Some
      (copy_or s (Pipe.wake_writer (pipe s)) (current s) n (Reader.Check1 n))
  | Reader.Check1 n => Some
      (if Pipe.closed (pipe s) then end_read s (pipe s) ReadEof
       else set_reader s (pipe s) (current s) (Reader.Register n))
  | Reader.Register n => Some
      (set_reader s (Pipe.register_reader (pipe s)) (current s) (Reader.Pop2 n))
  | Reader.Pop2 n => Some
      (match Pipe.pop (pipe s) with
       | (p, Some chunk) => set_reader s p chunk (Reader.Wake2 n)
       | (p, None) => set_reader s p (current s) (Reader.Check2 n)
       end)
  | Reader.Wake2 n => Some
      (enter_read (set_reader s (Pipe.wake_writer (pipe s)) (current s) Reader.Idle) n)
  | Reader.Check2 n => Some
      (if Pipe.closed (pipe s) then end_read s (pipe s) ReadEof
       else end_read s (pipe s) ReadPending)
  | Reader.Close1 => Some (set_reader s (Pipe.store_closed (pipe s)) (current s) Reader.Close2)
  | Reader.Close2 => Some (set_reader s (Pipe.wake_reader (pipe s)) (current s) Reader.Close3)
  | Reader.Close3 => Some (set_reader s (Pipe.wake_writer (pipe s)) (current s) Reader.Gone)
  end.

(** The entry of [poll_write]. *)
Definition enter_write (s : state) (input : bytes) : state :=
  match input with
  | [] => end_write s (pipe s) (WriteCount 0)
  | _ => set_writer s (pipe s) (Writer.Check input)
  end.

Definition writer_step (s : state) : option state :=
  match wpc s with
  | Writer.Idle | Writer.Gone => None
  | Writer.Check input => Some
      (if Pipe.closed (pipe s) then end_write s (pipe s) BrokenPipe
       else set_writer s (pipe s) (Writer.Push input))
  | Writer.Push input => Some
      (let count := Nat.min (length input) (chunk_bytes s) in
       match Pipe.push (pipe s) (take count input) with
       | Some p =>
           State p (current s) (chunk_bytes s) (rpc s) (Writer.WakeReader count) (rresult s)
             (wresult s) (sent s ++ take count input) (got s)
       | None => set_writer s (pipe s) (Writer.Register input)
       end)
  | Writer.WakeReader n => Some (end_write s (Pipe.wake_reader (pipe s)) (WriteCount n))
  | Writer.Register input => Some
      (set_writer s (Pipe.register_writer (pipe s)) (Writer.Full input))
  | Writer.Full input => Some
      (if Pipe.is_full (pipe s) then end_write s (pipe s) WritePending
       else enter_write s input)
  | Writer.Close1 dropped => Some (set_writer s (Pipe.store_closed (pipe s)) (Writer.Close2 dropped))
  | Writer.Close2 dropped => Some (set_writer s (Pipe.wake_reader (pipe s)) (Writer.Close3 dropped))
  | Writer.Close3 dropped => Some
      (set_writer s (Pipe.wake_writer (pipe s)) (if dropped then Writer.Gone else Writer.Idle))
  end.

(** The calls a thread may begin when it is in none. *)
Inductive request :=
| PollRead (n : nat) | DropReader | PollWrite (input : bytes) | Shutdown | DropWriter.

Definition begin (s : state) (r : request) : option state :=
  match r, rpc s, wpc s with
  | PollRead n, Reader.Idle, _ => Some (enter_read s n)
  | DropReader, Reader.Idle, _ =>
      Some (set_reader (end_read s (pipe s) ReadNone) (pipe s) (current s) Reader.Close1)
  | PollWrite input, _, Writer.Idle => Some (enter_write s input)
  | Shutdown, _, Writer.Idle =>
      Some (set_writer (end_write s (pipe s) WriteNone) (pipe s) (Writer.Close1 false))
  | DropWriter, _, Writer.Idle =>
      Some (set_writer (end_write s (pipe s) WriteNone) (pipe s) (Writer.Close1 true))
  | _, _, _ => None
  end.

(** An interleaving: which thread moves, or which call begins. *)
Inductive move := Begin (r : request) | ReaderMoves | WriterMoves.

Definition step_move (s : state) (m : move) : option state :=
  match m with
  | Begin r => begin s r
  | ReaderMoves => reader_step s
  | WriterMoves => writer_step s
  end.

Definition step (s s' : state) : Prop := exists m, step_move s m = Some s'.
Definition reachable (chunks chunk : nat) (s : state) : Prop := rtc step (start chunks chunk) s.

Fixpoint run (s : state) (l : list move) : option state :=
  match l with
  | [] => Some s
  | m :: l => s ← step_move s m; run s l
  end.

Lemma run_reachable s l s' : run s l = Some s' -> rtc step s s'.
Proof.
  revert s. induction l as [|m l IH]; simpl; intros s.
  - intros [= ->]. constructor.
  - destruct (step_move s m) as [s1|] eqn:E; [|done]. intros Hr. simpl in Hr.
    eapply rtc_l; [by exists m|by apply IH].
Qed.

(** * The invariant *)

(** The writer is about to wake the reader after a push, or after it closed the
    pipe; the reader is about to wake the writer after a pop. *)
Definition waking_reader (w : Writer.t) : bool :=
  match w with Writer.WakeReader _ => true | _ => false end.
Definition closing (w : Writer.t) : bool :=
  match w with Writer.Close2 _ => true | _ => false end.
Definition waking_writer (r : Reader.t) : bool :=
  match r with Reader.Wake1 _ | Reader.Wake2 _ => true | _ => false end.

(** A reader that sleeps, or is about to, will be woken by what it waits for. *)
Definition reader_ok (s : state) : Prop :=
  let p := pipe s in
  woken (Pipe.reader p) = false ->
  match rpc s with
  | Reader.Pop2 _ => registered (Pipe.reader p) = true
  | Reader.Check2 _ =>
      registered (Pipe.reader p) = true /\ (Pipe.queue p = [] \/ waking_reader (wpc s) = true)
  | Reader.Idle =>
      rresult s = ReadPending ->
      registered (Pipe.reader p) = true /\ (Pipe.queue p = [] \/ waking_reader (wpc s) = true) /\
      (Pipe.closed p = false \/ closing (wpc s) = true)
  | _ => True
  end.

(** A writer that sleeps waits for space, and will be woken when there is some. *)
Definition writer_ok (s : state) : Prop :=
  let p := pipe s in
  woken (Pipe.writer p) = false ->
  match wpc s with
  | Writer.Full _ => registered (Pipe.writer p) = true
  | Writer.Idle =>
      wresult s = WritePending ->
      registered (Pipe.writer p) = true /\
      (Pipe.is_full p = true \/ waking_writer (rpc s) = true)
  | Writer.Close1 _ | Writer.Close2 _ | Writer.Close3 _ => wresult s = WriteNone
  | _ => True
  end.

Definition between_chunks (r : Reader.t) : bool :=
  match r with
  | Reader.Pop1 _ | Reader.Check1 _ | Reader.Register _ | Reader.Pop2 _ | Reader.Check2 _ => true
  | _ => false
  end.

Record inv (s : state) : Prop := {
  inv_bytes : sent s = got s ++ current s ++ concat (Pipe.queue (pipe s));
  inv_capacity : (length (Pipe.queue (pipe s)) <= Pipe.capacity (pipe s))%nat;
  inv_current : between_chunks (rpc s) = true -> current s = [];
  inv_reader : reader_ok s;
  inv_writer : writer_ok s;
}.

Lemma inv_copy s p c n pc :
  sent s = got s ++ c ++ concat (Pipe.queue p) ->
  sent (copy_or s p c n pc)
  = got (copy_or s p c n pc) ++ current (copy_or s p c n pc)
    ++ concat (Pipe.queue (pipe (copy_or s p c n pc))).
Proof.
  intros Hs. destruct c as [|b c]; [done|].
  change (sent s = (got s ++ take (Nat.min n (length (b :: c))) (b :: c))
    ++ drop (Nat.min n (length (b :: c))) (b :: c) ++ concat (Pipe.queue p)).
  rewrite Hs, <- app_assoc. f_equal. by rewrite app_assoc, take_drop.
Qed.

Lemma inv_copy_or s p c n pc :
  sent s = got s ++ c ++ concat (Pipe.queue p) ->
  (length (Pipe.queue p) <= Pipe.capacity p)%nat ->
  (c = [] -> reader_ok (set_reader s p [] pc) /\ writer_ok (set_reader s p [] pc)) ->
  (forall c' r g, r <> ReadPending ->
     writer_ok (State p c' (chunk_bytes s) Reader.Idle (wpc s) r (wresult s) (sent s) g)) ->
  inv (copy_or s p c n pc).
Proof.
  intros Hs Hc Hnil Hw. pose proof (inv_copy s p c n pc Hs) as Hb.
  destruct c as [|b c]; split; try exact Hb; simpl; try done; try (by apply Hnil); try by apply Hw.
Qed.

(** After [wake_writer] the writer is woken if it slept. *)
Lemma writer_ok_woken s c pc r g :
  writer_ok s ->
  writer_ok (State (Pipe.wake_writer (pipe s)) c (chunk_bytes s) pc (wpc s) r (wresult s) (sent s) g).
Proof.
  destruct s as [[cap q cl a [wr ww]] cur cb rp w rres wres snt gt].
  unfold writer_ok, Pipe.wake_writer, wake. simpl. intros Hw. destruct wr; simpl; [done|].
  intros Hn. specialize (Hw Hn). destruct w; try done. intros Hp. by destruct (Hw Hp).
Qed.

(** A pop makes room, and the reader is about to say so. *)
Lemma inv_pop s chunk q pc c :
  inv s -> Pipe.queue (pipe s) = chunk :: q -> current s = [] ->
  waking_writer pc = true -> c = chunk ->
  inv (set_reader s (Pipe.mk (Pipe.capacity (pipe s)) q (Pipe.closed (pipe s))
    (Pipe.reader (pipe s)) (Pipe.writer (pipe s))) c pc).
Proof.
  intros [Hb Hc Hcur Hr Hw] Hq Hnil Hpc ->. rewrite Hq, Hnil in *. simpl in *.
  split; simpl; try done; try lia.
  - by destruct pc.
  - unfold reader_ok. simpl. by destruct pc.
  - unfold writer_ok in *. simpl. intros Hn. specialize (Hw Hn). destruct (wpc s); try done.
    intros Hp. destruct (Hw Hp). auto.
Qed.

(** A step of the reader that is not a pop or a wake leaves the writer alone. *)
Lemma writer_ok_same s p c pc r g :
  writer_ok s -> waking_writer (rpc s) = false ->
  Pipe.writer p = Pipe.writer (pipe s) -> Pipe.is_full p = Pipe.is_full (pipe s) ->
  writer_ok (State p c (chunk_bytes s) pc (wpc s) r (wresult s) (sent s) g).
Proof.
  unfold writer_ok. simpl. intros Hw Hpc -> -> Hn. specialize (Hw Hn). destruct (wpc s); try done.
  intros Hp. destruct (Hw Hp) as [? [?|?]]; [auto|congruence].
Qed.

Lemma inv_reader_step s s' : inv s -> reader_step s = Some s' -> inv s'.
Proof.
  intros Hinv Hs. pose proof Hinv as [Hb Hc Hcur Hr Hw].
  pose proof (writer_ok_woken s) as Hwoken. pose proof (writer_ok_same s) as Hsame.
  unfold reader_step in Hs. unfold reader_ok in Hr.
  destruct (rpc s) eqn:Hpc; try done; injection Hs as <-.
  - unfold Pipe.pop. destruct (Pipe.queue (pipe s)) as [|c q] eqn:Hq; [|apply (inv_pop s c q); auto].
    split; simpl; [by rewrite Hq|by rewrite Hq; simpl; lia|done|done|by apply Hsame].
  - apply inv_copy_or; [done..| |].
    + intros _. split; [done|by apply Hwoken].
    + intros c' r g _. by apply Hwoken.
  - destruct (Pipe.closed (pipe s)); (split; simpl; [done..| |by apply Hsame]); [|done].
    intros ? [=].
  - split; simpl; [done..|by apply Hsame].
  - unfold Pipe.pop. destruct (Pipe.queue (pipe s)) as [|c q] eqn:Hq; [|apply (inv_pop s c q); auto].
    split; simpl; [by rewrite Hq|by rewrite Hq; simpl; lia|done| |by apply Hsame].
    unfold reader_ok. simpl. rewrite Hq. auto.
  - destruct n as [|n].
    + split; simpl; [done..| |by apply Hwoken]. intros ? [=].
    + apply inv_copy_or; [done..| |].
      * intros _. split; [done|by apply (Hwoken [] (Reader.Pop1 (S n)))].
      * intros c' r g _. by apply Hwoken.
  - destruct (Pipe.closed (pipe s)) eqn:Hcl; (split; simpl; [done..| |by apply Hsame]).
    + intros ? [=].
    + unfold reader_ok. simpl. intros Hn _. destruct (Hr Hn). auto.
  - split; simpl; [done..|by apply Hsame].
  - split; simpl; [done..|by apply Hsame].
  - split; simpl; [done..|by apply Hwoken].
Qed.

(** The same for the reader: what the writer's steps leave alone, and what waking
    the reader does. *)
Lemma reader_ok_same s p w r x :
  reader_ok s -> waking_reader (wpc s) = false -> closing (wpc s) = false ->
  Pipe.reader p = Pipe.reader (pipe s) -> Pipe.queue p = Pipe.queue (pipe s) ->
  Pipe.closed p = Pipe.closed (pipe s) \/ closing w = true ->
  reader_ok (State p (current s) (chunk_bytes s) (rpc s) w (rresult s) r x (got s)).
Proof.
  unfold reader_ok. simpl. intros Hr Hw Hc -> -> Hcl Hn. specialize (Hr Hn).
  rewrite Hw, Hc in Hr. destruct (rpc s); try done.
  - intros Hp. destruct (Hr Hp) as (? & [?|?] & [Hf|?]); try done.
    split_and!; auto. destruct Hcl as [->|?]; auto.
  - destruct Hr as (? & [?|?]); auto. done.
Qed.

Lemma reader_ok_woken s w r x :
  reader_ok s ->
  reader_ok (State (Pipe.wake_reader (pipe s)) (current s) (chunk_bytes s) (rpc s) w (rresult s) r x (got s)).
Proof.
  destruct s as [[cap q cl [rr rw] a] cur cb rp w0 rres wres snt gt].
  unfold reader_ok, Pipe.wake_reader, wake. simpl. intros Hr. destruct rr; simpl; [done|].
  intros Hn. specialize (Hr Hn). destruct rp; try done.
  - intros Hp. by destruct (Hr Hp).
  - by destruct Hr.
Qed.

Lemma inv_writer_step s s' : inv s -> writer_step s = Some s' -> inv s'.
Proof.
  intros [Hb Hc Hcur Hr Hw] Hs.
  pose proof (reader_ok_woken s) as Hwoken. pose proof (reader_ok_same s) as Hsame.
  unfold writer_step in Hs. unfold writer_ok in Hw.
  destruct (wpc s) eqn:Hpc; try done; injection Hs as <-.
  - destruct (Pipe.closed (pipe s)) eqn:Hcl; (split; simpl; [done..|by apply Hsame; auto|]); [|done].
    intros ? [=].
  - unfold Pipe.push. destruct (Pipe.is_full (pipe s)) eqn:Hfull.
    + split; simpl; [done..|by apply Hsame; auto|done].
    + split; simpl.
      * rewrite Hb, concat_app, <- !app_assoc. simpl. by rewrite app_nil_r.
      * unfold Pipe.is_full in Hfull. apply Nat.leb_gt in Hfull. rewrite length_app. simpl. lia.
      * done.
      * unfold reader_ok in *. simpl. intros Hn. specialize (Hr Hn). rewrite Hpc in Hr.
        destruct (rpc s); try done; [|by destruct Hr; auto].
        intros Hp. destruct (Hr Hp) as (? & ? & [?|?]); auto.
      * done.
  - split; simpl; [done..|by apply Hwoken|]. intros ? [=].
  - split; simpl; [done..|by apply Hsame; auto|done].
  - destruct (Pipe.is_full (pipe s)) eqn:Hfull.
    + split; simpl; [done..|by apply Hsame; auto|]. unfold writer_ok. simpl. intros Hn _. auto.
    + destruct input as [|b input]; (split; simpl; [done..|by apply Hsame; auto|]); [|done].
      intros ? [=].
  - split; simpl; [done..|by apply Hsame; auto|done].
  - split; simpl; [done..|by apply Hwoken|done].
  - split; simpl; [done..|by apply Hsame; auto|]. unfold writer_ok.
    unfold Pipe.wake_writer, wake. simpl. destruct (registered (Pipe.writer (pipe s))); simpl.
    + by destruct dropped.
    + intros Hn. specialize (Hw Hn). destruct dropped; simpl; [done|congruence].
Qed.

Lemma inv_begin s r s' : inv s -> begin s r = Some s' -> inv s'.
Proof.
  intros [Hb Hc Hcur Hr Hw] Hs. unfold begin in Hs.
  pose proof (writer_ok_same s) as Hsame. pose proof (reader_ok_same s) as Hsame'.
  destruct r; destruct (rpc s) eqn:Hpc; try done.
  1: injection Hs as <-; destruct n as [|n];
    [split; simpl; [done..| |by apply Hsame]; intros ? [=]|].
  1: apply inv_copy_or; [done..| |]; [intros _; split; [done|]|intros c' r g _]; by apply Hsame.
  1: injection Hs as <-; split; simpl; [done..|by apply Hsame].
  all: destruct (wpc s) eqn:Hwpc; try done; injection Hs as <-; try (destruct input as [|b input]);
    (split; simpl; rewrite ?Hpc; [done..| |unfold writer_ok; simpl; done]);
    unfold end_write, set_writer; simpl; rewrite Hpc; by apply Hsame'; auto.
Qed.

Lemma inv_reachable chunks chunk s : reachable chunks chunk s -> inv s.
Proof.
  intros Hr. assert (inv (start chunks chunk)) as Hi.
  { split; simpl; try done; lia. }
  unfold reachable in Hr. induction Hr as [|s0 s1 s2 [m Hm] _ IH]; [done|]. apply IH.
  destruct m; [by eapply inv_begin|by eapply inv_reader_step|by eapply inv_writer_step].
Qed.

(** * What the pipe guarantees *)

(** C13: The pipe is a bounded FIFO under every interleaving of the two threads:
    the bytes accepted by [poll_write] are those delivered by [poll_read], those
    of the chunk being read and those in the queue, in this order, and the queue
    holds at most [queue_chunks] chunks. *)
Theorem bridge_fifo chunks chunk s :
  reachable chunks chunk s ->
  sent s = got s ++ current s ++ concat (Pipe.queue (pipe s)) /\
  (length (Pipe.queue (pipe s)) <= Pipe.capacity (pipe s))%nat.
Proof. intros [Hb Hc _ _ _]%inv_reachable. done. Qed.

(** C32: No wake-up of a reader is lost: whenever [poll_read] has answered pending
    and its task was not woken since, there is nothing in the queue unless the
    writer is just about to wake the reader, and the pipe is open unless the
    writer is just about to wake the reader. *)
Theorem bridge_reader_wakes chunks chunk s :
  reachable chunks chunk s ->
  rpc s = Reader.Idle -> rresult s = ReadPending -> woken (Pipe.reader (pipe s)) = false ->
  registered (Pipe.reader (pipe s)) = true /\
  (Pipe.queue (pipe s) = [] \/ waking_reader (wpc s) = true) /\
  (Pipe.closed (pipe s) = false \/ closing (wpc s) = true).
Proof.
  intros [_ _ _ Hr _]%inv_reachable Hpc Hp Hn. unfold reader_ok in Hr. rewrite Hpc in Hr. auto.
Qed.

(** No wake-up of a writer that waits for space is lost: whenever
    [poll_write] has answered pending and its task was not woken since, the
    queue is full unless the reader is just about to wake the writer. *)
Theorem bridge_writer_wakes chunks chunk s :
  reachable chunks chunk s ->
  wpc s = Writer.Idle -> wresult s = WritePending -> woken (Pipe.writer (pipe s)) = false ->
  registered (Pipe.writer (pipe s)) = true /\
  (Pipe.is_full (pipe s) = true \/ waking_writer (rpc s) = true).
Proof.
  intros [_ _ _ _ Hw]%inv_reachable Hpc Hp Hn. unfold writer_ok in Hw. rewrite Hpc in Hw. auto.
Qed.

(** ** The end of the stream *)

(** The pipe is closed and no push is under way. *)
Definition shut (s : state) : Prop :=
  Pipe.closed (pipe s) = true /\ forall input, wpc s <> Writer.Push input.

(** The reader has looked at the queue since. *)
Definition looked (r : Reader.t) : bool :=
  match r with
  | Reader.Check1 _ | Reader.Register _ | Reader.Pop2 _ | Reader.Check2 _ => true
  | _ => false
  end.

Record drained (s : state) : Prop := {
  drained_shut : shut s;
  drained_looked : looked (rpc s) = true -> Pipe.queue (pipe s) = [];
  drained_eof : rresult s = ReadEof -> rpc s = Reader.Idle -> got s = sent s;
}.

Lemma copy_or_frame s p c n pc :
  pipe (copy_or s p c n pc) = p /\ wpc (copy_or s p c n pc) = wpc s /\
  sent (copy_or s p c n pc) = sent s.
Proof. by destruct c. Qed.

Lemma enter_read_frame s n :
  pipe (enter_read s n) = pipe s /\ wpc (enter_read s n) = wpc s /\ sent (enter_read s n) = sent s.
Proof. destruct n; [done|]. apply copy_or_frame. Qed.

Lemma enter_write_frame s input :
  pipe (enter_write s input) = pipe s /\ sent (enter_write s input) = sent s /\
  forall x, wpc (enter_write s input) <> Writer.Push x.
Proof. destruct input; simpl; split_and!; done. Qed.

(** Once shut, nothing enters the queue. *)
Definition leaves (s s' : state) : Prop :=
  shut s' /\ sent s' = sent s /\
  (Pipe.queue (pipe s') = Pipe.queue (pipe s) \/
   exists c, Pipe.queue (pipe s) = c :: Pipe.queue (pipe s')).

Lemma leaves_frame s s' p :
  shut s -> pipe s' = p -> sent s' = sent s -> (forall x, wpc s' <> Writer.Push x) ->
  Pipe.closed p = true ->
  (Pipe.queue p = Pipe.queue (pipe s) \/ exists c, Pipe.queue (pipe s) = c :: Pipe.queue p) ->
  leaves s s'.
Proof. intros [Hc Hp] <- Hs Hw Hcl Hq. by split_and!. Qed.

Lemma shut_begin s r s' : shut s -> begin s r = Some s' -> leaves s s'.
Proof.
  intros Hs Hb. pose proof Hs as [Hc Hp]. unfold begin in Hb.
  destruct r.
  1, 2: destruct (rpc s); try done; injection Hb as <-.
  3, 4, 5: destruct (rpc s); destruct (wpc s); try done; injection Hb as <-.
  1: destruct (enter_read_frame s n) as (E1 & E2 & E3); rewrite <- E2 in Hp;
    apply (leaves_frame s _ _ Hs E1 E3); auto.
  all: apply (leaves_frame s _ (pipe s)); auto; try apply enter_write_frame; done.
Qed.

Lemma shut_pop s pc pc' :
  shut s ->
  leaves s match Pipe.pop (pipe s) with
           | (p, Some chunk) => set_reader s p chunk pc
           | (p, None) => set_reader s p (current s) pc'
           end.
Proof.
  intros Hs. pose proof Hs as [Hc Hp]. unfold Pipe.pop.
  destruct (Pipe.queue (pipe s)) as [|c q] eqn:Hq; (eapply leaves_frame; [done..|]); simpl; rewrite ?Hq; eauto.
Qed.

Lemma shut_reader_step s s' : shut s -> reader_step s = Some s' -> leaves s s'.
Proof.
  intros Hs Hb. pose proof Hs as [Hc Hp]. unfold reader_step in Hb.
  destruct (rpc s) eqn:Hr; try done; injection Hb as <-; try (by apply shut_pop); rewrite ?Hc;
    try (eapply leaves_frame; [done..|by left]).
  - destruct (copy_or_frame s (Pipe.wake_writer (pipe s)) (current s) n (Reader.Check1 n)) as (E1 & E2 & E3).
    apply (leaves_frame s _ _ Hs E1 E3); [by rewrite E2|done|by left].
  - destruct (enter_read_frame (set_reader s (Pipe.wake_writer (pipe s)) (current s) Reader.Idle) n)
      as (E1 & E2 & E3).
    apply (leaves_frame s _ _ Hs E1 E3); [by rewrite E2|done|by left].
Qed.

Lemma shut_writer_step s s' : shut s -> writer_step s = Some s' -> leaves s s'.
Proof.
  intros Hs Hb. pose proof Hs as [Hc Hp]. unfold writer_step in Hb.
  destruct (wpc s) eqn:Hr; try done; try (by destruct (Hp input)); injection Hb as <-; rewrite ?Hc;
    try (by eapply leaves_frame; simpl; eauto).
  - destruct (Pipe.is_full (pipe s)); [by eapply leaves_frame; simpl; eauto|].
    destruct (enter_write_frame s input) as (E1 & E2 & E3).
    apply (leaves_frame s _ _ Hs E1 E2); auto.
  - eapply leaves_frame; simpl; eauto. by destruct dropped.
Qed.

Lemma shut_step s m s' : shut s -> step_move s m = Some s' -> leaves s s'.
Proof.
  destruct m; simpl; eauto using shut_begin, shut_reader_step, shut_writer_step.
Qed.

(** Chunks are not empty, given that [chunk_bytes] is not 0 (which the options
    of the carrier require). *)
Definition pending_input (w : Writer.t) : option bytes :=
  match w with
  | Writer.Check i | Writer.Push i | Writer.Register i | Writer.Full i => Some i
  | _ => None
  end.

Record full_chunks (s : state) : Prop := {
  fc_chunk : (0 < chunk_bytes s)%nat;
  fc_queue : Forall (fun c => c <> []) (Pipe.queue (pipe s));
  fc_current : waking_writer (rpc s) = true -> current s <> [];
  fc_input : forall i, pending_input (wpc s) = Some i -> i <> [];
}.

Lemma copy_or_shape s p c n pc :
  chunk_bytes (copy_or s p c n pc) = chunk_bytes s /\
  (rpc (copy_or s p c n pc) = Reader.Idle \/ rpc (copy_or s p c n pc) = pc).
Proof. destruct c; simpl; auto. Qed.

Lemma full_chunks_read s p c n pc :
  full_chunks s -> Pipe.queue p = Pipe.queue (pipe s) -> waking_writer pc = false ->
  full_chunks (copy_or s p c n pc).
Proof.
  intros [H1 H2 H3 H4] Hq Hpc. destruct (copy_or_shape s p c n pc) as [E1 E2].
  destruct (copy_or_frame s p c n pc) as (E3 & E4 & _).
  split; rewrite ?E1, ?E3, ?E4, ?Hq; try done. destruct E2 as [->| ->]; [done|congruence].
Qed.

Lemma full_chunks_step s m s' : full_chunks s -> step_move s m = Some s' -> full_chunks s'.
Proof.
  intros Hf Hs. pose proof Hf as [H1 H2 H3 H4]. destruct m as [r| |]; simpl in Hs.
  - unfold begin in Hs. destruct r.
    + destruct (rpc s) eqn:Hr; try done. injection Hs as <-.
      destruct n as [|n]; [by split|by apply full_chunks_read].
    + destruct (rpc s) eqn:Hr; try done. injection Hs as <-. by split.
    + assert (Some (enter_write s input) = Some s') as [= <-]
        by (destruct (rpc s); destruct (wpc s); done).
      destruct input as [|b input]; (split; simpl; [done..|]); [|by intros ? [= <-]].
      assert (wpc s = Writer.Idle) by (destruct (rpc s); destruct (wpc s); done). done.
    + destruct (rpc s) eqn:Hr; destruct (wpc s); try done; injection Hs as <-; split; simpl; rewrite ?Hr; done.
    + destruct (rpc s) eqn:Hr; destruct (wpc s); try done; injection Hs as <-; split; simpl; rewrite ?Hr; done.
  - unfold reader_step in Hs. destruct (rpc s) eqn:Hr; try done; injection Hs as <-;
      try (by split; simpl; rewrite ?Hr); try (by apply full_chunks_read);
      try (destruct (Pipe.closed (pipe s)); by split; simpl; rewrite ?Hr);
      try (destruct n as [|n]; [by split|by apply full_chunks_read]).
    all: unfold Pipe.pop; destruct (Pipe.queue (pipe s)) as [|c q] eqn:Hq; split; simpl; rewrite ?Hq; try done;
      apply Forall_cons_1 in H2 as [? ?]; done.
  - unfold writer_step in Hs. destruct (wpc s) eqn:Hw; try done; injection Hs as <-;
      try (destruct (Pipe.closed (pipe s))); try (destruct (Pipe.is_full (pipe s)) eqn:Hfull);
      try (unfold Pipe.push; rewrite ?Hfull); try (destruct input as [|b input]);
      split; simpl; rewrite ?Hw; try done; try (by destruct dropped); try (by intros ? [= <-]).
    all: try (by destruct (H4 [])).
    all: apply Forall_app; split; [done|]; apply Forall_singleton;
      destruct (chunk_bytes s) eqn:Hcb; [lia|done].
Qed.

Lemma drained_reader_step s s' :
  inv s -> full_chunks s -> drained s -> reader_step s = Some s' -> drained s'.
Proof.
  intros Hi Hf [Hs Hl He] Hstep. destruct (shut_reader_step s s' Hs Hstep) as (Hs' & Hsent & _).
  pose proof Hi as [Hb _ Hcur _ _]. pose proof Hs as [Hcl _]. pose proof Hf as [_ _ Hne _].
  split; [done| |].
  - unfold reader_step in Hstep. destruct (rpc s) eqn:Hr; try done; injection Hstep as <-;
      rewrite ?Hcl; try (simpl; auto; done).
    + unfold Pipe.pop. by destruct (Pipe.queue (pipe s)) eqn:Hq.
    + unfold copy_or. by destruct (current s); [destruct (Hne eq_refl)|].
    + unfold Pipe.pop. by destruct (Pipe.queue (pipe s)) eqn:Hq.
    + destruct n; [done|]. simpl. unfold copy_or. by destruct (current s).
  - unfold reader_step in Hstep. destruct (rpc s) eqn:Hr; try done; injection Hstep as <-;
      rewrite ?Hcl; try (simpl; done).
    + unfold Pipe.pop. by destruct (Pipe.queue (pipe s)) eqn:Hq.
    + unfold copy_or. by destruct (current s).
    + simpl. intros _ _. rewrite Hb, (Hcur eq_refl), (Hl eq_refl). by rewrite app_nil_r.
    + unfold Pipe.pop. by destruct (Pipe.queue (pipe s)) eqn:Hq.
    + destruct n; [done|]. simpl. unfold copy_or. by destruct (current s).
    + simpl. intros _ _. rewrite Hb, (Hcur eq_refl), (Hl eq_refl). by rewrite app_nil_r.
Qed.

Lemma drained_step s m s' :
  inv s -> full_chunks s -> drained s -> step_move s m = Some s' -> drained s'.
Proof.
  intros Hi Hf Hd Hstep. pose proof Hd as [Hs Hl He].
  destruct m as [r| |]; simpl in Hstep; [|by eapply drained_reader_step|].
  - destruct (shut_begin s r s' Hs Hstep) as (Hs' & Hsent & _). split; [done| |];
      unfold begin in Hstep; destruct r.
    1, 6: destruct (rpc s); try done; injection Hstep as <-; destruct n; [done|];
      simpl; unfold copy_or; by destruct (current s).
    1, 5: destruct (rpc s); try done; by injection Hstep as <-.
    all: destruct (rpc s) eqn:Hr; destruct (wpc s); try done; injection Hstep as <-;
      try (destruct input); simpl; rewrite ?Hr; auto.
  - destruct (shut_writer_step s s' Hs Hstep) as (Hs' & Hsent & Hq). pose proof Hs as [Hcl Hp].
    assert (rpc s' = rpc s /\ rresult s' = rresult s /\ got s' = got s /\
      Pipe.queue (pipe s') = Pipe.queue (pipe s)) as (E1 & E2 & E3 & E4).
    { unfold writer_step in Hstep. destruct (wpc s) eqn:Hw; try done; try (by destruct (Hp input));
        injection Hstep as <-; rewrite ?Hcl; try (by split_and!).
      destruct (Pipe.is_full (pipe s)); [by split_and!|by destruct input]. }
    split; [done|by rewrite E1, E4|by rewrite E1, E2, E3, Hsent].
Qed.

(** The end of the stream is exact for a read that begins after the pipe was
    closed: from a state where the pipe is closed, no push is under way and the
    reader is in no call, every later answer of end of stream comes when all
    accepted bytes have been delivered, whatever the interleaving. *)
Theorem bridge_eof_after_close chunks chunk s s' :
  (0 < chunk)%nat -> reachable chunks chunk s ->
  shut s -> rpc s = Reader.Idle -> rresult s <> ReadEof ->
  rtc step s s' -> rpc s' = Reader.Idle -> rresult s' = ReadEof -> got s' = sent s'.
Proof.
  intros Hc Hr Hs Hidle Hne Hss. 
  assert (inv s /\ full_chunks s) as [Hi Hf].
  { split; [by eapply inv_reachable|]. unfold reachable in Hr.
    assert (full_chunks (start chunks chunk)) as H0 by (by split).
    clear -H0 Hr. induction Hr as [|s0 s1 s2 [m Hm] _ IH]; [done|]. by eapply IH, full_chunks_step. }
  assert (drained s) as Hd by (split; [done|by rewrite Hidle|done]).
  clear Hidle Hne Hs Hr. induction Hss as [s|s0 s1 s2 [m Hm] _ IH].
  - destruct Hd. auto.
  - apply IH; [|by eapply full_chunks_step|by eapply drained_step].
    destruct m; [by eapply inv_begin|by eapply inv_reader_step|by eapply inv_writer_step].
Qed.

(** ** Where the threads race *)

(** The reader finds the queue empty, then the writer pushes and closes, then the
    reader finds the pipe closed. *)
Definition lost_bytes_run : list move :=
  [Begin (PollRead 16); ReaderMoves;
   Begin (PollWrite #"data"); WriterMoves; WriterMoves; WriterMoves;
   Begin Shutdown; WriterMoves; WriterMoves; WriterMoves;
   ReaderMoves].

(** A read that is under way when the writer sends its last bytes and shuts
    down can answer end of stream with those bytes still in the queue: the flag
    is loaded after the queue was found empty, and the queue is not looked at
    again. *)
Theorem bridge_eof_race :
  exists s, reachable 2 16 s /\ rresult s = ReadEof /\ rpc s = Reader.Idle /\
    sent s = #"data" /\ got s = [] /\ Pipe.queue (pipe s) = [(#"data")].
Proof.
  destruct (run (start 2 16) lost_bytes_run) as [s|] eqn:E; [|by vm_compute in E].
  exists s. split; [by eapply run_reachable|]. vm_compute in E. injection E as <-. done.
Qed.

(** The writer finds the pipe open and the queue full, then the reader is
    dropped, then the writer registers and goes to sleep. *)
Definition lost_close_run : list move :=
  [Begin (PollWrite #"a"); WriterMoves; WriterMoves; WriterMoves;
   Begin (PollWrite #"b"); WriterMoves; WriterMoves;
   Begin DropReader; ReaderMoves; ReaderMoves; ReaderMoves;
   WriterMoves; WriterMoves].

(** A writer that waits for space while the reader is dropped can sleep
    forever: the flag is not loaded again after the waker is registered, so the
    write answers pending on a closed pipe, its task was not woken, and no thread
    is left to wake it. *)
Theorem bridge_close_race :
  exists s, reachable 1 16 s /\ wresult s = WritePending /\ wpc s = Writer.Idle /\
    Pipe.closed (pipe s) = true /\ woken (Pipe.writer (pipe s)) = false /\
    rpc s = Reader.Gone /\ reader_step s = None.
Proof.
  destruct (run (start 1 16) lost_close_run) as [s|] eqn:E; [|by vm_compute in E].
  exists s. split; [by eapply run_reachable|]. vm_compute in E. injection E as <-. done.
Qed.

(** * The theorems at work *)

(** The state a run ends in. *)
Definition after (chunks chunk : nat) (l : list move) : state :=
  match run (start chunks chunk) l with Some s => s | None => start chunks chunk end.

Lemma after_reachable chunks chunk l : reachable chunks chunk (after chunks chunk l).
Proof.
  unfold after. destruct (run _ l) as [s|] eqn:E; [by eapply run_reachable|constructor].
Qed.

Definition write_run (input : bytes) : list move :=
  [Begin (PollWrite input); WriterMoves; WriterMoves; WriterMoves].

(** Two writes of which the first is cut to four bytes, one short read. *)
Definition fifo_run : list move :=
  write_run #"client" ++ write_run #"nt" ++ [Begin (PollRead 3); ReaderMoves; ReaderMoves].

Lemma bridge_fifo_witness :
  got (after 2 4 fifo_run) = #"cli" /\ sent (after 2 4 fifo_run) = #"client" /\
  (sent (after 2 4 fifo_run) = got (after 2 4 fifo_run) ++ current (after 2 4 fifo_run)
     ++ concat (Pipe.queue (pipe (after 2 4 fifo_run))) /\
   (length (Pipe.queue (pipe (after 2 4 fifo_run))) <= Pipe.capacity (pipe (after 2 4 fifo_run)))%nat).
Proof.
  split; [reflexivity|]. split; [reflexivity|].
  apply (bridge_fifo 2 4 (after 2 4 fifo_run)), after_reachable.
Defined.

(** A read of an empty pipe, and a push whose wake is still to come. *)
Definition sleeping_reader : list move :=
  [Begin (PollRead 3); ReaderMoves; ReaderMoves; ReaderMoves; ReaderMoves; ReaderMoves;
   Begin (PollWrite #"x"); WriterMoves; WriterMoves].

Lemma bridge_reader_wakes_witness :
  Pipe.queue (pipe (after 2 4 sleeping_reader)) <> [] /\
  (registered (Pipe.reader (pipe (after 2 4 sleeping_reader))) = true /\
   (Pipe.queue (pipe (after 2 4 sleeping_reader)) = [] \/
    waking_reader (wpc (after 2 4 sleeping_reader)) = true) /\
   (Pipe.closed (pipe (after 2 4 sleeping_reader)) = false \/
    closing (wpc (after 2 4 sleeping_reader)) = true)).
Proof.
  split; [discriminate|].
  apply (bridge_reader_wakes 2 4 (after 2 4 sleeping_reader)); [apply after_reachable|reflexivity..].
Defined.

(** A write to a full pipe, and a pop whose wake is still to come. *)
Definition sleeping_writer : list move :=
  write_run #"a" ++
  [Begin (PollWrite #"b"); WriterMoves; WriterMoves; WriterMoves; WriterMoves;
   Begin (PollRead 1); ReaderMoves].

Lemma bridge_writer_wakes_witness :
  Pipe.is_full (pipe (after 1 4 sleeping_writer)) = false /\
  (registered (Pipe.writer (pipe (after 1 4 sleeping_writer))) = true /\
   (Pipe.is_full (pipe (after 1 4 sleeping_writer)) = true \/
    waking_writer (rpc (after 1 4 sleeping_writer)) = true)).
Proof.
  split; [reflexivity|].
  apply (bridge_writer_wakes 1 4 (after 1 4 sleeping_writer)); [apply after_reachable|reflexivity..].
Defined.

(** The writer shuts down with a chunk in the queue; two reads. *)
Definition closed_run : list move :=
  write_run #"end" ++ [Begin Shutdown; WriterMoves; WriterMoves; WriterMoves].
Definition reads_run : list move :=
  [Begin (PollRead 8); ReaderMoves; ReaderMoves; Begin (PollRead 8); ReaderMoves; ReaderMoves].

Lemma bridge_eof_after_close_witness :
  rresult (after 2 4 (closed_run ++ reads_run)) = ReadEof /\
  got (after 2 4 (closed_run ++ reads_run)) = sent (after 2 4 (closed_run ++ reads_run)).
Proof.
  split; [reflexivity|].
  apply (bridge_eof_after_close 2 4 (after 2 4 closed_run) (after 2 4 (closed_run ++ reads_run)));
    [lia|apply after_reachable|split; [reflexivity|discriminate]|reflexivity|discriminate| |reflexivity..].
  apply (run_reachable _ reads_run). vm_compute. reflexivity.
Defined.
