(* ===== verification/Socket.v ===== *)
(** Sockets as the adapters and the carriers use them: socket addresses with their
    textual form (core::net), and what a non-blocking stream answers to the calls
    of one poll. *)
From Stdlib Require Import Strings.Byte.
From stdpp Require Import countable.
From S2P Require Import Prelude Text Net.
#[local] Open Scope Z_scope.

#[global] Instance ip_countable : Countable IpAddr.t.
Proof.
  refine (inj_countable'
    (fun a => match a with IpAddr.V4 n => inl n | IpAddr.V6 n => inr n end)
    (fun s => match s with inl n => IpAddr.V4 n | inr n => IpAddr.V6 n end) _).
  by intros [].
Defined.

Module SocketAddr.
Inductive t := V4 (ip port : Z) | V6 (ip port flowinfo scope_id : Z).
#[global] Instance eq_dec : EqDecision t.
Proof. solve_decision. Defined.
#[global] Instance countable : Countable t.
Proof.
  refine (inj_countable'
    (fun a => match a with V4 i p => inl (i, p) | V6 i p f s => inr (i, p, f, s) end)
    (fun s => match s with inl (i, p) => V4 i p | inr (i, p, f, s) => V6 i p f s end) _).
  by intros [].
Defined.

Definition new (ip : IpAddr.t) (port : Z) : t :=
  match ip with IpAddr.V4 n => V4 n port | IpAddr.V6 n => V6 n port 0 0 end.

Definition ip (a : t) : IpAddr.t :=
  match a with V4 i _ => IpAddr.V4 i | V6 i _ _ _ => IpAddr.V6 i end.

Definition port (a : t) : Z := match a with V4 _ p | V6 _ p _ _ => p end.

Definition is_ipv4 (a : t) : bool := match a with V4 _ _ => true | V6 _ _ _ _ => false end.
End SocketAddr.

(** A decimal number of any length, as [read_number(10, None, true)] has it. *)
Definition read_unbounded (max : Z) (p : str) : option (Z * str) :=
  read_number 10 max (length p) true p.

Definition read_port (p : str) : option (Z * str) :=
  p ← read_given_char ":"%byte p; read_unbounded u16_max p.

Definition read_scope_id (p : str) : option (Z * str) :=
  p ← read_given_char "%"%byte p; read_unbounded u32_max p.

Definition read_socket_addr_v4 (p : str) : option (SocketAddr.t * str) :=
  '(ip, p) ← read_ipv4_addr p;
  '(port, p) ← read_port p;
  Some (SocketAddr.V4 ip port, p).

Definition read_socket_addr_v6 (p : str) : option (SocketAddr.t * str) :=
  p ← read_given_char "["%byte p;
  '(ip, p) ← read_ipv6_addr p;
  let '(scope_id, p) := match read_scope_id p with Some r => r | None => (0, p) end in
  p ← read_given_char "]"%byte p;
  '(port, p) ← read_port p;
  Some (SocketAddr.V6 ip port 0 scope_id, p).

(** [str::parse::<SocketAddr>()]. *)
Definition parse_socket_addr (p : str) : option SocketAddr.t :=
  match (match read_socket_addr_v4 p with Some r => Some r | None => read_socket_addr_v6 p end) with
  | Some (a, []) => Some a
  | _ => None
  end.

Example parse_socket_v4 : parse_socket_addr #"127.0.0.1:1080" = Some (SocketAddr.V4 0x7f000001 1080).
Proof. reflexivity. Qed.
Example parse_socket_v6 : parse_socket_addr #"[::1]:443" = Some (SocketAddr.V6 1 443 0 0).
Proof. reflexivity. Qed.
Example parse_socket_scope : parse_socket_addr #"[fe80::1%3]:80" = Some (SocketAddr.V6 (0xfe80 * 2 ^ 112 + 1) 80 0 3).
Proof. reflexivity. Qed.
Example parse_socket_big_port : parse_socket_addr #"1.2.3.4:65536" = None.
Proof. reflexivity. Qed.

(** [str::parse::<Ipv4Addr>()] and [str::parse::<Ipv6Addr>()]. *)
Definition parse_ipv4 (p : str) : option Z :=
  match read_ipv4_addr p with Some (v, []) => Some v | _ => None end.
Definition parse_ipv6 (p : str) : option Z :=
  match read_ipv6_addr p with Some (v, []) => Some v | _ => None end.

(** [octets]. *)
Definition octets (a : IpAddr.t) : bytes :=
  match a with IpAddr.V4 n => be_bytes 4 n | IpAddr.V6 n => be_bytes 16 n end.

(** * The order of addresses: IPv4 before IPv6, then by the fields *)

Definition lex (l k : list Z) : bool :=
  (fix go l k := match l, k with
   | x :: l, y :: k => if x =? y then go l k else x <? y
   | _, _ => true
   end) l k.

Definition addr_key (a : SocketAddr.t) : list Z :=
  match a with
  | SocketAddr.V4 i p => [4; i; p]
  | SocketAddr.V6 i p f s => [6; i; p; f; s]
  end.
Definition addr_le (a b : SocketAddr.t) : bool := lex (addr_key a) (addr_key b).

(** [sort_unstable] and [dedup]. *)
Fixpoint insert_sorted (a : SocketAddr.t) (l : list SocketAddr.t) : list SocketAddr.t :=
  match l with
  | [] => [a]
  | b :: k => if addr_le a b then a :: l else b :: insert_sorted a k
  end.
Definition sort_addrs (l : list SocketAddr.t) : list SocketAddr.t := foldr insert_sorted [] l.

Fixpoint dedup (l : list SocketAddr.t) : list SocketAddr.t :=
  match l with
  | [] => []
  | a :: k =>
      match dedup k with
      | b :: m => if bool_decide (a = b) then b :: m else a :: b :: m
      | [] => [a]
      end
  end.

Lemma elem_insert_sorted x a l : x ∈ insert_sorted a l <-> x = a \/ x ∈ l.
Proof.
  induction l as [|b l IH]; simpl.
  - rewrite elem_of_cons. set_solver.
  - case_if; rewrite !elem_of_cons; [|rewrite IH]; tauto.
Qed.

Lemma elem_sort_addrs x l : x ∈ sort_addrs l <-> x ∈ l.
Proof.
  unfold sort_addrs. induction l as [|a l IH]; simpl; [done|].
  rewrite elem_insert_sorted, elem_of_cons, IH. done.
Qed.

Lemma elem_dedup x l : x ∈ dedup l <-> x ∈ l.
Proof.
  induction l as [|a l IH]; simpl; [done|]. rewrite elem_of_cons, <- IH.
  destruct (dedup l) as [|b m]; [rewrite elem_of_cons; done|].
  case_bool_decide as E; rewrite !elem_of_cons; [subst; tauto|tauto].
Qed.

Lemma length_dedup l : (length (dedup l) <= length l)%nat.
Proof.
  induction l as [|a l IH]; simpl; [lia|]. destruct (dedup l); simpl in *; [lia|].
  case_bool_decide; simpl; lia.
Qed.

Lemma length_sort_addrs l : length (sort_addrs l) = length l.
Proof.
  unfold sort_addrs. induction l as [|a l IH]; simpl; [done|]. rewrite <- IH.
  generalize (foldr insert_sorted [] l). intros k. induction k as [|b k IHk]; simpl; [done|].
  case_if; simpl; lia.
Qed.

(** * Non-blocking streams

    One poll of a stream makes several calls; the answers to them are a list, and
    a stream that has no more of them would block. *)
Inductive read_answer := Data (b : bytes) | ReadBlocks | ReadFails.
Inductive write_answer := Wrote (n : Z) | WriteBlocks | WriteFails.

(** [map_nonblocking]; [E] is [io::Error] without the kind [WouldBlock]. *)
Inductive io_result (E A : Type) := Done (a : A) | WouldBlock | Failed (e : E).
Arguments Done {E A} _.
Arguments WouldBlock {E A}.
Arguments Failed {E A} _.

Definition map_nonblocking {E A} (r : io_result E A) : poll (result E A) :=
  match r with
  | WouldBlock => Pending
  | Done a => Ready (Ok a)
  | Failed e => Ready (Err e)
  end.

(** The loop that writes [b] from [offset] on: the answers left, the offset it
    reached, and whether all is written; [false] means it would block. *)
Fixpoint write_out (b : bytes) (offset : Z) (answers : list write_answer)
    : list write_answer * Z * result unit bool :=
  if offset <? len b then
    match answers with
    | [] | WriteBlocks :: _ => (drop 1 answers, offset, Ok false)
    | WriteFails :: rest => (rest, offset, Err tt)
    | Wrote n :: rest =>
        if n =? 0 then (rest, offset, Err tt) else write_out b (offset + n) rest
    end
  else (answers, offset, Ok true).

(** A write takes something of what it is offered, and no more. *)
Fixpoint writes_ok (b : bytes) (offset : Z) (answers : list write_answer) : Prop :=
  match answers with
  | Wrote n :: rest =>
      offset < len b -> 0 <= n <= len b - offset /\ writes_ok b (offset + n) rest
  | _ => True
  end.

Lemma write_out_spec b offset answers rest offset' r :
  0 <= offset <= len b -> writes_ok b offset answers ->
  write_out b offset answers = (rest, offset', r) ->
  offset <= offset' <= len b /\ (r = Ok true -> offset' = len b) /\ (r = Ok false -> offset' < len b).
Proof.
  revert offset. induction answers as [|a answers IH]; intros offset Ho Hok; simpl.
  - case_if; intros [= <- <- <-]; split_and!; try done; try lia; by intros [=].
  - case_if; [|intros [= <- <- <-]; split_and!; done || lia].
    destruct a as [n| |]; [|intros [= <- <- <-]; split_and!; done || lia..].
    simpl in Hok. destruct Hok as [Hn Hok]; [done|]. case_if; [intros [= <- <- <-]; split_and!; done || lia|].
    intros Hw. apply IH in Hw as (? & ? & ?); [|lia|done]. split_and!; try done; lia.
Qed.
