(* ===== verification/HttpConnect.v ===== *)
(** adapter-http-connect (modules/adapter-http-connect/src/lib.rs): an HTTP/1.1
    proxy that knows the CONNECT method.

    The listener, the client's stream and the pumps of the SDK are the
    environment of one poll ([Env]): which connections arrive, what each stream
    answers to the reads and writes made on it, what each pump reports.  A stream
    is known by a number. *)
From Stdlib Require Import Strings.Byte.
From S2P Require Import Prelude Text Net Admin Abi Socket.
#[local] Open Scope Z_scope.

Definition CRLF : bytes := [x0d; x0a].

Module Host.
Inductive t := Ipv4 (address : Z) | Ipv6 (address : Z) | Domain (name : str).
#[global] Instance eq_dec : EqDecision t.
Proof. solve_decision. Defined.
End Host.

Module ParseError.
Inductive t := Incomplete | HeaderTooLarge | Method | Authority | Protocol.
#[global] Instance eq_dec : EqDecision t.
Proof. solve_decision. Defined.
End ParseError.

(** [ConnectRequest], and [OwnedRequest] with the same fields. *)
Module ConnectRequest.
Record t := mk { host : Host.t; port : Z; trailing : bytes }.
End ConnectRequest.

Definition valid_domain (domain : str) : bool :=
  negb (bool_decide (domain = [])) && (len domain <=? 253) && is_ascii domain
  && forallb valid_label (split_byte "."%byte domain).

Definition parse_host_port (authority : str) : result ParseError.t (Host.t * str) :=
  match strip_prefix authority #"[" with
  | Some rest =>
      close ← ok_or (position rest #"]") ParseError.Authority;
      if negb (bool_decide (rest !! (close + 1)%nat = Some ":"%byte)) then Err ParseError.Authority
      else
        address ← ok_or (parse_ipv6 (take close rest)) ParseError.Authority;
        Ok (Host.Ipv6 address, drop (close + 2) rest)
  | None =>
      '(name, port) ← ok_or (rsplit_once ":"%byte authority) ParseError.Authority;
      match parse_ipv4 name with
      | Some address => Ok (Host.Ipv4 address, port)
      | None =>
          if valid_domain name then Ok (Host.Domain name, port) else Err ParseError.Authority
      end
  end.

Definition parse_authority (authority : str) : result ParseError.t (Host.t * Z) :=
  '(host, port) ← parse_host_port authority;
  port ← ok_or (parse_uint u16_max port) ParseError.Authority;
  if port =? 0 then Err ParseError.Authority else Ok (host, port).

(** The request line. *)
Definition parse_line (line : str) : result ParseError.t (Host.t * Z) :=
  match split_byte " "%byte line with
  | method :: parts =>
      if negb (bool_decide (method = #"CONNECT")) then Err ParseError.Method
      else match parts with
      | [] => Err ParseError.Authority
      | authority :: parts =>
          match parts with
          | [version] =>
              if bool_decide (version = #"HTTP/1.1") then parse_authority authority
              else Err ParseError.Protocol
          | _ => Err ParseError.Protocol
          end
      end
  | [] => Err ParseError.Method
  end.

Definition parse_connect (input : bytes) (max_header_bytes : Z)
    : result ParseError.t ConnectRequest.t :=
  end_ ← ok_or ((fun offset => (offset + 4)%nat) <$> position input (CRLF ++ CRLF))
    (if max_header_bytes <=? len input then ParseError.HeaderTooLarge else ParseError.Incomplete);
  if max_header_bytes <? Z.of_nat end_ then Err ParseError.HeaderTooLarge
  else
    header ← ok_or (from_utf8 (take end_ input)) ParseError.Protocol;
    if contains header (CRLF ++ #" ") || contains header (CRLF ++ [x09]) then Err ParseError.Protocol
    else
      line ← ok_or (head (split_str CRLF header)) ParseError.Protocol;
      '(host, port) ← parse_line line;
      Ok (ConnectRequest.mk host port (drop end_ input)).

Module Options.
Record t := mk { listen : str; max_connections : Z; max_header_bytes : Z }.
End Options.

(** The messages of [parse_options]. *)
Inductive options_error := NotUtf8 | BadToml | Inconsistent.

Definition parse_options `{Toml Options.t} (config : bytes) : result options_error Options.t :=
  text ← ok_or (from_utf8 config) NotUtf8;
  options ← ok_or (toml_from_str text) BadToml;
  if is_none (parse_socket_addr (Options.listen options)) || (Options.max_connections options =? 0)
     || (Options.max_header_bytes options <? 64)
  then Err Inconsistent
  else Ok options.

(** * Clients *)

Module PendingClient.
Record t := mk { stream : Z; input : bytes }.

(** The reads of [poll], up to the one that would block. *)
Fixpoint read_input (input : bytes) (limit : Z) (answers : list read_answer)
    : bytes * result ParseError.t unit :=
  match answers with
  | [] | ReadBlocks :: _ => (input, Ok tt)
  | ReadFails :: _ => (input, Err ParseError.Protocol)
  | Data b :: answers =>
      if bool_decide (b = []) then (input, Err ParseError.Protocol)
      else if limit <? saturating_add usize_max (len input) (len b)
      then (input, Err ParseError.HeaderTooLarge)
      else read_input (input ++ b) limit answers
  end.

Definition poll (c : t) (limit : Z) (answers : list read_answer)
    : t * result ParseError.t (option ConnectRequest.t) :=
  let '(input, r) := read_input (input c) limit answers in
  let c := mk (stream c) input in
  match r with
  | Err e => (c, Err e)
  | Ok _ =>
      match parse_connect input limit with
      | Ok request => (c, Ok (Some request))
      | Err ParseError.Incomplete => (c, Ok None)
      | Err e => (c, Err e)
      end
  end.
End PendingClient.

(** [ClientIo]: what was read beyond the request comes before the stream. *)
Module ClientIo.
Record t := mk { stream : Z; prefix : bytes }.

Definition poll_read {E} (c : t) (room : Z) (answer : io_result E bytes)
    : t * poll (result E bytes) :=
  if negb (bool_decide (prefix c = [])) then
    let count := Z.min room (len (prefix c)) in
    (mk (stream c) (drop (Z.to_nat count) (prefix c)),
     Ready (Ok (take (Z.to_nat count) (prefix c))))
  else (c, map_nonblocking answer).
End ClientIo.

(** What a pump reports: the end of its direction, or that it goes on. *)
Definition pump_answer := poll (result unit bool).

Module ClientFlow.
Record t := mk {
  client : ClientIo.t;
  address : Host.t;
  port : Z;
  announced : bool;
  stack : option Z;
  response : bytes;
  response_offset : Z;
  accepted : option bool;
}.

Definition new (c : PendingClient.t) (r : ConnectRequest.t) : t :=
  mk (ClientIo.mk (PendingClient.stream c) (ConnectRequest.trailing r))
    (ConnectRequest.host r) (ConnectRequest.port r) false None [] 0 None.

Definition set_offset (f : t) (n : Z) : t :=
  mk (client f) (address f) (port f) (announced f) (stack f) (response f) n (accepted f).

(** The address the flow is announced with: its type and its bytes. *)
Definition address_bytes (f : t) : bytes :=
  match address f with
  | Host.Ipv4 a => octets (IpAddr.V4 a)
  | Host.Ipv6 a => octets (IpAddr.V6 a)
  | Host.Domain name => name
  end.

(** The end of [poll]: both pumps run, and the flow is over when both
    directions are. *)
Definition both (upload download : pump_answer) : poll (result unit bool) :=
  match upload, download with
  | Ready (Ok u), Ready (Ok d) => Ready (Ok (u && d))
  | Ready (Err e), _ | _, Ready (Err e) => Ready (Err e)
  | _, _ => Pending
  end.

(** The bytes the upload takes of the prefix are gone. *)
Definition take_prefix (f : t) (n : nat) : t :=
  mk (ClientIo.mk (ClientIo.stream (client f)) (drop n (ClientIo.prefix (client f))))
    (address f) (port f) (announced f) (stack f) (response f) (response_offset f) (accepted f).

(** [poll]; the second result says whether the pumps ran.  [upload] is given with
    the number of bytes it reads from the prefix of the client. *)
Definition poll (f : t) (writes : list write_answer) (upload : nat * pump_answer)
    (download : pump_answer) : t * bool * poll (result unit bool) :=
  let '(_, offset, r) := write_out (response f) (response_offset f) writes in
  let f := set_offset f offset in
  match r with
  | Err _ => (f, false, Ready (Err tt))
  | Ok false => (f, false, Pending)
  | Ok true =>
      if bool_decide (accepted f = Some false) then (f, false, Ready (Ok true))
      else if negb (bool_decide (accepted f = Some true)) then (f, false, Pending)
      else match stack f with
      | None => (f, false, Pending)
      | Some _ => (take_prefix f upload.1, true, both upload.2 download)
      end
  end.
End ClientFlow.

(** * The instance *)

Module State.
Record t := mk {
  options : Options.t;
  pending : list PendingClient.t;
  flows : gmap Z ClientFlow.t;
  next_flow : Z;
}.
End State.

(** A connection that [accept] gives: its stream, and whether it can be made
    non-blocking. *)
Inductive accept_answer := Accepted (stream : Z) (nonblocking : bool) | AcceptBlocks | AcceptFails.

Record Env := mkEnv {
  accepts : list accept_answer;
  reads : Z -> list read_answer;
  writes : Z -> list write_answer;
  uploads : Z -> nat * pump_answer;
  downloads : Z -> pump_answer;
  (** [Pump::new] gives both pumps. *)
  pumps : bool;
}.

Section instance.
Context `{HashOrder}.

(** The accept loop. *)
Fixpoint accept_clients (max : Z) (pending : list PendingClient.t) (flows : Z)
    (answers : list accept_answer) : list PendingClient.t :=
  if len pending + flows <? max then
    match answers with
    | Accepted stream true :: answers =>
        accept_clients max (pending ++ [PendingClient.mk stream []]) flows answers
    | Accepted _ false :: answers => accept_clients max pending flows answers
    | _ => pending
    end
  else pending.

(** One pending client: it stays, it becomes a flow, or it is dropped.  The
    response to a bad request is written to the stream at once. *)
Definition poll_client (e : Env) (limit : Z) (acc : list PendingClient.t * gmap Z ClientFlow.t * Z)
    (c : PendingClient.t) : list PendingClient.t * gmap Z ClientFlow.t * Z :=
  let '(pending, flows, next_flow) := acc in
  match PendingClient.poll c limit (reads e (PendingClient.stream c)) with
  | (c, Ok (Some request)) =>
      match checked_add u64_max next_flow 1 with
      | None => (pending, flows, next_flow)
      | Some next =>
          (pending, if pumps e then <[next_flow := ClientFlow.new c request]> flows else flows, next)
      end
  | (c, Ok None) => (pending ++ [c], flows, next_flow)
  | (_, Err _) => (pending, flows, next_flow)
  end.

(** The flows after one poll of each, without the ones that ended. *)
Definition poll_flow (e : Env) (handle : Z) (f : ClientFlow.t) : option ClientFlow.t :=
  match ClientFlow.poll f (writes e (ClientIo.stream (ClientFlow.client f)))
          (uploads e handle) (downloads e handle) with
  | (f, _, Ready (Ok true)) | (f, _, Ready (Err _)) => None
  | (f, _, _) => Some f
  end.

Definition poll_state (s : State.t) (e : Env) : State.t :=
  let o := State.options s in
  let pending := accept_clients (Options.max_connections o) (State.pending s)
    (Z.of_nat (size (State.flows s))) (accepts e) in
  let '(pending, flows, next_flow) :=
    fold_left (poll_client e (Options.max_header_bytes o)) pending
      ([], State.flows s, State.next_flow s) in
  State.mk o pending (map_imap (poll_flow e) flows) next_flow.

(** [accept]: the flow it announces, with its address and port. *)
Definition set_announced (f : ClientFlow.t) : ClientFlow.t :=
  ClientFlow.mk (ClientFlow.client f) (ClientFlow.address f) (ClientFlow.port f) true
    (ClientFlow.stack f) (ClientFlow.response f) (ClientFlow.response_offset f)
    (ClientFlow.accepted f).

Definition unannounced (s : State.t) : option (Z * ClientFlow.t) :=
  head (filter (fun '(_, f) => ClientFlow.announced f = false)
          (hash_order (map_to_list (State.flows s)))).

Definition accept (s : State.t) (e : Env) : State.t * option (Z * Host.t * Z) * Status.t :=
  let s := poll_state s e in
  match unannounced s with
  | None => (s, None, Status.PENDING)
  | Some (handle, f) =>
      (State.mk (State.options s) (State.pending s)
         (<[handle := set_announced f]> (State.flows s)) (State.next_flow s),
       Some (handle, ClientFlow.address f, ClientFlow.port f), Status.OK)
  end.

Definition set_flow (s : State.t) (handle : Z) (f : ClientFlow.t) : State.t :=
  State.mk (State.options s) (State.pending s) (<[handle := f]> (State.flows s)) (State.next_flow s).

(** [attach]; [stack_socket] is what [ForeignByteIo::from_raw] makes of the
    stack's socket. *)
Definition attach (s : State.t) (flow : Z) (stack_socket : option Z) : State.t * Status.t :=
  match stack_socket, State.flows s !! flow with
  | None, _ | _, None => (s, Status.INVALID)
  | Some stack_socket, Some f =>
      if is_some (ClientFlow.stack f) then (s, Status.INVALID)
      else
        (set_flow s flow
           (ClientFlow.mk (ClientFlow.client f) (ClientFlow.address f) (ClientFlow.port f)
              (ClientFlow.announced f) (Some stack_socket) (ClientFlow.response f)
              (ClientFlow.response_offset f) (ClientFlow.accepted f)), Status.OK)
  end.

(** The response to a status. *)
Definition response_of (status : Status.t) : bytes :=
  match status with
  | Status.OK => #"HTTP/1.1 200 Connection Established"
  | Status.DENIED => #"HTTP/1.1 403 Forbidden" ++ CRLF ++ #"Connection: close"
  | Status.UNSUPPORTED => #"HTTP/1.1 501 Not Implemented" ++ CRLF ++ #"Connection: close"
  | Status.IO => #"HTTP/1.1 502 Bad Gateway" ++ CRLF ++ #"Connection: close"
  | Status.RESOURCE => #"HTTP/1.1 503 Service Unavailable" ++ CRLF ++ #"Connection: close"
  | _ => #"HTTP/1.1 500 Internal Server Error" ++ CRLF ++ #"Connection: close"
  end ++ CRLF ++ CRLF.

Definition complete (s : State.t) (flow : Z) (status : Status.t) (reason_length : Z)
    : State.t * Status.t :=
  if 256 <? reason_length then (s, Status.INVALID)
  else match State.flows s !! flow with
  | None => (s, Status.INVALID)
  | Some f =>
      (set_flow s flow
         (ClientFlow.mk (ClientFlow.client f) (ClientFlow.address f) (ClientFlow.port f)
            (ClientFlow.announced f) (ClientFlow.stack f) (response_of status) 0
            (Some (bool_decide (status = Status.OK)))), Status.OK)
  end.

Definition close_flow (s : State.t) (flow : Z) : State.t * Status.t :=
  match State.flows s !! flow with
  | None => (s, Status.INVALID)
  | Some _ =>
      (State.mk (State.options s) (State.pending s) (delete flow (State.flows s))
         (State.next_flow s), Status.OK)
  end.

(** [initialize], given that the listener could be bound. *)
Definition initialize `{Toml Options.t} (config : bytes) (bound : bool) : result Status.t State.t :=
  options ← map_err (fun _ => Status.INVALID) (parse_options config);
  if bound then Ok (State.mk options [] ∅ 1) else Err Status.IO.

(** [STATES]. *)
Definition states := gmap Z State.t.

Definition on_instance (m : states) (instance : Z) (f : State.t -> State.t * Status.t)
    : states * Status.t :=
  match m !! instance with
  | None => (m, Status.INVALID)
  | Some s => let '(s, status) := f s in (<[instance := s]> m, status)
  end.

Definition poll_instance (m : states) (instance : Z) (e : Env) : states * Status.t :=
  on_instance m instance (fun s => (poll_state s e, Status.PENDING)).

Definition shutdown_instance (m : states) (instance : Z) : states * Status.t :=
  match m !! instance with
  | None => (m, Status.INVALID)
  | Some _ => (delete instance m, Status.OK)
  end.

Definition destroy_instance (m : states) (instance : Z) : states := delete instance m.
End instance.

(** * The parser *)

Definition with_trailing (r : ConnectRequest.t) (more : bytes) : ConnectRequest.t :=
  ConnectRequest.mk (ConnectRequest.host r) (ConnectRequest.port r) (ConnectRequest.trailing r ++ more).

(** The parser past the end of the header, which only looks at the header. *)
Definition parse_header (header : bytes) (trailing : bytes) : result ParseError.t ConnectRequest.t :=
  header ← ok_or (from_utf8 header) ParseError.Protocol;
  if contains header (CRLF ++ #" ") || contains header (CRLF ++ [x09]) then Err ParseError.Protocol
  else
    line ← ok_or (head (split_str CRLF header)) ParseError.Protocol;
    '(host, port) ← parse_line line;
    Ok (ConnectRequest.mk host port trailing).

Lemma parse_connect_end input limit n :
  position input (CRLF ++ CRLF) = Some n ->
  parse_connect input limit
  = if limit <? Z.of_nat (n + 4) then Err ParseError.HeaderTooLarge
    else parse_header (take (n + 4) input) (drop (n + 4) input).
Proof. intros Hn. unfold parse_connect. rewrite Hn. done. Qed.

Lemma parse_connect_no_end input limit :
  position input (CRLF ++ CRLF) = None ->
  parse_connect input limit
  = Err (if limit <=? len input then ParseError.HeaderTooLarge else ParseError.Incomplete).
Proof. intros Hn. unfold parse_connect. by rewrite Hn. Qed.

Lemma parse_header_trailing h t more :
  parse_header h (t ++ more)
  = match parse_header h t with Ok r => Ok (with_trailing r more) | Err e => Err e end.
Proof.
  unfold parse_header. destruct (from_utf8 h); [|done]. simpl.
  case_if; [done|]. destruct (head _); [|done]. simpl. destruct (parse_line _) as [[]|]; done.
Qed.

Lemma parse_authority_error a e : parse_authority a = Err e -> e = ParseError.Authority.
Proof.
  unfold parse_authority, parse_host_port. destruct (strip_prefix a _) as [rest|].
  - destruct (position rest _) as [close|]; simpl; [|by intros [= <-]].
    destruct (negb _); simpl; [by intros [= <-]|].
    destruct (parse_ipv6 _) as [ip|]; simpl; [|by intros [= <-]].
    destruct (parse_uint _ _) as [p|]; simpl; [|by intros [= <-]].
    destruct (p =? 0); [by intros [= <-]|done].
  - destruct (rsplit_once _ a) as [[name port]|]; simpl; [|by intros [= <-]].
    destruct (parse_ipv4 name) as [ip|]; [|destruct (valid_domain name)]; simpl; [| |by intros [= <-]];
      (destruct (parse_uint _ _) as [p|]; simpl; [|by intros [= <-]]);
      (destruct (p =? 0); [by intros [= <-]|done]).
Qed.

Lemma parse_line_error l e : parse_line l = Err e -> e <> ParseError.Incomplete.
Proof.
  unfold parse_line. destruct (split_byte _ l) as [|m parts]; [by intros [= <-]|].
  destruct (negb _); [by intros [= <-]|]. destruct parts as [|a [|v [|x y]]]; try by intros [= <-].
  destruct (bool_decide _); [|by intros [= <-]]. by intros ->%parse_authority_error.
Qed.

Lemma parse_header_error h t e : parse_header h t = Err e -> e <> ParseError.Incomplete.
Proof.
  unfold parse_header. destruct (from_utf8 h) as [h'|]; simpl; [|by intros [= <-]].
  case_if; [by intros [= <-]|]. destruct (head _) as [l|]; simpl; [|by intros [= <-]].
  destruct (parse_line l) as [[host port]|e'] eqn:E; simpl; [done|].
  intros [= <-]. by apply parse_line_error in E.
Qed.

(** C34: The verdict of the CONNECT parser is final: once the bytes received so
    far give a request or an error, more bytes give the same request, with the
    bytes added to its payload, or the same error; and as long as they give
    neither, the header is not complete and shorter than the limit. *)
Theorem http_verdict_final input more limit :
  match parse_connect input limit with
  | Ok r => parse_connect (input ++ more) limit = Ok (with_trailing r more)
  | Err ParseError.Incomplete => position input (CRLF ++ CRLF) = None /\ len input < limit
  | Err e => parse_connect (input ++ more) limit = Err e
  end.
Proof.
  destruct (position input (CRLF ++ CRLF)) as [n|] eqn:Hn.
  - pose proof (position_length _ _ _ Hn) as Hlen.
    rewrite (parse_connect_end _ _ n), (parse_connect_end _ _ n) by (done || by apply position_app).
    case_if; [done|].
    rewrite take_app_le, drop_app_le, parse_header_trailing by (simpl in Hlen; lia).
    destruct (parse_header _ _) as [r|e] eqn:E; [done|]. apply parse_header_error in E. by destruct e.
  - rewrite parse_connect_no_end by done. destruct (limit <=? len input) eqn:Hl; bools; [|done].
    destruct (position (input ++ more) (CRLF ++ CRLF)) as [n|] eqn:Hm.
    + pose proof (position_new _ _ _ _ Hn Hm) as Hnew. rewrite (parse_connect_end _ _ n) by done.
      rewrite (proj2 (Z.ltb_lt _ _)); [done|]. simpl in Hnew. unfold len in Hl. lia.
    + rewrite parse_connect_no_end by done. rewrite (proj2 (Z.leb_le _ _)); [done|].
      rewrite len_app. pose proof (len_nonneg more). lia.
Qed.

(** ** A request is read back *)

(** A port in decimal. *)
Definition decimal (n : Z) : str := decimal_go 5 n [].

Definition request_text (name : str) (port : Z) : bytes :=
  #"CONNECT " ++ name ++ #":" ++ decimal port ++ #" HTTP/1.1" ++ CRLF ++ CRLF.

Lemma digit_byte d :
  0 <= d < 10 -> digit_value 10 (to_u8 (48 + d)) = Some d /\ is_ascii_digit (to_u8 (48 + d)) = true.
Proof.
  intros Hd. unfold digit_value, is_ascii_digit, between. rewrite u8_to_u8, Z.mod_small by lia.
  rewrite !(proj2 (Z.leb_le _ _)) by lia. simpl. rewrite (proj2 (Z.ltb_lt _ _)) by lia.
  split; [f_equal; lia|done].
Qed.

Lemma parse_decimal_go max fuel n acc :
  0 <= n < 10 ^ Z.of_nat fuel -> n <= max ->
  parse_digits 10 max 0 (decimal_go fuel n acc) = parse_digits 10 max n acc.
Proof.
  revert n acc. induction fuel as [|fuel IH]; intros n acc Hn Hmax.
  { simpl in *. by replace n with 0 by lia. }
  cbn [decimal_go]. destruct (digit_byte (n mod 10) (Z.mod_pos_bound n 10 ltac:(lia))) as [Hd _].
  case_if.
  - cbn [parse_digits]. rewrite Hd, Z.mod_small, (proj2 (Z.leb_le _ _)) by lia. done.
  - rewrite IH.
    + cbn [parse_digits]. rewrite Hd. replace (n / 10 * 10 + n mod 10) with n
        by (rewrite (Z.div_mod n 10) at 1; lia).
      by rewrite (proj2 (Z.leb_le _ _)) by lia.
    + rewrite Nat2Z.inj_succ, Z.pow_succ_r in Hn by lia.
      split; [apply Z.div_pos; lia|apply Z.div_lt_upper_bound; lia].
    + pose proof (Z.div_le_upper_bound n 10 n ltac:(lia) ltac:(lia)). lia.
Qed.

Lemma digits_decimal_go fuel n acc :
  forallb is_ascii_digit acc = true -> forallb is_ascii_digit (decimal_go fuel n acc) = true.
Proof.
  revert n acc. induction fuel as [|fuel IH]; intros n acc Ha; [done|]. cbn [decimal_go].
  destruct (digit_byte (n mod 10) (Z.mod_pos_bound n 10 ltac:(lia))) as [_ Hd].
  assert (forallb is_ascii_digit (to_u8 (48 + n mod 10) :: acc) = true)
    by (cbn [forallb]; by rewrite Hd, Ha).
  case_if; [done|by apply IH].
Qed.

Lemma decimal_port n :
  0 <= n <= u16_max ->
  parse_uint u16_max (decimal n) = Some n /\ forallb is_ascii_digit (decimal n) = true.
Proof.
  intros Hn. assert (forallb is_ascii_digit (decimal n) = true) as Hd by (by apply digits_decimal_go).
  split; [|done].
  assert (parse_digits 10 u16_max 0 (decimal n) = Some n) as Hp.
  { unfold decimal. rewrite parse_decimal_go by (unfold u16_max in *; simpl; lia). done. }
  unfold parse_uint, from_str_radix. destruct (decimal n) as [|b l] eqn:E.
  - exfalso. revert E. unfold decimal. cbn [decimal_go]. by repeat case_if.
  - cbn [forallb] in Hd. apply andb_prop in Hd as [Hb _].
    rewrite bool_decide_false by (intros ->; done). done.
Qed.

(** The bytes of a domain name. *)
Definition domain_byte (b : byte) : bool :=
  is_ascii_alphanumeric b || bool_decide (b = "-"%byte) || bool_decide (b = "."%byte).

Lemma split_byte_elem c l b : b ∈ l -> b = c \/ exists w, w ∈ split_byte c l /\ b ∈ w.
Proof.
  induction l as [|x l IH]; [by intros ?%elem_of_nil|]. simpl. intros Hb. case_bool_decide as Hx.
  - apply elem_of_cons in Hb as [->|Hb]; [by left|]. destruct (IH Hb) as [->|(w & Hw & ?)]; [by left|].
    right. exists w. split; [by right|done].
  - destruct (split_byte c l) as [|w ws] eqn:E; [by destruct l; simpl in E; repeat case_match|].
    apply elem_of_cons in Hb as [->|Hb].
    + right. exists (x :: w). split; left.
    + destruct (IH Hb) as [->|(v & Hv & ?)]; [by left|]. right.
      apply elem_of_cons in Hv as [->|Hv].
      * exists (x :: w). split; [left|by right].
      * exists v. split; [by right|done].
Qed.

Lemma valid_domain_bytes name : valid_domain name = true -> name <> [] /\ forallb domain_byte name = true.
Proof.
  unfold valid_domain. intros Hv. bools. split; [done|].
  apply forallb_forall. intros b Hb%list_elem_of_In.
  destruct (split_byte_elem "."%byte name b Hb) as [->|(w & Hw%list_elem_of_In & Hbw%list_elem_of_In)]; [done|].
  match goal with H : forallb valid_label _ = true |- _ => rewrite forallb_forall in H; specialize (H w Hw) end.
  match goal with H : valid_label w = true |- _ => unfold valid_label in H; apply andb_prop in H as [_ H];
    rewrite forallb_forall in H; specialize (H b Hbw) end.
  unfold domain_byte. match goal with H : _ || _ = true |- _ => rewrite H end. done.
Qed.

(** A byte that is none of them. *)
Lemma domain_not_elem name c : forallb domain_byte name = true -> domain_byte c = false -> c ∉ name.
Proof.
  intros Hn Hc Hin%list_elem_of_In. rewrite forallb_forall in Hn. specialize (Hn c Hin). congruence.
Qed.

Lemma digits_not_elem l c : forallb is_ascii_digit l = true -> is_ascii_digit c = false -> c ∉ l.
Proof.
  intros Hn Hc Hin%list_elem_of_In. rewrite forallb_forall in Hn. specialize (Hn c Hin). congruence.
Qed.

Lemma domain_ascii name : forallb domain_byte name = true -> is_ascii name = true.
Proof.
  unfold is_ascii. rewrite !forallb_forall. intros Hn b Hb. specialize (Hn b Hb). revert Hn.
  assert (forall b, implb (domain_byte b) (u8 b <? 128) = true) as Hall
    by (apply byte_forallb; vm_compute; reflexivity).
  specialize (Hall b). by destruct (domain_byte b).
Qed.

Lemma digits_ascii l : forallb is_ascii_digit l = true -> is_ascii l = true.
Proof.
  unfold is_ascii. rewrite !forallb_forall. intros Hn b Hb. specialize (Hn b Hb).
  unfold is_ascii_digit, between in Hn. bools. apply Z.ltb_lt. lia.
Qed.

Lemma is_ascii_app a b : is_ascii (a ++ b) = is_ascii a && is_ascii b.
Proof. apply forallb_app. Qed.

(** A byte that does not occur in a literal. *)
Ltac absent :=
  let H := fresh in intros H; apply list_elem_of_In in H; cbn in H;
  repeat (destruct H as [H|H]; [discriminate H|]); exact H.

(** The parts of the request: its authority and its line. *)
Definition authority_text (name : str) (port : Z) : str := name ++ #":" ++ decimal port.
Definition line_text (name : str) (port : Z) : str :=
  #"CONNECT" ++ " "%byte :: authority_text name port ++ " "%byte :: #"HTTP/1.1".

Lemma request_text_line name port : request_text name port = line_text name port ++ CRLF ++ CRLF.
Proof. unfold line_text, authority_text, request_text. simpl. by rewrite <- !app_assoc. Qed.

Section request.
Context (name : str) (port : Z) (Hv : valid_domain name = true) (Hport : 1 <= port <= u16_max).

Lemma authority_not_elem c :
  domain_byte c = false -> is_ascii_digit c = false -> c <> ":"%byte -> c ∉ authority_text name port.
Proof.
  destruct (valid_domain_bytes name Hv) as [_ Hbytes]. destruct (decimal_port port ltac:(lia)) as [_ Hdig].
  intros H1 H2 H3. unfold authority_text. rewrite !elem_of_app. intros [Hc|[Hc|Hc]].
  - by apply (domain_not_elem name c).
  - apply list_elem_of_singleton in Hc. done.
  - by apply (digits_not_elem (decimal port) c).
Qed.

Lemma line_no_cr : x0d ∉ line_text name port.
Proof.
  unfold line_text. rewrite elem_of_app, elem_of_cons, elem_of_app, elem_of_cons.
  intros [Hc|[Hc|[Hc|[Hc|Hc]]]]; [|done| |done|]; revert Hc; [absent|by apply authority_not_elem|absent].
Qed.

Lemma line_ascii : is_ascii (line_text name port) = true.
Proof.
  destruct (valid_domain_bytes name Hv) as [_ Hbytes]. destruct (decimal_port port ltac:(lia)) as [_ Hdig].
  change (line_text name port) with (#"CONNECT " ++ (name ++ #":" ++ decimal port) ++ #" HTTP/1.1").
  by rewrite !is_ascii_app, (domain_ascii name Hbytes), (digits_ascii (decimal port) Hdig).
Qed.

Lemma parse_authority_text :
  parse_ipv4 name = None -> parse_authority (authority_text name port) = Ok (Host.Domain name, port).
Proof.
  intros H4. destruct (decimal_port port ltac:(lia)) as [Hdec Hdig].
  unfold parse_authority, parse_host_port.
  assert (strip_prefix (authority_text name port) #"[" = None) as ->.
  { unfold strip_prefix. destruct (starts_with _ #"[") eqn:E; [|done]. apply starts_with_iff in E as [y Hy].
    exfalso. apply (authority_not_elem "["%byte); [done..|]. rewrite Hy. left. }
  unfold authority_text. change (#":" ++ decimal port) with (":"%byte :: decimal port).
  rewrite rsplit_once_app by (by apply digits_not_elem). cbn [ok_or mbind result_bind].
  rewrite H4, Hv. cbn [mbind result_bind]. rewrite Hdec. cbn [ok_or mbind result_bind].
  by rewrite (proj2 (Z.eqb_neq port 0)) by lia.
Qed.

Lemma parse_line_text :
  parse_ipv4 name = None -> parse_line (line_text name port) = Ok (Host.Domain name, port).
Proof.
  intros H4. unfold parse_line, line_text.
  rewrite split_byte_app by absent. rewrite split_byte_app by (by apply authority_not_elem).
  rewrite split_byte_none by absent.
  cbn [negb]. rewrite !bool_decide_true by done. cbn [negb]. by apply parse_authority_text.
Qed.
End request.

(** A CONNECT request for a domain name and a port is read back, with the
    bytes that follow it as its payload, whenever the header fits the limit. *)
Theorem http_request_roundtrip name port trailing limit :
  valid_domain name = true -> parse_ipv4 name = None -> 1 <= port <= u16_max ->
  len (request_text name port) <= limit ->
  parse_connect (request_text name port ++ trailing) limit
  = Ok (ConnectRequest.mk (Host.Domain name) port trailing).
Proof.
  intros Hv H4 Hport Hlim. pose proof (line_no_cr name port Hv Hport) as Hcr.
  pose proof (line_ascii name port Hv Hport) as Hascii. pose proof (parse_line_text name port Hv Hport H4) as Hline.
  rewrite request_text_line in *. set (line := line_text name port) in *. clearbody line.
  rewrite (parse_connect_end _ _ (length line)).
  2: { rewrite <- !app_assoc. unfold CRLF. cbn [app]. rewrite position_skip by done. cbn [position].
       rewrite (proj2 (starts_with_iff _ _)); [done|by exists trailing]. }
  assert (length line + 4 = length (line ++ CRLF ++ CRLF))%nat as -> by (rewrite length_app; done).
  unfold len in Hlim. rewrite (proj2 (Z.ltb_ge _ _)) by done.
  rewrite take_app_length, drop_app_length. unfold parse_header.
  rewrite utf8_ascii by (by rewrite is_ascii_app, Hascii).
  assert (contains (line ++ CRLF ++ CRLF) (CRLF ++ #" ") = false
    /\ contains (line ++ CRLF ++ CRLF) (CRLF ++ [x09]) = false) as [Hsp Htab].
  { unfold contains, CRLF. cbn [app]. rewrite !position_skip by done. done. }
  cbn [ok_or mbind result_bind]. rewrite Hsp, Htab. cbn [orb].
  pose proof (split_str_head x0d [x0a] line CRLF Hcr) as Hhead.
  change (x0d :: [x0a] ++ CRLF) with (CRLF ++ CRLF) in Hhead.
  change [x0d; x0a] with CRLF in Hhead. rewrite Hhead.
  cbn [ok_or mbind result_bind]. by rewrite Hline.
Qed.

Definition host_ok (h : Host.t) : Prop :=
  match h with
  | Host.Ipv4 a => 0 <= a <= u32_max
  | Host.Ipv6 a => 0 <= a <= u128_max
  | Host.Domain name => valid_domain name = true
  end.

Lemma parse_host_port_ok a h p : parse_host_port a = Ok (h, p) -> host_ok h.
Proof.
  unfold parse_host_port. destruct (strip_prefix a _) as [rest|].
  - destruct (position rest _) as [close|]; simpl; [|done]. destruct (negb _); [done|].
    destruct (parse_ipv6 _) as [ip|] eqn:E; simpl; [|done]. intros [= <- <-].
    unfold parse_ipv6 in E. destruct (read_ipv6_addr _) as [[v [|]]|] eqn:E6; simplify_eq.
    by apply read_ipv6_range in E6.
  - destruct (rsplit_once _ a) as [[name port]|]; simpl; [|done].
    destruct (parse_ipv4 name) as [ip|] eqn:E.
    + intros [= <- <-]. unfold parse_ipv4 in E.
      destruct (read_ipv4_addr _) as [[v [|]]|] eqn:E4; simplify_eq. by apply read_ipv4_range in E4.
    + destruct (valid_domain name) eqn:Ev; [|done]. by intros [= <- <-].
Qed.

(** What the CONNECT parser accepts is well formed: the port is not 0 and
    fits 16 bits, an address is in its range, a name is a valid domain, and the
    input is a header within the limit followed by the payload. *)
Theorem http_request_sound input limit r :
  parse_connect input limit = Ok r ->
  1 <= ConnectRequest.port r <= u16_max /\ host_ok (ConnectRequest.host r) /\
  exists header, input = header ++ ConnectRequest.trailing r /\ len header <= limit.
Proof.
  destruct (position input (CRLF ++ CRLF)) as [n|] eqn:Hn;
    [|by rewrite parse_connect_no_end by done].
  rewrite (parse_connect_end _ _ n) by done. case_if; [done|]. intros Hh.
  unfold parse_header in Hh. destruct (from_utf8 _) as [h|]; [|done]. simpl in Hh.
  case_if_in Hh; [done|]. destruct (head _) as [line|]; [|done]. simpl in Hh.
  destruct (parse_line line) as [[host port]|] eqn:El; [|done]. simpl in Hh. injection Hh as <-. simpl.
  unfold parse_line in El. destruct (split_byte _ line) as [|m parts]; [done|]. case_if_in El; [done|].
  destruct parts as [|a [|v [|x y]]]; try done. case_if_in El; [|done].
  unfold parse_authority in El. destruct (parse_host_port a) as [[h' p]|] eqn:Eh; [|done]. simpl in El.
  destruct (parse_uint u16_max p) as [q|] eqn:Eq; [|done]. simpl in El.
  case_if_in El; [done|]. injection El as <- <-.
  apply parse_uint_range in Eq; [|done]. apply parse_host_port_ok in Eh.
  split_and!; [lia|lia|done|]. exists (take (n + 4) input). split; [by rewrite take_drop|].
  unfold len. rewrite length_take. lia.
Qed.

(** ** The limit and the payload *)

Definition tight_request : bytes := request_text #"example.com" 443.

(** The limit on the header also counts the payload that arrives with it:
    the same client is served when its first payload comes later and refused with
    a header that is too large when it comes at once, although the header fits
    the limit and the parser takes payload. *)
Theorem http_limit_counts_payload :
  let limit := len tight_request in
  let client := PendingClient.mk 1 [] in
  (exists c, PendingClient.poll client limit [Data tight_request]
     = (c, Ok (Some (ConnectRequest.mk (Host.Domain #"example.com") 443 [])))) /\
  (exists c, PendingClient.poll client limit [Data (tight_request ++ #"hello")]
     = (c, Err ParseError.HeaderTooLarge)) /\
  parse_connect (tight_request ++ #"hello") limit
  = Ok (ConnectRequest.mk (Host.Domain #"example.com") 443 #"hello").
Proof. split_and!; [eexists; vm_compute; reflexivity|eexists; vm_compute; reflexivity|vm_compute; reflexivity]. Qed.

(** * The instance over its life *)

Section life.
Context `{HashOrder}.

Inductive op :=
| Poll (e : Env)
| Accept (e : Env)
| Attach (flow : Z) (stack : option Z)
| Complete (flow : Z) (status : Status.t) (reason_length : Z)
| Close (flow : Z).

(** One call, with the handle it announces. *)
Definition run1 (s : State.t) (o : op) : State.t * option Z :=
  match o with
  | Poll e => (poll_state s e, None)
  | Accept e => let '(s, flow, _) := accept s e in (s, (fun f => f.1.1) <$> flow)
  | Attach flow stack => ((attach s flow stack).1, None)
  | Complete flow status n => ((complete s flow status n).1, None)
  | Close flow => ((close_flow s flow).1, None)
  end.

(** A sequence of calls, with the handles announced, the last one first. *)
Definition run (s : State.t) (ops : list op) : State.t * list Z :=
  fold_left (fun '(s, log) o => let '(s, h) := run1 s o in (s, option_list h ++ log)) ops (s, []).

Definition connections (s : State.t) : Z := len (State.pending s) + Z.of_nat (size (State.flows s)).

Definition within (s : State.t) : Prop := connections s <= Options.max_connections (State.options s).

(** The handles of the flows were given out, and the flows announced so far are
    marked. *)
Definition handles_ok (flows : gmap Z ClientFlow.t) (next : Z) (log : list Z) : Prop :=
  map_Forall (fun h _ => h < next) flows /\ Forall (fun h => h < next) log /\
  (forall h f, h ∈ log -> flows !! h = Some f -> ClientFlow.announced f = true).

Lemma accept_clients_within max pending flows answers :
  len pending + flows <= max -> len (accept_clients max pending flows answers) + flows <= max.
Proof.
  revert pending. induction answers as [|a answers IH]; intros pending Hp; simpl.
  - by case_if.
  - case_if; [|done]. destruct a as [stream [|]| |]; auto.
    apply IH. rewrite len_app. change (len [PendingClient.mk stream []]) with 1. lia.
Qed.

Lemma size_insert_le {A} (m : gmap Z A) k v : (size (<[k := v]> m) <= S (size m))%nat.
Proof. rewrite map_size_insert. case_match; simpl; lia. Qed.

Lemma size_imap_le {A} (f : Z -> A -> option A) (m : gmap Z A) : (size (map_imap f m) <= size m)%nat.
Proof.
  rewrite <- !size_dom. apply subseteq_size. intros k. rewrite !elem_of_dom, map_lookup_imap.
  destruct (m !! k); [eauto|by intros [? ?]].
Qed.

(** Polling the pending clients turns each into at most one of a pending client
    and a flow, and gives it a handle that was not in use. *)
Lemma poll_client_spec e limit pending flows next c p' f' n' log :
  poll_client e limit (pending, flows, next) c = (p', f', n') ->
  len p' + Z.of_nat (size f') <= len pending + Z.of_nat (size flows) + 1 /\
  (handles_ok flows next log -> handles_ok f' n' log).
Proof.
  unfold poll_client. destruct (PendingClient.poll _ _ _) as [c' [[request|]|err]].
  - destruct (checked_add _ _ _) as [n2|] eqn:En; [|intros [= <- <- <-]; split; [lia|done]].
    intros [= <- <- <-]. unfold checked_add in En. case_if_in En; [|done]. injection En as <-.
    pose proof (size_insert_le flows next (ClientFlow.new c' request)).
    split; [destruct (pumps e); lia|]. intros (Hf & Hl & Ha).
    assert (Forall (fun h => h < next + 1) log) by (eapply Forall_impl; [exact Hl|simpl; lia]).
    assert (map_Forall (fun h _ => h < next + 1) flows)
      by (eapply map_Forall_impl; [exact Hf|simpl; lia]).
    destruct (pumps e); [|done]. split_and!; [by apply map_Forall_insert_2; [lia|]|done|].
    intros h f Hh. rewrite Forall_forall in Hl. specialize (Hl h Hh).
    rewrite lookup_insert_ne by lia. eauto.
  - intros [= <- <- <-]. rewrite len_app. change (len [c']) with 1. split; [lia|done].
  - intros [= <- <- <-]. split; [lia|done].
Qed.

Lemma poll_clients_spec e limit log clients pending flows next p' f' n' :
  fold_left (poll_client e limit) clients (pending, flows, next) = (p', f', n') ->
  len p' + Z.of_nat (size f') <= len pending + Z.of_nat (size flows) + len clients /\
  (handles_ok flows next log -> handles_ok f' n' log).
Proof.
  revert pending flows next. induction clients as [|c clients IH]; intros pending flows next; cbn [fold_left].
  - intros [= <- <- <-]. split; [lens; lia|done].
  - destruct (poll_client e limit (pending, flows, next) c) as [[p1 f1] n1] eqn:E1. intros Hf.
    apply poll_client_spec with (log := log) in E1 as [? ?]. apply IH in Hf as [? ?].
    split; [lens; lia|auto].
Qed.

Lemma client_poll_announced e h f f' :
  poll_flow e h f = Some f' -> ClientFlow.announced f' = ClientFlow.announced f.
Proof.
  unfold poll_flow, ClientFlow.poll. destruct (write_out _ _ _) as [[? o] [[|]|]]; [|by intros [= <-]|done].
  case_if; [done|]. case_if; [by intros [= <-]|]. simpl.
  destruct (ClientFlow.stack f); [|by intros [= <-]].
  destruct (ClientFlow.both _ _) as [[[|]|]|]; try done; by intros [= <-].
Qed.

Lemma handles_ok_flows flows flows' next log :
  (forall h f', flows' !! h = Some f' ->
     exists f, flows !! h = Some f /\ (ClientFlow.announced f = true -> ClientFlow.announced f' = true)) ->
  handles_ok flows next log -> handles_ok flows' next log.
Proof.
  intros Hsub (Hf & Hl & Ha). split_and!; [|done|].
  - intros h f' (f & Hh & _)%Hsub. by apply Hf in Hh.
  - intros h f' Hin (f & Hh & Himp)%Hsub. eauto.
Qed.

Lemma poll_state_spec s e log :
  within s -> handles_ok (State.flows s) (State.next_flow s) log ->
  within (poll_state s e) /\ handles_ok (State.flows (poll_state s e)) (State.next_flow (poll_state s e)) log.
Proof.
  unfold within, connections, poll_state. intros Hw Hh.
  destruct (fold_left _ _ _) as [[p f] n] eqn:E. simpl.
  apply poll_clients_spec with (log := log) in E as [Hc Ho]. specialize (Ho Hh).
  pose proof (accept_clients_within _ _ _ (accepts e) Hw). pose proof (size_imap_le (poll_flow e) f).
  split; [lens; lia|]. revert Ho. apply handles_ok_flows. intros h f'. rewrite map_lookup_imap.
  destruct (f !! h) as [f0|]; [|done]. simpl. intros ->%client_poll_announced. eauto.
Qed.

(** Setting a flow that exists changes no count. *)
Lemma set_flow_spec s h f f' log :
  State.flows s !! h = Some f -> (ClientFlow.announced f = true -> ClientFlow.announced f' = true) ->
  within s -> handles_ok (State.flows s) (State.next_flow s) log ->
  within (set_flow s h f') /\ handles_ok (State.flows (set_flow s h f')) (State.next_flow s) log.
Proof.
  intros Hf Ha Hw Hh. unfold within, connections in *. simpl. rewrite map_size_insert_Some by eauto.
  split; [done|]. revert Hh. apply handles_ok_flows. intros k g.
  destruct (decide (k = h)) as [->|Hne].
  - rewrite lookup_insert_eq. intros [= <-]. eauto.
  - rewrite lookup_insert_ne by done. eauto.
Qed.

Lemma run1_spec s o log s' h :
  run1 s o = (s', h) -> NoDup log ->
  within s -> handles_ok (State.flows s) (State.next_flow s) log ->
  within s' /\ NoDup (option_list h ++ log) /\
  handles_ok (State.flows s') (State.next_flow s') (option_list h ++ log).
Proof.
  intros Hr Hn Hw Hh. destruct o as [e|e|flow stack|flow status n|flow]; simpl in Hr.
  - injection Hr as <- <-. destruct (poll_state_spec s e log Hw Hh). done.
  - unfold accept in Hr. destruct (poll_state_spec s e log Hw Hh) as [Hw' Hh'].
    destruct (unannounced _) as [[h0 f]|] eqn:Eu; [|by injection Hr as <- <-].
    injection Hr as <- <-. set (s1 := poll_state s e) in *. unfold unannounced in Eu.
    assert (State.flows s1 !! h0 = Some f /\ ClientFlow.announced f = false) as [Hf Hna].
    { destruct (filter _ _) as [|x l] eqn:El; [done|]. injection Eu as ->.
      assert ((h0, f) ∈ filter (fun '(_, f) => ClientFlow.announced f = false)
        (hash_order (map_to_list (State.flows s1)))) as Hin by (rewrite El; left).
      apply list_elem_of_filter in Hin as [? Hin]. rewrite hash_order_perm in Hin.
      by apply elem_of_map_to_list in Hin. }
    destruct (set_flow_spec s1 h0 f (set_announced f) log Hf ltac:(done) Hw' Hh') as [Hw2 (Hb & Hl & Ha)].
    assert (h0 ∉ log) as Hfresh.
    { intros Hin. destruct Hh' as (_ & _ & Hh'). specialize (Hh' h0 f Hin Hf). congruence. }
    split; [done|]. split; [by apply NoDup_cons|]. unfold handles_ok. split_and!; [done| |].
    + apply Forall_cons. split; [|done]. by destruct Hh' as (Hb' & _); apply Hb' in Hf.
    + intros k g [->|Hk]%elem_of_cons; simpl; [|by apply Ha].
      rewrite lookup_insert_eq. by intros [= <-].
  - injection Hr as <- <-. unfold attach. destruct stack; [|done].
    destruct (State.flows s !! flow) as [f|] eqn:Ef; [|done]. case_if; [done|].
    destruct (set_flow_spec s flow f (ClientFlow.mk (ClientFlow.client f) (ClientFlow.address f)
      (ClientFlow.port f) (ClientFlow.announced f) (Some z) (ClientFlow.response f)
      (ClientFlow.response_offset f) (ClientFlow.accepted f)) log Ef); done.
  - injection Hr as <- <-. unfold complete. case_if; [done|].
    destruct (State.flows s !! flow) as [f|] eqn:Ef; [|done].
    destruct (set_flow_spec s flow f (ClientFlow.mk (ClientFlow.client f) (ClientFlow.address f)
      (ClientFlow.port f) (ClientFlow.announced f) (ClientFlow.stack f) (response_of status) 0
      (Some (bool_decide (status = Status.OK)))) log Ef); done.
  - injection Hr as <- <-. unfold close_flow. destruct (State.flows s !! flow) as [f|] eqn:Ef; [|done].
    unfold within, connections in *. simpl. split_and!; [|done|].
    + pose proof (map_size_delete flow (State.flows s)) as Hd. rewrite Ef in Hd. lia.
    + revert Hh. apply handles_ok_flows. intros k g [_ Hk]%lookup_delete_Some. eauto.
Qed.

(** However the clients, the stack and the host behave, an instance never
    holds more clients and flows than its limit allows, and [accept] never
    announces the same flow twice. *)
Theorem http_instance_bounded `{Toml Options.t} config s ops :
  initialize config true = Ok s -> 0 <= Options.max_connections (State.options s) ->
  let '(s', announced) := run s ops in
  connections s' <= Options.max_connections (State.options s') /\ NoDup announced.
Proof.
  unfold initialize. destruct (parse_options config) as [o|] eqn:Eo; [|done]. simpl. intros [= <-] Hmax.
  unfold run. set (s0 := State.mk o [] ∅ 1).
  assert (within s0 /\ handles_ok (State.flows s0) (State.next_flow s0) [] /\ NoDup (@nil Z)) as Hinv.
  { split; [done|]. split; [|constructor]. unfold handles_ok.
    split_and!; [apply map_Forall_empty|by constructor|by intros ? ? ?%elem_of_nil]. }
  clearbody s0. revert Hinv. generalize (@nil Z). revert s0.
  induction ops as [|o1 ops IH]; intros s log (Hw & Hh & Hn); simpl; [done|].
  destruct (run1 s o1) as [s1 h] eqn:E1.
  destruct (run1_spec s o1 log s1 h E1 Hn Hw Hh) as (? & ? & ?). by apply IH.
Qed.
End life.

Lemma http_request_roundtrip_witness :
  parse_connect (request_text #"example.com" 443 ++ #"hello") 64
  = Ok (ConnectRequest.mk (Host.Domain #"example.com") 443 #"hello").
Proof. apply (http_request_roundtrip #"example.com" 443 #"hello" 64); (reflexivity || vm_compute; done). Defined.

Lemma http_request_sound_witness :
  1 <= 443 <= u16_max /\ valid_domain #"example.com" = true /\
  exists header, tight_request ++ #"hello" = header ++ #"hello" /\ len header <= 64.
Proof.
  apply (http_request_sound (tight_request ++ #"hello") 64
    (ConnectRequest.mk (Host.Domain #"example.com") 443 #"hello")).
  vm_compute. reflexivity.
Defined.

(** A host with two connections waiting, of which one sends its request. *)
Definition demo_toml : Toml Options.t := {| toml_from_str _ := Some (Options.mk #"127.0.0.1:8080" 1 64) |}.
Definition demo_order : HashOrder := {| hash_order _ l := l; hash_order_perm _ l := reflexivity l |}.
Definition demo_env : Env :=
  mkEnv [Accepted 7 true; Accepted 8 true] (fun _ => [Data tight_request]) (fun _ => [])
    (fun _ => (O, Pending)) (fun _ => Pending) true.
Definition demo_ops : list op := [Accept demo_env; Accept demo_env; Attach 1 (Some 5); Complete 1 Status.OK 0].

Example demo_announced :
  exists s, initialize (H0 := demo_toml) [] true = Ok s /\ (run (H := demo_order) s demo_ops).2 = [1] /\
    connections (run (H := demo_order) s demo_ops).1 = 1.
Proof. eexists. split; [vm_compute; reflexivity|]. split; vm_compute; reflexivity. Qed.

Lemma http_instance_bounded_witness :
  let s := State.mk (Options.mk #"127.0.0.1:8080" 1 64) [] ∅ 1 in
  let '(s', announced) := run (H := demo_order) s demo_ops in
  connections s' <= Options.max_connections (State.options s') /\ NoDup announced.
Proof.
  apply (http_instance_bounded (H := demo_order) (H0 := demo_toml) [] _ demo_ops); vm_compute; done.
Defined.
