(* ===== verification/Socks.v ===== *)
(** adapter-socks5 (modules/adapter-socks5/src/lib.rs): a SOCKS5 proxy with the
    commands CONNECT and UDP ASSOCIATE, several instances of which may share one
    listening address.

    The sockets, the stack's streams and the pumps of the SDK are the environment
    of one poll ([Env]): what each of them answers to the calls made on it.
    Sockets are known by a number. *)
From Stdlib Require Import Strings.Byte.
From stdpp Require Import countable.
From S2P Require Import Prelude Text Net Admin Abi Socket.
#[local] Open Scope Z_scope.

Definition MAX_UDP_PAYLOAD : Z := 65507.

Module Command.
Inductive t := Connect | UdpAssociate.
#[global] Instance eq_dec : EqDecision t.
Proof. solve_decision. Defined.
End Command.

Module Address.
Inductive t := Ipv4 (address : Z) | Ipv6 (address : Z) | Domain (name : str).
#[global] Instance eq_dec : EqDecision t.
Proof. solve_decision. Defined.
#[global] Instance countable : Countable t.
Proof.
  refine (inj_countable'
    (fun a => match a with Ipv4 n => inl (inl n) | Ipv6 n => inl (inr n) | Domain s => inr (map u8 s) end)
    (fun s => match s with
              | inl (inl n) => Ipv4 n | inl (inr n) => Ipv6 n | inr l => Domain (map to_u8 l) end) _).
  intros [| |s]; [done..|]. f_equal. induction s as [|b s IH]; simpl; [done|].
  by rewrite to_u8_u8, IH.
Defined.
End Address.

Module Request.
Record t := mk { command : Command.t; address : Address.t; port : Z }.
#[global] Instance eq_dec : EqDecision t.
Proof. solve_decision. Defined.
End Request.

Module UdpPacket.
Record t := mk { address : Address.t; port : Z; payload : bytes }.
End UdpPacket.

Module ParseError.
Inductive t :=
| Incomplete | Protocol | Command | BindUnsupported | FragmentUnsupported | Address | Port
| TrailingBytes.
#[global] Instance eq_dec : EqDecision t.
Proof. solve_decision. Defined.
End ParseError.

(** * Messages *)

Definition valid_domain (domain : str) : bool :=
  (len domain <=? 253) && is_ascii domain && forallb valid_label (split_byte "."%byte domain).

(** The address of [parse_address], and the offset of the port after it. *)
Definition parse_host (input : bytes) : result ParseError.t (Address.t * nat) :=
  kind ← ok_or (head input) ParseError.Incomplete;
  if u8 kind =? 1 then
    b ← ok_or (get_range input 1 4) ParseError.Incomplete;
    Ok (Address.Ipv4 (of_be b), 5%nat)
  else if u8 kind =? 4 then
    b ← ok_or (get_range input 1 16) ParseError.Incomplete;
    Ok (Address.Ipv6 (of_be b), 17%nat)
  else if u8 kind =? 3 then
    length ← ok_or (input !! 1%nat) ParseError.Incomplete;
    let length := Z.to_nat (u8 length) in
    if Nat.eqb length 0 then Err ParseError.Address
    else
      b ← ok_or (get_range input 2 length) ParseError.Incomplete;
      domain ← ok_or (from_utf8 b) ParseError.Address;
      if negb (valid_domain domain) then Err ParseError.Address
      else Ok (Address.Domain domain, (2 + length)%nat)
  else Err ParseError.Address.

Definition parse_address (input : bytes) (allow_zero_port : bool)
    : result ParseError.t (Address.t * Z * nat) :=
  '(address, offset) ← parse_host input;
  b ← ok_or (get_range input offset 2) ParseError.Incomplete;
  let port := of_be b in
  if (port =? 0) && negb allow_zero_port then Err ParseError.Port
  else Ok (address, port, (offset + 2)%nat).

Definition parse_command (b : byte) : result ParseError.t Command.t :=
  if u8 b =? 1 then Ok Command.Connect
  else if u8 b =? 2 then Err ParseError.BindUnsupported
  else if u8 b =? 3 then Ok Command.UdpAssociate
  else Err ParseError.Command.

Definition parse_request (input : bytes) : result ParseError.t Request.t :=
  match input with
  | b0 :: b1 :: b2 :: _ :: _ =>
      if negb (u8 b0 =? 5) || negb (u8 b2 =? 0) then Err ParseError.Protocol
      else
        command ← parse_command b1;
        '(address, port, consumed) ←
          parse_address (drop 3 input) (bool_decide (command = Command.UdpAssociate));
        if negb (Nat.eqb (consumed + 3) (length input)) then Err ParseError.TrailingBytes
        else Ok (Request.mk command address port)
  | _ => Err ParseError.Protocol
  end.

Definition parse_udp (input : bytes) : result ParseError.t UdpPacket.t :=
  match input with
  | b0 :: b1 :: b2 :: _ :: _ =>
      if negb (u8 b0 =? 0) || negb (u8 b1 =? 0) then Err ParseError.Protocol
      else if negb (u8 b2 =? 0) then Err ParseError.FragmentUnsupported
      else
        '(address, port, consumed) ← parse_address (drop 3 input) false;
        Ok (UdpPacket.mk address port (drop (3 + consumed) input))
  | _ => Err ParseError.Protocol
  end.

Definition request_length (input : bytes) : option nat :=
  address_type ← input !! 3%nat;
  if u8 address_type =? 1 then Some 10%nat
  else if u8 address_type =? 4 then Some 22%nat
  else if u8 address_type =? 3 then
    length ← input !! 4%nat;
    Some (7 + Z.to_nat (u8 length))%nat
  else Some 4%nat.

Definition encode_udp_header (address : Address.t) (port : Z) : result unit bytes :=
  host ← match address with
         | Address.Ipv4 a => Ok (x01 :: octets (IpAddr.V4 a))
         | Address.Ipv6 a => Ok (x04 :: octets (IpAddr.V6 a))
         | Address.Domain name =>
             if len name <=? 255 then Ok (x03 :: to_u8 (len name) :: name) else Err tt
         end;
  Ok (x00 :: x00 :: x00 :: host ++ be_bytes 2 port).

Definition socks_response (reply : Z) : bytes :=
  [x05; to_u8 reply; x00; x01; x00; x00; x00; x00; x00; x00].

Definition socks_bound_response (address : SocketAddr.t) : bytes :=
  match address with
  | SocketAddr.V4 ip port => x05 :: x00 :: x00 :: x01 :: octets (IpAddr.V4 ip) ++ be_bytes 2 port
  | SocketAddr.V6 ip port _ _ => x05 :: x00 :: x00 :: x04 :: octets (IpAddr.V6 ip) ++ be_bytes 2 port
  end.

Module Options.
Record t := mk {
  listen : str;
  max_connections : Z;
  max_udp_associations : Z;
  max_request_bytes : Z;
  reject_fragments : bool;
}.
End Options.

(** The messages of [parse_options]. *)
Inductive options_error := NotUtf8 | BadToml | Inconsistent.

Definition parse_options `{Toml Options.t} (config : bytes) : result options_error Options.t :=
  text ← ok_or (from_utf8 config) NotUtf8;
  options ← ok_or (toml_from_str text) BadToml;
  if is_none (parse_socket_addr (Options.listen options)) || (Options.max_connections options =? 0)
     || (Options.max_udp_associations options =? 0) || (Options.max_request_bytes options <? 262)
     || negb (Options.reject_fragments options)
  then Err Inconsistent
  else Ok options.

(** * A client before its request is known *)

Module ClientPhase.
Inductive t := Greeting | Request | Ready (request : Request.t) | Failed.
#[global] Instance eq_dec : EqDecision t.
Proof. solve_decision. Defined.
End ClientPhase.

Module ClientConnection.
Record t := mk {
  stream : Z;
  input : bytes;
  output : bytes;
  output_offset : Z;
  phase : ClientPhase.t;
}.

Definition new (stream : Z) : t := mk stream [] [] 0 ClientPhase.Greeting.

Definition set_phase (c : t) (p : ClientPhase.t) : t :=
  mk (stream c) (input c) (output c) (output_offset c) p.

Definition set_input (c : t) (i : bytes) : t :=
  mk (stream c) i (output c) (output_offset c) (phase c).

Definition queue (c : t) (b : bytes) : t :=
  if output_offset c =? len (output c) then mk (stream c) (input c) b 0 (phase c)
  else mk (stream c) (input c) (output c ++ b) (output_offset c) (phase c).

(** The first half of [parse]: the client after it, and whether it goes on. *)
Definition parse_greeting (c : t) : t * bool :=
  match input c with
  | version :: methods :: _ =>
      let total := (2 + Z.to_nat (u8 methods))%nat in
      if Nat.ltb (length (input c)) total then (c, false)
      else if negb (u8 version =? 5)
           || negb (existsb (fun b => u8 b =? 0) (drop 2 (take total (input c)))) then
        (set_phase (queue c [x05; xff]) ClientPhase.Failed, false)
      else
        let c := set_input c (drop total (input c)) in
        (set_phase (queue c [x05; x00]) ClientPhase.Request, true)
  | _ => (c, false)
  end.

Definition parse_body (c : t) : t :=
  match request_length (input c) with
  | None => c
  | Some n =>
      if Nat.ltb (length (input c)) n then c
      else match parse_request (take n (input c)) with
      | Ok request => set_phase (set_input c (drop n (input c))) (ClientPhase.Ready request)
      | Err _ => set_phase (queue c (socks_response 1)) ClientPhase.Failed
      end
  end.

Definition parse (c : t) : t :=
  let '(c, go) :=
    match phase c with ClientPhase.Greeting => parse_greeting c | _ => (c, true) end in
  if go then match phase c with ClientPhase.Request => parse_body c | _ => c end else c.

Definition write_pending (c : t) (writes : list write_answer) : t * result unit unit :=
  let '(_, offset, r) := write_out (output c) (output_offset c) writes in
  match r with
  | Err _ => (mk (stream c) (input c) (output c) offset (phase c), Err tt)
  | Ok false => (mk (stream c) (input c) (output c) offset (phase c), Ok tt)
  | Ok true => (mk (stream c) (input c) [] 0 (phase c), Ok tt)
  end.

(** The reads of [poll]. *)
Fixpoint read_input (c : t) (limit : Z) (answers : list read_answer) : t * result unit unit :=
  match answers with
  | [] | ReadBlocks :: _ => (c, Ok tt)
  | ReadFails :: _ => (c, Err tt)
  | Data b :: answers =>
      if bool_decide (b = []) then (set_phase c ClientPhase.Failed, Ok tt)
      else if limit <? saturating_add usize_max (len (input c)) (len b)
      then (set_phase c ClientPhase.Failed, Ok tt)
      else read_input (set_input c (input c ++ b)) limit answers
  end.

Definition poll (c : t) (limit : Z) (reads : list read_answer) (writes : list write_answer)
    : t * result unit unit :=
  match read_input c limit reads with
  | (c, Err e) => (c, Err e)
  | (c, Ok _) => write_pending (parse c) writes
  end.

Definition ready (c : t) : bool :=
  match phase c with ClientPhase.Ready _ => bool_decide (output c = []) | _ => false end.
End ClientConnection.

(** * Flows *)

Module SocksIo.
Record t := mk { stream : Z; prefix : bytes }.

Definition poll_read {E} (c : t) (room : Z) (answer : io_result E bytes)
    : t * poll (result E bytes) :=
  if negb (bool_decide (prefix c = [])) then
    let count := Z.min room (len (prefix c)) in
    (mk (stream c) (drop (Z.to_nat count) (prefix c)),
     Ready (Ok (take (Z.to_nat count) (prefix c))))
  else (c, map_nonblocking answer).
End SocksIo.

(** The bytes an address is announced with. *)
Definition address_bytes (a : Address.t) : bytes :=
  match a with
  | Address.Ipv4 a => octets (IpAddr.V4 a)
  | Address.Ipv6 a => octets (IpAddr.V6 a)
  | Address.Domain name => name
  end.

(** What a pump reports: the end of its direction, or that it goes on. *)
Definition pump_answer := poll (result unit bool).

Module ClientFlow.
Record t := mk {
  client : SocksIo.t;
  address : Address.t;
  port : Z;
  announced : bool;
  stack : option Z;
  response : bytes;
  response_offset : Z;
  accepted : option bool;
}.

Definition new (c : ClientConnection.t) (r : Request.t) : t :=
  mk (SocksIo.mk (ClientConnection.stream c) (ClientConnection.input c))
    (Request.address r) (Request.port r) false None [] 0 None.

Definition set_offset (f : t) (n : Z) : t :=
  mk (client f) (address f) (port f) (announced f) (stack f) (response f) n (accepted f).

(** The bytes the upload takes of the prefix are gone. *)
Definition take_prefix (f : t) (n : nat) : t :=
  mk (SocksIo.mk (SocksIo.stream (client f)) (drop n (SocksIo.prefix (client f))))
    (address f) (port f) (announced f) (stack f) (response f) (response_offset f) (accepted f).

Definition both (upload download : pump_answer) : poll (result unit bool) :=
  match upload, download with
  | Ready (Ok u), Ready (Ok d) => Ready (Ok (u && d))
  | Ready (Err e), _ | _, Ready (Err e) => Ready (Err e)
  | _, _ => Pending
  end.

(** [poll]; [upload] is given with the number of bytes it reads from the prefix
    of the client. *)
Definition poll (f : t) (writes : list write_answer) (upload : nat * pump_answer)
    (download : pump_answer) : t * poll (result unit bool) :=
  let '(_, offset, r) := write_out (response f) (response_offset f) writes in
  let f := set_offset f offset in
  match r with
  | Err _ => (f, Ready (Err tt))
  | Ok false => (f, Pending)
  | Ok true =>
      if bool_decide (accepted f = Some false) then (f, Ready (Ok true))
      else if negb (bool_decide (accepted f = Some true)) then (f, Pending)
      else match stack f with
      | None => (f, Pending)
      | Some _ => (take_prefix f upload.1, both upload.2 download)
      end
  end.
End ClientFlow.

(** [DatagramRecv], with the datagram that was received. *)
Inductive datagram_recv := Datagram (data : bytes) | BufferTooSmall (n : Z) | Closed.

Inductive send_answer := Sent (n : Z) | SendBlocks | SendFails.

Module UdpClientFlow.
Record t := mk {
  socket : Z;
  client : SocketAddr.t;
  address : Address.t;
  port : Z;
  announced : bool;
  stack : option Z;
  pending_upload : option bytes;
  pending_reply : option bytes;
  accepted : option bool;
}.

Definition new (socket : Z) (client : SocketAddr.t) (address : Address.t) (port : Z)
    (payload : bytes) : t :=
  mk socket client address port false None (Some payload) None None.

Definition set_pending (f : t) (upload reply : option bytes) : t :=
  mk (socket f) (client f) (address f) (port f) (announced f) (stack f) upload reply (accepted f).

(** What the flow meets in one poll: the answer of the stack to a send and to a
    receive, and those of the client's socket to the replies. *)
Record io := mkIo {
  stack_send : Prelude.poll (result unit unit);
  stack_recv : Prelude.poll (result unit datagram_recv);
  old_reply : send_answer;
  new_reply : send_answer;
}.

(** The receiving half of [poll]. *)
Definition poll_recv (f : t) (i : io) : t * Prelude.poll (result unit bool) :=
  match stack_recv i with
  | Ready (Ok (Datagram data)) =>
      match encode_udp_header (address f) (port f) with
      | Err e => (f, Ready (Err e))
      | Ok header =>
          let reply := header ++ data in
          match new_reply i with
          | Sent n => (f, if n =? len reply then Ready (Ok false) else Ready (Err tt))
          | SendBlocks => (set_pending f (pending_upload f) (Some reply), Pending)
          | SendFails => (f, Ready (Err tt))
          end
      end
  | Ready (Ok (BufferTooSmall _)) => (f, Ready (Err tt))
  | Ready (Ok Closed) => (f, Ready (Ok true))
  | Ready (Err e) => (f, Ready (Err e))
  | Pending => (f, Pending)
  end.

Definition poll_reply (f : t) (i : io) : t * Prelude.poll (result unit bool) :=
  match pending_reply f with
  | None => poll_recv f i
  | Some reply =>
      match old_reply i with
      | Sent n =>
          if n =? len reply then poll_recv (set_pending f (pending_upload f) None) i
          else (f, Ready (Err tt))
      | SendBlocks => (f, Pending)
      | SendFails => (f, Ready (Err tt))
      end
  end.

Definition poll (f : t) (i : io) : t * Prelude.poll (result unit bool) :=
  if bool_decide (accepted f = Some false) then (f, Ready (Ok true))
  else if negb (bool_decide (accepted f = Some true)) then (f, Pending)
  else match stack f with
  | None => (f, Pending)
  | Some _ =>
      match pending_upload f with
      | None => poll_reply f i
      | Some _ =>
          match stack_send i with
          | Ready (Ok _) => poll_reply (set_pending f None (pending_reply f)) i
          | Ready (Err e) => (f, Ready (Err e))
          | Pending => (f, Pending)
          end
      end
  end.
End UdpClientFlow.

Module UdpAssociation.
Record t := mk {
  control : ClientConnection.t;
  socket : Z;
  client : option SocketAddr.t;
  destinations : gmap (Address.t * Z) Z;
}.

Definition set_control (a : t) (c : ClientConnection.t) : t :=
  mk c (socket a) (client a) (destinations a).
Definition set_client (a : t) (c : SocketAddr.t) : t :=
  mk (control a) (socket a) (Some c) (destinations a).
Definition set_destinations (a : t) (d : gmap (Address.t * Z) Z) : t :=
  mk (control a) (socket a) (client a) d.
End UdpAssociation.

(** * The instance *)

Module State.
Record t := mk {
  listen : SocketAddr.t;
  options : Options.t;
  clients : list ClientConnection.t;
  flows : gmap Z ClientFlow.t;
  associations : list UdpAssociation.t;
  udp_flows : gmap Z UdpClientFlow.t;
  next_flow : Z;
}.

Definition set_flows (s : t) (f : gmap Z ClientFlow.t) : t :=
  mk (listen s) (options s) (clients s) f (associations s) (udp_flows s) (next_flow s).
Definition set_udp_flows (s : t) (f : gmap Z UdpClientFlow.t) : t :=
  mk (listen s) (options s) (clients s) (flows s) (associations s) f (next_flow s).
Definition set_clients (s : t) (c : list ClientConnection.t) : t :=
  mk (listen s) (options s) c (flows s) (associations s) (udp_flows s) (next_flow s).
Definition set_associations (s : t) (a : list UdpAssociation.t) : t :=
  mk (listen s) (options s) (clients s) (flows s) a (udp_flows s) (next_flow s).
End State.

(** The listeners of the process: the connections accepted for each member of a
    group wait in its queue. *)
Module ListenerGroup.
Record t := mk { members : list Z; queues : gmap Z (list Z); next : Z }.
End ListenerGroup.

Definition listeners := gmap SocketAddr.t ListenerGroup.t.

Inductive peek_answer := PeekData | PeekEof | PeekBlocks | PeekFails.
Inductive recv_answer := Received (data : bytes) (source : SocketAddr.t) | RecvBlocks | RecvFails.

Record Env := mkEnv {
  (** The connections the listener of an address gives before it blocks or fails. *)
  accepts : SocketAddr.t -> list Z;
  (** [ClientConnection::new] succeeds on the stream. *)
  usable : Z -> bool;
  reads : Z -> list read_answer;
  writes : Z -> list write_answer;
  (** The writes on the control stream of an association. *)
  control_writes : Z -> list write_answer;
  peeks : Z -> peek_answer;
  (** The socket of the association of a control stream, bound, non-blocking and
      with its address, or the failure of one of the three. *)
  udp_bind : Z -> option (Z * SocketAddr.t);
  receives : Z -> recv_answer;
  (** [try_clone] and [UdpClientFlow::new] succeed on the socket. *)
  clones : Z -> bool;
  uploads : Z -> nat * pump_answer;
  downloads : Z -> pump_answer;
  (** [Pump::new] gives both pumps. *)
  pumps : bool;
  datagrams : Z -> UdpClientFlow.io;
}.

(** ** Listeners *)

(** [listener] says whether [reusable_listener] gives one. *)
Definition register_listener (ls : listeners) (instance : Z) (address : SocketAddr.t)
    (listener : bool) : result unit listeners :=
  group ← match ls !! address with
          | Some g => Ok g
          | None => if listener then Ok (ListenerGroup.mk [] ∅ 0) else Err tt
          end;
  Ok (<[address := ListenerGroup.mk (ListenerGroup.members group ++ [instance])
         (<[instance := []]> (ListenerGroup.queues group)) (ListenerGroup.next group)]> ls).

Definition unregister_listener (ls : listeners) (instance : Z) (address : SocketAddr.t) : listeners :=
  match ls !! address with
  | None => ls
  | Some g =>
      let members := filter (fun m => m <> instance) (ListenerGroup.members g) in
      let g := ListenerGroup.mk members (delete instance (ListenerGroup.queues g))
        (Z.min (ListenerGroup.next g) (saturating_sub (len members) 1)) in
      if bool_decide (members = []) then delete address ls else <[address := g]> ls
  end.

(** The accept loop hands the connections to the members in turn. *)
Fixpoint distribute (g : ListenerGroup.t) (streams : list Z) : ListenerGroup.t :=
  match streams with
  | [] => g
  | stream :: streams =>
      let members := ListenerGroup.members g in
      match members !! Z.to_nat (ListenerGroup.next g mod len members) with
      | None => g
      | Some member =>
          let queues := ListenerGroup.queues g in
          distribute
            (ListenerGroup.mk members
               (match queues !! member with
                | Some q => <[member := q ++ [stream]]> queues
                | None => queues
                end)
               ((ListenerGroup.next g + 1) mod len members)) streams
      end
  end.

(** The loop that takes connections from the queue, with what is left of it. *)
Fixpoint take_clients (e : Env) (max others : Z) (clients : list ClientConnection.t) (queue : list Z)
    : list ClientConnection.t * list Z :=
  if len clients + others <? max then
    match queue with
    | [] => (clients, [])
    | stream :: queue =>
        take_clients e max others
          (if usable e stream then clients ++ [ClientConnection.new stream] else clients) queue
    end
  else (clients, queue).

Definition accept_clients (e : Env) (ls : listeners) (instance : Z) (s : State.t)
    : listeners * State.t :=
  match ls !! State.listen s with
  | None => (ls, s)
  | Some g =>
      let g := distribute g (accepts e (State.listen s)) in
      match ListenerGroup.queues g !! instance with
      | None => (<[State.listen s := g]> ls, s)
      | Some queue =>
          let '(clients, queue) :=
            take_clients e (Options.max_connections (State.options s))
              (Z.of_nat (size (State.flows s)) + len (State.associations s)) (State.clients s) queue in
          (<[State.listen s := ListenerGroup.mk (ListenerGroup.members g)
               (<[instance := queue]> (ListenerGroup.queues g)) (ListenerGroup.next g)]> ls,
           State.set_clients s clients)
      end
  end.

(** ** Clients *)

(** [Vec::swap_remove], for an index in range. *)
Definition swap_remove {A} (l : list A) (i : nat) : list A :=
  match last l with
  | Some x => take (length l - 1) (<[i := x]> l)
  | None => l
  end.

Definition poll_client (e : Env) (limit : Z) (c : ClientConnection.t) : ClientConnection.t :=
  let stream := ClientConnection.stream c in
  match ClientConnection.poll c limit (reads e stream) (writes e stream) with
  | (c, Ok _) => c
  | (c, Err _) => ClientConnection.set_phase c ClientPhase.Failed
  end.

(** The indices of the clients that are ready, in order. *)
Fixpoint ready_indices (i : nat) (clients : list ClientConnection.t) : list nat :=
  match clients with
  | [] => []
  | c :: clients =>
      if ClientConnection.ready c then i :: ready_indices (S i) clients
      else ready_indices (S i) clients
  end.

(** What a request that is complete becomes: a flow, an association, or nothing. *)
Definition start (e : Env) (s : State.t) (c : ClientConnection.t) (request : Request.t) : State.t :=
  match Request.command request with
  | Command.Connect =>
      match checked_add u64_max (State.next_flow s) 1 with
      | None => s
      | Some next =>
          State.mk (State.listen s) (State.options s) (State.clients s)
            (if pumps e then <[State.next_flow s := ClientFlow.new c request]> (State.flows s)
             else State.flows s)
            (State.associations s) (State.udp_flows s) next
      end
  | Command.UdpAssociate =>
      if len (State.associations s) <? Options.max_udp_associations (State.options s) then
        match parse_socket_addr (Options.listen (State.options s)), udp_bind e (ClientConnection.stream c) with
        | Some _, Some (socket, address) =>
            State.set_associations s
              (State.associations s ++
               [UdpAssociation.mk (ClientConnection.queue c (socks_bound_response address)) socket None ∅])
        | _, _ => s
        end
      else s
  end.

Definition promote1 (e : Env) (s : State.t) (index : nat) : State.t :=
  match State.clients s !! index with
  | None => s
  | Some c =>
      let s := State.set_clients s (swap_remove (State.clients s) index) in
      match ClientConnection.phase c with
      | ClientPhase.Ready request => start e s c request
      | _ => s
      end
  end.

Definition kept (c : ClientConnection.t) : Prop :=
  ClientConnection.phase c <> ClientPhase.Failed \/ ClientConnection.output c <> [].
#[global] Instance kept_dec c : Decision (kept c).
Proof. unfold kept. solve_decision. Defined.

Definition poll_clients (e : Env) (s : State.t) : State.t :=
  let clients := map (poll_client e (Options.max_request_bytes (State.options s))) (State.clients s) in
  let s := fold_left (promote1 e) (rev (ready_indices 0 clients)) (State.set_clients s clients) in
  State.set_clients s (filter kept (State.clients s)).

(** ** UDP *)

(** One association: what it becomes, the packet it receives, and whether it
    is closed. *)
Definition poll_association (e : Env) (a : UdpAssociation.t)
    : UdpAssociation.t * option (SocketAddr.t * UdpPacket.t) * bool :=
  let stream := ClientConnection.stream (UdpAssociation.control a) in
  let '(control, r) := ClientConnection.write_pending (UdpAssociation.control a) (control_writes e stream) in
  let a := UdpAssociation.set_control a control in
  match r with
  | Err _ => (a, None, true)
  | Ok _ =>
      match peeks e stream with
      | PeekEof | PeekFails => (a, None, true)
      | PeekData | PeekBlocks =>
          match receives e (UdpAssociation.socket a) with
          | Received data source =>
              if is_some_and (UdpAssociation.client a) (fun c => negb (bool_decide (c = source)))
              then (a, None, false)
              else
                let a := UdpAssociation.set_client a source in
                match parse_udp data with
                | Ok packet => (a, Some (source, packet), false)
                | Err _ => (a, None, false)
                end
          | RecvBlocks => (a, None, false)
          | RecvFails => (a, None, true)
          end
      end
  end.

(** The packets with the index of their association, and the indices of the
    associations that are closed, both in order. *)
Fixpoint poll_sockets (e : Env) (i : nat) (associations : list UdpAssociation.t)
    : list UdpAssociation.t * list (nat * SocketAddr.t * UdpPacket.t) * list nat :=
  match associations with
  | [] => ([], [], [])
  | a :: associations =>
      let '(a, packet, close) := poll_association e a in
      let '(associations, packets, closed) := poll_sockets e (S i) associations in
      (a :: associations,
       match packet with Some (source, p) => (i, source, p) :: packets | None => packets end,
       if close then i :: closed else closed)
  end.

(** A packet for a destination that has no flow. *)
Definition new_udp_flow (e : Env) (s : State.t) (index : nat) (a : UdpAssociation.t)
    (source : SocketAddr.t) (p : UdpPacket.t) : State.t :=
  let key := (UdpPacket.address p, UdpPacket.port p) in
  let put a := <[index := a]> (State.associations s) in
  let without := UdpAssociation.set_destinations a (delete key (UdpAssociation.destinations a)) in
  let s := State.set_associations s (put without) in
  if Options.max_connections (State.options s)
     <=? Z.of_nat (size (State.flows s)) + Z.of_nat (size (State.udp_flows s))
  then s
  else match checked_add u64_max (State.next_flow s) 1 with
  | None => s
  | Some next =>
      if clones e (UdpAssociation.socket a) then
        let handle := State.next_flow s in
        State.mk (State.listen s) (State.options s) (State.clients s) (State.flows s)
          (put (UdpAssociation.set_destinations a
                  (<[key := handle]> (delete key (UdpAssociation.destinations a)))))
          (<[handle := UdpClientFlow.new (UdpAssociation.socket a) source (UdpPacket.address p)
                         (UdpPacket.port p) (UdpPacket.payload p)]> (State.udp_flows s))
          next
      else s
  end.

Definition deliver (e : Env) (s : State.t) (packet : nat * SocketAddr.t * UdpPacket.t) : State.t :=
  let '(index, source, p) := packet in
  match State.associations s !! index with
  | None => s
  | Some a =>
      match (handle ← UdpAssociation.destinations a !! (UdpPacket.address p, UdpPacket.port p);
             f ← State.udp_flows s !! handle; Some (handle, f)) with
      | Some (handle, f) =>
          if is_none (UdpClientFlow.pending_upload f) then
            State.set_udp_flows s
              (<[handle := UdpClientFlow.set_pending f (Some (UdpPacket.payload p))
                             (UdpClientFlow.pending_reply f)]> (State.udp_flows s))
          else s
      | None => new_udp_flow e s index a source p
      end
  end.

Definition poll_udp_flow (e : Env) (handle : Z) (f : UdpClientFlow.t) : option UdpClientFlow.t :=
  match UdpClientFlow.poll f (datagrams e handle) with
  | (_, Ready (Ok true)) | (_, Ready (Err _)) => None
  | (f, _) => Some f
  end.

Definition poll_udp_associations (e : Env) (s : State.t) : State.t :=
  let '(associations, packets, closed) := poll_sockets e 0 (State.associations s) in
  let s := fold_left (deliver e) packets (State.set_associations s associations) in
  let s := State.set_udp_flows s (map_imap (poll_udp_flow e) (State.udp_flows s)) in
  State.set_associations s (fold_left swap_remove (rev closed) (State.associations s)).

(** ** The operations *)

Definition poll_flow (e : Env) (handle : Z) (f : ClientFlow.t) : option ClientFlow.t :=
  match ClientFlow.poll f (writes e (SocksIo.stream (ClientFlow.client f)))
          (uploads e handle) (downloads e handle) with
  | (_, Ready (Ok true)) | (_, Ready (Err _)) => None
  | (f, _) => Some f
  end.

Definition poll_state (e : Env) (ls : listeners) (instance : Z) (s : State.t) : listeners * State.t :=
  let '(ls, s) := accept_clients e ls instance s in
  let s := poll_clients e s in
  let s := State.set_flows s (map_imap (poll_flow e) (State.flows s)) in
  (ls, poll_udp_associations e s).

Section instance.
Context `{HashOrder}.

Definition announce (f : ClientFlow.t) : ClientFlow.t :=
  ClientFlow.mk (ClientFlow.client f) (ClientFlow.address f) (ClientFlow.port f) true
    (ClientFlow.stack f) (ClientFlow.response f) (ClientFlow.response_offset f) (ClientFlow.accepted f).

Definition announce_udp (f : UdpClientFlow.t) : UdpClientFlow.t :=
  UdpClientFlow.mk (UdpClientFlow.socket f) (UdpClientFlow.client f) (UdpClientFlow.address f)
    (UdpClientFlow.port f) true (UdpClientFlow.stack f) (UdpClientFlow.pending_upload f)
    (UdpClientFlow.pending_reply f) (UdpClientFlow.accepted f).

Definition find_new {A} (announced : A -> bool) (m : gmap Z A) : option (Z * A) :=
  head (filter (fun '(_, f) => announced f = false) (hash_order (map_to_list m))).

(** [accept]: the flow it announces, UDP or not, with its address and port. *)
Definition accept (e : Env) (ls : listeners) (instance : Z) (s : State.t)
    : listeners * State.t * option (Z * bool * Address.t * Z) * Status.t :=
  let '(ls, s) := poll_state e ls instance s in
  match find_new ClientFlow.announced (State.flows s) with
  | Some (handle, f) =>
      (ls, State.set_flows s (<[handle := announce f]> (State.flows s)),
       Some (handle, false, ClientFlow.address f, ClientFlow.port f), Status.OK)
  | None =>
      match find_new UdpClientFlow.announced (State.udp_flows s) with
      | Some (handle, f) =>
          (ls, State.set_udp_flows s (<[handle := announce_udp f]> (State.udp_flows s)),
           Some (handle, true, UdpClientFlow.address f, UdpClientFlow.port f), Status.OK)
      | None => (ls, s, None, Status.PENDING)
      end
  end.
End instance.

(** [attach] and [attach_datagram]; [usable] says whether the table of the
    stack's socket can be used. *)
Definition attach (s : State.t) (flow stack_socket : Z) (usable : bool) : State.t * Status.t :=
  if (flow =? 0) || (stack_socket =? 0) then (s, Status.INVALID)
  else match State.flows s !! flow with
  | None => (s, Status.INVALID)
  | Some f =>
      if is_some (ClientFlow.stack f) || negb usable then (s, Status.INVALID)
      else
        (State.set_flows s
           (<[flow := ClientFlow.mk (ClientFlow.client f) (ClientFlow.address f) (ClientFlow.port f)
                (ClientFlow.announced f) (Some stack_socket) (ClientFlow.response f)
                (ClientFlow.response_offset f) (ClientFlow.accepted f)]> (State.flows s)), Status.OK)
  end.

Definition attach_datagram (s : State.t) (flow stack_socket : Z) (usable : bool) : State.t * Status.t :=
  if (flow =? 0) || (stack_socket =? 0) then (s, Status.INVALID)
  else match State.udp_flows s !! flow with
  | None => (s, Status.INVALID)
  | Some f =>
      if is_some (UdpClientFlow.stack f) || negb usable then (s, Status.INVALID)
      else
        (State.set_udp_flows s
           (<[flow := UdpClientFlow.mk (UdpClientFlow.socket f) (UdpClientFlow.client f)
                (UdpClientFlow.address f) (UdpClientFlow.port f) (UdpClientFlow.announced f)
                (Some stack_socket) (UdpClientFlow.pending_upload f) (UdpClientFlow.pending_reply f)
                (UdpClientFlow.accepted f)]> (State.udp_flows s)), Status.OK)
  end.

Definition reply_of (status : Status.t) : Z :=
  match status with
  | Status.OK => 0
  | Status.DENIED => 2
  | Status.UNSUPPORTED => 7
  | Status.IO => 5
  | _ => 1
  end.

Definition complete (s : State.t) (flow : Z) (status : Status.t) (reason_length : Z)
    : State.t * Status.t :=
  if (flow =? 0) || (256 <? reason_length) then (s, Status.INVALID)
  else match State.flows s !! flow with
  | Some f =>
      (State.set_flows s
         (<[flow := ClientFlow.mk (ClientFlow.client f) (ClientFlow.address f) (ClientFlow.port f)
              (ClientFlow.announced f) (ClientFlow.stack f) (socks_response (reply_of status)) 0
              (Some (bool_decide (status = Status.OK)))]> (State.flows s)), Status.OK)
  | None =>
      match State.udp_flows s !! flow with
      | Some f =>
          (State.set_udp_flows s
             (<[flow := UdpClientFlow.mk (UdpClientFlow.socket f) (UdpClientFlow.client f)
                  (UdpClientFlow.address f) (UdpClientFlow.port f) (UdpClientFlow.announced f)
                  (UdpClientFlow.stack f) (UdpClientFlow.pending_upload f)
                  (UdpClientFlow.pending_reply f)
                  (Some (bool_decide (status = Status.OK)))]> (State.udp_flows s)), Status.OK)
      | None => (s, Status.INVALID)
      end
  end.

Definition close_flow (s : State.t) (flow : Z) : State.t * Status.t :=
  if flow =? 0 then (s, Status.INVALID)
  else if is_some (State.flows s !! flow) || is_some (State.udp_flows s !! flow) then
    (State.mk (State.listen s) (State.options s) (State.clients s) (delete flow (State.flows s))
       (State.associations s) (delete flow (State.udp_flows s)) (State.next_flow s), Status.OK)
  else (s, Status.INVALID).

(** The instances of the process, with the listeners they share. *)
Record process := mkProcess { registry : listeners; states : gmap Z State.t }.

Definition initialize `{Toml Options.t} (p : process) (instance : Z) (config : bytes) (listener : bool)
    : process * result Status.t unit :=
  match parse_options config with
  | Err _ => (p, Err Status.INVALID)
  | Ok options =>
      match parse_socket_addr (Options.listen options) with
      | None => (p, Err Status.INVALID)
      | Some address =>
          match register_listener (registry p) instance address listener with
          | Err _ => (p, Err Status.IO)
          | Ok ls =>
              (mkProcess ls (<[instance := State.mk address options [] ∅ [] ∅ 1]> (states p)), Ok tt)
          end
      end
  end.

Definition poll_instance (e : Env) (p : process) (instance : Z) : process * Status.t :=
  match states p !! instance with
  | None => (p, Status.INVALID)
  | Some s =>
      let '(ls, s) := poll_state e (registry p) instance s in
      (mkProcess ls (<[instance := s]> (states p)), Status.PENDING)
  end.

Definition shutdown_instance (p : process) (instance : Z) : process * Status.t :=
  match states p !! instance with
  | None => (p, Status.INVALID)
  | Some s =>
      (mkProcess (unregister_listener (registry p) instance (State.listen s))
         (delete instance (states p)), Status.OK)
  end.

Definition destroy_instance (p : process) (instance : Z) : process :=
  match states p !! instance with
  | None => p
  | Some s =>
      mkProcess (unregister_listener (registry p) instance (State.listen s)) (delete instance (states p))
  end.
