(* ===== verification/SocksFacts.v ===== *)
(** What adapter-socks5 guarantees of its messages and of the negotiation with a
    client. *)
From Stdlib Require Import Strings.Byte.
From S2P Require Import Prelude Text Net Admin Abi Socket Socks.
#[local] Open Scope Z_scope.

(** * Messages *)

Definition address_ok (a : Address.t) : Prop :=
  match a with
  | Address.Ipv4 n => 0 <= n <= u32_max
  | Address.Ipv6 n => 0 <= n <= u128_max
  | Address.Domain name => name <> [] /\ valid_domain name = true
  end.

(** The address as it is sent: its type, its bytes and the port. *)
Definition encode_address (a : Address.t) (port : Z) : bytes :=
  match a with
  | Address.Ipv4 n => x01 :: be_bytes 4 n
  | Address.Ipv6 n => x04 :: be_bytes 16 n
  | Address.Domain name => x03 :: to_u8 (len name) :: name
  end ++ be_bytes 2 port.

Lemma valid_domain_len name : valid_domain name = true -> len name <= 253 /\ is_ascii name = true.
Proof. unfold valid_domain. intros Hv. by bools. Qed.

Lemma get_range_middle (a b c : bytes) n k : length a = n -> length b = k -> get_range (a ++ b ++ c) n k = Some b.
Proof.
  intros <- <-. unfold get_range. rewrite drop_app_length, take_app_length.
  case_match eqn:E; [done|]. exfalso. revert E. rewrite !length_app.
  rewrite ?Nat.leb_gt, ?Nat.ltb_ge. lia.
Qed.

Lemma get_range_inv (l : bytes) o n b :
  get_range l o n = Some b -> length b = n /\ take n (drop o l) = b /\ (o + n <= length l)%nat.
Proof.
  unfold get_range. destruct (o + n <=? length l)%nat eqn:E; [|done]. intros [= <-].
  apply Nat.leb_le in E. rewrite length_take, length_drop. split_and!; [lia|done|lia].
Qed.

Lemma parse_host_encode a p rest :
  address_ok a ->
  parse_host (encode_address a p ++ rest) = Ok (a, (length (encode_address a p) - 2)%nat).
Proof.
  intros Ha. destruct a as [n|n|name]; unfold encode_address, parse_host; cbn [app head ok_or mbind result_bind];
    rewrite <- ?app_assoc.
  - change (u8 x01 =? 1) with true. cbn [app].
    pose proof (get_range_middle [x01] (be_bytes 4 n) (be_bytes 2 p ++ rest) 1 4 eq_refl (length_be_bytes _ _)) as Hg.
    cbn [app] in Hg. rewrite Hg.
    cbn [ok_or mbind result_bind].
    unfold address_ok in Ha. rewrite of_be_be_bytes_small by (unfold u32_max in Ha; simpl; lia).
    cbn [length]. by rewrite length_app, !length_be_bytes.
  - change (u8 x04 =? 1) with false. change (u8 x04 =? 4) with true. cbn [app].
    pose proof (get_range_middle [x04] (be_bytes 16 n) (be_bytes 2 p ++ rest) 1 16 eq_refl (length_be_bytes _ _)) as Hg.
    cbn [app] in Hg. rewrite Hg.
    cbn [ok_or mbind result_bind].
    unfold address_ok in Ha. rewrite of_be_be_bytes_small by (unfold u128_max in Ha; simpl; lia).
    cbn [length]. by rewrite length_app, !length_be_bytes.
  - destruct Ha as [Hne Hv]. destruct (valid_domain_len name Hv) as [Hl Hascii].
    change (u8 x03 =? 1) with false. change (u8 x03 =? 4) with false. change (u8 x03 =? 3) with true.
    cbn [app lookup list_lookup ok_or mbind result_bind].
    rewrite u8_to_u8, Z.mod_small by (pose proof (len_nonneg name); lia).
    replace (Z.to_nat (len name)) with (length name) by (unfold len; lia).
    rewrite (proj2 (Nat.eqb_neq _ _)) by (by destruct name).
    pose proof (get_range_middle [x03; to_u8 (len name)] name (be_bytes 2 p ++ rest) 2 _ eq_refl eq_refl) as Hg.
    cbn [app] in Hg. rewrite Hg.
    cbn [ok_or mbind result_bind]. rewrite utf8_ascii by done. cbn [ok_or mbind result_bind].
    rewrite Hv. cbn [negb length]. rewrite length_app, length_be_bytes.
    f_equal. f_equal. lia.
Qed.

Lemma length_encode_address a p : (2 <= length (encode_address a p))%nat.
Proof. destruct a; unfold encode_address; simpl; rewrite ?length_app, ?length_be_bytes; lia. Qed.

Lemma parse_address_encode a port rest allow :
  address_ok a -> 0 <= port <= u16_max -> (port = 0 -> allow = true) ->
  parse_address (encode_address a port ++ rest) allow = Ok (a, port, length (encode_address a port)).
Proof.
  intros Ha Hp Hz. unfold parse_address. rewrite parse_host_encode by done. simpl.
  pose proof (length_encode_address a port).
  assert (get_range (encode_address a port ++ rest) (length (encode_address a port) - 2) 2
    = Some (be_bytes 2 port)) as ->.
  { unfold encode_address at 1. rewrite <- app_assoc. apply get_range_middle; [|apply length_be_bytes].
    unfold encode_address. rewrite length_app, length_be_bytes. lia. }
  simpl. rewrite of_be_be_bytes_small by (unfold u16_max in Hp; simpl; lia).
  destruct (port =? 0) eqn:E; bools; [rewrite Hz by done|]; simpl; repeat f_equal; lia.
Qed.

Lemma be_bytes_range n (b : bytes) : length b = n -> be_bytes n (of_be b) = b /\ 0 <= of_be b < 256 ^ Z.of_nat n.
Proof. intros Hb. split; [by apply be_bytes_of_be|]. pose proof (of_be_range b) as Hr. unfold len in Hr. by rewrite Hb in Hr. Qed.

(** The bytes of [parse_host] are those of the address it gives. *)
Lemma parse_host_inv input a n :
  parse_host input = Ok (a, n) ->
  address_ok a /\ forall p, take n input ++ be_bytes 2 p = encode_address a p.
Proof.
  unfold parse_host. destruct input as [|kind input]; [done|]. simpl.
  destruct (u8 kind =? 1) eqn:E1; [|destruct (u8 kind =? 4) eqn:E4; [|destruct (u8 kind =? 3) eqn:E3; [|done]]];
    bools.
  - destruct (get_range _ _ _) as [b|] eqn:Eg; [|done]. simpl. intros [= <- <-].
    apply get_range_inv in Eg as (Hl & Hb & _). destruct (be_bytes_range 4 b Hl) as [Hb' Hr].
    split; [unfold address_ok, u32_max; simpl in Hr; lia|]. intros p. unfold encode_address.
    rewrite Hb'. simpl in Hb. cbn [take app]. rewrite drop_0 in Hb. rewrite Hb.
    f_equal. rewrite <- (to_u8_u8 kind), E1. done.
  - destruct (get_range _ _ _) as [b|] eqn:Eg; [|done]. simpl. intros [= <- <-].
    apply get_range_inv in Eg as (Hl & Hb & _). destruct (be_bytes_range 16 b Hl) as [Hb' Hr].
    split; [unfold address_ok, u128_max; simpl in Hr; lia|]. intros p. unfold encode_address.
    rewrite Hb'. simpl in Hb. cbn [take app]. rewrite drop_0 in Hb. rewrite Hb.
    f_equal. rewrite <- (to_u8_u8 kind), E4. done.
  - destruct input as [|l input]; [done|]. cbn [lookup list_lookup ok_or mbind result_bind].
    destruct (Nat.eqb _ 0) eqn:E0; [done|]. apply Nat.eqb_neq in E0.
    destruct (get_range _ _ _) as [b|] eqn:Eg; [|done]. simpl.
    destruct (from_utf8 b) as [d|] eqn:Eu; [|done]. simpl.
    destruct (valid_domain d) eqn:Ev; [|done]. simpl. intros [= <- <-].
    apply get_range_inv in Eg as (Hl & Hb & _).
    assert (d = b) as -> by (unfold from_utf8 in Eu; case_if_in Eu; congruence).
    split; [split; [intros ->; simpl in Hl; lia|done]|]. intros p. unfold encode_address.
    simpl in Hb. cbn [take app]. rewrite drop_0 in Hb. rewrite Hb.
    pose proof (u8_range l). replace (len b) with (u8 l) by (unfold len; lia).
    rewrite to_u8_u8. f_equal. rewrite <- (to_u8_u8 kind), E3. done.
Qed.

Lemma parse_address_inv input allow a port n :
  parse_address input allow = Ok (a, port, n) ->
  address_ok a /\ 0 <= port <= u16_max /\ (port = 0 -> allow = true) /\
  take n input = encode_address a port /\ length (encode_address a port) = n.
Proof.
  unfold parse_address. destruct (parse_host input) as [[a' o]|] eqn:Eh; [|done]. simpl.
  destruct (get_range _ _ _) as [b|] eqn:Eg; [|done]. simpl.
  destruct ((of_be b =? 0) && _) eqn:E0; [done|]. intros [= <- <- <-].
  apply parse_host_inv in Eh as [Ha He]. apply get_range_inv in Eg as (Hl & Hb & Hlen).
  destruct (be_bytes_range 2 b Hl) as [Hb' Hr].
  assert (take (o + 2) input = encode_address a' (of_be b)) as Ht.
  { rewrite <- He, Hb', <- Hb, Nat.add_comm. rewrite (Nat.add_comm 2), <- take_take_drop. done. }
  split_and!; [done|lia|unfold u16_max; simpl in Hr; lia| |done|].
  - intros Hz. rewrite Hz in E0. simpl in E0. by destruct allow.
  - rewrite <- Ht, length_take. lia.
Qed.

Lemma encode_udp_header_ok a port :
  address_ok a -> encode_udp_header a port = Ok (x00 :: x00 :: x00 :: encode_address a port).
Proof.
  destruct a as [n|n|name]; [done..|]. intros [_ Hv]. destruct (valid_domain_len _ Hv).
  unfold encode_udp_header. rewrite (proj2 (Z.leb_le _ _)) by lia. done.
Qed.

(** C36: The UDP header of the adapter and its parser agree: a datagram is
    accepted exactly when it is the header of a well-formed destination, as the
    adapter writes it into its replies, followed by the payload. *)
Theorem socks_udp_roundtrip input p :
  parse_udp input = Ok p <->
  address_ok (UdpPacket.address p) /\ 1 <= UdpPacket.port p <= u16_max /\
  exists header, encode_udp_header (UdpPacket.address p) (UdpPacket.port p) = Ok header /\
    input = header ++ UdpPacket.payload p.
Proof.
  split.
  - unfold parse_udp. destruct input as [|b0 [|b1 [|b2 [|b3 input]]]]; try done.
    destruct (negb (u8 b0 =? 0) || _) eqn:E01; [done|]. destruct (negb (u8 b2 =? 0)) eqn:E2; [done|]. bools.
    destruct (parse_address _ false) as [[[a port] n]|] eqn:Ea; [|done]. intros [= <-]. simpl in Ea |- *.
    apply parse_address_inv in Ea as (Ha & Hp & Hz & Ht & Hl).
    assert (port <> 0) by (intros ->; by specialize (Hz eq_refl)).
    split; [done|]. split; [lia|]. rewrite encode_udp_header_ok by done. eexists. split; [done|].
    rewrite <- (to_u8_u8 b0), <- (to_u8_u8 b1), <- (to_u8_u8 b2).
    repeat match goal with H : u8 _ = 0 |- _ => rewrite H; clear H end.
    simpl. rewrite <- Ht, take_drop. done.
  - intros (Ha & Hp & header & Hh & ->). rewrite encode_udp_header_ok in Hh by done. injection Hh as <-.
    destruct p as [a port payload]. simpl in *.
    pose proof (length_encode_address a port). destruct (encode_address a port) as [|b3 l] eqn:El; [simpl in *; lia|].
    unfold parse_udp. cbn [app]. change (u8 x00) with 0. cbn [negb orb Z.eqb drop].
    change (b3 :: l ++ payload) with ((b3 :: l) ++ payload). rewrite <- El.
    rewrite parse_address_encode by (done || lia). simpl.
    by rewrite drop_app_length.
Qed.

Definition command_byte (c : Command.t) : byte :=
  match c with Command.Connect => x01 | Command.UdpAssociate => x03 end.

Definition encode_request (r : Request.t) : bytes :=
  x05 :: command_byte (Request.command r) :: x00 :: encode_address (Request.address r) (Request.port r).

(** A request of UDP ASSOCIATE may leave the port open. *)
Definition request_ok (r : Request.t) : Prop :=
  address_ok (Request.address r) /\ 0 <= Request.port r <= u16_max /\
  (Request.port r = 0 -> Request.command r = Command.UdpAssociate).

Lemma parse_command_ok b c : parse_command b = Ok c <-> b = command_byte c.
Proof.
  unfold parse_command. split.
  - repeat case_if; intros [= <-]; rewrite <- (to_u8_u8 b);
      match goal with H : u8 b = _ |- _ => rewrite H end; done.
  - intros ->. by destruct c.
Qed.

Lemma encode_address_cons a port : exists k l, encode_address a port = k :: l.
Proof. by destruct a; eexists _, _. Qed.

Lemma parse_encode_request r : request_ok r -> parse_request (encode_request r) = Ok r.
Proof.
  intros (Ha & Hp & Hz). destruct r as [c a port]. unfold encode_request. simpl in *.
  destruct (encode_address_cons a port) as (k & l & El). rewrite El. unfold parse_request.
  change (u8 x05 =? 5) with true. change (u8 x00 =? 0) with true. cbn [negb orb].
  rewrite (proj2 (parse_command_ok _ c)) by done. cbn [mbind result_bind drop]. rewrite <- El.
  rewrite <- (app_nil_r (encode_address a port)), parse_address_encode; [|done|done|].
  - cbn [mbind result_bind]. rewrite El. cbn [length]. rewrite app_nil_r.
    by rewrite (proj2 (Nat.eqb_eq _ _)) by (simpl; lia).
  - intros ->. by rewrite Hz, bool_decide_true.
Qed.

Lemma request_length_encode r rest :
  request_ok r -> request_length (encode_request r ++ rest) = Some (length (encode_request r)).
Proof.
  intros (Ha & _). destruct r as [c [n|n|name] port]; unfold request_length, encode_request, encode_address;
    simpl in Ha; cbn [Request.address Request.port Request.command app lookup list_lookup mbind option_bind];
    cbn [length]; rewrite ?length_app, ?length_be_bytes; [done..|].
  change (u8 x03 =? 1) with false. change (u8 x03 =? 4) with false. change (u8 x03 =? 3) with true.
  cbn [lookup list_lookup mbind option_bind]. destruct Ha as [_ Hv%valid_domain_len].
  rewrite u8_to_u8, Z.mod_small by (pose proof (len_nonneg name); lia).
  f_equal. unfold len. simpl. lia.
Qed.

(** The parser on exactly the bytes that [request_length] asks for. *)
Lemma parse_address_framed input n allow :
  request_length input = Some n -> (n <= length input)%nat ->
  parse_address (drop 3 (take n input)) allow <> Err ParseError.Incomplete /\
  forall a p c, parse_address (drop 3 (take n input)) allow = Ok (a, p, c) -> (c + 3)%nat = n.
Proof.
  unfold request_length. destruct input as [|b0 [|b1 [|b2 [|k input]]]]; try done.
  cbn [lookup list_lookup mbind option_bind]. intros Hn Hlen.
  assert (exists m, n = (4 + m)%nat) as [m ->].
  { repeat case_if_in Hn; [injection Hn as <-; by eexists..| |injection Hn as <-; by exists O].
    destruct (input !! 0%nat); [|done]. injection Hn as <-. by eexists. }
  cbn [Nat.add take drop length] in *. set (l := take m input).
  assert (length l = m) as Hl by (unfold l; rewrite length_take; lia).
  unfold parse_address, parse_host. cbn [head ok_or mbind result_bind].
  assert (forall o j, (o + j <= S m)%nat -> exists b, get_range (k :: l) o j = Some b) as Hget.
  { intros o j Hoj. unfold get_range. cbn [length]. rewrite Hl.
    rewrite (proj2 (Nat.leb_le _ _)) by lia. by eexists. }
  destruct (u8 k =? 1); [|destruct (u8 k =? 4); [|destruct (u8 k =? 3); [|done]]].
  - injection Hn as <-. destruct (Hget 1%nat 4%nat) as [b ->]; [lia|]. cbn [ok_or mbind result_bind].
    destruct (Hget 5%nat 2%nat) as [b' ->]; [lia|]. cbn [ok_or mbind result_bind].
    case_if; (split; [done|]); [done|]. by intros ? ? ? [= _ _ <-].
  - injection Hn as <-. destruct (Hget 1%nat 16%nat) as [b ->]; [lia|]. cbn [ok_or mbind result_bind].
    destruct (Hget 17%nat 2%nat) as [b' ->]; [lia|]. cbn [ok_or mbind result_bind].
    case_if; (split; [done|]); [done|]. by intros ? ? ? [= _ _ <-].
  - destruct input as [|x input]; [done|]. cbn [lookup list_lookup mbind option_bind] in Hn.
    injection Hn as <-. subst l. cbn [take lookup list_lookup ok_or mbind result_bind].
    set (w := Z.to_nat (u8 x)) in *. destruct (Nat.eqb w 0) eqn:E0; [done|].
    cbn [take Nat.add] in Hget. destruct (Hget 2%nat w) as [b ->]; [lia|]. cbn [ok_or mbind result_bind].
    destruct (from_utf8 b) as [d|]; [|done]. cbn [ok_or mbind result_bind].
    destruct (valid_domain d); [|done]. cbn [negb mbind result_bind].
    destruct (Hget (2 + w)%nat 2%nat) as [b' Hb]; [lia|]. cbn [Nat.add] in *. rewrite Hb. cbn [ok_or mbind result_bind].
    case_if; (split; [done|]); [done|]. intros ? ? ? [= _ _ <-]. lia.
Qed.

Lemma parse_address_no_trailing l allow : parse_address l allow <> Err ParseError.TrailingBytes.
Proof.
  unfold parse_address. destruct (parse_host l) as [[h o]|e] eqn:Eh; cbn [mbind result_bind].
  - destruct (get_range _ _ _); simpl; [by case_if|done].
  - intros [= ->]. revert Eh. unfold parse_host.
    repeat (repeat case_if; match goal with |- context [ok_or ?o _] => destruct o end;
      cbn [ok_or mbind result_bind]; try done); repeat case_if; done.
Qed.

(** The two readings of a request agree: on as many bytes as the framing asks
    for the parser neither asks for more nor finds bytes left over, and it
    accepts exactly the encodings of well-formed requests, which the framing
    delimits whatever follows them. *)
Theorem socks_request_framed input :
  (forall n, request_length input = Some n -> (n <= length input)%nat ->
     parse_request (take n input) <> Err ParseError.Incomplete /\
     parse_request (take n input) <> Err ParseError.TrailingBytes) /\
  (forall r, parse_request input = Ok r <-> request_ok r /\ input = encode_request r) /\
  (forall r rest, request_ok r -> input = encode_request r ++ rest ->
     request_length input = Some (length (encode_request r))).
Proof.
  split_and!.
  - intros n Hn Hlen. pose proof (parse_address_framed input n) as Hf.
    assert (4 <= n)%nat.
    { unfold request_length in Hn. destruct (input !! 3%nat); [|done]. simpl in Hn.
      repeat case_if_in Hn; [simplify_eq; lia..| |simplify_eq; lia].
      destruct (input !! 4%nat); simplify_eq; simpl in *; simplify_eq; lia. }
    assert (length (take n input) = n) as Hl by (rewrite length_take; lia).
    unfold parse_request. destruct (take n input) as [|b0 [|b1 [|b2 [|b3 l]]]] eqn:El; try done.
    destruct (_ || _); [done|]. destruct (parse_command b1) as [c|e] eqn:Ec; cbn [mbind result_bind].
    + destruct (Hf (bool_decide (c = Command.UdpAssociate)) Hn Hlen) as [Hi Hok].
      destruct (parse_address _ _) as [[[a p] k]|e] eqn:Ea; cbn [mbind result_bind].
      * specialize (Hok _ _ _ eq_refl). rewrite Hl, Hok, Nat.eqb_refl. done.
      * split; [congruence|]. intros [= ->]. by apply parse_address_no_trailing in Ea.
    + unfold parse_command in Ec. repeat case_if_in Ec; simplify_eq; done.
  - intros r. split; [|intros [? ->]; by apply parse_encode_request].
    unfold parse_request. destruct input as [|b0 [|b1 [|b2 [|b3 l]]]]; try done.
    destruct (negb (u8 b0 =? 5) || _) eqn:E; [done|]. bools.
    destruct (parse_command b1) as [c|] eqn:Ec; [|done]. apply parse_command_ok in Ec as ->.
    cbn [mbind result_bind drop].
    destruct (parse_address _ _) as [[[a p] k]|] eqn:Ea; [|done]. cbn [mbind result_bind].
    destruct (negb _) eqn:Ek; [done|]. apply negb_false_iff, Nat.eqb_eq in Ek. intros [= <-].
    apply parse_address_inv in Ea as (Ha & Hp & Hz & Ht & Hl).
    rewrite take_ge in Ht by (simpl in *; lia). unfold request_ok, encode_request. simpl. split_and!.
    + done.
    + lia.
    + lia.
    + intros ->. specialize (Hz eq_refl). by bools.
    + rewrite <- Ht, <- (to_u8_u8 b0), <- (to_u8_u8 b2).
      repeat match goal with H : u8 _ = _ |- _ => rewrite H; clear H end. done.
  - intros r rest Hr ->. by apply request_length_encode.
Qed.

(** * The negotiation *)

Import ClientConnection.

(** What is still to be written. *)
Definition unsent (c : t) : bytes := drop (Z.to_nat (output_offset c)) (output c).

Definition offset_ok (c : t) : Prop := 0 <= output_offset c <= len (output c).

Lemma queue_unsent c b :
  offset_ok c -> unsent (queue c b) = unsent c ++ b /\ offset_ok (queue c b).
Proof.
  unfold unsent, queue, offset_ok. intros Ho. pose proof (len_nonneg b). case_if; cbn [output_offset output].
  - rewrite (drop_ge (output c)) by (unfold len in *; lia). split; [done|lia].
  - rewrite drop_app_le by (unfold len in *; lia). rewrite len_app. split; [done|lia].
Qed.

Lemma queue_input c b : input (queue c b) = input c.
Proof. unfold queue. by case_if. Qed.

(** A greeting that is complete: whether it is accepted, and its length. *)
Definition greet (i : bytes) : option (bool * nat) :=
  match i with
  | version :: methods :: _ =>
      let total := (2 + Z.to_nat (u8 methods))%nat in
      if Nat.ltb (length i) total then None
      else Some (negb (negb (u8 version =? 5)
                 || negb (existsb (fun b => u8 b =? 0) (drop 2 (take total i)))), total)
  | _ => None
  end.

(** A request that is complete: what it is, and its length. *)
Definition body (i : bytes) : option (result ParseError.t Request.t * nat) :=
  match request_length i with
  | Some n => if Nat.ltb (length i) n then None else Some (parse_request (take n i), n)
  | None => None
  end.

Definition parsed_body (i : bytes) : ClientPhase.t * bytes * bytes :=
  match body i with
  | None => (ClientPhase.Request, i, [])
  | Some (Ok r, n) => (ClientPhase.Ready r, drop n i, [])
  | Some (Err _, _) => (ClientPhase.Failed, i, socks_response 1)
  end.

(** What [parse] makes of a phase and an input: the phase and the input after
    it, and the bytes it queues. *)
Definition parsed (p : ClientPhase.t) (i : bytes) : ClientPhase.t * bytes * bytes :=
  match p with
  | ClientPhase.Greeting =>
      match greet i with
      | None => (p, i, [])
      | Some (false, _) => (ClientPhase.Failed, i, [x05; xff])
      | Some (true, n) =>
          let '(p, i, q) := parsed_body (drop n i) in (p, i, [x05; x00] ++ q)
      end
  | ClientPhase.Request => parsed_body i
  | _ => (p, i, [])
  end.

Lemma parse_body_spec c :
  offset_ok c -> phase c = ClientPhase.Request ->
  let '(p, i, q) := parsed_body (input c) in
  phase (parse_body c) = p /\ input (parse_body c) = i /\
  unsent (parse_body c) = unsent c ++ q /\ offset_ok (parse_body c).
Proof.
  intros Ho Hp. unfold parse_body, parsed_body, body. destruct (request_length _) as [n|].
  2: by rewrite app_nil_r.
  destruct (Nat.ltb _ _); [by rewrite app_nil_r|]. destruct (parse_request _) as [r|e].
  - by rewrite app_nil_r.
  - destruct (queue_unsent c (socks_response 1) Ho). split_and!; [done|apply queue_input|done|].
    done.
Qed.

(** [parse] depends on the phase and the input alone. *)
Lemma parse_spec c :
  offset_ok c ->
  let '(p, i, q) := parsed (phase c) (input c) in
  phase (parse c) = p /\ input (parse c) = i /\
  unsent (parse c) = unsent c ++ q /\ offset_ok (parse c).
Proof.
  intros Ho. unfold parse, parsed. destruct (phase c) as [| |r|] eqn:Ep.
  - unfold parse_greeting, greet.
    destruct (input c) as [|v [|m l]] eqn:Ei; [by rewrite Ep, app_nil_r..|].
    destruct (Nat.ltb _ _); [by rewrite Ep, app_nil_r|]. destruct (_ || _); cbn [negb].
    + destruct (queue_unsent c [x05; xff] Ho). split_and!; [done| |done|done].
      simpl. by rewrite queue_input.
    + set (rest := drop _ (v :: m :: l)). destruct (queue_unsent (set_input c rest) [x05; x00] Ho) as [Hq Hoq].
      set (d := set_phase (queue (set_input c rest) [x05; x00]) ClientPhase.Request).
      pose proof (parse_body_spec d Hoq eq_refl) as Hb. cbn [phase set_phase d].
      assert (input d = rest) as Hd by (unfold d; simpl; by rewrite queue_input).
      rewrite Hd in Hb. destruct (parsed_body rest) as [[p i] q].
      destruct Hb as (? & ? & Hu & ?). split_and!; [done..| |done].
      rewrite Hu. change (unsent d) with (unsent (queue (set_input c rest) [x05; x00])).
      rewrite Hq. by rewrite <- app_assoc.
  - rewrite Ep. by apply parse_body_spec.
  - rewrite Ep. by rewrite app_nil_r.
  - rewrite Ep. by rewrite app_nil_r.
Qed.

(** ** More bytes *)

Lemma greet_app i b r : greet i = Some r -> greet (i ++ b) = Some r /\ (r.2 <= length i)%nat.
Proof.
  unfold greet. destruct i as [|v [|m l]]; try done. cbn [app].
  destruct (Nat.ltb _ _) eqn:E; [done|]. apply Nat.ltb_ge in E. intros [= <-].
  change (v :: m :: l ++ b) with ((v :: m :: l) ++ b). rewrite length_app.
  rewrite (proj2 (Nat.ltb_ge _ _)) by lia. rewrite take_app_le by lia. done.
Qed.

Lemma request_length_app i b n : request_length i = Some n -> request_length (i ++ b) = Some n.
Proof.
  unfold request_length. destruct (i !! 3%nat) as [k|] eqn:E3; [|done].
  rewrite (lookup_app_l_Some _ _ _ _ E3). simpl. repeat case_if; try done.
  destruct (i !! 4%nat) as [x|] eqn:E4; [|done]. by rewrite (lookup_app_l_Some _ _ _ _ E4).
Qed.

Lemma body_app i b r : body i = Some r -> body (i ++ b) = Some r /\ (r.2 <= length i)%nat.
Proof.
  unfold body. destruct (request_length i) as [n|] eqn:E; [|done].
  rewrite (request_length_app _ b _ E). destruct (Nat.ltb _ _) eqn:El; [done|].
  apply Nat.ltb_ge in El. intros [= <-]. rewrite length_app, (proj2 (Nat.ltb_ge _ _)) by lia.
  rewrite take_app_le by lia. done.
Qed.

Lemma parsed_body_app i b :
  parsed_body (i ++ b)
  = let '(p, i', q) := parsed_body i in let '(p', i'', q') := parsed p (i' ++ b) in (p', i'', q ++ q').
Proof.
  unfold parsed_body at 2. destruct (body i) as [[[r|e] n]|] eqn:E.
  - destruct (body_app _ b _ E) as [Eb Hn]. unfold parsed_body. rewrite Eb. simpl in *.
    by rewrite drop_app_le.
  - destruct (body_app _ b _ E) as [Eb Hn]. unfold parsed_body. rewrite Eb. simpl. done.
  - cbn [parsed]. by destruct (parsed_body (i ++ b)) as [[? ?] ?].
Qed.

(** Parsing after every chunk is parsing once at the end. *)
Lemma parsed_app p i b :
  parsed p (i ++ b)
  = let '(p1, i1, q1) := parsed p i in let '(p2, i2, q2) := parsed p1 (i1 ++ b) in (p2, i2, q1 ++ q2).
Proof.
  destruct p as [| |r|]; try done.
  - cbn [parsed]. destruct (greet i) as [[[|] n]|] eqn:E.
    + destruct (greet_app _ b _ E) as [Eb Hn]. rewrite Eb. simpl in Hn. rewrite drop_app_le by done.
      rewrite parsed_body_app. destruct (parsed_body (drop n i)) as [[p1 i1] q1].
      destruct (parsed p1 (i1 ++ b)) as [[p2 i2] q2]. by rewrite <- app_assoc.
    + destruct (greet_app _ b _ E) as [Eb Hn]. by rewrite Eb.
    + simpl. destruct (greet (i ++ b)) as [[[|] n]|]; try done.
      by destruct (parsed_body _) as [[? ?] ?].
  - cbn [parsed]. apply parsed_body_app.
Qed.

(** ** Several polls *)

(** The bytes that a poll writes. *)
Definition sent_by (c : t) (writes : list write_answer) : bytes :=
  let '(_, offset, _) := write_out (output c) (output_offset c) writes in
  take (Z.to_nat (offset - output_offset c)) (unsent c).

Lemma write_pending_spec c writes c' r :
  offset_ok c -> writes_ok (output c) (output_offset c) writes -> write_pending c writes = (c', r) ->
  phase c' = phase c /\ input c' = input c /\ offset_ok c' /\ unsent c = sent_by c writes ++ unsent c'.
Proof.
  intros Ho Hw. unfold write_pending, sent_by.
  destruct (write_out _ _ _) as [[rest o] res] eqn:E. apply write_out_spec in E as (Hr & Ht & _); [|done..].
  assert (unsent c = take (Z.to_nat (o - output_offset c)) (unsent c)
    ++ drop (Z.to_nat o) (output c)) as Hu.
  { rewrite <- (take_drop (Z.to_nat (o - output_offset c)) (unsent c)) at 1. f_equal.
    unfold unsent. rewrite drop_drop. f_equal. unfold offset_ok in Ho. lia. }
  destruct res as [[|]|]; intros [= <- <-]; split_and!; try done; unfold offset_ok in *; simpl in *; try lia.
  rewrite Hu at 1. rewrite (Ht eq_refl), (drop_ge (output c)) by (unfold len; lia). done.
Qed.

(** One poll: the chunks it reads before the stream blocks, and the answers to
    its writes. *)
Definition exchange (limit : Z) (a : t * bytes) (p : list bytes * list write_answer) : t * bytes :=
  let '(c, sent) := a in
  ((poll c limit (map Data p.1) p.2).1, sent ++ sent_by (parse (read_input c limit (map Data p.1)).1) p.2).

(** The answers to the writes are those of a stream. *)
Fixpoint polls_ok (limit : Z) (c : t) (polls : list (list bytes * list write_answer)) : Prop :=
  match polls with
  | [] => True
  | (chunks, writes) :: polls =>
      let c1 := parse (read_input c limit (map Data chunks)).1 in
      writes_ok (output c1) (output_offset c1) writes /\
      polls_ok limit (poll c limit (map Data chunks) writes).1 polls
  end.

(** The reads keep every byte, or the client fails: the limit is passed, or the
    stream ends. *)
Lemma read_input_chunks c limit chunks c' r :
  read_input c limit (map Data chunks) = (c', r) ->
  r = Ok tt /\
  (c' = set_input c (input c ++ concat chunks) \/
   (exists i, c' = set_phase (set_input c i) ClientPhase.Failed) /\
   (limit < len (input c) + len (concat chunks) \/ [] ∈ chunks)).
Proof.
  revert c. induction chunks as [|b chunks IH]; intros c; simpl.
  { intros [= <- <-]. split; [done|]. left. rewrite app_nil_r. by destruct c. }
  rewrite len_app. pose proof (len_nonneg (concat chunks)). case_if.
  { intros [= <- <-]. split; [done|]. right. bools. subst. split; [|right; left].
    exists (input c). by destruct c. }
  case_if.
  { intros [= <- <-]. split; [done|]. right. bools. split; [|left; ints].
    exists (input c). by destruct c. }
  intros [-> Hc]%IH. split; [done|]. simpl in Hc. destruct Hc as [->|[[i ->] Hwhy]].
  - left. by rewrite <- app_assoc.
  - right. split; [by exists i|]. rewrite len_app in Hwhy. destruct Hwhy; [left; lia|right; by right].
Qed.

(** The bytes of a sequence of polls. *)
Definition received (polls : list (list bytes * list write_answer)) : bytes :=
  concat (map (fun p => concat p.1) polls).

(** Parsing again without more bytes changes nothing. *)
Lemma parsed_stable p i :
  let '(p1, i1, _) := parsed p i in parsed p1 i1 = (p1, i1, []).
Proof.
  pose proof (parsed_app p i []) as H. rewrite app_nil_r in H.
  destruct (parsed p i) as [[p1 i1] q1]. rewrite app_nil_r in H.
  destruct (parsed p1 i1) as [[p2 i2] q2]. injection H as <- <- Hq.
  apply (f_equal length) in Hq. rewrite length_app in Hq. destruct q2; simpl in *; [done|lia].
Qed.

Lemma parsed_len p i : len (parsed p i).1.2 <= len i.
Proof.
  assert (forall i, len (parsed_body i).1.2 <= len i) as Hb.
  { intros i'. unfold parsed_body. destruct (body i') as [[[r|] n]|]; simpl; [|lia..].
    unfold len. rewrite length_drop. lia. }
  destruct p; simpl; [|apply Hb|simpl; lia..]. destruct (greet i) as [[[|] n]|]; simpl; [|lia..].
  pose proof (Hb (drop n i)) as Hd. destruct (parsed_body _) as [[? ?] ?]. simpl in *.
  unfold len in *. rewrite length_drop in Hd. lia.
Qed.

(** A client that has failed parses nothing and queues nothing any more. *)
Lemma exchanges_failed limit polls : forall c sent,
  offset_ok c -> polls_ok limit c polls -> phase c = ClientPhase.Failed ->
  let '(c', sent') := fold_left (exchange limit) polls (c, sent) in
  phase c' = ClientPhase.Failed /\ sent' ++ unsent c' = sent ++ unsent c.
Proof.
  induction polls as [|[chunks writes] polls IH]; intros c sent Ho Hok Hf; [done|].
  destruct Hok as [Hw Hok]. cbn [fold_left exchange fst snd]. unfold poll in *.
  destruct (read_input c limit (map Data chunks)) as [c1 r] eqn:Er.
  pose proof (read_input_chunks _ _ _ _ _ Er) as [-> Hc]. cbn [fst] in *.
  assert (phase c1 = ClientPhase.Failed /\ unsent c1 = unsent c /\ offset_ok c1) as (Hf1 & Hu1 & Ho1)
    by (destruct Hc as [->|[[i ->] _]]; done).
  assert (parse c1 = c1) as Hp by (unfold parse; by rewrite !Hf1). rewrite Hp in *.
  destruct (write_pending c1 writes) as [c2 r2] eqn:Ew.
  pose proof (write_pending_spec _ _ _ _ Ho1 Hw Ew) as (Hp2 & _ & Ho2 & Hu2).
  specialize (IH c2 (sent ++ sent_by c1 writes) Ho2 Hok ltac:(congruence)).
  destruct (fold_left _ polls _) as [c' sent']. destruct IH as [Hf' Hs]. split; [done|].
  by rewrite Hs, <- app_assoc, <- Hu2, Hu1.
Qed.

(** Why a client may fail: it sent more than the limit, or its stream ended. *)
Definition overrun (limit : Z) (polls : list (list bytes * list write_answer)) : Prop :=
  limit < len (received polls) \/ [] ∈ concat (map fst polls).

Lemma overrun_cons limit chunks writes polls :
  limit < len (concat chunks) \/ [] ∈ chunks -> overrun limit ((chunks, writes) :: polls).
Proof.
  unfold overrun, received. simpl. rewrite len_app. pose proof (len_nonneg (concat (map (fun p => concat p.1) polls))).
  intros [?|?]; [left; lia|right; by apply elem_of_app; left].
Qed.

Lemma overrun_later limit limit' chunks writes polls :
  overrun limit' polls -> limit - len (concat chunks) <= limit' -> overrun limit ((chunks, writes) :: polls).
Proof.
  unfold overrun, received. simpl. rewrite len_app.
  intros [?|?] ?; [left; lia|right; by apply elem_of_app; right].
Qed.

(** The bytes are parsed as if they came at once, or the client fails on the way
    having said a part of what it would have said. *)
Lemma exchanges_spec limit polls : forall c sent,
  offset_ok c -> polls_ok limit c polls -> parsed (phase c) (input c) = (phase c, input c, []) ->
  let '(c', sent') := fold_left (exchange limit) polls (c, sent) in
  exists q, sent' ++ unsent c' = sent ++ unsent c ++ q /\
    (parsed (phase c) (input c ++ received polls) = (phase c', input c', q) \/
     phase c' = ClientPhase.Failed /\ q `prefix_of` (parsed (phase c) (input c ++ received polls)).2 /\
     overrun (limit - len (input c)) polls).
Proof.
  induction polls as [|[chunks writes] polls IH]; intros c sent Ho Hok Hfix.
  { cbn [fold_left]. exists []. unfold received. simpl. rewrite !app_nil_r, Hfix. by split; [|left]. }
  destruct Hok as [Hw Hok]. unfold received. cbn [map concat fst]. fold (received polls).
  cbn [fold_left exchange fst snd]. unfold poll in *.
  destruct (read_input c limit (map Data chunks)) as [c1 r] eqn:Er.
  pose proof (read_input_chunks _ _ _ _ _ Er) as [-> Hc]. cbn [fst] in *.
  destruct (write_pending (parse c1) writes) as [c2 r2] eqn:Ew. cbn [fst] in *.
  destruct Hc as [->|[[i ->] Hwhy]].
  2: { change (parse _) with (set_phase (set_input c i) ClientPhase.Failed) in Ew, Hw |- *.
       pose proof (write_pending_spec (set_phase (set_input c i) ClientPhase.Failed) _ _ _ Ho Hw Ew)
         as (Hp2 & _ & Ho2 & Hu2).
       pose proof (exchanges_failed limit polls c2
         (sent ++ sent_by (set_phase (set_input c i) ClientPhase.Failed) writes) Ho2 Hok Hp2) as Hf.
       destruct (fold_left _ polls _) as [c' sent']. destruct Hf as [Hf Hs]. exists [].
       rewrite Hs, <- app_assoc, <- Hu2, app_nil_r. split; [done|]. right.
       split_and!; [done|apply prefix_nil|]. apply overrun_cons. destruct Hwhy; [left; lia|by right]. }
  set (c1 := set_input c (input c ++ concat chunks)) in *.
  pose proof (parse_spec c1 Ho) as Hp. change (phase c1) with (phase c) in Hp.
  change (input c1) with (input c ++ concat chunks) in Hp. change (unsent c1) with (unsent c) in Hp.
  pose proof (parsed_len (phase c) (input c ++ concat chunks)) as Hpl.
  pose proof (parsed_app (phase c) (input c ++ concat chunks) (received polls)) as Happ.
  pose proof (parsed_stable (phase c) (input c ++ concat chunks)) as E2.
  destruct (parsed (phase c) (input c ++ concat chunks)) as [[p1 i1] q1] eqn:E1.
  destruct Hp as (Hp & Hi & Hu & Hoff).
  pose proof (write_pending_spec _ _ _ _ Hoff Hw Ew) as (Hp2 & Hi2 & Ho2 & Hu2).
  rewrite Hp in Hp2. rewrite Hi in Hi2.
  specialize (IH c2 (sent ++ sent_by (parse c1) writes) Ho2 Hok). rewrite Hp2, Hi2 in IH. specialize (IH E2).
  destruct (fold_left _ polls _) as [c' sent']. destruct IH as (q & Hs & Hq). exists (q1 ++ q).
  split; [by rewrite Hs, <- !app_assoc; f_equal; rewrite (app_assoc (sent_by _ _)), <- Hu2, Hu, <- app_assoc|].
  rewrite app_assoc, Happ. destruct (parsed p1 (i1 ++ received polls)) as [[p3 i3] q3].
  destruct Hq as [[= -> -> ->]|(Hf & Hq & Hwhy)]; [by left|right].
  split_and!; [done|by apply prefix_app|]. eapply overrun_later; [done|].
  simpl in Hpl. rewrite len_app in Hpl. lia.
Qed.

Definition greeting (methods : bytes) : bytes := x05 :: to_u8 (len methods) :: methods.

Lemma greet_greeting methods rest :
  len methods <= 255 -> x00 ∈ methods -> greet (greeting methods ++ rest) = Some (true, (2 + length methods)%nat).
Proof.
  intros Hl Hz. pose proof (len_nonneg methods). unfold greet, greeting. cbn [app].
  rewrite u8_to_u8, Z.mod_small by lia. replace (Z.to_nat (len methods)) with (length methods) by (unfold len; lia).
  rewrite (proj2 (Nat.ltb_ge _ _)) by (simpl; rewrite length_app; lia).
  cbn [Nat.add take drop]. rewrite take_app_length, drop_0. change (u8 x05 =? 5) with true.
  assert (existsb (fun b => u8 b =? 0) methods = true) as ->; [|done].
  apply existsb_exists. exists x00. split; [by apply list_elem_of_In|done].
Qed.

(** C14: However the bytes of a client are cut into reads and polls and however
    slowly it reads the answers, a greeting that offers "no authentication", a
    well-formed request and any payload end in one of two ways.  The request is
    recognised, the payload is kept whole, and the only answer sent or waiting is
    the acceptance of the method; or the client has failed with at most that answer
    sent, and then it sent more than the limit in all or its stream ended. *)
Theorem socks_negotiation stream limit polls methods r payload :
  polls_ok limit (new stream) polls -> received polls = greeting methods ++ encode_request r ++ payload ->
  len methods <= 255 -> x00 ∈ methods -> request_ok r ->
  let '(c, sent) := fold_left (exchange limit) polls (new stream, []) in
  (phase c = ClientPhase.Ready r /\ input c = payload /\ sent ++ unsent c = [x05; x00]) \/
  (phase c = ClientPhase.Failed /\ sent ++ unsent c `prefix_of` [x05; x00] /\ overrun limit polls).
Proof.
  intros Hok Hrec Hm Hz Hr.
  pose proof (exchanges_spec limit polls (new stream) [] ltac:(done) Hok ltac:(done)) as Hs.
  destruct (fold_left _ polls _) as [c sent]. destruct Hs as (q & Hu & Hp).
  cbn [phase input new app] in Hp, Hu. change (unsent (new stream)) with (@nil Byte.byte) in Hu. cbn [app] in Hu.
  assert (parsed ClientPhase.Greeting (received polls) = (ClientPhase.Ready r, payload, [x05; x00])) as He.
  { rewrite Hrec. unfold parsed. rewrite greet_greeting by done.
    replace (drop (2 + length methods) (greeting methods ++ encode_request r ++ payload))
      with (encode_request r ++ payload)
      by (unfold greeting; cbn [app Nat.add drop]; by rewrite drop_app_length).
    unfold parsed_body, body. rewrite request_length_encode by done.
    rewrite length_app, (proj2 (Nat.ltb_ge _ _)), take_app_length, drop_app_length by lia.
    by rewrite parse_encode_request. }
  rewrite He in Hp. rewrite Hu. destruct Hp as [[= <- <- <-]|(Hf & Hq & Hwhy)]; [by left|right].
  split_and!; [done..|]. change (len []) with 0 in Hwhy. by rewrite Z.sub_0_r in Hwhy.
Qed.
