(* ===== verification/SocksLife.v ===== *)
(** adapter-socks5 over the life of an instance: its limits, the handles of its
    flows, the destinations of its UDP associations, and the turns of the
    instances that share a listener. *)
From Stdlib Require Import Strings.Byte.
From S2P Require Import Prelude Text Net Admin Abi Socket Socks SocksFacts.
#[local] Open Scope Z_scope.

(** * Lists and maps *)

Lemma swap_remove_elem {A} (l : list A) i x : x ∈ swap_remove l i -> x ∈ l.
Proof.
  unfold swap_remove. destruct (last l) as [y|] eqn:E; [|done].
  intros (k & Hx & _)%elem_of_take. pose proof (list_elem_of_lookup_2 _ _ _ Hx) as Hin.
  destruct (decide (i = k)) as [->|Hne].
  - apply list_lookup_insert_Some in Hx as [(_ & <- & _)|[? _]]; [|done].
    by apply last_Some_elem_of.
  - rewrite list_lookup_insert_ne in Hx by done. by eapply list_elem_of_lookup_2.
Qed.

Lemma swap_remove_len {A} (l : list A) i : len (swap_remove l i) <= len l.
Proof.
  unfold swap_remove, len. destruct (last l); [|lia]. rewrite length_take, length_insert. lia.
Qed.

Lemma swap_remove_len_lt {A} (l : list A) i x : l !! i = Some x -> len (swap_remove l i) = len l - 1.
Proof.
  intros Hx%lookup_lt_Some. unfold swap_remove, len. destruct (last l) eqn:E.
  - rewrite length_take, length_insert. lia.
  - apply last_None in E as ->. simpl in *. lia.
Qed.

Lemma imap_size_le {A} (f : Z -> A -> option A) (m : gmap Z A) : (size (map_imap f m) <= size m)%nat.
Proof.
  rewrite <- !size_dom. apply subseteq_size. intros k. rewrite !elem_of_dom, map_lookup_imap.
  destruct (m !! k); [eauto|by intros [? ?]].
Qed.

Lemma insert_size_le {A} (m : gmap Z A) k v : (size (<[k := v]> m) <= S (size m))%nat.
Proof. rewrite map_size_insert. case_match; simpl; lia. Qed.

Lemma delete_size_le {A} (m : gmap Z A) k : (size (delete k m) <= size m)%nat.
Proof. rewrite map_size_delete. case_match; simpl; lia. Qed.

(** * The invariant *)

(** What a UDP flow never changes. *)
Definition owner (f : UdpClientFlow.t) : Z * SocketAddr.t * Address.t * Z :=
  (UdpClientFlow.socket f, UdpClientFlow.client f, UdpClientFlow.address f, UdpClientFlow.port f).

(** The flows that the destinations of an association lead to are flows of its
    socket and its client for that very destination. *)
Definition dest_ok (next : Z) (udp : gmap Z UdpClientFlow.t) (a : UdpAssociation.t) : Prop :=
  forall key h, UdpAssociation.destinations a !! key = Some h ->
  h < next /\
  forall f, udp !! h = Some f ->
    (UdpClientFlow.address f, UdpClientFlow.port f) = key /\
    UdpClientFlow.socket f = UdpAssociation.socket a /\
    UdpAssociation.client a = Some (UdpClientFlow.client f).

(** Handles are below the next one, of one kind only, and those that were
    announced are marked. *)
Record handles_ok (flows : gmap Z ClientFlow.t) (udp : gmap Z UdpClientFlow.t) (next : Z) (log : list Z)
    : Prop := {
  h_flows : forall h f, flows !! h = Some f -> h < next;
  h_udp : forall h f, udp !! h = Some f -> h < next;
  h_apart : forall h f g, flows !! h = Some f -> udp !! h = Some g -> False;
  h_log : forall h, h ∈ log -> h < next;
  h_marked : forall h f, h ∈ log -> flows !! h = Some f -> ClientFlow.announced f = true;
  h_marked_udp : forall h f, h ∈ log -> udp !! h = Some f -> UdpClientFlow.announced f = true;
}.

Definition connections (s : State.t) : Z :=
  len (State.clients s) + Z.of_nat (size (State.flows s)) + len (State.associations s).

Record good (s : State.t) (log : list Z) : Prop := {
  g_connections : connections s <= Options.max_connections (State.options s);
  g_associations : len (State.associations s) <= Options.max_udp_associations (State.options s);
  g_udp : Z.of_nat (size (State.udp_flows s)) <= Options.max_connections (State.options s);
  g_handles : handles_ok (State.flows s) (State.udp_flows s) (State.next_flow s) log;
  g_dest : Forall (dest_ok (State.next_flow s) (State.udp_flows s)) (State.associations s);
}.

(** Flows that are changed or removed, without a handle that is new. *)
Lemma handles_ok_sub flows flows' udp udp' next log :
  (forall h f', flows' !! h = Some f' -> exists f, flows !! h = Some f /\
     (ClientFlow.announced f = true -> ClientFlow.announced f' = true)) ->
  (forall h f', udp' !! h = Some f' -> exists f, udp !! h = Some f /\
     (UdpClientFlow.announced f = true -> UdpClientFlow.announced f' = true)) ->
  handles_ok flows udp next log -> handles_ok flows' udp' next log.
Proof.
  intros Hf Hu [H1 H2 H3 H4 H5 H6]. split.
  - intros h f' (f & ? & _)%Hf. eauto.
  - intros h f' (f & ? & _)%Hu. eauto.
  - intros h f' g' (f & ? & _)%Hf (g & ? & _)%Hu. eauto.
  - done.
  - intros h f' Hh (f & ? & Ha)%Hf. eauto.
  - intros h f' Hh (f & ? & Ha)%Hu. eauto.
Qed.

Lemma dest_ok_sub next next' udp udp' a :
  (forall h f', h < next -> udp' !! h = Some f' -> exists f, udp !! h = Some f /\ owner f' = owner f) ->
  next <= next' -> dest_ok next udp a -> dest_ok next' udp' a.
Proof.
  intros Hsub Hn Hd key h Hk. destruct (Hd key h Hk) as [Hlt Hf]. split; [lia|].
  intros f' (f & Hff & Ho)%Hsub; [|done]. destruct (Hf f Hff) as (? & ? & ?).
  unfold owner in Ho. injection Ho as Hs Hc Ha Hp. rewrite Hs, Hc, Ha, Hp. done.
Qed.

Lemma dests_sub next next' udp udp' l :
  (forall h f', h < next -> udp' !! h = Some f' -> exists f, udp !! h = Some f /\ owner f' = owner f) ->
  next <= next' -> Forall (dest_ok next udp) l -> Forall (dest_ok next' udp') l.
Proof. intros Hs Hn Hl. eapply Forall_impl; [exact Hl|]. intros a. by apply dest_ok_sub. Qed.

(** The state with other flows of the same handles. *)
Lemma good_sub s s' log :
  State.options s' = State.options s -> State.next_flow s' = State.next_flow s ->
  State.clients s' = State.clients s -> State.associations s' = State.associations s ->
  (size (State.flows s') <= size (State.flows s))%nat ->
  (size (State.udp_flows s') <= size (State.udp_flows s))%nat ->
  (forall h f', State.flows s' !! h = Some f' -> exists f, State.flows s !! h = Some f /\
     (ClientFlow.announced f = true -> ClientFlow.announced f' = true)) ->
  (forall h f', State.udp_flows s' !! h = Some f' -> exists f, State.udp_flows s !! h = Some f /\
     (UdpClientFlow.announced f = true -> UdpClientFlow.announced f' = true) /\ owner f' = owner f) ->
  good s log -> good s' log.
Proof.
  intros Ho Hn Hc Ha Hsf Hsu Hf Hu [G1 G2 G3 G4 G5]. split.
  - unfold connections in *. rewrite Ho, Hc, Ha. lia.
  - by rewrite Ho, Ha.
  - rewrite Ho. lia.
  - rewrite Hn. revert G4. apply handles_ok_sub; [done|]. intros h f' (f & ? & ? & _)%Hu. eauto.
  - rewrite Hn, Ha. revert G5. apply dests_sub; [|lia]. intros h f' _ (f & ? & _ & ?)%Hu. eauto.
Qed.

(** One flow is replaced. *)
Lemma good_set_flow s log h f f' :
  State.flows s !! h = Some f -> (ClientFlow.announced f = true -> ClientFlow.announced f' = true) ->
  good s log -> good (State.set_flows s (<[h := f']> (State.flows s))) log.
Proof.
  intros Hf Ha. apply good_sub; simpl; try done; [| |by eauto].
  - by rewrite map_size_insert_Some by eauto.
  - intros k g. destruct (decide (k = h)) as [->|?].
    + rewrite lookup_insert_eq. intros [= <-]. eauto.
    + rewrite lookup_insert_ne by done. eauto.
Qed.

Lemma good_set_udp s log h f f' :
  State.udp_flows s !! h = Some f ->
  (UdpClientFlow.announced f = true -> UdpClientFlow.announced f' = true) -> owner f' = owner f ->
  good s log -> good (State.set_udp_flows s (<[h := f']> (State.udp_flows s))) log.
Proof.
  intros Hf Ha Ho. apply good_sub; simpl; try done; [|by eauto|].
  - by rewrite map_size_insert_Some by eauto.
  - intros k g. destruct (decide (k = h)) as [->|?].
    + rewrite lookup_insert_eq. intros [= <-]. eauto.
    + rewrite lookup_insert_ne by done. eauto.
Qed.

(** * Polling *)

Lemma take_clients_within e max others clients queue clients' queue' :
  take_clients e max others clients queue = (clients', queue') ->
  len clients + others <= max -> len clients' + others <= max.
Proof.
  revert clients. induction queue as [|stream queue IH]; intros clients; simpl.
  - case_if; by intros [= <- <-].
  - case_if; [|by intros [= <- <-]]. intros Ht Hc. apply IH in Ht; [done|].
    destruct (usable e stream); [|done]. rewrite len_snoc. lia.
Qed.

(** The clients change; there are no more of them than the limit leaves. *)
Lemma good_set_clients s clients log :
  len clients + Z.of_nat (size (State.flows s)) + len (State.associations s)
    <= Options.max_connections (State.options s) ->
  good s log -> good (State.set_clients s clients) log.
Proof. intros Hc [G1 G2 G3 G4 G5]. by split. Qed.

Lemma accept_clients_good e ls instance s log :
  good s log -> good (accept_clients e ls instance s).2 log.
Proof.
  intros G. unfold accept_clients. destruct (ls !! _) as [g|]; [|done].
  destruct (ListenerGroup.queues _ !! instance) as [queue|]; [|done].
  destruct (take_clients _ _ _ _ _) as [clients queue'] eqn:Et. simpl.
  apply good_set_clients; [|done]. destruct G as [G1 _ _ _ _]. unfold connections in G1.
  apply take_clients_within in Et; lia.
Qed.

Lemma start_good e s c r log :
  connections s + 1 <= Options.max_connections (State.options s) -> good s log ->
  good (start e s c r) log.
Proof.
  intros Hc G. unfold start. destruct (Request.command r).
  - destruct (checked_add _ _ _) as [next|] eqn:En; [|done].
    apply checked_add_Some in En as [-> _]. destruct G as [G1 G2 G3 [H1 H2 H3 H4 H5 H6] G5].
    pose proof (insert_size_le (State.flows s) (State.next_flow s) (ClientFlow.new c r)).
    split; simpl; [|done|done| |revert G5; apply dests_sub; eauto; lia].
    + unfold connections in *. simpl. destruct (pumps e); lia.
    + assert (forall h f, (if pumps e then <[State.next_flow s := ClientFlow.new c r]> (State.flows s)
        else State.flows s) !! h = Some f -> h = State.next_flow s \/ State.flows s !! h = Some f) as Hin.
      { intros h f. destruct (pumps e); [|eauto].
        intros [[<- _]|[_ ?]]%lookup_insert_Some; eauto. }
      split.
      * intros h f [->|Hh]%Hin; [lia|]. specialize (H1 h f Hh). lia.
      * intros h f Hh%H2. lia.
      * intros h f g [->|Hh]%Hin Hg; [|by eauto]. apply H2 in Hg. lia.
      * intros h Hh%H4. lia.
      * intros h f Hl [->|Hh]%Hin; [|by eauto]. apply H4 in Hl. lia.
      * done.
  - case_if; [|done]. destruct (parse_socket_addr _); [|done].
    destruct (udp_bind _ _) as [[socket address]|]; [|done].
    destruct G as [G1 G2 G3 G4 G5]. unfold connections in *.
    split; unfold connections; simpl; rewrite ?len_snoc; try done; try lia.
    apply Forall_app. split; [done|]. constructor; [|done]. intros key h. simpl. by rewrite lookup_empty.
Qed.

Lemma promote1_good e s i log : good s log -> good (promote1 e s i) log.
Proof.
  intros G. unfold promote1. destruct (State.clients s !! i) as [c|] eqn:Ec; [|done].
  pose proof (swap_remove_len_lt _ _ _ Ec) as Hl.
  assert (good (State.set_clients s (swap_remove (State.clients s) i)) log) as G'.
  { apply good_set_clients; [|done]. destruct G as [G1 _ _ _ _]. unfold connections in G1. lia. }
  destruct (ClientConnection.phase c) as [| |r|]; try done. apply start_good; [|done].
  unfold connections. simpl. destruct G as [G1 _ _ _ _]. unfold connections in G1. lia.
Qed.

Lemma poll_clients_good e s log : good s log -> good (poll_clients e s) log.
Proof.
  intros G. unfold poll_clients. set (clients := map _ (State.clients s)).
  assert (good (State.set_clients s clients) log) as G0.
  { apply good_set_clients; [|done]. destruct G as [G1 _ _ _ _]. unfold connections, len in *.
    unfold clients. by rewrite length_map. }
  revert G0. generalize (State.set_clients s clients). generalize (rev (ready_indices 0 clients)).
  intros l. induction l as [|i l IH]; intros s0 G0; cbn [fold_left].
  - apply good_set_clients; [|done]. destruct G0 as [G1 _ _ _ _]. unfold connections, len in *.
    pose proof (length_filter kept (State.clients s0)). lia.
  - apply IH. by apply promote1_good.
Qed.

Lemma poll_flow_announced e h f f' :
  poll_flow e h f = Some f' -> ClientFlow.announced f' = ClientFlow.announced f.
Proof.
  unfold poll_flow, ClientFlow.poll. destruct (write_out _ _ _) as [[? o] [[|]|]]; [|by intros [= <-]|done].
  case_if; [done|]. case_if; [by intros [= <-]|]. simpl.
  destruct (ClientFlow.stack f); [|by intros [= <-]].
  destruct (ClientFlow.both _ _) as [[[|]|]|]; try done; by intros [= <-].
Qed.

Lemma poll_flows_good e s log :
  good s log -> good (State.set_flows s (map_imap (poll_flow e) (State.flows s))) log.
Proof.
  apply good_sub; simpl; try done; [apply imap_size_le| |by eauto].
  intros h f'. rewrite map_lookup_imap. destruct (State.flows s !! h) as [f|]; [|done]. simpl.
  intros ->%poll_flow_announced. eauto.
Qed.

(** What a UDP flow keeps over a poll. *)
Definition stays (f f' : UdpClientFlow.t) : Prop :=
  UdpClientFlow.announced f' = UdpClientFlow.announced f /\ owner f' = owner f.

Lemma poll_recv_stays f i : stays f (UdpClientFlow.poll_recv f i).1.
Proof.
  unfold UdpClientFlow.poll_recv. destruct (UdpClientFlow.stack_recv i) as [[[]|]|]; try done.
  destruct (encode_udp_header _ _); [|done]. by destruct (UdpClientFlow.new_reply i).
Qed.

Lemma poll_reply_stays f i : stays f (UdpClientFlow.poll_reply f i).1.
Proof.
  unfold UdpClientFlow.poll_reply. destruct (UdpClientFlow.pending_reply f) as [reply|];
    [|apply poll_recv_stays].
  destruct (UdpClientFlow.old_reply i); try done. case_if; [|done].
  apply (poll_recv_stays (UdpClientFlow.set_pending f (UdpClientFlow.pending_upload f) None)).
Qed.

Lemma poll_udp_stays f i : stays f (UdpClientFlow.poll f i).1.
Proof.
  unfold UdpClientFlow.poll. case_if; [done|]. case_if; [done|].
  destruct (UdpClientFlow.stack f); [|done]. destruct (UdpClientFlow.pending_upload f); [|apply poll_reply_stays].
  destruct (UdpClientFlow.stack_send i) as [[]|]; try done.
  apply (poll_reply_stays (UdpClientFlow.set_pending f None (UdpClientFlow.pending_reply f))).
Qed.

Lemma poll_udp_flows_good e s log :
  good s log -> good (State.set_udp_flows s (map_imap (poll_udp_flow e) (State.udp_flows s))) log.
Proof.
  apply good_sub; simpl; try done; [apply imap_size_le|by eauto|].
  intros h f'. rewrite map_lookup_imap. destruct (State.udp_flows s !! h) as [f|]; [|done]. simpl.
  unfold poll_udp_flow. intros Hp. exists f. split; [done|].
  destruct (poll_udp_stays f (datagrams e h)) as [Ha Ho].
  destruct (UdpClientFlow.poll _ _) as [f0 [[[|]|]|]]; try done; injection Hp as ->; cbn [fst] in *; (split; [by rewrite Ha|done]).
Qed.

(** ** UDP *)

(** The client of each association. *)
Definition clients_at (l : list UdpAssociation.t) : list (option SocketAddr.t) := map UdpAssociation.client l.

Lemma poll_association_ok e a a' packet close next udp :
  poll_association e a = (a', packet, close) -> dest_ok next udp a ->
  dest_ok next udp a' /\ (forall source p, packet = Some (source, p) -> UdpAssociation.client a' = Some source).
Proof.
  unfold poll_association. destruct (ClientConnection.write_pending _ _) as [control [|]];
    [|by intros [= <- <- <-]].
  destruct (peeks _ _); try by intros [= <- <- <-].
  all: destruct (receives _ _) as [data source| |]; try by intros [= <- <- <-].
  all: destruct (is_some_and _ _) eqn:Ec; [by intros [= <- <- <-]|]; intros Hp Hd;
    assert (dest_ok next udp (UdpAssociation.set_client (UdpAssociation.set_control a control) source)) as Hd'
      by (intros key h Hk; destruct (Hd key h Hk) as [Hlt Hf]; split; [done|]; intros f Hff;
          destruct (Hf f Hff) as (? & ? & Hcl); split_and!; [done..|]; simpl in *;
          rewrite Hcl in Ec; simpl in Ec; bools; congruence);
    destruct (parse_udp data) as [p|]; injection Hp as <- <- <-; split; [done| |done|done].
  all: by intros ? ? [= <- <-].
Qed.

Lemma poll_sockets_ok e i l l' packets closed next udp :
  poll_sockets e i l = (l', packets, closed) -> Forall (dest_ok next udp) l ->
  Forall (dest_ok next udp) l' /\ length l' = length l /\
  Forall (fun '(j, source, _) => (i <= j)%nat /\ clients_at l' !! (j - i)%nat = Some (Some source)) packets.
Proof.
  intros Hp Hl. revert i l' packets closed Hp. induction Hl as [|a l Ha Hl IH]; intros i l' packets closed; simpl.
  - intros [= <- <- <-]. split_and!; constructor.
  - destruct (poll_association e a) as [[a' packet] close] eqn:Ea.
    destruct (poll_sockets e (S i) l) as [[l1 packets1] closed1] eqn:El. intros [= <- <- <-].
    destruct (poll_association_ok _ _ _ _ _ _ _ Ea Ha) as [Ha' Hc].
    destruct (IH _ _ _ _ El) as (Hl1 & Hlen & Hpk). split_and!; [by constructor|simpl; lia|].
    assert (Forall (fun '(j, source, _) =>
      (i <= j)%nat /\ clients_at (a' :: l1) !! (j - i)%nat = Some (Some source)) packets1) as Hpk1.
    { eapply Forall_impl; [exact Hpk|]. intros [[j source] p] [Hj Hcl]. split; [lia|].
      replace (j - i)%nat with (S (j - S i)) by lia. done. }
    destruct packet as [[source p]|]; [|done]. constructor; [|done]. split; [done|].
    rewrite Nat.sub_diag. simpl. by rewrite (Hc source p).
Qed.

(** An association is replaced by one of the same client. *)
Lemma clients_at_insert l i a a' :
  l !! i = Some a -> UdpAssociation.client a' = UdpAssociation.client a ->
  clients_at (<[i := a']> l) = clients_at l.
Proof.
  intros Hi Hc. unfold clients_at. change (map UdpAssociation.client) with (fmap (M := list) UdpAssociation.client).
  rewrite list_fmap_insert. apply list_insert_id. by rewrite list_lookup_fmap, Hi, Hc.
Qed.

Lemma good_insert_association s i a a' log :
  State.associations s !! i = Some a -> dest_ok (State.next_flow s) (State.udp_flows s) a' ->
  good s log -> good (State.set_associations s (<[i := a']> (State.associations s))) log.
Proof.
  intros Hi Ha [G1 G2 G3 G4 G5]. unfold connections, len in *.
  split; unfold connections, len; simpl; rewrite ?length_insert; try done. by apply Forall_insert.
Qed.

Lemma new_udp_flow_good e s i a source p log :
  State.associations s !! i = Some a -> UdpAssociation.client a = Some source -> good s log ->
  good (new_udp_flow e s i a source p) log /\
  clients_at (State.associations (new_udp_flow e s i a source p)) = clients_at (State.associations s).
Proof.
  intros Hi Hc G. unfold new_udp_flow. set (key := (UdpPacket.address p, UdpPacket.port p)).
  assert (dest_ok (State.next_flow s) (State.udp_flows s) a) as Ha
    by (destruct G as [_ _ _ _ G5]; by eapply Forall_lookup_1 in G5).
  set (without := UdpAssociation.set_destinations a (delete key (UdpAssociation.destinations a))).
  assert (dest_ok (State.next_flow s) (State.udp_flows s) without) as Hw.
  { intros k h. simpl. intros [_ Hk]%lookup_delete_Some. by apply Ha. }
  pose proof (good_insert_association s i a without log Hi Hw G) as G'.
  pose proof (clients_at_insert _ i a without Hi eq_refl) as Hcw.
  cbv zeta. case_if; [done|]. destruct (checked_add _ _ _) as [next|] eqn:En; [|done].
  destruct (clones _ _); [|done]. apply checked_add_Some in En as [-> _].
  simpl in Heqb |- *. set (f := UdpClientFlow.new _ _ _ _ _).
  pose proof (insert_size_le (State.udp_flows s) (State.next_flow s) f).
  destruct G as [G1 G2 G3 [H1 H2 H3 H4 H5 H6] G5]. split; [|by apply (clients_at_insert _ i a)].
  assert (forall h f', h < State.next_flow s -> <[State.next_flow s := f]> (State.udp_flows s) !! h = Some f' ->
    exists f, State.udp_flows s !! h = Some f /\ owner f' = owner f) as Hsub.
  { intros h f' Hh. rewrite lookup_insert_ne by lia. eauto. }
  split; unfold connections, len in *; simpl; rewrite ?length_insert; try done; [lia| |].
  - split; try done.
    + intros h g Hh%H1. lia.
    + intros h g [[<- _]|[_ Hh%H2]]%lookup_insert_Some; lia.
    + intros h g k Hg [[<- _]|[_ Hh]]%lookup_insert_Some; [apply H1 in Hg; lia|eauto].
    + intros h Hh%H4. lia.
    + intros h g Hl [[<- _]|[_ Hh]]%lookup_insert_Some; [apply H4 in Hl; lia|eauto].
  - apply Forall_insert; [by apply (dests_sub (State.next_flow s) _ (State.udp_flows s)); [|lia|]|].
    intros k h. simpl. intros [[<- <-]|[_ Hk]]%lookup_insert_Some.
    + split; [lia|]. intros f'. rewrite lookup_insert_eq. by intros [= <-].
    + assert (dest_ok (State.next_flow s + 1) (<[State.next_flow s := f]> (State.udp_flows s)) without) as Hw'
        by (revert Hw; apply dest_ok_sub; [done|lia]). by apply Hw'.
Qed.

Lemma deliver_good e s i source p log :
  clients_at (State.associations s) !! i = Some (Some source) -> good s log ->
  good (deliver e s (i, source, p)) log /\
  clients_at (State.associations (deliver e s (i, source, p))) = clients_at (State.associations s).
Proof.
  intros Hc G. unfold deliver. destruct (State.associations s !! i) as [a|] eqn:Hi; [|done].
  assert (UdpAssociation.client a = Some source) as Ha.
  { unfold clients_at in Hc. change (map UdpAssociation.client) with (fmap (M := list) UdpAssociation.client) in Hc.
    rewrite list_lookup_fmap, Hi in Hc. by injection Hc. }
  destruct (UdpAssociation.destinations a !! _) as [h|]; simpl; [|by apply new_udp_flow_good].
  destruct (State.udp_flows s !! h) as [f|] eqn:Hf; simpl; [|by apply new_udp_flow_good].
  case_if; [|done]. split; [|done]. by eapply good_set_udp.
Qed.

Lemma delivers_good e packets : forall s log,
  Forall (fun '(i, source, _) => clients_at (State.associations s) !! i = Some (Some source)) packets ->
  good s log -> good (fold_left (deliver e) packets s) log.
Proof.
  induction packets as [|[[i source] p] packets IH]; intros s log Hp G; [done|]. cbn [fold_left].
  apply Forall_cons in Hp as [Hc Hp]. destruct (deliver_good e s i source p log Hc G) as [G' Hcl].
  apply IH; [|done]. by rewrite Hcl.
Qed.

Lemma good_remove_associations s l log :
  good s log -> good (State.set_associations s (fold_left swap_remove l (State.associations s))) log.
Proof.
  intros [G1 G2 G3 G4 G5].
  assert (forall a, a ∈ fold_left swap_remove l (State.associations s) -> a ∈ State.associations s) as Hin.
  { generalize (State.associations s). induction l as [|i l IH]; intros k a; simpl; [done|].
    intros Ha%IH. by eapply swap_remove_elem. }
  assert (len (fold_left swap_remove l (State.associations s)) <= len (State.associations s)) as Hlen.
  { generalize (State.associations s). clear. induction l as [|i l IH]; intros k; simpl; [lia|].
    pose proof (IH (swap_remove k i)). pose proof (swap_remove_len k i). lia. }
  split; unfold connections in *; simpl; try done; try lia.
  apply Forall_forall. intros a Ha%Hin. by rewrite Forall_forall in G5; apply G5.
Qed.

Lemma poll_udp_associations_good e s log : good s log -> good (poll_udp_associations e s) log.
Proof.
  intros G. unfold poll_udp_associations. destruct (poll_sockets e 0 _) as [[l packets] closed] eqn:Ep.
  pose proof (g_dest _ _ G) as Hd.
  destruct (poll_sockets_ok _ _ _ _ _ _ _ _ Ep Hd) as (Hl & Hlen & Hpk).
  apply good_remove_associations, poll_udp_flows_good, delivers_good.
  - eapply Forall_impl; [exact Hpk|]. intros [[j source] p] [_ Hc]. simpl. by rewrite Nat.sub_0_r in Hc.
  - destruct G as [G1 G2 G3 G4 G5]. unfold connections, len in *.
    split; unfold connections, len; simpl; rewrite ?Hlen; done.
Qed.

Lemma poll_state_good e ls instance s log : good s log -> good (poll_state e ls instance s).2 log.
Proof.
  intros G%(accept_clients_good e ls instance). unfold poll_state.
  destruct (accept_clients e ls instance s) as [ls' s']. cbn [snd] in *.
  by apply poll_udp_associations_good, poll_flows_good, poll_clients_good.
Qed.

(** * The life of an instance *)

Section life.
Context `{HashOrder}.

(** The calls of the host, and what the other instances do to the listeners. *)
Inductive op :=
| Poll (e : Env)
| Accept (e : Env)
| Attach (flow stack : Z) (usable : bool)
| AttachDatagram (flow stack : Z) (usable : bool)
| Complete (flow : Z) (status : Status.t) (reason_length : Z)
| Close (flow : Z)
| Others (ls : listeners).

(** One call, with the handle it announces. *)
Definition run1 (instance : Z) (ls : listeners) (s : State.t) (o : op) : listeners * State.t * option Z :=
  match o with
  | Poll e => (poll_state e ls instance s, None)
  | Accept e => let '(ls, s, flow, _) := accept e ls instance s in (ls, s, (fun f => f.1.1.1) <$> flow)
  | Attach flow stack usable => (ls, (attach s flow stack usable).1, None)
  | AttachDatagram flow stack usable => (ls, (attach_datagram s flow stack usable).1, None)
  | Complete flow status n => (ls, (complete s flow status n).1, None)
  | Close flow => (ls, (close_flow s flow).1, None)
  | Others ls => (ls, s, None)
  end.

(** A sequence of calls, with the handles announced, the last one first. *)
Definition run (instance : Z) (ls : listeners) (s : State.t) (ops : list op) : State.t * list Z :=
  let '(_, s, log) :=
    fold_left (fun '(ls, s, log) o =>
      let '(ls, s, h) := run1 instance ls s o in (ls, s, option_list h ++ log)) ops (ls, s, []) in
  (s, log).

Lemma find_new_Some {A} (announced : A -> bool) (m : gmap Z A) h f :
  find_new announced m = Some (h, f) -> m !! h = Some f /\ announced f = false.
Proof.
  unfold find_new. destruct (filter _ _) as [|x l] eqn:El; [done|]. intros [= ->].
  assert ((h, f) ∈ filter (fun '(_, f) => announced f = false) (hash_order (map_to_list m))) as Hin
    by (rewrite El; left).
  apply list_elem_of_filter in Hin as [? Hin]. rewrite hash_order_perm in Hin.
  by apply elem_of_map_to_list in Hin.
Qed.

(** A flow that is marked may be logged. *)
Lemma good_log s log h :
  h < State.next_flow s ->
  (forall f, State.flows s !! h = Some f -> ClientFlow.announced f = true) ->
  (forall f, State.udp_flows s !! h = Some f -> UdpClientFlow.announced f = true) ->
  good s log -> good s (h :: log).
Proof.
  intros Hh Hf Hu [G1 G2 G3 [H1 H2 H3 H4 H5 H6] G5]. split; try done. split; try done.
  - intros k [->|Hk]%elem_of_cons; auto.
  - intros k f [->|Hk]%elem_of_cons; [apply Hf|by apply H5].
  - intros k f [->|Hk]%elem_of_cons; [apply Hu|by apply H6].
Qed.

Lemma accept_good e ls instance s log :
  good s log -> NoDup log ->
  let '(_, s', flow, _) := accept e ls instance s in
  let log' := option_list ((fun f => f.1.1.1) <$> flow) ++ log in good s' log' /\ NoDup log'.
Proof.
  intros G%(poll_state_good e ls instance) Hn. unfold accept.
  destruct (poll_state e ls instance s) as [ls' s1]. cbn [snd] in G.
  destruct (find_new ClientFlow.announced _) as [[h f]|] eqn:Ef.
  - apply find_new_Some in Ef as [Hf Hna]. pose proof (g_handles _ _ G) as Hh. destruct Hh as [H1 H2 H3 H4 H5 H6].
    assert (h ∉ log) by (intros Hin; specialize (H5 h f Hin Hf); congruence).
    simpl. split; [|by apply NoDup_cons]. apply good_log; simpl.
    + eauto.
    + intros g. rewrite lookup_insert_eq. by intros [= <-].
    + intros g Hg. destruct (H3 h f g Hf Hg).
    + by eapply good_set_flow.
  - destruct (find_new UdpClientFlow.announced _) as [[h f]|] eqn:Eu; [|done].
    apply find_new_Some in Eu as [Hf Hna]. pose proof (g_handles _ _ G) as Hh. destruct Hh as [H1 H2 H3 H4 H5 H6].
    assert (h ∉ log) by (intros Hin; specialize (H6 h f Hin Hf); congruence).
    simpl. split; [|by apply NoDup_cons]. apply good_log; simpl.
    + eauto.
    + intros g Hg. destruct (H3 h g f Hg Hf).
    + intros g. rewrite lookup_insert_eq. by intros [= <-].
    + by eapply good_set_udp.
Qed.

Lemma close_flow_good s flow log : good s log -> good (close_flow s flow).1 log.
Proof.
  unfold close_flow. case_if; [done|]. case_if; [|done].
  apply good_sub; simpl; try done; try apply delete_size_le.
  - intros h f' [_ ?]%lookup_delete_Some. eauto.
  - intros h f' [_ ?]%lookup_delete_Some. eauto.
Qed.

Lemma run1_good instance ls s o log ls' s' h :
  run1 instance ls s o = (ls', s', h) -> good s log -> NoDup log ->
  good s' (option_list h ++ log) /\ NoDup (option_list h ++ log).
Proof.
  intros Hr G Hn. destruct o; simpl in Hr.
  - destruct (poll_state e ls instance s) as [ls1 s1] eqn:Ep. injection Hr as <- <- <-.
    pose proof (poll_state_good e ls instance s log G) as G'. by rewrite Ep in G'.
  - pose proof (accept_good e ls instance s log G Hn) as Ha.
    destruct (accept e ls instance s) as [[[ls1 s1] flow'] st]. by injection Hr as <- <- <-.
  - injection Hr as <- <- <-. split; [|done]. simpl. unfold attach. case_if; [done|].
    destruct (State.flows s !! flow) as [f|] eqn:Ef; [|done]. case_if; [done|].
    by eapply good_set_flow.
  - injection Hr as <- <- <-. split; [|done]. simpl. unfold attach_datagram. case_if; [done|].
    destruct (State.udp_flows s !! flow) as [f|] eqn:Ef; [|done]. case_if; [done|].
    by eapply good_set_udp.
  - injection Hr as <- <- <-. split; [|done]. simpl. unfold complete. case_if; [done|].
    destruct (State.flows s !! flow) as [f|] eqn:Ef; [by eapply good_set_flow|].
    destruct (State.udp_flows s !! flow) as [f|] eqn:Eu; [by eapply good_set_udp|done].
  - injection Hr as <- <- <-. split; [|done]. by apply close_flow_good.
  - by injection Hr as <- <- <-.
Qed.

Lemma run_good instance ls s ops :
  good s [] -> let '(s', log) := run instance ls s ops in good s' log /\ NoDup log.
Proof.
  intros G. unfold run. assert (NoDup (@nil Z)) as Hn by constructor. revert ls s G Hn.
  generalize (@nil Z). induction ops as [|o ops IH]; intros log ls s G Hn; [done|]. cbn [fold_left].
  destruct (run1 instance ls s o) as [[ls1 s1] h] eqn:E1.
  destruct (run1_good _ _ _ _ _ _ _ _ E1 G Hn). by apply IH.
Qed.

(** C31: However the clients, the stack, the host and the other instances of the
    process behave, an instance keeps its limits on clients, flows and
    associations, never announces a flow twice, and a destination of an
    association leads to no flow but one of that destination, of the association's
    own socket and of its own client. *)
Theorem socks_instance_ok `{Toml Options.t} p p' instance config s ops :
  initialize p instance config true = (p', Ok tt) -> states p' !! instance = Some s ->
  0 <= Options.max_connections (State.options s) -> 0 <= Options.max_udp_associations (State.options s) ->
  let '(s', announced) := run instance (registry p') s ops in
  connections s' <= Options.max_connections (State.options s') /\
  len (State.associations s') <= Options.max_udp_associations (State.options s') /\
  Z.of_nat (size (State.udp_flows s')) <= Options.max_connections (State.options s') /\
  NoDup announced /\
  (forall a key h f, a ∈ State.associations s' -> UdpAssociation.destinations a !! key = Some h ->
     State.udp_flows s' !! h = Some f ->
     (UdpClientFlow.address f, UdpClientFlow.port f) = key /\
     UdpClientFlow.socket f = UdpAssociation.socket a /\
     UdpAssociation.client a = Some (UdpClientFlow.client f)).
Proof.
  unfold initialize. destruct (parse_options config) as [options|]; [|done].
  destruct (parse_socket_addr _) as [address|]; [|done].
  destruct (register_listener _ _ _ _) as [ls|]; [|done]. intros [= <-]. simpl.
  rewrite lookup_insert_eq. intros [= <-] Hmax Hudp. simpl in Hmax, Hudp.
  pose proof (run_good instance ls (State.mk address options [] ∅ [] ∅ 1) ops) as Hrun.
  destruct (run _ _ _ _) as [s' log]. destruct Hrun as [[G1 G2 G3 G4 G5] Hn].
  - split; simpl; try done. split; intros; simpl in *; set_solver.
  - split_and!; try done. intros a key h f Ha Hk Hf. rewrite Forall_forall in G5.
    by apply (G5 a Ha key h Hk).
Qed.
End life.

(** * Sharing a listener *)

Module Group := ListenerGroup.

(** The registry as the instances of the process make it: an instance registers
    once, unregisters, or polls. *)
Inductive reachable : listeners -> Prop :=
| reach_empty : reachable ∅
| reach_register ls instance address ls' :
    reachable ls -> (forall g, ls !! address = Some g -> instance ∉ Group.members g) ->
    register_listener ls instance address true = Ok ls' -> reachable ls'
| reach_unregister ls instance address :
    reachable ls -> reachable (unregister_listener ls instance address)
| reach_poll e ls instance s : reachable ls -> reachable (accept_clients e ls instance s).1.

Record group_ok (g : Group.t) : Prop := {
  go_members : NoDup (Group.members g);
  go_queues : forall m, m ∈ Group.members g -> is_Some (Group.queues g !! m);
  go_next : 0 <= Group.next g < len (Group.members g);
}.

(** Every [k]-th element, after the first [skip]. *)
Fixpoint every (k skip : nat) (l : list Z) : list Z :=
  match l with
  | [] => []
  | x :: l => match skip with O => x :: every k (k - 1) l | S skip => every k skip l end
  end.

Lemma turn_next k i next :
  (0 < k)%nat -> (i < k)%nat -> 0 <= next < Z.of_nat k ->
  Z.to_nat ((Z.of_nat i - next) mod Z.of_nat k)
  = if Z.of_nat i =? next then O
    else S (Z.to_nat ((Z.of_nat i - (next + 1) mod Z.of_nat k) mod Z.of_nat k)).
Proof.
  intros Hk Hi Hn. rewrite Zminus_mod_idemp_r. case_if.
  - replace (Z.of_nat i - next) with 0 by lia. done.
  - destruct (Z.lt_ge_cases (Z.of_nat i) next).
    + replace ((Z.of_nat i - next) mod Z.of_nat k) with (Z.of_nat i - next + Z.of_nat k)
        by (rewrite <- (Z_mod_plus_full _ 1), Z.mod_small by lia; lia).
      replace ((Z.of_nat i - (next + 1)) mod Z.of_nat k) with (Z.of_nat i - (next + 1) + Z.of_nat k)
        by (rewrite <- (Z_mod_plus_full _ 1), Z.mod_small by lia; lia). lia.
    + rewrite !Z.mod_small by lia. lia.
Qed.

Lemma turn_last k i :
  (i < k)%nat -> Z.to_nat ((Z.of_nat i - (Z.of_nat i + 1) mod Z.of_nat k) mod Z.of_nat k) = (k - 1)%nat.
Proof.
  intros Hi. rewrite Zminus_mod_idemp_r. replace (Z.of_nat i - (Z.of_nat i + 1)) with (-1) by lia.
  rewrite <- (Z_mod_plus_full _ 1), Z.mod_small by lia. lia.
Qed.

Lemma distribute_fair streams : forall g i m q,
  group_ok g -> Group.members g !! i = Some m -> Group.queues g !! m = Some q ->
  let k := length (Group.members g) in
  group_ok (distribute g streams) /\ Group.members (distribute g streams) = Group.members g /\
  Group.queues (distribute g streams) !! m
  = Some (q ++ every k (Z.to_nat ((Z.of_nat i - Group.next g) mod Z.of_nat k)) streams).
Proof.
  induction streams as [|x streams IH]; intros g i m q G Hi Hq k; cbn [distribute every].
  { by rewrite app_nil_r. }
  destruct G as [Hnd Hqs Hnext]. pose proof (lookup_lt_Some _ _ _ Hi) as Hik. fold k in Hik.
  unfold len in *. fold k in Hnext |- *. rewrite Z.mod_small by lia.
  destruct (lookup_lt_is_Some_2 (Group.members g) (Z.to_nat (Group.next g))) as [m' Hm']; [fold k; lia|].
  rewrite Hm'. destruct (Hqs m') as [q' Hq']; [by eapply list_elem_of_lookup_2|]. rewrite Hq'.
  set (g' := Group.mk (Group.members g) (<[m' := q' ++ [x]]> (Group.queues g))
    ((Group.next g + 1) mod Z.of_nat k)).
  assert (group_ok g') as G'.
  { split; simpl; [done| |unfold len; fold k; apply Z.mod_pos_bound; lia].
    intros y Hy. destruct (decide (y = m')) as [->|?]; [by rewrite lookup_insert_eq|].
    rewrite lookup_insert_ne by done. auto. }
  rewrite (turn_next k i (Group.next g)) by lia. destruct (Z.of_nat i =? Group.next g) eqn:E; bools.
  - assert (m' = m) as -> by (rewrite <- E, Nat2Z.id in Hm'; congruence). simplify_eq.
    destruct (IH g' i m (q ++ [x]) G' Hi ltac:(simpl; by rewrite lookup_insert_eq)) as (? & ? & Hd).
    split_and!; [done..|]. rewrite Hd, <- app_assoc. simpl. fold k. rewrite <- E, turn_last by done. done.
  - assert (m' <> m) as Hne.
    { intros ->. assert (Z.to_nat (Group.next g) = i) by (by eapply NoDup_lookup). lia. }
    destruct (IH g' i m q G' Hi ltac:(simpl; by rewrite lookup_insert_ne)) as (? & ? & Hd).
    split_and!; [done..|]. by rewrite Hd.
Qed.

Lemma distribute_ok g streams : group_ok g -> group_ok (distribute g streams).
Proof.
  intros G. pose proof G as [Hnd Hqs Hn].
  destruct (Group.members g) as [|m l] eqn:Em; [unfold len in Hn; simpl in Hn; lia|].
  destruct (Hqs m) as [q Hq]; [left|].
  destruct (distribute_fair streams g 0 m q G ltac:(by rewrite Em) Hq) as [? _]. done.
Qed.

Lemma reachable_ok ls : reachable ls -> map_Forall (fun _ g => group_ok g) ls.
Proof.
  induction 1 as [|ls instance address ls' Hr IH Hfresh Hreg|ls instance address Hr IH|e ls instance s Hr IH].
  - apply map_Forall_empty.
  - unfold register_listener in Hreg.
    destruct (ls !! address) as [g|] eqn:Eg; simpl in Hreg; injection Hreg as <-; apply map_Forall_insert_2; try done.
    + destruct (IH _ _ Eg) as [Hnd Hqs Hn]. split; simpl.
      * apply NoDup_app. split_and!; [done| |apply NoDup_singleton].
        intros m Hm ->%list_elem_of_singleton. by apply (Hfresh g).
      * intros m [Hm| ->%list_elem_of_singleton]%elem_of_app.
        -- destruct (decide (m = instance)) as [->|]; [by rewrite lookup_insert_eq|].
           rewrite lookup_insert_ne by done. auto.
        -- by rewrite lookup_insert_eq.
      * rewrite len_snoc. lia.
    + split; simpl; [apply NoDup_singleton| |unfold len; simpl; lia].
      intros m ->%list_elem_of_singleton. by rewrite lookup_insert_eq.
  - unfold unregister_listener. destruct (ls !! address) as [g|] eqn:Eg; [|done].
    destruct (IH _ _ Eg) as [Hnd Hqs Hn].
    case_bool_decide as E; [by apply map_Forall_delete|]. apply map_Forall_insert_2; [|done].
    set (l := filter _ _) in *. split; simpl.
    + by apply NoDup_filter.
    + intros m [Hne Hm]%list_elem_of_filter. rewrite lookup_delete_ne by done. auto.
    + destruct l; [done|]. unfold saturating_sub. lens. pose proof (len_nonneg l). lia.
  - unfold accept_clients. destruct (ls !! _) as [g|] eqn:Eg; [|done].
    pose proof (distribute_ok g (accepts e (State.listen s)) (IH _ _ Eg)) as [Hnd Hqs Hn].
    destruct (Group.queues _ !! instance) as [queue|] eqn:Eq; simpl; [|by apply map_Forall_insert_2].
    destruct (take_clients _ _ _ _ _) as [clients queue']. apply map_Forall_insert_2; [|done].
    split; simpl; [done| |done]. intros m Hm.
    destruct (decide (m = instance)) as [->|]; [by rewrite lookup_insert_eq|].
    rewrite lookup_insert_ne by done. auto.
Qed.

(** Instances that share a listening address are served in turn: in every
    registry that registrations, departures and polls can lead to, of the
    connections accepted next the member at position [i] is given, in order and
    behind what already waits for it, every [k]-th of them, [k] the number of
    members, beginning with its turn. *)
Theorem socks_round_robin ls address g streams i m :
  reachable ls -> ls !! address = Some g -> Group.members g !! i = Some m ->
  let k := length (Group.members g) in
  exists q, Group.queues g !! m = Some q /\
    Group.queues (distribute g streams) !! m
    = Some (q ++ every k (Z.to_nat ((Z.of_nat i - Group.next g) mod Z.of_nat k)) streams).
Proof.
  intros Hr%reachable_ok Hg Hi k. pose proof (Hr _ _ Hg) as G.
  destruct (go_queues _ G m) as [q Hq]; [by eapply list_elem_of_lookup_2|]. exists q. split; [done|].
  by destruct (distribute_fair streams g i m q G Hi Hq) as (_ & _ & ?).
Qed.

(** * Behaviour that the code does not mean to have *)

Definition demo_options : Options.t := Options.mk #"127.0.0.1:1080" 1 4 262 true.
Definition demo_address : SocketAddr.t := SocketAddr.V4 0x7f000001 1080.
Definition demo_toml : Toml Options.t := {| toml_from_str _ := Some demo_options |}.
Definition demo_order : HashOrder := {| hash_order _ l := l; hash_order_perm _ l := reflexivity l |}.

(** Stream 7 sends its greeting and resets the connection before it is answered;
    stream 8 connects as well. *)
Definition reset_env (first : bool) : Env :=
  {| accepts _ := if first then [7; 8] else []; usable _ := true;
     reads s := if first then [Data (greeting [x00])] else [ReadFails];
     writes _ := [WriteFails]; control_writes _ := []; peeks _ := PeekBlocks; udp_bind _ := None;
     receives _ := RecvBlocks; clones _ := true; uploads _ := (O, Pending); downloads _ := Pending;
     pumps := true; datagrams _ := UdpClientFlow.mkIo Pending Pending SendBlocks SendBlocks |}.

Definition dead_client : ClientConnection.t :=
  ClientConnection.mk 7 [] [x05; x00] 0 ClientPhase.Failed.

Fixpoint polls (n : nat) (ls : listeners) (s : State.t) : listeners * State.t :=
  match n with
  | O => (ls, s)
  | S n => let '(ls, s) := poll_state (reset_env false) ls 1 s in polls n ls s
  end.

Definition demo_state : State.t := State.mk demo_address demo_options [] ∅ [] ∅ 1.
Definition demo_group (q : list Z) : listeners := {[demo_address := Group.mk [1] {[1 := q]} 0]}.
Definition stuck : State.t := State.set_clients demo_state [dead_client].

Lemma stuck_fixed : poll_state (reset_env false) (demo_group [8]) 1 stuck = (demo_group [8], stuck).
Proof. vm_compute. reflexivity. Qed.

(** A client whose stream fails while an answer to it is queued is never
    removed: a failed client is kept until its output is empty, which it never
    becomes.  With a limit of one connection, a client that resets its
    connection after the greeting leaves the next one waiting, however often the
    instance is polled. *)
Theorem socks_dead_client_stays n :
  let '(ls, s) := poll_state (reset_env true) (demo_group []) 1 demo_state in
  polls n ls s = (demo_group [8], State.set_clients demo_state [dead_client]).
Proof.
  assert (poll_state (reset_env true) (demo_group []) 1 demo_state = (demo_group [8], stuck)) as ->
    by (vm_compute; reflexivity).
  induction n as [|n IH]; [done|]. cbn [polls]. by rewrite stuck_fixed.
Qed.

Definition demo_association : UdpAssociation.t :=
  UdpAssociation.mk (ClientConnection.new 7) 9 None ∅.
Definition stranger : SocketAddr.t := SocketAddr.V4 0x0a000001 4444.
Definition datagram_env (data : bytes) (source : SocketAddr.t) : Env :=
  {| accepts _ := []; usable _ := true; reads _ := []; writes _ := []; control_writes _ := [];
     peeks _ := PeekBlocks; udp_bind _ := None; receives _ := Received data source; clones _ := true;
     uploads _ := (O, Pending); downloads _ := Pending; pumps := true;
     datagrams _ := UdpClientFlow.mkIo Pending Pending SendBlocks SendBlocks |}.

(** A UDP association belongs to whoever sends it a datagram first, from any
    address and even an empty one: the datagrams of the client that asked for the
    association are ignored from then on. *)
Theorem socks_association_captured data port :
  let '(a, packet, _) := poll_association (datagram_env [] stranger) demo_association in
  packet = None /\ UdpAssociation.client a = Some stranger /\
  poll_association (datagram_env data (SocketAddr.V4 0x7f000001 port)) a = (a, None, false).
Proof. split_and!; [vm_compute; reflexivity..|]. vm_compute. reflexivity. Qed.

(** * Witnesses *)

Definition demo_request : Request.t := Request.mk Command.Connect (Address.Domain #"example.com") 443.
Definition demo_polls : list (list bytes * list write_answer) :=
  [([[x05]; [x01]], []);
   ([[x00; x05; x01]], [Wrote 1; WriteBlocks]);
   ([[x00; x03; x0b] ++ #"example.com"; [x01; xbb] ++ #"GET /"], [])].

Lemma socks_negotiation_witness :
  let '(c, sent) := fold_left (exchange 262) demo_polls (ClientConnection.new 7, []) in
  ClientConnection.phase c = ClientPhase.Ready demo_request /\ ClientConnection.input c = #"GET /" /\
  sent ++ unsent c = [x05; x00].
Proof.
  assert (overrun 262 demo_polls -> False) as Hfits.
  { intros [H|H]; [vm_compute in H; discriminate H|]. apply list_elem_of_In in H. vm_compute in H.
    repeat destruct H as [H|H]; try discriminate H; exact H. }
  pose proof (socks_negotiation 7 262 demo_polls [x00] demo_request #"GET /") as Hn.
  destruct (fold_left (exchange 262) demo_polls (ClientConnection.new 7, [])) as [c sent].
  destruct Hn as [Hn|(_ & _ & Hn)].
  - vm_compute. repeat split; lia || discriminate.
  - vm_compute. reflexivity.
  - vm_compute. discriminate.
  - left.
  - vm_compute. repeat split; discriminate.
  - exact Hn.
  - destruct (Hfits Hn).
Defined.

(** The limit counts the payload that comes with the request: the same bytes are
    refused when they arrive in one read, and accepted when the payload comes in a
    read of its own, although the payload is never longer than the limit. *)
Theorem socks_limit_counts_payload :
  let hello := greeting [x00] in
  let payload := repeat x00 255 in
  let request := encode_request demo_request in
  let ending polls := ClientConnection.phase (fold_left (exchange 262) polls (ClientConnection.new 7, [])).1 in
  ending [([hello ++ request ++ payload], [Wrote 2])] = ClientPhase.Failed /\
  ending [([hello ++ request], [WriteBlocks]); ([payload], [Wrote 2])] = ClientPhase.Ready demo_request.
Proof. vm_compute. split; reflexivity. Qed.

Definition demo_ops : list op :=
  [Poll (reset_env true); Accept (reset_env false); Close 3; Poll (datagram_env [x01] stranger)].

Lemma socks_instance_ok_witness :
  let s := demo_state in
  let '(s', announced) := run (H := demo_order) 1 (demo_group []) s demo_ops in
  connections s' <= 1 /\ len (State.associations s') <= 4 /\ NoDup announced.
Proof.
  assert (initialize (H := demo_toml) (mkProcess ∅ ∅) 1 [] true
    = (mkProcess (demo_group []) {[1 := demo_state]}, Ok tt)) as Hi by (vm_compute; reflexivity).
  pose proof (socks_instance_ok (H := demo_order) _ _ 1 [] demo_state demo_ops Hi
    ltac:(reflexivity) ltac:(vm_compute; discriminate) ltac:(vm_compute; discriminate)) as Hok.
  cbv zeta. change (registry (mkProcess (demo_group []) {[1 := demo_state]})) with (demo_group []) in Hok.
  destruct (run (H := demo_order) 1 (demo_group []) demo_state demo_ops) as [s' announced] eqn:E.
  destruct Hok as (Hc & Ha & _ & Hn & _).
  assert (State.options s' = demo_options) as Ho by (vm_compute in E; injection E as <- <-; reflexivity).
  rewrite Ho in *. split; [exact Hc|split; [exact Ha|exact Hn]].
Defined.

(** Two instances on one address. *)
Definition pair_group : listeners :=
  {[demo_address := Group.mk [1; 2] (<[2 := []]> {[1 := []]}) 0]}.

Lemma socks_round_robin_witness :
  exists q,
    Group.queues (distribute (Group.mk [1; 2] (<[2 := []]> {[1 := []]}) 0) [7; 8; 9; 10]) !! 2 = Some (q ++ [8; 10]).
Proof.
  destruct (socks_round_robin pair_group demo_address (Group.mk [1; 2] (<[2 := []]> {[1 := []]}) 0)
    [7; 8; 9; 10] 1 2) as (q & _ & Hq).
  - apply (reach_register {[demo_address := Group.mk [1] {[1 := []]} 0]} 2 demo_address).
    + apply (reach_register ∅ 1 demo_address); [constructor| |vm_compute; reflexivity].
      intros g Hg. vm_compute in Hg. discriminate Hg.
    + intros g Hg. vm_compute in Hg. injection Hg as <-. by apply (bool_decide_unpack _).
    + vm_compute. reflexivity.
  - vm_compute. reflexivity.
  - reflexivity.
  - exists q. exact Hq.
Defined.

Lemma socks_request_framed_witness :
  let input := encode_request demo_request ++ #"GET /" in
  request_length input = Some (length (encode_request demo_request)) /\
  parse_request (take (length (encode_request demo_request)) input) <> Err ParseError.Incomplete.
Proof.
  cbv zeta. destruct (socks_request_framed (encode_request demo_request ++ #"GET /")) as (Hf & _ & Hl).
  assert (request_ok demo_request) as Hr by (vm_compute; repeat split; discriminate).
  specialize (Hl demo_request _ Hr eq_refl). split; [exact Hl|].
  apply (Hf _ Hl). vm_compute. lia.
Defined.
