(* ===== verification/Wake.v ===== *)
(** The wake handles that the host gives to a module, and the slots that keep
    them ([WakeSlot], the same code in carrier-tcp and carrier-ssh): what a slot
    does to the handles it is given is recorded as events, and the events of all
    slots together balance. *)
From S2P Require Import Prelude.
#[local] Open Scope Z_scope.

(** * Wake handles *)

Module SnolWakeHandle.
(** [retain] is the function, if there is one, with whether it succeeds; [wake]
    and [release] say whether there is one. *)
Record t := mk { context : Z; retain : option bool; wake : bool; release : bool }.
End SnolWakeHandle.

Inductive event := Retained (context : Z) | Woken (context : Z) | Released (context : Z).

Module WakeSlot.
Definition t := option SnolWakeHandle.t.

Definition clear (s : t) : t * list event :=
  match s with
  | Some w => (None, if SnolWakeHandle.release w then [Released (SnolWakeHandle.context w)] else [])
  | None => (None, [])
  end.

Definition replace (s : t) (w : SnolWakeHandle.t) : t * list event :=
  let '(s, events) := clear s in
  if bool_decide (SnolWakeHandle.retain w = Some true)
  then (Some w, events ++ [Retained (SnolWakeHandle.context w)])
  else (s, events).

Definition wake (s : t) : t * list event :=
  match s with
  | Some w =>
      (None, (if SnolWakeHandle.wake w then [Woken (SnolWakeHandle.context w)] else [])
             ++ (if SnolWakeHandle.release w then [Released (SnolWakeHandle.context w)] else []))
  | None => (None, [])
  end.

(** [Drop]. *)
Definition drop (s : t) : list event := (clear s).2.
End WakeSlot.

(** * Balance *)

(** Who may be released: what the handles are expected to be. *)
Definition wake_ok (w : SnolWakeHandle.t) : Prop := SnolWakeHandle.release w = true.

Definition slot_ok (s : WakeSlot.t) : Prop := match s with Some w => wake_ok w | None => True end.

(** The events of one context: how many times it is retained more than released,
    and that it is only woken and released while it is retained. *)
Definition change (ctx : Z) (e : event) : Z :=
  match e with
  | Retained c => if c =? ctx then 1 else 0
  | Released c => if c =? ctx then -1 else 0
  | Woken _ => 0
  end.

Fixpoint balance (ctx : Z) (l : list event) : Z :=
  match l with [] => 0 | e :: l => change ctx e + balance ctx l end.

Definition needs (ctx : Z) (e : event) : Z :=
  match e with
  | Retained _ => 0
  | Woken c | Released c => if c =? ctx then 1 else 0
  end.

Fixpoint legal (ctx n : Z) (l : list event) : Prop :=
  match l with
  | [] => True
  | e :: l => needs ctx e <= n /\ legal ctx (n + change ctx e) l
  end.

Lemma balance_app ctx a b : balance ctx (a ++ b) = balance ctx a + balance ctx b.
Proof. induction a; simpl; lia. Qed.

Lemma legal_app ctx n a b : legal ctx n (a ++ b) <-> legal ctx n a /\ legal ctx (n + balance ctx a) b.
Proof.
  revert n. induction a as [|e a IH]; intros n; simpl.
  - rewrite Z.add_0_r. tauto.
  - rewrite IH. replace (n + change ctx e + balance ctx a) with (n + (change ctx e + balance ctx a)) by lia. tauto.
Qed.

Lemma legal_mono ctx n n' l : n <= n' -> legal ctx n l -> legal ctx n' l.
Proof.
  revert n n'. induction l as [|e l IH]; intros n n' Hn; simpl; [done|].
  intros [? ?]. split; [lia|]. eapply IH; [|done]. lia.
Qed.

Definition held (ctx : Z) (s : WakeSlot.t) : Z :=
  match s with Some w => if SnolWakeHandle.context w =? ctx then 1 else 0 | None => 0 end.

Lemma held_range ctx s : 0 <= held ctx s <= 1.
Proof. destruct s; simpl; [case_if|]; lia. Qed.

(** [e] turns what is held from [a] to [b]. *)
Definition moves (ctx a b : Z) (e : list event) : Prop := balance ctx e = b - a /\ legal ctx a e.

Lemma moves_nil ctx a : moves ctx a a [].
Proof. split; simpl; [lia|done]. Qed.

Lemma moves_app ctx a b c e1 e2 : moves ctx a b e1 -> moves ctx b c e2 -> moves ctx a c (e1 ++ e2).
Proof.
  intros [Hb1 Hl1] [Hb2 Hl2]. split; [rewrite balance_app; lia|]. apply legal_app. split; [done|].
  by replace (a + balance ctx e1) with b by lia.
Qed.

(** With [k] more of them held elsewhere. *)
Lemma moves_frame ctx a b k e : 0 <= k -> moves ctx a b e -> moves ctx (a + k) (b + k) e.
Proof. intros Hk [Hb Hl]. split; [lia|]. eapply legal_mono; [|done]. lia. Qed.

Lemma clear_moves ctx s : slot_ok s -> moves ctx (held ctx s) 0 (WakeSlot.clear s).2 /\ (WakeSlot.clear s).1 = None.
Proof.
  destruct s as [w|]; simpl; [|split; [apply moves_nil|done]]. unfold wake_ok. intros ->. split; [|done].
  unfold moves. simpl. case_if; lia.
Qed.

Lemma wake_moves ctx s : slot_ok s -> moves ctx (held ctx s) 0 (WakeSlot.wake s).2 /\ (WakeSlot.wake s).1 = None.
Proof.
  destruct s as [w|]; simpl; [|split; [apply moves_nil|done]]. unfold wake_ok. intros ->. split; [|done].
  unfold moves. destruct (SnolWakeHandle.wake w); simpl; case_if; lia.
Qed.

Lemma drop_moves ctx s : slot_ok s -> moves ctx (held ctx s) 0 (WakeSlot.drop s).
Proof. intros Hs. by apply clear_moves. Qed.

Lemma replace_moves ctx s w s' e :
  slot_ok s -> wake_ok w -> WakeSlot.replace s w = (s', e) -> moves ctx (held ctx s) (held ctx s') e /\ slot_ok s'.
Proof.
  intros Hs Hw. unfold WakeSlot.replace. destruct (clear_moves ctx s Hs) as [Hc Hn].
  destruct (WakeSlot.clear s) as [s0 e0]. simpl in *. subst s0. case_if; intros [= <- <-]; [|done].
  split; [|done]. eapply moves_app; [done|]. unfold moves. simpl. case_if; lia.
Qed.
