(* ===== verification/WakeTable.v ===== *)
(** The wake handles held by the tables of a carrier: instances and streams with
    two slots each (carrier-tcp and carrier-ssh).  What the slots of both tables
    hold together is what the events say was retained and not released; each way in
    which a carrier changes its tables keeps this. *)
From S2P Require Import Prelude Abi Wake.
#[local] Open Scope Z_scope.

(** * Sums over tables *)

Definition sum {V} (f : V -> Z) (l : list (Z * V)) : Z := foldr (fun kv acc => f kv.2 + acc) 0 l.
Definition weight {V} (f : V -> Z) (m : gmap Z V) : Z := sum f (map_to_list m).

Lemma sum_perm {V} (f : V -> Z) (l k : list (Z * V)) : l ≡ₚ k -> sum f l = sum f k.
Proof. induction 1; simpl; lia. Qed.

Lemma weight_empty {V} (f : V -> Z) : weight f ∅ = 0.
Proof. unfold weight. by rewrite map_to_list_empty. Qed.

Lemma weight_fresh {V} (f : V -> Z) m k v : m !! k = None -> weight f (<[k := v]> m) = f v + weight f m.
Proof. intros Hk. unfold weight. by rewrite (sum_perm _ _ _ (map_to_list_insert _ _ v Hk)). Qed.

Lemma weight_delete {V} (f : V -> Z) m k v : m !! k = Some v -> weight f (delete k m) = weight f m - f v.
Proof.
  intros Hk. pose proof (weight_fresh f (delete k m) k v (lookup_delete_eq m k)) as Hw.
  rewrite insert_delete_id in Hw by done. lia.
Qed.

Lemma weight_insert {V} (f : V -> Z) m k v v' :
  m !! k = Some v -> weight f (<[k := v']> m) = weight f m - f v + f v'.
Proof.
  intros Hk. rewrite <- insert_delete_eq, weight_fresh by apply lookup_delete_eq.
  rewrite (weight_delete f m k v Hk). lia.
Qed.

Lemma weight_nonneg {V} (f : V -> Z) m : (forall v, 0 <= f v) -> 0 <= weight f m.
Proof.
  intros Hf. unfold weight. induction (map_to_list m) as [|[k v] l IH]; simpl; [lia|].
  specialize (Hf v). lia.
Qed.

Lemma weight_lookup {V} (f : V -> Z) m k v : (forall v, 0 <= f v) -> m !! k = Some v -> f v <= weight f m.
Proof. intros Hf Hk. pose proof (weight_nonneg f (delete k m) Hf). rewrite (weight_delete f m k v Hk) in *. lia. Qed.

Lemma weight_zero {V} (f : V -> Z) m : (forall k v, m !! k = Some v -> f v = 0) -> weight f m = 0.
Proof.
  induction m as [|k v m Hk IH] using map_ind; intros Hz; [apply weight_empty|].
  rewrite weight_fresh by done. rewrite (Hz k v) by apply lookup_insert_eq. rewrite IH; [done|].
  intros k' v' Hk'. apply (Hz k'). rewrite lookup_insert_ne; [done|]. congruence.
Qed.

Lemma weight_partition {V} (f : V -> Z) (P : Z * V -> Prop) `{forall x, Decision (P x)} m :
  weight f m = weight f (filter (fun x => ~ P x) m) + sum f (filter P (map_to_list m)).
Proof.
  induction m as [|k v m Hk IH] using map_ind.
  { rewrite map_filter_empty, map_to_list_empty, !weight_empty. done. }
  rewrite weight_fresh by done. rewrite (sum_perm f (filter P (map_to_list (<[k := v]> m)))
    (filter P ((k, v) :: map_to_list m))) by (by rewrite map_to_list_insert).
  rewrite filter_cons. destruct (decide (P (k, v))) as [Hp|Hp].
  - rewrite map_filter_insert_False, map_filter_delete by tauto. simpl.
    rewrite delete_id by (apply map_lookup_filter_None; by left). fold (sum f (filter P (map_to_list m))). lia.
  - rewrite map_filter_insert_True by done. rewrite weight_fresh by (apply map_lookup_filter_None; by left).
    fold (sum f (filter P (map_to_list m))). lia.
Qed.

(** The counters move on. *)
Lemma fetch_add_small next n : 1 <= next <= n -> n < u64_max -> fetch_add next = (next, next + 1).
Proof. intros ? ?. unfold fetch_add, wrapping_add. rewrite Z.mod_small by lia. done. Qed.

(** * Two slots *)

Abbreviation slots := (WakeSlot.t * WakeSlot.t)%type.

Definition held_both (ctx : Z) (p : slots) : Z := held ctx p.1 + held ctx p.2.
Definition both_ok (p : slots) : Prop := slot_ok p.1 /\ slot_ok p.2.
Definition drop_both (p : slots) : list event := WakeSlot.drop p.1 ++ WakeSlot.drop p.2.

Lemma held_both_nonneg ctx p : 0 <= held_both ctx p.
Proof. unfold held_both. pose proof (held_range ctx p.1). pose proof (held_range ctx p.2). lia. Qed.

(** [e] is what turns the slots [p] into [q]. *)
Definition exchange (p q : slots) (e : list event) : Prop :=
  both_ok p -> both_ok q /\ forall ctx, moves ctx (held_both ctx p) (held_both ctx q) e.

Lemma exchange_id p : exchange p p [].
Proof. intros Hp. split; [done|]. intros ctx. apply moves_nil. Qed.

Lemma exchange_first w a b slot e :
  wake_ok w -> WakeSlot.replace a w = (slot, e) -> exchange (a, b) (slot, b) e.
Proof.
  intros Hw Hr [Ha Hb]. assert (slot_ok slot) by (by destruct (replace_moves 0 _ _ _ _ Ha Hw Hr)).
  split; [done|]. intros ctx. apply moves_frame; [apply held_range|]. by destruct (replace_moves ctx _ _ _ _ Ha Hw Hr).
Qed.

Lemma exchange_second w a b slot e :
  wake_ok w -> WakeSlot.replace b w = (slot, e) -> exchange (a, b) (a, slot) e.
Proof.
  intros Hw Hr [Ha Hb]. assert (slot_ok slot) by (by destruct (replace_moves 0 _ _ _ _ Hb Hw Hr)).
  split; [done|]. intros ctx. unfold held_both. simpl. rewrite !(Z.add_comm (held ctx a)).
  apply moves_frame; [apply held_range|]. by destruct (replace_moves ctx _ _ _ _ Hb Hw Hr).
Qed.

Lemma exchange_wake_second a b b' e : WakeSlot.wake b = (b', e) -> exchange (a, b) (a, b') e.
Proof.
  intros E [Ha Hb]. simpl in *. pose proof (fun ctx => wake_moves ctx _ Hb) as Hm. rewrite E in Hm. simpl in Hm.
  destruct (Hm 0) as [_ ->]. split; [done|]. intros ctx. unfold held_both. simpl.
  rewrite !(Z.add_comm (held ctx a)). apply moves_frame; [apply held_range|apply Hm].
Qed.

Lemma exchange_wake a b a' b' e1 e2 :
  WakeSlot.wake a = (a', e1) -> WakeSlot.wake b = (b', e2) -> exchange (a, b) (a', b') (e1 ++ e2).
Proof.
  intros E1 E2 [Ha Hb]. simpl in *.
  pose proof (fun ctx => wake_moves ctx _ Ha) as Hm. rewrite E1 in Hm. simpl in Hm.
  pose proof (fun ctx => wake_moves ctx _ Hb) as Hm'. rewrite E2 in Hm'. simpl in Hm'.
  destruct (Hm 0) as [_ ->]. destruct (Hm' 0) as [_ ->]. split; [done|]. intros ctx. unfold held_both. simpl.
  eapply moves_app; [apply moves_frame; [apply held_range|apply Hm]|]. apply Hm'.
Qed.

(** Two slots are dropped, with [k] more handles held elsewhere. *)
Lemma drop_two_moves ctx r w k :
  0 <= k -> slot_ok r -> slot_ok w ->
  moves ctx (held ctx r + held ctx w + k) k (WakeSlot.drop r ++ WakeSlot.drop w).
Proof.
  intros Hk Hr Hw. pose proof (held_range ctx w) as Hb.
  apply moves_app with (b := held ctx w + k).
  - replace (held ctx r + held ctx w + k) with (held ctx r + (held ctx w + k)) by lia.
    replace (held ctx w + k) with (0 + (held ctx w + k)) at 2 by lia.
    apply moves_frame; [lia|by apply drop_moves].
  - replace k with (0 + k) at 2 by lia. apply moves_frame; [lia|by apply drop_moves].
Qed.

Lemma drop_both_moves ctx p k : 0 <= k -> both_ok p -> moves ctx (held_both ctx p + k) k (drop_both p).
Proof. intros Hk [Hr Hw]. by apply drop_two_moves. Qed.

(** * The tables *)

Section tables.
Context {I S : Type} (slots_i : I -> slots) (slots_s : S -> slots).

Definition held_tables (ctx : Z) (im : gmap Z I) (sm : gmap Z S) : Z :=
  weight (fun s => held_both ctx (slots_i s)) im + weight (fun s => held_both ctx (slots_s s)) sm.

Record balanced (im : gmap Z I) (sm : gmap Z S) (ev : list event) : Prop := {
  balanced_is : forall i s, im !! i = Some s -> both_ok (slots_i s);
  balanced_ss : forall h s, sm !! h = Some s -> both_ok (slots_s s);
  balanced_es : forall ctx, moves ctx 0 (held_tables ctx im sm) ev;
}.

Lemma weight_slots_nonneg {V} (f : V -> slots) ctx (m : gmap Z V) :
  0 <= weight (fun s => held_both ctx (f s)) m.
Proof. apply weight_nonneg. intros v. apply held_both_nonneg. Qed.

Lemma weight_slots_lookup {V} (f : V -> slots) ctx (m : gmap Z V) k v :
  m !! k = Some v -> held_both ctx (f v) <= weight (fun s => held_both ctx (f s)) m.
Proof. apply (weight_lookup (fun s => held_both ctx (f s))). intros x. apply held_both_nonneg. Qed.

Lemma balanced_init : balanced ∅ ∅ [].
Proof.
  split; [by intros ? ?; rewrite lookup_empty..|]. intros ctx. unfold held_tables.
  rewrite !weight_empty. apply moves_nil.
Qed.

Lemma balanced_instance im sm ev i s s' e :
  im !! i = Some s -> exchange (slots_i s) (slots_i s') e -> balanced im sm ev ->
  balanced (<[i := s']> im) sm (ev ++ e).
Proof.
  intros Hi He [B1 B2 B3]. destruct (He (B1 _ _ Hi)) as [Hok Hmv]. split; [|done|].
  - intros j x [[<- <-]|[_ Hj]]%lookup_insert_Some; eauto.
  - intros ctx. eapply moves_app; [apply B3|]. unfold held_tables. rewrite (weight_insert _ _ i s) by done.
    pose proof (weight_slots_lookup slots_i ctx _ _ _ Hi). pose proof (weight_slots_nonneg slots_s ctx sm).
    specialize (Hmv ctx). set (a := weight _ im) in *. set (b := weight _ sm) in *.
    apply (moves_frame _ _ _ (a - held_both ctx (slots_i s) + b)) in Hmv; [|lia].
    replace (a + b) with (held_both ctx (slots_i s) + (a - held_both ctx (slots_i s) + b)) by lia.
    by replace (a - held_both ctx (slots_i s) + held_both ctx (slots_i s') + b)
      with (held_both ctx (slots_i s') + (a - held_both ctx (slots_i s) + b)) by lia.
Qed.

Lemma balanced_stream im sm ev h s s' e :
  sm !! h = Some s -> exchange (slots_s s) (slots_s s') e -> balanced im sm ev ->
  balanced im (<[h := s']> sm) (ev ++ e).
Proof.
  intros Hi He [B1 B2 B3]. destruct (He (B2 _ _ Hi)) as [Hok Hmv]. split; [done| |].
  - intros j x [[<- <-]|[_ Hj]]%lookup_insert_Some; eauto.
  - intros ctx. eapply moves_app; [apply B3|]. unfold held_tables. rewrite (weight_insert _ _ h s) by done.
    pose proof (weight_slots_lookup slots_s ctx _ _ _ Hi). pose proof (weight_slots_nonneg slots_i ctx im).
    specialize (Hmv ctx). set (a := weight _ im) in *. set (b := weight _ sm) in *.
    apply (moves_frame _ _ _ (a + (b - held_both ctx (slots_s s)))) in Hmv; [|lia].
    replace (a + b) with (held_both ctx (slots_s s) + (a + (b - held_both ctx (slots_s s)))) by lia.
    by replace (a + (b - held_both ctx (slots_s s) + held_both ctx (slots_s s')))
      with (held_both ctx (slots_s s') + (a + (b - held_both ctx (slots_s s)))) by lia.
Qed.

(** The slots stay as they are. *)
Lemma balanced_instance_same im sm ev i s s' :
  im !! i = Some s -> slots_i s' = slots_i s -> balanced im sm ev -> balanced (<[i := s']> im) sm ev.
Proof.
  intros Hi Hs B. rewrite <- (app_nil_r ev). eapply balanced_instance; [done| |done].
  rewrite Hs. apply exchange_id.
Qed.

Lemma balanced_new_instance im sm ev i s :
  im !! i = None -> slots_i s = (None, None) -> balanced im sm ev -> balanced (<[i := s]> im) sm ev.
Proof.
  intros Hi Hs [B1 B2 B3]. split; [|done|].
  - intros j x [[<- <-]|[_ Hj]]%lookup_insert_Some; [by rewrite Hs|eauto].
  - intros ctx. unfold held_tables. rewrite weight_fresh, Hs by done. apply B3.
Qed.

Lemma balanced_new_stream im sm ev h s :
  sm !! h = None -> slots_s s = (None, None) -> balanced im sm ev -> balanced im (<[h := s]> sm) ev.
Proof.
  intros Hi Hs [B1 B2 B3]. split; [done| |].
  - intros j x [[<- <-]|[_ Hj]]%lookup_insert_Some; [by rewrite Hs|eauto].
  - intros ctx. unfold held_tables. rewrite weight_fresh, Hs by done. apply B3.
Qed.

Lemma balanced_close im sm ev h s :
  sm !! h = Some s -> balanced im sm ev -> balanced im (delete h sm) (ev ++ drop_both (slots_s s)).
Proof.
  intros Hh [B1 B2 B3]. split; [done| |].
  - intros k x [_ Hx]%lookup_delete_Some. eauto.
  - intros ctx. eapply moves_app; [apply B3|]. unfold held_tables. rewrite (weight_delete _ _ h s) by done.
    pose proof (weight_slots_lookup slots_s ctx _ _ _ Hh). pose proof (weight_slots_nonneg slots_i ctx im).
    set (a := weight _ im) in *. set (b := weight _ sm) in *.
    replace (a + b) with (held_both ctx (slots_s s) + (a + (b - held_both ctx (slots_s s)))) by lia.
    apply drop_both_moves; [lia|by apply (B2 h s)].
Qed.

(** The streams of a list are dropped. *)
Lemma drops_move ctx l k :
  0 <= k -> Forall (fun kv => both_ok (slots_s kv.2)) l ->
  moves ctx (sum (fun s => held_both ctx (slots_s s)) l + k) k (concat (map (fun kv => drop_both (slots_s kv.2)) l)).
Proof.
  intros Hk Hl. induction Hl as [|[h s] l Hok Hl IH]; cbn [map concat]; [apply moves_nil|].
  set (f := fun s => held_both ctx (slots_s s)) in *.
  assert (0 <= sum f l) as Hs.
  { clear. induction l as [|[? s] l IH]; simpl; [lia|]. pose proof (held_both_nonneg ctx (slots_s s)).
    unfold f at 1. lia. }
  eapply moves_app; [|exact IH]. cbn [sum foldr snd]. fold (sum f l).
  rewrite <- Z.add_assoc. apply drop_both_moves; [lia|done].
Qed.

(** An instance goes with its streams. *)
Lemma balanced_destroy im sm ev i (P : Z * S -> Prop) `{forall x, Decision (P x)} l :
  l ≡ₚ filter P (map_to_list sm) -> balanced im sm ev ->
  balanced (delete i im) (filter (fun x => ~ P x) sm)
    (ev ++ concat (map (fun kv => drop_both (slots_s kv.2)) l)
        ++ match im !! i with Some s => drop_both (slots_i s) | None => [] end).
Proof.
  intros Hl [B1 B2 B3]. split.
  - intros j x [_ Hj]%lookup_delete_Some. eauto.
  - intros h x [Hx _]%map_lookup_filter_Some. eauto.
  - intros ctx. eapply moves_app; [apply B3|]. unfold held_tables.
    rewrite (weight_partition (fun s => held_both ctx (slots_s s)) P sm), <- (sum_perm _ _ _ Hl).
    pose proof (weight_slots_nonneg slots_s ctx (filter (fun x => ~ P x) sm)).
    pose proof (weight_slots_nonneg slots_i ctx im).
    set (a := weight _ im) in *. set (b := weight _ (filter _ sm)) in *.
    replace (a + (b + sum (fun s => held_both ctx (slots_s s)) l))
      with (sum (fun s => held_both ctx (slots_s s)) l + (a + b)) by lia.
    eapply moves_app; [apply drops_move; [lia|]|].
    + apply Forall_forall. intros [h s]. rewrite Hl, list_elem_of_filter, elem_of_map_to_list.
      intros [_ Hh]. by apply (B2 h s).
    + destruct (im !! i) as [s|] eqn:Es; [|rewrite delete_id by done; apply moves_nil].
      rewrite (weight_delete _ _ i s) by done. fold a.
      pose proof (weight_slots_lookup slots_i ctx _ _ _ Es).
      replace (a + b) with (held_both ctx (slots_i s) + (a - held_both ctx (slots_i s) + b)) by lia.
      apply drop_both_moves; [lia|by apply (B1 i s)].
Qed.
End tables.
