(* ===== verification/Tcp.v ===== *)
(** carrier-tcp (modules/carrier-tcp/src/lib.rs): streams over TCP, connected to
    an endpoint or accepted from a listener that the instances of an address
    share.

    The state is the thread's tables of instances and streams, the counters of
    the handles and the set of addresses with a listener.  The system's answers
    are arguments.  What the module does to the outside is recorded: the events
    of the wake handles it is given ([event]) and the calls on sockets
    ([call]).  The variant of [protected_connect] for Linux and Android is the
    one modelled. *)
From Stdlib Require Import Strings.Byte.
From S2P Require Import Prelude Text Net Admin Abi Socket Wake.
#[local] Open Scope Z_scope.

Module Options.
Inductive t :=
| Connect (endpoint_ip : SocketAddr.t) (max_connections : Z) (nodelay : bool)
| Listen (endpoint_ip : SocketAddr.t) (max_connections : Z) (nodelay : bool).

Definition validate (o : t) : bool :=
  let '(endpoint, max) :=
    match o with Connect e m _ | Listen e m _ => (e, m) end in
  negb ((SocketAddr.port endpoint =? 0) || (max =? 0)).
End Options.

Definition parse_options `{Toml Options.t} (config : bytes) : option Options.t :=
  text ← from_utf8 config;
  options ← toml_from_str text;
  if Options.validate options then Some options else None.

(** * Connecting *)

(** The address as the kernel reads it. *)
Inductive sockaddr :=
| sockaddr_in (port addr : bytes)
| sockaddr_in6 (port : bytes) (flowinfo : Z) (addr : bytes) (scope_id : Z).

Inductive call :=
| Socket (ipv4 : bool) (fd : Z)
| Protect (fd : Z) (ok : bool)
| ConnectTo (fd : Z) (a : sockaddr).

Definition to_sockaddr (a : SocketAddr.t) : sockaddr :=
  match a with
  | SocketAddr.V4 ip port => sockaddr_in (be_bytes 2 port) (octets (IpAddr.V4 ip))
  | SocketAddr.V6 ip port flowinfo scope_id =>
      sockaddr_in6 (be_bytes 2 port) flowinfo (octets (IpAddr.V6 ip)) scope_id
  end.

(** A stream: its descriptor, and the endpoint it leads to. *)
Record tcp_stream := mkStream { fd : Z; peer : SocketAddr.t }.

(** What [libc::connect] answers. *)
Inductive connect_answer := Connected | InProgress | Refused.

(** What [protected_connect] meets. *)
Record network := mkNetwork {
  socket : option Z;
  protects : bool;
  connects : connect_answer;
  async_new : bool;
  (** [writable] at this poll. *)
  writable : poll (result unit unit);
  (** [take_error] gives no error. *)
  no_error : bool;
}.

(** The future of [protected_connect]: not polled yet, or waiting for its socket
    to become writable. *)
Module ConnectFuture.
Inductive t := Start (endpoint : SocketAddr.t) | Waiting (s : tcp_stream).

Definition endpoint (f : t) : SocketAddr.t :=
  match f with Start e => e | Waiting s => peer s end.
End ConnectFuture.

Definition await_writable (n : network) (s : tcp_stream) : ConnectFuture.t + result unit tcp_stream :=
  match writable n with
  | Pending => inl (ConnectFuture.Waiting s)
  | Ready (Err e) => inr (Err e)
  | Ready (Ok _) => inr (if no_error n then Ok s else Err tt)
  end.

(** One poll of the future: the calls it makes, and the future or its result. *)
Definition protected_connect (n : network) (f : ConnectFuture.t)
    : list call * (ConnectFuture.t + result unit tcp_stream) :=
  match f with
  | ConnectFuture.Waiting s => ([], await_writable n s)
  | ConnectFuture.Start endpoint =>
      match socket n with
      | None => ([], inr (Err tt))
      | Some raw =>
          let opened := [Socket (SocketAddr.is_ipv4 endpoint) raw; Protect raw (protects n)] in
          if negb (protects n) then (opened, inr (Err tt))
          else
            let calls := opened ++ [ConnectTo raw (to_sockaddr endpoint)] in
            match connects n with
            | Refused => (calls, inr (Err tt))
            | _ =>
                if async_new n then (calls, await_writable n (mkStream raw endpoint))
                else (calls, inr (Err tt))
            end
      end
  end.

(** * The tables *)

Module Mode.
Inductive t := Connect (endpoint : SocketAddr.t) | Listen (address : SocketAddr.t).
End Mode.

Module InstanceState.
Record t := mk {
  mode : Mode.t;
  max_connections : Z;
  active_connections : Z;
  nodelay : bool;
  pending_connect : option ConnectFuture.t;
  connect_result : option (result unit tcp_stream);
  connect_wake : WakeSlot.t;
  accept_wake : WakeSlot.t;
}.

Definition set_active (s : t) (n : Z) : t :=
  mk (mode s) (max_connections s) n (nodelay s) (pending_connect s) (connect_result s)
    (connect_wake s) (accept_wake s).
Definition set_connect (s : t) (f : option ConnectFuture.t) (r : option (result unit tcp_stream))
    (w : WakeSlot.t) : t :=
  mk (mode s) (max_connections s) (active_connections s) (nodelay s) f r w (accept_wake s).
Definition set_accept_wake (s : t) (w : WakeSlot.t) : t :=
  mk (mode s) (max_connections s) (active_connections s) (nodelay s) (pending_connect s)
    (connect_result s) (connect_wake s) w.
(** [Drop] of the wake slots. *)
Definition drop (s : t) : list event := WakeSlot.drop (connect_wake s) ++ WakeSlot.drop (accept_wake s).
End InstanceState.

Module StreamState.
Record t := mk { owner : Z; io : tcp_stream; read_wake : WakeSlot.t; write_wake : WakeSlot.t }.
Definition drop (s : t) : list event := WakeSlot.drop (read_wake s) ++ WakeSlot.drop (write_wake s).
End StreamState.

Module Tcp.
Record t := mk {
  instances : gmap Z InstanceState.t;
  streams : gmap Z StreamState.t;
  instance_next : Z;
  stream_next : Z;
  listeners : gset SocketAddr.t;
  events : list event;
  calls : list call;
}.

Definition init : t := mk ∅ ∅ 1 1 ∅ [] [].

Definition set_instance (m : t) (i : Z) (s : InstanceState.t) : t :=
  mk (<[i := s]> (instances m)) (streams m) (instance_next m) (stream_next m) (listeners m)
    (events m) (calls m).
Definition set_stream (m : t) (h : Z) (s : StreamState.t) : t :=
  mk (instances m) (<[h := s]> (streams m)) (instance_next m) (stream_next m) (listeners m)
    (events m) (calls m).
Definition emit (m : t) (e : list event) : t :=
  mk (instances m) (streams m) (instance_next m) (stream_next m) (listeners m) (events m ++ e) (calls m).
Definition called (m : t) (c : list call) : t :=
  mk (instances m) (streams m) (instance_next m) (stream_next m) (listeners m) (events m) (calls m ++ c).

(** [shared_listener]: a clone of the listener of the address, or a new one;
    [binds] and [clones] say whether [reusable_listener] and [try_clone]
    succeed. *)
Definition shared_listener (m : t) (a : SocketAddr.t) (binds clones : bool) : t * bool :=
  if bool_decide (a ∈ listeners m) then (m, clones)
  else if binds && clones then
    (mk (instances m) (streams m) (instance_next m) (stream_next m) ({[a]} ∪ listeners m)
       (events m) (calls m), true)
  else (m, false).

(** [validate_config]; [written] is what [write_output] answers for the empty
    message. *)
Definition validate_config `{Toml Options.t} (config : bytes) (written : Status.t) : Status.t :=
  if is_some (parse_options config) then written else Status.INVALID.

(** [create]; [host] is what [HostApi::from_raw] answers, [async_new] whether
    the listener can be made asynchronous. *)
Definition create `{Toml Options.t} (m : t) (config : bytes) (output : bool) (host : result Status.t unit)
    (binds clones async_new : bool) : t * option Z * Status.t :=
  match parse_options config with
  | None => (m, None, Status.INVALID)
  | Some options =>
      match (if output then host else Err Status.INVALID) with
      | Err status => (m, None, status)
      | Ok _ =>
        let '(m, mode) :=
          match options with
          | Options.Connect e _ _ => (m, Some (Mode.Connect e))
          | Options.Listen e _ _ =>
              let '(m, ok) := shared_listener m e binds clones in
              (m, if ok && async_new then Some (Mode.Listen e) else None)
          end in
        match mode with
        | None => (m, None, Status.IO)
        | Some mode =>
            let '(max, nodelay) :=
              match options with Options.Connect _ m n | Options.Listen _ m n => (m, n) end in
            let '(handle, next) := fetch_add (instance_next m) in
            let m := mk (instances m) (streams m) next (stream_next m) (listeners m) (events m) (calls m) in
            if handle =? 0 then (m, None, Status.RESOURCE)
            else
              (set_instance m handle (InstanceState.mk mode max 0 nodelay None None None None),
               Some handle, Status.OK)
        end
      end
  end.

(** An instance has a configuration that validation accepts. *)
Lemma tcp_create_validated `{Toml Options.t} m config output host binds clones async_new m' h :
  create m config output host binds clones async_new = (m', h, Status.OK) ->
  validate_config config Status.OK = Status.OK.
Proof. unfold create, validate_config. by destruct (parse_options config). Qed.

(** The first half of [poll]: the connection of the instance and its wakes. *)
Definition poll_connect (s : InstanceState.t) (n : network) : InstanceState.t * list event * list call :=
  let '(s, e1, c) :=
    match InstanceState.pending_connect s with
    | None => (s, [], [])
    | Some f =>
        match protected_connect n f with
        | (c, inl f) =>
            (InstanceState.set_connect s (Some f) (InstanceState.connect_result s)
               (InstanceState.connect_wake s), [], c)
        | (c, inr r) =>
            let '(w, e) := WakeSlot.wake (InstanceState.connect_wake s) in
            (InstanceState.set_connect s None (Some r) w, e, c)
        end
    end in
  let '(w, e2) := WakeSlot.wake (InstanceState.accept_wake s) in
  (InstanceState.set_accept_wake s w, e1 ++ e2, c).

Definition wake_stream (s : StreamState.t) : StreamState.t * list event :=
  let '(r, e1) := WakeSlot.wake (StreamState.read_wake s) in
  let '(w, e2) := WakeSlot.wake (StreamState.write_wake s) in
  (StreamState.mk (StreamState.owner s) (StreamState.io s) r w, e1 ++ e2).

Section order.
Context `{HashOrder}.

(** The streams of an instance, in the order of the table. *)
Definition owned (m : t) (instance : Z) : list (Z * StreamState.t) :=
  filter (fun '(_, s) => StreamState.owner s = instance) (hash_order (map_to_list (streams m))).

Definition poll (m : t) (instance : Z) (n : network) : t * Status.t :=
  match instances m !! instance with
  | None => (m, Status.INVALID)
  | Some s =>
      let '(s, e, c) := poll_connect s n in
      let m := called (emit (set_instance m instance s) e) c in
      (fold_left (fun m '(h, s) => let '(s, e) := wake_stream s in emit (set_stream m h s) e)
         (owned m instance) m, Status.PENDING)
  end.

Definition destroy (m : t) (instance : Z) : t :=
  let dropped := concat (map (fun '(_, s) => StreamState.drop s) (owned m instance)) in
  let last := match instances m !! instance with Some s => InstanceState.drop s | None => [] end in
  mk (delete instance (instances m)) (filter (fun '(_, s) => StreamState.owner s <> instance) (streams m))
    (instance_next m) (stream_next m) (listeners m) (events m ++ dropped ++ last) (calls m).
End order.

Definition control (m : t) (instance : Z) (written : bool) : Status.t :=
  if negb written then Status.INVALID
  else if is_some (instances m !! instance) then Status.UNSUPPORTED else Status.INVALID.

Definition shutdown (m : t) (instance : Z) : Status.t :=
  if is_some (instances m !! instance) then Status.OK else Status.INVALID.

(** [finish_stream]; [set_nodelay] says whether the option can be set. *)
Definition finish_stream (m : t) (owner : Z) (s : tcp_stream) (i : InstanceState.t)
    (output set_nodelay : bool) : t * option Z * Status.t :=
  let m := set_instance m owner i in
  if negb output then (m, None, Status.INVALID)
  else if negb set_nodelay then (m, None, Status.IO)
  else
    let '(handle, next) := fetch_add (stream_next m) in
    let m := mk (instances m) (streams m) (instance_next m) next (listeners m) (events m) (calls m) in
    if handle =? 0 then (m, None, Status.RESOURCE)
    else
      (set_instance (set_stream m handle (StreamState.mk owner s None None)) owner
         (InstanceState.set_active i (InstanceState.active_connections i + 1)),
       Some handle, Status.OK).

(** The endpoint of a request; an empty one asks for the endpoint configured. *)
Definition parse_endpoint (b : bytes) : result Status.t (option SocketAddr.t) :=
  match b with
  | [] => Ok None
  | _ =>
      match (text ← from_utf8 b; parse_socket_addr text) with
      | Some e => Ok (Some e)
      | None => Err Status.INVALID
      end
  end.

Definition connect (m : t) (instance : Z) (endpoint : bytes) (w : SnolWakeHandle.t)
    (output set_nodelay : bool) : t * option Z * Status.t :=
  match parse_endpoint endpoint with
  | Err status => (m, None, status)
  | Ok requested =>
      match instances m !! instance with
      | None => (m, None, Status.INVALID)
      | Some s =>
          if InstanceState.max_connections s <=? InstanceState.active_connections s
          then (m, None, Status.RESOURCE)
          else match InstanceState.mode s with
          | Mode.Listen _ => (m, None, Status.UNSUPPORTED)
          | Mode.Connect configured =>
              let endpoint := unwrap_or requested configured in
              match InstanceState.connect_result s with
              | Some r =>
                  let s := InstanceState.set_connect s (InstanceState.pending_connect s) None
                    (InstanceState.connect_wake s) in
                  match r with
                  | Ok stream => finish_stream m instance stream s output set_nodelay
                  | Err _ => (set_instance m instance s, None, Status.IO)
                  end
              | None =>
                  let f := match InstanceState.pending_connect s with
                           | None => ConnectFuture.Start endpoint
                           | Some f => f
                           end in
                  let '(slot, e) := WakeSlot.replace (InstanceState.connect_wake s) w in
                  (emit (set_instance m instance (InstanceState.set_connect s (Some f) None slot)) e,
                   None, Status.PENDING)
              end
          end
      end
  end.

(** What the listener gives: a stream, with whether it can be made asynchronous. *)
Inductive accept_answer := Accepted (s : tcp_stream) (async_new : bool) | AcceptBlocks | AcceptFails.

Definition accept (m : t) (instance : Z) (a : accept_answer) (w : SnolWakeHandle.t)
    (output set_nodelay : bool) : t * option Z * Status.t :=
  match instances m !! instance with
  | None => (m, None, Status.INVALID)
  | Some s =>
      if InstanceState.max_connections s <=? InstanceState.active_connections s
      then (m, None, Status.RESOURCE)
      else match InstanceState.mode s with
      | Mode.Connect _ => (m, None, Status.UNSUPPORTED)
      | Mode.Listen _ =>
          match a with
          | Accepted stream true => finish_stream m instance stream s output set_nodelay
          | Accepted _ false | AcceptFails => (m, None, Status.IO)
          | AcceptBlocks =>
              let '(slot, e) := WakeSlot.replace (InstanceState.accept_wake s) w in
              (emit (set_instance m instance (InstanceState.set_accept_wake s slot)) e, None, Status.PENDING)
          end
      end
  end.

Definition set_read_wake (s : StreamState.t) (w : WakeSlot.t) : StreamState.t :=
  StreamState.mk (StreamState.owner s) (StreamState.io s) w (StreamState.write_wake s).
Definition set_write_wake (s : StreamState.t) (w : WakeSlot.t) : StreamState.t :=
  StreamState.mk (StreamState.owner s) (StreamState.io s) (StreamState.read_wake s) w.

(** [read]; [buffer] says that the output is no null pointer with a length, and
    [answer] what the socket answers, an empty buffer with 0. *)
Definition read (m : t) (handle : Z) (buffer : bool) (answer : Prelude.poll (result unit Z))
    (w : SnolWakeHandle.t) : t * SnolIoResult.t :=
  if negb buffer then (m, SnolIoResult.error Status.INVALID)
  else match streams m !! handle with
  | None => (m, SnolIoResult.error Status.INVALID)
  | Some s =>
      match answer with
      | Ready (Ok n) => (m, if n =? 0 then SnolIoResult.eof else SnolIoResult.progress n)
      | Ready (Err _) => (m, SnolIoResult.error Status.IO)
      | Pending =>
          let '(slot, e) := WakeSlot.replace (StreamState.read_wake s) w in
          (emit (set_stream m handle (set_read_wake s slot)) e, SnolIoResult.pending)
      end
  end.

Definition write (m : t) (handle : Z) (input : bytes) (answer : Prelude.poll (result unit Z))
    (w : SnolWakeHandle.t) : t * SnolIoResult.t :=
  if bool_decide (input = []) then (m, SnolIoResult.progress 0)
  else match streams m !! handle with
  | None => (m, SnolIoResult.error Status.INVALID)
  | Some s =>
      match answer with
      | Ready (Ok n) => (m, if n =? 0 then SnolIoResult.error Status.IO else SnolIoResult.progress n)
      | Ready (Err _) => (m, SnolIoResult.error Status.IO)
      | Pending =>
          let '(slot, e) := WakeSlot.replace (StreamState.write_wake s) w in
          (emit (set_stream m handle (set_write_wake s slot)) e, SnolIoResult.pending)
      end
  end.

(** [io_action], which [flush] and [shutdown_write] are. *)
Definition io_action (m : t) (handle : Z) (answer : Prelude.poll (result unit unit))
    (w : SnolWakeHandle.t) : t * SnolIoResult.t :=
  match streams m !! handle with
  | None => (m, SnolIoResult.error Status.INVALID)
  | Some s =>
      match answer with
      | Ready (Ok _) => (m, SnolIoResult.progress 0)
      | Ready (Err _) => (m, SnolIoResult.error Status.IO)
      | Pending =>
          let '(slot, e) := WakeSlot.replace (StreamState.write_wake s) w in
          (emit (set_stream m handle (set_write_wake s slot)) e, SnolIoResult.pending)
      end
  end.

Definition close (m : t) (handle : Z) : t * Status.t :=
  match streams m !! handle with
  | None => (m, Status.INVALID)
  | Some s =>
      let m := mk (instances m) (delete handle (streams m)) (instance_next m) (stream_next m)
        (listeners m) (events m ++ StreamState.drop s) (calls m) in
      (match instances m !! StreamState.owner s with
       | Some i =>
           set_instance m (StreamState.owner s)
             (InstanceState.set_active i (saturating_sub (InstanceState.active_connections i) 1))
       | None => m
       end, Status.OK)
  end.
End Tcp.

(** * Sockets are protected before they are connected *)

(** A socket is connected right after it was opened for the family of the
    address and protected. *)
Definition protected (l : list call) : Prop :=
  forall pre fd a post, l = pre ++ ConnectTo fd a :: post ->
  exists pre' endpoint, a = to_sockaddr endpoint /\
    pre = pre' ++ [Socket (SocketAddr.is_ipv4 endpoint) fd; Protect fd true].

Lemma protected_app l c :
  protected l -> protected c -> protected (l ++ c).
Proof.
  intros Hl Hc pre fd a post Happ. apply app_eq_app in Happ as (k & [[-> Hk]|[-> Hk]]).
  - destruct k as [|x k].
    + simpl in Hk. destruct (Hc [] fd a post (eq_sym Hk)) as (pre' & e & _ & Hp). by destruct pre'.
    + injection Hk as <- Hpost. by eapply Hl.
  - destruct (Hc k fd a post Hk) as (pre' & e & Ha & ->). exists (l ++ pre'), e. split; [done|].
    by rewrite app_assoc.
Qed.
