(* ===== verification/TcpFacts.v ===== *)
(** What carrier-tcp guarantees: its count of connections is exact and within
    the limit, wake handles are retained and released in balance, and no socket
    is connected before it is protected. *)
From Stdlib Require Import Strings.Byte.
From S2P Require Import Prelude Text Net Admin Abi Socket Wake WakeTable Tcp.
Import Tcp.
#[local] Open Scope Z_scope.

(** * The invariant *)

Definition instance_slots (s : InstanceState.t) : slots := (InstanceState.connect_wake s, InstanceState.accept_wake s).
Definition stream_slots (s : StreamState.t) : slots := (StreamState.read_wake s, StreamState.write_wake s).

(** How many slots hold a context. *)
Definition total (ctx : Z) (m : t) : Z :=
  held_tables instance_slots stream_slots ctx (instances m) (streams m).

(** How many streams an instance owns. *)
Definition is_owner (i : Z) (s : StreamState.t) : Z := if StreamState.owner s =? i then 1 else 0.
Definition owned_count (m : t) (i : Z) : Z := weight (is_owner i) (streams m).

Lemma is_owner_nonneg i s : 0 <= is_owner i s.
Proof. unfold is_owner. case_if; lia. Qed.

Record inv (n : Z) (m : t) : Prop := {
  v_count : forall i s, instances m !! i = Some s ->
    InstanceState.active_connections s = owned_count m i /\
    InstanceState.active_connections s <= InstanceState.max_connections s;
  v_owner : forall h s, streams m !! h = Some s -> is_Some (instances m !! StreamState.owner s);
  v_fresh : forall h s, streams m !! h = Some s -> h < stream_next m;
  v_ifresh : forall i s, instances m !! i = Some s -> i < instance_next m;
  v_next : 1 <= stream_next m <= n /\ 1 <= instance_next m <= n;
  v_wakes : balanced instance_slots stream_slots (instances m) (streams m) (events m);
  v_calls : protected (calls m);
}.

(** An instance changes its slots, and the events say so. *)
Lemma inv_set_instance n m i s s' e :
  instances m !! i = Some s ->
  InstanceState.active_connections s' = InstanceState.active_connections s ->
  InstanceState.max_connections s' = InstanceState.max_connections s ->
  exchange (instance_slots s) (instance_slots s') e -> inv n m -> inv n (emit (set_instance m i s') e).
Proof.
  intros Hi Ha Hmax Hs [V1 V2 V3 V4 V5 V6 V7]. split; simpl; try done.
  - intros j x [[<- <-]|[_ Hj]]%lookup_insert_Some; [|by apply (V1 j x)].
    rewrite Ha, Hmax. by apply V1.
  - intros h x Hh. destruct (decide (i = StreamState.owner x)) as [<-|]; [by rewrite lookup_insert_eq|].
    rewrite lookup_insert_ne by done. eauto.
  - intros j x [[<- <-]|[_ Hj]]%lookup_insert_Some; eauto.
  - by apply (balanced_instance _ _ _ _ _ _ s).
Qed.

Lemma inv_set_stream n m h s s' e :
  streams m !! h = Some s -> StreamState.owner s' = StreamState.owner s ->
  exchange (stream_slots s) (stream_slots s') e -> inv n m -> inv n (emit (set_stream m h s') e).
Proof.
  intros Hh Ho Hs [V1 V2 V3 V4 V5 V6 V7]. split; simpl; try done.
  - intros j x Hj. destruct (V1 j x Hj) as [Hc Hm]. split; [|done]. rewrite Hc. unfold owned_count. simpl.
    rewrite (weight_insert _ _ h s) by done.
    assert (is_owner j s' = is_owner j s) as -> by (unfold is_owner; by rewrite Ho). lia.
  - intros k x [[<- <-]|[_ Hk]]%lookup_insert_Some; [rewrite Ho|]; eauto.
  - intros k x [[<- <-]|[_ Hk]]%lookup_insert_Some; eauto.
  - by apply (balanced_stream _ _ _ _ _ _ s).
Qed.

Lemma emit_nil m : emit m [] = m.
Proof. destruct m. unfold emit. simpl. by rewrite app_nil_r. Qed.

Lemma inv_more n n' m : n <= n' -> inv n m -> inv n' m.
Proof. intros Hn [V1 V2 V3 V4 [V5 V5'] V6 V7]. split; try done. lia. Qed.

(** A stream of a new handle, owned by an instance that counts it. *)
Lemma inv_new_stream n m i s io :
  instances m !! i = Some s ->
  InstanceState.active_connections s < InstanceState.max_connections s -> inv n m ->
  inv (n + 1) (set_instance (set_stream (Tcp.mk (instances m) (streams m) (instance_next m) (stream_next m + 1)
    (listeners m) (events m) (calls m)) (stream_next m) (StreamState.mk i io None None)) i
    (InstanceState.set_active s (InstanceState.active_connections s + 1))).
Proof.
  intros Hi Hlt [V1 V2 V3 V4 [V5 V5'] V6 V7].
  assert (streams m !! stream_next m = None) as Hnew.
  { destruct (streams m !! stream_next m) eqn:E; [|done]. apply V3 in E. lia. }
  split; simpl; try done.
  - intros j x Hj. unfold owned_count. simpl. rewrite weight_fresh by done.
    apply lookup_insert_Some in Hj as [[<- <-]|[Hne Hj]]; unfold is_owner at 1; simpl.
    + rewrite Z.eqb_refl. destruct (V1 i s Hi) as [Hc _]. unfold owned_count in Hc. lia.
    + rewrite (proj2 (Z.eqb_neq _ _)) by done. destruct (V1 j x Hj) as [Hc ?]. unfold owned_count in Hc. lia.
  - intros h x Hx. destruct (decide (StreamState.owner x = i)) as [->|Hne]; [by rewrite lookup_insert_eq|].
    rewrite lookup_insert_ne by done. apply lookup_insert_Some in Hx as [[_ <-]|[_ Hx]]; [done|eauto].
  - intros h x [[<- _]|[_ Hx%V3]]%lookup_insert_Some; lia.
  - intros j x [[<- _]|[_ Hj]]%lookup_insert_Some; eauto.
  - split; lia.
  - eapply balanced_instance_same; [done|done|]. by apply balanced_new_stream.
Qed.

(** * The operations *)

(** A stream leaves, and its instance no longer counts it. *)
Lemma close_inv n m h : inv n m -> inv n (close m h).1.
Proof.
  intros [V1 V2 V3 V4 V5 V6 V7]. unfold close.
  destruct (streams m !! h) as [s|] eqn:Hh; [|by split]. simpl.
  destruct (V2 h s Hh) as [i Hi]. rewrite Hi. destruct (V1 _ _ Hi) as [Hc Hmax].
  pose proof (weight_lookup (is_owner (StreamState.owner s)) _ _ _ (is_owner_nonneg _) Hh) as Hpos.
  assert (is_owner (StreamState.owner s) s = 1) as H1 by (unfold is_owner; by rewrite Z.eqb_refl).
  unfold owned_count in *. split; simpl; try done.
  - intros j x Hj. unfold owned_count. simpl. rewrite (weight_delete _ _ h s) by done.
    apply lookup_insert_Some in Hj as [[<- <-]|[Hne Hj]]; simpl; unfold saturating_sub in *.
    + lia.
    + unfold is_owner at 2. rewrite (proj2 (Z.eqb_neq _ _)) by done.
      destruct (V1 j x Hj). unfold owned_count in *. lia.
  - intros k x [_ Hx]%lookup_delete_Some. apply V2 in Hx as [y Hy].
    destruct (decide (StreamState.owner x = StreamState.owner s)) as [->|?]; [by rewrite lookup_insert_eq|].
    by rewrite lookup_insert_ne.
  - intros k x [_ Hx]%lookup_delete_Some. eauto.
  - intros j x [[<- _]|[_ Hj]]%lookup_insert_Some; eauto.
  - eapply balanced_instance_same; [done|done|]. 
    by apply (balanced_close instance_slots stream_slots _ _ _ h s).
Qed.

Section order.
Context `{HashOrder}.

Lemma owned_perm m i :
  owned m i ≡ₚ filter (fun '(_, s) => StreamState.owner s = i) (map_to_list (streams m)).
Proof. unfold owned. by rewrite hash_order_perm. Qed.

Lemma owned_elem m i h s : (h, s) ∈ owned m i <-> streams m !! h = Some s /\ StreamState.owner s = i.
Proof. rewrite owned_perm, list_elem_of_filter, elem_of_map_to_list. tauto. Qed.

Lemma destroy_streams (f : StreamState.t -> Z) m i :
  weight f (streams (destroy m i)) = weight f (streams m) - sum f (owned m i).
Proof.
  rewrite (weight_partition f (fun '(_, s) => StreamState.owner s = i) (streams m)).
  rewrite (sum_perm _ _ _ (owned_perm m i)). simpl.
  assert (filter (fun '(_, s) => StreamState.owner s <> i) (streams m)
    = filter (fun x => ~ (let '(_, s) := x in StreamState.owner s = i)) (streams m)) as ->; [|lia].
  apply map_filter_ext. by intros ? ? _.
Qed.

Lemma destroy_inv n m i : inv n m -> inv n (destroy m i).
Proof.
  intros [V1 V2 V3 V4 V5 V6 V7].
  assert (forall h s, streams (destroy m i) !! h = Some s -> streams m !! h = Some s /\ StreamState.owner s <> i)
    as Hst by (intros h s; simpl; by rewrite map_lookup_filter_Some).
  assert (forall j x, instances (destroy m i) !! j = Some x -> i <> j /\ instances m !! j = Some x)
    as Hin by (intros j x; simpl; by rewrite lookup_delete_Some).
  split; try done.
  - intros j x [Hne Hj]%Hin. unfold owned_count. rewrite destroy_streams.
    destruct (V1 j x Hj) as [Hc ?]. split; [|done]. rewrite Hc. unfold owned_count.
    assert (sum (is_owner j) (owned m i) = 0) as ->; [|lia].
    assert (Forall (fun x => StreamState.owner x.2 = i) (owned m i)) as Hall
      by (apply Forall_forall; intros [h s] [_ ?]%owned_elem; done).
    induction Hall as [|[h s] l Ho _ IH]; simpl; [done|]. unfold is_owner at 1. simpl in Ho.
    rewrite (proj2 (Z.eqb_neq _ _)) by congruence. unfold sum in *. rewrite IH. done.
  - intros h s [Hh Hne]%Hst. simpl. rewrite lookup_delete_ne by done. eauto.
  - intros h s [Hh _]%Hst. eauto.
  - intros j x [_ Hj]%Hin. eauto.
  - simpl. pose proof (balanced_destroy _ _ _ _ _ i (fun '(_, s) => StreamState.owner s = i) _ (owned_perm m i) V6) as B.
    assert (filter (fun '(_, s) => StreamState.owner s <> i) (streams m)
      = filter (fun x => ~ (let '(_, s) := x in StreamState.owner s = i)) (streams m)) as ->
      by (apply map_filter_ext; by intros ? ? _).
    rewrite (map_ext (fun '(_, s) => StreamState.drop s) (fun kv => drop_both (stream_slots kv.2)));
      [exact B|by intros []].
Qed.

Lemma finish_stream_inv n m i s0 s io output nodelay :
  instances m !! i = Some s0 ->
  InstanceState.active_connections s = InstanceState.active_connections s0 ->
  InstanceState.max_connections s = InstanceState.max_connections s0 ->
  InstanceState.connect_wake s = InstanceState.connect_wake s0 ->
  InstanceState.accept_wake s = InstanceState.accept_wake s0 ->
  InstanceState.active_connections s0 < InstanceState.max_connections s0 -> n < u64_max ->
  inv n m -> inv (n + 1) (finish_stream m i io s output nodelay).1.1.
Proof.
  intros Hi Ha Hm Hc Hw Hlt Hn V.
  assert (inv n (set_instance m i s)) as V'.
  { rewrite <- (emit_nil (set_instance m i s)). apply (inv_set_instance _ _ _ s0); try done.
    unfold instance_slots. rewrite Hc, Hw. apply exchange_id. }
  unfold finish_stream. case_if; [by apply (inv_more n); [lia|]|]. case_if; [by apply (inv_more n); [lia|]|].
  destruct (v_next _ _ V') as [Hnext _].
  rewrite (fetch_add_small _ n) by done. rewrite (proj2 (Z.eqb_neq _ _)) by lia.
  apply (inv_new_stream _ (set_instance m i s)); [by simpl; rewrite lookup_insert_eq|lia|done].
Qed.

Lemma connect_inv n m i endpoint w output nodelay :
  wake_ok w -> n < u64_max -> inv n m -> inv (n + 1) (connect m i endpoint w output nodelay).1.1.
Proof.
  intros Hw Hn V. assert (inv (n + 1) m) as V1 by (by apply (inv_more n); [lia|]).
  unfold connect. destruct (parse_endpoint endpoint) as [requested|]; [|done].
  destruct (instances m !! i) as [s|] eqn:Hi; [|done]. case_if; [done|].
  destruct (InstanceState.mode s) as [configured|]; [|done].
  destruct (InstanceState.connect_result s) as [[io|[]]|] eqn:Er.
  - by apply (finish_stream_inv _ _ _ s).
  - simpl. apply (inv_more n); [lia|]. rewrite <- (emit_nil (set_instance _ _ _)).
    apply (inv_set_instance _ _ _ s); try done. apply exchange_id.
  - destruct (WakeSlot.replace _ w) as [slot e] eqn:Ew. simpl. apply (inv_more n); [lia|].
    apply (inv_set_instance _ _ _ s); try done. by eapply exchange_first.
Qed.

Lemma accept_inv n m i a w output nodelay :
  wake_ok w -> n < u64_max -> inv n m -> inv (n + 1) (accept m i a w output nodelay).1.1.
Proof.
  intros Hw Hn V. assert (inv (n + 1) m) as V1 by (by apply (inv_more n); [lia|]).
  unfold accept. destruct (instances m !! i) as [s|] eqn:Hi; [|done]. case_if; [done|].
  destruct (InstanceState.mode s); [done|]. destruct a as [io [|]| |]; try done.
  - by apply (finish_stream_inv _ _ _ s).
  - destruct (WakeSlot.replace _ w) as [slot e] eqn:Ew. simpl. apply (inv_more n); [lia|].
    apply (inv_set_instance _ _ _ s); try done. by eapply exchange_second.
Qed.

Lemma read_inv n m h buffer answer w : wake_ok w -> inv n m -> inv n (read m h buffer answer w).1.
Proof.
  intros Hw V. unfold read. case_if; [done|]. destruct (streams m !! h) as [s|] eqn:Hs; [|done].
  destruct answer as [[]|]; [done..|]. destruct (WakeSlot.replace _ w) as [slot e] eqn:Ew.
  apply (inv_set_stream _ _ _ s); try done. by eapply exchange_first.
Qed.

Lemma write_inv n m h input answer w : wake_ok w -> inv n m -> inv n (write m h input answer w).1.
Proof.
  intros Hw V. unfold write. case_if; [done|]. destruct (streams m !! h) as [s|] eqn:Hs; [|done].
  destruct answer as [[]|]; [done..|]. destruct (WakeSlot.replace _ w) as [slot e] eqn:Ew.
  apply (inv_set_stream _ _ _ s); try done. by eapply exchange_second.
Qed.

Lemma io_action_inv n m h answer w : wake_ok w -> inv n m -> inv n (io_action m h answer w).1.
Proof.
  intros Hw V. unfold io_action. destruct (streams m !! h) as [s|] eqn:Hs; [|done].
  destruct answer as [[]|]; [done..|]. destruct (WakeSlot.replace _ w) as [slot e] eqn:Ew.
  apply (inv_set_stream _ _ _ s); try done. by eapply exchange_second.
Qed.

(** ** Polling *)

Lemma connect_calls n f : protected (protected_connect n f).1.
Proof.
  intros pre fd a post. unfold protected_connect. destruct f as [endpoint|s]; [|by destruct pre].
  destruct (socket n) as [raw|]; [|by destruct pre]. destruct (protects n); simpl.
  - assert (protected
      [Socket (SocketAddr.is_ipv4 endpoint) raw; Protect raw true; ConnectTo raw (to_sockaddr endpoint)])
      as Hcase.
    { clear. intros pre fd a post. destruct pre as [|p1 [|p2 [|p3 [|p4 pre]]]]; simpl; intros [= <-]; simplify_eq.
      exists [], endpoint. done. }
    destruct (connects n); [destruct (async_new n)..|]; apply Hcase.
  - by destruct pre as [|p1 [|p2 [|p3 pre]]].
Qed.

Lemma inv_called n m c :
  protected c -> inv n m -> inv n (called m c).
Proof. intros Hc [V1 V2 V3 V4 V5 V6 V7]. split; try done. by apply protected_app. Qed.

Lemma poll_connect_spec s n s' e c :
  poll_connect s n = (s', e, c) ->
  InstanceState.active_connections s' = InstanceState.active_connections s /\
  InstanceState.max_connections s' = InstanceState.max_connections s /\
  exchange (instance_slots s) (instance_slots s') e /\ protected c.
Proof.
  unfold poll_connect. intros Hp. destruct (InstanceState.pending_connect s) as [f|].
  - pose proof (connect_calls n f) as Hcc. destruct (protected_connect n f) as [c0 [f'|r]]; simpl in *.
    + destruct (WakeSlot.wake (InstanceState.accept_wake s)) as [w e2] eqn:E. injection Hp as <- <- <-.
      split_and!; try done. by apply exchange_wake_second.
    + destruct (WakeSlot.wake (InstanceState.connect_wake s)) as [w1 e1] eqn:E1. simpl in Hp.
      destruct (WakeSlot.wake (InstanceState.accept_wake s)) as [w e2] eqn:E. injection Hp as <- <- <-.
      split_and!; try done. by apply exchange_wake.
  - destruct (WakeSlot.wake (InstanceState.accept_wake s)) as [w e2] eqn:E. injection Hp as <- <- <-.
    split_and!; try done; [by apply exchange_wake_second|by intros [] ? ? ?].
Qed.

Lemma wake_stream_inv n m h s :
  streams m !! h = Some s -> inv n m ->
  inv n (let '(s, e) := wake_stream s in emit (set_stream m h s) e).
Proof.
  intros Hs V. unfold wake_stream.
  destruct (WakeSlot.wake (StreamState.read_wake s)) as [r e1] eqn:Er.
  destruct (WakeSlot.wake (StreamState.write_wake s)) as [w e2] eqn:Ew.
  eapply (inv_set_stream _ _ _ s); [done..| |done]. by apply exchange_wake.
Qed.

Lemma wake_streams_inv n l : forall m,
  NoDup l.*1 -> (forall h s, (h, s) ∈ l -> streams m !! h = Some s) -> inv n m ->
  inv n (fold_left (fun m '(h, s) => let '(s, e) := wake_stream s in emit (set_stream m h s) e) l m).
Proof.
  induction l as [|[h s] l IH]; intros m Hnd Hl V; [done|]. cbn [fold_left].
  cbn [fmap list_fmap fst] in Hnd. apply NoDup_cons in Hnd as [Hh Hnd].
  pose proof (wake_stream_inv n m h s (Hl h s ltac:(left)) V) as V'.
  destruct (wake_stream s) as [s' e]. apply IH; [done| |done]. intros k x Hk. simpl.
  rewrite lookup_insert_ne; [apply Hl; by right|]. intros ->. apply Hh.
  apply list_elem_of_fmap. by exists (k, x).
Qed.

Lemma poll_inv n m i net : inv n m -> inv n (poll m i net).1.
Proof.
  intros V. unfold poll. destruct (instances m !! i) as [s|] eqn:Hi; [|done].
  destruct (poll_connect s net) as [[s' e] c] eqn:Ep.
  apply poll_connect_spec in Ep as (Ha & Hm & Hs & Hc). cbn [fst].
  set (m' := called (emit (set_instance m i s') e) c).
  apply wake_streams_inv.
  - rewrite (owned_perm m' i). eapply sublist_NoDup; [apply (NoDup_fst_map_to_list (streams m'))|].
    apply fmap_sublist, sublist_filter.
  - intros h x Hx. by apply owned_elem in Hx as [? _].
  - apply inv_called; [done|]. by apply (inv_set_instance _ _ _ s).
Qed.

(** The limits that the TOML parser gives are of an unsigned type. *)
Definition max_of (o : Options.t) : Z :=
  match o with Options.Connect _ max _ | Options.Listen _ max _ => max end.
Definition unsigned_limits `{Toml Options.t} : Prop :=
  forall text o, toml_from_str text = Some o -> 0 <= max_of o.

(** An instance of a new handle, which owns nothing. *)
Lemma inv_new_instance n m mode max nodelay :
  0 <= max -> inv n m ->
  inv (n + 1) (set_instance (Tcp.mk (instances m) (streams m) (instance_next m + 1) (stream_next m)
    (listeners m) (events m) (calls m)) (instance_next m)
    (InstanceState.mk mode max 0 nodelay None None None None)).
Proof.
  intros Hmax [V1 V2 V3 V4 [V5 V5'] V6 V7].
  assert (instances m !! instance_next m = None) as Hnew.
  { destruct (instances m !! instance_next m) eqn:E; [|done]. apply V4 in E. lia. }
  split; simpl; try done.
  - intros j x [[<- <-]|[_ Hj]]%lookup_insert_Some; [|by apply (V1 j x)]. simpl. split; [|done].
    unfold owned_count. simpl. rewrite weight_zero; [done|]. intros h x Hx. unfold is_owner.
    rewrite (proj2 (Z.eqb_neq _ _)); [done|]. apply V2 in Hx as [y Hy]. apply V4 in Hy. lia.
  - intros h x Hx. destruct (V2 h x Hx) as [y Hy]. rewrite lookup_insert_ne; [eauto|].
    intros Heq. rewrite Heq in Hnew. congruence.
  - intros j x [[<- _]|[_ Hj%V4]]%lookup_insert_Some; lia.
  - split; lia.
  - by apply balanced_new_instance.
Qed.

Lemma create_inv `{Toml Options.t} n m config output host binds clones async_new :
  unsigned_limits -> n < u64_max -> inv n m ->
  inv (n + 1) (create m config output host binds clones async_new).1.1.
Proof.
  intros Hu Hn V. assert (inv (n + 1) m) as V1 by (by apply (inv_more n); [lia|]).
  unfold create. destruct (parse_options config) as [options|] eqn:Eo; [|done].
  destruct (if output then host else _); [|done].
  set (made := match options with Options.Connect e _ _ => _ | Options.Listen e _ _ => _ end).
  assert (inv n made.1) as Vm.
  { unfold made. destruct options as [e max nd|e max nd]; [done|]. unfold shared_listener.
    case_if; [done|]. case_if; [|done]. destruct V. by split. }
  assert (0 <= max_of options) as Hmax.
  { unfold parse_options in Eo. destruct (from_utf8 config) as [text|]; [|done]. simpl in Eo.
    destruct (toml_from_str text) as [o|] eqn:Et; [|done]. simpl in Eo. case_if_in Eo; [|done].
    injection Eo as <-. by eapply Hu. }
  destruct made as [m' [mode|]]; simpl in Vm; [|by apply (inv_more n); [lia|]].
  destruct (v_next _ _ Vm) as [_ Hnext]. rewrite (fetch_add_small _ n) by done.
  destruct options as [e max nd|e max nd]; simpl in Hmax; rewrite (proj2 (Z.eqb_neq _ _)) by lia;
    by apply inv_new_instance.
Qed.

(** * Runs *)

Inductive op :=
| Create (config : bytes) (output : bool) (host : result Status.t unit) (binds clones async_new : bool)
| Poll (i : Z) (n : network)
| Destroy (i : Z)
| Connect (i : Z) (endpoint : bytes) (w : SnolWakeHandle.t) (output nodelay : bool)
| Accept (i : Z) (a : accept_answer) (w : SnolWakeHandle.t) (output nodelay : bool)
| Read (h : Z) (buffer : bool) (answer : Prelude.poll (result unit Z)) (w : SnolWakeHandle.t)
| Write (h : Z) (input : bytes) (answer : Prelude.poll (result unit Z)) (w : SnolWakeHandle.t)
| IoAction (h : Z) (answer : Prelude.poll (result unit unit)) (w : SnolWakeHandle.t)
| Close (h : Z).

(** The wake handles of a call have a release function. *)
Definition op_ok (o : op) : Prop :=
  match o with
  | Connect _ _ w _ _ | Accept _ _ w _ _ | Read _ _ _ w | Write _ _ _ w | IoAction _ _ w => wake_ok w
  | _ => True
  end.

Context `{Toml Options.t}.

Definition apply_op (m : t) (o : op) : t :=
  match o with
  | Create config output host binds clones async_new =>
      (create m config output host binds clones async_new).1.1
  | Poll i n => (poll m i n).1
  | Destroy i => destroy m i
  | Connect i endpoint w output nodelay => (connect m i endpoint w output nodelay).1.1
  | Accept i a w output nodelay => (accept m i a w output nodelay).1.1
  | Read h buffer answer w => (read m h buffer answer w).1
  | Write h input answer w => (write m h input answer w).1
  | IoAction h answer w => (io_action m h answer w).1
  | Close h => (close m h).1
  end.

Definition run (ops : list op) : t := fold_left apply_op ops init.

Lemma apply_op_inv n m o :
  unsigned_limits -> op_ok o -> n < u64_max -> inv n m -> inv (n + 1) (apply_op m o).
Proof.
  intros Hu Ho Hn V.
  destruct o; simpl in *; [by apply create_inv| | |by apply connect_inv|by apply accept_inv| | | |];
    apply (inv_more n); try lia;
    [by apply poll_inv|by apply destroy_inv|by apply read_inv|by apply write_inv|by apply io_action_inv
    |by apply close_inv].
Qed.

Lemma init_inv : inv 1 init.
Proof. split; try done. by intros []. Qed.

Lemma run_ops_inv ops :
  unsigned_limits -> Forall op_ok ops -> len ops < u64_max -> exists n, inv n (run ops).
Proof.
  intros Hu Hops Hlen. unfold run.
  assert (forall l n m, Forall op_ok l -> n + len l <= u64_max -> inv n m -> exists n', inv n' (fold_left apply_op l m))
    as Hgen.
  { induction l as [|o l IH]; intros n m Hl Hn V; [by exists n|]. apply Forall_cons in Hl as [Ho Hl].
    rewrite len_cons in Hn. pose proof (len_nonneg l). cbn [fold_left].
    apply (IH (n + 1)); [done|lia|]. apply apply_op_inv; [done|done|lia|done]. }
  apply (Hgen ops 1); [done|lia|apply init_inv].
Qed.

(** Whatever the host calls in whatever order, the count that an instance
    checks against its limit is the number of streams it owns, the limit is
    never exceeded, and no stream outlives its instance. *)
Theorem tcp_connections_counted ops :
  unsigned_limits -> Forall op_ok ops -> len ops < u64_max ->
  (forall i s, instances (run ops) !! i = Some s ->
     InstanceState.active_connections s
     = Z.of_nat (length (filter (fun '(_, x) => StreamState.owner x = i) (map_to_list (streams (run ops))))) /\
     InstanceState.active_connections s <= InstanceState.max_connections s) /\
  (forall h s, streams (run ops) !! h = Some s -> is_Some (instances (run ops) !! StreamState.owner s)).
Proof.
  intros Hu Hops Hlen. destruct (run_ops_inv ops Hu Hops Hlen) as [n [V1 V2 _ _ _ _ _]]. split; [|done].
  intros i s Hi. destruct (V1 i s Hi) as [Hc ?]. split; [|done]. rewrite Hc. unfold owned_count, weight.
  induction (map_to_list _) as [|[h x] l IH]; [done|]. rewrite filter_cons. simpl. unfold is_owner at 1.
  destruct (decide (StreamState.owner x = i)) as [->|Hne].
  - rewrite Z.eqb_refl. simpl. lia.
  - rewrite (proj2 (Z.eqb_neq _ _)) by done. lia.
Qed.

(** C15: Wake handles are counted exactly: at any time a context was retained as
    often as it was released plus the number of slots that hold it, it was woken
    and released only while it was retained, and so nothing is left retained when
    the instances are gone. *)
Theorem tcp_wakes_balanced ops ctx :
  unsigned_limits -> Forall op_ok ops -> len ops < u64_max ->
  balance ctx (events (run ops)) = total ctx (run ops) /\ legal ctx 0 (events (run ops)) /\
  (instances (run ops) = ∅ -> balance ctx (events (run ops)) = 0).
Proof.
  intros Hu Hops Hlen. destruct (run_ops_inv ops Hu Hops Hlen) as [n [_ V2 _ _ _ V6 _]].
  destruct (balanced_es _ _ _ _ _ V6 ctx) as [Hb Hl]. rewrite Z.sub_0_r in Hb. split_and!; [done|done|].
  intros Hempty. rewrite Hb. unfold held_tables. rewrite Hempty, weight_empty, weight_zero; [done|].
  intros h s Hh. apply V2 in Hh as [x Hx]. rewrite Hempty in Hx. by rewrite lookup_empty in Hx.
Qed.

(** C37: No socket is connected unprotected: every call of connect follows the
    opening of that socket, for the family of the address, and its successful
    protection by the host. *)
Theorem tcp_protected_first ops :
  unsigned_limits -> Forall op_ok ops -> len ops < u64_max -> protected (calls (run ops)).
Proof. intros Hu Hops Hlen. by destruct (run_ops_inv ops Hu Hops Hlen) as [n [_ _ _ _ _ _ ?]]. Qed.
End order.

(** * A connection to the wrong endpoint *)

Definition demo_order : HashOrder := {| hash_order _ l := l; hash_order_perm _ l := reflexivity l |}.
Definition demo_toml : Toml Options.t :=
  {| toml_from_str _ := Some (Options.Connect (SocketAddr.V4 0x0a000001 443) 2 true) |}.
Definition demo_wake (ctx : Z) : SnolWakeHandle.t := SnolWakeHandle.mk ctx (Some true) true true.
Definition demo_network : network := mkNetwork (Some 5) true InProgress true (Ready (Ok tt)) true.

Definition endpoint_a : bytes := #"10.0.0.2:443".
Definition endpoint_b : bytes := #"10.0.0.3:443".

Definition demo_ops : list op :=
  [Create [] true (Ok tt) true true true; Connect 1 endpoint_a (demo_wake 7) true true; Poll 1 demo_network].

(** A connection is handed to whoever asks next, for whatever endpoint: after
    a connection to one endpoint was asked for and made, a request for another
    endpoint is answered with the connection to the first. *)
Theorem tcp_connect_crossed :
  let m := run (H := demo_order) (H0 := demo_toml) demo_ops in
  let '(m, handle, status) := connect m 1 endpoint_b (demo_wake 8) true true in
  status = Status.OK /\ handle = Some 1 /\
  (StreamState.io <$> streams m !! 1) = Some (mkStream 5 (SocketAddr.V4 0x0a000002 443)) /\
  parse_endpoint endpoint_b = Ok (Some (SocketAddr.V4 0x0a000003 443)).
Proof. vm_compute. split_and!; reflexivity. Qed.

Lemma demo_limits : unsigned_limits (H0 := demo_toml).
Proof. intros text o [= <-]. simpl. lia. Defined.

Lemma demo_ops_ok : Forall op_ok demo_ops.
Proof. repeat constructor. Defined.

(** The instance with the one stream its limit allows. *)
Definition counted_ops : list op := demo_ops ++ [Connect 1 endpoint_a (demo_wake 8) true true].

Lemma tcp_connections_counted_witness :
  exists s, instances (run (H := demo_order) (H0 := demo_toml) counted_ops) !! 1 = Some s /\
    InstanceState.active_connections s = 1 /\
    InstanceState.active_connections s <= InstanceState.max_connections s.
Proof.
  destruct (tcp_connections_counted (H := demo_order) (H0 := demo_toml) counted_ops demo_limits) as [Hc _];
    [repeat constructor|reflexivity|].
  eexists. split; [vm_compute; reflexivity|]. split; [reflexivity|].
  apply (Hc 1). vm_compute. reflexivity.
Defined.

Lemma tcp_wakes_balanced_witness :
  let m := run (H := demo_order) (H0 := demo_toml) demo_ops in
  events m = [Retained 7; Woken 7; Released 7] /\ balance 7 (events m) = total 7 m.
Proof.
  split; [vm_compute; reflexivity|].
  refine (proj1 (tcp_wakes_balanced (H := demo_order) (H0 := demo_toml) demo_ops 7 demo_limits demo_ops_ok _)).
  reflexivity.
Defined.

Lemma tcp_protected_first_witness :
  let m := run (H := demo_order) (H0 := demo_toml) demo_ops in
  calls m = [Socket true 5; Protect 5 true; ConnectTo 5 (to_sockaddr (SocketAddr.V4 0x0a000002 443))] /\
  protected (calls m).
Proof.
  split; [vm_compute; reflexivity|].
  apply (tcp_protected_first (H := demo_order) (H0 := demo_toml) demo_ops demo_limits demo_ops_ok). reflexivity.
Defined.
