(* ===== verification/Ssh.v ===== *)
(** carrier-ssh (modules/carrier-ssh/src/lib.rs): streams over channels of SSH
    sessions, which a worker thread runs.

    The instance and its worker share two bounded channels, of commands and of
    events; both ends are modelled, so that a run interleaves the calls of the
    host with the steps of the worker.  The keys and sessions of russh are
    parameters.  A stream (the [EngineIo] of bridge.rs, see Bridge.v) is known by a
    number. *)
From Stdlib Require Import Strings.Byte.
From S2P Require Import Prelude Text Net Admin Abi Socket Wake.
#[local] Open Scope Z_scope.

(** * Options *)

Module ClientAuth.
Inductive t := Password (password : str) | Ed25519 (private_key : str).
End ClientAuth.

Module ServerAuth.
Inductive t := Password (password : str) | Ed25519 (public_key : str).
End ServerAuth.

(** [russh::keys]: what a file holds, as a public or a secret key, and whether
    the key is of the algorithm Ed25519. *)
Class SshKeys := {
  PublicKey : Type;
  SecretKey : Type;
  public_eq_dec :: EqDecision PublicKey;
  load_public_key : str -> option PublicKey;
  load_secret_key : str -> option SecretKey;
  public_ed25519 : PublicKey -> bool;
  secret_ed25519 : SecretKey -> bool;
}.

Definition resolve_path (path base : str) : str := if is_absolute path then path else path_join base path.

Definition require_ed25519_public `{SshKeys} (path : str) : bool :=
  match load_public_key path with Some key => public_ed25519 key | None => false end.

Definition require_ed25519_private `{SshKeys} (path : str) : bool :=
  match load_secret_key path with Some key => secret_ed25519 key | None => false end.

Module Options.
Record common := mkCommon {
  endpoint_ip : SocketAddr.t;
  username : str;
  max_connections : Z;
  queue_chunks : Z;
  chunk_bytes : Z;
  inactivity_timeout_ms : Z;
}.
Inductive t :=
| Connect (c : common) (server_host_key : str) (auth : ClientAuth.t)
| Listen (c : common) (host_key : str) (auth : ServerAuth.t).

Definition the_common (o : t) : common := match o with Connect c _ _ | Listen c _ _ => c end.

Definition resolve (o : t) (base : str) : t :=
  match o with
  | Connect c key auth =>
      Connect c (resolve_path key base)
        match auth with
        | ClientAuth.Ed25519 k => ClientAuth.Ed25519 (resolve_path k base)
        | auth => auth
        end
  | Listen c key auth =>
      Listen c (resolve_path key base)
        match auth with
        | ServerAuth.Ed25519 k => ServerAuth.Ed25519 (resolve_path k base)
        | auth => auth
        end
  end.

Definition inconsistent (c : common) : bool :=
  (SocketAddr.port (endpoint_ip c) =? 0) || bool_decide (username c = []) || (64 <? len (username c))
  || (max_connections c =? 0) || (queue_chunks c =? 0) || (1024 <? queue_chunks c)
  || (chunk_bytes c =? 0) || (65536 <? chunk_bytes c) || (inactivity_timeout_ms c =? 0).

Definition validate `{SshKeys} (o : t) : bool :=
  if inconsistent (the_common o) then false
  else match o with
  | Connect _ server_host_key auth =>
      require_ed25519_public server_host_key &&
      match auth with
      | ClientAuth.Password password => negb (bool_decide (password = []))
      | ClientAuth.Ed25519 private_key => require_ed25519_private private_key
      end
  | Listen _ host_key auth =>
      require_ed25519_private host_key &&
      match auth with
      | ServerAuth.Password password => negb (bool_decide (password = []))
      | ServerAuth.Ed25519 public_key => require_ed25519_public public_key
      end
  end.

Definition is_client (o : t) : bool := match o with Connect _ _ _ => true | Listen _ _ _ => false end.
End Options.

Definition parse_options `{SshKeys, Toml Options.t} (config base : bytes) : option Options.t :=
  config ← from_utf8 config;
  base ← from_utf8 base;
  options ← toml_from_str config;
  let options := Options.resolve options base in
  if Options.validate options then Some options else None.

(** * Channels between the instance and its worker *)

Module WorkerCommand.
Inductive t := Connect | Shutdown.
#[global] Instance eq_dec : EqDecision t.
Proof. solve_decision. Defined.
End WorkerCommand.

Module WorkerEvent.
Inductive t := Ready (stream : Z) | AttemptFailed | Fatal.
#[global] Instance eq_dec : EqDecision t.
Proof. solve_decision. Defined.
End WorkerEvent.

(** A bounded channel: what is queued, its capacity, and whether the other end
    is gone. *)
Module Channel.
Record t (A : Type) := mk { queue : list A; capacity : Z; closed : bool }.
Arguments mk {A}.
Arguments queue {A} _.
Arguments capacity {A} _.
Arguments closed {A} _.

Inductive send_error := Full | Closed.

Definition try_send {A} (c : t A) (a : A) : t A * result send_error unit :=
  if closed c then (c, Err Closed)
  else if len (queue c) <? capacity c then (mk (queue c ++ [a]) (capacity c) false, Ok tt)
  else (c, Err Full).
End Channel.

Module InstanceState.
Record t := mk {
  commands : Channel.t WorkerCommand.t;
  events : Channel.t WorkerEvent.t;
  ready : list Z;
  failures : Z;
  failed : bool;
  connect_pending : bool;
  client : bool;
  active_connections : Z;
  max_connections : Z;
  connect_wake : WakeSlot.t;
  accept_wake : WakeSlot.t;
  (** The worker: the attempts to connect that have not reported yet. *)
  attempts : Z;
}.

Definition set_commands (s : t) (c : Channel.t WorkerCommand.t) : t :=
  mk c (events s) (ready s) (failures s) (failed s) (connect_pending s) (client s)
    (active_connections s) (max_connections s) (connect_wake s) (accept_wake s) (attempts s).
Definition set_events (s : t) (e : Channel.t WorkerEvent.t) : t :=
  mk (commands s) e (ready s) (failures s) (failed s) (connect_pending s) (client s)
    (active_connections s) (max_connections s) (connect_wake s) (accept_wake s) (attempts s).
Definition set_ready (s : t) (r : list Z) : t :=
  mk (commands s) (events s) r (failures s) (failed s) (connect_pending s) (client s)
    (active_connections s) (max_connections s) (connect_wake s) (accept_wake s) (attempts s).
Definition set_failures (s : t) (n : Z) : t :=
  mk (commands s) (events s) (ready s) n (failed s) (connect_pending s) (client s)
    (active_connections s) (max_connections s) (connect_wake s) (accept_wake s) (attempts s).
Definition set_failed (s : t) : t :=
  mk (commands s) (events s) (ready s) (failures s) true (connect_pending s) (client s)
    (active_connections s) (max_connections s) (connect_wake s) (accept_wake s) (attempts s).
Definition set_pending (s : t) (b : bool) : t :=
  mk (commands s) (events s) (ready s) (failures s) (failed s) b (client s)
    (active_connections s) (max_connections s) (connect_wake s) (accept_wake s) (attempts s).
Definition set_active (s : t) (n : Z) : t :=
  mk (commands s) (events s) (ready s) (failures s) (failed s) (connect_pending s) (client s)
    n (max_connections s) (connect_wake s) (accept_wake s) (attempts s).
Definition set_wakes (s : t) (c a : WakeSlot.t) : t :=
  mk (commands s) (events s) (ready s) (failures s) (failed s) (connect_pending s) (client s)
    (active_connections s) (max_connections s) c a (attempts s).
Definition set_attempts (s : t) (n : Z) : t :=
  mk (commands s) (events s) (ready s) (failures s) (failed s) (connect_pending s) (client s)
    (active_connections s) (max_connections s) (connect_wake s) (accept_wake s) n.
End InstanceState.

Module StreamState.
Record t := mk { owner : Z; io : Z; read_wake : WakeSlot.t; write_wake : WakeSlot.t }.
Definition drop (s : t) : list event := WakeSlot.drop (read_wake s) ++ WakeSlot.drop (write_wake s).
End StreamState.

(** * The calls of the host *)

Definition drain_event (s : InstanceState.t) (e : WorkerEvent.t) : InstanceState.t :=
  match e with
  | WorkerEvent.Ready stream =>
      InstanceState.set_ready (InstanceState.set_pending s false) (InstanceState.ready s ++ [stream])
  | WorkerEvent.AttemptFailed =>
      InstanceState.set_failures (InstanceState.set_pending s false)
        (saturating_add usize_max (InstanceState.failures s) 1)
  | WorkerEvent.Fatal => InstanceState.set_failed s
  end.

Definition drain_events (s : InstanceState.t) : InstanceState.t :=
  let e := InstanceState.events s in
  let s := fold_left drain_event (Channel.queue e)
    (InstanceState.set_events s (Channel.mk [] (Channel.capacity e) (Channel.closed e))) in
  if Channel.closed e then InstanceState.set_failed s else s.

Module Ssh.
Record t := mk {
  instances : gmap Z InstanceState.t;
  streams : gmap Z StreamState.t;
  instance_next : Z;
  stream_next : Z;
  wakes : list event;
}.

Definition init : t := mk ∅ ∅ 1 1 [].

Definition set_instance (m : t) (i : Z) (s : InstanceState.t) : t :=
  mk (<[i := s]> (instances m)) (streams m) (instance_next m) (stream_next m) (wakes m).
Definition set_stream (m : t) (h : Z) (s : StreamState.t) : t :=
  mk (instances m) (<[h := s]> (streams m)) (instance_next m) (stream_next m) (wakes m).
Definition emit (m : t) (e : list event) : t :=
  mk (instances m) (streams m) (instance_next m) (stream_next m) (wakes m ++ e).

(** [validate_config]; [written] is what [write_output] answers for the empty
    message. *)
Definition validate_config `{SshKeys, Toml Options.t} (config base : bytes) (written : Status.t)
    : Status.t :=
  if is_some (parse_options config base) then written else Status.INVALID.

(** [create]; [host] is what [HostApi::from_raw] answers, [spawns] whether the
    thread can be started. *)
Definition create `{SshKeys, Toml Options.t} (m : t) (config base : bytes) (output : bool)
    (host : result Status.t unit) (spawns : bool) : t * option Z * Status.t :=
  match parse_options config base with
  | None => (m, None, Status.INVALID)
  | Some options =>
      match (if output then host else Err Status.INVALID) with
      | Err status => (m, None, status)
      | Ok _ =>
          let max := Options.max_connections (Options.the_common options) in
          let capacity := saturating_add usize_max max 1 in
          if negb spawns then (m, None, Status.RESOURCE)
          else
            let '(handle, next) := fetch_add (instance_next m) in
            let m := mk (instances m) (streams m) next (stream_next m) (wakes m) in
            if handle =? 0 then (m, None, Status.RESOURCE)
            else
              (set_instance m handle
                 (InstanceState.mk (Channel.mk [] capacity false) (Channel.mk [] capacity false) [] 0
                    false false (Options.is_client options) 0 max None None 0),
               Some handle, Status.OK)
      end
  end.

(** An instance has a configuration that validation accepts. *)
Lemma ssh_create_validated `{SshKeys, Toml Options.t} m config base output host spawns m' h :
  create m config base output host spawns = (m', h, Status.OK) ->
  validate_config config base Status.OK = Status.OK.
Proof. unfold create, validate_config. by destruct (parse_options config base). Qed.

Definition finish_stream (m : t) (owner stream : Z) (s : InstanceState.t) (output : bool)
    : t * option Z * Status.t :=
  let m := set_instance m owner s in
  if negb output then (m, None, Status.INVALID)
  else
    let '(handle, next) := fetch_add (stream_next m) in
    let m := mk (instances m) (streams m) (instance_next m) next (wakes m) in
    if handle =? 0 then (m, None, Status.RESOURCE)
    else
      (set_instance (set_stream m handle (StreamState.mk owner stream None None)) owner
         (InstanceState.set_active s (InstanceState.active_connections s + 1)),
       Some handle, Status.OK).

(** The wait for a stream: the end of [take_or_start]. *)
Definition wait (m : t) (owner : Z) (s : InstanceState.t) (w : SnolWakeHandle.t) (connect : bool)
    : t * option Z * Status.t :=
  if connect then
    let '(slot, e) := WakeSlot.replace (InstanceState.connect_wake s) w in
    (emit (set_instance m owner (InstanceState.set_wakes s slot (InstanceState.accept_wake s))) e,
     None, Status.PENDING)
  else
    let '(slot, e) := WakeSlot.replace (InstanceState.accept_wake s) w in
    (emit (set_instance m owner (InstanceState.set_wakes s (InstanceState.connect_wake s) slot)) e,
     None, Status.PENDING).

Definition take_or_start (m : t) (owner : Z) (s : InstanceState.t) (w : SnolWakeHandle.t)
    (output connect : bool) : t * option Z * Status.t :=
  match InstanceState.ready s with
  | stream :: ready => finish_stream m owner stream (InstanceState.set_ready s ready) output
  | [] =>
      if negb (InstanceState.failures s =? 0) then
        (set_instance m owner (InstanceState.set_failures s (InstanceState.failures s - 1)), None, Status.IO)
      else if InstanceState.failed s then (set_instance m owner s, None, Status.IO)
      else if InstanceState.max_connections s <=? InstanceState.active_connections s then
        (set_instance m owner s, None, Status.RESOURCE)
      else if connect && negb (InstanceState.connect_pending s) then
        match Channel.try_send (InstanceState.commands s) WorkerCommand.Connect with
        | (c, Ok _) => wait m owner (InstanceState.set_pending (InstanceState.set_commands s c) true) w connect
        | (_, Err Channel.Full) => (set_instance m owner s, None, Status.RESOURCE)
        | (_, Err Channel.Closed) => (set_instance m owner s, None, Status.IO)
        end
      else wait m owner s w connect
  end.

Definition connect (m : t) (instance : Z) (endpoint : bytes) (w : SnolWakeHandle.t) (output : bool)
    : t * option Z * Status.t :=
  if negb (bool_decide (endpoint = [])) then (m, None, Status.UNSUPPORTED)
  else match instances m !! instance with
  | None => (m, None, Status.INVALID)
  | Some s =>
      let s := drain_events s in
      if negb (InstanceState.client s) then (set_instance m instance s, None, Status.UNSUPPORTED)
      else take_or_start m instance s w output true
  end.

Definition accept (m : t) (instance : Z) (w : SnolWakeHandle.t) (output : bool)
    : t * option Z * Status.t :=
  match instances m !! instance with
  | None => (m, None, Status.INVALID)
  | Some s =>
      let s := drain_events s in
      if InstanceState.client s then (set_instance m instance s, None, Status.UNSUPPORTED)
      else take_or_start m instance s w output false
  end.

Definition shutdown (m : t) (instance : Z) : t * Status.t :=
  match instances m !! instance with
  | None => (m, Status.INVALID)
  | Some s =>
      let '(c, r) := Channel.try_send (InstanceState.commands s) WorkerCommand.Shutdown in
      (set_instance m instance (InstanceState.set_commands s c),
       match r with Ok _ | Err Channel.Closed => Status.OK | Err Channel.Full => Status.RESOURCE end)
  end.

Definition control (m : t) (instance : Z) (written : bool) : Status.t :=
  if negb written then Status.INVALID
  else if is_some (instances m !! instance) then Status.UNSUPPORTED else Status.INVALID.

Definition wake_stream (s : StreamState.t) : StreamState.t * list event :=
  let '(r, e1) := WakeSlot.wake (StreamState.read_wake s) in
  let '(w, e2) := WakeSlot.wake (StreamState.write_wake s) in
  (StreamState.mk (StreamState.owner s) (StreamState.io s) r w, e1 ++ e2).

Section order.
Context `{HashOrder}.

Definition owned (m : t) (instance : Z) : list (Z * StreamState.t) :=
  filter (fun '(_, s) => StreamState.owner s = instance) (hash_order (map_to_list (streams m))).

Definition poll (m : t) (instance : Z) : t * Status.t :=
  match instances m !! instance with
  | None => (m, Status.INVALID)
  | Some s =>
      let s := drain_events s in
      let '(c, e1) := WakeSlot.wake (InstanceState.connect_wake s) in
      let '(a, e2) := WakeSlot.wake (InstanceState.accept_wake s) in
      let m := emit (set_instance m instance (InstanceState.set_wakes s c a)) (e1 ++ e2) in
      (fold_left (fun m '(h, s) => let '(s, e) := wake_stream s in emit (set_stream m h s) e)
         (owned m instance) m, Status.PENDING)
  end.

(** [destroy]: the worker is told to end and joined; its attempts end with it. *)
Definition destroy (m : t) (instance : Z) : t :=
  let dropped := concat (map (fun '(_, s) => StreamState.drop s) (owned m instance)) in
  let last := match instances m !! instance with
              | Some s => WakeSlot.drop (InstanceState.connect_wake s)
                          ++ WakeSlot.drop (InstanceState.accept_wake s)
              | None => []
              end in
  mk (delete instance (instances m)) (filter (fun '(_, s) => StreamState.owner s <> instance) (streams m))
    (instance_next m) (stream_next m) (wakes m ++ dropped ++ last).
End order.

(** [read]; [answer] is what the stream answers. *)
Definition read (m : t) (handle : Z) (buffer : bool) (answer : Prelude.poll (result unit Z))
    (w : SnolWakeHandle.t) : t * SnolIoResult.t :=
  if negb buffer then (m, SnolIoResult.error Status.INVALID)
  else match streams m !! handle with
  | None => (m, SnolIoResult.error Status.INVALID)
  | Some s =>
      match answer with
      | Ready (Ok n) => (m, if n =? 0 then SnolIoResult.eof else SnolIoResult.progress n)
      | Ready (Err _) => (m, SnolIoResult.error Status.IO)
      | Pending =>
          let '(slot, e) := WakeSlot.replace (StreamState.read_wake s) w in
          (emit (set_stream m handle
             (StreamState.mk (StreamState.owner s) (StreamState.io s) slot (StreamState.write_wake s))) e,
           SnolIoResult.pending)
      end
  end.

Definition wait_write (m : t) (handle : Z) (s : StreamState.t) (w : SnolWakeHandle.t) : t * SnolIoResult.t :=
  let '(slot, e) := WakeSlot.replace (StreamState.write_wake s) w in
  (emit (set_stream m handle
     (StreamState.mk (StreamState.owner s) (StreamState.io s) (StreamState.read_wake s) slot)) e,
   SnolIoResult.pending).

Definition write (m : t) (handle : Z) (input : bytes) (answer : Prelude.poll (result unit Z))
    (w : SnolWakeHandle.t) : t * SnolIoResult.t :=
  if bool_decide (input = []) then (m, SnolIoResult.progress 0)
  else match streams m !! handle with
  | None => (m, SnolIoResult.error Status.INVALID)
  | Some s =>
      match answer with
      | Ready (Ok n) => (m, if n =? 0 then SnolIoResult.error Status.IO else SnolIoResult.progress n)
      | Ready (Err _) => (m, SnolIoResult.error Status.IO)
      | Pending => wait_write m handle s w
      end
  end.

Definition io_action (m : t) (handle : Z) (answer : Prelude.poll (result unit unit))
    (w : SnolWakeHandle.t) : t * SnolIoResult.t :=
  match streams m !! handle with
  | None => (m, SnolIoResult.error Status.INVALID)
  | Some s =>
      match answer with
      | Ready (Ok _) => (m, SnolIoResult.progress 0)
      | Ready (Err _) => (m, SnolIoResult.error Status.IO)
      | Pending => wait_write m handle s w
      end
  end.

Definition close (m : t) (handle : Z) : t * Status.t :=
  match streams m !! handle with
  | None => (m, Status.INVALID)
  | Some s =>
      let m := mk (instances m) (delete handle (streams m)) (instance_next m) (stream_next m)
        (wakes m ++ StreamState.drop s) in
      (match instances m !! StreamState.owner s with
       | Some i =>
           set_instance m (StreamState.owner s)
             (InstanceState.set_active i (saturating_sub (InstanceState.active_connections i) 1))
       | None => m
       end, Status.OK)
  end.
End Ssh.

(** * The worker of a client *)

(** The worker takes a command; at [Shutdown] it ends, and with it its attempts
    and its ends of the channels. *)
Definition worker_recv (s : InstanceState.t) : InstanceState.t :=
  let c := InstanceState.commands s in
  match Channel.queue c with
  | [] => s
  | WorkerCommand.Connect :: rest =>
      let s := InstanceState.set_commands s (Channel.mk rest (Channel.capacity c) (Channel.closed c)) in
      if InstanceState.client s then InstanceState.set_attempts s (InstanceState.attempts s + 1) else s
  | WorkerCommand.Shutdown :: rest =>
      let e := InstanceState.events s in
      InstanceState.set_attempts
        (InstanceState.set_events
           (InstanceState.set_commands s (Channel.mk rest (Channel.capacity c) true))
           (Channel.mk (Channel.queue e) (Channel.capacity e) true)) 0
  end.

Definition send_event (s : InstanceState.t) (e : WorkerEvent.t) : InstanceState.t * bool :=
  let '(c, r) := Channel.try_send (InstanceState.events s) e in (InstanceState.set_events s c, is_ok r).

(** An attempt ends: with a stream, which it offers, or without; an attempt that
    fails, or whose offer cannot be queued, says so. *)
Definition worker_report (s : InstanceState.t) (r : result unit Z) : InstanceState.t :=
  if 0 <? InstanceState.attempts s then
    let s := InstanceState.set_attempts s (InstanceState.attempts s - 1) in
    match r with
    | Ok stream =>
        let '(s, sent) := send_event s (WorkerEvent.Ready stream) in
        if sent then s else (send_event s WorkerEvent.AttemptFailed).1
    | Err _ => (send_event s WorkerEvent.AttemptFailed).1
    end
  else s.

(** [ChannelMsg], as far as the wait for the subsystem looks at it. *)
Inductive channel_msg := Success | Failure | CloseMsg | OtherMsg.

Fixpoint await_subsystem (messages : list channel_msg) : bool :=
  match messages with
  | Success :: _ => true
  | OtherMsg :: messages => await_subsystem messages
  | (Failure | CloseMsg) :: _ | [] => false
  end.

(** What a client session does to its socket. *)
Inductive socket_call := ProtectSocket (ok : bool) | ConnectSocket (endpoint : SocketAddr.t).

Section session.
Context `{SshKeys}.

(** What a client session meets.  [connect_stream] is russh's, given the check of
    the server's key; the rest are the answers of the calls, in order, with
    [authenticated] as whether the result is [AuthResult::Success]. *)
Record session_env := mkSession {
  opens : bool;
  protects : bool;
  connects : bool;
  set_nodelay : bool;
  server_key : PublicKey;
  connect_stream : (PublicKey -> bool) -> bool;
  authenticated : result unit bool;
  opens_channel : bool;
  requests : bool;
  messages : list channel_msg;
  stream : Z;
}.

(** [protected_socket]. *)
Definition protected_socket (e : session_env) (endpoint : SocketAddr.t) : list socket_call * bool :=
  if negb (opens e) then ([], false)
  else if negb (protects e) then ([ProtectSocket false], false)
  else ([ProtectSocket true; ConnectSocket endpoint], connects e && set_nodelay e).

(** [ClientHandler::check_server_key]. *)
Definition check_server_key (trusted key : PublicKey) : bool := bool_decide (key = trusted).

Definition load_auth (auth : ClientAuth.t) : bool :=
  match auth with
  | ClientAuth.Password _ => true
  | ClientAuth.Ed25519 private_key => is_some (load_secret_key private_key)
  end.

(** [run_client_session] up to the offer of the stream. *)
Definition run_client_session (o : Options.t) (e : session_env) : list socket_call * result unit Z :=
  match o with
  | Options.Listen _ _ _ => ([], Err tt)
  | Options.Connect c server_host_key auth =>
      match load_public_key server_host_key with
      | None => ([], Err tt)
      | Some trusted =>
          let '(calls, ok) := protected_socket e (Options.endpoint_ip c) in
          (calls,
           if negb ok then Err tt
           else if negb (connect_stream e (check_server_key trusted)) then Err tt
           else if negb (load_auth auth) then Err tt
           else if negb (bool_decide (authenticated e = Ok true)) then Err tt
           else if negb (opens_channel e) || negb (requests e) then Err tt
           else if await_subsystem (messages e) then Ok (stream e) else Err tt)
      end
  end.

End session.

(** * The sessions of a server *)

Module ServerCredential.
Inductive t `{SshKeys} := Password (expected : str) | Ed25519 (expected : PublicKey).
End ServerCredential.

Module ServerHandler.
Record t `{SshKeys} := mk { username : str; credential : ServerCredential.t; channels : gset Z }.
End ServerHandler.

(** What a session tells its peer about a channel. *)
Inductive reply := OpenAccepted (id : Z) | ChannelSuccess (id : Z) | ChannelFailure (id : Z) | ChannelClosed (id : Z).

Section server.
Context `{SshKeys}.

Definition load_server_credential (auth : ServerAuth.t) : option ServerCredential.t :=
  match auth with
  | ServerAuth.Password password => Some (ServerCredential.Password password)
  | ServerAuth.Ed25519 public_key => ServerCredential.Ed25519 <$> load_public_key public_key
  end.

(** The worker of a server admits a connection. *)
Definition admits (sessions max_connections : Z) : bool := negb (max_connections <=? sessions).

Definition auth_password (h : ServerHandler.t) (user password : str) : bool :=
  match ServerHandler.credential h with
  | ServerCredential.Password expected =>
      bool_decide (user = ServerHandler.username h) && bool_decide (password = expected)
  | _ => false
  end.

Definition auth_publickey (h : ServerHandler.t) (user : str) (public_key : PublicKey) : bool :=
  match ServerHandler.credential h with
  | ServerCredential.Ed25519 expected =>
      bool_decide (user = ServerHandler.username h) && bool_decide (public_key = expected)
  | _ => false
  end.

Definition set_channels (h : ServerHandler.t) (c : gset Z) : ServerHandler.t :=
  ServerHandler.mk _ (ServerHandler.username h) (ServerHandler.credential h) c.

Definition channel_open_session (h : ServerHandler.t) (id : Z) : ServerHandler.t * list reply :=
  if bool_decide (ServerHandler.channels h = ∅) then
    (set_channels h ({[id]} ∪ ServerHandler.channels h), [OpenAccepted id])
  else (h, []).

(** The request for a subsystem: the stream [stream] is offered to the instance
    [s]. *)
Definition subsystem_request (h : ServerHandler.t) (s : InstanceState.t) (id : Z) (name : str) (stream : Z)
    : ServerHandler.t * InstanceState.t * list reply :=
  if negb (bool_decide (id ∈ ServerHandler.channels h)) then (h, s, [ChannelFailure id])
  else
    let h := set_channels h (ServerHandler.channels h ∖ {[id]}) in
    if negb (bool_decide (name = #"snolc")) then (h, s, [ChannelFailure id; ChannelClosed id])
    else
      let '(s, sent) := send_event s (WorkerEvent.Ready stream) in
      if sent then (h, s, [ChannelSuccess id]) else (h, s, [ChannelFailure id; ChannelClosed id]).

(** A terminal, a shell, a command and an agent are refused. *)
Definition other_request (id : Z) : list reply := [ChannelFailure id].
End server.
