(* ===== verification/SshFacts.v ===== *)
(** What carrier-ssh guarantees: a client keeps its limit under every
    interleaving with its worker, and offers a stream only when the server proved
    its key and accepted the subsystem; and where a server does not keep its
    limit. *)
From Stdlib Require Import Strings.Byte.
From S2P Require Import Prelude Text Net Admin Abi Socket Wake Ssh.
Import Ssh.
#[local] Open Scope Z_scope.

(** * The limit of a client *)

Definition is_connect (c : WorkerCommand.t) : Z :=
  match c with WorkerCommand.Connect => 1 | WorkerCommand.Shutdown => 0 end.
Definition is_report (e : WorkerEvent.t) : Z :=
  match e with WorkerEvent.Ready _ | WorkerEvent.AttemptFailed => 1 | WorkerEvent.Fatal => 0 end.
Definition total {A} (f : A -> Z) (l : list A) : Z := foldr (fun a n => f a + n) 0 l.

Lemma total_app {A} (f : A -> Z) l k : total f (l ++ k) = total f l + total f k.
Proof. unfold total. induction l; simpl; lia. Qed.

Lemma total_count_nonneg {A} (f : A -> Z) l : (forall a, 0 <= f a) -> 0 <= total f l.
Proof. intros Hf. unfold total. induction l as [|a l IH]; simpl; [lia|]. specialize (Hf a). lia. Qed.

Lemma connects_nonneg l : 0 <= total is_connect l.
Proof. apply total_count_nonneg. by intros []. Qed.
Lemma reports_nonneg l : 0 <= total is_report l.
Proof. apply total_count_nonneg. by intros []. Qed.

(** The attempts that are asked for, under way or reported. *)
Definition in_flight (s : InstanceState.t) (reports : list WorkerEvent.t) : Z :=
  total is_connect (Channel.queue (InstanceState.commands s)) + InstanceState.attempts s
  + total is_report reports.

(** A client with [reports] still to be drained. *)
Definition limited (s : InstanceState.t) (reports : list WorkerEvent.t) : Prop :=
  InstanceState.client s = true ->
  0 <= InstanceState.attempts s /\ 0 <= InstanceState.active_connections s /\
  InstanceState.active_connections s + len (InstanceState.ready s) + in_flight s reports
    <= InstanceState.max_connections s /\
  in_flight s reports <= (if InstanceState.connect_pending s then 1 else 0).

Definition client_ok (s : InstanceState.t) : Prop := limited s (Channel.queue (InstanceState.events s)).

Ltac flight :=
  unfold client_ok, limited, in_flight in *; simpl in *;
  rewrite ?total_app in *; simpl in *; lens.

Lemma drain_event_ok s e l : limited s (e :: l) -> limited (drain_event s e) l.
Proof.
  intros Hl. destruct e as [stream| |]; simpl; flight.
  all: intros Hc; destruct (Hl Hc) as (? & ? & Hsum & Hp); clear Hl.
  all: pose proof (connects_nonneg (Channel.queue (InstanceState.commands s))).
  all: pose proof (reports_nonneg l) as Hr; unfold total in *; simpl in *.
  all: destruct (InstanceState.connect_pending s); lia.
Qed.

Lemma drain_events_ok s : client_ok s -> client_ok (drain_events s).
Proof.
  intros Hl. unfold drain_events. set (e := InstanceState.events s).
  set (s0 := InstanceState.set_events s _).
  assert (limited s0 (Channel.queue e) /\ Channel.queue (InstanceState.events s0) = []) as H0 by done.
  clearbody s0. revert s0 H0. induction (Channel.queue e) as [|x l IH]; intros s0 [H0 He]; simpl.
  - assert (client_ok s0) by (unfold client_ok; by rewrite He). by destruct (Channel.closed e).
  - apply IH. split; [by apply drain_event_ok|]. by destruct x.
Qed.

Lemma drain_events_client s : InstanceState.client (drain_events s) = InstanceState.client s.
Proof.
  unfold drain_events. set (s0 := InstanceState.set_events s _).
  assert (InstanceState.client s0 = InstanceState.client s) as H0 by done. clearbody s0. revert s0 H0.
  induction (Channel.queue _) as [|x l IH]; intros s0 H0; simpl.
  - by destruct (Channel.closed _).
  - apply IH. by destruct x.
Qed.

Lemma drain_events_queue s : Channel.queue (InstanceState.events (drain_events s)) = [].
Proof.
  unfold drain_events. set (s0 := InstanceState.set_events s _).
  assert (Channel.queue (InstanceState.events s0) = []) as H0 by done. clearbody s0. revert s0 H0.
  induction (Channel.queue (InstanceState.events s)) as [|x l IH]; intros s0 H0; simpl.
  - by destruct (Channel.closed _).
  - apply IH. by destruct x.
Qed.

Definition all_ok (m : t) : Prop := map_Forall (fun _ s => client_ok s) (instances m).

Lemma set_instance_ok m i s : client_ok s -> all_ok m -> all_ok (set_instance m i s).
Proof. intros Hs Hm. by apply map_Forall_insert_2. Qed.

Lemma finish_stream_ok m i stream s output :
  client_ok s -> client_ok (InstanceState.set_active s (InstanceState.active_connections s + 1)) ->
  all_ok m -> all_ok (finish_stream m i stream s output).1.1.
Proof.
  intros Hs Ha Hm. unfold finish_stream. case_if; [by apply set_instance_ok|].
  destruct (fetch_add _) as [handle next]. case_if; [by apply set_instance_ok|].
  apply set_instance_ok; [done|]. by apply (set_instance_ok m i s).
Qed.

Lemma wait_ok m i s w c : client_ok s -> all_ok m -> all_ok (wait m i s w c).1.1.
Proof.
  intros Hs Hm. unfold wait. destruct c; destruct (WakeSlot.replace _ w) as [slot e]; by apply set_instance_ok.
Qed.

Lemma take_or_start_ok m i s w output c :
  client_ok s -> (c = InstanceState.client s) -> Channel.queue (InstanceState.events s) = [] ->
  all_ok m -> all_ok (take_or_start m i s w output c).1.1.
Proof.
  intros Hs Hc Hq Hm. unfold take_or_start. destruct (InstanceState.ready s) as [|stream ready] eqn:Er.
  - case_if; [by apply set_instance_ok|]. case_if; [by apply set_instance_ok|].
    case_if; [by apply set_instance_ok|]. case_if; [|by apply wait_ok]. bools. subst c.
    unfold Channel.try_send. case_if; [by apply set_instance_ok|]. case_if; [|by apply set_instance_ok].
    apply wait_ok; [|done]. flight. rewrite Er, Hq in *. intros Hcl. destruct (Hs Hcl) as (? & ? & Hsum & Hp).
    match goal with H : InstanceState.connect_pending s = false |- _ => rewrite H in Hp end.
    pose proof (connects_nonneg (Channel.queue (InstanceState.commands s))). simpl in *. lens. lia.
  - apply finish_stream_ok; [| |done].
    + flight. rewrite Er in *. intros Hcl. destruct (Hs Hcl) as (? & ? & ? & ?). lens. lia.
    + flight. rewrite Er in *. intros Hcl. destruct (Hs Hcl) as (? & ? & ? & ?). lens. lia.
Qed.

Lemma connect_ok m i endpoint w output : all_ok m -> all_ok (connect m i endpoint w output).1.1.
Proof.
  intros Hm. unfold connect. case_if; [done|]. destruct (instances m !! i) as [s|] eqn:Hi; [|done].
  pose proof (drain_events_ok s (Hm _ _ Hi)) as Hd. case_if; [by apply set_instance_ok|].
  apply take_or_start_ok; [done|done|apply drain_events_queue|done].
Qed.

Lemma accept_ok m i w output : all_ok m -> all_ok (accept m i w output).1.1.
Proof.
  intros Hm. unfold accept. destruct (instances m !! i) as [s|] eqn:Hi; [|done].
  pose proof (drain_events_ok s (Hm _ _ Hi)) as Hd. case_if; [by apply set_instance_ok|].
  apply take_or_start_ok; [done|done|apply drain_events_queue|done].
Qed.

Lemma shutdown_ok m i : all_ok m -> all_ok (shutdown m i).1.
Proof.
  intros Hm. unfold shutdown. destruct (instances m !! i) as [s|] eqn:Hi; [|done].
  pose proof (Hm _ _ Hi) as Hs. unfold Channel.try_send.
  repeat case_if; apply set_instance_ok; try done. flight. intros Hc. destruct (Hs Hc) as (? & ? & ? & ?). lia.
Qed.

Lemma close_ok m h : all_ok m -> all_ok (close m h).1.
Proof.
  intros Hm. unfold close. destruct (streams m !! h) as [s|]; [|done]. simpl.
  destruct (instances m !! StreamState.owner s) as [x|] eqn:Hx; [|done]. apply set_instance_ok; [|done].
  pose proof (Hm _ _ Hx) as Hs. flight. unfold saturating_sub. intros Hc. destruct (Hs Hc) as (? & ? & ? & ?).
  split_and!; lia.
Qed.

Section order.
Context `{HashOrder}.

Lemma wake_streams_instances l m :
  instances (fold_left (fun m '(h, s) => let '(s, e) := wake_stream s in emit (set_stream m h s) e) l m)
  = instances m.
Proof.
  revert m. induction l as [|[h s] l IH]; intros m; [done|]. cbn [fold_left].
  destruct (wake_stream s) as [s' e]. by rewrite IH.
Qed.

Lemma poll_ok m i : all_ok m -> all_ok (poll m i).1.
Proof.
  intros Hm. unfold poll. destruct (instances m !! i) as [s|] eqn:Hi; [|done].
  destruct (WakeSlot.wake (InstanceState.connect_wake _)) as [c e1].
  destruct (WakeSlot.wake (InstanceState.accept_wake _)) as [a e2]. unfold all_ok. cbn [fst].
  rewrite wake_streams_instances. apply map_Forall_insert_2; [|done].
  apply (drain_events_ok s). by apply (Hm i).
Qed.

(** * Runs *)

Context `{SshKeys, Toml Options.t}.

(** The calls of the host, and the steps of the worker of an instance: it takes a
    command, an attempt ends, or a session of the server serves a request for a
    subsystem. *)
Inductive op :=
| Create (config base : bytes) (output : bool) (host : result Status.t unit) (spawns : bool)
| Poll (i : Z)
| Shutdown (i : Z)
| Destroy (i : Z)
| Connect (i : Z) (endpoint : bytes) (w : SnolWakeHandle.t) (output : bool)
| Accept (i : Z) (w : SnolWakeHandle.t) (output : bool)
| Close (h : Z)
| WorkerRecv (i : Z)
| WorkerReport (i : Z) (r : result unit Z)
| Subsystem (i : Z) (handler : ServerHandler.t) (id : Z) (name : str) (stream : Z).

Definition on_instance (m : t) (i : Z) (f : InstanceState.t -> InstanceState.t) : t :=
  match instances m !! i with Some s => set_instance m i (f s) | None => m end.

Definition apply_op (m : t) (o : op) : t :=
  match o with
  | Create config base output host spawns => (create m config base output host spawns).1.1
  | Poll i => (poll m i).1
  | Shutdown i => (shutdown m i).1
  | Destroy i => destroy m i
  | Connect i endpoint w output => (connect m i endpoint w output).1.1
  | Accept i w output => (accept m i w output).1.1
  | Close h => (close m h).1
  | WorkerRecv i => on_instance m i worker_recv
  | WorkerReport i r => on_instance m i (fun s => worker_report s r)
  | Subsystem i handler id name stream =>
      on_instance m i (fun s =>
        if InstanceState.client s then s else (subsystem_request handler s id name stream).1.2)
  end.

Definition run (ops : list op) : t := fold_left apply_op ops init.

Lemma on_instance_ok m i f : (forall s, client_ok s -> client_ok (f s)) -> all_ok m -> all_ok (on_instance m i f).
Proof.
  intros Hf Hm. unfold on_instance. destruct (instances m !! i) as [s|] eqn:Hi; [|done].
  apply set_instance_ok; [|done]. apply Hf. by apply (Hm i).
Qed.

Lemma worker_recv_ok s : client_ok s -> client_ok (worker_recv s).
Proof.
  intros Hs. unfold worker_recv. destruct (Channel.queue (InstanceState.commands s)) as [|[|] rest] eqn:Eq; [done| |].
  - case_if; [|by flight; intros Hc; congruence].
    flight. rewrite Eq in *. intros Hc. destruct (Hs Hc) as (? & ? & ? & ?). simpl in *. unfold total in *. lia.
  - flight. rewrite Eq in *. intros Hc. destruct (Hs Hc) as (? & ? & ? & ?). simpl in *. unfold total in *.
    split_and!; lia.
Qed.

(** An event takes the place of an attempt. *)
Lemma send_event_ok s e :
  InstanceState.client s = true -> 0 <= InstanceState.attempts s ->
  client_ok (InstanceState.set_attempts s (InstanceState.attempts s + 1)) ->
  client_ok (send_event s e).1.
Proof.
  intros Hc Ha Hs. unfold send_event, Channel.try_send.
  assert (client_ok s) as Hs0 by (flight; intros _; destruct (Hs Hc) as (? & ? & ? & ?); lia).
  repeat case_if; [done| |done]. flight. intros _. destruct (Hs Hc) as (? & ? & ? & ?).
  assert (is_report e <= 1) by (by destruct e). split_and!; lia.
Qed.

Lemma send_event_client s e : InstanceState.client (send_event s e).1 = InstanceState.client s.
Proof. unfold send_event. by destruct (Channel.try_send _ _). Qed.

Lemma worker_report_ok s r : client_ok s -> client_ok (worker_report s r).
Proof.
  intros Hs. unfold worker_report. case_if; [|done].
  destruct (InstanceState.client s) eqn:Ec.
  2: { assert (forall s', InstanceState.client s' = false -> client_ok s') as Hno
         by (intros s' Hs' Hc; congruence).
       apply Hno. destruct r as [stream|]; [|by rewrite send_event_client].
       pose proof (send_event_client (InstanceState.set_attempts s (InstanceState.attempts s - 1))
         (WorkerEvent.Ready stream)) as Hsc.
       destruct (send_event _ _) as [s2 [|]]; simpl in Hsc; rewrite ?send_event_client; congruence. }
  set (s1 := InstanceState.set_attempts s (InstanceState.attempts s - 1)).
  assert (client_ok (InstanceState.set_attempts s1 (InstanceState.attempts s1 + 1))) as Hs1.
  { flight. replace (InstanceState.attempts s - 1 + 1) with (InstanceState.attempts s) by lia. done. }
  assert (0 <= InstanceState.attempts s1) as Hn by (simpl; lia).
  destruct r as [stream|[]]; [|by apply send_event_ok].
  pose proof (send_event_ok s1 (WorkerEvent.Ready stream) Ec Hn Hs1) as Hsend.
  destruct (send_event s1 (WorkerEvent.Ready stream)) as [s2 [|]] eqn:E; [done|].
  assert (s2 = s1) as ->; [|by apply send_event_ok].
  unfold send_event, Channel.try_send in E. repeat case_if_in E; simplify_eq; by destruct s.
Qed.

Lemma subsystem_client h s id name stream :
  InstanceState.client (subsystem_request h s id name stream).1.2 = InstanceState.client s.
Proof.
  unfold subsystem_request. case_if; [done|]. case_if; [done|].
  pose proof (send_event_client s (WorkerEvent.Ready stream)) as Hc.
  by destruct (send_event _ _) as [s2 [|]].
Qed.

Lemma create_ok m config base output host spawns :
  (forall text o, toml_from_str text = Some o -> 0 <= Options.max_connections (Options.the_common o)) ->
  all_ok m -> all_ok (create m config base output host spawns).1.1.
Proof.
  intros Hu Hm. unfold create. destruct (parse_options config base) as [o|] eqn:Eo; [|done].
  destruct (if output then host else _); [|done]. case_if; [done|].
  destruct (fetch_add _) as [handle next]. case_if; [done|]. apply set_instance_ok; [|done].
  unfold parse_options in Eo. destruct (from_utf8 config) as [c|]; [|done]. simpl in Eo.
  destruct (from_utf8 base) as [b|]; [|done]. simpl in Eo.
  destruct (toml_from_str c) as [o0|] eqn:Et; [|done]. simpl in Eo. case_if_in Eo; [|done].
  injection Eo as <-. specialize (Hu c o0 Et).
  assert (Options.the_common (Options.resolve o0 b) = Options.the_common o0) as -> by (by destruct o0).
  unfold client_ok, limited, in_flight. simpl. lens. intros _. split_and!; lia.
Qed.

(** A client never holds more connections than its limit, in whatever order
    the host's calls and the steps of the worker interleave: a connection is asked
    for only below the limit, and there is at most one attempt at a time. *)
Theorem ssh_client_limit ops i s :
  (forall text o, toml_from_str text = Some o -> 0 <= Options.max_connections (Options.the_common o)) ->
  instances (run ops) !! i = Some s -> InstanceState.client s = true ->
  InstanceState.active_connections s + len (InstanceState.ready s) <= InstanceState.max_connections s.
Proof.
  intros Hu Hi Hc.
  assert (all_ok (run ops)) as Hok.
  { unfold run. assert (all_ok init) as Hinit by (apply map_Forall_empty). revert Hinit. generalize init.
    clear Hi. induction ops as [|o ops IH]; intros m Hm; [done|]. cbn [fold_left]. apply IH.
    destruct o; simpl; [by apply create_ok|by apply poll_ok|by apply shutdown_ok| |by apply connect_ok
      |by apply accept_ok|by apply close_ok| | |].
    - by apply map_Forall_delete.
    - apply on_instance_ok; [|done]. intros x. apply worker_recv_ok.
    - apply on_instance_ok; [|done]. intros x. apply worker_report_ok.
    - apply on_instance_ok; [|done]. intros x Hx. destruct (InstanceState.client x) eqn:Ex; [done|].
      intros Hcl. rewrite subsystem_client in Hcl. congruence. }
  destruct (Hok i s Hi Hc) as (? & ? & Hsum & _). unfold in_flight in Hsum.
  pose proof (connects_nonneg (Channel.queue (InstanceState.commands s))).
  pose proof (reports_nonneg (Channel.queue (InstanceState.events s))). lia.
Qed.
End order.

(** * The session of a client *)

Section session.
Context `{SshKeys}.

(** What is relied on of russh: a session is only established when the check of
    the server's key accepts it. *)
Definition asks_handler (e : session_env) : Prop :=
  forall check, connect_stream e check = true -> check (server_key e) = true.

(** C33: A client session offers a stream only when all of this happened: the
    socket was protected before it was connected to the configured endpoint, the
    server showed the configured key, the authentication succeeded, and the server
    confirmed the subsystem before it refused or closed the channel. *)
Theorem ssh_session_authentic c host_key auth e calls stream :
  asks_handler e -> run_client_session (Options.Connect c host_key auth) e = (calls, Ok stream) ->
  calls = [ProtectSocket true; ConnectSocket (Options.endpoint_ip c)] /\
  load_public_key host_key = Some (server_key e) /\
  authenticated e = Ok true /\
  exists before after, messages e = before ++ Success :: after /\ Forall (fun m => m = OtherMsg) before.
Proof.
  intros Hask. unfold run_client_session. destruct (load_public_key host_key) as [trusted|] eqn:Ek; [|done].
  unfold protected_socket. case_if; [done|]. case_if; [done|].
  destruct (connects e && set_nodelay e); [|done]. cbn [negb].
  case_if; [done|]. case_if; [done|]. case_if; [done|]. case_if; [done|].
  destruct (await_subsystem (messages e)) eqn:Em; [|done]. intros [= <- _]. split; [done|]. split.
  { match goal with H : connect_stream e _ = true |- _ => apply Hask in H; unfold check_server_key in H end.
    bools. congruence. }
  split; [done|]. clear -Em. induction (messages e) as [|m l IH]; [done|].
  destruct m; try done; simpl in Em.
  - by exists [], l.
  - destruct (IH Em) as (b & a & -> & Hb). exists (OtherMsg :: b), a. split; [done|by constructor].
Qed.
End session.

(** * The limit of a server *)

#[local] Instance demo_keys : SshKeys :=
  {| PublicKey := str; SecretKey := str; load_public_key p := Some p; load_secret_key p := Some p;
     public_ed25519 _ := true; secret_ed25519 _ := true |}.
#[local] Instance demo_order : HashOrder := {| hash_order _ l := l; hash_order_perm _ l := reflexivity l |}.
Definition demo_common : Options.common :=
  Options.mkCommon (SocketAddr.V4 0x0a000001 22) #"snolc" 1 4 1024 60000.
Definition demo_wake : SnolWakeHandle.t := SnolWakeHandle.mk 7 (Some true) true true.

Definition server_toml : Toml Options.t :=
  {| toml_from_str _ := Some (Options.Listen demo_common #"/key" (ServerAuth.Password #"secret")) |}.
Definition client_toml : Toml Options.t :=
  {| toml_from_str _ := Some (Options.Connect demo_common #"/key" (ClientAuth.Password #"secret")) |}.

(** The handler of one session, after it accepted the channel [id]. *)
Definition demo_handler (id : Z) : ServerHandler.t :=
  (channel_open_session
     (ServerHandler.mk _ #"snolc" (ServerCredential.Password #"secret") ∅) id).1.

Definition server_ops : list (op) :=
  [Create [] [] true (Ok tt) true;
   Subsystem 1 (demo_handler 1) 1 #"snolc" 100;
   Subsystem 1 (demo_handler 2) 2 #"snolc" 101;
   Accept 1 demo_wake true;
   Accept 1 demo_wake true].

(** The limit of a server is not kept: streams that are ready are handed out
    before the limit is looked at, and one session may open one channel after
    another.  With a limit of one connection two are active. *)
Theorem ssh_server_limit_exceeded :
  exists s, instances (run (H1 := server_toml) server_ops) !! 1 = Some s /\
    InstanceState.max_connections s = 1 /\ InstanceState.active_connections s = 2.
Proof. eexists. split; [vm_compute; reflexivity|]. split; reflexivity. Qed.

Definition client_ops : list op :=
  [Create [] [] true (Ok tt) true; Connect 1 [] demo_wake true; WorkerRecv 1; WorkerReport 1 (Ok 100);
   Connect 1 [] demo_wake true].

Lemma ssh_client_limit_witness :
  exists s, instances (run (H1 := client_toml) client_ops) !! 1 = Some s /\
    InstanceState.active_connections s = 1 /\
    InstanceState.active_connections s + len (InstanceState.ready s) <= InstanceState.max_connections s.
Proof.
  eexists. split; [vm_compute; reflexivity|]. split; [reflexivity|].
  apply (ssh_client_limit (H1 := client_toml) client_ops 1); [|vm_compute; reflexivity|reflexivity].
  intros text o [= <-]. simpl. lia.
Defined.

Definition demo_session : session_env :=
  mkSession true true true true #"/key" (fun check => check #"/key") (Ok true) true true [OtherMsg; Success] 100.

Lemma ssh_session_authentic_witness :
  run_client_session (Options.Connect demo_common #"/key" (ClientAuth.Password #"secret")) demo_session
  = ([ProtectSocket true; ConnectSocket (SocketAddr.V4 0x0a000001 22)], Ok 100) /\
  exists before after, messages demo_session = before ++ Success :: after /\ Forall (fun m => m = OtherMsg) before.
Proof.
  assert (run_client_session (Options.Connect demo_common #"/key" (ClientAuth.Password #"secret")) demo_session
    = ([ProtectSocket true; ConnectSocket (SocketAddr.V4 0x0a000001 22)], Ok 100)) as Hr
    by (vm_compute; reflexivity).
  split; [exact Hr|].
  destruct (ssh_session_authentic demo_common #"/key" (ClientAuth.Password #"secret") demo_session _ _
    (fun check Hc => Hc) Hr) as (_ & _ & _ & Hm). exact Hm.
Defined.
