(* ===== verification/SshWakes.v ===== *)
(** The wake handles of carrier-ssh (Ssh.v): over all calls of the host and all
    steps of the workers and sessions, what was retained is released or held. *)
From Stdlib Require Import Strings.Byte.
From S2P Require Import Prelude Text Net Admin Abi Socket Wake WakeTable Ssh SshFacts.
Import Ssh.
#[local] Open Scope Z_scope.

Definition instance_slots (s : InstanceState.t) : slots := (InstanceState.connect_wake s, InstanceState.accept_wake s).
Definition stream_slots (s : StreamState.t) : slots := (StreamState.read_wake s, StreamState.write_wake s).

Definition total (ctx : Z) (m : Ssh.t) : Z :=
  held_tables instance_slots stream_slots ctx (instances m) (streams m).

Record inv (n : Z) (m : Ssh.t) : Prop := {
  v_owner : forall h s, streams m !! h = Some s -> is_Some (instances m !! StreamState.owner s);
  v_fresh : forall h s, streams m !! h = Some s -> h < stream_next m;
  v_ifresh : forall i s, instances m !! i = Some s -> i < instance_next m;
  v_next : 1 <= stream_next m <= n /\ 1 <= instance_next m <= n;
  v_wakes : balanced instance_slots stream_slots (instances m) (streams m) (wakes m);
}.

Lemma ssh_inv_more n n' m : n <= n' -> inv n m -> inv n' m.
Proof. intros Hn [V1 V2 V3 [V4 V4'] V5]. split; try done. lia. Qed.

Lemma ssh_emit_nil m : emit m [] = m.
Proof. destruct m. unfold emit. simpl. by rewrite app_nil_r. Qed.

(** An instance or a stream changes its slots, and the events say so. *)
Lemma ssh_inv_set_instance n m i s s' e :
  instances m !! i = Some s -> exchange (instance_slots s) (instance_slots s') e ->
  inv n m -> inv n (emit (set_instance m i s') e).
Proof.
  intros Hi Hs [V1 V2 V3 V4 V5]. split; simpl; try done.
  - intros h x Hh. destruct (decide (i = StreamState.owner x)) as [<-|]; [by rewrite lookup_insert_eq|].
    rewrite lookup_insert_ne by done. eauto.
  - intros j x [[<- <-]|[_ Hj]]%lookup_insert_Some; eauto.
  - by apply (balanced_instance _ _ _ _ _ _ s).
Qed.

Lemma ssh_inv_keep_instance n m i s s' :
  instances m !! i = Some s -> instance_slots s' = instance_slots s ->
  inv n m -> inv n (set_instance m i s').
Proof.
  intros Hi Hs V. rewrite <- (ssh_emit_nil (set_instance m i s')). eapply ssh_inv_set_instance; [done| |done].
  rewrite Hs. apply exchange_id.
Qed.

Lemma ssh_inv_set_stream n m h s s' e :
  streams m !! h = Some s -> StreamState.owner s' = StreamState.owner s ->
  exchange (stream_slots s) (stream_slots s') e -> inv n m -> inv n (emit (set_stream m h s') e).
Proof.
  intros Hh Ho Hs [V1 V2 V3 V4 V5]. split; simpl; try done.
  - intros k x [[<- <-]|[_ Hk]]%lookup_insert_Some; [rewrite Ho|]; eauto.
  - intros k x [[<- <-]|[_ Hk]]%lookup_insert_Some; eauto.
  - by apply (balanced_stream _ _ _ _ _ _ s).
Qed.

(** ** The steps *)

Lemma drain_event_slots s e : instance_slots (drain_event s e) = instance_slots s.
Proof. by destruct e. Qed.

Lemma drain_events_slots s : instance_slots (drain_events s) = instance_slots s.
Proof.
  unfold drain_events.
  set (s0 := InstanceState.set_events s _). change (instance_slots s) with (instance_slots s0).
  assert (forall l s, instance_slots (fold_left drain_event l s) = instance_slots s) as Hl.
  { induction l as [|e l IH]; intros s1; simpl; [done|]. by rewrite IH, drain_event_slots. }
  case_if; [|apply Hl]. rewrite <- (Hl (Channel.queue (InstanceState.events s)) s0). done.
Qed.

Lemma send_event_slots s e : instance_slots (send_event s e).1 = instance_slots s.
Proof. unfold send_event. by destruct (Channel.try_send _ _). Qed.

Lemma worker_recv_slots s : instance_slots (worker_recv s) = instance_slots s.
Proof. unfold worker_recv. by repeat case_match. Qed.

Lemma worker_report_slots s r : instance_slots (worker_report s r) = instance_slots s.
Proof.
  unfold worker_report. case_if; [|done]. destruct r as [stream|]; [|by rewrite send_event_slots].
  set (s1 := InstanceState.set_attempts s _).
  pose proof (send_event_slots s1 (WorkerEvent.Ready stream)) as Hs.
  destruct (send_event s1 _) as [s2 [|]]; simpl in Hs; [done|by rewrite send_event_slots].
Qed.

Lemma subsystem_slots `{SshKeys} h s id name stream :
  instance_slots (subsystem_request h s id name stream).1.2 = instance_slots s.
Proof.
  unfold subsystem_request. case_if; [done|]. case_if; [done|].
  pose proof (send_event_slots s (WorkerEvent.Ready stream)) as Hs. by destruct (send_event _ _) as [s2 [|]].
Qed.

Lemma ssh_create_inv `{SshKeys, Toml Options.t} n m config base output host spawns :
  n < u64_max -> inv n m -> inv (n + 1) (create m config base output host spawns).1.1.
Proof.
  intros Hn V. assert (inv (n + 1) m) as V1 by (by apply (ssh_inv_more n); [lia|]).
  unfold create. destruct (parse_options config base) as [o|]; [|done].
  destruct (if output then host else _); [|done]. case_if; [done|].
  destruct V as [W1 W2 W3 [W4 W4'] W5]. rewrite (fetch_add_small _ n) by done.
  rewrite (proj2 (Z.eqb_neq _ _)) by lia.
  assert (instances m !! instance_next m = None) as Hnew.
  { destruct (instances m !! instance_next m) eqn:E; [|done]. apply W3 in E. lia. }
  split; simpl; try done.
  - intros h s Hs. destruct (W1 h s Hs) as [x Hx]. rewrite lookup_insert_ne; [eauto|]. congruence.
  - intros j x [[<- _]|[_ Hj%W3]]%lookup_insert_Some; lia.
  - split; lia.
  - by apply balanced_new_instance.
Qed.

Lemma ssh_finish_inv n m i s0 s stream output :
  instances m !! i = Some s0 -> instance_slots s = instance_slots s0 -> n < u64_max ->
  inv n m -> inv (n + 1) (finish_stream m i stream s output).1.1.
Proof.
  intros Hi Hs Hn V. pose proof (ssh_inv_keep_instance n m i s0 s Hi Hs V) as V'.
  unfold finish_stream. case_if; [by apply (ssh_inv_more n); [lia|]|].
  destruct V' as [W1 W2 W3 [W4 W4'] W5]. rewrite (fetch_add_small _ n) by done.
  rewrite (proj2 (Z.eqb_neq _ _)) by lia.
  set (m' := set_instance m i s) in *.
  assert (streams m' !! stream_next m' = None) as Hnew.
  { destruct (streams m' !! stream_next m') eqn:E; [|done]. apply W2 in E. lia. }
  split; simpl.
  - intros h x Hx. destruct (decide (StreamState.owner x = i)) as [->|Hne]; [by rewrite lookup_insert_eq|].
    apply lookup_insert_Some in Hx as [[_ <-]|[_ Hx]]; [done|].
    rewrite lookup_insert_ne by done. by apply (W1 h).
  - intros h x [[<- _]|[_ Hx%W2]]%lookup_insert_Some; simpl in *; lia.
  - intros j x [[<- _]|[_ Hj]]%lookup_insert_Some; [|by eapply W3].
    apply (W3 i s). simpl. apply lookup_insert_eq.
  - simpl in *. split; lia.
  - eapply (balanced_instance_same _ _ _ _ _ _ s); [apply lookup_insert_eq|done|].
    by apply balanced_new_stream.
Qed.

Lemma ssh_wait_inv n m i s0 s w connect :
  instances m !! i = Some s0 -> instance_slots s = instance_slots s0 -> wake_ok w ->
  inv n m -> inv n (wait m i s w connect).1.1.
Proof.
  intros Hi Hs Hw V. unfold wait. destruct connect.
  - destruct (WakeSlot.replace _ w) as [slot e] eqn:E. simpl.
    eapply ssh_inv_set_instance; [done| |done]. rewrite <- Hs. by eapply exchange_first.
  - destruct (WakeSlot.replace _ w) as [slot e] eqn:E. simpl.
    eapply ssh_inv_set_instance; [done| |done]. rewrite <- Hs. by eapply exchange_second.
Qed.

Lemma ssh_take_inv n m i s0 s w output connect :
  instances m !! i = Some s0 -> instance_slots s = instance_slots s0 -> wake_ok w -> n < u64_max ->
  inv n m -> inv (n + 1) (take_or_start m i s w output connect).1.1.
Proof.
  intros Hi Hs Hw Hn V. unfold take_or_start.
  assert (forall s, instance_slots s = instance_slots s0 -> inv (n + 1) (set_instance m i s)) as Hkeep.
  { intros s' Hs'. apply (ssh_inv_more n); [lia|]. by eapply ssh_inv_keep_instance. }
  assert (forall s, instance_slots s = instance_slots s0 -> inv (n + 1) (wait m i s w connect).1.1) as Hwait.
  { intros s' Hs'. apply (ssh_inv_more n); [lia|]. by eapply ssh_wait_inv. }
  destruct (InstanceState.ready s) as [|x ready]; [|by eapply ssh_finish_inv].
  do 3 (case_if; [by apply Hkeep|]). case_if; [|by apply Hwait].
  destruct (Channel.try_send _ _) as [c [[]|[]]]; [by apply Hwait|by apply Hkeep..].
Qed.

Lemma ssh_connect_inv n m i endpoint w output :
  wake_ok w -> n < u64_max -> inv n m -> inv (n + 1) (connect m i endpoint w output).1.1.
Proof.
  intros Hw Hn V. assert (inv (n + 1) m) as V1 by (by apply (ssh_inv_more n); [lia|]).
  unfold connect. case_if; [done|]. destruct (instances m !! i) as [s|] eqn:Hi; [|done].
  case_if; [|by eapply ssh_take_inv; eauto using drain_events_slots].
  eapply ssh_inv_keep_instance; eauto using drain_events_slots.
Qed.

Lemma ssh_accept_inv n m i w output :
  wake_ok w -> n < u64_max -> inv n m -> inv (n + 1) (accept m i w output).1.1.
Proof.
  intros Hw Hn V. assert (inv (n + 1) m) as V1 by (by apply (ssh_inv_more n); [lia|]).
  unfold accept. destruct (instances m !! i) as [s|] eqn:Hi; [|done].
  case_if; [|by eapply ssh_take_inv; eauto using drain_events_slots].
  eapply ssh_inv_keep_instance; eauto using drain_events_slots.
Qed.

Lemma ssh_shutdown_inv n m i : inv n m -> inv n (shutdown m i).1.
Proof.
  intros V. unfold shutdown. destruct (instances m !! i) as [s|] eqn:Hi; [|done].
  destruct (Channel.try_send _ _) as [c r]. by eapply ssh_inv_keep_instance.
Qed.

Lemma ssh_read_inv n m h buffer answer w : wake_ok w -> inv n m -> inv n (read m h buffer answer w).1.
Proof.
  intros Hw V. unfold read. case_if; [done|]. destruct (streams m !! h) as [s|] eqn:Hs; [|done].
  destruct answer as [[]|]; [done..|]. destruct (WakeSlot.replace _ w) as [slot e] eqn:Ew.
  apply (ssh_inv_set_stream _ _ _ s); try done. by eapply exchange_first.
Qed.

Lemma ssh_wait_write_inv n m h s w :
  streams m !! h = Some s -> wake_ok w -> inv n m -> inv n (wait_write m h s w).1.
Proof.
  intros Hs Hw V. unfold wait_write. destruct (WakeSlot.replace _ w) as [slot e] eqn:Ew.
  apply (ssh_inv_set_stream _ _ _ s); try done. by eapply exchange_second.
Qed.

Lemma ssh_write_inv n m h input answer w : wake_ok w -> inv n m -> inv n (write m h input answer w).1.
Proof.
  intros Hw V. unfold write. case_if; [done|]. destruct (streams m !! h) as [s|] eqn:Hs; [|done].
  destruct answer as [[]|]; [done..|]. by apply ssh_wait_write_inv.
Qed.

Lemma ssh_io_action_inv n m h answer w : wake_ok w -> inv n m -> inv n (io_action m h answer w).1.
Proof.
  intros Hw V. unfold io_action. destruct (streams m !! h) as [s|] eqn:Hs; [|done].
  destruct answer as [[]|]; [done..|]. by apply ssh_wait_write_inv.
Qed.

Lemma ssh_close_inv n m h : inv n m -> inv n (close m h).1.
Proof.
  intros [V1 V2 V3 V4 V5]. unfold close. destruct (streams m !! h) as [s|] eqn:Hh; [|by split]. simpl.
  destruct (V1 h s Hh) as [i Hi]. rewrite Hi. split; simpl; try done.
  - intros k x [_ Hx]%lookup_delete_Some. apply V1 in Hx as [y Hy].
    destruct (decide (StreamState.owner x = StreamState.owner s)) as [->|?]; [by rewrite lookup_insert_eq|].
    by rewrite lookup_insert_ne.
  - intros k x [_ Hx]%lookup_delete_Some. eauto.
  - intros j x [[<- _]|[_ Hj]]%lookup_insert_Some; eauto.
  - eapply balanced_instance_same; [done|done|].
    by apply (balanced_close instance_slots stream_slots _ _ _ h s).
Qed.

Section order.
Context `{HashOrder}.

Lemma ssh_owned_perm m i :
  owned m i ≡ₚ filter (fun '(_, s) => StreamState.owner s = i) (map_to_list (streams m)).
Proof. unfold owned. by rewrite hash_order_perm. Qed.

Lemma ssh_destroy_inv n m i : inv n m -> inv n (destroy m i).
Proof.
  intros [V1 V2 V3 V4 V5]. split; simpl; try done.
  - intros h s [Hh Hne]%map_lookup_filter_Some. rewrite lookup_delete_ne by done. eauto.
  - intros h s [Hh _]%map_lookup_filter_Some. eauto.
  - intros j x [_ Hj]%lookup_delete_Some. eauto.
  - pose proof (balanced_destroy _ _ _ _ _ i (fun '(_, s) => StreamState.owner s = i) _ (ssh_owned_perm m i) V5) as B.
    assert (filter (fun '(_, s) => StreamState.owner s <> i) (streams m)
      = filter (fun x => ~ (let '(_, s) := x in StreamState.owner s = i)) (streams m)) as ->
      by (apply map_filter_ext; by intros ? ? _).
    rewrite (map_ext (fun '(_, s) => StreamState.drop s) (fun kv => drop_both (stream_slots kv.2)));
      [exact B|by intros []].
Qed.

Lemma ssh_wake_streams_inv n l : forall m,
  NoDup l.*1 -> (forall h s, (h, s) ∈ l -> streams m !! h = Some s) -> inv n m ->
  inv n (fold_left (fun m '(h, s) => let '(s, e) := wake_stream s in emit (set_stream m h s) e) l m).
Proof.
  induction l as [|[h s] l IH]; intros m Hnd Hl V; [done|]. cbn [fold_left].
  cbn [fmap list_fmap fst] in Hnd. apply NoDup_cons in Hnd as [Hh Hnd].
  assert (inv n (let '(s, e) := wake_stream s in emit (set_stream m h s) e)) as V'.
  { unfold wake_stream. destruct (WakeSlot.wake (StreamState.read_wake s)) as [r e1] eqn:Er.
    destruct (WakeSlot.wake (StreamState.write_wake s)) as [w e2] eqn:Ew.
    eapply (ssh_inv_set_stream _ _ _ s); [apply Hl; left|done| |done]. by apply exchange_wake. }
  destruct (wake_stream s) as [s' e]. apply IH; [done| |done]. intros k x Hk. simpl.
  rewrite lookup_insert_ne; [apply Hl; by right|]. intros ->. apply Hh.
  apply list_elem_of_fmap. by exists (k, x).
Qed.

Lemma ssh_poll_inv n m i : inv n m -> inv n (poll m i).1.
Proof.
  intros V. unfold poll. destruct (instances m !! i) as [s|] eqn:Hi; [|done].
  pose proof (drain_events_slots s) as Hs.
  destruct (WakeSlot.wake (InstanceState.connect_wake _)) as [c e1] eqn:E1.
  destruct (WakeSlot.wake (InstanceState.accept_wake _)) as [a e2] eqn:E2. cbn [fst].
  set (m' := emit _ (e1 ++ e2)). apply ssh_wake_streams_inv.
  - rewrite (ssh_owned_perm m' i). eapply sublist_NoDup; [apply (NoDup_fst_map_to_list (streams m'))|].
    apply fmap_sublist, sublist_filter.
  - intros h x. by rewrite ssh_owned_perm, list_elem_of_filter, elem_of_map_to_list; intros [_ ?].
  - apply (ssh_inv_set_instance _ _ _ s); [done| |done]. rewrite <- Hs. by apply exchange_wake.
Qed.

(** * Runs *)

Context `{SshKeys, Toml Options.t}.

(** The calls of SshFacts.v and those on streams. *)
Inductive any_op :=
| Op (o : op)
| Read (h : Z) (buffer : bool) (answer : Prelude.poll (result unit Z)) (w : SnolWakeHandle.t)
| Write (h : Z) (input : bytes) (answer : Prelude.poll (result unit Z)) (w : SnolWakeHandle.t)
| IoAction (h : Z) (answer : Prelude.poll (result unit unit)) (w : SnolWakeHandle.t).

(** The wake handles of a call have a release function. *)
Definition op_ok (o : any_op) : Prop :=
  match o with
  | Op (Connect _ _ w _) | Op (Accept _ w _) | Read _ _ _ w | Write _ _ _ w | IoAction _ _ w => wake_ok w
  | Op _ => True
  end.

Definition apply_any (m : Ssh.t) (o : any_op) : Ssh.t :=
  match o with
  | Op o => apply_op m o
  | Read h buffer answer w => (read m h buffer answer w).1
  | Write h input answer w => (write m h input answer w).1
  | IoAction h answer w => (io_action m h answer w).1
  end.

Definition run_all (ops : list any_op) : Ssh.t := fold_left apply_any ops init.

Lemma on_instance_inv n m i f :
  (forall s, instance_slots (f s) = instance_slots s) -> inv n m -> inv n (on_instance m i f).
Proof.
  intros Hf V. unfold on_instance. destruct (instances m !! i) as [s|] eqn:Hi; [|done].
  by eapply ssh_inv_keep_instance.
Qed.

Lemma apply_any_inv n m o : op_ok o -> n < u64_max -> inv n m -> inv (n + 1) (apply_any m o).
Proof.
  intros Ho Hn V. destruct o as [o| | |]; [destruct o|..]; simpl in *;
    [by apply ssh_create_inv| | | |by apply ssh_connect_inv|by apply ssh_accept_inv|..];
    apply (ssh_inv_more n); try lia;
    [by apply ssh_poll_inv|by apply ssh_shutdown_inv|by apply ssh_destroy_inv|by apply ssh_close_inv|..
    |by apply ssh_read_inv|by apply ssh_write_inv|by apply ssh_io_action_inv]; apply on_instance_inv; try done.
  - apply worker_recv_slots.
  - intros s. apply worker_report_slots.
  - intros s. case_if; [done|apply subsystem_slots].
Qed.

Lemma run_all_inv ops : Forall op_ok ops -> len ops < u64_max -> exists n, inv n (run_all ops).
Proof.
  intros Hops Hlen. unfold run_all.
  assert (forall l n m, Forall op_ok l -> n + len l <= u64_max -> inv n m -> exists n', inv n' (fold_left apply_any l m))
    as Hgen.
  { induction l as [|o l IH]; intros n m Hl Hn V; [by exists n|]. apply Forall_cons in Hl as [Ho Hl].
    rewrite len_cons in Hn. pose proof (len_nonneg l). cbn [fold_left].
    apply (IH (n + 1)); [done|lia|]. apply apply_any_inv; [done|lia|done]. }
  apply (Hgen ops 1); [done|lia|]. split; simpl; [by intros ? ? ?%lookup_empty_Some..|done|apply balanced_init].
Qed.

(** C16: wake handles of carrier-ssh are counted exactly.  Over every sequence of
    the host's calls, interleaved in any way with the steps of the workers and
    sessions, a context was retained as often as it was released plus the number of
    slots that hold it, it was woken and released only while it was retained, and
    nothing is left retained when the instances are gone. *)
Theorem ssh_wakes_balanced ops ctx :
  Forall op_ok ops -> len ops < u64_max ->
  balance ctx (wakes (run_all ops)) = total ctx (run_all ops) /\ legal ctx 0 (wakes (run_all ops)) /\
  (instances (run_all ops) = ∅ -> balance ctx (wakes (run_all ops)) = 0).
Proof.
  intros Hops Hlen. destruct (run_all_inv ops Hops Hlen) as [n [V1 _ _ _ V5]].
  destruct (balanced_es _ _ _ _ _ V5 ctx) as [Hb Hl]. rewrite Z.sub_0_r in Hb. split_and!; [done|done|].
  intros Hempty. rewrite Hb. unfold held_tables. rewrite Hempty, weight_empty, weight_zero; [done|].
  intros h s Hh. apply V1 in Hh as [x Hx]. by rewrite Hempty, lookup_empty in Hx.
Qed.
End order.

(** A client waits for a connection and is woken by a poll, the stream waits for
    input, and all of it is destroyed. *)
Section example.
#[local] Existing Instances SshFacts.demo_keys SshFacts.demo_order.

Definition wake_ops : list any_op :=
  [Op (Create [] [] true (Ok tt) true); Op (Connect 1 [] (SnolWakeHandle.mk 7 (Some true) true true) true);
   Op (WorkerRecv 1); Op (WorkerReport 1 (Ok 100)); Op (Poll 1);
   Op (Connect 1 [] (SnolWakeHandle.mk 8 (Some true) true true) true);
   Read 1 true Pending (SnolWakeHandle.mk 9 (Some true) true true); Op (Destroy 1)].

Lemma ssh_wakes_balanced_witness :
  wakes (run_all (H1 := client_toml) wake_ops) = [Retained 7; Woken 7; Released 7; Retained 9; Released 9] /\
  balance 9 (wakes (run_all (H1 := client_toml) wake_ops)) = 0.
Proof.
  split; [vm_compute; reflexivity|].
  apply (ssh_wakes_balanced (H1 := client_toml) wake_ops 9).
  - repeat constructor.
  - reflexivity.
  - vm_compute. reflexivity.
Defined.
End example.
