(* ===== verification/SshWorker.v ===== *)
(** The worker thread of carrier-ssh (modules/carrier-ssh/src/lib.rs:
    [worker_main], [client_worker], [server_worker]) and the two ends of a stream
    that it and the host hold (modules/carrier-ssh/src/bridge.rs: [pair],
    [EngineIo], [WorkerIo]).

    A worker is a set of tasks around a [select] loop; a run is a sequence of the
    branches that are taken and of what the tasks do, in any order.  russh calls the
    handler of a session for a channel only once it has accepted an
    authentication; that is what [session_acts] relies on.

    The server keeps its limit on sessions and offers only streams of peers that
    showed the configured credential ([ssh_server_authentic]); the two directions of
    a pair are two FIFO pipes ([pair_fifo]). *)
From Stdlib Require Import Strings.Byte.
From S2P Require Import Prelude Text Net Admin Abi Socket Wake Bridge Ssh.
#[local] Open Scope Z_scope.

(** * The two ends of a stream *)

(** [pair]: a pipe to the engine and one to the worker. *)
Record duplex := Duplex { to_engine : Bridge.state; to_worker : Bridge.state }.
Definition pair (queue_chunks chunk_bytes : nat) : duplex :=
  Duplex (Bridge.start queue_chunks chunk_bytes) (Bridge.start queue_chunks chunk_bytes).

(** The methods of [AsyncRead] and [AsyncWrite], and the end of the value. *)
Inductive io_call := PollRead (room : nat) | PollWrite (input : bytes) | PollFlush | PollClose | Dropped.

(** What an end does with its incoming and its outgoing pipe. *)
Definition endpoint_call (incoming outgoing : Bridge.state) (c : io_call) : option (Bridge.state * Bridge.state) :=
  match c with
  | PollRead room => i ← Bridge.begin incoming (Bridge.PollRead room); Some (i, outgoing)
  | PollWrite input => o ← Bridge.begin outgoing (Bridge.PollWrite input); Some (incoming, o)
  | PollFlush => Some (incoming, outgoing)
  | PollClose => o ← Bridge.begin outgoing Bridge.Shutdown; Some (incoming, o)
  | Dropped =>
      i ← Bridge.begin incoming Bridge.DropReader;
      o ← Bridge.begin outgoing Bridge.DropWriter; Some (i, o)
  end.

(** [EngineIo] and [WorkerIo] pass the calls on, with the pipes the other way
    round. *)
Definition engine_io (d : duplex) (c : io_call) : option duplex :=
  '(i, o) ← endpoint_call (to_engine d) (to_worker d) c; Some (Duplex i o).
Definition worker_io (d : duplex) (c : io_call) : option duplex :=
  '(i, o) ← endpoint_call (to_worker d) (to_engine d) c; Some (Duplex o i).

(** A call begins, or a thread inside a call moves on. *)
Inductive duplex_step : duplex -> duplex -> Prop :=
| engine_calls d c d' : engine_io d c = Some d' -> duplex_step d d'
| worker_calls d c d' : worker_io d c = Some d' -> duplex_step d d'
| in_to_engine d s m : Bridge.step_move (to_engine d) m = Some s ->
    (forall r, m <> Bridge.Begin r) -> duplex_step d (Duplex s (to_worker d))
| in_to_worker d s m : Bridge.step_move (to_worker d) m = Some s ->
    (forall r, m <> Bridge.Begin r) -> duplex_step d (Duplex (to_engine d) s).

Lemma endpoint_call_steps i o c i' o' :
  endpoint_call i o c = Some (i', o') -> rtc Bridge.step i i' /\ rtc Bridge.step o o'.
Proof.
  assert (forall s r s', Bridge.begin s r = Some s' -> rtc Bridge.step s s') as Hb.
  { intros s r s' Hs. apply rtc_once. by exists (Bridge.Begin r). }
  destruct c as [room|input| | |]; unfold endpoint_call, mbind, option_bind.
  - destruct (Bridge.begin i (Bridge.PollRead room)) eqn:E; [|done]. intros [= <- <-]. eauto using rtc_refl.
  - destruct (Bridge.begin o (Bridge.PollWrite input)) eqn:E; [|done]. intros [= <- <-]. eauto using rtc_refl.
  - intros [= <- <-]. eauto using rtc_refl.
  - destruct (Bridge.begin o Bridge.Shutdown) eqn:E; [|done]. intros [= <- <-]. eauto using rtc_refl.
  - destruct (Bridge.begin i Bridge.DropReader) eqn:Ei; [|done].
    destruct (Bridge.begin o Bridge.DropWriter) eqn:Eo; [|done]. intros [= <- <-]. eauto.
Qed.

Lemma duplex_step_pipes d d' :
  duplex_step d d' -> rtc Bridge.step (to_engine d) (to_engine d') /\ rtc Bridge.step (to_worker d) (to_worker d').
Proof.
  intros [d0 c d1 H|d0 c d1 H|d0 s m H _|d0 s m H _]; simpl.
  - unfold engine_io in H. destruct (endpoint_call (to_engine d0) (to_worker d0) c) as [[i o]|] eqn:E; [|done].
    injection H as <-. by apply endpoint_call_steps in E.
  - unfold worker_io in H. destruct (endpoint_call (to_worker d0) (to_engine d0) c) as [[i o]|] eqn:E; [|done].
    injection H as <-. apply endpoint_call_steps in E as []. done.
  - split; [|apply rtc_refl]. apply rtc_once. by exists m.
  - split; [apply rtc_refl|]. apply rtc_once. by exists m.
Qed.

Lemma duplex_reachable chunks chunk d :
  rtc duplex_step (pair chunks chunk) d ->
  Bridge.reachable chunks chunk (to_engine d) /\ Bridge.reachable chunks chunk (to_worker d).
Proof.
  intros Hr. change (rtc Bridge.step (to_engine (pair chunks chunk)) (to_engine d) /\
    rtc Bridge.step (to_worker (pair chunks chunk)) (to_worker d)).
  induction Hr as [|d0 d1 d2 Hs _ [IH1 IH2]]; [split; apply rtc_refl|].
  apply duplex_step_pipes in Hs as [H1 H2]. split; by etransitivity.
Qed.

(** What one end of a pair has read is the beginning of what the other end has
    written, in both directions and under every interleaving of their threads; the
    rest is on its way, in at most [queue_chunks] chunks and the one being read. *)
Theorem pair_fifo chunks chunk d :
  rtc duplex_step (pair chunks chunk) d ->
  (exists way, Bridge.sent (to_worker d) = Bridge.got (to_worker d) ++ way /\
     way = Bridge.current (to_worker d) ++ concat (Bridge.Pipe.queue (Bridge.pipe (to_worker d)))) /\
  (exists way, Bridge.sent (to_engine d) = Bridge.got (to_engine d) ++ way /\
     way = Bridge.current (to_engine d) ++ concat (Bridge.Pipe.queue (Bridge.pipe (to_engine d)))).
Proof.
  intros [[Hb _ _ _ _]%Bridge.inv_reachable [Hb' _ _ _ _]%Bridge.inv_reachable]%duplex_reachable.
  split; eexists; (split; [eassumption|reflexivity]).
Qed.

(** * The worker of a server *)

(** What a session's task holds: the handler, whether russh has accepted an
    authentication, and whether the task is over. *)
Module Task.
Record t `{SshKeys} := mk { handler : ServerHandler.t; accepted : bool; over : bool }.
End Task.

Section server.
Context `{SshKeys}.

(** What a peer shows. *)
Inductive proof_of_identity := ByPassword (password : str) | ByKey (public_key : PublicKey).

(** The calls that russh makes for a session, and the end of its task. *)
Inductive session_call :=
| Authenticate (user : str) (proof : proof_of_identity)
| OpenChannel (id : Z)
| Subsystem (id : Z) (name : str) (stream : Z)
| OtherRequest (id : Z)
| Ends.

Definition accepts (h : ServerHandler.t) (user : str) (p : proof_of_identity) : bool :=
  match p with
  | ByPassword password => auth_password h user password
  | ByKey key => auth_publickey h user key
  end.

(** One call in the task of a session: nothing once it is over, and channels only
    after an authentication.  The instance [s] gets the offers of streams. *)
Definition session_acts (t : Task.t) (s : InstanceState.t) (c : session_call)
    : Task.t * InstanceState.t * list reply :=
  let h := Task.handler t in
  if Task.over t then (t, s, [])
  else match c with
  | Authenticate user proof => (Task.mk _ h (Task.accepted t || accepts h user proof) false, s, [])
  | Ends => (Task.mk _ h (Task.accepted t) true, s, [])
  | _ =>
      if negb (Task.accepted t) then (t, s, [])
      else match c with
      | OpenChannel id =>
          let '(h, r) := channel_open_session h id in (Task.mk _ h true false, s, r)
      | Subsystem id name stream =>
          let '(h, s, r) := subsystem_request h s id name stream in (Task.mk _ h true false, s, r)
      | OtherRequest id => (t, s, other_request id)
      | _ => (t, s, [])
      end
  end.

(** The worker: its instance's side of the channels, the tasks of its [JoinSet], and
    its result once it has returned. *)
Record worker := Worker {
  instance : InstanceState.t;
  sessions : gmap Z Task.t;
  next_session : Z;
  returned : option (result unit unit);
}.

(** What [server_worker] reads from its options before it loops. *)
Record server_config := ServerConfig { limit : Z; new_handler : ServerHandler.t }.

(** The part of [server_worker] before the loop; [binds] is the answer of the
    listening socket. *)
Definition start_server (o : Options.t) (binds : bool) : result unit server_config :=
  match o with
  | Options.Connect _ _ _ => Err tt
  | Options.Listen c host_key auth =>
      _ ← ok_or (load_secret_key host_key) tt;
      credential ← ok_or (load_server_credential auth) tt;
      if binds then
        Ok (ServerConfig (Options.max_connections c) (ServerHandler.mk _ (Options.username c) credential ∅))
      else Err tt
  end.

(** The branches of [select], the acts of the tasks, and what the host does
    meanwhile: it sends a command and takes the events.  [Orphaned] is the end of
    the channel of commands, when the instance is gone and nothing is queued. *)
Inductive server_event :=
| Sends (c : WorkerCommand.t)
| Drains
| Command
| Orphaned
| Accepted (socket : result unit unit)
| Joined (id : Z)
| Session (id : Z) (c : session_call).

(** [commands.recv()] when a command is there. *)
Definition take_command (s : InstanceState.t) : InstanceState.t * option WorkerCommand.t :=
  let c := InstanceState.commands s in
  match Channel.queue c with
  | command :: rest =>
      (InstanceState.set_commands s (Channel.mk rest (Channel.capacity c) (Channel.closed c)), Some command)
  | [] => (s, None)
  end.

Definition server_step (cfg : server_config) (w : worker) (e : server_event) : worker :=
  if is_some (returned w) then w
  else match e with
  | Sends c =>
      let '(commands, _) := Channel.try_send (InstanceState.commands (instance w)) c in
      Worker (InstanceState.set_commands (instance w) commands) (sessions w) (next_session w) None
  | Drains => Worker (drain_events (instance w)) (sessions w) (next_session w) None
  | Command =>
      let '(s, command) := take_command (instance w) in
      match command with
      | None => w
      | Some WorkerCommand.Connect => Worker s (sessions w) (next_session w) None
      | Some WorkerCommand.Shutdown => Worker s ∅ (next_session w) (Some (Ok tt))
      end
  | Orphaned => Worker (instance w) ∅ (next_session w) (Some (Ok tt))
  | Accepted (Err _) => Worker (instance w) ∅ (next_session w) (Some (Err tt))
  | Accepted (Ok _) =>
      if admits (Z.of_nat (size (sessions w))) (limit cfg) then
        Worker (instance w) (<[next_session w := Task.mk _ (new_handler cfg) false false]> (sessions w))
          (next_session w + 1) None
      else w
  | Joined id =>
      match sessions w !! id with
      | Some t => if Task.over t then Worker (instance w) (delete id (sessions w)) (next_session w) None else w
      | None => w
      end
  | Session id c =>
      match sessions w !! id with
      | None => w
      | Some t =>
          let '(t, s, _) := session_acts t (instance w) c in
          Worker s (<[id := t]> (sessions w)) (next_session w) None
      end
  end.

Definition server_run (cfg : server_config) (s : InstanceState.t) (l : list server_event) : worker :=
  fold_left (server_step cfg) l (Worker s ∅ 0 None).

(** * The worker of a client *)

(** What happens around [client_worker]: the host sends a command or takes the
    events, the worker takes a command, an attempt ends. *)
Inductive client_event := HostSends (c : WorkerCommand.t) | HostDrains | TakesCommand | Attempt (e : session_env).

Definition client_step (o : Options.t) (s : InstanceState.t) (e : client_event) : InstanceState.t :=
  match e with
  | HostSends c => InstanceState.set_commands s (Channel.try_send (InstanceState.commands s) c).1
  | HostDrains => drain_events s
  | TakesCommand => worker_recv s
  | Attempt e => worker_report s (run_client_session o e).2
  end.

Definition client_worker (o : Options.t) (s : InstanceState.t) (l : list client_event) : InstanceState.t :=
  fold_left (client_step o) l s.

(** * [worker_main] *)

(** Without a runtime, or when the worker has failed, the instance is told. *)
Definition worker_main (o : Options.t) (s : InstanceState.t) (runtime binds : bool)
    (client : list client_event) (server : list server_event) : InstanceState.t :=
  if negb runtime then (send_event s WorkerEvent.Fatal).1
  else match o with
  | Options.Connect _ _ _ => client_worker o s client
  | Options.Listen _ _ _ =>
      match start_server o binds with
      | Err _ => (send_event s WorkerEvent.Fatal).1
      | Ok cfg =>
          let w := server_run cfg s server in
          match returned w with
          | Some (Err _) => (send_event (instance w) WorkerEvent.Fatal).1
          | _ => instance w
          end
      end
  end.

(** ** Who the streams come from *)

(** The streams that the worker has offered and the host has not handed out. *)
Definition offered (s : InstanceState.t) (stream : Z) : Prop :=
  stream ∈ InstanceState.ready s \/ WorkerEvent.Ready stream ∈ Channel.queue (InstanceState.events s).

(** The stream was asked for in a session whose peer had shown what the handler
    accepts. *)
Definition authentic (cfg : server_config) (l : list server_event) (stream : Z) : Prop :=
  exists before after id channel user proof,
    l = before ++ Session id (Subsystem channel #"snolc" stream) :: after /\
    Session id (Authenticate user proof) ∈ before /\ accepts (new_handler cfg) user proof = true.

Lemma authentic_snoc cfg l e stream : authentic cfg l stream -> authentic cfg (l ++ [e]) stream.
Proof.
  intros (before & after & id & ch & user & proof & -> & Hin & Ha).
  exists before, (after ++ [e]), id, ch, user, proof. by rewrite <- app_assoc.
Qed.

(** What is known of a session's task. *)
Definition task_ok (cfg : server_config) (l : list server_event) (id : Z) (t : Task.t) : Prop :=
  (exists channels, Task.handler t = set_channels (new_handler cfg) channels) /\
  (Task.accepted t = true ->
   exists user proof, Session id (Authenticate user proof) ∈ l /\ accepts (new_handler cfg) user proof = true).

Definition worker_ok (cfg : server_config) (l : list server_event) (w : worker) : Prop :=
  (forall id t, sessions w !! id = Some t -> task_ok cfg l id t) /\
  (forall stream, offered (instance w) stream -> authentic cfg l stream) /\
  Z.of_nat (size (sessions w)) <= limit cfg.

Lemma task_ok_snoc cfg l e id t : task_ok cfg l id t -> task_ok cfg (l ++ [e]) id t.
Proof.
  intros [Hh Ha]. split; [done|]. intros Hacc. destruct (Ha Hacc) as (user & proof & Hin & Hok).
  exists user, proof. split; [|done]. apply elem_of_app. by left.
Qed.

Lemma worker_ok_snoc cfg l e w : worker_ok cfg l w -> worker_ok cfg (l ++ [e]) w.
Proof.
  intros (Ht & Ho & Hl). split_and!; [|by intros; apply authentic_snoc, Ho|done].
  intros id t Hid. by apply task_ok_snoc, Ht.
Qed.

Lemma drain_fold_offered q s stream :
  stream ∈ InstanceState.ready (fold_left drain_event q s) ->
  stream ∈ InstanceState.ready s \/ WorkerEvent.Ready stream ∈ q.
Proof.
  revert s. induction q as [|e q IH]; intros s; simpl; [by left|]. intros Hin. apply IH in Hin as [Hin|Hin].
  - destruct e as [x| |]; simpl in Hin; [|by left..]. apply elem_of_app in Hin as [Hin|Hin]; [by left|].
    apply list_elem_of_singleton in Hin as ->. right. left.
  - right. by right.
Qed.

Lemma drain_fold_queue q s : Channel.queue (InstanceState.events (fold_left drain_event q s)) =
  Channel.queue (InstanceState.events s).
Proof. revert s. induction q as [|e q IH]; intros s; simpl; [done|]. rewrite IH. by destruct e. Qed.

Lemma drain_events_offered s stream : offered (drain_events s) stream -> offered s stream.
Proof.
  unfold drain_events, offered. set (s0 := InstanceState.set_events _ _).
  assert (forall f, (f = InstanceState.set_failed \/ f = id) -> forall x,
    x ∈ InstanceState.ready (f (fold_left drain_event (Channel.queue (InstanceState.events s)) s0)) \/
    WorkerEvent.Ready x ∈ Channel.queue (InstanceState.events
      (f (fold_left drain_event (Channel.queue (InstanceState.events s)) s0))) -> offered s x) as Hx.
  { intros f Hf x Hx. destruct Hf as [-> | ->]; simpl in Hx; rewrite drain_fold_queue in Hx;
      destruct Hx as [Hx|Hx%elem_of_nil]; try done; by apply drain_fold_offered in Hx. }
  destruct (Channel.closed _); intros Ho; [by apply (Hx InstanceState.set_failed); [left|]|].
  by apply (Hx id); [right|].
Qed.

Lemma send_event_offered s e stream :
  offered (send_event s e).1 stream -> offered s stream \/ e = WorkerEvent.Ready stream.
Proof.
  unfold send_event, offered, Channel.try_send. destruct (Channel.closed _); simpl; [by left|].
  case_if; simpl; [|by left]. rewrite elem_of_app, list_elem_of_singleton. naive_solver.
Qed.

Lemma accepts_set_channels h channels user proof : accepts (set_channels h channels) user proof = accepts h user proof.
Proof. by destruct proof. Qed.

Lemma session_acts_ok cfg l id t s c t' s' r :
  task_ok cfg l id t -> (forall x, offered s x -> authentic cfg l x) -> session_acts t s c = (t', s', r) ->
  task_ok cfg (l ++ [Session id c]) id t' /\ forall x, offered s' x -> authentic cfg (l ++ [Session id c]) x.
Proof.
  intros Ht Ho. pose proof (task_ok_snoc cfg l (Session id c) id t Ht) as Ht'.
  assert (forall x, offered s x -> authentic cfg (l ++ [Session id c]) x) as Ho'
    by (intros; by apply authentic_snoc, Ho).
  unfold session_acts. case_if; [by intros [= <- <- <-]|]. pose proof Ht' as [[channels Hh] Ha].
  assert (forall h b, (exists channels, h = set_channels (new_handler cfg) channels) ->
    task_ok cfg (l ++ [Session id c]) id (Task.mk _ h (Task.accepted t) b)) as Hmk by (intros h b Hx; by split).
  destruct c as [user proof|ch|ch name stream|ch|].
  - intros [= <- <- <-]. split; [|done]. split; [by exists channels|]. simpl. intros [Hacc|Hacc]%orb_prop; [by apply Ha|].
    exists user, proof. split; [apply elem_of_app; right; left|]. by rewrite Hh, accepts_set_channels in Hacc.
  - destruct (Task.accepted t) eqn:Eacc; simpl; [|by intros [= <- <- <-]].
    unfold channel_open_session. case_bool_decide; intros [= <- <- <-]; (split; [|done]); apply Hmk; rewrite Hh; by eexists.
  - destruct (Task.accepted t) eqn:Eacc; simpl; [|by intros [= <- <- <-]].
    unfold subsystem_request. case_bool_decide; simpl; [|intros [= <- <- <-]; split; [apply Hmk; eauto|done]].
    case_bool_decide as Hname; simpl; [|intros [= <- <- <-]; split; [apply Hmk; rewrite Hh; by eexists|done]].
    destruct (send_event s (WorkerEvent.Ready stream)) as [s1 sent] eqn:Es.
    assert (forall x, offered s1 x -> authentic cfg (l ++ [Session id (Subsystem ch name stream)]) x) as Hs1.
    { intros x Hx. assert (s1 = (send_event s (WorkerEvent.Ready stream)).1) as -> by (by rewrite Es).
      apply send_event_offered in Hx as [Hx|[= ->]]; [by apply Ho'|].
      destruct Ht as [_ Ha']. destruct (Ha' Eacc) as (user & proof & Hin & Hacc).
      exists l, [], id, ch, user, proof. by rewrite Hname. }
    destruct sent; intros [= <- <- <-]; (split; [apply Hmk; rewrite Hh; by eexists|done]).
  - destruct (Task.accepted t) eqn:Eacc; simpl; by intros [= <- <- <-].
  - intros [= <- <- <-]. split; [|done]. apply Hmk. by eexists.
Qed.

Lemma worker_ok_empty cfg l s n r : 0 <= limit cfg ->
  (forall x, offered s x -> authentic cfg l x) -> worker_ok cfg l (Worker s ∅ n r).
Proof. intros Hl Ho. split_and!; simpl; [by intros id t ?%lookup_empty_Some|done|by rewrite map_size_empty]. Qed.

Lemma take_command_offered s x : offered (take_command s).1 x <-> offered s x.
Proof. unfold take_command, offered. by destruct (Channel.queue (InstanceState.commands s)). Qed.

Lemma server_step_ok cfg l w e : 0 <= limit cfg -> worker_ok cfg l w -> worker_ok cfg (l ++ [e]) (server_step cfg w e).
Proof.
  intros Hl0 Hw. pose proof (worker_ok_snoc cfg l e w Hw) as Hw'. pose proof Hw' as (Ht & Ho & Hl).
  unfold server_step. case_if; [done|]. destruct e as [c| | | |[u|u]|id|id c].
  - unfold Channel.try_send. by repeat case_if.
  - split_and!; simpl; [done| |done]. intros x Hx. by apply Ho, drain_events_offered.
  - pose proof (take_command_offered (instance w)) as Hoff. destruct (take_command (instance w)) as [s command].
    simpl in Hoff. destruct command as [[]|]; [|by apply worker_ok_empty; naive_solver|done].
    split_and!; simpl; [done|naive_solver|done].
  - by apply worker_ok_empty.
  - unfold admits. case_if; [|done]. split_and!; simpl; [|done|].
    + intros id t [[<- <-]|[_ Hid]]%lookup_insert_Some; [|by apply Ht].
      split; [|done]. exists (ServerHandler.channels (new_handler cfg)). simpl. by destruct (new_handler cfg).
    + bools. rewrite map_size_insert. destruct (sessions w !! next_session w); simpl; lia.
  - by apply worker_ok_empty.
  - destruct (sessions w !! id) as [t|] eqn:E; [|done]. case_if; [|done]. split_and!; simpl; [|done|].
    + intros id' t' [_ Hid]%lookup_delete_Some. by apply Ht.
    + rewrite map_size_delete, E. lia.
  - destruct (sessions w !! id) as [t|] eqn:E; [|done].
    destruct (session_acts t (instance w) c) as [[t' s'] r] eqn:Ea.
    destruct Hw as (Ht0 & Ho0 & _). destruct (session_acts_ok cfg l id t _ c t' s' r (Ht0 id t E) Ho0 Ea) as [Ht1 Ho1].
    split_and!; simpl; [|done|by rewrite map_size_insert, E].
    intros id' t1 [[<- <-]|[_ Hid]]%lookup_insert_Some; [done|by apply Ht].
Qed.

Lemma server_run_ok cfg s l : 0 <= limit cfg -> (forall x, ~ offered s x) -> worker_ok cfg l (server_run cfg s l).
Proof.
  intros Hl Hs. unfold server_run. induction l as [|e l IH] using rev_ind; simpl.
  - apply worker_ok_empty; [done|]. intros x Hx. by destruct (Hs x).
  - rewrite fold_left_app. simpl. by apply server_step_ok.
Qed.

(** The worker's instance is never told of a stream that [worker_main] did not get
    from a session of the server. *)
Lemma worker_main_offered o s runtime binds client server x :
  (forall x, ~ offered s x) -> Options.is_client o = false ->
  offered (worker_main o s runtime binds client server) x ->
  exists cfg, start_server o binds = Ok cfg /\ offered (instance (server_run cfg s server)) x.
Proof.
  intros Hs Ho. unfold worker_main. destruct runtime; simpl.
  2: { intros [Hx|Hx]%send_event_offered; [by destruct (Hs x)|done]. }
  destruct o as [|c host_key auth]; [done|]. destruct (start_server _ binds) as [cfg|e].
  2: { intros [Hx|Hx]%send_event_offered; [by destruct (Hs x)|done]. }
  intros Hx. exists cfg. split; [done|]. revert Hx. destruct (returned _) as [[]|]; [done| |done].
  by intros [Hx|Hx]%send_event_offered.
Qed.

(** C21: A server of carrier-ssh offers only streams of peers that showed the
    configured credential, and keeps its limit on sessions.  Over every run of
    [worker_main], whatever the order in which sockets are accepted, sessions
    authenticate, open channels and end, commands arrive and events are taken: a
    stream that the instance is offered was asked for as the subsystem "snolc" in a
    session whose peer had before given the configured user name together with the
    configured password or the configured key; and never more than
    [max_connections] sessions run. *)
Theorem ssh_server_authentic c host_key auth s runtime binds client server :
  (forall x, ~ offered s x) -> 0 <= Options.max_connections c ->
  let o := Options.Listen c host_key auth in
  (forall cfg n, start_server o binds = Ok cfg ->
     Z.of_nat (size (sessions (server_run cfg s (take n server)))) <= Options.max_connections c) /\
  (forall stream, offered (worker_main o s runtime binds client server) stream ->
     exists before after id channel user proof,
       server = before ++ Session id (Subsystem channel #"snolc" stream) :: after /\
       Session id (Authenticate user proof) ∈ before /\ user = Options.username c /\
       match auth with
       | ServerAuth.Password password => proof = ByPassword password
       | ServerAuth.Ed25519 path => exists key, load_public_key path = Some key /\ proof = ByKey key
       end).
Proof.
  intros Hs Hc o. assert (forall cfg, start_server o binds = Ok cfg -> exists credential,
    load_server_credential auth = Some credential /\ limit cfg = Options.max_connections c /\
    new_handler cfg = ServerHandler.mk _ (Options.username c) credential ∅) as Hstart.
  { intros cfg Hcfg. simpl in Hcfg. apply bind_Ok in Hcfg as (k & _ & (cr & Hcr & Hb)%bind_Ok).
    destruct (load_server_credential auth) as [credential|]; [|done]. injection Hcr as ->.
    destruct binds; [|done]. injection Hb as <-. by exists cr. }
  split.
  - intros cfg n Hcfg. destruct (Hstart cfg Hcfg) as (cr & _ & Hl & _). rewrite <- Hl.
    apply (server_run_ok cfg s (take n server)); [lia|done].
  - intros stream Ho. apply worker_main_offered in Ho as (cfg & Hcfg & Ho); [|done..].
    destruct (Hstart cfg Hcfg) as (cr & Hcr & Hl & Hh).
    destruct (server_run_ok cfg s server) as (_ & Hauth & _); [lia|done|].
    destruct (Hauth stream Ho) as (before & after & id & ch & user & proof & -> & Hin & Hacc).
    exists before, after, id, ch, user, proof. rewrite Hh in Hacc. unfold accepts, auth_password, auth_publickey in Hacc.
    simpl in Hacc. destruct auth as [password|path]; simpl in Hcr.
    + injection Hcr as <-. destruct proof; [|done]. apply andb_prop in Hacc as [H1%bool_decide_eq_true H2%bool_decide_eq_true].
      by subst.
    + destruct (load_public_key path) as [key|]; [|done]. injection Hcr as <-. destruct proof; [done|].
      apply andb_prop in Hacc as [H1%bool_decide_eq_true H2%bool_decide_eq_true]. subst. eauto 6.
Qed.

(** One failing [accept] ends the server: its sessions are gone, and the instance
    is told that the carrier has failed. *)
Lemma accept_error_ends cfg w :
  returned w = None ->
  let w' := server_step cfg w (Accepted (Err tt)) in
  sessions w' = ∅ /\ returned w' = Some (Err tt) /\
  forall e, server_step cfg w' e = w'.
Proof. intros Hr. unfold server_step. rewrite Hr. done. Qed.
End server.

(** * An example *)
Section example.
#[local] Instance text_keys : SshKeys :=
  {| PublicKey := str; SecretKey := str; load_public_key p := Some p; load_secret_key p := Some p;
     public_ed25519 _ := true; secret_ed25519 _ := true |}.

Definition small_server : Options.common :=
  Options.mkCommon (SocketAddr.V4 0x0a000001 22) #"snolc" 1 4 1024 60000.
Definition idle_instance : InstanceState.t :=
  InstanceState.mk (Channel.mk [] 4 false) (Channel.mk [] 4 false) [] 0 false false false 0 1 None None 0.

(** The second socket is turned away, a wrong password opens no channel, and the
    stream is offered after the right one. *)
Definition visit : list server_event :=
  [Accepted (Ok tt); Accepted (Ok tt); Session 0 (Authenticate #"snolc" (ByPassword #"wrong"));
   Session 0 (OpenChannel 1); Session 0 (Authenticate #"snolc" (ByPassword #"secret"));
   Session 0 (OpenChannel 2); Session 0 (Subsystem 2 #"snolc" 100); Drains].

Definition visited : InstanceState.t :=
  worker_main (Options.Listen small_server #"/key" (ServerAuth.Password #"secret")) idle_instance true true [] visit.

Lemma ssh_server_authentic_witness :
  InstanceState.ready visited = [100] /\
  exists before after id channel,
    visit = before ++ Session id (Subsystem channel #"snolc" 100) :: after /\
    Session id (Authenticate #"snolc" (ByPassword #"secret")) ∈ before.
Proof.
  unfold visited. set (w := worker_main _ _ _ _ _ _).
  assert (InstanceState.ready w = [100]) as Hr by (vm_compute; reflexivity). split; [exact Hr|].
  destruct (ssh_server_authentic small_server #"/key" (ServerAuth.Password #"secret") idle_instance true true [] visit)
    as [_ Ho].
  - intros x [Hx|Hx]; simpl in Hx; by apply elem_of_nil in Hx.
  - vm_compute. discriminate.
  - cbv zeta in Ho. fold w in Ho. assert (offered w 100) as Hv by (left; rewrite Hr; left).
    destruct (Ho 100 Hv) as (before & after & id & channel & user & proof & E & Hin & -> & ->).
    exists before, after, id, channel. split; [exact E|exact Hin].
Defined.
End example.
