(* ===== verification/Direct.v ===== *)
(** adapter-direct (modules/adapter-direct/src/lib.rs): flows straight to their
    destination.  A destination is resolved first, its addresses are reported to
    the host, and a flow is opened to one of those addresses.

    Resolving and connecting are done by a worker thread, which takes requests
    from a bounded channel and answers each on a channel of its own.  Both sides
    are modelled; the answer to a request is kept under the name of its channel.
    The system (name resolution, sockets, clock) and the pumps are arguments. *)
From Stdlib Require Import Strings.Byte.
From S2P Require Import Prelude Text Net Admin Abi Socket Wake Tcp.
#[local] Open Scope Z_scope.

(** [MAX_RESOLVED_ADDRESSES] of the SDK. *)
Class ResolvedLimit := { MAX_RESOLVED_ADDRESSES : Z }.

Module DirectError.
Inductive t := InvalidConfig | InvalidDestination | Resource | Timeout | Stale | Stopped | NoAddress | Denied | Io.
#[global] Instance eq_dec : EqDecision t.
Proof. solve_decision. Defined.
End DirectError.

Definition error_status (e : DirectError.t) : Status.t :=
  match e with
  | DirectError.Denied => Status.DENIED
  | DirectError.InvalidConfig | DirectError.InvalidDestination | DirectError.Stale => Status.INVALID
  | DirectError.Resource => Status.RESOURCE
  | DirectError.Timeout | DirectError.Stopped | DirectError.NoAddress | DirectError.Io => Status.IO
  end.

(** * The resolver for callers that wait *)

Module SystemResolver.
(** [sender]: whether it is still there; the worker's queue is the system's. *)
Record t := mk { sender : bool; generation : Z }.

(** [new]; [spawns] says whether the thread can be started. *)
Definition new (queue_capacity : Z) (spawns : bool) : result DirectError.t t :=
  if queue_capacity =? 0 then Err DirectError.InvalidConfig
  else if spawns then Ok (mk true 1) else Err DirectError.Io.

(** What the worker answers within the timeout: the generation it was asked with
    and the addresses. *)
Record response := mkResponse { res_generation : Z; res_result : result unit (list SocketAddr.t) }.

(** [resolve]; [queued] says whether the request fits the queue. *)
Definition resolve (r : t) (domain : str) (port timeout : Z) (queued : bool) (answer : option response)
    : t * result DirectError.t (list SocketAddr.t) :=
  if bool_decide (domain = []) || (port =? 0) || (timeout =? 0) then (r, Err DirectError.InvalidDestination)
  else
    let '(generation, next) := fetch_add (generation r) in
    let r := mk (sender r) next in
    (r,
     if generation =? 0 then Err DirectError.Resource
     else if negb (sender r) then Err DirectError.Stopped
     else if negb queued then Err DirectError.Resource
     else match answer with
     | None => Err DirectError.Timeout
     | Some a =>
         if negb (res_generation a =? generation) then Err DirectError.Stale
         else match res_result a with
         | Err _ => Err DirectError.Io
         | Ok addresses =>
             let addresses := dedup (sort_addrs addresses) in
             if bool_decide (addresses = []) then Err DirectError.NoAddress else Ok addresses
         end
     end).
End SystemResolver.

(** * Sockets *)

Module Endpoint.
Inductive t := Tcp (s : tcp_stream) | Udp (s : tcp_stream).
Definition peer (e : t) : SocketAddr.t := match e with Tcp s | Udp s => peer s end.
End Endpoint.

Inductive flow_kind := FLOW_TCP | FLOW_UDP | FLOW_OTHER.
#[global] Instance flow_kind_eq_dec : EqDecision flow_kind.
Proof. solve_decision. Defined.

(** One round of the loop of [wait_connected]: the time, and what [poll] then
    answers. *)
Inductive poll_answer := Writable | PollTimeout | Interrupted | PollFails.

(** [wait_connected] from [start] on, in milliseconds; the rounds end when the
    loop does. *)
Fixpoint wait_rounds (deadline : Z) (rounds : list (Z * poll_answer)) : bool :=
  match rounds with
  | [] => false
  | (now, answer) :: rounds =>
      if saturating_sub deadline now =? 0 then false
      else match answer with
      | Writable => true
      | PollTimeout | PollFails => false
      | Interrupted => wait_rounds deadline rounds
      end
  end.
Definition wait_connected (start timeout : Z) (overflows : bool) (rounds : list (Z * poll_answer)) : bool :=
  if overflows then false else wait_rounds (start + timeout) rounds.

(** What connecting to one address meets. *)
Record attempt := mkAttempt {
  at_socket : option Z;
  at_protects : bool;
  at_connects : connect_answer;
  at_start : Z;
  at_overflows : bool;
  at_rounds : list (Z * poll_answer);
  at_no_error : bool;
}.

(** [connect_tcp], for Linux and Android. *)
Definition connect_tcp (address : SocketAddr.t) (timeout : Z) (n : attempt) : list call * option tcp_stream :=
  match at_socket n with
  | None => ([], None)
  | Some raw =>
      let opened := [Socket (SocketAddr.is_ipv4 address) raw; Protect raw (at_protects n)] in
      if negb (at_protects n) then (opened, None)
      else
        let calls := opened ++ [ConnectTo raw (to_sockaddr address)] in
        let connected :=
          match at_connects n with
          | Connected => true
          | Refused => false
          | InProgress => wait_connected (at_start n) timeout (at_overflows n) (at_rounds n)
          end in
        (calls, if connected && at_no_error n then Some (mkStream raw address) else None)
  end.

(** [connect_udp]: the socket is bound for the family of the address. *)
Definition connect_udp (address : SocketAddr.t) (n : attempt) : list call * option tcp_stream :=
  match at_socket n with
  | None => ([], None)
  | Some raw =>
      let opened := [Socket (SocketAddr.is_ipv4 address) raw; Protect raw (at_protects n)] in
      if negb (at_protects n) then (opened, None)
      else
        (opened ++ [ConnectTo raw (to_sockaddr address)],
         match at_connects n with Connected => Some (mkStream raw address) | _ => None end)
  end.

(** [connect_addresses]: the calls made, and the first address that answers. *)
Fixpoint connect_each (kind : flow_kind) (timeout : Z) (env : SocketAddr.t -> attempt)
    (addresses : list SocketAddr.t) (last : DirectError.t) : list call * result DirectError.t Endpoint.t :=
  match addresses with
  | [] => ([], Err last)
  | a :: addresses =>
      let '(calls, r) :=
        match kind with
        | FLOW_TCP => let '(c, s) := connect_tcp a timeout (env a) in (c, Endpoint.Tcp <$> s)
        | _ => let '(c, s) := connect_udp a (env a) in (c, Endpoint.Udp <$> s)
        end in
      match r with
      | Some endpoint => (calls, Ok endpoint)
      | None =>
          let '(more, r) := connect_each kind timeout env addresses DirectError.Io in (calls ++ more, r)
      end
  end.

Definition connect_addresses (kind : flow_kind) (addresses : list SocketAddr.t) (timeout : Z)
    (env : SocketAddr.t -> attempt) : list call * result DirectError.t Endpoint.t :=
  if bool_decide (addresses = []) then ([], Err DirectError.NoAddress)
  else match kind with
  | FLOW_OTHER => ([], Err DirectError.InvalidDestination)
  | _ => connect_each kind timeout env addresses DirectError.NoAddress
  end.

(** [connect_domain], for callers that wait: nothing is tried unless every
    address is allowed. *)
Definition connect_domain (r : SystemResolver.t) (domain : str) (port timeout : Z) (queued : bool)
    (answer : option SystemResolver.response) (allowed : IpAddr.t -> bool) (env : SocketAddr.t -> attempt)
    : SystemResolver.t * list call * result DirectError.t Endpoint.t :=
  match SystemResolver.resolve r domain port timeout queued answer with
  | (r, Err e) => (r, [], Err e)
  | (r, Ok addresses) =>
      if negb (forallb (fun a => allowed (SocketAddr.ip a)) addresses) then (r, [], Err DirectError.Denied)
      else let '(calls, e) := connect_each FLOW_TCP timeout env addresses DirectError.NoAddress in (r, calls, e)
  end.

(** [resolve_destination]; [lookup] is what the system answers. *)
Definition resolve_destination (lookup : option (list SocketAddr.t)) (max_addresses : Z)
    : result DirectError.t (list SocketAddr.t) :=
  match lookup with
  | None => Err DirectError.Io
  | Some l =>
      let addresses := dedup (sort_addrs (take (Z.to_nat (max_addresses + 1)) l)) in
      if bool_decide (addresses = []) then Err DirectError.NoAddress
      else if max_addresses <? len addresses then Err DirectError.Resource
      else Ok addresses
  end.

(** * The instance *)

Module DnsMode.
Inductive t := System | RejectDomains.
#[global] Instance eq_dec : EqDecision t.
Proof. solve_decision. Defined.
End DnsMode.

Module Options.
Record t := mk {
  dns_mode : DnsMode.t;
  max_pending_opens : Z;
  max_resolved_addresses : Z;
  resolve_timeout_ms : Z;
  connect_timeout_ms : Z;
}.
End Options.

Definition parse_options `{ResolvedLimit, Toml Options.t} (config : bytes) : option Options.t :=
  text ← from_utf8 config;
  o ← toml_from_str text;
  if (Options.max_pending_opens o =? 0) || (Options.max_resolved_addresses o =? 0)
     || (MAX_RESOLVED_ADDRESSES <? Options.max_resolved_addresses o)
     || (Options.resolve_timeout_ms o =? 0) || (Options.connect_timeout_ms o =? 0)
  then None else Some o.

(** The metadata of a flow. *)
Inductive address_kind := ADDRESS_IPV4 | ADDRESS_IPV6 | ADDRESS_DOMAIN | ADDRESS_OTHER.
Record metadata := mkMetadata { kind : flow_kind; address_type : address_kind; address : bytes; port : Z }.

Module Destination.
Inductive t := Ip (a : SocketAddr.t) | Domain (domain : str) (port : Z).
End Destination.

Definition owned_destination (m : metadata) : result Status.t Destination.t :=
  match address_type m with
  | ADDRESS_IPV4 =>
      if Nat.eqb (length (address m)) 4
      then Ok (Destination.Ip (SocketAddr.new (IpAddr.V4 (of_be (address m))) (port m)))
      else Err Status.INVALID
  | ADDRESS_IPV6 =>
      if Nat.eqb (length (address m)) 16
      then Ok (Destination.Ip (SocketAddr.new (IpAddr.V6 (of_be (address m))) (port m)))
      else Err Status.INVALID
  | ADDRESS_DOMAIN =>
      domain ← ok_or (from_utf8 (address m)) Status.INVALID;
      Ok (Destination.Domain domain (port m))
  | ADDRESS_OTHER => Err Status.INVALID
  end.

(** The channel of an answer: the operation it is for, and a serial number. *)
Definition chan : Type := Z * Z.

Module WorkerRequest.
Inductive t :=
| Resolve (domain : str) (port max_addresses : Z) (response : chan) (wake : option SnolWakeHandle.t)
| Connect (kind : flow_kind) (addresses : list SocketAddr.t) (connect_timeout : Z) (response : chan)
    (wake : option SnolWakeHandle.t).
Definition wake (r : t) : option SnolWakeHandle.t := match r with Resolve _ _ _ _ w | Connect _ _ _ _ w => w end.
End WorkerRequest.

Definition retain_wake (w : SnolWakeHandle.t) : result Status.t (option SnolWakeHandle.t) * list event :=
  match SnolWakeHandle.retain w, SnolWakeHandle.release w with
  | Some true, true => (Ok (Some w), [Retained (SnolWakeHandle.context w)])
  | Some false, true => (Err Status.INTERNAL, [])
  | None, false => (Ok None, [])
  | _, _ => (Err Status.INVALID, [])
  end.

Definition release_wake (w : option SnolWakeHandle.t) : list event :=
  match w with
  | Some w => if SnolWakeHandle.release w then [Released (SnolWakeHandle.context w)] else []
  | None => []
  end.

Definition wake_worker (w : option SnolWakeHandle.t) : list event :=
  match w with
  | Some w => if SnolWakeHandle.wake w then [Woken (SnolWakeHandle.context w)] else []
  | None => []
  end.

Module State.
Record t := mk {
  options : Options.t;
  (** The requests the worker has not taken, and whether the worker is gone. *)
  queue : list WorkerRequest.t;
  dead : bool;
  (** The answers that wait in their channels. *)
  resolutions : gmap chan (result DirectError.t (list SocketAddr.t));
  connections : gmap chan (result DirectError.t Endpoint.t);
  next_chan : Z;
  pending_resolutions : gmap Z (chan * Z);
  resolved : gmap Z (list SocketAddr.t);
  pending : gmap Z chan;
  ready : gmap Z Endpoint.t;
  active : gmap Z Endpoint.t;
  active_datagrams : gmap Z Endpoint.t;
  events : list event;
  calls : list call;
}.

Definition init (o : Options.t) : t := mk o [] false ∅ ∅ 0 ∅ ∅ ∅ ∅ ∅ ∅ [] [].

Definition set_pending_resolutions (s : t) (p : gmap Z (chan * Z)) : t :=
  mk (options s) (queue s) (dead s) (resolutions s) (connections s) (next_chan s) p (resolved s)
    (pending s) (ready s) (active s) (active_datagrams s) (events s) (calls s).
Definition set_resolved (s : t) (r : gmap Z (list SocketAddr.t)) : t :=
  mk (options s) (queue s) (dead s) (resolutions s) (connections s) (next_chan s)
    (pending_resolutions s) r (pending s) (ready s) (active s) (active_datagrams s) (events s) (calls s).
Definition set_pending (s : t) (p : gmap Z chan) : t :=
  mk (options s) (queue s) (dead s) (resolutions s) (connections s) (next_chan s)
    (pending_resolutions s) (resolved s) p (ready s) (active s) (active_datagrams s) (events s) (calls s).
Definition set_ready (s : t) (r : gmap Z Endpoint.t) : t :=
  mk (options s) (queue s) (dead s) (resolutions s) (connections s) (next_chan s)
    (pending_resolutions s) (resolved s) (pending s) r (active s) (active_datagrams s) (events s) (calls s).
Definition set_active (s : t) (a d : gmap Z Endpoint.t) : t :=
  mk (options s) (queue s) (dead s) (resolutions s) (connections s) (next_chan s)
    (pending_resolutions s) (resolved s) (pending s) (ready s) a d (events s) (calls s).
Definition emit (s : t) (e : list event) : t :=
  mk (options s) (queue s) (dead s) (resolutions s) (connections s) (next_chan s)
    (pending_resolutions s) (resolved s) (pending s) (ready s) (active s) (active_datagrams s)
    (events s ++ e) (calls s).
Definition send (s : t) (r : WorkerRequest.t) : t :=
  mk (options s) (queue s ++ [r]) (dead s) (resolutions s) (connections s) (next_chan s + 1)
    (pending_resolutions s) (resolved s) (pending s) (ready s) (active s) (active_datagrams s)
    (events s) (calls s).
End State.

(** [try_recv] on a channel. *)
Inductive recv_answer (A : Type) := Got (a : A) | Empty | Disconnected.
Arguments Got {A} _.
Arguments Empty {A}.
Arguments Disconnected {A}.

Definition try_recv {A} (s : State.t) (m : gmap chan A) (c : chan) : recv_answer A :=
  match m !! c with
  | Some a => Got a
  | None => if State.dead s then Disconnected else Empty
  end.

(** The status of [sender.try_send]: a request that is not sent is dropped, and
    its wake handle released. *)
Definition try_send (s : State.t) (r : WorkerRequest.t) (sent : State.t -> State.t)
    : State.t * Status.t :=
  if State.dead s then (State.emit s (release_wake (WorkerRequest.wake r)), Status.IO)
  else if len (State.queue s) <? Options.max_pending_opens (State.options s)
  then (sent (State.send s r), Status.PENDING)
  else (State.emit s (release_wake (WorkerRequest.wake r)), Status.RESOURCE).

Section calls.
(** [write_resolved_addresses] with the host's buffer of this call (it is
    [DirectIo.write_resolved_addresses]). *)
Context (write_resolved_addresses : list IpAddr.t -> Status.t).

(** The host has the addresses when the call answers [OK]: with any other status
    nothing was written. *)
Definition report (s : State.t) (addresses : list SocketAddr.t)
    : State.t * option (list SocketAddr.t) * Status.t :=
  let status := write_resolved_addresses (map SocketAddr.ip addresses) in
  (s, if bool_decide (status = Status.OK) then Some addresses else None, status).

(** A destination that is asked for the first time. *)
Definition start_resolve (s : State.t) (operation : Z) (m : metadata) (w : SnolWakeHandle.t) (now : Z)
    (overflows : bool) : State.t * option (list SocketAddr.t) * Status.t :=
  match owned_destination m with
  | Err status => (s, None, status)
  | Ok (Destination.Ip a) => report (State.set_resolved s (<[operation := [a]]> (State.resolved s))) [a]
  | Ok (Destination.Domain domain port) =>
      if bool_decide (Options.dns_mode (State.options s) = DnsMode.RejectDomains) then (s, None, Status.DENIED)
      else match retain_wake w with
      | (Err status, _) => (s, None, status)
      | (Ok wake, e) =>
          let s := State.emit s e in
          if overflows then (State.emit s (release_wake wake), None, Status.INVALID)
          else
            let c := (operation, State.next_chan s) in
            let deadline := now + Options.resolve_timeout_ms (State.options s) in
            let '(s, status) :=
              try_send s
                (WorkerRequest.Resolve domain port (Options.max_resolved_addresses (State.options s)) c wake)
                (fun s => State.set_pending_resolutions s
                            (<[operation := (c, deadline)]> (State.pending_resolutions s))) in
            (s, None, status)
      end
  end.

(** [resolve]: the addresses the host is given, if any; [now] is the time, and
    [overflows] says that the deadline is out of range. *)
Definition resolve (s : State.t) (operation : Z) (m : result Status.t metadata) (w : SnolWakeHandle.t)
    (written : bool) (now : Z) (overflows : bool) : State.t * option (list SocketAddr.t) * Status.t :=
  if (operation =? 0) || negb written then (s, None, Status.INVALID)
  else match m with
  | Err status => (s, None, status)
  | Ok m =>
      if bool_decide (kind m = FLOW_OTHER) then (s, None, Status.UNSUPPORTED)
      else match State.resolved s !! operation with
      | Some addresses => report s addresses
      | None =>
          match State.pending_resolutions s !! operation with
          | Some (c, deadline) =>
              let without := State.set_pending_resolutions s (delete operation (State.pending_resolutions s)) in
              match try_recv s (State.resolutions s) c with
              | Got (Ok addresses) =>
                  report (State.set_resolved without (<[operation := addresses]> (State.resolved s))) addresses
              | Got (Err e) => (without, None, error_status e)
              | Empty => if deadline <=? now then (without, None, Status.IO) else (s, None, Status.PENDING)
              | Disconnected => (without, None, Status.IO)
              end
          | None =>
              if Options.max_pending_opens (State.options s)
                 <=? Z.of_nat (size (State.pending s)) + Z.of_nat (size (State.pending_resolutions s))
              then (s, None, Status.RESOURCE)
              else start_resolve s operation m w now overflows
          end
      end
  end.
End calls.

(** A flow to addresses that were resolved. *)
Definition start_open (s : State.t) (operation : Z) (k : flow_kind) (w : SnolWakeHandle.t)
    : State.t * option Z * Status.t :=
  match State.resolved s !! operation with
  | None => (s, None, Status.INVALID)
  | Some addresses =>
      match retain_wake w with
      | (Err status, _) => (s, None, status)
      | (Ok wake, e) =>
          let s := State.emit s e in
          let c := (operation, State.next_chan s) in
          let '(s, status) :=
            try_send s
              (WorkerRequest.Connect k addresses (Options.connect_timeout_ms (State.options s)) c wake)
              (fun s => State.set_pending s (<[operation := c]> (State.pending s))) in
          (s, None, status)
      end
  end.

Definition open (s : State.t) (operation : Z) (m : result Status.t metadata) (w : SnolWakeHandle.t)
    (output : bool) : State.t * option Z * Status.t :=
  if operation =? 0 then (s, None, Status.INVALID)
  else match m with
  | Err status => (s, None, status)
  | Ok m =>
      if bool_decide (kind m = FLOW_OTHER) then (s, None, Status.UNSUPPORTED)
      else if negb output then (s, None, Status.INVALID)
      else if is_some (State.ready s !! operation) then (s, Some operation, Status.OK)
      else if is_some (State.active s !! operation) then (s, None, Status.INVALID)
      else match State.pending s !! operation with
      | Some c =>
          let without := State.set_pending s (delete operation (State.pending s)) in
          match try_recv s (State.connections s) c with
          | Got (Ok endpoint) =>
              (State.set_ready without (<[operation := endpoint]> (State.ready s)), Some operation, Status.OK)
          | Got (Err e) => (without, None, error_status e)
          | Empty => (s, None, Status.PENDING)
          | Disconnected => (without, None, Status.IO)
          end
      | None =>
          if Options.max_pending_opens (State.options s)
             <=? Z.of_nat (size (State.pending s)) + Z.of_nat (size (State.pending_resolutions s))
          then (s, None, Status.RESOURCE)
          else start_open s operation (kind m) w
      end
  end.

(** [attach] and [attach_datagram]: the endpoint leaves [ready] whatever follows,
    but for one of the other kind.  [usable] says whether the table of the stack's
    socket can be used, [new] what [DirectFlow::new] or [DirectDatagramFlow::new]
    answers. *)
Definition attach (s : State.t) (flow stack_socket : Z) (usable : bool) (new : result DirectError.t unit)
    : State.t * Status.t :=
  if (flow =? 0) || (stack_socket =? 0) then (s, Status.INVALID)
  else match State.ready s !! flow with
  | None => (s, Status.INVALID)
  | Some endpoint =>
      let s := State.set_resolved s (delete flow (State.resolved s)) in
      match endpoint with
      | Endpoint.Udp _ => (s, Status.INVALID)
      | Endpoint.Tcp _ =>
          let s := State.set_ready s (delete flow (State.ready s)) in
          if negb usable then (s, Status.INVALID)
          else match new with
          | Err e => (s, error_status e)
          | Ok _ =>
              (State.set_active s (<[flow := endpoint]> (State.active s)) (State.active_datagrams s), Status.OK)
          end
      end
  end.

Definition attach_datagram (s : State.t) (flow stack_socket : Z) (usable : bool)
    (new : result DirectError.t unit) : State.t * Status.t :=
  if (flow =? 0) || (stack_socket =? 0) then (s, Status.INVALID)
  else match State.ready s !! flow with
  | None => (s, Status.INVALID)
  | Some endpoint =>
      let s := State.set_resolved s (delete flow (State.resolved s)) in
      match endpoint with
      | Endpoint.Tcp _ => (s, Status.INVALID)
      | Endpoint.Udp _ =>
          let s := State.set_ready s (delete flow (State.ready s)) in
          if negb usable then (s, Status.INVALID)
          else match new with
          | Err e => (s, error_status e)
          | Ok _ =>
              (State.set_active s (State.active s) (<[flow := endpoint]> (State.active_datagrams s)), Status.OK)
          end
      end
  end.

Definition close_flow (s : State.t) (flow : Z) : State.t * Status.t :=
  if flow =? 0 then (s, Status.INVALID)
  else
    let removed :=
      is_some (State.pending_resolutions s !! flow) || is_some (State.resolved s !! flow)
      || is_some (State.pending s !! flow) || is_some (State.ready s !! flow)
      || is_some (State.active s !! flow) || is_some (State.active_datagrams s !! flow) in
    (State.mk (State.options s) (State.queue s) (State.dead s) (State.resolutions s) (State.connections s)
       (State.next_chan s) (delete flow (State.pending_resolutions s)) (delete flow (State.resolved s))
       (delete flow (State.pending s)) (delete flow (State.ready s)) (delete flow (State.active s))
       (delete flow (State.active_datagrams s)) (State.events s) (State.calls s),
     if removed then Status.OK else Status.INVALID).

Definition complete (s : State.t) (flow : Z) (status : Status.t) (reason_length : Z) : State.t * Status.t :=
  if (flow =? 0) || (256 <? reason_length) then (s, Status.INVALID)
  else if bool_decide (status = Status.OK) then (s, Status.OK)
  else close_flow s flow.

(** What the pumps of a flow report. *)
Definition pump_answer := poll (result unit bool).

Definition both (upload download : pump_answer) : poll (result unit bool) :=
  match upload, download with
  | Ready (Ok u), Ready (Ok d) => Ready (Ok (u && d))
  | Ready (Err e), _ | _, Ready (Err e) => Ready (Err e)
  | _, _ => Pending
  end.

Definition poll_flow (pumps : Z -> pump_answer * pump_answer) (handle : Z) (e : Endpoint.t) : option Endpoint.t :=
  match both (pumps handle).1 (pumps handle).2 with
  | Ready (Ok true) | Ready (Err _) => None
  | _ => Some e
  end.

Definition poll_instance (s : State.t) (pumps : Z -> pump_answer * pump_answer) : State.t :=
  State.set_active s (map_imap (poll_flow pumps) (State.active s))
    (map_imap (poll_flow pumps) (State.active_datagrams s)).

(** ** The worker *)

Record system := mkSystem {
  lookup_host : str -> Z -> option (list SocketAddr.t);
  attempts : SocketAddr.t -> attempt;
}.

(** [connect_worker] serves one request. *)
Definition worker_step (s : State.t) (y : system) : State.t :=
  match State.queue s with
  | [] => s
  | r :: queue =>
      let woken := wake_worker (WorkerRequest.wake r) ++ release_wake (WorkerRequest.wake r) in
      match r with
      | WorkerRequest.Resolve domain port max c _ =>
          State.mk (State.options s) queue (State.dead s)
            (<[c := resolve_destination (lookup_host y domain port) max]> (State.resolutions s))
            (State.connections s) (State.next_chan s) (State.pending_resolutions s) (State.resolved s)
            (State.pending s) (State.ready s) (State.active s) (State.active_datagrams s)
            (State.events s ++ woken) (State.calls s)
      | WorkerRequest.Connect k addresses timeout c _ =>
          let '(calls, r) := connect_addresses k addresses timeout (attempts y) in
          State.mk (State.options s) queue (State.dead s) (State.resolutions s)
            (<[c := r]> (State.connections s)) (State.next_chan s) (State.pending_resolutions s)
            (State.resolved s) (State.pending s) (State.ready s) (State.active s)
            (State.active_datagrams s) (State.events s ++ woken) (State.calls s ++ calls)
      end
  end.

(** The worker ends early: the requests it has not served are dropped. *)
Definition worker_dies (s : State.t) : State.t :=
  State.mk (State.options s) [] true (State.resolutions s) (State.connections s) (State.next_chan s)
    (State.pending_resolutions s) (State.resolved s) (State.pending s) (State.ready s) (State.active s)
    (State.active_datagrams s)
    (State.events s ++ concat (map (fun r => release_wake (WorkerRequest.wake r)) (State.queue s)))
    (State.calls s).

(** ** The life of an instance *)

(** [initialize]; [host] is what [HostApi::from_raw] answers, [spawns] whether the
    thread can be started. *)
Definition initialize `{ResolvedLimit, Toml Options.t} (config : bytes) (host : result Status.t unit)
    (spawns : bool) : result Status.t State.t :=
  options ← ok_or (parse_options config) Status.INVALID;
  _ ← host;
  if spawns then Ok (State.init options) else Err Status.IO.

(** [Drop for State]: the channel is closed, and the worker is joined after it has
    served what is queued. *)
Definition drop_state (s : State.t) (y : system) : State.t :=
  Nat.iter (length (State.queue s)) (fun s => worker_step s y) s.

(** [shutdown_instance] and [destroy_instance] over [STATES]: what is left, and the
    state that is dropped. *)
Definition shutdown_instance (m : gmap Z State.t) (instance : Z) (y : system)
    : gmap Z State.t * option State.t * Status.t :=
  (delete instance m, (fun s => drop_state s y) <$> m !! instance,
   if is_some (m !! instance) then Status.OK else Status.INVALID).
Definition destroy_instance (m : gmap Z State.t) (instance : Z) (y : system)
    : gmap Z State.t * option State.t :=
  (delete instance m, (fun s => drop_state s y) <$> m !! instance).

(** ** Datagrams *)

Module UdpIo.
(** The datagram that was received and not delivered yet. *)
Record t := mk { pending : option bytes }.

Inductive recv := Received (data : bytes) | RecvBlocks | RecvFails.

(** What a caller is told: a datagram, or the room that it needs. *)
Inductive answer := Datagram (data : bytes) | BufferTooSmall (n : Z).

Definition poll_recv_datagram (u : t) (r : recv) (room : Z) : t * poll (result unit answer) :=
  let deliver data :=
    if room <? len data then (mk (Some data), Ready (Ok (BufferTooSmall (len data))))
    else (mk None, Ready (Ok (Datagram data))) in
  match pending u with
  | Some data => deliver data
  | None =>
      match r with
      | Received data => deliver data
      | RecvBlocks => (u, Pending)
      | RecvFails => (u, Ready (Err tt))
      end
  end.

Inductive send := Sent (n : Z) | SendBlocks | SendFails.

Definition poll_send_datagram (datagram : bytes) (a : send) : poll (result unit unit) :=
  match a with
  | Sent n => if n =? len datagram then Ready (Ok tt) else Ready (Err tt)
  | SendBlocks => Pending
  | SendFails => Ready (Err tt)
  end.
End UdpIo.
