(* ===== verification/DirectFacts.v ===== *)
(** What adapter-direct guarantees: a flow is only ever opened to an address that
    was reported for it, the work that is pending is bounded, sockets are protected
    before they are connected, wake handles are released, and datagrams are
    neither lost nor repeated. *)
From Stdlib Require Import Strings.Byte.
From S2P Require Import Prelude Text Net Admin Abi Socket Wake Tcp Direct.
#[local] Open Scope Z_scope.

(** * The worker's functions *)

Lemma resolve_destination_ok lookup max l :
  resolve_destination lookup max = Ok l ->
  l <> [] /\ len l <= max /\ exists answers, lookup = Some answers /\ forall a, a ∈ l -> a ∈ answers.
Proof.
  unfold resolve_destination. destruct lookup as [answers|]; [|done].
  case_if; [done|]. case_if; [done|]. intros [= <-]. split_and!; [done|lia|].
  exists answers. split; [done|]. intros a. rewrite elem_dedup, elem_sort_addrs.
  intros (i & Hi & _)%elem_of_take. by eapply list_elem_of_lookup_2.
Qed.

Lemma protected_nil : protected [].
Proof. by intros [] ? ? ?. Qed.

Lemma protected_connect_to a raw :
  protected [Socket (SocketAddr.is_ipv4 a) raw; Protect raw true; ConnectTo raw (to_sockaddr a)].
Proof.
  intros pre fd x post. destruct pre as [|p1 [|p2 [|p3 [|p4 pre]]]]; simpl; intros [= <-]; simplify_eq.
  by exists [], a.
Qed.

Lemma protected_refused v4 raw : protected [Socket v4 raw; Protect raw false].
Proof. intros pre fd x post. by destruct pre as [|p1 [|p2 [|p3 pre]]]. Qed.

Lemma connect_tcp_ok a timeout n :
  protected (connect_tcp a timeout n).1 /\
  forall s, (connect_tcp a timeout n).2 = Some s -> peer s = a.
Proof.
  unfold connect_tcp. destruct (at_socket n) as [raw|]; [|split; [apply protected_nil|done]].
  destruct (at_protects n); simpl; [|split; [apply protected_refused|done]].
  split; [apply protected_connect_to|]. intros s. case_if; [|done]. by intros [= <-].
Qed.

Lemma connect_udp_ok a n :
  protected (connect_udp a n).1 /\ forall s, (connect_udp a n).2 = Some s -> peer s = a.
Proof.
  unfold connect_udp. destruct (at_socket n) as [raw|]; [|split; [apply protected_nil|done]].
  destruct (at_protects n); simpl; [|split; [apply protected_refused|done]].
  split; [apply protected_connect_to|]. intros s. destruct (at_connects n); try done. by intros [= <-].
Qed.

Lemma connect_each_ok k timeout env l last :
  protected (connect_each k timeout env l last).1 /\
  forall e, (connect_each k timeout env l last).2 = Ok e -> Endpoint.peer e ∈ l.
Proof.
  revert last. induction l as [|a l IH]; intros last; [split; [apply protected_nil|done]|]. cbn [connect_each].
  set (tried := match k with FLOW_TCP => _ | _ => _ end).
  assert (protected tried.1 /\ forall e, tried.2 = Some e -> Endpoint.peer e = a) as [Hp He].
  { destruct (connect_tcp_ok a timeout (env a)) as [Ht Hs]. destruct (connect_udp_ok a (env a)) as [Hu Hv].
    unfold tried. destruct k.
    - destruct (connect_tcp _ _ _) as [c [s|]]; split; try done. intros e [= <-]. by apply Hs.
    - destruct (connect_udp _ _) as [c [s|]]; split; try done. intros e [= <-]. by apply Hv.
    - destruct (connect_udp _ _) as [c [s|]]; split; try done. intros e [= <-]. by apply Hv. }
  destruct tried as [c [e|]]; simpl in Hp, He.
  - split; [done|]. simpl. intros e' [= <-]. rewrite He by done. left.
  - destruct (IH DirectError.Io) as [Hp' He']. destruct (connect_each _ _ _ _ _) as [more r]. simpl in *.
    split; [by apply protected_app|]. intros e Hr. right. by apply He'.
Qed.

Lemma connect_addresses_ok k l timeout env :
  protected (connect_addresses k l timeout env).1 /\
  forall e, (connect_addresses k l timeout env).2 = Ok e -> Endpoint.peer e ∈ l.
Proof.
  unfold connect_addresses. case_if; [split; [apply protected_nil|done]|].
  destruct k; try apply connect_each_ok. split; [apply protected_nil|done].
Qed.

(** * The invariant *)

(** After each call of [resolve], newest first: the operation, the addresses it is
    resolved to, and whether the call gave them to the host. *)
Definition reports := list (Z * list SocketAddr.t * bool).

(** The newest entry of an operation, and whether the host was given the
    addresses. *)
Fixpoint newest (log : reports) (op : Z) : option (list SocketAddr.t * bool) :=
  match log with
  | [] => None
  | (o, l, given) :: log => if decide (o = op) then Some (l, given) else newest log op
  end.

Definition told (log : reports) (op : Z) : bool :=
  match newest log op with Some (_, given) => given | None => false end.

Lemma newest_elem log op l given : newest log op = Some (l, given) -> (op, l, given) ∈ log.
Proof.
  induction log as [|[[o k] g] log IH]; simpl; [done|]. destruct (decide (o = op)) as [->|].
  - intros [= -> ->]. left.
  - right. auto.
Qed.

Section good.
(** Whether the host opens only what it was told the addresses of. *)
Context (strict : Prop).

(** Addresses an operation was resolved to, and an address among them. *)
Definition logs (log : reports) (op : Z) (l : list SocketAddr.t) : Prop :=
  exists given, (op, l, given) ∈ log /\ (strict -> given = true).
Definition from (log : reports) (op : Z) (a : SocketAddr.t) : Prop := exists l, logs log op l /\ a ∈ l.

(** How many requests in the queue hold a wake handle of a context. *)
Definition queued (ctx : Z) (q : list WorkerRequest.t) : Z :=
  foldr (fun r n => held ctx (WorkerRequest.wake r) + n) 0 q.

Lemma queued_app ctx q k : queued ctx (q ++ k) = queued ctx q + queued ctx k.
Proof. unfold queued. induction q; simpl; lia. Qed.

Lemma queued_nonneg ctx q : 0 <= queued ctx q.
Proof. unfold queued. induction q as [|r q IH]; simpl; [lia|]. pose proof (held_range ctx (WorkerRequest.wake r)). lia. Qed.

Definition request_ok (max : Z) (log : reports) (r : WorkerRequest.t) : Prop :=
  slot_ok (WorkerRequest.wake r) /\
  match r with
  | WorkerRequest.Resolve _ _ m _ _ => m = max
  | WorkerRequest.Connect _ addresses _ c _ => logs log c.1 addresses
  end.

Definition list_ok (max : Z) (l : list SocketAddr.t) : Prop := l <> [] /\ len l <= max.

Definition waiting (s : State.t) : Z :=
  Z.of_nat (size (State.pending s)) + Z.of_nat (size (State.pending_resolutions s)).

Record good (s : State.t) (log : reports) : Prop := {
  g_options : 1 <= Options.max_resolved_addresses (State.options s);
  g_waiting : waiting s <= Options.max_pending_opens (State.options s);
  g_queue : len (State.queue s) <= Options.max_pending_opens (State.options s);
  g_requests : Forall (request_ok (Options.max_resolved_addresses (State.options s)) log) (State.queue s);
  g_resolutions : forall c l, State.resolutions s !! c = Some (Ok l) ->
    list_ok (Options.max_resolved_addresses (State.options s)) l;
  g_connections : forall c e, State.connections s !! c = Some (Ok e) -> from log c.1 (Endpoint.peer e);
  g_resolved : forall op l, State.resolved s !! op = Some l ->
    exists given, newest log op = Some (l, given);
  g_pending : forall op c, State.pending s !! op = Some c -> c.1 = op;
  g_ready : forall op e, State.ready s !! op = Some e -> from log op (Endpoint.peer e);
  g_active : forall op e, State.active s !! op = Some e -> from log op (Endpoint.peer e);
  g_datagrams : forall op e, State.active_datagrams s !! op = Some e -> from log op (Endpoint.peer e);
  g_log : forall op l given, (op, l, given) ∈ log -> list_ok (Options.max_resolved_addresses (State.options s)) l;
  g_calls : protected (State.calls s);
  g_events : forall ctx, moves ctx 0 (queued ctx (State.queue s)) (State.events s);
}.

Lemma logs_more log x op l : logs log op l -> logs (x :: log) op l.
Proof. intros (given & Hl & Hs). exists given. split; [by right|done]. Qed.

Lemma from_more log x op a : from log op a -> from (x :: log) op a.
Proof. intros (l & Hl & Ha). exists l. split; [by apply logs_more|done]. Qed.

(** An entry for an operation that gets these addresses. *)
Lemma good_set s log op l given :
  list_ok (Options.max_resolved_addresses (State.options s)) l -> good s log ->
  good (State.set_resolved s (<[op := l]> (State.resolved s))) ((op, l, given) :: log).
Proof.
  intros Hl [G0 G1 G2 G3 G4 G5 G6 G7 G8 G9 G10 G11 G12 G13]. split; try done.
  - eapply Forall_impl; [exact G3|]. intros [] [? Hr]; split; try done. by apply logs_more.
  - intros c e He. by eapply from_more, G5.
  - simpl. intros o k Hk. destruct (decide (op = o)) as [<-|Hne].
    + rewrite lookup_insert_eq in Hk. injection Hk as <-. eauto.
    + rewrite lookup_insert_ne in Hk by done. eauto.
  - intros o e He. by eapply from_more, G8.
  - intros o e He. by eapply from_more, G9.
  - intros o e He. by eapply from_more, G10.
  - intros o k g [[= -> -> ->]|Hk]%elem_of_cons; eauto.
Qed.

(** What [resolve] adds to the log. *)
Definition logged (op : Z) (s : State.t) (r : option (list SocketAddr.t)) (log : reports) : reports :=
  match State.resolved s !! op with Some l => (op, l, bool_decide (r = Some l)) :: log | None => log end.

Lemma good_logged s log op r : good s log -> good s (logged op s r log).
Proof.
  intros G. unfold logged. destruct (State.resolved s !! op) as [l|] eqn:El; [|done].
  destruct (g_resolved _ _ G op l El) as [given Hn].
  apply (good_set s log op l (bool_decide (r = Some l))) in G.
  - rewrite insert_id in G by done. by destruct s.
  - eapply (g_log _ _ G). by apply newest_elem.
Qed.

(** Events that change nothing of what the queue holds. *)
Lemma good_emit s log e :
  (forall ctx n, 0 <= n -> moves ctx n n e) -> good s log -> good (State.emit s e) log.
Proof.
  intros He [G0 G1 G2 G3 G4 G5 G6 G7 G8 G9 G10 G11 G12 G13]. split; try done.
  intros ctx. eapply moves_app; [apply G13|]. apply He, queued_nonneg.
Qed.

Lemma delete_le {A} (m : gmap Z A) k : (size (delete k m) <= size m)%nat.
Proof. rewrite map_size_delete. case_match; simpl; lia. Qed.
Lemma insert_le {A} (m : gmap Z A) k v : Z.of_nat (size (<[k := v]> m)) <= Z.of_nat (size m) + 1.
Proof. rewrite map_size_insert. case_match; simpl; lia. Qed.

Lemma good_without_resolution s log op :
  good s log -> good (State.set_pending_resolutions s (delete op (State.pending_resolutions s))) log.
Proof.
  intros [G0 G1 G2 G3 G4 G5 G6 G7 G8 G9 G10 G11 G12 G13]. split; try done.
  unfold waiting in *. simpl. pose proof (delete_le (State.pending_resolutions s) op). lia.
Qed.

Lemma good_without_pending s log op :
  good s log -> good (State.set_pending s (delete op (State.pending s))) log.
Proof.
  intros [G0 G1 G2 G3 G4 G5 G6 G7 G8 G9 G10 G11 G12 G13]. split; try done.
  - unfold waiting in *. simpl. pose proof (delete_le (State.pending s) op). lia.
  - simpl. intros o c [_ Hc]%lookup_delete_Some. eauto.
Qed.

(** Addresses are resolved and reported. *)
Lemma good_report s log op l r :
  list_ok (Options.max_resolved_addresses (State.options s)) l -> good s log ->
  let s' := State.set_resolved s (<[op := l]> (State.resolved s)) in good s' (logged op s' r log).
Proof. intros Hl G s'. unfold logged, s'. simpl. rewrite lookup_insert_eq. by apply good_set. Qed.

(** A request is queued for an operation, with its wake handle. *)
Lemma retain_wake_ok w r e :
  retain_wake w = (Ok r, e) -> slot_ok r /\ forall ctx n, 0 <= n -> moves ctx n (held ctx r + n) e.
Proof.
  unfold retain_wake. destruct (SnolWakeHandle.retain w) as [[|]|], (SnolWakeHandle.release w) eqn:Er;
    intros [= <- <-]; (split; [done|]); intros ctx n Hn; [|split; simpl; [lia|done]].
  split; simpl; [case_if; lia|]. split; [lia|done].
Qed.

Lemma release_wake_moves w ctx n : slot_ok w -> 0 <= n -> moves ctx (held ctx w + n) n (release_wake w).
Proof.
  intros Hw Hn. pose proof (drop_moves ctx w Hw) as Hd. apply (moves_frame _ _ _ n) in Hd; [|done].
  replace (0 + n) with n in Hd by lia. by destruct w.
Qed.

(** The tail of [resolve] and [open]: a request with a handle that was retained
    is sent, or dropped with the handle released. *)
Lemma try_send_good s log r e sent :
  (forall ctx n, 0 <= n -> moves ctx n (held ctx (WorkerRequest.wake r) + n) e) ->
  request_ok (Options.max_resolved_addresses (State.options s)) log r -> good s log ->
  (forall s', State.options s' = State.options s -> State.pending s' = State.pending s ->
     State.pending_resolutions s' = State.pending_resolutions s -> good s' log -> good (sent s') log) ->
  good (try_send (State.emit s e) r sent).1 log.
Proof.
  intros He [Hw Hr] G Hsent.
  assert (good (State.emit (State.emit s e) (release_wake (WorkerRequest.wake r))) log) as Hdrop.
  { destruct G as [G0 G1 G2 G3 G4 G5 G6 G7 G8 G9 G10 G11 G12 G13]. split; try done. intros ctx. simpl.
    pose proof (queued_nonneg ctx (State.queue s)).
    eapply moves_app; [eapply moves_app; [apply G13|by apply He]|]. by apply release_wake_moves. }
  unfold try_send. case_if; [done|]. case_if; [|done]. cbn [fst]. apply Hsent; [done..|].
  destruct G as [G0 G1 G2 G3 G4 G5 G6 G7 G8 G9 G10 G11 G12 G13]. simpl in *. split; try done; simpl.
  - rewrite len_snoc. lia.
  - apply Forall_app. split; [done|]. by constructor.
  - intros ctx. eapply moves_app; [apply G13|]. rewrite queued_app. simpl.
    rewrite Z.add_0_r, Z.add_comm. apply He, queued_nonneg.
Qed.

Lemma start_resolve_good write s log op m w now overflows s' r status :
  start_resolve write s op m w now overflows = (s', r, status) ->
  waiting s < Options.max_pending_opens (State.options s) -> good s log -> good s' (logged op s' r log).
Proof.
  unfold start_resolve. intros Hs Hroom G.
  destruct (owned_destination m) as [[a|domain port]|st]; [| |injection Hs as <- <- <-; by apply good_logged].
  - injection Hs as <- <- <-. apply good_report; [|done]. split; [done|]. pose proof (g_options _ _ G).
    unfold len. simpl. lia.
  - case_if_in Hs; [injection Hs as <- <- <-; by apply good_logged|].
    destruct (retain_wake w) as [[wake|st] e] eqn:Ew; [|injection Hs as <- <- <-; by apply good_logged].
    apply retain_wake_ok in Ew as [Hw He]. case_if_in Hs.
    + injection Hs as <- <- <-. apply good_logged.
      destruct G as [G0 G1 G2 G3 G4 G5 G6 G7 G8 G9 G10 G11 G12 G13]. split; try done. intros ctx. simpl.
      pose proof (queued_nonneg ctx (State.queue s)).
      eapply moves_app; [eapply moves_app; [apply G13|by apply He]|]. by apply release_wake_moves.
    + destruct (try_send _ _ _) as [s1 st1] eqn:Et. injection Hs as <- <- <-. apply good_logged.
      change s1 with (s1, st1).1. rewrite <- Et. apply try_send_good; [done|done|done|].
      intros x Ho Hp Hr [G0 G1 G2 G3 G4 G5 G6 G7 G8 G9 G10 G11 G12 G13]. split; try done.
      unfold waiting in *. simpl. rewrite ?Hp, ?Hr, ?Ho.
      etransitivity; [apply Z.add_le_mono_l, insert_le|]. lia.
Qed.

Lemma resolve_good write s log op m w written now overflows s' r status :
  resolve write s op m w written now overflows = (s', r, status) ->
  good s log -> good s' (logged op s' r log).
Proof.
  unfold resolve. intros Hs G. case_if_in Hs; [injection Hs as <- <- <-; by apply good_logged|].
  destruct m as [m|]; [|injection Hs as <- <- <-; by apply good_logged].
  case_if_in Hs; [injection Hs as <- <- <-; by apply good_logged|].
  destruct (State.resolved s !! op) as [l|] eqn:El; [injection Hs as <- <- <-; by apply good_logged|].
  destruct (State.pending_resolutions s !! op) as [[c deadline]|] eqn:Ep.
  - pose proof (good_without_resolution s log op G) as G'. unfold try_recv in Hs.
    destruct (State.resolutions s !! c) as [[l|e]|] eqn:Er; [|injection Hs as <- <- <-; by apply good_logged|].
    + injection Hs as <- <- <-.
      eapply (good_report _ log op l) in G'; [exact G'|]. by eapply (g_resolutions _ _ G).
    + destruct (State.dead s); [injection Hs as <- <- <-; by apply good_logged|].
      case_if_in Hs; injection Hs as <- <- <-; by apply good_logged.
  - case_if_in Hs; [injection Hs as <- <- <-; by apply good_logged|]. by eapply start_resolve_good.
Qed.

Lemma start_open_good s log op k w s' r status :
  start_open s op k w = (s', r, status) ->
  (strict -> told log op = true) ->
  waiting s < Options.max_pending_opens (State.options s) -> good s log -> good s' log.
Proof.
  unfold start_open. intros Hs Htold Hroom G. destruct (State.resolved s !! op) as [l|] eqn:El; [|by injection Hs as <- <- <-].
  destruct (retain_wake w) as [[wake|st] e] eqn:Ew; [|by injection Hs as <- <- <-].
  apply retain_wake_ok in Ew as [Hw He]. destruct (try_send _ _ _) as [s1 st1] eqn:Et.
  injection Hs as <- <- <-. change s1 with (s1, st1).1. rewrite <- Et. apply try_send_good; [done| |done|].
  - split; [done|]. destruct (g_resolved _ _ G op l El) as [given Hn]. exists given.
    split; [by apply newest_elem|]. intros H%Htold. unfold told in H. by rewrite Hn in H.
  - intros x Ho Hp Hr [G0 G1 G2 G3 G4 G5 G6 G7 G8 G9 G10 G11 G12 G13]. split; try done.
    + unfold waiting in *. simpl. rewrite ?Hp, ?Hr, ?Ho.
      etransitivity; [apply Z.add_le_mono_r, insert_le|]. lia.
    + simpl. intros o c [[<- <-]|[_ Hc]]%lookup_insert_Some; [done|by apply G7].
Qed.

Lemma open_good s log op m w output s' r status :
  open s op m w output = (s', r, status) -> (strict -> told log op = true) -> good s log -> good s' log.
Proof.
  unfold open. intros Hs Htold G. case_if_in Hs; [by injection Hs as <- <- <-|].
  destruct m as [m|]; [|by injection Hs as <- <- <-]. do 4 (case_if_in Hs; [by injection Hs as <- <- <-|]).
  destruct (State.pending s !! op) as [c|] eqn:Ep.
  - pose proof (good_without_pending s log op G) as G'. unfold try_recv in Hs.
    destruct (State.connections s !! c) as [[e|e]|] eqn:Ec; [|by injection Hs as <- <- <-|].
    + injection Hs as <- <- <-. pose proof (g_connections _ _ G c e Ec) as Hfrom.
      rewrite (g_pending _ _ G op c Ep) in Hfrom.
      destruct G' as [G0 G1 G2 G3 G4 G5 G6 G7 G8 G9 G10 G11 G12 G13]. split; try done.
      simpl. intros o x [[<- <-]|[_ Hx]]%lookup_insert_Some; [done|by apply G8].
    + destruct (State.dead s); by injection Hs as <- <- <-.
  - case_if_in Hs; [by injection Hs as <- <- <-|]. by eapply start_open_good.
Qed.

Lemma good_without_resolved s log op :
  good s log -> good (State.set_resolved s (delete op (State.resolved s))) log.
Proof.
  intros [G0 G1 G2 G3 G4 G5 G6 G7 G8 G9 G10 G11 G12 G13]. split; try done.
  simpl. intros o l [_ Hl]%lookup_delete_Some. eauto.
Qed.

Lemma good_without_ready s log op :
  good s log -> good (State.set_ready s (delete op (State.ready s))) log.
Proof.
  intros [G0 G1 G2 G3 G4 G5 G6 G7 G8 G9 G10 G11 G12 G13]. split; try done.
  simpl. intros o l [_ Hl]%lookup_delete_Some. eauto.
Qed.

Lemma attach_good s log flow stack usable new : good s log -> good (attach s flow stack usable new).1 log.
Proof.
  intros G. unfold attach. case_if; [done|]. destruct (State.ready s !! flow) as [e|] eqn:Er; [|done].
  pose proof (g_ready _ _ G flow e Er) as Hfrom.
  apply (good_without_resolved s log flow) in G. destruct e as [x|x]; [|done].
  apply (good_without_ready _ log flow) in G. simpl in G. case_if; [done|]. destruct new; [|done].
  destruct G as [G0 G1 G2 G3 G4 G5 G6 G7 G8 G9 G10 G11 G12 G13]. split; try done.
  simpl. intros o y [[<- <-]|[_ Hy]]%lookup_insert_Some; [done|by apply G9].
Qed.

Lemma attach_datagram_good s log flow stack usable new :
  good s log -> good (attach_datagram s flow stack usable new).1 log.
Proof.
  intros G. unfold attach_datagram. case_if; [done|]. destruct (State.ready s !! flow) as [e|] eqn:Er; [|done].
  pose proof (g_ready _ _ G flow e Er) as Hfrom.
  apply (good_without_resolved s log flow) in G. destruct e as [x|x]; [done|].
  apply (good_without_ready _ log flow) in G. simpl in G. case_if; [done|]. destruct new; [|done].
  destruct G as [G0 G1 G2 G3 G4 G5 G6 G7 G8 G9 G10 G11 G12 G13]. split; try done.
  simpl. intros o y [[<- <-]|[_ Hy]]%lookup_insert_Some; [done|by apply G10].
Qed.

Lemma drop_flow_good s log flow : good s log -> good (close_flow s flow).1 log.
Proof.
  intros G. unfold close_flow. case_if; [done|].
  destruct G as [G0 G1 G2 G3 G4 G5 G6 G7 G8 G9 G10 G11 G12 G13].
  pose proof (delete_le (State.pending s) flow). pose proof (delete_le (State.pending_resolutions s) flow).
  split; try done; simpl; try (intros o x [_ Hx]%lookup_delete_Some; by eauto).
  unfold waiting in *. simpl. lia.
Qed.

Lemma poll_instance_good s log pumps : good s log -> good (poll_instance s pumps) log.
Proof.
  intros [G0 G1 G2 G3 G4 G5 G6 G7 G8 G9 G10 G11 G12 G13]. split; try done; simpl.
  all: intros o x; rewrite map_lookup_imap.
  - destruct (State.active s !! o) as [y|] eqn:Ey; [|done]. simpl. unfold poll_flow.
    destruct (both _ _) as [[[|]|]|]; intros [= <-]; eauto.
  - destruct (State.active_datagrams s !! o) as [y|] eqn:Ey; [|done]. simpl. unfold poll_flow.
    destruct (both _ _) as [[[|]|]|]; intros [= <-]; eauto.
Qed.

Lemma woken_moves w ctx n :
  slot_ok w -> 0 <= n -> moves ctx (held ctx w + n) n (wake_worker w ++ release_wake w).
Proof.
  intros Hw Hn. destruct (wake_moves ctx w Hw) as [Hm _]. apply (moves_frame _ _ _ n) in Hm; [|done].
  replace (0 + n) with n in Hm by lia. by destruct w.
Qed.

Lemma worker_step_good s log y : good s log -> good (worker_step s y) log.
Proof.
  intros G. unfold worker_step. destruct (State.queue s) as [|r queue] eqn:Eq; [done|].
  destruct G as [G0 G1 G2 G3 G4 G5 G6 G7 G8 G9 G10 G11 G12 G13]. rewrite Eq in *.
  apply Forall_cons in G3 as [[Hw Hr] G3]. rewrite len_cons in G2.
  assert (forall ctx, moves ctx 0 (queued ctx queue)
    (State.events s ++ wake_worker (WorkerRequest.wake r) ++ release_wake (WorkerRequest.wake r))) as Hev.
  { intros ctx. eapply moves_app; [apply G13|]. apply woken_moves; [done|apply queued_nonneg]. }
  destruct r as [domain port max c w|k addresses timeout c w].
  - split; try done; simpl; [lia|]. intros c' l [[<- Hl]|[_ Hl]]%lookup_insert_Some; [|eauto].
    apply resolve_destination_ok in Hl as (? & ? & _). subst max. by split.
  - pose proof (connect_addresses_ok k addresses timeout (attempts y)) as [Hp He].
    destruct (connect_addresses _ _ _ _) as [calls r]. simpl in *.
    split; try done; simpl; [lia| |by apply protected_app].
    intros c' e [[<- ->]|[_ Hc]]%lookup_insert_Some; [|eauto]. exists addresses. split; [done|by apply He].
Qed.

Lemma worker_dies_good s log : good s log -> good (worker_dies s) log.
Proof.
  intros [G0 G1 G2 G3 G4 G5 G6 G7 G8 G9 G10 G11 G12 G13]. split; try done; simpl.
  - pose proof (len_nonneg (State.queue s)). lens. lia.
  - intros ctx. eapply moves_app; [apply G13|]. clear -G3. simpl.
    induction G3 as [|r q [Hw _] Hq IH]; simpl; [apply moves_nil|].
    eapply moves_app; [|exact IH]. apply release_wake_moves; [done|apply queued_nonneg].
Qed.

End good.

(** * Runs *)

Inductive op :=
| Resolve (write : list IpAddr.t -> Status.t) (operation : Z) (m : result Status.t metadata) (w : SnolWakeHandle.t) (written : bool) (now : Z)
    (overflows : bool)
| Open (operation : Z) (m : result Status.t metadata) (w : SnolWakeHandle.t) (output : bool)
| Attach (flow stack : Z) (usable : bool) (new : result DirectError.t unit)
| AttachDatagram (flow stack : Z) (usable : bool) (new : result DirectError.t unit)
| Complete (flow : Z) (status : Status.t) (reason_length : Z)
| Close (flow : Z)
| Poll (pumps : Z -> pump_answer * pump_answer)
| Work (y : system)
| Die.

(** One step, with what [resolve] adds to the log. *)
Definition step (a : State.t * reports) (o : op) : State.t * reports :=
  let '(s, log) := a in
  match o with
  | Resolve write operation m w written now overflows =>
      let '(s, r, _) := resolve write s operation m w written now overflows in
      (s, logged operation s r log)
  | Open operation m w output => ((open s operation m w output).1.1, log)
  | Attach flow stack usable new => ((attach s flow stack usable new).1, log)
  | AttachDatagram flow stack usable new => ((attach_datagram s flow stack usable new).1, log)
  | Complete flow status n => ((complete s flow status n).1, log)
  | Close flow => ((close_flow s flow).1, log)
  | Poll pumps => (poll_instance s pumps, log)
  | Work y => (worker_step s y, log)
  | Die => (worker_dies s, log)
  end.

Definition run (o : Options.t) (ops : list op) : State.t * reports :=
  fold_left step ops (State.init o, []).

(** The host opens an operation only when the last call of [resolve] for it gave
    the addresses. *)
Definition asks_first (log : reports) (o : op) : bool :=
  match o with Open operation _ _ _ => told log operation | _ => true end.

Fixpoint waits (a : State.t * reports) (ops : list op) : bool :=
  match ops with
  | [] => true
  | o :: ops => asks_first a.2 o && waits (step a o) ops
  end.

Lemma step_good strict s log o :
  (strict -> asks_first log o = true) -> good strict s log ->
  good strict (step (s, log) o).1 (step (s, log) o).2.
Proof.
  intros Ho G. destruct o; simpl.
  - destruct (resolve _ _ _ _ _ _ _ _) as [[s' r] st] eqn:E. by eapply resolve_good.
  - destruct (open _ _ _ _ _) as [[s' r] st] eqn:E. by eapply open_good.
  - by apply attach_good.
  - by apply attach_datagram_good.
  - unfold complete. case_if; [done|]. case_if; [done|]. by apply drop_flow_good.
  - by apply drop_flow_good.
  - by apply poll_instance_good.
  - by apply worker_step_good.
  - by apply worker_dies_good.
Qed.

Lemma run_steps_good strict o ops :
  (strict -> waits (State.init o, []) ops = true) ->
  1 <= Options.max_resolved_addresses o -> 0 <= Options.max_pending_opens o ->
  good strict (run o ops).1 (run o ops).2.
Proof.
  intros Hw Hr Hp. unfold run.
  assert (good strict (State.init o) []) as G.
  { split; simpl; try done; try (by intros ? ? ? ?%elem_of_nil). apply protected_nil. }
  revert G Hw. generalize (State.init o), (@nil (Z * list SocketAddr.t * bool)).
  induction ops as [|x ops IH]; intros s log G Hw; [done|]. cbn [fold_left].
  rewrite (surjective_pairing (step (s, log) x)). apply IH.
  - apply step_good; [|done]. intros H%Hw. simpl in H. by bools.
  - intros H%Hw. cbn [waits] in H. rewrite <- surjective_pairing. by bools.
Qed.

(** C17: A flow never leads anywhere but to an address that the very operation was
    resolved to, however calls and the worker interleave, flows are closed and
    operations reused, and whatever the name resolution answers in between; where
    the host opens an operation only when its last call of [resolve] for it gave it
    addresses, the address is one of a list that a call of [resolve] for that
    operation gave to the host.  Each list has at least one and at most the
    configured number of addresses. *)
Theorem direct_only_reported o ops :
  1 <= Options.max_resolved_addresses o -> 0 <= Options.max_pending_opens o ->
  let '(s, log) := run o ops in
  (forall op e, State.ready s !! op = Some e \/ State.active s !! op = Some e
     \/ State.active_datagrams s !! op = Some e ->
     exists l given, (op, l, given) ∈ log /\ Endpoint.peer e ∈ l /\
       (waits (State.init o, []) ops = true -> given = true)) /\
  (forall op l given, (op, l, given) ∈ log ->
     l <> [] /\ len l <= Options.max_resolved_addresses (State.options s)).
Proof.
  intros Hr Hp. pose proof (run_steps_good (waits (State.init o, []) ops = true) o ops id Hr Hp) as G.
  destruct (run o ops) as [s log]. simpl in G. split; [|intros op l given; apply (g_log _ _ _ G)].
  intros op e He.
  assert (from (waits (State.init o, []) ops = true) log op (Endpoint.peer e)) as (l & (given & Hl & Hs) & Ha).
  { destruct He as [He|[He|He]]; [by apply (g_ready _ _ _ G)|by apply (g_active _ _ _ G)|by apply (g_datagrams _ _ _ G)]. }
  by exists l, given.
Qed.

(** What waits is bounded: the operations that are being resolved or opened,
    and the requests that the worker has not served, are each no more than the
    configured number; and every wake handle that was retained for a request is
    held by one in the queue or was released, exactly once. *)
Theorem direct_pending_bounded o ops ctx :
  1 <= Options.max_resolved_addresses o -> 0 <= Options.max_pending_opens o ->
  let s := (run o ops).1 in
  Z.of_nat (size (State.pending s)) + Z.of_nat (size (State.pending_resolutions s))
    <= Options.max_pending_opens (State.options s) /\
  len (State.queue s) <= Options.max_pending_opens (State.options s) /\
  balance ctx (State.events s) = queued ctx (State.queue s) /\ legal ctx 0 (State.events s).
Proof.
  intros Hr Hp s. destruct (run_steps_good False o ops ltac:(done) Hr Hp) as [_ G1 G2 _ _ _ _ _ _ _ _ _ _ G13]. fold s in G1, G2, G13.
  split; [exact G1|]. split; [exact G2|]. destruct (G13 ctx) as [Hb Hl]. split; [lia|done].
Qed.

(** No socket of a flow, TCP or UDP, is connected unprotected: every call of
    connect follows the opening of that socket, for the family of the address, and
    its successful protection by the host. *)
Theorem direct_protected_first o ops :
  1 <= Options.max_resolved_addresses o -> 0 <= Options.max_pending_opens o ->
  protected (State.calls (run o ops).1).
Proof. intros Hr Hp. apply (g_calls _ _ _ (run_steps_good False o ops ltac:(done) Hr Hp)). Qed.

(** * Datagrams *)

(** One poll: what the socket answers, if it is asked, and the room of the
    caller; the datagrams received and delivered by a sequence of polls. *)
Fixpoint recv_all (u : UdpIo.t) (polls : list (UdpIo.recv * Z)) : UdpIo.t * list bytes * list bytes :=
  match polls with
  | [] => (u, [], [])
  | (r, room) :: polls =>
      let received :=
        match UdpIo.pending u, r with None, UdpIo.Received data => [data] | _, _ => [] end in
      let '(u, answer) := UdpIo.poll_recv_datagram u r room in
      let delivered := match answer with Ready (Ok (UdpIo.Datagram data)) => [data] | _ => [] end in
      let '(u, rs, ds) := recv_all u polls in
      (u, received ++ rs, delivered ++ ds)
  end.

(** Datagrams of an endpoint are delivered in order, none twice and none
    dropped: a datagram that does not fit the caller's buffer is kept, and what
    was received is what was delivered followed by the one that is kept. *)
Theorem direct_datagrams_kept u polls :
  let '(u', received, delivered) := recv_all u polls in
  option_list (UdpIo.pending u) ++ received = delivered ++ option_list (UdpIo.pending u').
Proof.
  revert u. induction polls as [|[r room] polls IH]; intros [p]; simpl; [by rewrite app_nil_r|].
  unfold UdpIo.poll_recv_datagram. simpl. destruct p as [data|].
  - case_if.
    + specialize (IH (UdpIo.mk (Some data))). destruct (recv_all _ polls) as [[u' rs] ds]. simpl in *. done.
    + specialize (IH (UdpIo.mk None)). destruct (recv_all _ polls) as [[u' rs] ds]. simpl in *. by rewrite IH.
  - destruct r as [data| |].
    + case_if.
      * specialize (IH (UdpIo.mk (Some data))). destruct (recv_all _ polls) as [[u' rs] ds]. simpl in *. done.
      * specialize (IH (UdpIo.mk None)). destruct (recv_all _ polls) as [[u' rs] ds]. simpl in *. by rewrite IH.
    + specialize (IH (UdpIo.mk None)). destruct (recv_all _ polls) as [[u' rs] ds]. simpl in *. done.
    + specialize (IH (UdpIo.mk None)). destruct (recv_all _ polls) as [[u' rs] ds]. simpl in *. done.
Qed.

(** * Opening twice *)

Definition demo_options : Options.t := Options.mk DnsMode.System 2 4 1000 1000.
Definition demo_write (l : list IpAddr.t) : Status.t := Status.OK.
Definition demo_wake : SnolWakeHandle.t := SnolWakeHandle.mk 7 (Some true) true true.
Definition demo_attempt : attempt := mkAttempt (Some 5) true Connected 0 false [] true.
Definition demo_system : system :=
  mkSystem (fun _ port => Some [SocketAddr.V4 0x0a000002 port; SocketAddr.V4 0x0a000001 port])
    (fun _ => demo_attempt).
Definition demo_metadata (k : flow_kind) : metadata := mkMetadata k ADDRESS_DOMAIN #"example.com" 53.

(** Resolve and open an operation, and let the worker serve both requests. *)
Definition open_ops (write : list IpAddr.t -> Status.t) (k : flow_kind) : list op :=
  [Resolve write 1 (Ok (demo_metadata k)) demo_wake true 0 false; Work demo_system;
   Resolve write 1 (Ok (demo_metadata k)) demo_wake true 1 false;
   Open 1 (Ok (demo_metadata k)) demo_wake true; Work demo_system;
   Open 1 (Ok (demo_metadata k)) demo_wake true].

Definition reopen (k : flow_kind) (attach : op) : Status.t :=
  let '(s, _) := run demo_options (open_ops demo_write k ++ attach :: take 3 (open_ops demo_write k)) in
  (open s 1 (Ok (demo_metadata k)) demo_wake true).2.

(** An operation that is in use cannot be opened again when its flow is TCP,
    but it can when its flow is UDP: the check looks at the active streams and not
    at the active datagram flows, so that attaching the second replaces the
    first. *)
Theorem direct_datagram_reopened :
  reopen FLOW_TCP (Attach 1 9 true (Ok tt)) = Status.INVALID /\
  reopen FLOW_UDP (AttachDatagram 1 9 true (Ok tt)) = Status.PENDING /\
  let s := (run demo_options
    (open_ops demo_write FLOW_UDP ++ AttachDatagram 1 9 true (Ok tt) :: open_ops demo_write FLOW_UDP)).1 in
  is_Some (State.active_datagrams s !! 1) /\ is_Some (State.ready s !! 1).
Proof. split; [vm_compute; reflexivity|]. split; [vm_compute; reflexivity|]. split; vm_compute; by eexists. Qed.

(** The adapter itself does not tie opening to the report: when every report fails,
    the host is given no address and the flow opens all the same. *)
Theorem direct_opens_unreported :
  let '(s, log) := run demo_options (open_ops (fun _ => Status.INTERNAL) FLOW_TCP) in
  Forall (fun entry => entry.2 = false) log /\ is_Some (State.ready s !! 1).
Proof.
  destruct (run demo_options (open_ops (fun _ => Status.INTERNAL) FLOW_TCP)) as [s log] eqn:E.
  vm_compute in E. injection E as <- <-. split; [by repeat constructor|by eexists].
Qed.

Lemma direct_only_reported_witness :
  let '(s, log) := run demo_options (open_ops demo_write FLOW_TCP) in
  (State.ready s !! 1 = Some (Endpoint.Tcp (mkStream 5 (SocketAddr.V4 0x0a000001 53)))) /\
  exists l, (1, l, true) ∈ log /\ SocketAddr.V4 0x0a000001 53 ∈ l.
Proof.
  pose proof (direct_only_reported demo_options (open_ops demo_write FLOW_TCP)) as Hd.
  assert (waits (State.init demo_options, []) (open_ops demo_write FLOW_TCP) = true) as Hw
    by (vm_compute; reflexivity).
  destruct (run demo_options (open_ops demo_write FLOW_TCP)) as [s log] eqn:E.
  assert (State.ready s !! 1 = Some (Endpoint.Tcp (mkStream 5 (SocketAddr.V4 0x0a000001 53)))) as Hready
    by (vm_compute in E; injection E as <- <-; vm_compute; reflexivity).
  split; [exact Hready|]. destruct Hd as [Hd _]; [vm_compute; discriminate..|].
  destruct (Hd 1 _ (or_introl Hready)) as (l & given & Hl & Ha & Hg). specialize (Hg Hw). subst given.
  exists l. exact (conj Hl Ha).
Defined.

Lemma direct_pending_bounded_witness :
  let s := (run demo_options (take 1 (open_ops demo_write FLOW_TCP))).1 in
  Z.of_nat (size (State.pending s)) + Z.of_nat (size (State.pending_resolutions s)) <= 2 /\
  State.events s = [Retained 7] /\ balance 7 (State.events s) = queued 7 (State.queue s).
Proof.
  cbv zeta.
  destruct (direct_pending_bounded demo_options (take 1 (open_ops demo_write FLOW_TCP)) 7)
    as (Hp & _ & Hb & _); [vm_compute; discriminate..|].
  split; [exact Hp|]. split; [vm_compute; reflexivity|exact Hb].
Defined.

Lemma direct_protected_first_witness :
  let s := (run demo_options (open_ops demo_write FLOW_TCP)).1 in
  State.calls s = [Socket true 5; Protect 5 true; ConnectTo 5 (to_sockaddr (SocketAddr.V4 0x0a000001 53))] /\
  protected (State.calls s).
Proof.
  split; [vm_compute; reflexivity|].
  apply (direct_protected_first demo_options (open_ops demo_write FLOW_TCP)); vm_compute; discriminate.
Defined.
