(* ===== verification/DirectIo.v ===== *)
(** The sockets of adapter-direct (modules/adapter-direct/src/lib.rs): the address
    that is handed to the system, the streams and datagram sockets behind a flow,
    the flows with their pumps, the addresses reported to the host, and the thread
    of the resolver for callers that wait.

    The system's answers are arguments; the pumps and the encoding of the addresses
    are the SDK's and parameters. *)
From Stdlib Require Import Strings.Byte.
From S2P Require Import Prelude Text Net Admin Abi Socket Wake Tcp Direct.
#[local] Open Scope Z_scope.

(** * The address in memory *)

Section memory.
(** Whether the machine is big-endian, and the constants of its C library. *)
Context (big_endian : bool) (AF_INET AF_INET6 : Z).

(** An integer of [n] bytes in memory, [uN::from_ne_bytes] and [u16::to_be]. *)
Definition ne_bytes (n : nat) (z : Z) : bytes :=
  if big_endian then be_bytes n z else reverse (be_bytes n z).
Definition from_ne_bytes (b : bytes) : Z := of_be (if big_endian then b else reverse b).
Definition to_be16 (z : Z) : Z := if big_endian then z else of_be (reverse (be_bytes 2 z)).

(** [connect_raw]: what [libc::connect] finds behind the pointer. *)
Definition connect_raw (a : SocketAddr.t) : bytes :=
  match a with
  | SocketAddr.V4 ip port =>
      ne_bytes 2 AF_INET ++ ne_bytes 2 (to_be16 port) ++ ne_bytes 4 (from_ne_bytes (octets (IpAddr.V4 ip)))
      ++ replicate 8 x00
  | SocketAddr.V6 ip port flowinfo scope_id =>
      ne_bytes 2 AF_INET6 ++ ne_bytes 2 (to_be16 port) ++ ne_bytes 4 flowinfo
      ++ octets (IpAddr.V6 ip) ++ ne_bytes 4 scope_id
  end.

Lemma ne_bytes_from_ne (b : bytes) : ne_bytes (length b) (from_ne_bytes b) = b.
Proof.
  unfold ne_bytes, from_ne_bytes. destruct big_endian; [by apply be_bytes_of_be|].
  by rewrite be_bytes_of_be, reverse_involutive by apply length_reverse.
Qed.

Lemma ne_bytes_to_be16 z : ne_bytes 2 (to_be16 z) = be_bytes 2 z.
Proof.
  unfold ne_bytes, to_be16. destruct big_endian; [done|].
  by rewrite be_bytes_of_be, reverse_involutive by (by rewrite length_reverse, length_be_bytes).
Qed.

(** The port and the address lie in memory in the order of the network, whatever
    the order of the machine. *)
Theorem connect_raw_layout a :
  connect_raw a =
  match to_sockaddr a with
  | sockaddr_in port addr => ne_bytes 2 AF_INET ++ port ++ addr ++ replicate 8 x00
  | sockaddr_in6 port flowinfo addr scope_id =>
      ne_bytes 2 AF_INET6 ++ port ++ ne_bytes 4 flowinfo ++ addr ++ ne_bytes 4 scope_id
  end.
Proof.
  destruct a as [ip port|ip port flowinfo scope_id]; unfold connect_raw, to_sockaddr;
    rewrite ne_bytes_to_be16; [|done].
  pose proof (ne_bytes_from_ne (octets (IpAddr.V4 ip))) as E.
  change (length (octets (IpAddr.V4 ip))) with 4%nat in E. by rewrite E.
Qed.
End memory.

(** * The streams and sockets *)

(** A connected socket, as far as the module sees it: the answers the system still
    has for each kind of call. *)
Module TcpIo.
Record t := mk {
  reads : list (io_result unit bytes);
  writes : list (io_result unit Z);
  flushes : list (io_result unit unit);
  shutdowns : list (result unit unit);
  closes : list (result unit unit);
}.

(** A socket that has no more answers would block. *)
Definition next {A} (l : list (io_result unit A)) : io_result unit A * list (io_result unit A) :=
  match l with [] => (WouldBlock, []) | x :: l => (x, l) end.
Definition next_result (l : list (result unit unit)) : result unit unit * list (result unit unit) :=
  match l with [] => (Err tt, []) | x :: l => (x, l) end.

(** The data of a read, cut to the buffer. *)
Definition read_into (n : Z) (r : io_result unit bytes) : bytes * io_result unit Z :=
  match r with
  | Done data => let data := take (Z.to_nat n) data in (data, Done (len data))
  | WouldBlock => ([], WouldBlock)
  | Failed e => ([], Failed e)
  end.

#[global] Instance tcp_byte_io : ByteIo t := {|
  poll_read s n :=
    let '(r, l) := next (reads s) in
    let '(data, r) := read_into n r in
    (mk l (writes s) (flushes s) (shutdowns s) (closes s), data, map_nonblocking r);
  poll_write s input :=
    let '(r, l) := next (writes s) in
    (mk (reads s) l (flushes s) (shutdowns s) (closes s), map_nonblocking r);
  poll_flush s :=
    let '(r, l) := next (flushes s) in
    (mk (reads s) (writes s) l (shutdowns s) (closes s), map_nonblocking r);
  poll_shutdown_write s :=
    let '(r, l) := next_result (shutdowns s) in
    (mk (reads s) (writes s) (flushes s) l (closes s), Ready r);
  close_io s :=
    let '(r, l) := next_result (closes s) in
    (mk (reads s) (writes s) (flushes s) (shutdowns s) l, r);
|}.
End TcpIo.

(** [DatagramRecv], and the trait of the SDK for datagrams. *)
Module DatagramRecv.
Inductive t := Datagram (length : Z) | BufferTooSmall (length : Z).
End DatagramRecv.

Class DatagramIo (T : Type) := {
  poll_recv_datagram : T -> Z -> T * bytes * poll (result unit DatagramRecv.t);
  poll_send_datagram : T -> bytes -> T * poll (result unit unit);
  close_datagram : T -> T * result unit unit;
}.

(** A datagram socket with the answers the system still has. *)
Module UdpSocket.
Record t := mk { io : UdpIo.t; recvs : list UdpIo.recv; sends : list UdpIo.send }.

#[global] Instance udp_datagram_io : DatagramIo t := {|
  poll_recv_datagram s room :=
    (** the socket is asked only when no datagram waits *)
    let '(r, l) := match UdpIo.pending (io s), recvs s with
                   | None, r :: l => (r, l)
                   | _, l => (UdpIo.RecvBlocks, l)
                   end in
    let '(u, answer) := UdpIo.poll_recv_datagram (io s) r room in
    let s := mk u l (sends s) in
    match answer with
    | Ready (Ok (UdpIo.Datagram data)) => (s, data, Ready (Ok (DatagramRecv.Datagram (len data))))
    | Ready (Ok (UdpIo.BufferTooSmall n)) => (s, [], Ready (Ok (DatagramRecv.BufferTooSmall n)))
    | Ready (Err e) => (s, [], Ready (Err e))
    | Pending => (s, [], Pending)
    end;
  poll_send_datagram s datagram :=
    match sends s with
    | [] => (s, Pending)
    | a :: l => (mk (io s) (recvs s) l, UdpIo.poll_send_datagram datagram a)
    end;
  close_datagram s := (s, Ok tt);
|}.
End UdpSocket.

(** * Flows *)

Definition STREAM_BUFFER_BYTES : Z := 131072.
Definition STREAM_WORK_BYTES : Z := STREAM_BUFFER_BYTES * 4.
Definition MAX_UDP_PAYLOAD : Z := 65507.

(** The pumps of the SDK: they move what they can of at most a number of bytes from
    one stream to another, and report whether their direction is finished. *)
Class Pumps := {
  pump : Type;
  pump_new : Z -> option pump;
  pump_poll {A B : Type} `{ByteIo A, ByteIo B} : pump -> A -> B -> Z -> pump * A * B * pump_answer;
  datagram_pump : Type;
  datagram_pump_new : Z -> option datagram_pump;
  datagram_pump_poll {A B : Type} `{DatagramIo A, DatagramIo B} :
    datagram_pump -> A -> B -> Z -> datagram_pump * A * B * pump_answer;
}.

Module DirectFlow.
Section flow.
Context `{Pumps} {S : Type} `{ByteIo S}.
Record t := mk { stack : S; endpoint : TcpIo.t; upload : pump; download : pump }.

(** [new]; the system's answers to [set_nodelay] and [set_nonblocking]. *)
Definition new (stack : S) (endpoint : TcpIo.t) (nodelay nonblocking : bool) : result DirectError.t t :=
  if negb nodelay then Err DirectError.Io
  else if negb nonblocking then Err DirectError.Io
  else
    upload ← ok_or (pump_new STREAM_BUFFER_BYTES) DirectError.Resource;
    download ← ok_or (pump_new STREAM_BUFFER_BYTES) DirectError.Resource;
    Ok (mk stack endpoint upload download).

Definition poll (f : t) : t * pump_answer :=
  let '(up, s, e, u) := pump_poll (upload f) (stack f) (endpoint f) STREAM_WORK_BYTES in
  let '(down, e, s, d) := pump_poll (download f) e s STREAM_WORK_BYTES in
  (mk s e up down, both u d).
End flow.
End DirectFlow.

Module DirectDatagramFlow.
Section flow.
Context `{Pumps} {S : Type} `{DatagramIo S}.
Record t := mk { stack : S; endpoint : UdpSocket.t; upload : datagram_pump; download : datagram_pump }.

Definition new (stack : S) (socket : UdpSocket.t) (nonblocking : bool) : result DirectError.t t :=
  if negb nonblocking then Err DirectError.Io
  else
    upload ← ok_or (datagram_pump_new MAX_UDP_PAYLOAD) DirectError.Resource;
    download ← ok_or (datagram_pump_new MAX_UDP_PAYLOAD) DirectError.Resource;
    Ok (mk stack (UdpSocket.mk (UdpIo.mk None) (UdpSocket.recvs socket) (UdpSocket.sends socket)) upload download).

Definition poll (f : t) : t * pump_answer :=
  let '(up, s, e, u) := datagram_pump_poll (upload f) (stack f) (endpoint f) MAX_UDP_PAYLOAD in
  let '(down, e, s, d) := datagram_pump_poll (download f) e s MAX_UDP_PAYLOAD in
  (mk s e up down, both u d).
End flow.
End DirectDatagramFlow.

(** A poll fails exactly when one of the pumps does, and is over only when both
    directions are. *)
Lemma both_spec u d :
  (forall e, both u d = Ready (Err e) <-> u = Ready (Err e) \/ (forall e', u <> Ready (Err e')) /\ d = Ready (Err e)) /\
  (both u d = Ready (Ok true) <-> u = Ready (Ok true) /\ d = Ready (Ok true)).
Proof.
  split; [intros []|]; destruct u as [[[]|[]]|], d as [[[]|[]]|]; simpl; split; intros; naive_solver.
Qed.

(** * The wake handle of a request *)

Module WorkerWake.
(** A handle that was retained, unless it has no functions. *)
Definition t := option SnolWakeHandle.t.
Definition new (w : SnolWakeHandle.t) : result Status.t t * list event := retain_wake w.
Definition drop (w : t) : list event := release_wake w.
End WorkerWake.

(** What a request retained is released once when the request is gone. *)
Lemma worker_wake_balanced w h l :
  WorkerWake.new w = (Ok (Some h), l) -> l = [Retained (SnolWakeHandle.context h)] /\
  WorkerWake.drop (Some h) = [Released (SnolWakeHandle.context h)].
Proof.
  unfold WorkerWake.new, WorkerWake.drop, retain_wake, release_wake.
  destruct (SnolWakeHandle.retain w) as [[]|], (SnolWakeHandle.release w) eqn:Er; try done.
  intros [= <- <-]. by rewrite Er.
Qed.

(** * The addresses reported to the host *)

Section report.
(** The SDK: the length of the encoding and the encoding; the host's buffer. *)
Context (resolved_addresses_size : list IpAddr.t -> option Z).
Context (encode_resolved_addresses : list IpAddr.t -> Z -> option bytes).
Context (write_output : bytes -> Status.t).

Definition write_resolved_addresses (addresses : list IpAddr.t) : Status.t :=
  match resolved_addresses_size addresses with
  | None => Status.INTERNAL
  | Some length =>
      match encode_resolved_addresses addresses length with
      | None => Status.INTERNAL
      | Some encoded => write_output encoded
      end
  end.
End report.

(** * The thread of the resolver for callers that wait *)

Module Request.
Record t := mk { generation : Z; domain : str; port : Z }.
End Request.

Section resolver.
(** What the system answers when it is asked for a name. *)
Context (to_socket_addrs : str -> Z -> result unit (list SocketAddr.t)).

(** One turn of the loop of [resolver_worker]. *)
Definition resolver_worker (r : Request.t) : SystemResolver.response :=
  SystemResolver.mkResponse (Request.generation r) (to_socket_addrs (Request.domain r) (Request.port r)).

(** A call of [resolve], with the worker at the other end of the channel;
    [in_time] says whether it answers within the timeout. *)
Definition resolve_with_worker (r : SystemResolver.t) (domain : str) (port timeout : Z) (queued in_time : bool)
    : SystemResolver.t * result DirectError.t (list SocketAddr.t) :=
  let request := Request.mk (SystemResolver.generation r) domain port in
  SystemResolver.resolve r domain port timeout queued
    (if in_time then Some (resolver_worker request) else None).

(** [Drop for SystemResolver]: the channel is closed, and the thread is left to
    itself. *)
Definition drop_resolver (r : SystemResolver.t) : SystemResolver.t :=
  SystemResolver.mk false (SystemResolver.generation r).

(** Every request has a channel of its own, so its answer is never that of another
    one; what a call returns are the addresses of the name, some and each of them. *)
Theorem resolver_answers r domain port timeout queued in_time :
  let '(_, answer) := resolve_with_worker r domain port timeout queued in_time in
  answer <> Err DirectError.Stale /\
  forall addresses, answer = Ok addresses ->
    addresses <> [] /\ queued = true /\ in_time = true /\
    exists found, to_socket_addrs domain port = Ok found /\ forall a, a ∈ addresses <-> a ∈ found.
Proof.
  unfold resolve_with_worker, SystemResolver.resolve, fetch_add. simpl.
  do 4 (case_if; [split; [done|naive_solver]|]). destruct in_time; [|split; [done|naive_solver]]. simpl.
  rewrite Z.eqb_refl. simpl. destruct (to_socket_addrs domain port) as [found|e]; [|split; [done|naive_solver]].
  case_bool_decide as E; [split; [done|naive_solver]|]. split; [done|]. intros addresses [= <-].
  split_and!; [done|by destruct queued|done|]. exists found. split; [done|].
  intros a. by rewrite elem_dedup, elem_sort_addrs.
Qed.

(** A resolver that was dropped asks for nothing more. *)
Lemma dropped_resolver_stopped r domain port timeout queued in_time addresses :
  (resolve_with_worker (drop_resolver r) domain port timeout queued in_time).2 <> Ok addresses.
Proof.
  unfold resolve_with_worker, SystemResolver.resolve, fetch_add. simpl. case_if; [done|]. simpl. by case_if.
Qed.
End resolver.
