(* ===== verification/ClientStreams.v ===== *)
(** The client's end of a flow in adapter-socks5 ([SocksIo]) and in
    adapter-http-connect ([ClientIo]) as a byte stream: the socket of the client
    behind the bytes that were read together with the request. *)
From Stdlib Require Import Strings.Byte.
From S2P Require Import Prelude Text Net Admin Abi Socket Direct HttpConnect Socks DirectIo.
#[local] Open Scope Z_scope.

(** * The two streams *)

(** The answer to a read, as the data and the count of [poll_read]. *)
Definition counted (r : poll (result unit bytes)) : bytes * poll (result unit Z) :=
  match r with
  | Ready (Ok data) => (data, Ready (Ok (len data)))
  | Ready (Err e) => ([], Ready (Err e))
  | Pending => ([], Pending)
  end.

(** What the socket has for a read into [n] bytes. *)
Definition cut (n : Z) (r : io_result unit bytes) : io_result unit bytes :=
  match r with Done data => Done (take (Z.to_nat n) data) | r => r end.

(** The socket is asked only once the prefix is gone. *)
Definition next_read (prefix : bytes) (socket : TcpIo.t) : io_result unit bytes * TcpIo.t :=
  if bool_decide (prefix = []) then
    let '(r, l) := TcpIo.next (TcpIo.reads socket) in
    (r, TcpIo.mk l (TcpIo.writes socket) (TcpIo.flushes socket) (TcpIo.shutdowns socket) (TcpIo.closes socket))
  else (WouldBlock, socket).

Module SocksStream.
Record t := mk { io : SocksIo.t; socket : TcpIo.t }.

#[global] Instance socks_byte_io : ByteIo t := {|
  poll_read s n :=
    let '(answer, socket) := next_read (SocksIo.prefix (io s)) (socket s) in
    let '(io, r) := SocksIo.poll_read (io s) n (cut n answer) in
    let '(data, r) := counted r in (mk io socket, data, r);
  poll_write s input := let '(socket, r) := poll_write (socket s) input in (mk (io s) socket, r);
  poll_flush s := let '(socket, r) := poll_flush (socket s) in (mk (io s) socket, r);
  poll_shutdown_write s := let '(socket, r) := poll_shutdown_write (socket s) in (mk (io s) socket, r);
  close_io s := let '(socket, r) := close_io (socket s) in (mk (io s) socket, r);
|}.
End SocksStream.

Module ConnectStream.
Record t := mk { io : ClientIo.t; socket : TcpIo.t }.

#[global] Instance connect_byte_io : ByteIo t := {|
  poll_read s n :=
    let '(answer, socket) := next_read (ClientIo.prefix (io s)) (socket s) in
    let '(io, r) := ClientIo.poll_read (io s) n (cut n answer) in
    let '(data, r) := counted r in (mk io socket, data, r);
  poll_write s input := let '(socket, r) := poll_write (socket s) input in (mk (io s) socket, r);
  poll_flush s := let '(socket, r) := poll_flush (socket s) in (mk (io s) socket, r);
  poll_shutdown_write s := let '(socket, r) := poll_shutdown_write (socket s) in (mk (io s) socket, r);
  close_io s := let '(socket, r) := close_io (socket s) in (mk (io s) socket, r);
|}.
End ConnectStream.

(** * What they promise *)

(** A stream that hands out some bytes of its own before it is the stream under
    it. *)
Class EarlyData (T U : Type) `{ByteIo T, ByteIo U} := {
  early : T -> bytes;
  under : T -> U;
  read_early s n : early s <> [] ->
    let k := Z.to_nat (Z.min n (len (early s))) in
    let '(s', data, r) := poll_read s n in
    early s' = drop k (early s) /\ under s' = under s /\ data = take k (early s) /\
    r = Ready (Ok (len data));
  read_under s n : early s = [] ->
    let '(s', data, r) := poll_read s n in
    early s' = [] /\ (under s', data, r) = poll_read (under s) n;
  write_under s b : let '(s', r) := poll_write s b in
    early s' = early s /\ (under s', r) = poll_write (under s) b;
  flush_under s : let '(s', r) := poll_flush s in
    early s' = early s /\ (under s', r) = poll_flush (under s);
  shutdown_under s : let '(s', r) := poll_shutdown_write s in
    early s' = early s /\ (under s', r) = poll_shutdown_write (under s);
  close_under s : let '(s', r) := close_io s in
    early s' = early s /\ (under s', r) = close_io (under s);
}.

(** A call that goes to the socket as it is. *)
#[local] Ltac forwards := intros [p u]; intros; simpl; repeat case_match; by simplify_eq/=.

#[global] Program Instance socks_early : EarlyData SocksStream.t TcpIo.t := {|
  early s := SocksIo.prefix (SocksStream.io s);
  under := SocksStream.socket;
|}.
Next Obligation.
  intros [[h p] u] n. simpl. intros Hp. unfold next_read, SocksIo.poll_read. simpl.
  rewrite bool_decide_false by done. simpl. by split_and!.
Qed.
Next Obligation.
  intros [[h p] u] n. simpl. intros ->. unfold next_read, SocksIo.poll_read. simpl.
  destruct (TcpIo.next (TcpIo.reads u)) as [[] l]; by simpl.
Qed.
Next Obligation. forwards. Qed.
Next Obligation. forwards. Qed.
Next Obligation. forwards. Qed.
Next Obligation. forwards. Qed.

#[global] Program Instance connect_early : EarlyData ConnectStream.t TcpIo.t := {|
  early s := ClientIo.prefix (ConnectStream.io s);
  under := ConnectStream.socket;
|}.
Next Obligation.
  intros [[h p] u] n. simpl. intros Hp. unfold next_read, ClientIo.poll_read. simpl.
  rewrite bool_decide_false by done. simpl. by split_and!.
Qed.
Next Obligation.
  intros [[h p] u] n. simpl. intros ->. unfold next_read, ClientIo.poll_read. simpl.
  destruct (TcpIo.next (TcpIo.reads u)) as [[] l]; by simpl.
Qed.
Next Obligation. forwards. Qed.
Next Obligation. forwards. Qed.
Next Obligation. forwards. Qed.
Next Obligation. forwards. Qed.

(** * Runs *)

Module Call.
Inductive t := Read (n : Z) | Write (input : bytes) | Flush | ShutdownWrite | Close.

Definition is_read (c : t) : bool := match c with Read _ => true | _ => false end.
End Call.

(** What the caller of a stream sees of a call besides the bytes read. *)
Inductive answer :=
  | Counted (r : poll (result unit Z))
  | Settled (r : poll (result unit unit))
  | Ended (r : result unit unit).

(** One call: the stream after it, the bytes it read, and what it answers. *)
Definition call {T} `{ByteIo T} (s : T) (c : Call.t) : T * bytes * answer :=
  match c with
  | Call.Read n => let '(s, data, r) := poll_read s n in (s, data, Counted r)
  | Call.Write input => let '(s, r) := poll_write s input in (s, [], Counted r)
  | Call.Flush => let '(s, r) := poll_flush s in (s, [], Settled r)
  | Call.ShutdownWrite => let '(s, r) := poll_shutdown_write s in (s, [], Settled r)
  | Call.Close => let '(s, r) := close_io s in (s, [], Ended r)
  end.

(** A list of calls, with the bytes they read in order and what each answered. *)
Fixpoint calls {T} `{ByteIo T} (s : T) (l : list Call.t) : T * bytes * list (Call.t * answer) :=
  match l with
  | [] => (s, [], [])
  | c :: l =>
      let '(s, data, a) := call s c in
      let '(s, rest, log) := calls s l in
      (s, data ++ rest, (c, a) :: log)
  end.

Lemma call_silent {T} `{ByteIo T} (s : T) c s' data a :
  call s c = (s', data, a) -> Call.is_read c = false -> data = [].
Proof. destruct c; simpl; intros; repeat case_match; by simplify_eq. Qed.

Section runs.
Context {T U : Type} `{ByteIo T, ByteIo U, !EarlyData T U}.

(** A call that does not read, or that finds no early data, is a call of the
    stream under it. *)
Lemma call_under (s : T) c :
  early s = [] \/ Call.is_read c = false ->
  let '(s', data, a) := call s c in
  early s' = early s /\ (under s', data, a) = call (under s) c.
Proof.
  intros Hc. destruct c as [n|b| | |]; simpl.
  - destruct Hc as [He|]; [|done]. pose proof (read_under s n He) as Hr.
    destruct (poll_read s n) as [[s' data] r]. destruct Hr as [-> <-]. by rewrite He.
  - pose proof (write_under s b) as Hr. destruct (poll_write s b). by destruct Hr as [-> <-].
  - pose proof (flush_under s) as Hr. destruct (poll_flush s). by destruct Hr as [-> <-].
  - pose proof (shutdown_under s) as Hr. destruct (poll_shutdown_write s). by destruct Hr as [-> <-].
  - pose proof (close_under s) as Hr. destruct (close_io s). by destruct Hr as [-> <-].
Qed.

(** The whole run: some reads are served with the early data, and all other calls
    go, in order and with their answers, to the stream under it, which hands out
    nothing before the early data are gone. *)
Definition early_first (s : T) (l : list Call.t) : Prop :=
  let '(s', data, log) := calls s l in
  exists taken rest l' log', data = taken ++ rest /\ early s = taken ++ early s' /\
    calls (under s) l' = (under s', rest, log') /\ log' `sublist_of` log /\
    filter (fun e => Call.is_read (fst e) = false) log' = filter (fun e => Call.is_read (fst e) = false) log /\
    (rest <> [] -> early s' = []).

Lemma calls_early_first l : forall s : T, early_first s l.
Proof.
  unfold early_first. induction l as [|c l IH]; intros s; simpl.
  { exists [], [], [], []. by split_and!. }
  destruct (call s c) as [[s1 data1] a] eqn:Ec. specialize (IH s1).
  destruct (calls s1 l) as [[s2 data2] log2]. destruct IH as (taken & rest & l' & log' & -> & He & Hl & Hs & Hf & Hr).
  destruct (decide (early s = [] \/ Call.is_read c = false)) as [Hc|Hc].
  - pose proof (call_under s c Hc) as Hu. rewrite Ec in Hu. destruct Hu as [He1 Hu].
    destruct taken as [|x taken].
    + exists [], (data1 ++ rest), (c :: l'), ((c, a) :: log'). simpl. rewrite <- Hu, Hl.
      split_and!; [done|by rewrite <- He1|done|by constructor| |].
      * rewrite !filter_cons. simpl. by rewrite Hf.
      * intros Hne. destruct Hc as [Hc|Hc]; [simpl in He; congruence|].
        apply Hr. intros ->. by rewrite (call_silent _ _ _ _ _ Ec Hc) in Hne.
    + assert (Call.is_read c = false) as Hc' by (destruct Hc as [Hc|]; [by rewrite He1, Hc in He|done]).
      pose proof (call_silent _ _ _ _ _ Ec Hc') as ->.
      exists (x :: taken), rest, (c :: l'), ((c, a) :: log'). simpl. rewrite <- Hu, Hl.
      split_and!; [done|by rewrite <- He1|done|by constructor| |done].
      rewrite !filter_cons. simpl. by rewrite Hf.
  - destruct c as [n| | | |]; try (by destruct Hc; right). simpl in Ec.
    assert (early s <> []) as Hne by tauto. pose proof (read_early s n Hne) as Hu.
    destruct (poll_read s n) as [[s0 d0] r0]. simplify_eq. destruct Hu as (He1 & Hu1 & -> & _).
    exists (take (Z.to_nat (Z.min n (len (early s)))) (early s) ++ taken), rest, l', log'.
    split_and!; [by rewrite app_assoc| |by rewrite <- Hu1|by constructor| |done].
    + by rewrite <- app_assoc, <- He, He1, take_drop.
    + by rewrite filter_cons.
Qed.
End runs.

