(* ===== verification/Tun.v ===== *)
(** adapter-tun (modules/adapter-tun/src/lib.rs): packets between a TUN device and
    the packet port of the stack.  The device and the port are arguments of a
    poll: what they answer to the calls it makes. *)
From Stdlib Require Import Strings.Byte.
From S2P Require Import Prelude Text Admin Abi.
#[local] Open Scope Z_scope.

Definition IFNAMSIZ : Z := 16.

(** * The device *)

Module IfReq.
Record t := mk { name : bytes; tun_no_pi : bool }.
End IfReq.

(** The answers of the system to the calls of [TunFd::open]: the descriptor of
    /dev/net/tun, the ioctl, and [set_nonblocking]. *)
Record device := mkDevice { opens : option Z; ioctl : IfReq.t -> bool; nonblocking : Z -> bool }.

Module TunFd.
Record t := mk { file : Z }.

Definition open (d : device) (name : str) : option t :=
  if bool_decide (name = []) || (IFNAMSIZ <=? len name) then None
  else
    file ← opens d;
    let request := IfReq.mk (name ++ replicate (Z.to_nat (IFNAMSIZ - len name)) x00) true in
    if ioctl d request && nonblocking d file then Some (mk file) else None.

Definition from_owned_fd (d : device) (fd : Z) : option t :=
  if fd <? 0 then None else if nonblocking d fd then Some (mk fd) else None.

(** [duplicate] is what [F_DUPFD_CLOEXEC] answers. *)
Definition duplicate_fd (d : device) (fd : Z) (duplicate : option Z) : option t :=
  if fd <? 0 then None
  else fd ← duplicate; from_owned_fd d fd.
End TunFd.

(** * The instance *)

Module Options.
Inductive t :=
| Linux (interface : str) (mtu packet_queue_bytes : Z)
| AndroidFd (fd mtu packet_queue_bytes : Z).

Definition limits (o : t) : Z * Z :=
  match o with Linux _ mtu q | AndroidFd _ mtu q => (mtu, q) end.
End Options.

Definition parse_options `{Toml Options.t} (config : bytes) : option Options.t :=
  text ← from_utf8 config;
  options ← toml_from_str text;
  let '(mtu, packet_queue_bytes) := Options.limits options in
  if (mtu <? 1280) || (u16_max <? mtu) || (packet_queue_bytes <? mtu) then None
  else match options with
  | Options.Linux interface _ _ => if bool_decide (interface = []) then None else Some options
  | Options.AndroidFd fd _ _ => if 0 <=? fd then Some options else None
  end.

(** The buffers hold [mtu] bytes; of a packet in one of them the model keeps the
    bytes. *)
Module State.
Record t := mk {
  tun : TunFd.t;
  packet_port : option Z;
  mtu : Z;
  ingress : option bytes;
  egress : option bytes;
}.
End State.

(** [initialize], for Linux and Android. *)
Definition initialize `{Toml Options.t} (config : bytes) (d : device) (duplicate : option Z)
    : result Status.t State.t :=
  options ← ok_or (parse_options config) Status.INVALID;
  let '(mtu, _) := Options.limits options in
  tun ← ok_or match options with
              | Options.Linux interface _ _ => TunFd.open d interface
              | Options.AndroidFd fd _ _ => TunFd.duplicate_fd d fd duplicate
              end Status.IO;
  Ok (State.mk tun None mtu None None).

Inductive read_packet := Packet (data : bytes) | ReadBlocks | ReadFails.
Inductive write_packet := Written (n : Z) | WriteBlocks | WriteFails.
Inductive recv_packet := Datagram (data : bytes) | BufferTooSmall | Closed | RecvFails | RecvBlocks.

(** What one poll meets: the answers of the port to the packet that waits and to
    the one that is read, of the device to a read, of the port to a receive and of
    the device to a write. *)
Record answers := mkAnswers {
  send_old : poll (result unit unit);
  read : read_packet;
  send_new : poll (result unit unit);
  recv : recv_packet;
  write : write_packet;
}.

(** The port is given a packet: what still waits, and whether the port failed. *)
Definition send (packet : option bytes) (a : poll (result unit unit)) : option bytes * bool :=
  match packet, a with
  | Some _, Ready (Ok _) => (None, false)
  | Some p, Ready (Err _) => (Some p, true)
  | p, _ => (p, false)
  end.

(** From the device to the port. *)
Definition poll_ingress (ingress : option bytes) (a : answers) : option bytes * bool :=
  let '(ingress, failed) := send ingress (send_old a) in
  if failed then (ingress, true)
  else match ingress with
  | Some p => (Some p, false)
  | None =>
      match read a with
      | Packet data => if bool_decide (data = []) then (None, true) else send (Some data) (send_new a)
      | ReadBlocks => (None, false)
      | ReadFails => (None, true)
      end
  end.

(** From the port to the device. *)
Definition poll_egress (egress : option bytes) (a : answers) : option bytes * bool :=
  let '(egress, failed) :=
    match egress with
    | Some p => (Some p, false)
    | None =>
        match recv a with
        | Datagram data => (Some data, false)
        | BufferTooSmall | Closed | RecvFails => (None, true)
        | RecvBlocks => (None, false)
        end
    end in
  if failed then (egress, true)
  else match egress with
  | None => (None, false)
  | Some p =>
      match write a with
      | Written n => if n =? len p then (None, false) else (Some p, true)
      | WriteBlocks => (Some p, false)
      | WriteFails => (Some p, true)
      end
  end.

Definition poll_instance (s : State.t) (a : answers) : State.t * Status.t :=
  match State.packet_port s with
  | None => (s, Status.PENDING)
  | Some _ =>
      let '(ingress, failed) := poll_ingress (State.ingress s) a in
      let s := State.mk (State.tun s) (State.packet_port s) (State.mtu s) ingress (State.egress s) in
      if failed then (s, Status.IO)
      else
        let '(egress, failed) := poll_egress (State.egress s) a in
        (State.mk (State.tun s) (State.packet_port s) (State.mtu s) (State.ingress s) egress,
         if failed then Status.IO else Status.PENDING)
  end.

(** [attach_packet_port]; [port] is what [ForeignDatagramIo::from_raw] makes of
    the port. *)
Definition attach_packet_port (s : State.t) (port : option Z) : State.t * Status.t :=
  match port with
  | None => (s, Status.INVALID)
  | Some port =>
      if is_some (State.packet_port s) then (s, Status.INVALID)
      else (State.mk (State.tun s) (Some port) (State.mtu s) (State.ingress s) (State.egress s), Status.OK)
  end.

(** [STATES]. *)
Definition states := gmap Z State.t.

Definition shutdown_instance (m : states) (instance : Z) : Status.t :=
  if is_some (m !! instance) then Status.OK else Status.INVALID.
Definition destroy_instance (m : states) (instance : Z) : states := delete instance m.

(** * Packets are moved whole and in order *)

(** What the device gave to a poll and what the port took in it, and the same the
    other way. *)
Definition taken_in (s : State.t) (a : answers) : list bytes :=
  if is_none (State.packet_port s) || (send (State.ingress s) (send_old a)).2
     || is_some (send (State.ingress s) (send_old a)).1
  then []
  else match read a with Packet data => if bool_decide (data = []) then [] else [data] | _ => [] end.

Definition sent_in (s : State.t) (a : answers) : list bytes :=
  if is_none (State.packet_port s) then []
  else
    (match State.ingress s, send_old a with Some p, Ready (Ok _) => [p] | _, _ => [] end)
    ++ match taken_in s a, send_new a with [p], Ready (Ok _) => [p] | _, _ => [] end.

Definition taken_out (s : State.t) (a : answers) : list bytes :=
  if is_none (State.packet_port s) || (poll_ingress (State.ingress s) a).2 || is_some (State.egress s)
  then []
  else match recv a with Datagram data => [data] | _ => [] end.

Definition sent_out (s : State.t) (a : answers) : list bytes :=
  if is_none (State.packet_port s) || (poll_ingress (State.ingress s) a).2 then []
  else match option_list (State.egress s) ++ taken_out s a, write a with
  | [p], Written n => if n =? len p then [p] else []
  | _, _ => []
  end.

(** A sequence of polls: the state after it, and the four streams of packets. *)
Fixpoint polls (s : State.t) (l : list answers) : State.t * list bytes * list bytes * list bytes * list bytes :=
  match l with
  | [] => (s, [], [], [], [])
  | a :: l =>
      let '(s', ti, si, to, so) := polls (poll_instance s a).1 l in
      (s', taken_in s a ++ ti, sent_in s a ++ si, taken_out s a ++ to, sent_out s a ++ so)
  end.

Lemma poll_instance_ingress s a port :
  State.packet_port s = Some port ->
  State.ingress (poll_instance s a).1 = (poll_ingress (State.ingress s) a).1.
Proof.
  unfold poll_instance. intros ->. destruct (poll_ingress _ a) as [i [|]]; [done|]. simpl.
  by destruct (poll_egress _ a).
Qed.

Lemma poll_in s a :
  option_list (State.ingress s) ++ taken_in s a
  = sent_in s a ++ option_list (State.ingress (poll_instance s a).1).
Proof.
  unfold sent_in, taken_in. destruct (State.packet_port s) eqn:Ep;
    [|unfold poll_instance; rewrite Ep; by rewrite app_nil_r].
  rewrite (poll_instance_ingress _ _ _ Ep). cbn [is_none is_some negb orb].
  unfold poll_ingress, send.
  destruct (State.ingress s) as [p|], (send_old a) as [[|]|]; simpl; try done;
    destruct (read a) as [data| |]; simpl; try done; case_bool_decide; simpl; try done;
    destruct (send_new a) as [[|]|]; done.
Qed.

Lemma poll_out s a :
  option_list (State.egress s) ++ taken_out s a
  = sent_out s a ++ option_list (State.egress (poll_instance s a).1).
Proof.
  unfold sent_out, taken_out, poll_instance. destruct (State.packet_port s); [|by rewrite app_nil_r].
  cbn [is_none is_some negb orb]. destruct (poll_ingress (State.ingress s) a) as [i [|]]; simpl;
    [by rewrite app_nil_r|].
  unfold poll_egress. destruct (State.egress s) as [p|]; simpl.
  - destruct (write a) as [n| |]; simpl; try done. by case_if.
  - destruct (recv a) as [data| | | |]; simpl; try done. destruct (write a) as [n| |]; simpl; try done. by case_if.
Qed.

(** C39: Packets cross the adapter in order and without a loss, in both directions
    and whatever fails in between: the packets taken from one side are those the
    other side took whole, in the same order, followed by the one that waits. *)
Theorem tun_packets_kept s l :
  let '(s', taken_in, sent_in, taken_out, sent_out) := polls s l in
  option_list (State.ingress s) ++ taken_in = sent_in ++ option_list (State.ingress s') /\
  option_list (State.egress s) ++ taken_out = sent_out ++ option_list (State.egress s').
Proof.
  revert s. induction l as [|a l IH]; intros s; simpl; [by rewrite !app_nil_r|].
  specialize (IH (poll_instance s a).1).
  destruct (polls _ l) as [[[[s' ti] si] to] so]. destruct IH as [Hi Ho].
  rewrite !app_assoc, poll_in, poll_out, <- !app_assoc, Hi, Ho. by rewrite !app_assoc.
Qed.
