(* ===== verification/ProtectionDummy.v ===== *)
(** protection-dummy (modules/protection-dummy/src/lib.rs): the protection that
    changes nothing.  A wrapped stream is a handle of the module that stands for
    a handle of the carrier; every call is passed on.

    The stream below is a table of [Abi.SnolByteIoV1] over a world [W]; the pointer
    to it is a number, and [table] is what it points to.  The wake handles go
    through with the calls and are left out. *)
From S2P Require Import Prelude Text Admin Abi.
#[local] Open Scope Z_scope.

(** * As a library: a stream around a stream *)

Record Dummy (T : Type) := mkDummy { inner : T }.
Arguments mkDummy {T} _.
Arguments inner {T} _.

#[export] Instance dummy_byte_io `{ByteIo T} : ByteIo (Dummy T) := {|
  poll_read d n := let '(t, data, r) := poll_read (inner d) n in (mkDummy t, data, r);
  poll_write d input := let '(t, r) := poll_write (inner d) input in (mkDummy t, r);
  poll_flush d := let '(t, r) := poll_flush (inner d) in (mkDummy t, r);
  poll_shutdown_write d := let '(t, r) := poll_shutdown_write (inner d) in (mkDummy t, r);
  close_io d := let '(t, r) := close_io (inner d) in (mkDummy t, r);
|}.

(** * As a module *)

Module Options.
Inductive t := mk.
End Options.

Definition validate_config `{Toml Options.t} (config : bytes) : option unit :=
  text ← from_utf8 config;
  options ← toml_from_str text;
  match options with Options.mk => Some tt end.

Module Wrapped.
Record t := mk { lower : Z; io : Z }.
End Wrapped.

(** [INSTANCES], kept by the SDK; [WRAPPED] and [NEXT]. *)
Module State.
Record t := mk { INSTANCES : gset Z; WRAPPED : gmap Z Wrapped.t; NEXT : Z }.
End State.

Section io.
Context {W : Type} (table : Z -> SnolByteIoV1.t W) (size_of_byte_io : Z).

Definition complete_io (io : Z) : bool :=
  let t := table io in
  (size_of_byte_io <=? SnolByteIoV1.struct_size t) && (SnolByteIoV1.reserved t =? 0)
  && is_some (SnolByteIoV1.read t) && is_some (SnolByteIoV1.write t)
  && is_some (SnolByteIoV1.flush t) && is_some (SnolByteIoV1.shutdown_write t)
  && is_some (SnolByteIoV1.close t).

(** [wrap], with the handle it stores. *)
Definition wrap (s : State.t) (instance lower io : Z) (output_null : bool)
    : State.t * option Z * Status.t :=
  if negb (bool_decide (instance ∈ State.INSTANCES s)) || (lower =? 0) || (io =? 0)
  then (s, None, Status.INVALID)
  else if negb (complete_io io) then (s, None, Status.INVALID)
  else if output_null then (s, None, Status.INVALID)
  else
    let '(handle, next) := fetch_add (State.NEXT s) in
    if handle =? 0
    then (State.mk (State.INSTANCES s) (State.WRAPPED s) next, None, Status.RESOURCE)
    else
      (State.mk (State.INSTANCES s) (<[handle := Wrapped.mk lower io]> (State.WRAPPED s)) next,
       Some handle, Status.OK).

Definition wrapped (s : State.t) (handle : Z) : option Wrapped.t := State.WRAPPED s !! handle.

(** The functions of [BYTE_IO]. *)
Definition read (s : State.t) (w : W) (handle n : Z) : W * bytes * SnolIoResult.t :=
  match wrapped s handle with
  | None => (w, [], SnolIoResult.error Status.INVALID)
  | Some x =>
      match SnolByteIoV1.read (table (Wrapped.io x)) with
      | None => (w, [], SnolIoResult.error Status.INVALID)
      | Some read => read w (Wrapped.lower x) n
      end
  end.

Definition write (s : State.t) (w : W) (handle : Z) (input : bytes) : W * SnolIoResult.t :=
  match wrapped s handle with
  | None => (w, SnolIoResult.error Status.INVALID)
  | Some x =>
      match SnolByteIoV1.write (table (Wrapped.io x)) with
      | None => (w, SnolIoResult.error Status.INVALID)
      | Some write => write w (Wrapped.lower x) input
      end
  end.

Definition flush (s : State.t) (w : W) (handle : Z) : W * SnolIoResult.t :=
  match wrapped s handle with
  | None => (w, SnolIoResult.error Status.INVALID)
  | Some x =>
      match SnolByteIoV1.flush (table (Wrapped.io x)) with
      | None => (w, SnolIoResult.error Status.INVALID)
      | Some flush => flush w (Wrapped.lower x)
      end
  end.

Definition shutdown_write (s : State.t) (w : W) (handle : Z) : W * SnolIoResult.t :=
  match wrapped s handle with
  | None => (w, SnolIoResult.error Status.INVALID)
  | Some x =>
      match SnolByteIoV1.shutdown_write (table (Wrapped.io x)) with
      | None => (w, SnolIoResult.error Status.INVALID)
      | Some shutdown => shutdown w (Wrapped.lower x)
      end
  end.

Definition close (s : State.t) (w : W) (handle : Z) : State.t * W * Status.t :=
  match State.WRAPPED s !! handle with
  | None => (s, w, Status.INVALID)
  | Some x =>
      let s := State.mk (State.INSTANCES s) (delete handle (State.WRAPPED s)) (State.NEXT s) in
      match SnolByteIoV1.close (table (Wrapped.io x)) with
      | None => (s, w, Status.INVALID)
      | Some close => let '(w, status) := close w (Wrapped.lower x) in (s, w, status)
      end
  end.

(** * Transparency *)

(** A call of the host, and what it is answered. *)
Inductive call :=
| Wrap (instance lower io : Z)
| Read (handle n : Z)
| Write (handle : Z) (input : bytes)
| Flush (handle : Z)
| Shutdown (handle : Z)
| Close (handle : Z).

Inductive answer :=
| Handle (handle : option Z) (status : Status.t)
| Data (data : bytes) (r : SnolIoResult.t)
| Result (r : SnolIoResult.t)
| Code (status : Status.t).

Definition invoke (s : State.t) (w : W) (c : call) : State.t * W * answer :=
  match c with
  | Wrap instance lower io => let '(s, h, st) := wrap s instance lower io false in (s, w, Handle h st)
  | Read h n => let '(w, data, r) := read s w h n in (s, w, Data data r)
  | Write h input => let '(w, r) := write s w h input in (s, w, Result r)
  | Flush h => let '(w, r) := flush s w h in (s, w, Result r)
  | Shutdown h => let '(w, r) := shutdown_write s w h in (s, w, Result r)
  | Close h => let '(s, w, st) := close s w h in (s, w, Code st)
  end.

Fixpoint invoke_all (s : State.t) (w : W) (l : list call) : State.t * W * list answer :=
  match l with
  | [] => (s, w, [])
  | c :: l =>
      let '(s, w, a) := invoke s w c in
      let '(s, w, r) := invoke_all s w l in (s, w, a :: r)
  end.

Definition is_wrap (c : call) : bool := match c with Wrap _ _ _ => true | _ => false end.
Definition closes (h : Z) (c : call) : bool := match c with Close h' => h' =? h | _ => false end.

Lemma invoke_handle s w c h :
  0 <= h < State.NEXT s -> State.NEXT s + (if is_wrap c then 1 else 0) <= u64_max ->
  let s' := (invoke s w c).1.1 in
  State.WRAPPED s' !! h = (if closes h c then None else State.WRAPPED s !! h) /\
  State.NEXT s <= State.NEXT s' <= State.NEXT s + (if is_wrap c then 1 else 0).
Proof.
  intros Hh Hn. destruct c as [i lower io|h' n|h' input|h'|h'|h']; simpl in *.
  - unfold wrap, fetch_add, wrapping_add. do 3 (case_if; simpl; [split; [done|lia]|]).
    rewrite Z.mod_small by (unfold u64_max in *; lia).
    rewrite lookup_insert_ne by lia. split; [done|lia].
  - destruct (read s w h' n) as [[??]?]. simpl. split; [done|lia].
  - destruct (write s w h' input). simpl. split; [done|lia].
  - destruct (flush s w h'). simpl. split; [done|lia].
  - destruct (shutdown_write s w h'). simpl. split; [done|lia].
  - unfold close. destruct (State.WRAPPED s !! h') as [x|] eqn:E.
    + destruct (SnolByteIoV1.close _) as [f|]; [destruct (f w _)|]; simpl;
        (split; [|lia]); destruct (Z.eqb_spec h' h) as [->|];
        [apply lookup_delete_eq|by apply lookup_delete_ne|apply lookup_delete_eq|by apply lookup_delete_ne].
    + simpl. split; [|lia]. by destruct (Z.eqb_spec h' h) as [->|].
Qed.

(** The streams that the calls wrap. *)
Definition wraps (l : list call) : Z := foldr (fun c n => (if is_wrap c then 1 else 0) + n) 0 l.

Lemma wraps_nonneg l : 0 <= wraps l.
Proof. induction l as [|c l IH]; simpl; [done|]. destruct (is_wrap c); lia. Qed.

Lemma invoke_all_handle s w l h :
  0 <= h < State.NEXT s -> State.NEXT s + wraps l <= u64_max ->
  State.WRAPPED (invoke_all s w l).1.1 !! h
  = (if existsb (closes h) l then None else State.WRAPPED s !! h).
Proof.
  revert s w. induction l as [|c l IH]; intros s w Hh Hn; simpl in *; [done|].
  pose proof (wraps_nonneg l). destruct (invoke_handle s w c h) as [Hl Hs]; [done|lia|].
  destruct (invoke s w c) as [[s1 w1] a]. simpl in *.
  specialize (IH s1 w1 ltac:(lia) ltac:(lia)).
  destruct (invoke_all s1 w1 l) as [[s2 w2] r]. simpl in *. rewrite IH, Hl.
  by destruct (closes h c), (existsb (closes h) l).
Qed.

Lemma wrap_OK s instance lower io s1 h :
  wrap s instance lower io false = (s1, Some h, Status.OK) ->
  h = State.NEXT s /\ State.NEXT s1 = (h + 1) mod (u64_max + 1) /\
  State.WRAPPED s1 !! h = Some (Wrapped.mk lower io) /\ complete_io io = true.
Proof.
  unfold wrap, fetch_add, wrapping_add. do 2 (case_if; [done|]). simpl. case_if; [done|].
  intros [= <- <-]. simpl. rewrite lookup_insert_eq. bools. done.
Qed.

(** C38: A protected stream is the carrier's stream.  Once [wrap] has given a handle,
    and whatever other streams are wrapped, used and closed meanwhile, every call
    on the handle has exactly the effect and the answer of the carrier's own
    function on the carrier's handle; and once the handle was closed, every call
    on it is answered INVALID and reaches nothing.  (Fewer than 2^64 streams have
    been wrapped.) *)
Theorem dummy_transparent s w instance lower io s1 h l
    (Hwrap : wrap s instance lower io false = (s1, Some h, Status.OK))
    (H0 : 0 <= State.NEXT s) (Hroom : State.NEXT s + 1 + wraps l <= u64_max) :
  let '(s2, w2, _) := invoke_all s1 w l in
  if existsb (closes h) l then
    (forall n, read s2 w2 h n = (w2, [], SnolIoResult.error Status.INVALID)) /\
    (forall input, write s2 w2 h input = (w2, SnolIoResult.error Status.INVALID)) /\
    flush s2 w2 h = (w2, SnolIoResult.error Status.INVALID) /\
    shutdown_write s2 w2 h = (w2, SnolIoResult.error Status.INVALID) /\
    close s2 w2 h = (s2, w2, Status.INVALID)
  else
    exists fr fw ff fs fc,
      SnolByteIoV1.read (table io) = Some fr /\ SnolByteIoV1.write (table io) = Some fw /\
      SnolByteIoV1.flush (table io) = Some ff /\ SnolByteIoV1.shutdown_write (table io) = Some fs /\
      SnolByteIoV1.close (table io) = Some fc /\
      (forall n, read s2 w2 h n = fr w2 lower n) /\
      (forall input, write s2 w2 h input = fw w2 lower input) /\
      flush s2 w2 h = ff w2 lower /\ shutdown_write s2 w2 h = fs w2 lower /\
      (close s2 w2 h).1.2 = (fc w2 lower).1 /\ (close s2 w2 h).2 = (fc w2 lower).2.
Proof.
  destruct (wrap_OK _ _ _ _ _ _ Hwrap) as (-> & Hn & Hl & Hio). pose proof (wraps_nonneg l).
  rewrite Z.mod_small in Hn by lia.
  pose proof (invoke_all_handle s1 w l (State.NEXT s) ltac:(lia) ltac:(lia)) as Hs2.
  destruct (invoke_all s1 w l) as [[s2 w2] r]. simpl in Hs2. rewrite Hl in Hs2.
  unfold read, write, flush, shutdown_write, close, wrapped. rewrite Hs2.
  case_if; [done|]. unfold complete_io in Hio. bools. simpl.
  destruct (SnolByteIoV1.read _) as [fr|]; [|done]. destruct (SnolByteIoV1.write _) as [fw|]; [|done].
  destruct (SnolByteIoV1.flush _) as [ff|]; [|done].
  destruct (SnolByteIoV1.shutdown_write _) as [fs|]; [|done].
  destruct (SnolByteIoV1.close _) as [fc|]; [|done].
  exists fr, fw, ff, fs, fc. destruct (fc w2 lower). done.
Qed.
End io.

(** Two streams over one world, a list of what was written: the second is closed
    while the first is in use. *)
Definition demo_table (io : Z) : SnolByteIoV1.t (list (Z * bytes)) :=
  SnolByteIoV1.mk 48 0 (Some (fun w _ _ => (w, [], SnolIoResult.pending)))
    (Some (fun w h d => (w ++ [(h, d)], SnolIoResult.progress (len d))))
    (Some (fun w _ => (w, SnolIoResult.progress 0))) (Some (fun w _ => (w, SnolIoResult.eof)))
    (Some (fun w _ => (w, Status.OK))).

Definition demo_state : State.t := State.mk {[ 1 ]} ∅ 1.
Definition demo_wrapped : State.t := (wrap demo_table 48 demo_state 1 7 9 false).1.1.

Lemma dummy_transparent_witness :
  let '(s2, w2, _) := invoke_all demo_table 48 demo_wrapped [] [Wrap 1 8 9; Write 2 (#"b"); Close 2] in
  write demo_table s2 w2 1 (#"a") = ([(8, #"b"); (7, #"a")], SnolIoResult.progress 1).
Proof.
  pose proof (dummy_transparent demo_table 48 demo_state [] 1 7 9 demo_wrapped 1
    [Wrap 1 8 9; Write 2 (#"b"); Close 2]
    ltac:(vm_compute; reflexivity) ltac:(simpl; lia) ltac:(vm_compute; congruence)) as T.
  vm_compute in T. destruct T as (fr & fw & ff & fs & fc & _ & Hw & _ & _ & _ & _ & Ht & _).
  injection Hw as <-. vm_compute. reflexivity.
Defined.
