(* ===== verification/PolicyDummy.v ===== *)
(** policy-dummy (modules/policy-dummy/src/lib.rs): the policy that admits every
    flow and moves its bytes both ways without a limit.

    The pumps and the streams belong to the SDK.  A flow is the pair of streams it
    joins; what its two pumps answer to a poll is an argument of the poll. *)
From S2P Require Import Prelude Text Admin Abi.
#[local] Open Scope Z_scope.

Definition MAX_UDP_PAYLOAD : Z := 65507.

(** A pump is polled: [true] when it has finished. *)
Definition pump_answer := poll (result unit bool).

(** The end of [DummyFlow::poll] and of [DummyDatagramFlow::poll]. *)
Definition both (upload download : pump_answer) : poll (result unit (bool * bool)) :=
  match upload, download with
  | Ready (Ok upload), Ready (Ok download) => Ready (Ok (upload, download))
  | Ready (Err error), _ | _, Ready (Err error) => Ready (Err error)
  | _, _ => Pending
  end.

(** [pump] is [Pump::new] with the size of the buffer: whether it gives a pump. *)
Module DummyFlow.
Record t := mk { stack : Z; mux : Z; buffer_bytes : Z }.
Definition new (pump : Z -> bool) (stack mux buffer_bytes : Z) : option t :=
  if pump buffer_bytes then Some (mk stack mux buffer_bytes) else None.
Definition poll := both.
End DummyFlow.

Module DummyDatagramFlow.
Record t := mk { stack : Z; mux : Z; payload : Z }.
Definition new (pump : Z -> bool) (stack mux : Z) : option t :=
  if pump MAX_UDP_PAYLOAD then Some (mk stack mux MAX_UDP_PAYLOAD) else None.
Definition poll := both.
End DummyDatagramFlow.

Module Options.
Record t := mk { pump_buffer_bytes : Z }.
End Options.

Definition parse_options `{Toml Options.t} (config : bytes) : option Options.t :=
  text ← from_utf8 config;
  options ← toml_from_str text;
  if Options.pump_buffer_bytes options =? 0 then None else Some options.

Definition validate_config `{Toml Options.t} (config : bytes) : bool := is_some (parse_options config).

Module State.
Record t := mk {
  pump_buffer_bytes : Z;
  sessions : gmap Z Z;
  flows : gmap Z DummyFlow.t;
  datagram_flows : gmap Z DummyDatagramFlow.t;
}.
End State.

(** [INSTANCES], kept by the SDK; [STATES], [SESSION_NEXT] and [FLOW_NEXT]. *)
Module Process.
Record t := mk {
  INSTANCES : gset Z;
  STATES : gmap Z State.t;
  SESSION_NEXT : Z;
  FLOW_NEXT : Z;
}.
Definition set_states (p : t) (m : gmap Z State.t) : t :=
  mk (INSTANCES p) m (SESSION_NEXT p) (FLOW_NEXT p).
Definition set_session_next (p : t) (n : Z) : t := mk (INSTANCES p) (STATES p) n (FLOW_NEXT p).
Definition set_flow_next (p : t) (n : Z) : t := mk (INSTANCES p) (STATES p) (SESSION_NEXT p) n.
End Process.

Definition initialize `{Toml Options.t} (p : Process.t) (instance : Z) (config : bytes)
    : Process.t * result Status.t unit :=
  match parse_options config with
  | None => (p, Err Status.INVALID)
  | Some options =>
      (Process.set_states p (<[instance := State.mk (Options.pump_buffer_bytes options) ∅ ∅ ∅]>
         (Process.STATES p)), Ok tt)
  end.

Definition known (p : Process.t) (instance : Z) : bool := bool_decide (instance ∈ Process.INSTANCES p).

(** A stream that a call passes: its handle, its table (0 for null), and whether
    [from_raw] takes them. *)
Record foreign := mkForeign { handle : Z; io : Z; from_raw : bool }.

(** [attach_session], with the handle it stores. *)
Definition attach_session (p : Process.t) (instance : Z) (policy_stream : foreign) (output_null : bool)
    : Process.t * option Z * Status.t :=
  if negb (known p instance) || (handle policy_stream =? 0) || (io policy_stream =? 0)
  then (p, None, Status.INVALID)
  else if output_null then (p, None, Status.INVALID)
  else if negb (from_raw policy_stream) then (p, None, Status.INVALID)
  else
    let '(h, next) := fetch_add (Process.SESSION_NEXT p) in
    let p := Process.set_session_next p next in
    if h =? 0 then (p, None, Status.RESOURCE)
    else match Process.STATES p !! instance with
    | None => (p, None, Status.INVALID)
    | Some s =>
        let s := State.mk (State.pump_buffer_bytes s) (<[h := handle policy_stream]> (State.sessions s))
                   (State.flows s) (State.datagram_flows s) in
        (Process.set_states p (<[instance := s]> (Process.STATES p)), Some h, Status.OK)
    end.

(** [admit_flow]; [metadata] is what [flow_metadata] answers. *)
Definition admit_flow (p : Process.t) (instance session : Z) (metadata : result Status.t unit) : Status.t :=
  if negb (known p instance) || (session =? 0) then Status.INVALID
  else match metadata with Ok _ => Status.OK | Err status => status end.

Definition valid_pair (p : Process.t) (instance session : Z) (stack_socket mux_stream : foreign) : bool :=
  known p instance && negb (session =? 0)
  && negb (handle stack_socket =? 0) && negb (io stack_socket =? 0)
  && negb (handle mux_stream =? 0) && negb (io mux_stream =? 0).

(** The checks that [attach_flow] and [attach_datagram_flow] share: the state of
    the instance, in which the session is known and both streams are taken. *)
Definition attachable (p : Process.t) (instance session : Z) (stack_socket mux_stream : foreign)
    : option State.t :=
  if negb (valid_pair p instance session stack_socket mux_stream) then None
  else
    s ← Process.STATES p !! instance;
    if negb (is_some (State.sessions s !! session)) then None
    else if negb (from_raw stack_socket) then None
    else if negb (from_raw mux_stream) then None
    else Some s.

Definition attach_flow (pump : Z -> bool) (p : Process.t) (instance session : Z)
    (stack_socket mux_stream : foreign) : Process.t * Status.t :=
  match attachable p instance session stack_socket mux_stream with
  | None => (p, Status.INVALID)
  | Some s =>
      match DummyFlow.new pump (handle stack_socket) (handle mux_stream) (State.pump_buffer_bytes s) with
      | None => (p, Status.RESOURCE)
      | Some flow =>
          let '(h, next) := fetch_add (Process.FLOW_NEXT p) in
          let p := Process.set_flow_next p next in
          if h =? 0 then (p, Status.RESOURCE)
          else
            let s := State.mk (State.pump_buffer_bytes s) (State.sessions s)
                       (<[h := flow]> (State.flows s)) (State.datagram_flows s) in
            (Process.set_states p (<[instance := s]> (Process.STATES p)), Status.OK)
      end
  end.

Definition attach_datagram_flow (pump : Z -> bool) (p : Process.t) (instance session : Z)
    (stack_socket mux_stream : foreign) : Process.t * Status.t :=
  match attachable p instance session stack_socket mux_stream with
  | None => (p, Status.INVALID)
  | Some s =>
      match DummyDatagramFlow.new pump (handle stack_socket) (handle mux_stream) with
      | None => (p, Status.RESOURCE)
      | Some flow =>
          let '(h, next) := fetch_add (Process.FLOW_NEXT p) in
          let p := Process.set_flow_next p next in
          if h =? 0 then (p, Status.RESOURCE)
          else
            let s := State.mk (State.pump_buffer_bytes s) (State.sessions s)
                       (State.flows s) (<[h := flow]> (State.datagram_flows s)) in
            (Process.set_states p (<[instance := s]> (Process.STATES p)), Status.OK)
      end
  end.

(** What the two pumps of every flow answer to a poll. *)
Record answers := mkAnswers {
  pumps : Z -> pump_answer * pump_answer;
  datagram_pumps : Z -> pump_answer * pump_answer;
}.

(** A loop of [poll_instance] over the flows in the order of the map: the flows that
    have finished, or [None] where it returns early. *)
Fixpoint poll_flows {A} (poll : pump_answer -> pump_answer -> Prelude.poll (result unit (bool * bool)))
    (pumps : Z -> pump_answer * pump_answer) (l : list (Z * A)) (finished : list Z) : option (list Z) :=
  match l with
  | [] => Some finished
  | (h, _) :: l =>
      match poll (pumps h).1 (pumps h).2 with
      | Ready (Ok (true, true)) => poll_flows poll pumps l (finished ++ [h])
      | Ready (Err _) => None
      | Ready (Ok _) | Pending => poll_flows poll pumps l finished
      end
  end.

Definition remove_all {A} (m : gmap Z A) (l : list Z) : gmap Z A := foldl (fun m h => delete h m) m l.

Section poll.
Context `{HashOrder}.

Definition poll_state (s : State.t) (a : answers) : State.t * Status.t :=
  match poll_flows DummyFlow.poll (pumps a) (hash_order (map_to_list (State.flows s))) [] with
  | None => (s, Status.IO)
  | Some finished =>
      let s := State.mk (State.pump_buffer_bytes s) (State.sessions s)
                 (remove_all (State.flows s) finished) (State.datagram_flows s) in
      match poll_flows DummyDatagramFlow.poll (datagram_pumps a)
              (hash_order (map_to_list (State.datagram_flows s))) [] with
      | None => (s, Status.IO)
      | Some finished =>
          (State.mk (State.pump_buffer_bytes s) (State.sessions s) (State.flows s)
             (remove_all (State.datagram_flows s) finished), Status.PENDING)
      end
  end.

Definition poll_instance (p : Process.t) (instance : Z) (a : answers) : Process.t * Status.t :=
  match Process.STATES p !! instance with
  | None => (p, Status.INVALID)
  | Some s =>
      let '(s, status) := poll_state s a in
      (Process.set_states p (<[instance := s]> (Process.STATES p)), status)
  end.
End poll.

Definition control_instance (instance : Z) (request : bytes) : result Status.t bytes := Err Status.UNSUPPORTED.

Definition shutdown_instance (p : Process.t) (instance : Z) : Process.t * Status.t :=
  (Process.set_states p (delete instance (Process.STATES p)),
   if is_some (Process.STATES p !! instance) then Status.OK else Status.INVALID).

Definition destroy_instance (p : Process.t) (instance : Z) : Process.t :=
  Process.set_states p (delete instance (Process.STATES p)).

(** * What a poll does *)

(** A flow fails when one of its pumps does, and ends when both have finished. *)
Definition fails (x : pump_answer * pump_answer) : bool :=
  match x with (Ready (Err _), _) | (_, Ready (Err _)) => true | _ => false end.
Definition ends (x : pump_answer * pump_answer) : bool :=
  match x with (Ready (Ok true), Ready (Ok true)) => true | _ => false end.

Lemma both_cases x :
  both x.1 x.2 = Ready (Ok (true, true)) /\ ends x = true /\ fails x = false \/
  both x.1 x.2 = Ready (Err tt) /\ ends x = false /\ fails x = true \/
  (both x.1 x.2 = Pending \/ exists u d, both x.1 x.2 = Ready (Ok (u, d)) /\ u && d = false)
  /\ ends x = false /\ fails x = false.
Proof.
  destruct x as [[[[|]|[]]|] [[[|]|[]]|]]; simpl; auto 10; right; right; (split; [|done]);
    first [by left | right; by eauto].
Qed.

Lemma poll_flows_spec {A} pumps (l : list (Z * A)) finished :
  poll_flows both pumps l finished
  = if existsb (fun x => fails (pumps x.1)) l then None
    else Some (finished ++ (filter (fun h => ends (pumps h) = true) l.*1)).
Proof.
  revert finished. induction l as [|[h f] l IH]; intros finished; simpl; [by rewrite app_nil_r|].
  destruct (both_cases (pumps h)) as [(-> & He & ->)|[(-> & He & ->)|(Hb & He & ->)]]; simpl.
  - rewrite IH. case_if; [done|]. rewrite filter_cons_True by done. by rewrite <- app_assoc.
  - done.
  - rewrite filter_cons_False by congruence.
    destruct Hb as [->|([|] & [|] & -> & ?)]; try done; apply IH.
Qed.

Lemma remove_all_lookup {A} (m : gmap Z A) l h :
  remove_all m l !! h = if bool_decide (h ∈ l) then None else m !! h.
Proof.
  unfold remove_all. revert m. induction l as [|h' l IH]; intros m; simpl; [done|].
  rewrite IH. destruct (decide (h = h')) as [->|].
  - rewrite lookup_delete_eq. rewrite (bool_decide_eq_true_2 (h' ∈ h' :: l)) by set_solver. by case_bool_decide.
  - rewrite lookup_delete_ne by done. repeat case_bool_decide; set_solver.
Qed.

Section facts.
Context `{HashOrder}.

(** The failure of some flow, and the flows that go on. *)
Definition some_fails {A} (pumps : Z -> pump_answer * pump_answer) (m : gmap Z A) : Prop :=
  map_Exists (fun h _ => fails (pumps h) = true) m.
#[global] Instance some_fails_dec {A} pumps (m : gmap Z A) : Decision (some_fails pumps m).
Proof. unfold some_fails. apply _. Defined.
Definition going {A} (pumps : Z -> pump_answer * pump_answer) (m : gmap Z A) : gmap Z A :=
  filter (fun x => ends (pumps x.1) = false) m.

Lemma poll_map {A} pumps (m : gmap Z A) :
  match poll_flows both pumps (hash_order (map_to_list m)) [] with
  | None => some_fails pumps m
  | Some finished => ~ some_fails pumps m /\ remove_all m finished = going pumps m
  end.
Proof.
  rewrite poll_flows_spec. destruct (existsb _ _) eqn:E.
  - apply existsb_exists in E as ([h f] & Hin & Hf). apply list_elem_of_In in Hin.
    rewrite hash_order_perm in Hin. apply elem_of_map_to_list in Hin. by exists h, f.
  - split.
    + intros (h & f & Hl & Hf). apply not_true_iff_false in E. apply E. apply existsb_exists.
      exists (h, f). split; [|done]. apply list_elem_of_In. rewrite hash_order_perm.
      by apply elem_of_map_to_list.
    + apply map_eq. intros h. rewrite remove_all_lookup. simpl. unfold going.
      destruct (m !! h) as [f|] eqn:El.
      * assert (h ∈ (hash_order (map_to_list m)).*1).
        { rewrite hash_order_perm. apply list_elem_of_fmap. exists (h, f). split; [done|].
          by apply elem_of_map_to_list. }
        case_bool_decide as Hin; symmetry.
        -- apply map_lookup_filter_None. right. apply list_elem_of_filter in Hin as [He _].
           intros ? _. simpl. congruence.
        -- apply map_lookup_filter_Some. split; [done|]. simpl. apply not_true_iff_false.
           intros He. apply Hin. by apply list_elem_of_filter.
      * replace (filter _ m !! h) with (@None A); [by case_bool_decide|].
        symmetry. apply map_lookup_filter_None. by left.
Qed.

(** What a poll of the pass-through policy does, on every branch and for every
    order of the maps.  When no flow fails, the flows whose two directions have
    finished are removed, all others stay, and the answer is PENDING.  But one
    failing flow is enough for the answer IO, and it stays: a failed TCP flow
    keeps every flow of the instance, the finished ones too, and no datagram flow
    is polled; a failed datagram flow keeps every datagram flow. *)
Theorem policy_dummy_poll (s : State.t) (a : answers) :
  poll_state s a =
  if decide (some_fails (pumps a) (State.flows s)) then (s, Status.IO)
  else
    let flows := going (pumps a) (State.flows s) in
    if decide (some_fails (datagram_pumps a) (State.datagram_flows s))
    then (State.mk (State.pump_buffer_bytes s) (State.sessions s) flows (State.datagram_flows s), Status.IO)
    else (State.mk (State.pump_buffer_bytes s) (State.sessions s) flows
            (going (datagram_pumps a) (State.datagram_flows s)), Status.PENDING).
Proof.
  unfold poll_state, DummyFlow.poll, DummyDatagramFlow.poll. pose proof (poll_map (pumps a) (State.flows s)) as H1.
  destruct (poll_flows _ (pumps a) _ _) as [l|]; [destruct H1 as [H1 ->]|]; (destruct (decide _) as [H1'|H1']; [|]);
    try done.
  cbn [State.datagram_flows]. pose proof (poll_map (datagram_pumps a) (State.datagram_flows s)) as H2.
  destruct (poll_flows _ (datagram_pumps a) _ _) as [l'|]; [destruct H2 as [H2 ->]|];
    (destruct (decide (some_fails (datagram_pumps a) _)); [|]); done.
Qed.
End facts.
