(* ===== verification/Stack.v ===== *)
(** Protections on top of each other: the tables of functions that
    protection-dummy and protection-noise hand out ([BYTE_IO] of
    modules/protection-dummy/src/lib.rs and modules/protection-noise/src/lib.rs),
    and what a module above a stream can tell about it.

    A stream is seen through its table only.  [SameStream] says that two streams
    answer alike; a handle of protection-dummy is the same stream as the one it
    wraps, and protection-noise, which has a stream below, cannot tell the
    difference between two streams that are the same: not while it drives a
    handshake and not while it moves records. *)
From S2P Require Import Prelude Text Admin Abi ProtectionDummy Noise NoiseHandshakes.
#[local] Open Scope Z_scope.

(** * The tables *)

Section tables.
Context {W : Type} (table : Z -> SnolByteIoV1.t W) (size_of_byte_io : Z).

(** [BYTE_IO] of protection-dummy; the world has the module's own state too. *)
Definition dummy_table : SnolByteIoV1.t (ProtectionDummy.State.t * W) := {|
  SnolByteIoV1.struct_size := size_of_byte_io;
  SnolByteIoV1.reserved := 0;
  SnolByteIoV1.read := Some (fun '(s, w) h n =>
    let '(w, data, r) := ProtectionDummy.read table s w h n in ((s, w), data, r));
  SnolByteIoV1.write := Some (fun '(s, w) h input =>
    let '(w, r) := ProtectionDummy.write table s w h input in ((s, w), r));
  SnolByteIoV1.flush := Some (fun '(s, w) h =>
    let '(w, r) := ProtectionDummy.flush table s w h in ((s, w), r));
  SnolByteIoV1.shutdown_write := Some (fun '(s, w) h =>
    let '(w, r) := ProtectionDummy.shutdown_write table s w h in ((s, w), r));
  SnolByteIoV1.close := Some (fun '(s, w) h =>
    let '(s, w, st) := ProtectionDummy.close table s w h in ((s, w), st));
|}.

Context `{Snow}.

(** [BYTE_IO] of protection-noise. *)
Definition noise_table : SnolByteIoV1.t (Noise.t * W) := {|
  SnolByteIoV1.struct_size := size_of_byte_io;
  SnolByteIoV1.reserved := 0;
  SnolByteIoV1.read := Some (fun '(m, w) h n =>
    let '(m, w, data, r) := Noise.read table m w h false n in ((m, w), data, r));
  SnolByteIoV1.write := Some (fun '(m, w) h input =>
    let '(m, w, r) := Noise.write table m w h (Ok input) in ((m, w), r));
  SnolByteIoV1.flush := Some (fun '(m, w) h =>
    let '(m, w, r) := Noise.flush table m w h in ((m, w), r));
  SnolByteIoV1.shutdown_write := Some (fun '(m, w) h =>
    let '(m, w, r) := Noise.shutdown_write table m w h in ((m, w), r));
  SnolByteIoV1.close := Some (fun '(m, w) h =>
    let '(m, w, st) := Noise.close table m w h in ((m, w), st));
|}.
End tables.

(** * Streams that answer alike *)

(** The stream [a] of a table [ta] in one world and the stream [b] of [tb] in
    another: in worlds that [R] relates they answer the same and the worlds stay
    related; closing leaves them related by [Rc].  Unless they are alike in [full],
    a read into an empty buffer is left open. *)
Class SameStream {A B : Type} (full : bool) (R Rc : A -> B -> Prop)
    (ta : SnolByteIoV1.t A) (a : Z) (tb : SnolByteIoV1.t B) (b : Z) := {
  same_read : option_Forall2 (fun f g => forall wa wb n, R wa wb -> full = true \/ n <> 0 ->
    R (f wa a n).1.1 (g wb b n).1.1 /\ (f wa a n).1.2 = (g wb b n).1.2 /\ (f wa a n).2 = (g wb b n).2)
    (SnolByteIoV1.read ta) (SnolByteIoV1.read tb);
  same_write : option_Forall2 (fun f g => forall wa wb input, R wa wb ->
    R (f wa a input).1 (g wb b input).1 /\ (f wa a input).2 = (g wb b input).2)
    (SnolByteIoV1.write ta) (SnolByteIoV1.write tb);
  same_flush : option_Forall2 (fun f g => forall wa wb, R wa wb ->
    R (f wa a).1 (g wb b).1 /\ (f wa a).2 = (g wb b).2) (SnolByteIoV1.flush ta) (SnolByteIoV1.flush tb);
  same_shutdown : option_Forall2 (fun f g => forall wa wb, R wa wb ->
    R (f wa a).1 (g wb b).1 /\ (f wa a).2 = (g wb b).2)
    (SnolByteIoV1.shutdown_write ta) (SnolByteIoV1.shutdown_write tb);
  same_close : option_Forall2 (fun f g => forall wa wb, R wa wb ->
    Rc (f wa a).1 (g wb b).1 /\ (f wa a).2 = (g wb b).2) (SnolByteIoV1.close ta) (SnolByteIoV1.close tb);
  same_weaken wa wb : R wa wb -> Rc wa wb;
}.

(** A call of the host through a table, and a sequence of them. *)
Inductive call := Read (n : Z) | Write (input : bytes) | Flush | Shutdown.

Definition invoke {A} (t : SnolByteIoV1.t A) (h : Z) (w : A) (c : call) : A * option (bytes * SnolIoResult.t) :=
  match c with
  | Read n => match SnolByteIoV1.read t with
              | Some f => let '(w, data, r) := f w h n in (w, Some (data, r)) | None => (w, None) end
  | Write input => match SnolByteIoV1.write t with
                   | Some f => let '(w, r) := f w h input in (w, Some ([], r)) | None => (w, None) end
  | Flush => match SnolByteIoV1.flush t with
             | Some f => let '(w, r) := f w h in (w, Some ([], r)) | None => (w, None) end
  | Shutdown => match SnolByteIoV1.shutdown_write t with
                | Some f => let '(w, r) := f w h in (w, Some ([], r)) | None => (w, None) end
  end.

Fixpoint invoke_all {A} (t : SnolByteIoV1.t A) (h : Z) (w : A) (l : list call)
  : A * list (option (bytes * SnolIoResult.t)) :=
  match l with
  | [] => (w, [])
  | c :: l => let '(w, r) := invoke t h w c in let '(w, rs) := invoke_all t h w l in (w, r :: rs)
  end.

Section same.
Context {A B : Type} (R Rc : A -> B -> Prop) (tableA : Z -> SnolByteIoV1.t A) (tableB : Z -> SnolByteIoV1.t B).
Context (ia a ib b : Z) (full : bool) `{!SameStream full R Rc (tableA ia) a (tableB ib) b}.

Lemma invoke_same wa wb c : full = true -> R wa wb ->
  R (invoke (tableA ia) a wa c).1 (invoke (tableB ib) b wb c).1 /\
  (invoke (tableA ia) a wa c).2 = (invoke (tableB ib) b wb c).2.
Proof.
  intros Hfull Hw. destruct c as [n|input| |]; simpl.
  - destruct same_read as [f g Hf|]; [|done]. specialize (Hf wa wb n Hw (or_introl Hfull)).
    destruct (f wa a n) as [[??]?], (g wb b n) as [[??]?]. simpl in *. naive_solver.
  - destruct same_write as [f g Hf|]; [|done]. specialize (Hf wa wb input Hw).
    destruct (f wa a input), (g wb b input). simpl in *. naive_solver.
  - destruct same_flush as [f g Hf|]; [|done]. specialize (Hf wa wb Hw).
    destruct (f wa a), (g wb b). simpl in *. naive_solver.
  - destruct same_shutdown as [f g Hf|]; [|done]. specialize (Hf wa wb Hw).
    destruct (f wa a), (g wb b). simpl in *. naive_solver.
Qed.

Lemma invoke_all_same wa wb l : full = true -> R wa wb ->
  R (invoke_all (tableA ia) a wa l).1 (invoke_all (tableB ib) b wb l).1 /\
  (invoke_all (tableA ia) a wa l).2 = (invoke_all (tableB ib) b wb l).2.
Proof.
  intros Hfull. revert wa wb. induction l as [|c l IH]; intros wa wb Hw; simpl; [done|].
  destruct (invoke_same wa wb c Hfull Hw) as [Hc Er].
  destruct (invoke (tableA ia) a wa c) as [wa' r], (invoke (tableB ib) b wb c) as [wb' r']. simpl in *.
  destruct (IH wa' wb' Hc) as [Hl El]. destruct (invoke_all (tableA ia) a wa' l), (invoke_all (tableB ib) b wb' l).
  simpl in *. split; [done|congruence].
Qed.

(** ** The loops of protection-noise *)

Lemma flush_bytes_same {E} wa wb data offset : R wa wb ->
  let x := flush_bytes (E := E) tableA wa ia a data offset in
  let y := flush_bytes (E := E) tableB wb ib b data offset in
  R x.1.1 y.1.1 /\ x.1.2 = y.1.2 /\ x.2 = y.2.
Proof.
  intros Hw. unfold flush_bytes. destruct same_write as [f g Hf|]; [|done].
  generalize (flush_fuel data offset) as fuel. intros fuel. revert wa wb offset Hw.
  induction fuel as [|fuel IH]; intros wa wb offset Hw; simpl; [done|]. case_if; [|done].
  specialize (Hf wa wb (drop (Z.to_nat offset) data) Hw).
  destruct (f wa a _) as [wa' r], (g wb b _) as [wb' r']. simpl in Hf. destruct Hf as [Hw' ->].
  destruct r' as [count| | |]; try done. case_if; [by apply IH|done].
Qed.

Lemma read_frame_same {E} wa wb reader limit : R wa wb ->
  let x := read_frame (E := E) tableA wa ia a reader limit in
  let y := read_frame (E := E) tableB wb ib b reader limit in
  R x.1.1 y.1.1 /\ x.1.2 = y.1.2 /\ x.2 = y.2.
Proof.
  intros Hw. unfold read_frame. destruct (FrameReader.take reader) as [reader1 [m|]]; [done|].
  destruct same_read as [f g Hf|]; [|done]. generalize (read_fuel reader1 limit) as fuel. intros fuel.
  revert wa wb reader1 Hw. induction fuel as [|fuel IH]; intros wa wb reader1 Hw; simpl; [done|].
  case_if; [done|]. bools.
  specialize (Hf wa wb (FrameReader.remaining_capacity reader1 limit) Hw ltac:(by right)).
  destruct (f wa a _) as [[wa' da] r], (g wb b _) as [[wb' db] r']. simpl in Hf. destruct Hf as (Hw' & -> & ->).
  destruct r' as [count| | |]; try done. case_if; [|done]. case_if; [done|].
  destruct (FrameReader.push _ _ _) as [reader2 [u|e]]; [|done].
  destruct (FrameReader.take reader2) as [reader3 [m|]]; [done|]. by apply IH.
Qed.

Context `{Snow}.

(** The same secured stream over the other stream. *)
Definition retarget (s : Wrapped.t) : Wrapped.t :=
  Wrapped.mk _ (Wrapped.owner s) b ib (Wrapped.transport s) (Wrapped.outbound s) (Wrapped.outbound_offset s)
    (Wrapped.inbound s) (Wrapped.plaintext s) (Wrapped.plaintext_offset s) (Wrapped.sent_records s)
    (Wrapped.received_records s).

Definition over (s : Wrapped.t) : Prop := Wrapped.lower s = a /\ Wrapped.io s = ia.

Lemma flush_wrapped_same s wa wb : over s -> R wa wb ->
  let x := Wrapped.flush_wrapped tableA s wa in
  let y := Wrapped.flush_wrapped tableB (retarget s) wb in
  y.1.1 = retarget x.1.1 /\ over x.1.1 /\ R x.1.2 y.1.2 /\ x.2 = y.2.
Proof.
  intros [Hl Hi] Hw. unfold Wrapped.flush_wrapped. simpl. rewrite Hl, Hi.
  pose proof (flush_bytes_same (E := snow_error) wa wb (Wrapped.outbound s) (Wrapped.outbound_offset s) Hw) as Hf.
  destruct (flush_bytes tableA _ _ _ _ _) as [[wa' oa] ra], (flush_bytes tableB _ _ _ _ _) as [[wb' ob] rb].
  simpl in Hf. destruct Hf as (Hw' & -> & ->). destruct rb as [[]|]; simpl; unfold over; simpl; auto.
Qed.

Lemma copy_plaintext_same s room :
  Wrapped.copy_plaintext (retarget s) room =
  let '(s', out, r) := Wrapped.copy_plaintext s room in (retarget s', out, r).
Proof. unfold Wrapped.copy_plaintext. case_if; [done|]. simpl. by case_if. Qed.

Lemma copy_plaintext_over s room : over s -> over (Wrapped.copy_plaintext s room).1.1.
Proof. unfold Wrapped.copy_plaintext. intros Hs. case_if; [done|]. simpl. by case_if. Qed.

Lemma read_state_same s wa wb room : over s -> R wa wb ->
  let x := Wrapped.read_state tableA s wa room in
  let y := Wrapped.read_state tableB (retarget s) wb room in
  y.1.1.1 = retarget x.1.1.1 /\ over x.1.1.1 /\ R x.1.1.2 y.1.1.2 /\ x.1.2 = y.1.2 /\ x.2 = y.2.
Proof.
  intros Hs Hw. assert (forall s w w' room, over s -> R w w' ->
    let x := let '(s, out, r) := Wrapped.copy_plaintext s room in (s, w, out, r) in
    let y := let '(s, out, r) := Wrapped.copy_plaintext (retarget s) room in (s, w', out, r) in
    y.1.1.1 = retarget x.1.1.1 /\ over x.1.1.1 /\ R x.1.1.2 y.1.1.2 /\ x.1.2 = y.1.2 /\ x.2 = y.2) as Hcopy.
  { intros s0 w w' room0 Hs0 Hw0. rewrite copy_plaintext_same. pose proof (copy_plaintext_over s0 room0 Hs0).
    by destruct (Wrapped.copy_plaintext s0 room0) as [[s1 out] r]. }
  unfold Wrapped.read_state. simpl. case_if; [by apply Hcopy|]. case_if; [done|].
  destruct Hs as [Hl Hi]. rewrite Hl, Hi.
  pose proof (read_frame_same (E := snow_error) wa wb (Wrapped.inbound s) MAX_CIPHERTEXT Hw) as Hf.
  destruct (read_frame tableA _ _ _ _ _) as [[wa' oa] ra], (read_frame tableB _ _ _ _ _) as [[wb' ob] rb].
  simpl in Hf. destruct Hf as (Hw' & -> & ->).
  destruct rb as [[c|]|e]; [|done|by destruct e].
  simpl. destruct (ts_read_message _ _ _) as [ts [[|x l]|e]]; [done| |done].
  by apply (Hcopy (Wrapped.set_plaintext (Wrapped.set_records (Wrapped.set_transport (Wrapped.set_inbound s ob) ts)
    (Wrapped.sent_records s) (Wrapped.received_records s + 1)) (x :: l) 0)).
Qed.

Lemma write_record_same s input :
  Wrapped.write_record (retarget s) input =
  let '(s', r) := Wrapped.write_record s input in (retarget s', r).
Proof.
  unfold Wrapped.write_record. simpl. case_if; [done|]. case_if; [done|].
  destruct (ts_write_message _ _ _) as [ts [c|e]]; [|done]. by destruct (frame c _).
Qed.
Lemma write_record_over s input : over s -> over (Wrapped.write_record s input).1.
Proof.
  intros Hs. unfold Wrapped.write_record. case_if; [done|]. case_if; [done|].
  destruct (ts_write_message _ _ _) as [ts [c|e]]; [|done]. by destruct (frame c _).
Qed.

Lemma write_state_same s wa wb input : over s -> R wa wb ->
  let x := Wrapped.write_state tableA s wa input in
  let y := Wrapped.write_state tableB (retarget s) wb input in
  y.1.1 = retarget x.1.1 /\ over x.1.1 /\ R x.1.2 y.1.2 /\ x.2 = y.2.
Proof.
  intros Hs Hw. assert (forall s w w', over s -> R w w' ->
    let x := let '(s, r) := Wrapped.write_record s input in (s, w, r) in
    let y := let '(s, r) := Wrapped.write_record (retarget s) input in (s, w', r) in
    y.1.1 = retarget x.1.1 /\ over x.1.1 /\ R x.1.2 y.1.2 /\ x.2 = y.2) as Hrecord.
  { intros s0 w w' Hs0 Hw0. rewrite write_record_same. pose proof (write_record_over s0 input Hs0).
    by destruct (Wrapped.write_record s0 input) as [s1 r]. }
  unfold Wrapped.write_state. simpl. case_if; [|by apply Hrecord].
  pose proof (flush_wrapped_same s wa wb Hs Hw) as Hf.
  destruct (Wrapped.flush_wrapped tableA s wa) as [[sa wa'] ra],
    (Wrapped.flush_wrapped tableB (retarget s) wb) as [[sb wb'] rb].
  simpl in Hf. destruct Hf as (-> & Hs' & Hw' & ->). destruct rb as [[]|]; [by apply Hrecord|done..].
Qed.

Lemma flush_then_same s wa wb ca cb : over s -> R wa wb ->
  option_Forall2 (fun f g => forall wa wb, R wa wb -> R (f wa a).1 (g wb b).1 /\ (f wa a).2 = (g wb b).2) ca cb ->
  let x := Wrapped.flush_then tableA s wa ca in
  let y := Wrapped.flush_then tableB (retarget s) wb cb in
  y.1.1 = retarget x.1.1 /\ over x.1.1 /\ R x.1.2 y.1.2 /\ x.2 = y.2.
Proof.
  intros Hs Hw Hc. unfold Wrapped.flush_then. pose proof (flush_wrapped_same s wa wb Hs Hw) as Hf.
  destruct (Wrapped.flush_wrapped tableA s wa) as [[sa wa'] ra],
    (Wrapped.flush_wrapped tableB (retarget s) wb) as [[sb wb'] rb].
  simpl in Hf. destruct Hf as (-> & Hs' & Hw' & ->). destruct rb as [[]|]; [|done..].
  destruct Hc as [f g Hg|]; [|done]. simpl. rewrite (proj1 Hs'). specialize (Hg wa' wb' Hw').
  destruct (f wa' a), (g wb' b). simpl in *. naive_solver.
Qed.

(** ** The secured streams answer alike *)

(** The handle [h] of one module and [h'] of another lead to the same secured
    stream, over streams that are the same. *)
Definition noise_related (h h' : Z) (x : Noise.t * A) (y : Noise.t * B) : Prop :=
  R x.2 y.2 /\ exists s, Noise.WRAPPED x.1 !! h = Some s /\ over s /\ Noise.WRAPPED y.1 !! h' = Some (retarget s).

Lemma put_related h h' m m' s wa wb :
  over s -> R wa wb -> noise_related h h' (Noise.put m h s, wa) (Noise.put m' h' (retarget s), wb).
Proof. intros Hs Hw. split; [done|]. exists s. simpl. by rewrite !lookup_insert_eq. Qed.

#[export] Instance noise_same size size' h h' :
  SameStream true (noise_related h h') (fun x y => Rc x.2 y.2)
    (noise_table tableA size) h (noise_table tableB size') h'.
Proof.
  split; [..|intros [m wa] [m' wb] [Hw _]; by apply same_weaken]; simpl; constructor.
  - intros [m wa] [m' wb] n (Hw & s & Hm & Hs & Hm') _. simpl in *. unfold Noise.read. simpl. rewrite Hm, Hm'.
    pose proof (read_state_same s wa wb n Hs Hw) as Hf.
    destruct (Wrapped.read_state tableA s wa n) as [[[sa wa'] oa] ra],
      (Wrapped.read_state tableB (retarget s) wb n) as [[[sb wb'] ob] rb].
    simpl in *. destruct Hf as (-> & Hs' & Hw' & -> & ->). split; [by apply put_related|done].
  - intros [m wa] [m' wb] input (Hw & s & Hm & Hs & Hm'). simpl in *. rewrite Hm, Hm'.
    pose proof (write_state_same s wa wb input Hs Hw) as Hf.
    destruct (Wrapped.write_state tableA s wa input) as [[sa wa'] ra],
      (Wrapped.write_state tableB (retarget s) wb input) as [[sb wb'] rb].
    simpl in *. destruct Hf as (-> & Hs' & Hw' & ->). split; [by apply put_related|done].
  - intros [m wa] [m' wb] (Hw & s & Hm & Hs & Hm'). simpl in *. unfold Noise.flush. rewrite Hm, Hm'.
    unfold Wrapped.flush_state. simpl. rewrite (proj2 Hs).
    pose proof (flush_then_same s wa wb _ _ Hs Hw same_flush) as Hf.
    destruct (Wrapped.flush_then tableA s wa _) as [[sa wa'] ra],
      (Wrapped.flush_then tableB (retarget s) wb _) as [[sb wb'] rb].
    simpl in *. destruct Hf as (-> & Hs' & Hw' & ->). split; [by apply put_related|done].
  - intros [m wa] [m' wb] (Hw & s & Hm & Hs & Hm'). simpl in *. unfold Noise.shutdown_write. rewrite Hm, Hm'.
    unfold Wrapped.shutdown_state. simpl. rewrite (proj2 Hs).
    pose proof (flush_then_same s wa wb _ _ Hs Hw same_shutdown) as Hf.
    destruct (Wrapped.flush_then tableA s wa _) as [[sa wa'] ra],
      (Wrapped.flush_then tableB (retarget s) wb _) as [[sb wb'] rb].
    simpl in *. destruct Hf as (-> & Hs' & Hw' & ->). split; [by apply put_related|done].
  - intros [m wa] [m' wb] (Hw & s & Hm & Hs & Hm'). simpl in *. unfold Noise.close. rewrite Hm, Hm'.
    unfold close_lower. simpl. rewrite (proj1 Hs), (proj2 Hs).
    destruct same_close as [f g Hg|]; [|split; [by apply same_weaken|done]]. specialize (Hg wa wb Hw).
    destruct (f wa a), (g wb b). simpl in *. done.
Qed.

(** ** The handshakes *)

Definition retarget_pending (p : PendingHandshake.t) : PendingHandshake.t :=
  PendingHandshake.mk _ (PendingHandshake.owner p) b ib (PendingHandshake.handshake p) (PendingHandshake.outbound p)
    (PendingHandshake.outbound_offset p) (PendingHandshake.inbound p) (PendingHandshake.server_reply p).

Definition pending_over (p : PendingHandshake.t) : Prop :=
  PendingHandshake.lower p = a /\ PendingHandshake.io p = ia.

Abbreviation drive_alike x y :=
  (y.1.1 = retarget_pending x.1.1 /\ pending_over x.1.1 /\ R x.1.2 y.1.2 /\ x.2 = y.2).

Lemma finish_some_same p wa wb : pending_over p -> R wa wb ->
  let x := let '(p, r) := PendingHandshake.finish_some p in (p, wa, r) in
  let y := let '(p, r) := PendingHandshake.finish_some (retarget_pending p) in (p, wb, r) in
  drive_alike x y.
Proof.
  intros Hp Hw. unfold PendingHandshake.finish_some, PendingHandshake.finish. simpl.
  by destruct (PendingHandshake.handshake p).
Qed.

Lemma drive_read_same p wa wb : pending_over p -> R wa wb ->
  let x := PendingHandshake.drive_read tableA p wa in
  let y := PendingHandshake.drive_read tableB (retarget_pending p) wb in
  drive_alike x y.
Proof.
  intros Hp Hw. unfold PendingHandshake.drive_read. simpl. rewrite (proj1 Hp), (proj2 Hp).
  pose proof (read_frame_same (E := snow_error) wa wb (PendingHandshake.inbound p) MAX_HANDSHAKE Hw) as Hf.
  destruct (read_frame tableA _ _ _ _ _) as [[wa' oa] ra], (read_frame tableB _ _ _ _ _) as [[wb' ob] rb].
  simpl in Hf. destruct Hf as (Hw' & -> & ->). destruct rb as [[message|]|e]; [|done..]. simpl.
  destruct (PendingHandshake.handshake p) as [state|]; [|done].
  destruct (hs_read_message _ _ _) as [state1 [payload|e]]; [|done]. case_if; [done|]. simpl. case_if.
  2: { by apply (finish_some_same (PendingHandshake.set_handshake (PendingHandshake.set_inbound p ob) (Some state1))). }
  destruct (hs_write_message _ _ _) as [state2 r2]. destruct (_ ≫= _) as [out|e]; [|done].
  pose proof (flush_bytes_same (E := snow_error) wa' wb' out (PendingHandshake.outbound_offset p) Hw') as Hg.
  destruct (flush_bytes tableA _ _ _ _ _) as [[wa2 oa2] ra2], (flush_bytes tableB _ _ _ _ _) as [[wb2 ob2] rb2].
  simpl in Hg. destruct Hg as (Hw2 & -> & ->). destruct rb2 as [[]|]; [|done..].
  by apply (finish_some_same (PendingHandshake.set_outbound (PendingHandshake.set_handshake
    (PendingHandshake.set_handshake (PendingHandshake.set_inbound p ob) (Some state1)) (Some state2)) out ob2)).
Qed.

Lemma drive_same p wa wb : pending_over p -> R wa wb ->
  let x := PendingHandshake.drive tableA p wa in
  let y := PendingHandshake.drive tableB (retarget_pending p) wb in
  drive_alike x y.
Proof.
  intros Hp Hw. unfold PendingHandshake.drive. simpl. case_if; [|by apply drive_read_same].
  rewrite (proj1 Hp), (proj2 Hp).
  pose proof (flush_bytes_same (E := snow_error) wa wb (PendingHandshake.outbound p)
    (PendingHandshake.outbound_offset p) Hw) as Hg.
  destruct (flush_bytes tableA _ _ _ _ _) as [[wa2 oa2] ra2], (flush_bytes tableB _ _ _ _ _) as [[wb2 ob2] rb2].
  simpl in Hg. destruct Hg as (Hw2 & -> & ->). destruct rb2 as [[]|]; [|done..]. simpl. case_if.
  - by apply (finish_some_same (PendingHandshake.set_outbound
      (PendingHandshake.set_outbound p (PendingHandshake.outbound p) ob2) [] 0)).
  - by apply (drive_read_same (PendingHandshake.set_outbound
      (PendingHandshake.set_outbound p (PendingHandshake.outbound p) ob2) [] 0)).
Qed.
End same.

(** * A handle of protection-dummy is the stream it wraps *)

Lemma dummy_same {W} (table : Z -> SnolByteIoV1.t W) size io lower h ds :
  ProtectionDummy.State.WRAPPED ds !! h = Some (ProtectionDummy.Wrapped.mk lower io) ->
  complete_io table size io = true ->
  SameStream true (fun w x => x = (ds, w)) (fun w x => x.2 = w) (table io) lower (dummy_table table size) h.
Proof.
  intros Hh Hc. unfold complete_io in Hc. bools.
  destruct (table io) as [sz rsv [fr|] [fw|] [ff|] [fs|] [fc|]] eqn:Et; simpl in *; try done.
  split; simpl; try constructor.
  - intros w ? n -> _. unfold ProtectionDummy.read, wrapped. rewrite Hh. simpl. rewrite Et. simpl.
    by destruct (fr w lower n) as [[??]?].
  - intros w ? input ->. unfold ProtectionDummy.write, wrapped. rewrite Hh. simpl. rewrite Et. simpl.
    by destruct (fw w lower input).
  - intros w ? ->. unfold ProtectionDummy.flush, wrapped. rewrite Hh. simpl. rewrite Et. simpl.
    by destruct (ff w lower).
  - intros w ? ->. unfold ProtectionDummy.shutdown_write, wrapped. rewrite Hh. simpl. rewrite Et. simpl.
    by destruct (fs w lower).
  - intros w ? ->. unfold ProtectionDummy.close. rewrite Hh. simpl. rewrite Et. simpl.
    by destruct (fc w lower).
  - by intros w ? ->.
Qed.


(** * An example: two records, sealed and flushed over a wrapped stream *)
Section example.
#[local] Existing Instance ToySnow.snow.

Definition plain_stream : Wrapped.t := Wrapped.fresh 1 7 9 (0, 0).
Definition plain_module : Noise.t := Noise.mk _ ∅ ∅ {[5 := plain_stream]} 1 6.
Definition stacked_module : Noise.t := Noise.mk _ ∅ ∅ {[5 := retarget 3 1 plain_stream]} 1 6.
Definition calls : list call := [Write #"ab"; Flush; Write #"c"; Flush].
Definition stacked_table (id : Z) : SnolByteIoV1.t (ProtectionDummy.State.t * list (Z * bytes)) :=
  dummy_table demo_table 48.

End example.
