(* ===== verification/TcpStack.v ===== *)
(** Two hosts that are connected by TCP and secured by Noise: carrier-tcp and
    protection-noise together, through the table that the carrier publishes
    ([BYTE_IO] of modules/carrier-tcp/src/lib.rs).

    The kernel joins the sockets of the two hosts by two FIFO wires, and decides
    call by call what a socket takes, gives or refuses; a host may close its stream
    and the connection may break, which ends a direction with bytes lost ([cut]).  On
    each host the carrier
    turns the answers of its socket into I/O results, and protection-noise runs
    over them.  A stream of the carrier is the network of NoiseNet.v, seen through
    the table; so what is proved there holds of the whole stack, through the
    functions that the host calls. *)
From Stdlib Require Import Strings.Byte.
From stdpp Require Import functions.
From S2P Require Import Prelude Text Admin Abi Noise NoiseFacts NoiseNet NoiseHandshakes Socket Wake Tcp Stack.
#[local] Open Scope Z_scope.

(** * Connected sockets *)

(** Non-blocking calls on the socket of side [i]: a read into an empty buffer
    answers 0, as does the end of the stream; a write after the shutdown of the
    own direction fails. *)
Definition sock_read (k : net) (i : bool) (capacity : Z) : net * bytes * poll (result unit Z) :=
  if capacity =? 0 then (k, [], Ready (Ok 0))
  else match schedule k with
  | [] => (k, [], Pending)
  | n :: rest =>
      let k := Net (wire k) (closed k) rest in
      if n <? 0 then (k, [], Ready (Err tt))
      else if n =? 0 then (k, [], Pending)
      else if bool_decide (wire k (negb i) = []) then
        (k, [], if closed k (negb i) then Ready (Ok 0) else Pending)
      else
        let count := Z.min n (Z.min capacity (len (wire k (negb i)))) in
        (Net (<[negb i := drop (Z.to_nat count) (wire k (negb i))]> (wire k)) (closed k) rest,
         take (Z.to_nat count) (wire k (negb i)), Ready (Ok count))
  end.

Definition sock_write (k : net) (i : bool) (input : bytes) : net * poll (result unit Z) :=
  match schedule k with
  | [] => (k, Pending)
  | n :: rest =>
      let k := Net (wire k) (closed k) rest in
      if closed k i || (n <? 0) then (k, Ready (Err tt))
      else if n =? 0 then (k, Pending)
      else
        let count := Z.min n (len input) in
        (Net (<[i := wire k i ++ take (Z.to_nat count) input]> (wire k)) (closed k) rest,
         Ready (Ok count))
  end.

Definition sock_shutdown (k : net) (i : bool) : net := Net (wire k) (<[i := true]> (closed k)) (schedule k).

(** * The table of the carrier *)

(** The carrier module of each host, and the kernel between them. *)
Record world := World { carrier : bool -> Tcp.t; kernel : net }.

Section tables.
(** The descriptor of the connected socket on each side, and the handle that the
    host passes for being woken. *)
Context (fd : bool -> Z) (wake : SnolWakeHandle.t) (size_of_byte_io : Z).

Definition set_side (w : world) (i : bool) (m : Tcp.t) (k : net) : world :=
  World (<[i := m]> (carrier w)) k.

(** Whether a handle is a stream on the connected socket of its side. *)
Definition connected (w : world) (i : bool) (h : Z) : bool :=
  is_some_and (Tcp.streams (carrier w i) !! h)
    (fun s => Tcp.fd (StreamState.io s) =? fd i).

(** [BYTE_IO] of carrier-tcp on side [i]; the other sockets of the host never
    answer. *)
Definition tcp_table (i : bool) : SnolByteIoV1.t world := {|
  SnolByteIoV1.struct_size := size_of_byte_io;
  SnolByteIoV1.reserved := 0;
  SnolByteIoV1.read := Some (fun w h n =>
    let '(k, data, answer) :=
      if connected w i h then sock_read (kernel w) i n else (kernel w, [], Pending) in
    let '(m, r) := Tcp.read (carrier w i) h true answer wake in
    (set_side w i m k, data, r));
  SnolByteIoV1.write := Some (fun w h input =>
    let '(k, answer) :=
      if connected w i h && negb (bool_decide (input = [])) then sock_write (kernel w) i input
      else (kernel w, Pending) in
    let '(m, r) := Tcp.write (carrier w i) h input answer wake in
    (set_side w i m k, r));
  SnolByteIoV1.flush := Some (fun w h =>
    let '(m, r) := Tcp.io_action (carrier w i) h
      (if connected w i h then Ready (Ok tt) else Pending) wake in
    (set_side w i m (kernel w), r));
  SnolByteIoV1.shutdown_write := Some (fun w h =>
    let '(k, answer) :=
      if connected w i h then (sock_shutdown (kernel w) i, Ready (Ok tt)) else (kernel w, Pending) in
    let '(m, r) := Tcp.io_action (carrier w i) h answer wake in
    (set_side w i m k, r));
  SnolByteIoV1.close := Some (fun w h =>
    let k := if connected w i h then sock_shutdown (kernel w) i else kernel w in
    let '(m, status) := Tcp.close (carrier w i) h in
    (set_side w i m k, status));
|}.
End tables.

(** * A stream of the carrier is the network *)

Section stack.
Context (fd h : bool -> Z) (wake : SnolWakeHandle.t) (size : Z).

(** The stream of side [i] is open on its socket; the carrier of the other side is
    [other]. *)
Definition joined (i : bool) (other : Tcp.t) (w : world) (k : net) : Prop :=
  kernel w = k /\ connected fd w i (h i) = true /\ carrier w (negb i) = other.

Lemma joined_side i other w k m k' :
  joined i other w k -> connected fd (set_side w i m k') i (h i) = true ->
  joined i other (set_side w i m k') k'.
Proof.
  intros (_ & _ & Ho) Hi. split_and!; [done..|]. simpl. by rewrite fn_lookup_insert_ne by (by destruct i).
Qed.

Lemma connected_keeps w i m k :
  connected fd w i (h i) = true -> Tcp.streams m = Tcp.streams (carrier w i) ->
  connected fd (set_side w i m k) i (h i) = true.
Proof. unfold connected. simpl. rewrite fn_lookup_insert. by intros ? ->. Qed.

Lemma connected_update w i m k s s' :
  connected fd w i (h i) = true -> Tcp.streams (carrier w i) !! h i = Some s ->
  StreamState.io s' = StreamState.io s -> Tcp.streams m = <[h i := s']> (Tcp.streams (carrier w i)) ->
  connected fd (set_side w i m k) i (h i) = true.
Proof.
  unfold connected. simpl. rewrite fn_lookup_insert. intros Hc Hs Hio ->.
  rewrite lookup_insert_eq. rewrite Hs in Hc. simpl in *. by rewrite Hio.
Qed.

Lemma connected_stream w i : connected fd w i (h i) = true ->
  exists s, Tcp.streams (carrier w i) !! h i = Some s.
Proof. unfold connected. destruct (Tcp.streams _ !! _); [eauto|done]. Qed.

(** What the carrier does with an answer: it stays open, and hands it on. *)
Lemma tcp_read_keeps i other w k answer :
  joined i other w k -> let '(m, r) := Tcp.read (carrier w i) (h i) true answer wake in
  (forall k', joined i other (set_side w i m k') k') /\
  r = match answer with
      | Ready (Ok n) => if n =? 0 then SnolIoResult.eof else SnolIoResult.progress n
      | Ready (Err _) => SnolIoResult.error Status.IO
      | Pending => SnolIoResult.pending
      end.
Proof.
  intros Hj. pose proof (proj1 (proj2 Hj)) as Hc. destruct (connected_stream w i Hc) as [s Hs].
  unfold Tcp.read. simpl. rewrite Hs.
  destruct answer as [[n|[]]|]; [split; [|done]; intros; eapply joined_side; eauto using connected_keeps..|].
  destruct (WakeSlot.replace _ _) as [slot e]. split; [|done]. intros k'. eapply joined_side; [done|].
  by apply (connected_update _ _ _ _ s (Tcp.set_read_wake s slot)).
Qed.

Lemma tcp_write_keeps i other w k input answer :
  joined i other w k -> input <> [] -> let '(m, r) := Tcp.write (carrier w i) (h i) input answer wake in
  (forall k', joined i other (set_side w i m k') k') /\
  r = match answer with
      | Ready (Ok n) => if n =? 0 then SnolIoResult.error Status.IO else SnolIoResult.progress n
      | Ready (Err _) => SnolIoResult.error Status.IO
      | Pending => SnolIoResult.pending
      end.
Proof.
  intros Hj Hne. pose proof (proj1 (proj2 Hj)) as Hc. destruct (connected_stream w i Hc) as [s Hs].
  unfold Tcp.write. rewrite bool_decide_false, Hs by done.
  destruct answer as [[n|[]]|]; [split; [|done]; intros; eapply joined_side; eauto using connected_keeps..|].
  destruct (WakeSlot.replace _ _) as [slot e]. split; [|done]. intros k'. eapply joined_side; [done|].
  by apply (connected_update _ _ _ _ s (Tcp.set_write_wake s slot)).
Qed.

Lemma tcp_action_keeps i other w k :
  joined i other w k -> let '(m, r) := Tcp.io_action (carrier w i) (h i) (Ready (Ok tt)) wake in
  (forall k', joined i other (set_side w i m k') k') /\ r = SnolIoResult.progress 0.
Proof.
  intros Hj. pose proof (proj1 (proj2 Hj)) as Hc. destruct (connected_stream w i Hc) as [s Hs].
  unfold Tcp.io_action. rewrite Hs. split; [|done]. intros. eapply joined_side; eauto using connected_keeps.
Qed.

#[export] Instance tcp_same i other io :
  SameStream false (joined i other) (fun _ _ => True) (tcp_table fd wake size i) (h i) (net_table io) (lower_of i).
Proof.
  split; [..|done]; simpl; constructor.
  - intros w k n Hj [?|Hn]; [done|]. rewrite (proj1 (proj2 Hj)). pose proof Hj as (Hk & _). subst k.
    destruct (sock_read (kernel w) i n) as [[k data] answer] eqn:E.
    pose proof (tcp_read_keeps i other w (kernel w) answer Hj) as Ht.
    destruct (Tcp.read _ _ _ _ _) as [m r]. destruct Ht as [Hj' ->]. simpl.
    unfold sock_read in E. unfold net_read. rewrite side_lower, (proj2 (Z.eqb_neq _ _) Hn) in *.
    destruct (schedule (kernel w)) as [|x rest]; [by simplify_eq|]. simpl in *.
    repeat case_if_in E; simplify_eq; try done. bools. split_and!; [apply Hj'|done|]. simpl.
    assert (0 < len (wire (kernel w) (negb i))) by by apply len_pos. by rewrite (proj2 (Z.eqb_neq _ _)) by lia.
  - intros w k input Hj. rewrite (proj1 (proj2 Hj)). unfold net_write. simpl.
    destruct (decide (input = [])) as [->|Hne].
    { simpl. pose proof Hj as (<- & Hc & _). split; [|done]. eapply joined_side; [done|]. by apply connected_keeps. }
    rewrite bool_decide_false by done. simpl.
    destruct (sock_write (kernel w) i input) as [k' answer] eqn:E.
    pose proof (tcp_write_keeps i other w k input answer Hj) as Ht. destruct Hj as (<- & Hc & _).
    destruct (Tcp.write _ _ _ _ _) as [m r]. destruct Ht as [Hj' ->]; [done|]. simpl.
    unfold sock_write in E. rewrite side_lower.
    destruct (schedule (kernel w)) as [|x rest]; [by simplify_eq|]. simpl in *.
    repeat case_if_in E; simplify_eq; try done. bools. split_and!; [apply Hj'|]. simpl.
    assert (0 < len input) by by apply len_pos. by rewrite (proj2 (Z.eqb_neq _ _)) by lia.
  - intros w k Hj. rewrite (proj1 (proj2 Hj)). pose proof (tcp_action_keeps i other w k Hj) as Ht.
    destruct (Tcp.io_action _ _ _ _) as [m r]. destruct Ht as [Hj' ->]. destruct Hj as (<- & _). split; [apply Hj'|done].
  - intros w k Hj. rewrite (proj1 (proj2 Hj)). pose proof (tcp_action_keeps i other w k Hj) as Ht.
    destruct (Tcp.io_action _ _ _ _) as [m r]. destruct Ht as [Hj' ->]. simpl. split; [|done].
    unfold net_shutdown. rewrite side_lower. destruct Hj as (<- & _). apply Hj'.
  - intros w k Hj. pose proof (proj1 (proj2 Hj)) as Hc. destruct (connected_stream w i Hc) as [s Hs].
    unfold Tcp.close. rewrite Hs. by case_match.
Qed.

(** * Both hosts *)

Context `{SnowLaws}.

(** The secured stream [hn i] of protection-noise on side [i] lies over the stream
    [h i] of the carrier. *)
Context (hn : bool -> Z).

Definition lower_table (i : bool) (io : Z) : SnolByteIoV1.t world := tcp_table fd wake size i.
Definition secured (i : bool) : SnolByteIoV1.t (Noise.t * world) := noise_table (lower_table i) size.

(** The modules and the world, the bytes written and read through the secured
    streams, and the directions that did not end in order: bytes sent in them may be
    lost. *)
Record hosts := Hosts {
  modules : bool -> Noise.t;
  stack_world : world;
  written : bool -> bytes;
  given : bool -> bytes;
  cut : bool -> bool;
}.

(** What a call on side [i] adds to the bytes written, and to the bytes read. *)
Definition log_write (c : call) (r : SnolIoResult.t) : bytes :=
  match c with Write input => taken r input | _ => [] end.
Definition log_read (c : call) (data : bytes) : bytes :=
  match c with Read _ => data | _ => [] end.

(** A user does not write after it shut the stream down, and a length is not
    negative. *)
Definition allowed (s : hosts) (i : bool) (c : call) : Prop :=
  match c with
  | Write _ => closed (kernel (stack_world s)) i = false \/ cut s i = true
  | Read n => 0 <= n
  | _ => True
  end.

(** Whether the secured stream of a side is open. *)
Definition live (s : hosts) (i : bool) : bool := is_some (Noise.WRAPPED (modules s i) !! hn i).

(** A call of the host on a secured stream; closing one, with whatever was not sent;
    a kernel that goes on otherwise than before; a connection that breaks in one
    direction, with what is on its wire cut off anywhere and the end of the stream
    reported after it; and whatever else the host does with its carrier, as long as
    the stream below an open secured stream stays. *)
Inductive hstep : hosts -> hosts -> Prop :=
| hstep_call s i c m w data r :
    allowed s i c ->
    invoke (secured i) (hn i) (modules s i, stack_world s) c = ((m, w), Some (data, r)) ->
    hstep s (Hosts (<[i := m]> (modules s)) w
      (<[i := written s i ++ log_write c r]> (written s)) (<[i := given s i ++ log_read c data]> (given s)) (cut s))
| hstep_close s i m w status :
    Noise.close (lower_table i) (modules s i) (stack_world s) (hn i) = (m, w, status) ->
    hstep s (Hosts (<[i := m]> (modules s)) w (written s) (given s)
      (<[i := cut s i || live s i && negb (closed (kernel (stack_world s)) i)]> (cut s)))
| hstep_kernel s l :
    let w := stack_world s in
    hstep s (Hosts (modules s) (World (carrier w) (Net (wire (kernel w)) (closed (kernel w)) l))
      (written s) (given s) (cut s))
| hstep_break s i x :
    let w := stack_world s in
    x `prefix_of` wire (kernel w) i ->
    hstep s (Hosts (modules s)
      (World (carrier w) (Net (<[i := x]> (wire (kernel w))) (<[i := true]> (closed (kernel w))) (schedule (kernel w))))
      (written s) (given s) (<[i := true]> (cut s)))
| hstep_carrier s i m :
    let w := set_side (stack_world s) i m (kernel (stack_world s)) in
    (live s i = true -> connected fd w i (h i) = true) ->
    hstep s (Hosts (modules s) w (written s) (given s) (cut s)).

(** Just after the handshake. *)
Definition hinitial (s : hosts) : Prop :=
  (forall i, connected fd (stack_world s) i (h i) = true) /\
  (exists ts : bool -> TransportState,
     (forall i, exists owner io, Noise.WRAPPED (modules s i) !! hn i = Some (Wrapped.fresh owner (h i) io (ts i))) /\
     forall i, session 0 (tx (ts i)) (rx (ts (negb i)))) /\
  (forall i, wire (kernel (stack_world s)) i = [] /\ closed (kernel (stack_world s)) i = false /\
     written s i = [] /\ given s i = [] /\ cut s i = false).

Definition hreachable (s : hosts) : Prop := exists s0, hinitial s0 /\ rtc hstep s0 s.

(** The hosts are the two sides of NoiseNet.v, as long as their streams are open. *)
Definition mirrors (s : hosts) (t : sys) : Prop :=
  kernel (stack_world s) = below t /\
  (forall i, written s i = accepted t i) /\ (forall i, given s i = delivered t i) /\
  forall i x, Noise.WRAPPED (modules s i) !! hn i = Some x ->
    Wrapped.lower x = h i /\ st t i = retarget (Wrapped.io x) (lower_of i) x /\
    connected fd (stack_world s) i (h i) = true.

Lemma mirrors_joined s t i x :
  mirrors s t -> Noise.WRAPPED (modules s i) !! hn i = Some x ->
  joined i (carrier (stack_world s) (negb i)) (stack_world s) (below t) /\ over (Wrapped.io x) (h i) x /\
  st t i = retarget (Wrapped.io x) (lower_of i) x.
Proof. intros (Hk & _ & _ & Hst) Hx. destruct (Hst i x Hx) as (Hl & Ht & Hc). by split_and!. Qed.

(** A call on side [i] leaves the other side as it is. *)
Lemma connected_other w w' i : carrier w' (negb i) = carrier w (negb i) ->
  connected fd w' (negb i) (h (negb i)) = connected fd w (negb i) (h (negb i)).
Proof. unfold connected. by intros ->. Qed.

Lemma mirrors_put s t i x y w k acc del :
  mirrors s t -> Noise.WRAPPED (modules s i) !! hn i = Some x ->
  over (Wrapped.io x) (h i) y -> joined i (carrier (stack_world s) (negb i)) w k ->
  mirrors (Hosts (<[i := Noise.put (modules s i) (hn i) y]> (modules s)) w
             (<[i := acc]> (written s)) (<[i := del]> (given s)) (cut s))
          (Sys _ (<[i := retarget (Wrapped.io x) (lower_of i) y]> (st t)) k
             (<[i := acc]> (accepted t)) (<[i := del]> (delivered t))).
Proof.
  intros (_ & Hw & Hg & Hst) Hx [Hl Hio] (Hk & Hc & Ho).
  split_and!; [done|..]; intros j; simpl.
  1, 2: destruct (decide (j = i)) as [->|Hj']; [rewrite !fn_lookup_insert|rewrite !fn_lookup_insert_ne by done]; auto.
  destruct (decide (j = i)) as [->|Hj']; [rewrite !fn_lookup_insert|rewrite !fn_lookup_insert_ne by done].
  - intros x0. simpl. rewrite lookup_insert_eq. intros [= <-]. by rewrite Hio.
  - intros x0 Hx0. assert (j = negb i) as -> by (destruct i, j; done).
    destruct (Hst _ _ Hx0) as (? & ? & ?). rewrite (connected_other _ _ _ Ho). done.
Qed.

Lemma mirrors_ext s t acc del :
  mirrors s t -> (forall i, accepted t i = acc i) -> (forall i, delivered t i = del i) ->
  mirrors s (Sys _ (st t) (below t) acc del).
Proof. intros (Hj & Hw & Hg & Hst) Ha Hd. split_and!; try done; intros i; simpl; congruence. Qed.

Ltac pointwise i :=
  let j := fresh "j" in
  intros j; simpl; destruct (decide (j = i)) as [->|];
  rewrite ?fn_lookup_insert, ?fn_lookup_insert_ne by done; rewrite ?app_nil_r; congruence || auto.

Lemma flush_then_mirrors s t i x ca cb x1 w1 r1 :
  mirrors s t -> Noise.WRAPPED (modules s i) !! hn i = Some x ->
  option_Forall2 (fun f g => forall w k, joined i (carrier (stack_world s) (negb i)) w k ->
    joined i (carrier (stack_world s) (negb i)) (f w (h i)).1 (g k (lower_of i)).1 /\
    (f w (h i)).2 = (g k (lower_of i)).2) ca cb ->
  Wrapped.flush_then (lower_table i) x (stack_world s) ca = (x1, w1, r1) ->
  exists y k, Wrapped.flush_then net_table (st t i) (below t) cb = (y, k, r1) /\
    mirrors (Hosts (<[i := Noise.put (modules s i) (hn i) x1]> (modules s)) w1
               (<[i := written s i ++ []]> (written s)) (<[i := given s i ++ []]> (given s)) (cut s))
            (Sys _ (<[i := y]> (st t)) k (accepted t) (delivered t)).
Proof.
  intros Hm Hx Hc Ew. pose proof Hm as (_ & Hw & Hg & _).
  destruct (mirrors_joined s t i x Hm Hx) as (Hj & Ho & Ht).
  pose proof (flush_then_same _ (fun _ _ => True) (lower_table i) net_table (Wrapped.io x) (h i)
    (Wrapped.io x) (lower_of i) false x (stack_world s) (below t) ca cb Ho Hj Hc) as Hs.
  rewrite Ew, <- Ht in Hs. destruct (Wrapped.flush_then net_table _ _ _) as [[y k] r2].
  simpl in Hs. destruct Hs as (-> & Ho1 & Hj1 & ->). eexists _, _. split; [done|].
  apply (mirrors_ext _ _ _ _ (mirrors_put s t i x x1 w1 k (written s i ++ []) (given s i ++ []) Hm Hx Ho1 Hj1));
    pointwise i.
Qed.

(** A call on a stream that was closed does nothing. *)
Lemma call_closed s i c m w data r :
  Noise.WRAPPED (modules s i) !! hn i = None ->
  invoke (secured i) (hn i) (modules s i, stack_world s) c = ((m, w), Some (data, r)) ->
  m = modules s i /\ w = stack_world s /\ log_write c r = [] /\ log_read c data = [].
Proof.
  intros Hx. destruct c as [n|input| |]; simpl;
    unfold Noise.read, Noise.write, Noise.flush, Noise.shutdown_write; simpl; rewrite Hx; by intros [= <- <- <- <-].
Qed.

Lemma mirrors_call s t i c m w data r :
  mirrors s t -> allowed s i c ->
  invoke (secured i) (hn i) (modules s i, stack_world s) c = ((m, w), Some (data, r)) ->
  exists t', rtc (step_with (cut s)) t t' /\
    mirrors (Hosts (<[i := m]> (modules s)) w
      (<[i := written s i ++ log_write c r]> (written s)) (<[i := given s i ++ log_read c data]> (given s)) (cut s)) t'.
Proof.
  intros Hm Ha Hi. pose proof Hm as (Hk & Hw & Hg & Hst).
  destruct (Noise.WRAPPED (modules s i) !! hn i) as [x|] eqn:Hx.
  2: { destruct (call_closed _ _ _ _ _ _ _ Hx Hi) as (-> & -> & -> & ->). exists t. split; [done|].
       rewrite !app_nil_r. split_and!; [done|by pointwise i|by pointwise i|]. intros j y. simpl.
       destruct (decide (j = i)) as [->|]; [rewrite fn_lookup_insert|rewrite fn_lookup_insert_ne by done]; auto. }
  destruct (mirrors_joined s t i x Hm Hx) as (Hj & Ho & Ht).
  destruct c as [n|input| |]; simpl in *.
  - unfold Noise.read in Hi. simpl in Hi. rewrite Hx in Hi.
    pose proof (read_state_same _ (fun _ _ => True) (lower_table i) net_table (Wrapped.io x) (h i)
      (Wrapped.io x) (lower_of i) false x (stack_world s) (below t) n Ho Hj) as Hs.
    destruct (Wrapped.read_state (lower_table i) _ _ _) as [[[x1 w1] d1] r1].
    destruct (Wrapped.read_state net_table _ _ _) as [[[y k] d] r2] eqn:En.
    simpl in Hs. destruct Hs as (-> & Ho1 & Hj1 & -> & ->). simplify_eq.
    eexists. split; [apply rtc_once; eapply step_read; [exact Ha|]; rewrite Ht; exact En|].
    apply (mirrors_ext _ _ _ _ (mirrors_put s t i x x1 w k (written s i ++ []) (given s i ++ data) Hm Hx Ho1 Hj1));
      pointwise i.
  - rewrite Hx in Hi.
    pose proof (write_state_same _ (fun _ _ => True) (lower_table i) net_table (Wrapped.io x) (h i)
      (Wrapped.io x) (lower_of i) false x (stack_world s) (below t) input Ho Hj) as Hs.
    destruct (Wrapped.write_state (lower_table i) _ _ _) as [[x1 w1] r1].
    destruct (Wrapped.write_state net_table _ _ _) as [[y k] r2] eqn:En.
    simpl in Hs. destruct Hs as (-> & Ho1 & Hj1 & ->). simplify_eq.
    eexists. split; [apply rtc_once; eapply step_write; [|rewrite Ht; exact En]; by rewrite <- Hk|].
    apply (mirrors_ext _ _ _ _ (mirrors_put s t i x x1 w k (written s i ++ taken r input) (given s i ++ []) Hm Hx Ho1 Hj1));
      pointwise i.
  - unfold Noise.flush, Wrapped.flush_state in Hi. rewrite Hx in Hi.
    destruct (Wrapped.flush_then (lower_table i) _ _ _) as [[x1 w1] r1] eqn:Ew. simplify_eq.
    destruct (flush_then_mirrors s t i x _ _ _ _ _ Hm Hx (same_flush (SameStream := tcp_same i _ (Wrapped.io x))) Ew)
      as (y & k & En & Hm'). eexists. split; [by eapply rtc_once, step_flush|exact Hm'].
  - unfold Noise.shutdown_write, Wrapped.shutdown_state in Hi. rewrite Hx in Hi.
    destruct (Wrapped.flush_then (lower_table i) _ _ _) as [[x1 w1] r1] eqn:Ew. simplify_eq.
    destruct (flush_then_mirrors s t i x _ _ _ _ _ Hm Hx (same_shutdown (SameStream := tcp_same i _ (Wrapped.io x))) Ew)
      as (y & k & En & Hm'). eexists. split; [by eapply rtc_once, step_shutdown|exact Hm'].
Qed.

(** Closing a secured stream closes the stream of the carrier, and the kernel ends
    the direction. *)
Lemma mirrors_close s t i m w status :
  mirrors s t -> invariant (cut s) t ->
  Noise.close (lower_table i) (modules s i) (stack_world s) (hn i) = (m, w, status) ->
  let s' := Hosts (<[i := m]> (modules s)) w (written s) (given s)
    (<[i := cut s i || live s i && negb (closed (kernel (stack_world s)) i)]> (cut s)) in
  exists t', invariant (cut s') t' /\ mirrors s' t'.
Proof.
  intros Hm Hinv Hclose. pose proof Hm as (Hk & Hw & Hg & Hst). unfold Noise.close in Hclose.
  destruct (Noise.WRAPPED (modules s i) !! hn i) as [x|] eqn:Hx.
  - destruct (Hst i x Hx) as (Hl & Ht & Hc). unfold close_lower in Hclose. simpl in Hclose.
    rewrite Hl, Hc in Hclose. destruct (Tcp.close (carrier (stack_world s) i) (h i)) as [mt st0].
    injection Hclose as <- <- <-. eexists. split; [simpl; unfold live; rewrite Hx, Hk; by apply close_invariant|].
    split_and!; [by rewrite <- Hk|done|done|]. simpl. intros j y.
    destruct (decide (j = i)) as [->|Hj]; [rewrite fn_lookup_insert; simpl; by rewrite lookup_delete_eq|].
    rewrite fn_lookup_insert_ne by done. intros Hy. destruct (Hst j y Hy) as (? & ? & Hcj). split_and!; [done..|].
    unfold connected in *. simpl. by rewrite fn_lookup_insert_ne.
  - injection Hclose as <- <- <-. exists t. split.
    + eapply invariant_ext; [|exact Hinv]. intros j. simpl. unfold live. rewrite Hx. simpl.
      rewrite orb_false_r. destruct (decide (j = i)) as [->|]; [by rewrite fn_lookup_insert|by rewrite fn_lookup_insert_ne].
    + split_and!; [done..|]. intros j y. simpl.
      destruct (decide (j = i)) as [->|]; [rewrite fn_lookup_insert|rewrite fn_lookup_insert_ne by done]; auto.
Qed.

Lemma mirrors_step s s' t :
  hstep s s' -> invariant (cut s) t -> mirrors s t -> exists t', invariant (cut s') t' /\ mirrors s' t'.
Proof.
  intros Hstep Hinv Hm.
  destruct Hstep as [s i c m w data r Ha Hi|s i m w status Hc|s l w|s i x w Hx|s i m w Hc].
  - destruct (mirrors_call s t i c m w data r Hm Ha Hi) as (t' & Ht & Hm'). exists t'. split; [|done].
    simpl. clear -Ht Hinv. induction Ht; eauto using step_invariant.
  - by apply (mirrors_close s t i m w status).
  - eexists. split; [by eapply step_invariant; [apply (step_schedule _ t l)|]|].
    destruct Hm as (Hk & Hw & Hg & Hst). by split_and!; [simpl; rewrite <- Hk|..].
  - destruct Hm as (Hk & Hw & Hg & Hst). exists (cuts i x t). unfold w in *. rewrite Hk in *.
    split; [by apply cuts_invariant|]. by split_and!.
  - exists t. split; [done|]. destruct Hm as (Hk & Hw & Hg & Hst). split_and!; [done..|].
    intros j x Hx. destruct (Hst j x Hx) as (? & ? & Hj). split_and!; [done..|].
    destruct (decide (j = i)) as [->|Hne]; [apply Hc; unfold live; simpl in Hx; by rewrite Hx|].
    unfold connected in *. simpl. by rewrite fn_lookup_insert_ne.
Qed.

Lemma hinitial_mirrors s : hinitial s -> exists t, initial t /\ mirrors s t.
Proof.
  intros (Hc & (ts & Hx & Hses) & Hempty).
  set (stream i := default (Wrapped.fresh 0 0 0 (ts i)) (Noise.WRAPPED (modules s i) !! hn i)).
  assert (forall i, exists owner io, stream i = Wrapped.fresh owner (h i) io (ts i)) as Hs.
  { intros i. destruct (Hx i) as (owner & io & Hi). exists owner, io. unfold stream. by rewrite Hi. }
  exists (Sys _ (fun i => retarget (Wrapped.io (stream i)) (lower_of i) (stream i)) (kernel (stack_world s))
    (written s) (given s)). split.
  - split_and!; simpl; [|intros i..].
    + intros i. destruct (Hs i) as (owner & io & ->). by exists owner, io, (ts i).
    + destruct (Hs i) as (? & ? & ->), (Hs (negb i)) as (? & ? & ->). apply Hses.
    + by destruct (Hempty i) as (? & ? & ? & ? & _).
  - split_and!; [done..|]. intros i x Hi. simpl. destruct (Hx i) as (owner & io & Hi').
    unfold stream. rewrite Hi in *. by simplify_eq.
Qed.

Lemma hreachable_mirrors s : hreachable s -> exists t, invariant (cut s) t /\ mirrors s t.
Proof.
  intros (s0 & Hini & Hs). assert (exists t, invariant (cut s0) t /\ mirrors s0 t) as (t0 & Hi & Hm).
  { pose proof Hini as (_ & _ & Hcut). apply hinitial_mirrors in Hini as (t & Hi%initial_invariant & Hm).
    exists t. split; [|done]. eapply invariant_ext; [|exact Hi]. intros i. by destruct (Hcut i) as (_ & _ & _ & _ & ->). }
  clear Hini. revert t0 Hi Hm. induction Hs as [s|s s1 s' Hstep _ IH]; intros t Hi Hm; [eauto|].
  destruct (mirrors_step _ _ _ Hstep Hi Hm) as (t' & Hi' & Hm'). by eapply IH.
Qed.

End stack.

(** * An example: a message crosses the stack in small pieces *)
Section example.
#[local] Existing Instances ToySnow.snow ToySnow.laws.

Definition demo_wake : SnolWakeHandle.t := SnolWakeHandle.mk 5 (Some true) true true.
Definition demo_fd (i : bool) : Z := if i then 7 else 8.
Definition demo_handle (i : bool) : Z := 1.
Definition demo_secured (i : bool) : Z := if i then 3 else 4.

Definition demo_carrier (i : bool) : Tcp.t :=
  Tcp.mk ∅ {[1 := StreamState.mk 1 (mkStream (demo_fd i) (SocketAddr.V4 0 443)) None None]}
    2 2 ∅ [] [].
Definition demo_hosts : hosts :=
  Hosts (fun i => Noise.mk _ ∅ ∅ {[demo_secured i := Wrapped.fresh 1 1 8 (0, 0)]} 1 9)
    (World demo_carrier (Net (fun _ => []) (fun _ => false) (replicate 40 3))) (fun _ => []) (fun _ => [])
    (fun _ => false).

Abbreviation demo_table := (secured demo_fd demo_wake 48).

(** One call of a host, if it is allowed. *)
Definition hperform (s : hosts) (ic : bool * call) : hosts :=
  let '(i, c) := ic in
  match invoke (demo_table i) (demo_secured i) (modules s i, stack_world s) c with
  | ((m, w), Some (data, r)) =>
      Hosts (<[i := m]> (modules s)) w (<[i := written s i ++ log_write c r]> (written s))
        (<[i := given s i ++ log_read c data]> (given s)) (cut s)
  | (_, None) => s
  end.

Definition permits (s : hosts) (ic : bool * call) : bool :=
  match ic.2 with
  | Write _ => negb (closed (kernel (stack_world s)) ic.1)
  | Read n => 0 <=? n
  | _ => true
  end.

Fixpoint all_permits (s : hosts) (l : list (bool * call)) : bool :=
  match l with [] => true | c :: l => permits s c && all_permits (hperform s c) l end.

Lemma hperform_step s i c :
  permits s (i, c) = true ->
  hperform s (i, c) = s \/ hstep demo_fd demo_handle demo_wake 48 demo_secured s (hperform s (i, c)).
Proof.
  intros Hp. unfold hperform.
  destruct (invoke _ _ _ _) as [[m w] [[data r]|]] eqn:E; [right|by left].
  eapply hstep_call; [|exact E]. destruct c; unfold permits in Hp; simpl in *; bools; try done. by left.
Qed.

Lemma hperform_reach l s :
  all_permits s l = true ->
  rtc (hstep demo_fd demo_handle demo_wake 48 demo_secured) s (fold_left hperform l s).
Proof.
  revert s. induction l as [|[i c] l IH]; intros s; [constructor|].
  cbn [all_permits fold_left]. intros [Hp Hl]%andb_prop. apply IH in Hl.
  destruct (hperform_step s i c Hp) as [Hs|Hs]; [by rewrite Hs in *|by eapply rtc_l].
Qed.

Definition demo_calls : list (bool * call) :=
  [(true, Write #"attack at dawn"); (true, Flush); (true, Shutdown); (false, Read 6); (false, Read 100)].
Definition demo_final : hosts := fold_left hperform demo_calls demo_hosts.

Lemma demo_hosts_initial : hinitial demo_fd demo_handle demo_secured demo_hosts.
Proof.
  split_and!; [by intros []|exists (fun _ => (0, 0))|by intros i]. split; [|by intros i].
  intros i. exists 1, 8. apply lookup_singleton_eq.
Qed.

Lemma demo_final_reachable : hreachable demo_fd demo_handle demo_wake 48 demo_secured demo_final.
Proof. exists demo_hosts. split; [apply demo_hosts_initial|]. apply hperform_reach. vm_compute. reflexivity. Qed.


(** The connection breaks while the second half of a message is on the wire: the
    reader is told the end of the stream and has got nothing of the message. *)
Definition demo_broken : hosts :=
  let s := hperform (hperform demo_hosts (true, Write #"attack at dawn")) (true, Flush) in
  let w := stack_world s in
  Hosts (modules s)
    (World (carrier w) (Net (<[true := take 20 (wire (kernel w) true)]> (wire (kernel w)))
       (<[true := true]> (closed (kernel w))) (schedule (kernel w))))
    (written s) (given s) (<[true := true]> (cut s)).

Theorem noise_over_tcp_truncated :
  hreachable demo_fd demo_handle demo_wake 48 demo_secured demo_broken /\
  (invoke (demo_table false) 4 (modules demo_broken false, stack_world demo_broken) (Read 100)).2
    = Some ([], SnolIoResult.eof) /\
  given demo_broken false = [] /\ written demo_broken true = #"attack at dawn".
Proof.
  split; [|vm_compute; done]. exists demo_hosts. split; [apply demo_hosts_initial|].
  eapply rtc_r; [apply (hperform_reach [(true, Write #"attack at dawn"); (true, Flush)]); vm_compute; reflexivity|].
  apply hstep_break. apply prefix_take.
Qed.
End example.
